(* ===== verification/_CoqProject ===== *)
-Q . S2P
Prelude.v
Num.v
Constants.v
CString.v
Sums.v
Matrix.v
Mlpg.v
Likelihood.v
Generation.v
Dft.v
Fft.v
RealNum.v
MlsaCheck.v
Fifo.v
MemQueue.v
LabelQueue.v
Spsc.v
Duration.v
Filters.v
Vocoder.v
PsolaVocoder.v
Label.v
Voice.v
HtsPattern.v
HtsTree.v
HtsModel.v
HtsVoice.v
HtsPdf.v
Model.v
ModelQueue.v
Layout.v
Trajectory.v
Building.v
Engine.v
HtsLoad.v
Mage.v
Run.v
Thread.v
Speech.v
SCMage.v
Playing.v
