(* ===== verification/Prelude.v ===== *)
(** * Vox: verification of the MAGE speech synthesis core

    Vox is a norns script whose sound comes from a SuperCollider UGen,
    src/lib/scmage/SCMage/SCMage.cpp, that runs MAGE, a real-time HMM speech
    synthesiser in C++ (src/lib/scmage/mage/src).  This library models MAGE and
    the UGen and proves what makes them correct.  Paths below are relative to
    src/lib/scmage.

    ** The program

    Labels (lines of text that describe a phoneme in context) wait in a label
    queue.  A thread takes them one by one ([Mage::run]): the decision trees of
    hts_engine give every label the durations and distributions of five states
    (a model); the model goes into a model queue; the window of the last models
    is laid out frame by frame, the most likely trajectories are computed by
    solving band linear equations, and the frames of the newest model go into a
    frame queue.  The audio callback takes a frame off that queue every [hopLen]
    samples, gives it to the vocoder (an MLSA or MGLSA filter driven by pulses or
    noise) and reads one sample at a time from it.  Engines (voices) are loaded
    from the arguments of a configuration and may be interpolated.

    ** The files

    Foundations:
    - [Prelude]: outcomes of C++ code ([Res]: a value, undefined behaviour with
      its reason, an exit status, no result), machine integers, arrays with
      checked accesses, counting loops with their rules, record updates.
    - [Num]: the floating-point operations as a class [NumOps], with the laws
      the proofs use, an IEEE binary64 instance and an exact rational one;
      [RealNum]: the instance at the real numbers.
    - [Constants]: mage/src/Constants.h.  [CString]: C strings, atoi and atof,
      string streams.  [Matrix]: arrays of rows and the loops over them.
    - [Sums]: finite sums and band matrices (mathematics for [Mlpg]);
      [Dft]: complex numbers and Fourier transforms (mathematics for [Fft]).

    Queues:
    - [Fifo]: what the two kinds of queues promise their clients, as a class.
    - [MemQueue]: mage/src/MemQueue.h, the ring buffer template (also
      FrameQueue.cpp); [LabelQueue]: mage/src/LabelQueue.cpp.
    - [Spsc]: one producer and one consumer thread on a [MemQueue].

    From labels to frames:
    - [Label]: mage/src/Label.cpp.
    - [Voice]: what MAGE reads of a loaded voice (hts_engine), as an interface.
    - [Duration]: mHTS_set_duration of mage/src/hts.cpp, next to the routine of
      hts_engine it was copied from.
    - [Model]: mage/src/Model.cpp, durations and distributions of a label;
      [Building]: that these return.
    - [Mlpg]: the parameter generation of mage/src/hts.cpp; [Likelihood]: the
      specification of what it computes (weighted squares) and its equations;
      [Generation]: the routine as a whole meets it.
    - [ModelQueue]: mage/src/ModelQueue.cpp, from distributions to frames;
      [Layout]: what its layout of the distributions computes; [Trajectory]: the
      specification met for a window of models.
    - [Fft] and [MlsaCheck]: fft-sptk.c and mlsacheck-sptk.c of mage/libs/sptk,
      the stability check of the spectrum of a frame.

    Voices (mage/libs/hts_engine-1.06):
    - [HtsPattern]: the matching of labels with patterns; [HtsTree]: questions
      and decision trees; [HtsModel]: model sets and what is read of them;
      [HtsPdf]: the files of distributions; [HtsLoad]: the loading of a model
      set, an implementation of the interface [Engine.ModelFiles]; [HtsVoice]:
      a complete model set implements [Voice].
    - [Engine]: Engine::load and GetNumInterp of mage/src/hts.cpp, with the
      settings of hts_engine they reach.

    Samples and the whole:
    - [Filters]: the SPTK filters at the end of mage/src/Vocoder.cpp;
      [Vocoder]: the class of that file, on its one allocation;
      [PsolaVocoder]: mage/src/PsolaVocoder.cpp, a class derived from it that
      nothing instantiates.
    - [Mage]: mage/src/mage.cpp, the synthesiser; [Run]: that a run returns and
      what it leaves; [Thread]: a run cut where the program waits, into its
      beginning and its frames; [Speech]: the composition of construction,
      loading, labels and threads.
    - [SCMage]: SCMage/SCMage.cpp, the UGen; [Playing]: the composition on its
      side, from the constructor and the files of a voice to blocks of samples.

    Each component has a Module of its file's name; the state of a class is the
    record [t] with the fields of the class, and each member function is a
    definition of its name that takes the state and returns the new one.  Names
    that C++ overloads have suffixes ([push], [push_items]); a loop body that is
    a definition of its own says so in its comment.

    ** How code becomes definitions

    A function that can fail returns [Res].  Out-of-range accesses, signed
    overflow, conversions of a [double] that does not fit an [int], division by
    zero, null pointers, accesses to freed memory and reads of indeterminate
    values are [Undef]; unsigned arithmetic wraps ([wrap_u32]).  Members that a
    constructor leaves unwritten are arguments of the model, or [option]s when a
    read of them is a mistake.  Pointers into a queue are indices of its slots,
    so that the aliasing of [Mage::model] with the model queue is kept; the
    nodes of a decision tree are cells of a heap.  Every engine of the map owns
    its weights, so a value stands for the pointer.  Definitions are generic in
    the numbers: the functional theorems on values (solution of equations,
    interpolation, inverse filters, transforms) are proved on exact arithmetic,
    those on bounds, memory and control for any arithmetic or for binary64.

    [Timeout] stands for waiting (the producer waits for room in the frame
    queue; in [Thread] this is a turn that sleeps) and for fuel that ran out.  Where a definition has fuel, a theorem or
    a lemma shows that it is enough: the length of the argument list
    ([Engine.parse_ends]), the distance to the target of the duration search
    ([Duration.adjust_meets]), the characters of a string and a pattern
    ([HtsPattern.dp_match_spec]), the size of the token buffer and the tokens of
    a file ([HtsTree.pattern_chars_ends], [HtsTree.load_patterns_ends],
    [HtsModel.load_trees_ends], [HtsLoad.token_chars_ends]), the cells of the
    heap for walks in a tree, and for the transforms the number of points
    ([Fft.blocks_yields], [Fft.passes_yields]), 32 doublings ([Fft.checkm_pow2])
    and 33 bits ([Fft.next_reversed_rev]).

    ** What is proved

    - The whole: a UGen that reads a buffer of label lines and loads the files of a
      voice plays whatever turns its callback and its thread take: a turn of the
      thread is the loading of the voice, the beginning of a run, one frame, a
      sleep while the frame queue is full, or the setting of the pitch
      ([Thread.run_in_turns], [Playing.iteration_in_turns]: these are the loop).
      A synthesiser that is constructed, loads the files of a voice and takes
      labels speaks them all.  A run with a loaded voice returns, takes one label,
      and appends exactly the frames the voice has for it; all waiting labels are
      spoken, in order; an invariant holds in every state a client reaches, if it
      computes a model only when the window of the last one was synthesised; one
      frame is consumed per [hopLen] samples; samples are clamped.
    - Queues: the ring buffer refines a bounded list for all sequences of calls;
      guarded clients never lose an item; unguarded ones do, in a way the
      theorems describe.  Two threads see a FIFO as long as their updates of the
      counter do not overlap; the code does not prevent that they do, and then an
      update is lost.
    - Durations: when the search meets its target and when it leaves its array;
      the durations of a model always fit a third of the frame memory.
    - Parameters: interpolated means and variances are weighted sums, weights are
      normalised; the distributions of a window of models are laid out frame by
      frame; the equations made of these rows are the normal equations of a
      weighted squared distance, their matrix is positive definite, the
      factorisation and its substitutions solve them, and so every trajectory is
      the one most likely of all (exact numbers in any ordered field; the
      switches of the global variance are off, as MAGE always leaves them).
    - The stability check: fft is the discrete Fourier transform, ifft its
      inverse and fftr the transform of a real signal, for every power of two;
      the check leaves a stable row alone (on exact numbers), bounds the bins it
      visits, and is a function of its row once its table is made, which is the assumption
      [ModelQueue], [Mage] and [Run] make about it.
    - Voices: the pattern matcher answers whether a label is in the language of
      the pattern; whatever a tree file holds, the trees that are loaded answer
      every label; distributions that were written are read back; loading ends
      for every configuration, and the engine it leaves has sound models, weights
      for every model it mixes, and satisfies [VoiceLaws] when its dimensions are
      MAGE's and its trees take every label.
    - Vocoder: no session leaves the allocation (for Pade orders in the table and
      at most five MGLSA stages, set once [gamma] was written: the setters check
      neither); the filters compute what their difference equations say; the
      interpolation of the MLSA filter ends at the frame that was pushed (on exact
      numbers).  The PSOLA vocoder's excitation is the
      plain one, one buffer later, with the overruns of its ring described.
    - Labels and configurations: what lines and argument lists are read as, for
      every list of arguments, and which ones make the parser leave its arrays.

    ** Assumptions and limits

    - The memory model of [Spsc] is sequential consistency.  In [Playing] the two
      threads take turns at a block of samples and at the turns of [Thread]; the
      longest of these, the beginning of a run, neither reads nor writes what the
      callback does ([Thread.begin_run_framed]).
    - [double] is IEEE binary64 with correctly rounded operations and literals,
      without fused operations; the results of exp, log, pow and sin are
      arguments, as are the random numbers of the vocoder; [abs] of a [double] is
      std::abs; strtod on hexadecimal numbers, infinities and NaNs is an
      argument.  The transforms of [Fft] are exact for a sine that gives the
      roots of unity ([Fft.exact_sines]), as that of the reals does.
    - [ModelQueue], [Mage] and [Run] are proved for any voice of the interface
      [Voice] with [VoiceLaws] and any stability check that keeps the length of
      its row ([MlsaCheck.checked] does).  The interface's functions answer every
      label, and so does, by a law, the switch of the global variance: hts_engine
      ends the process when no tree takes a label.  The theorems on loading ask
      the files for such trees, and for global variances of at most two voices or with trees of
      their own ([Engine.gv_compared]).
    - Destructors, prints and timestamps are left out; allocations succeed.
    - Not modelled: hts_engine's own vocoder, streams and label lists (linked,
      but MAGE has its own), ifftr of SPTK (no caller), the vendored Festival
      (makes label files beforehand) and SuperCollider (the host of the UGen),
      the example applications and the scripts.  Not proved: what
      the steps for the global variance converge to when a frame is switched on,
      and rounding errors. *)

From stdpp Require Export base tactics numbers list relations strings gmap.
From Stdlib Require Export ZArith Lia.
#[global] Open Scope Z_scope.

(** ** Record updates

    [r <| f := v |>] is the record [r] with field [f] replaced by [v].  A
    record takes part by declaring its eta expansion as a [Settable]
    instance; the setter of a field is computed from that expansion. *)

Class Settable (R : Type) := record_eta : R -> R.
Class Setter {R T : Type} (f : R -> T) := set_field : (T -> T) -> R -> R.

Ltac head_of t := match t with ?f _ => head_of f | _ => t end.

Ltac derive_setter :=
  match goal with
  | |- @Setter ?R ?T ?f =>
      let found := constr:(@record_eta R _) in
      match found with
      | @record_eta _ ?inst =>
          let h := head_of inst in
          let e := eval cbv delta [h] beta in inst in
          match eval pattern f in e with
          | ?F _ =>
              let t := eval cbv beta in
                (fun upd : T -> T => F (fun x => upd (f x))) in
              exact t
          end
      end
  end.
#[export] Hint Extern 1 (Setter _) => derive_setter : typeclass_instances.

Notation "r <| f := v |>" := (set_field (f:=f) (fun _ => v) r)
  (at level 1, left associativity, f at next level, v at level 200,
   format "r  <| f  :=  v |>").

(** ** Outcomes of C++ code

    [Ok]: the code returns.  [Undef]: the code has undefined behaviour, with
    the reason.  [Exit]: the process is terminated with a status.  [Timeout]:
    the fuel of a loop ran out, or the code blocks. *)

Inductive fault : Set :=
  | OutOfBounds       (* an access outside the object *)
  | IntOverflow       (* signed arithmetic leaves its type *)
  | BadConversion     (* floating value outside the integer type *)
  | DivByZero         (* integer division or modulo by zero *)
  | NullPointer
  | UseAfterFree      (* an access to freed memory, or a second free *)
  | Uninitialised.    (* read of an indeterminate value *)

Inductive Res (A : Type) : Type :=
  | Ok (a : A)
  | Undef (f : fault)
  | Exit (status : Z)
  | Timeout.
Arguments Ok {A} _.
Arguments Undef {A} _.
Arguments Exit {A} _.
Arguments Timeout {A}.

#[export] Instance fault_eq_dec : EqDecision fault.
Proof. solve_decision. Defined.
#[export] Instance Res_eq_dec {A} `{EqDecision A} : EqDecision (Res A).
Proof. solve_decision. Defined.

#[export] Instance Res_ret : MRet Res := @Ok.
#[export] Instance Res_bind : MBind Res := fun A B f m =>
  match m with
  | Ok a => f a
  | Undef e => Undef e
  | Exit s => Exit s
  | Timeout => Timeout
  end.
#[export] Instance Res_fmap : FMap Res := fun A B f m =>
  match m with
  | Ok a => Ok (f a)
  | Undef e => Undef e
  | Exit s => Exit s
  | Timeout => Timeout
  end.

Lemma bind_Ok {A B} (a : A) (f : A -> Res B) : (Ok a ≫= f) = f a.
Proof. done. Qed.
Lemma Ok_inj {A} (a b : A) : Ok a = Ok b -> a = b.
Proof. by intros [= ->]. Qed.
Lemma bind_assoc {A B C} (m : Res A) (f : A -> Res B) (g : B -> Res C) :
  ((m ≫= f) ≫= g) = (m ≫= fun x => f x ≫= g).
Proof. by destruct m. Qed.
Lemma bind_inv_Ok {A B} (m : Res A) (f : A -> Res B) b :
  (m ≫= f) = Ok b -> exists a, m = Ok a /\ f a = Ok b.
Proof. destruct m; simpl; naive_solver. Qed.

(** [yields m P]: the code [m] returns, and what it returns satisfies [P]
    (total correctness). *)
Definition yields {A} (m : Res A) (P : A -> Prop) : Prop :=
  exists a, m = Ok a /\ P a.

Lemma yields_ok {A} (a : A) (P : A -> Prop) : P a -> yields (Ok a) P.
Proof. intros; eexists; eauto. Qed.
Lemma yields_bind {A B} (m : Res A) (f : A -> Res B) (P : A -> Prop) Q :
  yields m P -> (forall a, P a -> yields (f a) Q) -> yields (m ≫= f) Q.
Proof. intros (a & -> & Ha) H. apply H, Ha. Qed.
Lemma yields_bind_eq {A B} (m : Res A) a (f : A -> Res B) Q :
  m = Ok a -> yields (f a) Q -> yields (m ≫= f) Q.
Proof. intros -> ?. done. Qed.
Lemma yields_mono {A} (m : Res A) (P Q : A -> Prop) :
  yields m P -> (forall a, P a -> Q a) -> yields m Q.
Proof. intros (a & -> & Ha) H. eexists; eauto. Qed.
Lemma yields_eq {A} (m : Res A) a : m = Ok a <-> yields m (eq a).
Proof.
  split; [intros ->; by eexists|]. intros (b & Hb & ->). done.
Qed.
Lemma yields_and {A} (m : Res A) (P Q : A -> Prop) :
  yields m P -> yields m Q -> yields m (fun a => P a /\ Q a).
Proof. intros (a & -> & ?) (b & [= <-] & ?). by eexists. Qed.

(** whether a concrete run returns, without reading its value *)
Definition is_ok {A} (m : Res A) : bool := match m with Ok _ => true | _ => false end.
Lemma is_ok_inv {A} (m : Res A) : is_ok m = true -> exists a, m = Ok a.
Proof. destruct m; try done. by eexists. Qed.

(** [may bad m P]: [m] returns a value that satisfies [P], or has undefined
    behaviour of a kind in [bad]; [yields] is the case where [bad] is empty. *)
Definition may {A} (bad : fault -> Prop) (m : Res A) (P : A -> Prop) : Prop :=
  match m with
  | Ok a => P a
  | Undef f => bad f
  | _ => False
  end.

Lemma may_yields {A} bad (m : Res A) (P : A -> Prop) :
  yields m P -> may bad m P.
Proof. intros (a & -> & ?). done. Qed.
Lemma yields_may {A} (m : Res A) (P : A -> Prop) :
  may (fun _ => False) m P -> yields m P.
Proof. destruct m; try done. intros. by eexists. Qed.
Lemma may_bind {A B} bad (m : Res A) (f : A -> Res B) (P : A -> Prop) Q :
  may bad m P -> (forall a, P a -> may bad (f a) Q) -> may bad (m ≫= f) Q.
Proof. destruct m; simpl; auto. Qed.
Lemma may_bind_eq {A B} bad (m : Res A) a (f : A -> Res B) Q :
  m = Ok a -> may bad (f a) Q -> may bad (m ≫= f) Q.
Proof. by intros ->. Qed.
Lemma may_mono {A} bad (m : Res A) (P Q : A -> Prop) :
  may bad m P -> (forall a, P a -> Q a) -> may bad m Q.
Proof. destruct m; simpl; auto. Qed.

(** an outcome other than running out of fuel, and what holds of a result *)
Definition ends {A} (m : Res A) (P : A -> Prop) : Prop :=
  match m with Ok a => P a | Timeout => False | _ => True end.

Lemma ends_bind {A B} (m : Res A) (f : A -> Res B) P Q :
  ends m P -> (forall a, P a -> ends (f a) Q) -> ends (m ≫= f) Q.
Proof. destruct m; simpl; auto. Qed.

Lemma ends_mono {A} (m : Res A) (P Q : A -> Prop) :
  ends m P -> (forall a, P a -> Q a) -> ends m Q.
Proof. destruct m; simpl; auto. Qed.
Lemma yields_ends {A} (m : Res A) (P : A -> Prop) : yields m P -> ends m P.
Proof. by intros (a & -> & ?). Qed.
Lemma ends_inv {A} (m : Res A) (P : A -> Prop) a : ends m P -> m = Ok a -> P a.
Proof. by intros H ->. Qed.

(** partial correctness: what holds of a result, if there is one *)
Definition after {A} (m : Res A) (P : A -> Prop) : Prop := forall a, m = Ok a -> P a.

Lemma after_ok {A} (a : A) (P : A -> Prop) : P a -> after (Ok a) P.
Proof. by intros Ha ? [= <-]. Qed.
Lemma after_any {A} (m : Res A) : after m (fun _ => True).
Proof. done. Qed.
Lemma after_bind {A B} (m : Res A) (f : A -> Res B) (P : A -> Prop) Q :
  after m P -> (forall a, P a -> after (f a) Q) -> after (m ≫= f) Q.
Proof. intros Hm Hf b. destruct m; try done. apply Hf, Hm. done. Qed.
Lemma after_mono {A} (m : Res A) (P Q : A -> Prop) :
  after m P -> (forall a, P a -> Q a) -> after m Q.
Proof. intros Hm Hp a E. by apply Hp, Hm. Qed.
Lemma yields_after {A} (m : Res A) (P Q : A -> Prop) :
  yields m P -> after m Q -> yields m (fun a => P a /\ Q a).
Proof. intros (a & -> & Ha) Hq. apply yields_ok. split; [done|]. by apply Hq. Qed.

Lemma may_after {A} bad (m : Res A) (P Q : A -> Prop) :
  may bad m P -> after m Q -> may bad m (fun a => P a /\ Q a).
Proof. destruct m; simpl; auto. Qed.

(** [check b e]: undefined behaviour [e] unless [b]. *)
Definition check (b : bool) (e : fault) : Res unit :=
  if b then Ok tt else Undef e.

Lemma yields_check b e (P : unit -> Prop) :
  b = true -> P tt -> yields (check b e) P.
Proof. intros -> ?. by eexists. Qed.

(** ** Machine integers *)

Definition wrap_u32 (z : Z) : Z := z `mod` 2 ^ 32.
Definition i32_min : Z := - 2 ^ 31.
Definition i32_max : Z := 2 ^ 31 - 1.
Definition in_i32 (z : Z) : bool := (i32_min <=? z) && (z <=? i32_max).

(** two's complement reading of an unsigned 32-bit value *)
Definition to_i32 (z : Z) : Z :=
  let u := wrap_u32 z in if u <? 2 ^ 31 then u else u - 2 ^ 32.

(** result of a signed operation: undefined outside the type *)
Definition i32 (z : Z) : Res Z := check (in_i32 z) IntOverflow ;; Ok z.

Lemma wrap_u32_small z : 0 <= z < 2 ^ 32 -> wrap_u32 z = z.
Proof. intros. by apply Z.mod_small. Qed.
Lemma wrap_u32_range z : 0 <= wrap_u32 z < 2 ^ 32.
Proof. by apply Z.mod_pos_bound. Qed.
Lemma to_i32_small z : 0 <= z < 2 ^ 31 -> to_i32 z = z.
Proof.
  intros H. unfold to_i32. rewrite wrap_u32_small by lia.
  by rewrite (proj2 (Z.ltb_lt _ _)) by lia.
Qed.
Lemma to_i32_id z : - 2 ^ 31 <= z < 2 ^ 31 -> to_i32 z = z.
Proof.
  intros H. destruct (Z.le_gt_cases 0 z) as [H0|H0]; [apply to_i32_small; lia|].
  assert (E : wrap_u32 z = z + 2 ^ 32) by (symmetry; apply (Z.mod_unique _ _ (-1)); lia).
  unfold to_i32. rewrite E, (proj2 (Z.ltb_ge _ _)) by lia. lia.
Qed.
Lemma in_i32_true z : in_i32 z = true <-> - 2 ^ 31 <= z < 2 ^ 31.
Proof.
  unfold in_i32, i32_min, i32_max.
  rewrite andb_true_iff, !Z.leb_le. lia.
Qed.
Lemma i32_ok z : - 2 ^ 31 <= z < 2 ^ 31 -> i32 z = Ok z.
Proof. intros H. unfold i32. by rewrite (proj2 (in_i32_true z) H). Qed.
Lemma i32_inv z r : i32 z = Ok r -> r = z /\ - 2 ^ 31 <= z < 2 ^ 31.
Proof.
  unfold i32, check. destruct (in_i32 z) eqn:E; simpl; [|done].
  intros [= <-]. by apply in_i32_true in E.
Qed.

(** ** Arrays *)

Definition zlen {A} (l : list A) : Z := Z.of_nat (length l).

Definition rd {A} (l : list A) (i : Z) : Res A :=
  if 0 <=? i then
    match l !! Z.to_nat i with
    | Some x => Ok x
    | None => Undef OutOfBounds
    end
  else Undef OutOfBounds.

Definition wr {A} (l : list A) (i : Z) (x : A) : Res (list A) :=
  if (0 <=? i) && (i <? zlen l) then Ok (<[Z.to_nat i := x]> l)
  else Undef OutOfBounds.

(** [memcpy dst d src s n]: copy [n] elements of [src] from index [s] to
    index [d] of [dst] (two distinct objects). *)
Definition memcpy {A} (dst : list A) (d : Z) (src : list A) (s n : Z)
    : Res (list A) :=
  if (0 <=? n) && (0 <=? d) && (0 <=? s) && (d + n <=? zlen dst)
     && (s + n <=? zlen src)
  then Ok (take (Z.to_nat d) dst
             ++ take (Z.to_nat n) (drop (Z.to_nat s) src)
             ++ drop (Z.to_nat (d + n)) dst)
  else Undef OutOfBounds.

Lemma zlen_nonneg {A} (l : list A) : 0 <= zlen l.
Proof. unfold zlen. lia. Qed.

Lemma rd_ok {A} (l : list A) i x :
  0 <= i -> l !! Z.to_nat i = Some x -> rd l i = Ok x.
Proof.
  intros Hi Hx. unfold rd. by rewrite (proj2 (Z.leb_le _ _) Hi), Hx.
Qed.
Lemma rd_inv {A} (l : list A) i x :
  rd l i = Ok x -> 0 <= i < zlen l /\ l !! Z.to_nat i = Some x.
Proof.
  unfold rd, zlen. case Z.leb_spec; [|done]. intros Hi.
  destruct (l !! Z.to_nat i) eqn:E; [|done]. intros [= <-].
  split; [|done]. apply lookup_lt_Some in E. lia.
Qed.
Lemma yields_rd {A} (l : list A) i :
  0 <= i < zlen l -> yields (rd l i) (fun x => l !! Z.to_nat i = Some x).
Proof.
  unfold zlen. intros Hi.
  destruct (lookup_lt_is_Some_2 l (Z.to_nat i)) as [x Hx]; [lia|].
  exists x. split; [apply rd_ok; [lia|done]|done].
Qed.
Lemma rd_oob {A} (l : list A) i :
  ~ 0 <= i < zlen l -> rd l i = Undef OutOfBounds.
Proof.
  unfold rd, zlen. intros H. case Z.leb_spec; [|done]. intros Hi.
  rewrite lookup_ge_None_2; [done|lia].
Qed.
Lemma wr_ok {A} (l : list A) i x :
  0 <= i < zlen l -> wr l i x = Ok (<[Z.to_nat i := x]> l).
Proof.
  intros Hi. unfold wr.
  rewrite (proj2 (Z.leb_le _ _)), (proj2 (Z.ltb_lt _ _)) by lia. done.
Qed.
Lemma wr_oob {A} (l : list A) i x :
  ~ 0 <= i < zlen l -> wr l i x = Undef OutOfBounds.
Proof.
  intros Hi. unfold wr. case Z.leb_spec; case Z.ltb_spec; simpl; done || lia.
Qed.
Lemma wr_inv {A} (l l' : list A) i x :
  wr l i x = Ok l' -> 0 <= i < zlen l /\ l' = <[Z.to_nat i := x]> l.
Proof.
  unfold wr. case Z.leb_spec; case Z.ltb_spec; simpl; try done.
  intros ?? [= <-]. split; [lia|done].
Qed.
(** update of one element by code that reads it *)
Definition upd {A} (l : list A) (i : Z) (f : A -> Res A) : Res (list A) :=
  x ← rd l i; y ← f x; wr l i y.

Lemma upd_inv {A} (l l' : list A) i f :
  upd l i f = Ok l' -> exists x y, 0 <= i < zlen l /\ l !! Z.to_nat i = Some x /\
    f x = Ok y /\ l' = <[Z.to_nat i := y]> l.
Proof.
  unfold upd. intros E. apply bind_inv_Ok in E as (x & Ex & E).
  apply bind_inv_Ok in E as (y & Ey & E). apply rd_inv in Ex as [Hi Ex].
  apply wr_inv in E as [_ ->]. by exists x, y.
Qed.

Lemma ends_rd {A} (l : list A) i : ends (rd l i) (fun _ => 0 <= i < zlen l).
Proof.
  destruct (decide (0 <= i < zlen l)) as [Hi|Hi]; [|by rewrite rd_oob].
  destruct (yields_rd l i Hi) as (x & -> & _). exact Hi.
Qed.

Lemma ends_wr {A} (l : list A) i x : ends (wr l i x) (fun _ => True).
Proof. unfold wr. by destruct (_ && _). Qed.

Lemma ends_check b e (P : unit -> Prop) : (b = true -> P tt) -> ends (check b e) P.
Proof. destruct b; simpl; auto. Qed.

Lemma zlen_insert {A} (l : list A) (n : nat) x : zlen (<[n := x]> l) = zlen l.
Proof. unfold zlen. by rewrite length_insert. Qed.

(** an element of an array whose elements all satisfy [P] *)
Lemma ends_rd_in {A} (P : A -> Prop) (l : list A) i : Forall P l -> ends (rd l i) P.
Proof.
  intros Hl. destruct (rd l i) as [x| | |] eqn:E; try done.
  - apply rd_inv in E as [_ X]. rewrite Forall_lookup in Hl. by eapply Hl.
  - pose proof (ends_rd l i) as R. by rewrite E in R.
Qed.
Lemma ends_i32 z : ends (i32 z) (fun r => r = z).
Proof. unfold i32. by destruct (in_i32 z). Qed.

(** an assignment that is in bounds *)
Lemma ends_wr_inv {A} (l : list A) i x :
  ends (wr l i x) (fun l' => l' = <[Z.to_nat i := x]> l /\ 0 <= i < zlen l).
Proof.
  destruct (wr l i x) as [l'| | |] eqn:E; try done.
  - by apply wr_inv in E as [? ->].
  - pose proof (ends_wr l i x) as R. by rewrite E in R.
Qed.
Lemma ends_wr_len {A} (l : list A) i x : ends (wr l i x) (fun l' => zlen l' = zlen l).
Proof. eapply ends_mono; [apply ends_wr_inv|]. intros l' [-> _]. apply zlen_insert. Qed.

Lemma zlen_cons {A} (x : A) (l : list A) : zlen (x :: l) = zlen l + 1.
Proof. unfold zlen. cbn [length]. lia. Qed.
Lemma zlen_app {A} (l k : list A) : zlen (l ++ k) = zlen l + zlen k.
Proof. unfold zlen. rewrite length_app. lia. Qed.
Lemma zlen_snoc {A} (u : list A) c : zlen (u ++ [c]) = zlen u + 1.
Proof. by rewrite zlen_app. Qed.
Lemma zlen_take {A} (l : list A) (n : nat) :
  zlen (take n l) = Z.min (Z.of_nat n) (zlen l).
Proof. unfold zlen. rewrite length_take. lia. Qed.
Lemma zlen_drop {A} (l : list A) (n : nat) :
  zlen (drop n l) = Z.max 0 (zlen l - Z.of_nat n).
Proof. unfold zlen. rewrite length_drop. lia. Qed.
Lemma zlen_replicate {A} (n : nat) (x : A) : zlen (replicate n x) = Z.of_nat n.
Proof. unfold zlen. by rewrite length_replicate. Qed.

Lemma memcpy_ok {A} (dst src : list A) d s n :
  0 <= n -> 0 <= d -> 0 <= s -> d + n <= zlen dst -> s + n <= zlen src ->
  memcpy dst d src s n
  = Ok (take (Z.to_nat d) dst ++ take (Z.to_nat n) (drop (Z.to_nat s) src)
          ++ drop (Z.to_nat (d + n)) dst).
Proof.
  intros. unfold memcpy. by rewrite !(proj2 (Z.leb_le _ _)) by lia.
Qed.

(** the copied object, index by index *)
Lemma memcpy_lookup {A} (dst src : list A) d s n dst' :
  memcpy dst d src s n = Ok dst' ->
  zlen dst' = zlen dst /\
  forall i : nat, dst' !! i =
    if bool_decide (d <= Z.of_nat i < d + n)
    then src !! Z.to_nat (s + (Z.of_nat i - d)) else dst !! i.
Proof.
  unfold memcpy. destruct (_ && _) eqn:E; [|done]. intros [= <-].
  rewrite !andb_true_iff, !Z.leb_le in E. unfold zlen in *. split.
  { rewrite !length_app, !length_take, !length_drop. lia. }
  intros i. case_bool_decide.
  - rewrite lookup_app_r, lookup_app_l; rewrite ?length_take, ?length_drop; try lia.
    rewrite lookup_take_lt by lia. rewrite lookup_drop. f_equal. lia.
  - destruct (decide (Z.of_nat i < d)).
    + rewrite lookup_app_l by (rewrite length_take; lia).
      by rewrite lookup_take_lt by lia.
    + rewrite !lookup_app_r; rewrite ?length_take, ?length_drop; try lia.
      rewrite lookup_drop. f_equal. lia.
Qed.

(** ** Counting loops *)

Fixpoint loop_up {S} (n : nat) (i : Z) (body : Z -> S -> Res S) (s : S) : Res S :=
  match n with
  | O => Ok s
  | Datatypes.S n' => s' ← body i s; loop_up n' (i + 1) body s'
  end.

Fixpoint loop_down {S} (n : nat) (i : Z) (body : Z -> S -> Res S) (s : S) : Res S :=
  match n with
  | O => Ok s
  | Datatypes.S n' => s' ← body i s; loop_down n' (i - 1) body s'
  end.

(** [for( i = lo; i < hi; i++ ) s = body i s] *)
Definition for_up {S} (lo hi : Z) (body : Z -> S -> Res S) (s : S) : Res S :=
  loop_up (Z.to_nat (hi - lo)) lo body s.

(** [for( i = hi; i >= lo; i-- ) s = body i s] *)
Definition for_down {S} (hi lo : Z) (body : Z -> S -> Res S) (s : S) : Res S :=
  loop_down (Z.to_nat (hi - lo + 1)) hi body s.

Lemma loop_up_may {S} bad (P : Z -> S -> Prop) n lo body (s : S) :
  P lo s ->
  (forall i s, lo <= i < lo + Z.of_nat n -> P i s ->
               may bad (body i s) (P (i + 1))) ->
  may bad (loop_up n lo body s) (P (lo + Z.of_nat n)).
Proof.
  revert lo s. induction n as [|n IH]; intros lo s Hs Hb; simpl.
  { by rewrite Z.add_0_r. }
  eapply may_bind; [apply Hb; [lia|done]|]. intros s' Hs'.
  replace (lo + Z.of_nat (Datatypes.S n)) with (lo + 1 + Z.of_nat n) by lia.
  apply IH; [done|]. intros. apply Hb; [lia|done].
Qed.

Lemma loop_down_yields {S} (P : Z -> S -> Prop) n hi body (s : S) :
  P hi s ->
  (forall i s, hi - Z.of_nat n < i <= hi -> P i s ->
               yields (body i s) (P (i - 1))) ->
  yields (loop_down n hi body s) (P (hi - Z.of_nat n)).
Proof.
  revert hi s. induction n as [|n IH]; intros hi s Hs Hb.
  { exists s. split; [done|]. by rewrite Z.sub_0_r. }
  destruct (Hb hi s) as (s' & E & Hs'); [lia|done|].
  simpl. rewrite E, bind_Ok.
  replace (hi - Z.of_nat (Datatypes.S n)) with (hi - 1 - Z.of_nat n) by lia.
  apply IH; [done|]. intros. apply Hb; [lia|done].
Qed.

(** The loop rules: an invariant [P i s] of "before iteration [i]". *)
Lemma for_up_may {S} bad (P : Z -> S -> Prop) lo hi body (s : S) :
  lo <= hi -> P lo s ->
  (forall i s, lo <= i < hi -> P i s -> may bad (body i s) (P (i + 1))) ->
  may bad (for_up lo hi body s) (P hi).
Proof.
  intros Hle Hs Hb. unfold for_up.
  replace hi with (lo + Z.of_nat (Z.to_nat (hi - lo))) at 2 by lia.
  apply loop_up_may; [done|]. intros. apply Hb; [lia|done].
Qed.

Lemma for_up_yields {S} (P : Z -> S -> Prop) lo hi body (s : S) :
  lo <= hi -> P lo s ->
  (forall i s, lo <= i < hi -> P i s -> yields (body i s) (P (i + 1))) ->
  yields (for_up lo hi body s) (P hi).
Proof.
  intros Hle Hs Hb. apply yields_may, for_up_may; [done..|].
  intros. by apply may_yields, Hb.
Qed.

Lemma for_down_yields {S} (P : Z -> S -> Prop) hi lo body (s : S) :
  lo <= hi + 1 -> P hi s ->
  (forall i s, lo <= i <= hi -> P i s -> yields (body i s) (P (i - 1))) ->
  yields (for_down hi lo body s) (P (lo - 1)).
Proof.
  intros Hle Hs Hb. unfold for_down.
  replace (lo - 1) with (hi - Z.of_nat (Z.to_nat (hi - lo + 1))) by lia.
  apply loop_down_yields; [done|]. intros. apply Hb; [lia|done].
Qed.

(** partial correctness: what holds of the state when the loop returns *)
Lemma for_up_inv {S} (P : Z -> S -> Prop) lo hi body (s s' : S) :
  for_up lo hi body s = Ok s' -> lo <= hi -> P lo s ->
  (forall i s s', lo <= i < hi -> P i s -> body i s = Ok s' -> P (i + 1) s') ->
  P hi s'.
Proof.
  unfold for_up. intros E Hle. remember (Z.to_nat (hi - lo)) as n eqn:En.
  revert lo s Hle En E. induction n as [|n IH]; intros lo s Hle En E Hs Hb; simpl in E.
  { injection E as <-. by replace hi with lo by lia. }
  apply bind_inv_Ok in E as (s1 & E1 & E). eapply (IH (lo + 1) s1); [lia|lia|done| |].
  - eapply Hb; [lia|done|done].
  - intros i t t' Hi. apply Hb. lia.
Qed.

Lemma for_up_after {S} (P : S -> Prop) lo hi body (s : S) :
  P s -> (forall i s, lo <= i < hi -> P s -> after (body i s) P) -> after (for_up lo hi body s) P.
Proof.
  unfold for_up. remember (Z.to_nat (hi - lo)) as n eqn:En. revert lo s En.
  induction n as [|n IH]; intros lo s En Hs Hb; simpl; [by apply after_ok|].
  eapply after_bind; [apply Hb; [lia|done]|]. intros s1 H1. apply IH; [lia|done|].
  intros i t Hi. apply Hb. lia.
Qed.

(** the loop ends when its body does *)
Lemma for_up_ends {S} (P : Z -> S -> Prop) lo hi body (s : S) :
  lo <= hi -> P lo s -> (forall i s, lo <= i < hi -> P i s -> ends (body i s) (P (i + 1))) ->
  ends (for_up lo hi body s) (P hi).
Proof.
  unfold for_up. intros Hle. remember (Z.to_nat (hi - lo)) as n eqn:En.
  revert lo s Hle En. induction n as [|n IH]; intros lo s Hle En Hs Hb; simpl.
  { by replace hi with lo by lia. }
  eapply ends_bind; [apply Hb; [lia|exact Hs]|]. intros s1 H1. apply IH; [lia|lia|done|].
  intros i t Hi. apply Hb. lia.
Qed.

Lemma for_up_nil {S} lo hi body (s : S) : hi <= lo -> for_up lo hi body s = Ok s.
Proof. intros. unfold for_up. by replace (Z.to_nat (hi - lo)) with O by lia. Qed.

Lemma for_up_cons {S} lo hi body (s : S) :
  lo < hi -> for_up lo hi body s = (s' ← body lo s; for_up (lo + 1) hi body s').
Proof.
  intros. unfold for_up.
  replace (Z.to_nat (hi - lo)) with (Datatypes.S (Z.to_nat (hi - (lo + 1)))) by lia.
  done.
Qed.

(** a loop that updates the elements one by one: what each element becomes *)
Lemma for_upd_inv {A} (R : Z -> A -> A -> Prop) hi (f : Z -> A -> Res A) (l l' : list A) :
  for_up 0 hi (fun i l => upd l i (f i)) l = Ok l' -> 0 <= hi ->
  (forall i x y, 0 <= i < hi -> f i x = Ok y -> R i x y) ->
  zlen l' = zlen l /\ hi <= zlen l /\ forall k : nat,
    if bool_decide (Z.of_nat k < hi)
    then exists x y, l !! k = Some x /\ l' !! k = Some y /\ R (Z.of_nat k) x y
    else l' !! k = l !! k.
Proof.
  intros E Hhi HR.
  apply (for_up_inv (fun i l' => zlen l' = zlen l /\ i <= zlen l /\ forall k : nat,
    if bool_decide (Z.of_nat k < i)
    then exists x y, l !! k = Some x /\ l' !! k = Some y /\ R (Z.of_nat k) x y
    else l' !! k = l !! k)) in E; [done|done| |].
  - split; [done|]. split; [apply zlen_nonneg|]. intros k.
    by rewrite bool_decide_eq_false_2 by lia.
  - intros i l1 l2 Hi (L & Hz & Hk) B. apply upd_inv in B as (x & y & Hr & Ex & Ey & ->).
    split; [by rewrite zlen_insert|]. split; [lia|]. intros k.
    pose proof (Hk k) as Hkk. pose proof (Hk (Z.to_nat i)) as Hki.
    rewrite bool_decide_eq_false_2 in Hki by lia. rewrite Hki in Ex.
    destruct (decide (k = Z.to_nat i)) as [->|Hne].
    + rewrite bool_decide_eq_true_2 by lia. exists x, y. split; [done|].
      rewrite list_lookup_insert_eq by (unfold zlen in *; lia).
      split; [done|]. rewrite Z2Nat.id by lia. by apply HR.
    + rewrite list_lookup_insert_ne by done. destruct (decide (Z.of_nat k < i)).
      * rewrite bool_decide_eq_true_2 in Hkk |- * by lia. done.
      * rewrite bool_decide_eq_false_2 in Hkk |- * by lia. done.
Qed.

(** ** Automation *)

Create HintDb vox discriminated.
Create Rewrite HintDb zlen.
#[export] Hint Rewrite @zlen_insert @zlen_app @zlen_take @zlen_drop
  @zlen_replicate : zlen.
#[export] Hint Resolve zlen_nonneg yields_ok yields_rd wr_ok i32_ok : vox.

(** normalise lengths, then linear arithmetic *)
Ltac zlen_lia := autorewrite with zlen in *; lia.

(** one step of a monadic computation: compute its head when it is known *)
Ltac res_step :=
  match goal with
  | |- yields (Ok _) _ => apply yields_ok
  | |- yields (mret _) _ => apply yields_ok
  | |- yields (_ ≫= _) _ => eapply yields_bind
  | |- yields (rd _ _) _ => apply yields_rd
  | |- yields (check _ _) _ => apply yields_check
  end.

(** turn the equations of a computation that returned into facts *)
Ltac res_inv :=
  repeat match goal with
  | H : (_ ≫= _) = Ok _ |- _ =>
      apply bind_inv_Ok in H; destruct H as (? & ? & H)
  | H : Ok _ = Ok _ |- _ => injection H as H; subst
  | H : Undef _ = Ok _ |- _ => discriminate H
  | H : Exit _ = Ok _ |- _ => discriminate H
  | H : Timeout = Ok _ |- _ => discriminate H
  | H : rd _ _ = Ok _ |- _ => apply rd_inv in H; destruct H
  | H : wr _ _ _ = Ok _ |- _ => apply wr_inv in H; destruct H; subst
  | H : i32 _ = Ok _ |- _ => apply i32_inv in H; destruct H; subst
  | H : yields _ _ |- _ => destruct H as (? & ? & ?)
  end.

(** settle boolean comparisons of integers whose truth [lia] knows *)
Ltac zbool :=
  repeat match goal with
  | |- context [?a <=? ?b] =>
      first [ rewrite (proj2 (Z.leb_le a b)) by lia
            | rewrite (proj2 (Z.leb_gt a b)) by lia ]
  | |- context [?a <? ?b] =>
      first [ rewrite (proj2 (Z.ltb_lt a b)) by lia
            | rewrite (proj2 (Z.ltb_ge a b)) by lia ]
  | |- context [?a =? ?b] =>
      first [ rewrite (proj2 (Z.eqb_eq a b)) by lia
            | rewrite (proj2 (Z.eqb_neq a b)) by lia ]
  | |- context [?a >? ?b] => rewrite (Z.gtb_ltb a b)
  | |- context [?a >=? ?b] => rewrite (Z.geb_leb a b)
  end; simpl.

(** an invariant (a record of facts [W]) of a state whose relevant parts are as
    they were *)
Ltac keep_inv W := destruct W; split; try assumption; cbn; try done; try lia.

(** side conditions of a theorem applied at a concrete input *)
Ltac by_run := first [ lia | vm_compute; reflexivity | vm_compute; intuition congruence ].
