(* ===== verification/Num.v ===== *)
(** * Floating-point arithmetic of the C++ code

    The numeric code is written once, over the operations of [NumOps], and
    read at three instances: IEEE binary64 ([binary64], the [double] of the
    code, with round to nearest even, infinities and NaN), exact rational
    arithmetic ([rational]), where the algebraic properties of the algorithms
    are stated, and the reals of [RealNum].  [exp], [log] and [pow] of libm are
    arguments of the first two instances ([Libm]): the C standard fixes neither their rounding nor
    their values. *)

From Stdlib Require Import SpecFloat QArith Qcanon Qround Field.
From S2P Require Import Prelude.
#[local] Open Scope Z_scope.

(** ** Interface *)

Class NumOps (F : Type) := {
  nZ : Z -> F;                 (* conversion of an integer *)
  ndec : Z -> Z -> F;          (* the literal m * 10^e *)
  nadd : F -> F -> F;
  nsub : F -> F -> F;
  nmul : F -> F -> F;
  ndiv : F -> F -> F;
  nopp : F -> F;
  nabs : F -> F;
  nsqrt : F -> F;
  nexp : F -> F;
  nlog : F -> F;
  npow : F -> F -> F;
  nltb : F -> F -> bool;
  nleb : F -> F -> bool;
  neqb : F -> F -> bool;
  ntrunc : F -> option Z;      (* toward zero; None for NaN and infinities *)
  nfloor : F -> F;
  nsingle : F -> F             (* rounding of a double to float *)
}.

Declare Scope num_scope.
Delimit Scope num_scope with num.
Infix "+" := nadd : num_scope.
Infix "-" := nsub : num_scope.
Infix "*" := nmul : num_scope.
Infix "/" := ndiv : num_scope.
Notation "- x" := (nopp x) : num_scope.
Infix "<?" := nltb : num_scope.
Infix "<=?" := nleb : num_scope.
Infix "=?" := neqb : num_scope.
Notation "0" := (nZ 0) : num_scope.
Notation "1" := (nZ 1) : num_scope.
Notation "2" := (nZ 2) : num_scope.

(** conversion of a [double] to [int]: undefined when the truncated value
    does not fit *)
Definition to_int {F} `{NumOps F} (x : F) : Res Z :=
  match ntrunc x with
  | Some z => check (in_i32 z) BadConversion ;; Ok z
  | None => Undef BadConversion
  end.

Definition is_nan {F} `{NumOps F} (x : F) : bool := negb (neqb x x).

Lemma to_int_inv {F} `{NumOps F} (x : F) z :
  to_int x = Ok z <-> ntrunc x = Some z /\ - 2 ^ 31 <= z < 2 ^ 31.
Proof.
  unfold to_int, check. rewrite <-in_i32_true.
  destruct (ntrunc x) as [y|]; [|by split; [|intros [? _]]].
  destruct (in_i32 y) eqn:E; simpl; split.
  - intros [= <-]. done.
  - intros [[= <-] _]. done.
  - done.
  - intros [[= <-] ?]. congruence.
Qed.

(** ** Laws *)

(** comparisons away from NaN *)
Class NumOrder (F : Type) `{NumOps F} := {
  nltb_nan : forall x y : F, is_nan x || is_nan y = true -> nltb x y = false;
  nleb_nan : forall x y : F, is_nan x || is_nan y = true -> nleb x y = false;
  nleb_nltb : forall x y : F, is_nan x = false -> is_nan y = false ->
    nleb x y = negb (nltb y x);
  nltb_asym : forall x y : F, nltb x y = true -> nltb y x = false
}.

(** exact arithmetic *)
Class NumField (F : Type) `{NumOps F} := {
  num_field : field_theory (nZ 0) (nZ 1) nadd nmul nsub nopp ndiv
                (fun x => ndiv (nZ 1) x) (@eq F);
  nZ_add : forall a b : Z, nZ (a + b) = nadd (nZ a) (nZ b) :> F;
  nZ_mul : forall a b : Z, nZ (a * b) = nmul (nZ a) (nZ b) :> F;
  nZ_inj : forall a b : Z, nZ a = nZ b :> F -> a = b;
  neqb_eq : forall x y : F, neqb x y = true <-> x = y;
  ntrunc_nZ : forall z : Z, ntrunc (nZ z : F) = Some z;
  ndec_exact : forall m e : Z, 0 <= e -> ndec m (- e) = ndiv (nZ m) (nZ (10 ^ e)) :> F;
  ndec_int : forall m e : Z, 0 <= e -> ndec m e = nZ (m * 10 ^ e) :> F
}.

(** the order of exact arithmetic, by its non-negative numbers *)
Definition nonneg {F} `{NumOps F} (x : F) : Prop := nleb (nZ 0) x = true.

Class NumOrdered (F : Type) `{NumField F} := {
  nleb_nonneg : forall x y : F, nleb x y = nleb (nZ 0) (nsub y x);
  nltb_nleb : forall x y : F, nltb x y = negb (nleb y x);
  nonneg_add : forall x y : F, nonneg x -> nonneg y -> nonneg (nadd x y);
  nonneg_mul : forall x y : F, nonneg x -> nonneg y -> nonneg (nmul x y);
  nonneg_square : forall x : F, nonneg (nmul x x);
  nonneg_antisym : forall x : F, nonneg x -> nonneg (nopp x) -> x = nZ 0
}.

(** integers of the size of [int] are represented exactly *)
Class NumInt (F : Type) `{NumOps F} := {
  ntrunc_int : forall z : Z, - 2 ^ 31 <= z < 2 ^ 31 -> ntrunc (ndec z 0 : F) = Some z
}.

Lemma to_int_lit {F} `{NumInt F} (z : Z) :
  - 2 ^ 31 <= z < 2 ^ 31 -> to_int (ndec z 0 : F) = Ok z.
Proof. intros Hz. apply to_int_inv. split; [by apply ntrunc_int|done]. Qed.

Lemma nleb_of_not_nltb {F} `{NumOrder F} (x y : F) :
  is_nan x = false -> is_nan y = false -> nltb y x = false -> nleb x y = true.
Proof. intros ?? E. rewrite nleb_nltb, E by done. done. Qed.

(** ** IEEE binary64 *)

(** the libm functions, whose results the C standard leaves open *)
Class Libm (F : Type) := {
  libm_exp : F -> F;
  libm_log : F -> F;
  libm_pow : F -> F -> F
}.

(** a libm that answers NaN, for runs that do not call it *)
Definition no_libm : Libm spec_float :=
  {| libm_exp _ := S754_nan; libm_log _ := S754_nan; libm_pow _ _ := S754_nan |}.

Definition SF_neg (x : spec_float) : bool :=
  match x with
  | S754_zero s | S754_infinity s | S754_finite s _ _ => s
  | S754_nan => false
  end.

Definition SF_ofZ (prec emax z : Z) : spec_float := binary_normalize prec emax z 0 false.

(** the literal m * 10^e, correctly rounded *)
Definition SF_dec (prec emax m e : Z) : spec_float :=
  if 0 <=? e then SF_ofZ prec emax (m * 10 ^ e)
  else
    match m with
    | Z0 => S754_zero false
    | Zpos p => SFdiv prec emax (S754_finite false p 0)
                  (S754_finite false (Z.to_pos (10 ^ (- e))) 0)
    | Zneg p => SFdiv prec emax (S754_finite true p 0)
                  (S754_finite false (Z.to_pos (10 ^ (- e))) 0)
    end.

Definition SF_trunc (x : spec_float) : option Z :=
  match x with
  | S754_zero _ => Some 0
  | S754_finite s m e =>
      let a := if 0 <=? e then Zpos m * 2 ^ e else Zpos m / 2 ^ (- e) in
      Some (if s then - a else a)
  | _ => None
  end.

Definition SF_floor (prec emax : Z) (x : spec_float) : spec_float :=
  match x with
  | S754_finite s m e =>
      if 0 <=? e then x
      else
        let z := (if s then Zneg m else Zpos m) / 2 ^ (- e) in
        binary_normalize prec emax z 0 s
  | _ => x
  end.

(** rounding to another format *)
Definition SF_round (prec emax : Z) (x : spec_float) : spec_float :=
  match x with
  | S754_finite s m e => binary_normalize prec emax (if s then Zneg m else Zpos m) e s
  | _ => x
  end.

Definition double : Type := spec_float.

#[export] Instance binary64 `{Libm double} : NumOps double := {|
  nZ := SF_ofZ 53 1024;
  ndec := SF_dec 53 1024;
  nadd := SFadd 53 1024;
  nsub := SFsub 53 1024;
  nmul := SFmul 53 1024;
  ndiv := SFdiv 53 1024;
  nopp := SFopp;
  nabs := SFabs;
  nsqrt := SFsqrt 53 1024;
  nexp := libm_exp;
  nlog := libm_log;
  npow := libm_pow;
  nltb := SFltb;
  nleb := SFleb;
  neqb := SFeqb;
  ntrunc := SF_trunc;
  nfloor := SF_floor 53 1024;
  nsingle := SF_round 24 128
|}.

Lemma SFcompare_swap (x y : spec_float) :
  SFcompare y x = CompOpp <$> SFcompare x y.
Proof.
  destruct x as [s|s| |s m e], y as [s'|s'| |s' m' e']; simpl;
    try (by destruct s); try (by destruct s'); try (by destruct s, s'); try done.
  destruct s, s'; simpl; try done; rewrite (Z.compare_antisym e e');
    destruct (e ?= e'); simpl; try done;
    change (Pos.compare_cont Eq m' m) with (m' ?= m)%positive;
    change (Pos.compare_cont Eq m m') with (m ?= m')%positive;
    rewrite (Pos.compare_antisym m m'); by rewrite ?CompOpp_involutive.
Qed.

Lemma SFcompare_nan (x y : spec_float) :
  SFcompare x y = None <-> x = S754_nan \/ y = S754_nan.
Proof.
  destruct x as [s|s| |s m e], y as [s'|s'| |s' m' e']; simpl;
    (split; [try done; auto|intros [|]; congruence || done]).
Qed.

Lemma SFcompare_refl (x : spec_float) :
  x <> S754_nan -> SFcompare x x = Some Eq.
Proof.
  destruct x as [s|s| |s m e]; simpl; try done; intros _.
  - by destruct s.
  - rewrite Z.compare_refl.
    destruct s; f_equal; change (Pos.compare_cont Eq m m) with (m ?= m)%positive;
      by rewrite Pos.compare_refl.
Qed.

(** conversion of integers below 2^53 *)
Lemma digits2_pos_lower (p : positive) : 2 ^ (Zpos (digits2_pos p) - 1) <= Zpos p.
Proof.
  induction p as [p IH|p IH|]; cbn [digits2_pos]; [| |done];
    rewrite Pos2Z.inj_succ; rewrite Z.sub_1_r, Z.pred_succ;
    replace (Zpos (digits2_pos p)) with (Z.succ (Zpos (digits2_pos p) - 1)) by lia;
    rewrite Z.pow_succ_r by lia; lia.
Qed.

Lemma shift_pos_iter (d p : positive) :
  Zpos (shift_pos d p) = Zpos p * 2 ^ Zpos d /\
  digits2_pos (shift_pos d p) = (digits2_pos p + d)%positive.
Proof.
  unfold shift_pos. induction d as [|d IH] using Pos.peano_ind.
  - cbn. split; lia.
  - rewrite Pos.iter_succ. cbn [digits2_pos]. destruct IH as [IH1 IH2]. split.
    + rewrite Pos2Z.inj_xO, IH1, Pos2Z.inj_succ, Z.pow_succ_r by lia. lia.
    + rewrite IH2. lia.
Qed.

Lemma binary_round_int s (p : positive) :
  Zpos p < 2 ^ 53 ->
  exists d, 0 <= d /\
  binary_round 53 1024 s p 0 = S754_finite s (Z.to_pos (Zpos p * 2 ^ d)) (- d).
Proof.
  intros Hp. pose proof (digits2_pos_lower p) as Lo.
  assert (Hd : Zpos (digits2_pos p) <= 53).
  { destruct (Z.le_gt_cases (Zpos (digits2_pos p)) 53) as [|Hgt]; [done|].
    assert (2 ^ 53 <= 2 ^ (Zpos (digits2_pos p) - 1)) by (apply Z.pow_le_mono_r; lia). lia. }
  assert (Main : forall q e, Zpos (digits2_pos q) + e = Zpos (digits2_pos p) ->
    Zpos (digits2_pos q) = 53 -> e <= 0 ->
    binary_round_aux 53 1024 s (Zpos q) e loc_Exact = S754_finite s q e).
  { intros q e Eq Hq He. unfold binary_round_aux, shr_fexp.
    assert (Z0 : fexp 53 1024 (Zdigits2 (Zpos q) + e) - e = 0).
    { unfold fexp, Zdigits2, emin. lia. }
    rewrite Z0. cbn [shr shr_record_of_loc shr_m loc_of_shr_record round_nearest_even].
    rewrite Z0. cbn [shr shr_m]. by rewrite (proj2 (Z.leb_le e (1024 - 53))) by lia. }
  unfold binary_round, shl_align.
  assert (Ef : fexp 53 1024 (Zpos (digits2_pos p) + 0) - 0 = Zpos (digits2_pos p) - 53).
  { unfold fexp, emin. lia. }
  rewrite Ef. destruct (Zpos (digits2_pos p) - 53) as [|d|d] eqn:E; [|lia|].
  - exists 0. split; [done|]. rewrite Main by lia. by rewrite Z.mul_1_r.
  - exists (Zpos d). split; [lia|]. destruct (shift_pos_iter d p) as [S1 S2].
    assert (Ee : fexp 53 1024 (Zpos (digits2_pos p) + 0) = Zneg d) by lia.
    unfold shift_pos in *. rewrite Ee, Main; [|rewrite S2; lia|rewrite S2; lia|lia].
    by rewrite <-S1.
Qed.

Lemma SF_trunc_ofZ z : Z.abs z < 2 ^ 53 -> SF_trunc (SF_ofZ 53 1024 z) = Some z.
Proof.
  intros Hz. unfold SF_ofZ, binary_normalize.
  assert (Pos : forall s p, Zpos p < 2 ^ 53 -> SF_trunc (binary_round 53 1024 s p 0)
    = Some (if s then - Zpos p else Zpos p)).
  { intros s p Hp. destruct (binary_round_int s p Hp) as (d & Hd & ->). cbn [SF_trunc].
    assert (0 < 2 ^ d) by (apply Z.pow_pos_nonneg; lia).
    rewrite Z2Pos.id by nia. rewrite Z.opp_involutive. case Z.leb_spec; intros.
    - assert (d = 0) as -> by lia. by rewrite !Z.mul_1_r.
    - by rewrite Z.div_mul by lia. }
  destruct z as [|p|p]; [done|by rewrite Pos by lia|by rewrite Pos by lia].
Qed.

Section Binary64.
  Context `{Libm double}.

Lemma is_nan_double (x : double) : is_nan x = true <-> x = S754_nan.
  Proof.
    unfold is_nan; simpl. unfold SFeqb. split.
    - intros E. destruct (decide (SFcompare x x = None)) as [N|N].
      + apply SFcompare_nan in N. by destruct N.
      + rewrite SFcompare_refl in E; [done|]. intros ->. done.
    - intros ->. done.
  Qed.

#[export] Instance double_order : NumOrder double.
  Proof.
    split; simpl; unfold SFltb, SFleb.
    - intros x y [Hx%is_nan_double|Hy%is_nan_double]%orb_true_iff; subst; [done|].
      by destruct x.
    - intros x y [Hx%is_nan_double|Hy%is_nan_double]%orb_true_iff; subst; [done|].
      by destruct x.
    - intros x y Hx Hy. rewrite (SFcompare_swap x y).
      destruct (SFcompare x y) as [c|] eqn:E; [by destruct c|].
      apply SFcompare_nan in E.
      destruct E as [->| ->]; [done|done].
    - intros x y. rewrite (SFcompare_swap x y).
      destruct (SFcompare x y) as [[]|]; simpl; done.
  Qed.

#[export] Instance double_int : NumInt double.
Proof.
  split. intros z Hz. simpl. unfold SF_dec. simpl. rewrite Z.mul_1_r.
  apply SF_trunc_ofZ. lia.
Qed.
End Binary64.

(** ** Exact rational arithmetic *)

(** [sqrt], [exp], [log] and [pow] have no rational values in general: the
    instance takes them as arguments; [no_qlibm] serves the runs that do not
    call them. *)
Class QLibm := {
  q_sqrt : Qc -> Qc;
  q_exp : Qc -> Qc;
  q_log : Qc -> Qc;
  q_pow : Qc -> Qc -> Qc
}.

Definition no_qlibm : QLibm :=
  {| q_sqrt x := x; q_exp x := x; q_log x := x; q_pow x _ := x |}.

Definition Qc_ofZ (z : Z) : Qc := Q2Qc (inject_Z z).
Definition Qc_dec_lit (m e : Z) : Qc :=
  if 0 <=? e then Qc_ofZ (m * 10 ^ e)
  else Qcdiv (Qc_ofZ m) (Qc_ofZ (10 ^ (- e))).
Definition Qc_ltb (x y : Qc) : bool :=
  match (x ?= y)%Qc with Lt => true | _ => false end.
Definition Qc_leb (x y : Qc) : bool :=
  match (x ?= y)%Qc with Gt => false | _ => true end.
Definition Qc_eqb (x y : Qc) : bool :=
  match (x ?= y)%Qc with Eq => true | _ => false end.
Definition Qc_abs (x : Qc) : Qc := if Qc_ltb x 0%Qc then Qcopp x else x.

#[export] Instance rational `{QLibm} : NumOps Qc := {|
  nZ := Qc_ofZ;
  ndec := Qc_dec_lit;
  nadd := Qcplus;
  nsub := Qcminus;
  nmul := Qcmult;
  ndiv := Qcdiv;
  nopp := Qcopp;
  nabs := Qc_abs;
  nsqrt := q_sqrt;
  nexp := q_exp;
  nlog := q_log;
  npow := q_pow;
  nltb := Qc_ltb;
  nleb := Qc_leb;
  neqb := Qc_eqb;
  ntrunc := fun x => Some (Z.quot (Qnum (this x)) (Zpos (Qden (this x))));
  nfloor := fun x => Qc_ofZ (Qfloor (this x));
  nsingle := fun x => x
|}.

Lemma Qc_eqb_eq (x y : Qc) : Qc_eqb x y = true <-> x = y.
Proof.
  unfold Qc_eqb. rewrite Qceq_alt. by destruct (x ?= y)%Qc.
Qed.

Lemma Qc_ofZ_this z : this (Qc_ofZ z) = inject_Z z.
Proof.
  unfold Qc_ofZ, inject_Z. simpl. unfold Qred.
  pose proof (Z.ggcd_gcd z 1) as G. pose proof (Z.ggcd_correct_divisors z 1) as D.
  destruct (Z.ggcd z 1) as [g [a b]]; simpl in *.
  rewrite Z.gcd_1_r in G. subst g. destruct D as [Da Db].
  by replace b with 1 by lia; replace a with z by lia.
Qed.

Section Rational.
  Context `{QLibm}.

#[export] Instance rational_field : NumField Qc.
  Proof.
    split; simpl.
    - change (Qc_ofZ 0) with 0%Qc. change (Qc_ofZ 1) with 1%Qc.
      pose proof Qcft as [R N D I]. split; [exact R|exact N| |].
      + intros p q. unfold Qcdiv. ring.
      + intros p Hp. unfold Qcdiv. rewrite Qcmult_1_l. by apply I.
    - intros a b. apply Qc_is_canon. unfold Qc_ofZ, Qcplus.
      cbn [this Q2Qc]. by rewrite !Qred_correct, inject_Z_plus.
    - intros a b. apply Qc_is_canon. unfold Qc_ofZ, Qcmult.
      cbn [this Q2Qc]. by rewrite !Qred_correct, inject_Z_mult.
    - intros a b E. apply (f_equal (fun q : Qc => Qnum (this q))) in E.
      cbn beta in E. by rewrite !Qc_ofZ_this in E.
    - apply Qc_eqb_eq.
    - intros z.
      change (Some (Z.quot (Qnum (this (Qc_ofZ z)))
                      (Zpos (Qden (this (Qc_ofZ z))))) = Some z).
      rewrite Qc_ofZ_this. simpl. by rewrite Z.quot_1_r.
    - intros m e He. unfold Qc_dec_lit. case Z.leb_spec; intros.
      + assert (e = 0) as -> by lia. change (Qc_ofZ (10 ^ 0)) with 1%Qc.
        rewrite Z.mul_1_r. unfold Qcdiv. change (/ 1)%Qc with 1%Qc. by rewrite Qcmult_1_r.
      + by rewrite Z.opp_involutive.
    - intros m e He. unfold Qc_dec_lit. by rewrite (proj2 (Z.leb_le 0 e)) by done.
  Qed.

#[export] Instance rational_int : NumInt Qc.
Proof.
  split. intros z _. change (ndec z 0) with (Qc_ofZ (z * 10 ^ 0)).
  rewrite Z.mul_1_r. exact (ntrunc_nZ (F:=Qc) z).
Qed.

#[export] Instance rational_order : NumOrder Qc.
  Proof.
    assert (Nan : forall x : Qc, is_nan x = false).
    { intros x. unfold is_nan. simpl. rewrite (proj2 (Qc_eqb_eq x x)); done. }
    assert (Sw : forall x y : Qc, (y ?= x)%Qc = CompOpp (x ?= y)%Qc).
    { intros x y. unfold Qccompare. by rewrite Qcompare_antisym. }
    split; simpl; intros x y; rewrite ?Nan; try done; unfold Qc_ltb, Qc_leb.
    - intros _ _. rewrite (Sw x y). by destruct (x ?= y)%Qc.
    - rewrite (Sw x y). by destruct (x ?= y)%Qc.
  Qed.
End Rational.

#[export] Instance rational_ordered `{QLibm} : NumOrdered Qc.
Proof.
  assert (Le : forall x y : Qc, Qc_leb x y = true <-> (x <= y)%Qc).
  { intros x y. unfold Qc_leb. rewrite Qcle_alt. by destruct (x ?= y)%Qc. }
  assert (N : forall x : Qc, nonneg x <-> (0 <= x)%Qc) by (intros x; apply Le).
  assert (Mul : forall x y : Qc, (0 <= x -> 0 <= y -> 0 <= x * y)%Qc).
  { intros x y Hx Hy. rewrite <-(Qcmult_0_l y). by apply Qcmult_le_compat_r. }
  assert (Opp0 : (- 0 = 0)%Qc) by ring.
  split; intros; rewrite ?N in *.
  - apply eq_true_iff_eq. cbn. rewrite !Le. change (Qc_ofZ 0) with 0%Qc.
    by rewrite Qcle_minus_iff.
  - cbn. unfold Qc_ltb, Qc_leb, Qccompare. rewrite <-(Qcompare_antisym x y). by destruct (x ?= y)%Q.
  - pose proof (Qcplus_le_compat 0 x 0 y) as Hs. rewrite Qcplus_0_l in Hs. by apply Hs.
  - by apply Mul.
  - destruct (Qclt_le_dec x 0) as [Hx|Hx].
    + change (nmul x x) with (x * x)%Qc. replace (x * x)%Qc with ((- x) * (- x))%Qc by ring.
      apply Qclt_le_weak, Qcopp_le_compat in Hx. rewrite Opp0 in Hx. by apply Mul.
    + by apply Mul.
  - apply Qcle_antisym; [|done]. apply Qcle_minus_iff. by rewrite Qcplus_0_l.
Qed.

(** ** Field reasoning in exact arithmetic *)

Section FieldFacts.
  Context {F : Type} `{NumField F}.
  Add Field num_field_tac : num_field.
  #[local] Open Scope num_scope.

Lemma nZ_0_neq (z : Z) : z <> 0%Z -> nZ z <> nZ 0 :> F.
  Proof. intros Hz E. by apply nZ_inj in E. Qed.

(** the literal 0.5 *)
Lemma half_half : ndec 5 (-1) + ndec 5 (-1) = nZ 1 :> F.
  Proof.
    rewrite (ndec_exact 5 1) by lia. change (10 ^ 1)%Z with (5 * 2)%Z. rewrite nZ_mul.
    assert (nZ 5 <> nZ 0 :> F) by by apply nZ_0_neq. assert (nZ 2 <> nZ 0 :> F) by by apply nZ_0_neq.
    change (nZ 2 : F) with (nZ (1 + 1) : F) in *. rewrite nZ_add in *. field. done.
  Qed.

Lemma opp_one : nZ (-1) = - nZ 1 :> F.
  Proof.
    assert (E : nZ (-1) + nZ 1 = nZ 0 :> F) by by rewrite <-nZ_add.
    transitivity (nZ (-1) + nZ 1 - nZ 1 : F); [ring|rewrite E; ring].
  Qed.

Lemma nsub_add (x y : F) : x - y + y = x.
  Proof. ring. Qed.

Lemma nadd_sub_cancel (x y : F) : x + (y - x) = y.
  Proof. ring. Qed.

Lemma ndiv_mul_cancel (x y : F) : y <> 0 -> x / y * y = x.
  Proof. intros. field. done. Qed.
End FieldFacts.

Section OrderFacts.
  Context {F : Type} `{NumOrdered F}.
  Add Field num_order_tac : num_field.
  #[local] Open Scope num_scope.

Lemma nonneg_zero : nonneg (nZ 0 : F).
Proof. replace (nZ 0 : F) with (nZ 0 * nZ 0 : F) by ring. apply nonneg_square. Qed.

Lemma nleb_add (x y : F) : nonneg y -> nleb x (x + y) = true.
Proof. intros Hy. rewrite nleb_nonneg. by replace (x + y - x) with y by ring. Qed.

Lemma nonneg_nZ (z : Z) : (0 <= z)%Z -> nonneg (nZ z : F).
Proof.
  revert z. refine (natlike_ind _ nonneg_zero _). intros z _ Hz.
  rewrite <-Z.add_1_r, nZ_add. apply nonneg_add; [done|].
  replace (nZ 1 : F) with (nZ 1 * nZ 1 : F) by ring. apply nonneg_square.
Qed.

(** the inverse of a positive number is positive *)
Lemma nonneg_inverse (x : F) : nonneg x -> x <> nZ 0 -> nonneg (nZ 1 / x) /\ nZ 1 / x <> nZ 0.
Proof.
  intros Hx Nx. split.
  - replace (nZ 1 / x) with (x * (nZ 1 / x * (nZ 1 / x))) by (field; done).
    apply nonneg_mul; [done|apply nonneg_square].
  - intros E. assert (E1 : nZ 1 = nZ 0 :> F) by (transitivity (nZ 1 / x * x); [field; done|rewrite E; ring]).
    by apply nZ_inj in E1.
Qed.

(** non-negative numbers that add up to zero *)
Lemma nonneg_add_zero (x y : F) : nonneg x -> nonneg y -> x + y = nZ 0 -> x = nZ 0 /\ y = nZ 0.
Proof.
  intros Hx Hy E. assert (Ey : y = - x) by (transitivity (x + y - x); [ring|rewrite E; ring]).
  assert (x = nZ 0) as -> by (apply nonneg_antisym; [done|by rewrite <-Ey]).
  split; [done|]. rewrite Ey. ring.
Qed.

Lemma mul_zero (x y : F) : x * y = nZ 0 -> x = nZ 0 \/ y = nZ 0.
Proof.
  intros E. destruct (neqb x (nZ 0)) eqn:Ex; [left; by apply neqb_eq|right].
  assert (Nx : x <> nZ 0) by (intros C; apply neqb_eq in C; congruence).
  transitivity (x * y / x); [field; done|]. rewrite E. field. done.
Qed.
End OrderFacts.

(** ** The concrete literals *)

Section Literals.
  Context `{Libm double}.
  (** 0.5, 0.1 and 0.55 in binary64 *)
Example lit_half : ndec 5 (-1) = S754_finite false 4503599627370496 (-53).
  Proof. vm_compute. reflexivity. Qed.
Example lit_tenth : ndec 1 (-1) = S754_finite false 7205759403792794 (-56).
  Proof. vm_compute. reflexivity. Qed.
Example floor_neg : nfloor (ndec (-25) (-1)) = nZ (-3).
  Proof. vm_compute. reflexivity. Qed.
Example trunc_neg : ntrunc (ndec (-25) (-1)) = Some (-2).
  Proof. vm_compute. reflexivity. Qed.
End Literals.
