(* ===== verification/Constants.v ===== *)
(** * The compile-time configuration (mage/src/Constants.h) *)

From S2P Require Import Prelude Num.

(** ** Parameter lengths *)
Definition nOfDers : Z := 3.
Definition nOfMGCs : Z := 35.
Definition mgcLen : Z := nOfDers * nOfMGCs.
Definition nOfLF0s : Z := 1.
Definition lf0Len : Z := nOfDers * nOfLF0s.
Definition nOfLPFs : Z := 31.
Definition lpfLen : Z := nOfDers * nOfLPFs.
Definition maxStreamLen : Z := nOfDers * nOfMGCs.
Definition maxWindowWidth : Z := 50.
Definition nOfStates : Z := 5.
Definition nOfStreams : Z := 3.

(** ** Queues *)
Definition nOfLookup : Z := 0.
Definition nOfBackup : Z := 2.
Definition maxNumOfFrames : Z := 512.
Definition maxDuration : Z := maxNumOfFrames / (nOfBackup + nOfLookup + 1).
Definition maxLabelQueueLen : Z := 512.
Definition maxFrameQueueLen : Z := 200.
Definition maxModelQueueLen : Z := nOfLookup + nOfBackup + 2.

(** ** Vocoder *)
Definition defaultFrameRate : Z := 240.
Definition defaultInterpFrameRate : Z := 1.
Definition defaultSamplingRate : Z := 48000.
Definition fftLen : Z := 256.
Definition defaultPadeOrder : Z := 5.
Definition defaultGamma : Z := 0.
Definition defaultVolume : Z := 1.
Definition defaultPitch : Z := 110.
Definition useLF0 : bool := true.
Definition useMELF0 : bool := false.
Definition enableMLSAcheck : bool := true.

(** the [double] constants *)
Definition defaultAlpha {F} `{NumOps F} : F := ndec 55 (-2).
Definition R1 {F} `{NumOps F} : F := nZ 6.
Definition R2 {F} `{NumOps F} : F := ndec 765 (-2).
Definition defaultInterpolationWeight {F} `{NumOps F} : F := nZ 1.
Definition defaultMSDflag {F} `{NumOps F} : F := nZ 0.

(** ** Stream indices *)
Definition mgcStreamIndex : Z := 0.
Definition lf0StreamIndex : Z := 1.
Definition lpfStreamIndex : Z := 2.
Definition durStreamIndex : Z := 3.

(** ** Actions *)
Definition noaction : Z := -1.
Definition overwrite : Z := 0.
Definition shift : Z := 1.
Definition scale : Z := 2.
Definition synthetic : Z := 3.

(** ** Configuration files and strings *)
Definition maxNumOfArguments : Z := 100.
Definition maxStrLen : Z := 1024.
