(* ===== verification/CString.v ===== *)
(** * C strings, numbers in text, and string streams

    Strings are lists of characters; what the C functions see of them ends at
    the first NUL ([cstr]).  [atof] is generic in the numbers; [strtod] on
    hexadecimal floats, infinities and NaNs is an argument. *)

From Stdlib Require Import Ascii String.
From S2P Require Import Prelude Num Constants.
#[local] Open Scope Z_scope.

(** ** C strings and streams *)

Definition chr (n : nat) : ascii := ascii_of_nat n.
Definition NUL : ascii := chr 0.
Definition space : ascii := chr 32.
Definition newline : ascii := chr 10.

Definition str_len (s : string) : Z := Z.of_nat (String.length s).

(** what [c_str()] shows to the C functions: up to the first NUL *)
Fixpoint cstr (s : string) : string :=
  match s with
  | EmptyString => EmptyString
  | String a s => if Ascii.eqb a NUL then EmptyString else String a (cstr s)
  end.

(** [strcpy] into an array of [size] bytes *)
Definition strcpy (size : Z) (s : string) : Res string :=
  check (str_len (cstr s) <? size) OutOfBounds ;; Ok (cstr s).

(** an input string stream: the rest of its text, or None once the end was hit *)
Definition stream := option string.

(** [getline( is, str, delim )]: at the end of the text the stream stops being
    good; a stream that is not good leaves [str] as it is *)
Fixpoint split_at (delim : ascii) (s : string) : string * option string :=
  match s with
  | EmptyString => (EmptyString, None)
  | String a s =>
      if Ascii.eqb a delim then (EmptyString, Some s)
      else let '(l, r) := split_at delim s in (String a l, r)
  end.

Definition getline (liness : stream) (str : string) (delim : ascii) : string * stream :=
  match liness with
  | None => (str, None)
  | Some text => split_at delim text
  end.

(** ** Numbers *)

(** the white space of [isspace] in the C locale *)
Definition is_space (a : ascii) : bool :=
  let n := nat_of_ascii a in (n =? 32)%nat || ((9 <=? n)%nat && (n <=? 13)%nat).

Definition digit (a : ascii) : option Z :=
  let n := Z.of_nat (nat_of_ascii a) in
  if (48 <=? n) && (n <=? 57) then Some (n - 48) else None.

Fixpoint skip_spaces (s : string) : string :=
  match s with
  | String a s' => if is_space a then skip_spaces s' else s
  | EmptyString => s
  end.

(** an optional sign *)
Definition sign (s : string) : Z * string :=
  match s with
  | String a s' =>
      if Ascii.eqb a (chr 45) then (-1, s') else if Ascii.eqb a (chr 43) then (1, s') else (1, s)
  | EmptyString => (1, s)
  end.

(** the value of the leading digits, from [acc], their number, and the rest *)
Fixpoint digits (acc n : Z) (s : string) : Z * Z * string :=
  match s with
  | String a s' =>
      match digit a with
      | Some d => digits (10 * acc + d) (n + 1) s'
      | None => (acc, n, s)
      end
  | EmptyString => (acc, n, s)
  end.

(** [sscanf( str, "%d", &i ) == 1] *)
Definition isdigit_string (str : string) : bool :=
  let '(_, s) := sign (skip_spaces str) in
  let '(_, n, _) := digits 0 0 s in 0 <? n.

(** [atoi]: undefined when the value is not an int *)
Definition atoi (s : string) : Res Z :=
  let '(sg, s) := sign (skip_spaces s) in
  let '(v, _, _) := digits 0 0 s in i32 (sg * v).

(** a decimal exponent, when [e] is followed by an integer *)
Definition exponent (s : string) : Z :=
  match s with
  | String a s' =>
      if Ascii.eqb a (chr 101) || Ascii.eqb a (chr 69) then
        let '(sg, s') := sign s' in
        let '(v, n, _) := digits 0 0 s' in
        if 0 <? n then sg * v else 0
      else 0
  | EmptyString => 0
  end.

Section Atof.
Context {F : Type} `{NumOps F}.
(** [strtod] on hexadecimal floats, and on the names of infinity and NaN *)
Variable strtod_special : string -> F.

(** "0x", or the first letter of "inf" and "nan" *)
Definition is_special (s : string) : bool :=
  match s with
  | String a s' =>
      existsb (fun n => Ascii.eqb a (chr n)) [73; 78; 105; 110]%nat ||
      match s' with
      | String b _ =>
          Ascii.eqb a (chr 48) && (Ascii.eqb b (chr 120) || Ascii.eqb b (chr 88))
      | EmptyString => false
      end
  | EmptyString => false
  end.

(** [atof] *)
Definition atof (str : string) : F :=
  let '(sg, s) := sign (skip_spaces str) in
  if is_special s then strtod_special str
  else
    let '(v, n, s) := digits 0 0 s in
    let '(v, k, s) :=
      match s with
      | String a s' => if Ascii.eqb a (chr 46) then digits v 0 s' else (v, 0, s)
      | EmptyString => (v, 0, s)
      end in
    ndec (sg * v) (exponent s - k).
End Atof.

(** ** Lemmas *)

Fixpoint free_of (a : ascii) (s : string) : Prop :=
  match s with
  | EmptyString => True
  | String b s => b <> a /\ free_of a s
  end.

Lemma cstr_free s : free_of NUL s -> cstr s = s.
Proof.
  induction s as [|b s IH]; [done|]. intros [Hb Hs]. simpl.
  destruct (Ascii.eqb_spec b NUL); [done|]. by rewrite IH.
Qed.

Lemma strcpy_ok size s : free_of NUL s -> str_len s < size -> strcpy size s = Ok s.
Proof.
  intros Hf Hl. unfold strcpy. rewrite cstr_free by done.
  by rewrite (proj2 (Z.ltb_lt _ _) Hl).
Qed.

Lemma split_at_app d s t : free_of d s -> split_at d (s ++ String d t) = (s, Some t).
Proof.
  induction s as [|b s IH]; simpl; [by rewrite Ascii.eqb_refl|].
  intros [Hb Hs]. destruct (Ascii.eqb_spec b d); [done|]. by rewrite IH.
Qed.

Lemma split_at_end d s : free_of d s -> split_at d s = (s, None).
Proof.
  induction s as [|b s IH]; simpl; [done|].
  intros [Hb Hs]. destruct (Ascii.eqb_spec b d); [done|]. by rewrite IH.
Qed.

Lemma ends_atoi s : ends (atoi s) (fun _ => True).
Proof.
  unfold atoi. destruct (sign _) as [sg v']. destruct (digits _ _ _) as [[z k] t].
  unfold i32, check. by destruct (in_i32 _).
Qed.
