(* ===== verification/Sums.v ===== *)
(** * Finite sums in exact arithmetic

    Sums over integer ranges, as the proofs about banded systems use them:
    splitting, reversal, exchange, and sums along a band. *)

From Stdlib Require Import Field.
From S2P Require Import Prelude Num.
#[local] Open Scope Z_scope.

Section Sums.
Context {F : Type} `{NumField F}.
Add Field sums_field : num_field.
#[local] Open Scope num_scope.
#[local] Open Scope Z_scope.

Fixpoint sumn (n : nat) (lo : Z) (f : Z -> F) : F :=
  match n with
  | O => nZ 0
  | S n => (f lo + sumn n (lo + 1)%Z f)%num
  end.

(** the sum of [f k] over [lo <= k < hi] *)
Definition sum (lo hi : Z) (f : Z -> F) : F := sumn (Z.to_nat (hi - lo)) lo f.

Lemma sum_nil lo hi f : hi <= lo -> sum lo hi f = nZ 0.
Proof. intros. unfold sum. by replace (Z.to_nat (hi - lo)) with O by lia. Qed.

Lemma sum_cons lo hi f : lo < hi -> sum lo hi f = (f lo + sum (lo + 1) hi f)%num.
Proof.
  intros. unfold sum.
  by replace (Z.to_nat (hi - lo)) with (S (Z.to_nat (hi - (lo + 1)))) by lia.
Qed.

(** induction on the length of a range, from its lower end *)
Lemma range_ind (P : Z -> Z -> Prop) :
  (forall lo hi, hi <= lo -> P lo hi) ->
  (forall lo hi, lo < hi -> P (lo + 1) hi -> P lo hi) -> forall lo hi, P lo hi.
Proof.
  intros P0 PS lo hi. remember (Z.to_nat (hi - lo)) as n eqn:En. revert lo En.
  induction n as [|n IH]; intros lo En; [apply P0; lia|].
  apply PS; [lia|]. apply IH. lia.
Qed.

Lemma sum_ext lo hi f f' :
  (forall k, lo <= k < hi -> f k = f' k) -> sum lo hi f = sum lo hi f'.
Proof.
  revert lo hi. refine (range_ind _ _ _); intros lo hi Hr; [by rewrite !sum_nil|].
  intros IH E. rewrite !(sum_cons lo) by done. rewrite E by lia. f_equal.
  apply IH. intros. apply E. lia.
Qed.

Lemma sum_zero lo hi f : (forall k, lo <= k < hi -> f k = nZ 0) -> sum lo hi f = nZ 0.
Proof.
  revert lo hi. refine (range_ind _ _ _); intros lo hi Hr; [by rewrite !sum_nil|].
  intros IH E. rewrite sum_cons, E by lia. rewrite IH; [ring|]. intros. apply E. lia.
Qed.

Lemma sum_split lo mid hi f :
  lo <= mid <= hi -> sum lo hi f = (sum lo mid f + sum mid hi f)%num.
Proof.
  revert lo mid. refine (range_ind _ _ _); intros lo mid Hr.
  - intros Hm. assert (mid = lo) as -> by lia. rewrite (sum_nil lo lo) by lia. ring.
  - intros IH Hm. rewrite !(sum_cons lo) by lia. rewrite IH by lia. ring.
Qed.

Lemma sum_snoc lo hi f : lo <= hi -> sum lo (hi + 1) f = (sum lo hi f + f hi)%num.
Proof.
  intros. rewrite (sum_split lo hi) by lia. rewrite (sum_cons hi), (sum_nil (hi + 1)) by lia. ring.
Qed.

Lemma sum_mul lo hi c f : sum lo hi (fun k => c * f k)%num = (c * sum lo hi f)%num.
Proof.
  revert lo hi. refine (range_ind _ _ _); intros lo hi Hr; [rewrite !sum_nil by done; ring|].
  intros IH. rewrite !(sum_cons lo), IH by done. ring.
Qed.

Lemma sum_add lo hi f f' :
  sum lo hi (fun k => f k + f' k)%num = (sum lo hi f + sum lo hi f')%num.
Proof.
  revert lo hi. refine (range_ind _ _ _); intros lo hi Hr; [rewrite !sum_nil by done; ring|].
  intros IH. rewrite !(sum_cons lo), IH by done. ring.
Qed.

Lemma sum_exchange lo hi lo' hi' (f : Z -> Z -> F) :
  sum lo hi (fun i => sum lo' hi' (fun j => f i j))
  = sum lo' hi' (fun j => sum lo hi (fun i => f i j)).
Proof.
  revert lo hi. refine (range_ind _ _ _); intros lo hi Hr.
  - rewrite sum_nil by done. symmetry. apply sum_zero. intros. by apply sum_nil.
  - intros IH. rewrite sum_cons, IH by done. rewrite <-sum_add.
    apply sum_ext. intros j Hj. by rewrite (sum_cons lo hi).
Qed.

(** reversal: [k = t - j] *)
Lemma sum_rev t n f : 0 <= n -> sum 1 (n + 1) (fun j => f (t - j)) = sum (t - n) t f.
Proof.
  intros Hn. pattern n. apply natlike_ind; [|intros m Hm IH|done].
  - by rewrite !sum_nil by lia.
  - rewrite <-Z.add_1_r, sum_snoc, IH by lia.
    rewrite (sum_cons (t - (m + 1))) by lia.
    replace (t - (m + 1) + 1) with (t - m) by lia. ring.
Qed.

(** a sum along a band of width [m] before [t] *)
Lemma sum_band t m f :
  0 <= t -> 1 <= m ->
  sum 1 (Z.min m (t + 1)) (fun j => f (t - j))
  = sum 0 t (fun s => if t - s <? m then f s else nZ 0).
Proof.
  intros Ht Hm. set (n := Z.min m (t + 1) - 1).
  replace (Z.min m (t + 1)) with (n + 1) by (unfold n; lia).
  rewrite sum_rev by (unfold n; lia). rewrite (sum_split 0 (t - n)) by (unfold n; lia).
  rewrite (sum_zero 0 (t - n)).
  - rewrite (sum_ext (t - n) t (fun s => if t - s <? m then f s else nZ 0) f); [ring|]. intros k Hk. unfold n in Hk.
    by rewrite (proj2 (Z.ltb_lt _ _)) by lia.
  - intros k Hk. unfold n in Hk. by rewrite (proj2 (Z.ltb_ge _ _)) by lia.
Qed.

Lemma sum_shift s lo hi f : sum (s + lo) (s + hi) f = sum lo hi (fun i => f (s + i)).
Proof.
  revert lo hi. refine (range_ind _ _ _); intros lo hi Hr; [by rewrite !sum_nil by lia|].
  intros IH. rewrite (sum_cons (s + lo)), (sum_cons lo) by lia.
  f_equal. rewrite <-IH. by rewrite Z.add_assoc.
Qed.

(** a sum over a part of a range *)
Lemma sum_within lo hi lo' hi' f :
  lo' <= lo -> lo <= hi -> hi <= hi' ->
  sum lo hi f = sum lo' hi' (fun k => if (lo <=? k) && (k <? hi) then f k else nZ 0).
Proof.
  intros. rewrite (sum_split lo' lo hi'), (sum_split lo hi hi') by lia.
  rewrite (sum_zero lo' lo), (sum_zero hi hi') by (intros; zbool; done).
  rewrite (sum_ext lo hi f (fun k => if (lo <=? k) && (k <? hi) then f k else nZ 0))
    by (intros; zbool; done). ring.
Qed.

(** the frames a window reaches, counted from it or from the first frame *)
Lemma sum_clip lo hi n t f :
  lo <= hi -> 0 <= n ->
  sum lo hi (fun j => if (0 <=? t + j) && (t + j <? n) then f (t + j) else nZ 0)
  = sum 0 n (fun s => if (lo <=? s - t) && (s - t <? hi) then f s else nZ 0).
Proof.
  intros. set (f' s := if (0 <=? s) && (s <? n) then f s else nZ 0).
  transitivity (sum (t + lo) (t + hi) f'); [by rewrite sum_shift|].
  set (L := Z.min 0 (t + lo)). set (R := Z.max n (t + hi)).
  rewrite (sum_within _ _ L R), (sum_within 0 n L R) by (unfold L, R; lia).
  apply sum_ext. intros s _. unfold f'.
  destruct (Z.leb_spec 0 s), (Z.ltb_spec s n), (Z.leb_spec lo (s - t)), (Z.ltb_spec (s - t) hi);
    cbn [andb]; zbool; done || lia.
Qed.

(** the terms of a row on both sides of the diagonal *)
Lemma sum_sides n w t f :
  0 <= t < n -> 1 <= w ->
  sum 0 n (fun s => if Z.abs (t - s) <? w then f s else nZ 0)
  = nadd (f t) (sum 1 w (fun i => nadd (if t + i <? n then f (t + i) else nZ 0)
                                      (if i <? t + 1 then f (t - i) else nZ 0))).
Proof.
  intros Ht Hw. rewrite sum_add, (sum_split 0 t) by lia. rewrite (sum_cons t) by lia.
  rewrite Z.sub_diag. rewrite (proj2 (Z.ltb_lt (Z.abs 0) w)) by (cbn; lia).
  assert (Lo : sum 0 t (fun s => if Z.abs (t - s) <? w then f s else nZ 0)
    = sum 1 w (fun i => if i <? t + 1 then f (t - i) else nZ 0)).
  { transitivity (sum 1 (Z.min w (t + 1)) (fun i => f (t - i))).
    - rewrite (sum_band t w f) by lia. apply sum_ext. intros s Hs.
      by replace (Z.abs (t - s)) with (t - s) by lia.
    - rewrite (sum_split 1 (Z.min w (t + 1)) w) by lia.
      rewrite (sum_zero (Z.min w (t + 1)) w) by (intros; by zbool).
      rewrite (sum_ext 1 (Z.min w (t + 1)) (fun i => f (t - i))
        (fun i => if i <? t + 1 then f (t - i) else nZ 0)) by (intros; by zbool). ring. }
  assert (Hi : sum (t + 1) n (fun s => if Z.abs (t - s) <? w then f s else nZ 0)
    = sum 1 w (fun i => if t + i <? n then f (t + i) else nZ 0)).
  { replace n with (t + (n - t)) at 1 by lia. rewrite sum_shift.
    rewrite (sum_split 1 (Z.min w (n - t)) (n - t)), (sum_split 1 (Z.min w (n - t)) w) by lia.
    rewrite (sum_zero _ (n - t)), (sum_zero _ w) by (intros; by zbool). f_equal.
    apply sum_ext. intros i Hi. replace (Z.abs (t - (t + i))) with i by lia. by zbool. }
  rewrite Lo, Hi. ring.
Qed.

(** one term of a sum *)
Lemma sum_single lo hi t f :
  lo <= t < hi -> (forall k, lo <= k < hi -> k <> t -> f k = nZ 0) -> sum lo hi f = f t.
Proof.
  intros Ht Hz. rewrite (sum_split lo t) by lia. rewrite (sum_cons t) by lia.
  rewrite (sum_zero lo t), (sum_zero (t + 1) hi); [ring|intros; apply Hz; lia..].
Qed.

(** ** Solutions of symmetric banded systems *)

Section Band.
(** [w]: the width of the band, diagonal included; [A t i] the entry [i] places
    right of the diagonal in row [t] *)
Variables (T w : Z) (A u : Z -> Z -> F) (D G X B : Z -> F).
Hypothesis Hw : 1 <= w.

(** the matrix of the band *)
Definition full (r s : Z) : F :=
  if Z.abs (r - s) <? w then A (Z.min r s) (Z.abs (r - s)) else nZ 0.

(** what the three loops compute *)
Hypothesis ldl_diag : forall t, 0 <= t < T ->
  D t = (A t 0 - sum 1 (Z.min w (t + 1)) (fun i => u (t - i) i * u (t - i) i * D (t - i)))%num.
Hypothesis ldl_band : forall t i, 0 <= t < T -> 1 <= i < w ->
  u t i = ((A t i - sum 1 (Z.min (w - i) (t + 1))
                      (fun j => u (t - j) j * u (t - j) (i + j) * D (t - j))) / D t)%num.
Hypothesis forward : forall t, 0 <= t < T ->
  G t = (B t - sum 1 (Z.min w (t + 1)) (fun i => u (t - i) i * G (t - i)))%num.
Hypothesis backward : forall t, 0 <= t < T ->
  X t = (G t / D t - sum 1 (Z.min w (T - t)) (fun i => u t i * X (t + i)))%num.
(** the unit upper triangular factor *)
Let U (s r : Z) : F :=
  if r =? s then nZ 1 else if (s <? r) && (r - s <? w) then u s (r - s) else nZ 0.

Lemma U_diag s : U s s = nZ 1.
Proof. unfold U. by rewrite Z.eqb_refl. Qed.
Lemma U_low s r : r < s -> U s r = nZ 0.
Proof. intros. unfold U. by zbool. Qed.
Lemma U_band s r : s < r -> r - s < w -> U s r = u s (r - s).
Proof. intros. unfold U. by zbool. Qed.
Lemma U_far s r : w <= r - s -> U s r = nZ 0.
Proof. intros. unfold U. by zbool. Qed.

(** row [t] of the factorization *)
Lemma factor_upper t r :
  0 <= t <= r -> r < T -> (t < r -> D t <> nZ 0) ->
  full t r = sum 0 T (fun s => U s t * D s * U s r)%num.
Proof.
  intros Ht Hr Hp. unfold full. replace (Z.abs (t - r)) with (r - t) by lia.
  rewrite Z.min_l by lia.
  rewrite (sum_split 0 t) by lia. rewrite (sum_cons t) by lia.
  rewrite (sum_zero (t + 1) T) by (intros k Hk; rewrite (U_low k t) by lia; ring).
  rewrite U_diag. case Z.ltb_spec; intros Hi.
  - assert (E : sum 0 t (fun s => U s t * D s * U s r)%num
      = sum 1 (Z.min (w - (r - t)) (t + 1))
          (fun j => u (t - j) j * u (t - j) ((r - t) + j) * D (t - j))%num).
    { set (f := fun s => (u s (t - s) * u s (r - s) * D s)%num).
      transitivity (sum 1 (Z.min (w - (r - t)) (t + 1)) (fun j => f (t - j))).
      - rewrite (sum_band t (w - (r - t)) f) by lia. apply sum_ext. intros s Hs. unfold f.
        case Z.ltb_spec; intros Hb.
        + rewrite !U_band by lia. ring.
        + rewrite (U_far s r) by lia. ring.
      - apply sum_ext. intros j Hj. unfold f. do 2 f_equal; [f_equal|]; f_equal; lia. }
    rewrite E. destruct (decide (t = r)) as [<-|Hne].
    + rewrite Z.sub_diag, U_diag, Z.sub_0_r. rewrite (ldl_diag t) at 1 by lia.
      rewrite (sum_ext 1 (Z.min w (t + 1))
        (fun j => u (t - j) j * u (t - j) (0 + j) * D (t - j))%num
        (fun i => u (t - i) i * u (t - i) i * D (t - i))%num) by done.
      ring.
    + rewrite (U_band t r) by lia. rewrite (ldl_band t (r - t)) by lia.
      field. apply Hp. lia.
  - rewrite (U_far t r) by lia. rewrite sum_zero; [ring|].
    intros s Hs. rewrite (U_far s r) by lia. ring.
Qed.

Lemma full_sym t r : full t r = full r t.
Proof. unfold full. by rewrite Z.min_comm, <-Z.abs_opp, Z.opp_sub_distr, Z.add_comm. Qed.

Lemma factor t r :
  0 <= t < T -> 0 <= r < T -> (t <> r -> D (Z.min t r) <> nZ 0) ->
  full t r = sum 0 T (fun s => U s t * D s * U s r)%num.
Proof.
  intros Ht Hr Hp. destruct (decide (t <= r)).
  - apply factor_upper; [lia..|]. intros. rewrite Z.min_l in Hp by lia. apply Hp. lia.
  - rewrite full_sym, factor_upper; [apply sum_ext; intros; ring|lia..|].
    intros. rewrite Z.min_r in Hp by lia. apply Hp. lia.
Qed.

(** a vector that the upper factor takes to a unit vector, solved from its end *)
Lemma unit_preimage t lo :
  0 <= lo <= t -> exists x, x t = nZ 1 /\ (forall r, t < r -> x r = nZ 0) /\
    forall s, lo <= s < t -> sum s (t + 1) (fun r => U s r * x r)%num = nZ 0.
Proof.
  intros Hlo. replace lo with (t - (t - lo)) by lia. assert (Hn : 0 <= t - lo) by lia.
  revert Hn. generalize (t - lo). clear lo Hlo. refine (natlike_ind _ _ _).
  { exists (fun r => if r =? t then nZ 1 else nZ 0). rewrite Z.eqb_refl.
    split; [done|]. split; [|lia]. intros r Hr. by zbool. }
  intros n Hn (x & X1 & X0 & Xs). set (s0 := t - Z.succ n).
  set (z := (- sum (s0 + 1) (t + 1) (fun r => U s0 r * x r))%num).
  exists (fun r => if r =? s0 then z else x r).
  split; [by rewrite (proj2 (Z.eqb_neq t s0)) by (unfold s0; lia)|]. split.
  { intros r Hr. rewrite (proj2 (Z.eqb_neq r s0)) by (unfold s0; lia). by apply X0. }
  intros s Hs. destruct (decide (s = s0)) as [->|Hne].
  - rewrite sum_cons, Z.eqb_refl, U_diag by lia.
    rewrite (sum_ext (s0 + 1) (t + 1) _ (fun r => U s0 r * x r)%num); [unfold z; ring|].
    intros r Hr. by rewrite (proj2 (Z.eqb_neq r s0)) by lia.
  - rewrite <-(Xs s) by (unfold s0 in *; lia). apply sum_ext. intros r Hr.
    by rewrite (proj2 (Z.eqb_neq r s0)) by (unfold s0 in *; lia).
Qed.

(** a pivot is a value of the quadratic form of the matrix *)
Lemma pivot_of_form t :
  0 <= t < T -> (forall s, 0 <= s < t -> D s <> nZ 0) ->
  exists x, x t = nZ 1 /\ (forall r, t < r -> x r = nZ 0) /\
    sum 0 T (fun a => sum 0 T (fun r => x a * (full a r * x r)))%num = D t.
Proof.
  intros Ht Hp. destruct (unit_preimage t 0) as (x & X1 & X0 & Xs); [lia|].
  exists x. split; [done|]. split; [done|].
  assert (Ux : forall s, 0 <= s < T ->
    sum 0 T (fun r => U s r * x r)%num = if s =? t then nZ 1 else nZ 0).
  { intros s Hs. rewrite (sum_split 0 s) by lia.
    rewrite (sum_zero 0 s) by (intros k Hk; rewrite U_low by lia; ring).
    destruct (Z.lt_trichotomy s t) as [Hlt|[->|Hgt]].
    - rewrite (sum_split s (t + 1)) by lia. rewrite Xs by lia.
      rewrite sum_zero by (intros k Hk; rewrite X0 by lia; ring). zbool. ring.
    - rewrite sum_cons, U_diag, X1 by lia.
      rewrite sum_zero by (intros k Hk; rewrite X0 by lia; ring). zbool. ring.
    - rewrite sum_zero by (intros k Hk; rewrite X0 by lia; ring). zbool. ring. }
  transitivity (sum 0 T (fun a => sum 0 T (fun r => sum 0 T (fun s =>
    (U s a * x a) * (D s * (U s r * x r))))))%num.
  { apply sum_ext. intros a Ha. apply sum_ext. intros r Hr. destruct (decide (a <= t /\ r <= t)).
    - rewrite factor; [|lia|lia|intros; apply Hp; lia].
      transitivity ((x a * x r) * sum 0 T (fun s => U s a * D s * U s r))%num; [ring|].
      rewrite <-sum_mul. apply sum_ext. intros. ring.
    - assert (E : x a = nZ 0 \/ x r = nZ 0) by (destruct (decide (a <= t)); [right|left]; apply X0; lia).
      rewrite sum_zero by (intros; destruct E as [-> | ->]; ring). destruct E as [-> | ->]; ring. }
  transitivity (sum 0 T (fun s => D s * ((if (s =? t)%Z then nZ 1 else nZ 0) * (if (s =? t)%Z then nZ 1 else nZ 0))))%num.
  - rewrite (sum_ext _ _ _ (fun a => sum 0 T (fun s =>
      (U s a * x a) * (D s * sum 0 T (fun r => U s r * x r)))))%num.
    + rewrite sum_exchange. apply sum_ext. intros s Hs. rewrite <-(Ux s) by done.
      set (z := sum 0 T (fun r => U s r * x r)%num).
      transitivity (sum 0 T (fun a => (D s * z) * (U s a * x a)))%num; [apply sum_ext; intros; ring|].
      rewrite sum_mul. fold z. ring.
    + intros a Ha. rewrite sum_exchange. apply sum_ext. intros s Hs. by rewrite !sum_mul.
  - rewrite (sum_single 0 T t); [zbool; ring|done|]. intros k Hk Hne. zbool. ring.
Qed.

Hypothesis pivots : forall t, 0 <= t < T -> D t <> nZ 0.

Lemma upper_solution s : 0 <= s < T -> sum 0 T (fun r => U s r * X r)%num = (G s / D s)%num.
Proof.
  intros Hs. rewrite (sum_split 0 s) by lia.
  rewrite (sum_zero 0 s) by (intros k Hk; rewrite U_low by lia; ring).
  rewrite (sum_cons s), U_diag, (backward s) by lia.
  assert (E : sum (s + 1) T (fun r => U s r * X r)%num
              = sum 1 (Z.min w (T - s)) (fun i => u s i * X (s + i))%num).
  { replace T with (s + (T - s)) at 1 by lia. rewrite sum_shift.
    rewrite (sum_split 1 (Z.min w (T - s))) by lia.
    rewrite (sum_zero (Z.min w (T - s))).
    - rewrite (sum_ext 1 _ _ (fun i => u s i * X (s + i))%num); [ring|].
      intros i Hi. rewrite U_band by lia. by replace (s + i - s) with i by lia.
    - intros i Hi. rewrite U_far by lia. ring. }
  rewrite E. ring.
Qed.

(** the result of the loops solves the system *)
Lemma band_solution t : 0 <= t < T -> sum 0 T (fun r => full t r * X r)%num = B t.
Proof.
  intros Ht.
  transitivity (sum 0 T (fun s => U s t * D s * sum 0 T (fun r => U s r * X r))%num).
  { rewrite (sum_ext 0 T _ (fun r => sum 0 T (fun s => U s t * D s * (U s r * X r)))%num).
    - rewrite sum_exchange. apply sum_ext. intros s Hs. by rewrite sum_mul.
    - intros r Hr. rewrite factor by (lia || (intros; apply pivots; lia)).
      rewrite (sum_ext 0 T (fun s => U s t * D s * (U s r * X r))%num
                 (fun s => X r * (U s t * D s * U s r))%num) by (intros; ring).
      rewrite sum_mul. ring. }
  rewrite (sum_ext 0 T _ (fun s => U s t * G s)%num).
  - rewrite (sum_split 0 t) by lia. rewrite (sum_cons t), U_diag, (forward t) by lia.
    rewrite (sum_zero (t + 1) T) by (intros k Hk; rewrite U_low by lia; ring).
    set (f := fun s => (u s (t - s) * G s)%num).
    assert (E : sum 1 (Z.min w (t + 1)) (fun i => u (t - i) i * G (t - i))%num
                = sum 0 t (fun s => U s t * G s)%num).
    { transitivity (sum 1 (Z.min w (t + 1)) (fun j => f (t - j))).
      - apply sum_ext. intros j Hj. unfold f. by replace (t - (t - j)) with j by lia.
      - rewrite (sum_band t w f) by lia. apply sum_ext. intros s Hs. unfold f.
        case Z.ltb_spec; intros Hb; [by rewrite U_band by lia|]. rewrite U_far by lia. ring. }
    rewrite E. ring.
  - intros s Hs. rewrite upper_solution by done. field. by apply pivots.
Qed.
End Band.
End Sums.
