(* ===== verification/Matrix.v ===== *)
(** * Arrays of rows

    Matrices as the code has them (pointers to rows): accesses, dimensions, and
    the loop rules for code that keeps the size of an array. *)

From S2P Require Import Prelude.
#[local] Open Scope Z_scope.

Definition rd2 {A} (m : list (list A)) (i j : Z) : Res A := row ← rd m i; rd row j.
Definition upd2 {A} (m : list (list A)) (i j : Z) (f : A -> Res A) : Res (list (list A)) :=
  upd m i (fun row => upd row j f).
Definition wr2 {A} (m : list (list A)) (i j : Z) (x : A) : Res (list (list A)) :=
  upd2 m i j (fun _ => Ok x).

(** at least [n] rows of at least [w] entries *)
Definition dims {A} (n w : Z) (a : list (list A)) : Prop :=
  n <= zlen a /\ forall i row, 0 <= i < n -> a !! Z.to_nat i = Some row -> w <= zlen row.

(** the row lengths of a matrix *)
Definition shape {A} (a : list (list A)) : list nat := List.length <$> a.

Lemma shape_insert {A} (a : list (list A)) (i : nat) row row' :
  a !! i = Some row -> zlen row' = zlen row -> shape (<[i := row']> a) = shape a.
Proof.
  intros E L. unfold shape. rewrite list_fmap_insert. apply list_insert_id.
  rewrite list_lookup_fmap, E. cbn. f_equal. unfold zlen in L. lia.
Qed.

Lemma dims_shape {A} n w (a a' : list (list A)) : shape a' = shape a -> dims n w a -> dims n w a'.
Proof.
  intros S [L R]. pose proof (f_equal List.length S) as E. unfold shape in E.
  rewrite !length_fmap in E. split; [unfold zlen in *; lia|]. intros i row Hi Er.
  pose proof (f_equal (fun l => l !! Z.to_nat i) S) as Ei. unfold shape in Ei.
  rewrite !list_lookup_fmap, Er in Ei. destruct (a !! Z.to_nat i) as [row0|] eqn:E0; [|done].
  injection Ei as Ei. pose proof (R _ _ Hi E0). unfold zlen in *. lia.
Qed.

Lemma dims_le {A} n w n' w' (a : list (list A)) :
  dims n w a -> n' <= n -> w' <= w -> dims n' w' a.
Proof.
  intros [L R] Hn Hw. split; [lia|]. intros i row Hi E. pose proof (R i row ltac:(lia) E). lia.
Qed.

Lemma yields_row {A} n w (a : list (list A)) i :
  dims n w a -> 0 <= i < n -> yields (rd a i) (fun row => a !! Z.to_nat i = Some row /\ w <= zlen row).
Proof.
  intros [L R] Hi. eapply yields_mono; [apply yields_rd; lia|]. intros row E. split; [done|].
  by eapply R.
Qed.

Lemma yields_rd2 {A} n w (a : list (list A)) i j :
  dims n w a -> 0 <= i < n -> 0 <= j < w -> yields (rd2 a i j) (fun _ => True).
Proof.
  intros D Hi Hj. unfold rd2. eapply yields_bind; [by eapply yields_row|]. intros row [_ L].
  eapply yields_mono; [apply yields_rd; lia|done].
Qed.

Lemma yields_upd {A} (l : list A) i f (P : A -> Prop) :
  0 <= i < zlen l -> (forall x, l !! Z.to_nat i = Some x -> yields (f x) P) ->
  yields (upd l i f) (fun l' => exists x, P x /\ l' = <[Z.to_nat i := x]> l).
Proof.
  intros Hi Hf. unfold upd. destruct (yields_rd l i Hi) as (x & -> & Ex). rewrite bind_Ok.
  eapply yields_bind; [by apply Hf|]. intros y Hy. rewrite wr_ok by done. apply yields_ok. eauto.
Qed.

Lemma upd_len {A} (l : list A) i f :
  0 <= i < zlen l -> (forall x, yields (f x) (fun _ => True)) ->
  yields (upd l i f) (fun l' => zlen l' = zlen l).
Proof.
  intros Hi Hf. eapply yields_mono; [by apply yields_upd; [|intros; apply Hf]|].
  intros l' (x & _ & ->). by rewrite zlen_insert.
Qed.

Lemma upd2_shape {A} n w (a : list (list A)) i j f :
  dims n w a -> 0 <= i < n -> 0 <= j < w -> (forall x, yields (f x) (fun _ => True)) ->
  yields (upd2 a i j f) (fun a' => shape a' = shape a).
Proof.
  intros D Hi Hj Hf. unfold upd2. eapply yields_mono.
  { apply (yields_upd _ _ _ (fun row' => exists row, a !! Z.to_nat i = Some row /\ zlen row' = zlen row)).
    - destruct D. lia.
    - intros row Er. eapply yields_mono; [apply upd_len; [|done]|].
      + destruct D as [_ R]. pose proof (R i row Hi Er). lia.
      + intros row' L. by exists row. }
  intros a' (row' & (row & Er & L) & ->). by eapply shape_insert.
Qed.

Lemma wr2_shape {A} n w (a : list (list A)) i j x :
  dims n w a -> 0 <= i < n -> 0 <= j < w ->
  yields (wr2 a i j x) (fun a' => shape a' = shape a).
Proof. intros. eapply upd2_shape; try done. intros. by apply yields_ok. Qed.

(** entries of an array that is shaped like one with the right dimensions *)
Lemma yields_rd2_shape {A} n w (a a' : list (list A)) i j :
  dims n w a -> shape a' = shape a -> 0 <= i < n -> 0 <= j < w ->
  yields (rd2 a' i j) (fun _ => True).
Proof. intros. eapply yields_rd2; [by eapply dims_shape|done|done]. Qed.

Lemma upd2_shape' {A} n w (a a' : list (list A)) i j f :
  dims n w a -> shape a' = shape a -> 0 <= i < n -> 0 <= j < w ->
  (forall x, yields (f x) (fun _ => True)) ->
  yields (upd2 a' i j f) (fun a2 => shape a2 = shape a').
Proof. intros. eapply upd2_shape; [by eapply dims_shape|done..]. Qed.

(** ** Loops *)

(** loops on one array keep its size *)
Lemma shape_loop {A} lo hi (body : Z -> list (list A) -> Res (list (list A))) a :
  lo <= hi -> (forall i a', lo <= i < hi -> shape a' = shape a ->
    yields (body i a') (fun a2 => shape a2 = shape a')) ->
  yields (for_up lo hi body a) (fun a' => shape a' = shape a).
Proof.
  intros Hl Hb. apply (for_up_yields (fun _ a' => shape a' = shape a)); [done|done|].
  intros i a' Hi S. eapply yields_mono; [by apply Hb|]. cbn. intros. congruence.
Qed.

Lemma len_loop {A} lo hi (body : Z -> list A -> Res (list A)) l :
  lo <= hi -> (forall i l', lo <= i < hi -> zlen l' = zlen l ->
    yields (body i l') (fun l2 => zlen l2 = zlen l')) ->
  yields (for_up lo hi body l) (fun l' => zlen l' = zlen l).
Proof.
  intros Hl Hb. apply (for_up_yields (fun _ l' => zlen l' = zlen l)); [done|done|].
  intros i a' Hi S. eapply yields_mono; [by apply Hb|]. cbn. intros. congruence.
Qed.

(** a loop whose state is a number *)
Lemma any_loop {S} lo hi (body : Z -> S -> Res S) s :
  lo <= hi -> (forall i s, lo <= i < hi -> yields (body i s) (fun _ => True)) ->
  yields (for_up lo hi body s) (fun _ => True).
Proof. intros Hl Hb. apply (for_up_yields (fun _ _ => True)); auto. Qed.

(** a change of a whole row *)
Lemma upd_shape {A} n w (a : list (list A)) i f :
  dims n w a -> 0 <= i < n ->
  (forall row, w <= zlen row -> yields (f row) (fun row' => zlen row' = zlen row)) ->
  yields (upd a i f) (fun a' => shape a' = shape a).
Proof.
  intros D Hi Hf. destruct (yields_row _ _ _ _ D Hi) as (row & E & Ex & L).
  destruct (Hf row L) as (row' & Ef & L'). unfold upd. rewrite E, bind_Ok, Ef, bind_Ok.
  destruct D as [La _]. rewrite wr_ok by lia. apply yields_ok. by eapply shape_insert.
Qed.

(** ** Entries *)

Definition cell {A} (a : list (list A)) (i j : Z) : option A :=
  row ← a !! Z.to_nat i; row !! Z.to_nat j.

(** [a'] is [a] with [y] at (i, j) *)
Definition cell_put {A} (a : list (list A)) (i j : Z) (y : A) (a' : list (list A)) : Prop :=
  shape a' = shape a /\ forall i' j', 0 <= i' -> 0 <= j' ->
    cell a' i' j' = if bool_decide (i' = i /\ j' = j) then Some y else cell a i' j'.

Lemma rd2_cell {A} n w (a : list (list A)) i j :
  dims n w a -> 0 <= i < n -> 0 <= j < w -> yields (rd2 a i j) (fun x => cell a i j = Some x).
Proof.
  intros D Hi Hj. unfold rd2, cell. eapply yields_bind; [by eapply yields_row|].
  intros row [-> L]. eapply yields_mono; [apply yields_rd; lia|done].
Qed.

Lemma lookup_insert_Z {A} (l : list A) i i' x :
  0 <= i < zlen l -> 0 <= i' ->
  <[Z.to_nat i := x]> l !! Z.to_nat i' = if bool_decide (i' = i) then Some x else l !! Z.to_nat i'.
Proof.
  intros Hi Hi'. case_bool_decide as E.
  - subst i'. apply list_lookup_insert_eq. unfold zlen in Hi. lia.
  - apply list_lookup_insert_ne. lia.
Qed.

Lemma wr2_cell {A} n w (a : list (list A)) i j y :
  dims n w a -> 0 <= i < n -> 0 <= j < w -> yields (wr2 a i j y) (cell_put a i j y).
Proof.
  intros D Hi Hj. destruct (yields_row _ _ _ _ D Hi) as (row & E & Ex & L).
  destruct (yields_rd row j) as (x & Ey & _); [lia|].
  unfold wr2, upd2, upd. rewrite E, bind_Ok, Ey, !bind_Ok, wr_ok, bind_Ok by lia.
  destruct D as [La _]. rewrite wr_ok by lia. apply yields_ok. split.
  - eapply shape_insert; [exact Ex|]. by rewrite zlen_insert.
  - intros i' j' Hi' Hj'. unfold cell. rewrite lookup_insert_Z by lia.
    destruct (decide (i' = i)) as [->|Hne].
    + rewrite bool_decide_eq_true_2 by done. cbn. rewrite lookup_insert_Z, Ex by lia.
      cbn. destruct (decide (j' = j)) as [->|].
      * by rewrite !bool_decide_eq_true_2 by done.
      * by rewrite !bool_decide_eq_false_2 by tauto.
    + by rewrite !bool_decide_eq_false_2 by tauto.
Qed.

(** ** Arrays of matrices *)

Definition cell3 {A} (a : list (list (list A))) (k i j : Z) : option A :=
  m ← a !! Z.to_nat k; cell m i j.

(** [n] matrices of at least [r] rows of at least [w] entries *)
Definition sized3 {A} (n r w : Z) (a : list (list (list A))) : Prop :=
  zlen a = n /\ Forall (dims r w) a.

Definition cell3_put {A} (a : list (list (list A))) (k i j : Z) (y : A)
    (a' : list (list (list A))) : Prop :=
  forall k' i' j', 0 <= k' -> 0 <= i' -> 0 <= j' ->
    cell3 a' k' i' j' = if bool_decide (k' = k /\ i' = i /\ j' = j) then Some y else cell3 a k' i' j'.

Lemma sized3_row {A} n r w (a : list (list (list A))) k :
  sized3 n r w a -> 0 <= k < n ->
  yields (rd a k) (fun m => a !! Z.to_nat k = Some m /\ dims r w m).
Proof.
  intros [L D] Hk. eapply yields_mono; [apply yields_rd; lia|]. intros m E. split; [done|].
  rewrite Forall_lookup in D. exact (D _ _ E).
Qed.

Lemma sized3_insert {A} n r w (a : list (list (list A))) (k : nat) m :
  sized3 n r w a -> dims r w m -> sized3 n r w (<[k := m]> a).
Proof. intros [L D] Hm. split; [by rewrite zlen_insert|]. by apply Forall_insert. Qed.

Lemma upd_wr2_cell3 {A} n r w (a : list (list (list A))) k i j y :
  sized3 n r w a -> 0 <= k < n -> 0 <= i < r -> 0 <= j < w ->
  yields (upd a k (fun m => wr2 m i j y)) (fun a' => sized3 n r w a' /\ cell3_put a k i j y a').
Proof.
  intros S Hk Hi Hj. destruct (sized3_row _ _ _ _ _ S Hk) as (m & E & Em & D).
  destruct (wr2_cell _ _ _ _ _ y D Hi Hj) as (m' & Ew & Sm & C).
  unfold upd. rewrite E, bind_Ok, Ew, bind_Ok. pose proof S as [L _]. rewrite wr_ok by lia.
  apply yields_ok. split; [apply sized3_insert; [done|by eapply dims_shape]|].
  intros k' i' j' Hk' Hi' Hj'. unfold cell3. rewrite lookup_insert_Z by lia.
  destruct (decide (k' = k)) as [->|Hne].
  - rewrite bool_decide_eq_true_2 by done. cbn. rewrite C, Em by done. cbn.
    case_bool_decide as B; [by rewrite bool_decide_eq_true_2 by tauto|].
    by rewrite bool_decide_eq_false_2 by tauto.
  - by rewrite !bool_decide_eq_false_2 by tauto.
Qed.

(** entries that satisfy a property *)
Lemma upd_after {A} (P : A -> Prop) (l : list A) i f :
  Forall P l -> (forall x, P x -> after (f x) P) -> after (upd l i f) (Forall P).
Proof.
  intros Hl Hf l' E. unfold upd in E. apply bind_inv_Ok in E as (x & Ex & E).
  apply rd_inv in Ex as [_ Ex]. apply bind_inv_Ok in E as (y & Ey & E).
  apply wr_inv in E as [_ ->]. apply Forall_insert; [done|].
  eapply Hf; [|exact Ey]. by eapply Forall_lookup_1.
Qed.

Lemma wr2_after {A} (P : A -> Prop) (a : list (list A)) i j x :
  Forall (Forall P) a -> P x -> after (wr2 a i j x) (Forall (Forall P)).
Proof.
  intros Ha Hx. apply upd_after; [done|]. intros row Hr. apply upd_after; [done|].
  intros _ _. by apply after_ok.
Qed.
