(* ===== verification/Mlpg.v ===== *)
(** * Parameter generation (mage/src/hts.cpp, 827-1059)

    HTS_PStream_mlpg turns the distributions of a sequence of frames into the
    most likely trajectory: it sets up the banded normal equations, factorizes
    them (LDL'), and solves them by substitution; then, for streams with a
    global variance, it makes five gradient steps. *)

From Stdlib Require Import Field Qcanon.
From S2P Require Import Prelude Num Constants Sums Matrix.
#[local] Open Scope Z_scope.

Module Mlpg.

(** ** State *)

(** [HTS_PStream], its [sm] included; the memory it points to is larger than
    the part in use *)
Record t (F : Type) := mk {
  static_length : Z;
  length : Z;
  width : Z;
  par : list (list F);
  mean : list (list F);
  ivar : list (list F);
  g : list F;
  wuw : list (list F);
  wum : list F;
  win_size : Z;
  win_l_width : list Z;
  win_r_width : list Z;
  win_coefficient : Z -> Z -> F;
  gv_mean : list F;
  gv_vari : list F;
  gv_switch : list bool;
  gv_length : Z
}.
Arguments mk {F}. Arguments static_length {F}. Arguments length {F}. Arguments width {F}.
Arguments par {F}. Arguments mean {F}. Arguments ivar {F}. Arguments g {F}.
Arguments wuw {F}. Arguments wum {F}. Arguments win_size {F}. Arguments win_l_width {F}.
Arguments win_r_width {F}. Arguments win_coefficient {F}. Arguments gv_mean {F}.
Arguments gv_vari {F}. Arguments gv_switch {F}. Arguments gv_length {F}.
#[global] Instance eta_pstream F : Settable (t F) := fun p =>
  mk (static_length p) (length p) (width p) (par p) (mean p) (ivar p) (g p) (wuw p) (wum p)
     (win_size p) (win_l_width p) (win_r_width p) (win_coefficient p) (gv_mean p)
     (gv_vari p) (gv_switch p) (gv_length p).

Section Mlpg.
Context {F : Type} `{NumOps F}.
#[local] Open Scope num_scope.
#[local] Open Scope Z_scope.

(** the macros of HTS_hidden.h *)
Definition INFTY : F := ndec 1 38.
Definition INFTY2 : F := ndec 1 19.
Definition INVINF2 : F := ndec 1 (-19).
Definition STEPINIT : F := ndec 1 (-1).
Definition STEPDEC : F := ndec 5 (-1).
Definition STEPINC : F := ndec 12 (-1).
Definition W1 : F := nZ 1.
Definition W2 : F := nZ 1.
Definition GV_MAX_ITERATION : Z := 5.
Definition LZERO : F := ndec (-1) 10.

Definition HTS_finv (x : F) : F :=
  if (INFTY2 <=? x)%num then nZ 0
  else if (x <=? - INFTY2)%num then nZ 0
  else if ((x <=? INVINF2) && (nZ 0 <=? x))%num then INFTY
  else if ((- INVINF2 <=? x) && (x <? nZ 0))%num then (- INFTY)%num
  else (nZ 1 / x)%num.

(** [pst->win_coefficient[i][j]]: the array of window [i] is indexed from its
    left width to its right width *)
Definition coefficient (p : t F) (i j : Z) : Res F :=
  l ← rd (win_l_width p) i;
  r ← rd (win_r_width p) i;
  check ((l <=? j) && (j <=? r)) OutOfBounds ;;
  Ok (win_coefficient p i j).

(** ** The normal equations *)

Definition calc_entry (m ti i j : Z) (p : t F) : Res (t F) :=
  if (0 <=? ti + j) && (ti + j <? length p) then
    c ← coefficient p i (- j);
    if negb (c =? nZ 0)%num then
      iv ← rd2 (ivar p) (ti + j) (i * static_length p + m);
      mu ← rd2 (mean p) (ti + j) (i * static_length p + m);
      let wu := (c * iv)%num in
      b ← upd (wum p) ti (fun x => Ok (x + wu * mu)%num);
      a ← for_up 0 (Z.min (width p) (length p - ti)) (fun k a =>
        r ← rd (win_r_width p) i;
        if k - j <=? r then
          e ← coefficient p i (k - j);
          if negb (e =? nZ 0)%num then upd2 a ti k (fun x => Ok (x + wu * e)%num) else Ok a
        else Ok a) (wuw p);
      Ok (p <| wum := b |> <| wuw := a |>)
    else Ok p
  else Ok p.

Definition HTS_PStream_calc_wuw_and_wum (p : t F) (m : Z) : Res (t F) :=
  for_up 0 (length p) (fun ti p =>
    b ← wr (wum p) ti (nZ 0);
    a ← for_up 0 (width p) (fun i a => wr2 a ti i (nZ 0)) (wuw p);
    for_up 0 (win_size p) (fun i p =>
      l ← rd (win_l_width p) i;
      r ← rd (win_r_width p) i;
      for_up l (r + 1) (fun j p => calc_entry m ti i j p) p)
      (p <| wum := b |> <| wuw := a |>)) p.

(** ** Factorization and substitutions; a conjunction of two bounds on the loop
    variable is the smaller of the bounds *)

Definition ldl_pivot (w ti : Z) (a : list (list F)) : Res (list (list F)) :=
  for_up 1 (Z.min w (ti + 1)) (fun i a =>
    upd2 a ti 0 (fun x =>
      u ← rd2 a (ti - i) i;
      d ← rd2 a (ti - i) 0;
      Ok (x - u * u * d)%num)) a.

Definition ldl_entry (w ti i : Z) (a : list (list F)) : Res (list (list F)) :=
  a ← for_up 1 (Z.min (w - i) (ti + 1)) (fun j a =>
    upd2 a ti i (fun x =>
      u ← rd2 a (ti - j) j;
      v ← rd2 a (ti - j) (i + j);
      d ← rd2 a (ti - j) 0;
      Ok (x - u * v * d)%num)) a;
  d ← rd2 a ti 0;
  upd2 a ti i (fun x => Ok (x / d)%num).

Definition ldl_row (w ti : Z) (a : list (list F)) : Res (list (list F)) :=
  a ← ldl_pivot w ti a;
  for_up 1 w (ldl_entry w ti) a.

Definition HTS_PStream_ldl_factorization (p : t F) : Res (t F) :=
  a ← for_up 0 (length p) (ldl_row (width p)) (wuw p);
  Ok (p <| wuw := a |>).

Definition forward_row (w ti : Z) (a : list (list F)) (b gg : list F) : Res (list F) :=
  x ← rd b ti;
  gg ← wr gg ti x;
  for_up 1 (Z.min w (ti + 1)) (fun i gg =>
    upd gg ti (fun x =>
      u ← rd2 a (ti - i) i; y ← rd gg (ti - i); Ok (x - u * y)%num)) gg.

Definition HTS_PStream_forward_substitution (p : t F) : Res (t F) :=
  gg ← for_up 0 (length p) (fun ti => forward_row (width p) ti (wuw p) (wum p)) (g p);
  Ok (p <| g := gg |>).

Definition backward_row (w len m ti : Z) (a : list (list F)) (gg : list F)
    (x : list (list F)) : Res (list (list F)) :=
  y ← rd gg ti;
  d ← rd2 a ti 0;
  x ← wr2 x ti m (y / d)%num;
  for_up 1 (Z.min w (len - ti)) (fun i x =>
    upd2 x ti m (fun v =>
      u ← rd2 a ti i; z ← rd2 x (ti + i) m; Ok (v - u * z)%num)) x.

Definition HTS_PStream_backward_substitution (p : t F) (m : Z) : Res (t F) :=
  x ← for_down (length p - 1) 0
        (fun ti => backward_row (width p) (length p) m ti (wuw p) (g p)) (par p);
  Ok (p <| par := x |>).

(** the solution of the equations in [wuw] and [wum] *)
Definition solve (p : t F) (m : Z) : Res (t F) :=
  p ← HTS_PStream_ldl_factorization p;
  p ← HTS_PStream_forward_substitution p;
  HTS_PStream_backward_substitution p m.

(** ** Global variance *)

Definition HTS_PStream_calc_gv (p : t F) (m : Z) : Res (F * F) :=
  let over (f : F -> F) :=
    for_up 0 (length p) (fun ti acc =>
      s ← rd (gv_switch p) ti;
      if s : bool then x ← rd2 (par p) ti m; Ok (acc + f x)%num else Ok acc) (nZ 0) in
  s ← over (fun x => x);
  let mu := (s / nZ (gv_length p))%num in
  v ← over (fun x => (x - mu) * (x - mu))%num;
  Ok (mu, (v / nZ (gv_length p))%num).

Definition HTS_PStream_conv_gv (p : t F) (m : Z) : Res (t F) :=
  '(mu, va) ← HTS_PStream_calc_gv p m;
  gm ← rd (gv_mean p) m;
  let ratio := nsqrt (gm / va)%num in
  x ← for_up 0 (length p) (fun ti x =>
    s ← rd (gv_switch p) ti;
    if s : bool then upd2 x ti m (fun v => Ok (ratio * (v - mu) + mu)%num) else Ok x) (par p);
  Ok (p <| par := x |>).

(** [g = W'U^{-1}W x], by the band *)
Definition apply_band (p : t F) (m : Z) : Res (list F) :=
  for_up 0 (length p) (fun ti gg =>
    a0 ← rd2 (wuw p) ti 0;
    x0 ← rd2 (par p) ti m;
    gg ← wr gg ti (a0 * x0)%num;
    for_up 1 (width p) (fun i gg =>
      gg ← (if ti + i <? length p then
              a ← rd2 (wuw p) ti i; x ← rd2 (par p) (ti + i) m;
              upd gg ti (fun y => Ok (y + a * x)%num)
            else Ok gg);
      if i <? ti + 1 then
        a ← rd2 (wuw p) (ti - i) i; x ← rd2 (par p) (ti - i) m;
        upd gg ti (fun y => Ok (y + a * x)%num)
      else Ok gg) gg) (g p).

Definition HTS_PStream_calc_derivative (p : t F) (m : Z) : Res (F * t F) :=
  n ← i32 (win_size p * length p);
  let w := (nZ 1 / nZ n)%num in
  '(mu, va) ← HTS_PStream_calc_gv p m;
  gm ← rd (gv_mean p) m;
  gvv ← rd (gv_vari p) m;
  let gvobj := (ndec (-5) (-1) * W2 * va * gvv * (va - nZ 2 * gm))%num in
  let dv := (nZ (-2) * gvv * (va - gm) / nZ (length p))%num in
  gg ← apply_band p m;
  ll ← i32 (length p * length p);
  '(hmmobj, gg) ← for_up 0 (length p) (fun ti '(hmmobj, gg) =>
    x ← rd2 (par p) ti m;
    b ← rd (wum p) ti;
    y ← rd gg ti;
    a0 ← rd2 (wuw p) ti 0;
    let hmmobj := (hmmobj + W1 * w * x * (b - ndec 5 (-1) * y))%num in
    let h := (- W1 * w * a0 - W2 * nZ 2 / nZ ll *
      (nZ (length p - 1) * gvv * (va - gm) + nZ 2 * gvv * (x - mu) * (x - mu)))%num in
    s ← rd (gv_switch p) ti;
    gg ← wr gg ti
      (if s : bool then (nZ 1 / h * (W1 * w * (- y + b) + W2 * dv * (x - mu)))%num
       else (nZ 1 / h * (W1 * w * (- y + b)))%num);
    Ok (hmmobj, gg)) (nZ 0, gg);
  Ok ((- (hmmobj + gvobj))%num, p <| g := gg |>).

Definition gv_step (m : Z) (st : t F * F * F) : Res (t F * F * F) :=
  let '(p, step, prev) := st in
  '(obj, p) ← HTS_PStream_calc_derivative p m;
  let step := if (prev <? obj)%num then (step * STEPDEC)%num else step in
  let step := if (obj <? prev)%num then (step * STEPINC)%num else step in
  x ← for_up 0 (length p) (fun ti x =>
    upd2 x ti m (fun v => y ← rd (g p) ti; Ok (v + step * y)%num)) (par p);
  Ok (p <| par := x |>, step, obj).

Definition HTS_PStream_gv_parmgen (p : t F) (m : Z) : Res (t F) :=
  if gv_length p =? 0 then Ok p
  else
    p ← HTS_PStream_conv_gv p m;
    p ← HTS_PStream_calc_wuw_and_wum p m;
    '(p, _, _) ← for_up 1 (GV_MAX_ITERATION + 1) (fun _ => gv_step m) (p, STEPINIT, (- LZERO)%num);
    Ok p.

Definition HTS_PStream_mlpg (p : t F) : Res (t F) :=
  if length p =? 0 then Ok p
  else
    for_up 0 (static_length p) (fun m p =>
      p ← HTS_PStream_calc_wuw_and_wum p m;
      p ← solve p m;
      if 0 <? gv_length p then HTS_PStream_gv_parmgen p m else Ok p) p.

(** ** Entries *)

Definition vent (l : list F) (i : Z) : F := default (nZ 0) (l !! Z.to_nat i).
Definition ent (a : list (list F)) (i j : Z) : F :=
  default (nZ 0) (row ← a !! Z.to_nat i; row !! Z.to_nat j).

(** [a'] is [a] with [v] at (i, j) *)
Definition put (n w : Z) (a : list (list F)) (i j : Z) (v : F) (a' : list (list F)) : Prop :=
  dims n w a' /\ forall i' j', 0 <= i' -> 0 <= j' ->
    ent a' i' j' = if bool_decide (i' = i /\ j' = j) then v else ent a i' j'.

Definition vput (n : Z) (l : list F) (i : Z) (v : F) (l' : list F) : Prop :=
  n <= zlen l' /\ forall i', 0 <= i' ->
    vent l' i' = if bool_decide (i' = i) then v else vent l i'.

Lemma rd_vent l i : 0 <= i < zlen l -> rd l i = Ok (vent l i).
Proof.
  intros Hi. destruct (yields_rd l i Hi) as (x & E & Ex). rewrite E. unfold vent. by rewrite Ex.
Qed.

Lemma row_of n w a i :
  dims n w a -> 0 <= i < n -> exists row, a !! Z.to_nat i = Some row /\ rd a i = Ok row /\
    w <= zlen row /\ forall j, ent a i j = vent row j.
Proof.
  intros [L R] Hi. destruct (yields_rd a i) as (row & E & Ex); [lia|].
  exists row. split; [done|]. split; [done|]. split; [by eapply R|].
  intros j. unfold ent, vent. by rewrite Ex.
Qed.

Lemma rd2_ent n w a i j :
  dims n w a -> 0 <= i < n -> 0 <= j < w -> rd2 a i j = Ok (ent a i j).
Proof.
  intros Hd Hi Hj. destruct (row_of _ _ _ _ Hd Hi) as (row & _ & E & L & Ee).
  unfold rd2. rewrite E, bind_Ok, Ee. apply rd_vent. lia.
Qed.

Lemma vent_insert l i v i' :
  0 <= i < zlen l -> 0 <= i' ->
  vent (<[Z.to_nat i := v]> l) i' = if bool_decide (i' = i) then v else vent l i'.
Proof.
  intros Hi Hi'. unfold vent. case_bool_decide as E.
  - subst i'. by rewrite list_lookup_insert_eq by (unfold zlen in Hi; lia).
  - by rewrite list_lookup_insert_ne by lia.
Qed.

Lemma upd_vput n l i f y :
  n <= zlen l -> 0 <= i < n -> f (vent l i) = Ok y -> yields (upd l i f) (vput n l i y).
Proof.
  intros L Hi Hf. unfold upd. rewrite rd_vent, bind_Ok, Hf, bind_Ok, wr_ok by lia.
  apply yields_ok. split; [by rewrite zlen_insert|]. intros. apply vent_insert; lia.
Qed.

Lemma upd2_put n w a i j f y :
  dims n w a -> 0 <= i < n -> 0 <= j < w -> f (ent a i j) = Ok y ->
  yields (upd2 a i j f) (put n w a i j y).
Proof.
  intros Hd Hi Hj Hf. destruct (row_of _ _ _ _ Hd Hi) as (row & Ex & E & L & Ee).
  pose proof Hd as [La R]. unfold upd2. unfold upd at 1. rewrite E, bind_Ok.
  rewrite Ee in Hf. destruct (upd_vput w row j f y L Hj Hf) as (row' & Er & L' & V).
  rewrite Er, bind_Ok, wr_ok by lia. apply yields_ok.
  assert (Hin : forall i', 0 <= i' -> (<[Z.to_nat i := row']> a) !! Z.to_nat i'
    = if bool_decide (i' = i) then Some row' else a !! Z.to_nat i').
  { intros i' Hi'. case_bool_decide as Ei.
    - subst i'. by rewrite list_lookup_insert_eq by (unfold zlen in La; lia).
    - by rewrite list_lookup_insert_ne by lia. }
  split.
  - split; [by rewrite zlen_insert|]. intros i' r Hi' Er'. rewrite Hin in Er' by lia.
    case_bool_decide; [by injection Er' as <-|]. by eapply R.
  - intros i' j' Hi' Hj'. unfold ent at 1. rewrite Hin by done.
    destruct (decide (i' = i)) as [->|Hne].
    + rewrite bool_decide_eq_true_2 by done. cbn. fold (vent row' j'). rewrite V by done.
      destruct (decide (j' = j)) as [->|]; [by rewrite !bool_decide_eq_true_2 by done|].
      rewrite !bool_decide_eq_false_2 by tauto. by rewrite Ee.
    + rewrite !bool_decide_eq_false_2 by tauto. done.
Qed.

Lemma put_at n w a i j v a' : put n w a i j v a' -> 0 <= i -> 0 <= j -> ent a' i j = v.
Proof. intros [_ E] Hi Hj. by rewrite E, bool_decide_eq_true_2 by done. Qed.

Lemma put_other n w a i j v a' i' j' :
  put n w a i j v a' -> 0 <= i' -> 0 <= j' -> ~ (i' = i /\ j' = j) -> ent a' i' j' = ent a i' j'.
Proof. intros [_ E] Hi Hj Hn. by rewrite E, bool_decide_eq_false_2 by done. Qed.

Lemma put_trans n w a a1 a2 i j v1 v2 :
  put n w a i j v1 a1 -> put n w a1 i j v2 a2 -> put n w a i j v2 a2.
Proof.
  intros [_ E1] [D2 E2]. split; [done|]. intros i' j' Hi' Hj'. rewrite E2 by done.
  case_bool_decide as C; [done|]. by rewrite E1, bool_decide_eq_false_2 by done.
Qed.

Lemma put_refl n w a i j : dims n w a -> 0 <= i -> 0 <= j -> put n w a i j (ent a i j) a.
Proof.
  intros D Hi Hj. split; [done|]. intros i' j' _ _. by case_bool_decide as C; [destruct C; subst|].
Qed.

Lemma vput_trans n l l1 l2 i v1 v2 :
  vput n l i v1 l1 -> vput n l1 i v2 l2 -> vput n l i v2 l2.
Proof.
  intros [_ E1] [D2 E2]. split; [done|]. intros i' Hi'. rewrite E2 by done.
  case_bool_decide as C; [done|]. by rewrite E1, bool_decide_eq_false_2 by done.
Qed.

(** ** Memory safety, for any arithmetic *)

(** the memory a stream works on replaced *)
Definition with_memory (p : t F) (x : list (list F)) (gg : list F) (a : list (list F))
    (b : list F) : t F :=
  mk (static_length p) (length p) (width p) x (mean p) (ivar p) gg a b (win_size p)
    (win_l_width p) (win_r_width p) (win_coefficient p) (gv_mean p) (gv_vari p) (gv_switch p)
    (gv_length p).

(** [p'] is [p] with other numbers in its memory *)
Definition like (p p' : t F) : Prop :=
  exists x gg a b, p' = with_memory p x gg a b /\ shape x = shape (par p) /\
    zlen gg = zlen (g p) /\ shape a = shape (wuw p) /\ zlen b = zlen (wum p).

(** a stream that fits its memory, with windows that are symmetric *)
Record fit (p : t F) : Prop := {
  fit_length : 0 <= length p /\ length p * length p < 2 ^ 31 /\
    win_size p * length p < 2 ^ 31;
  fit_width : 1 <= width p;
  fit_sizes : 0 <= static_length p /\ 0 <= win_size p;
  fit_wuw : dims (length p) (width p) (wuw p);
  fit_wum : length p <= zlen (wum p);
  fit_g : length p <= zlen (g p);
  fit_par : dims (length p) (static_length p) (par p);
  fit_mean : dims (length p) (win_size p * static_length p) (mean p);
  fit_ivar : dims (length p) (win_size p * static_length p) (ivar p);
  fit_gv : static_length p <= zlen (gv_mean p) /\ static_length p <= zlen (gv_vari p) /\
    length p <= zlen (gv_switch p);
  fit_windows : zlen (win_l_width p) = win_size p /\ zlen (win_r_width p) = win_size p /\
    forall i l r, win_l_width p !! i = Some l -> win_r_width p !! i = Some r -> l = - r /\ 0 <= r
}.

Lemma like_refl p : like p p.
Proof. destruct p. by do 4 eexists. Qed.

Lemma like_trans p1 p2 p3 : like p1 p2 -> like p2 p3 -> like p1 p3.
Proof.
  intros (x1 & g1 & a1 & b1 & -> & X1 & G1 & A1 & B1) (x & gg & a & b & -> & X & G & A & B).
  cbn [par g wuw wum with_memory] in *. do 4 eexists. split; [reflexivity|].
  repeat split; by etransitivity.
Qed.

Lemma like_fit p p' : like p p' -> fit p -> fit p'.
Proof.
  intros (x & gg & a & b & -> & X & G & A & B) W. destruct W. split; cbn; try done; try lia;
    by eapply dims_shape.
Qed.

(** a step on a stream that fits leaves a stream like it *)
Lemma like_bind p (c : Res (t F)) (f : t F -> Res (t F)) :
  yields c (like p) -> (forall p', like p p' -> yields (f p') (like p')) ->
  yields (c ≫= f) (like p).
Proof.
  intros Hc Hf. eapply yields_bind; [exact Hc|]. intros p' L.
  eapply yields_mono; [by apply Hf|]. intros. by eapply like_trans.
Qed.

Lemma like_loop p lo hi (body : Z -> t F -> Res (t F)) :
  fit p -> lo <= hi ->
  (forall i p', lo <= i < hi -> like p p' -> fit p' -> yields (body i p') (like p')) ->
  yields (for_up lo hi body p) (like p).
Proof.
  intros W Hl Hb. apply (for_up_yields (fun _ => like p)); [done|apply like_refl|].
  intros i p' Hi L. eapply yields_mono; [apply Hb; [done|done|by eapply like_fit]|].
  intros. by eapply like_trans.
Qed.

Lemma like_memory p x gg a b :
  shape x = shape (par p) -> zlen gg = zlen (g p) -> shape a = shape (wuw p) ->
  zlen b = zlen (wum p) -> like p (with_memory p x gg a b).
Proof. intros. by do 4 eexists. Qed.

(** reads of a stream that fits *)
Lemma coefficient_in p i j l r :
  fit p -> 0 <= i < win_size p -> rd (win_l_width p) i = Ok l -> rd (win_r_width p) i = Ok r ->
  l <= j <= r -> yields (coefficient p i j) (fun _ => True).
Proof.
  intros W Hi El Er Hj. unfold coefficient. rewrite El, Er, !bind_Ok. unfold check.
  rewrite (proj2 (Z.leb_le l j)), (proj2 (Z.leb_le j r)) by lia. by apply yields_ok.
Qed.

Lemma calc_entry_like p m ti i j l r :
  fit p -> 0 <= m < static_length p -> 0 <= ti < length p -> 0 <= i < win_size p ->
  rd (win_l_width p) i = Ok l -> rd (win_r_width p) i = Ok r -> l = - r -> l <= j <= r ->
  yields (calc_entry m ti i j p) (like p).
Proof.
  intros W Hm Ht Hi El Er Hlr Hj. pose proof W as []. unfold calc_entry.
  destruct (Z.leb_spec 0 (ti + j)), (Z.ltb_spec (ti + j) (length p)); cbn [andb];
    try (apply yields_ok, like_refl).
  eapply yields_bind; [eapply coefficient_in; eauto; lia|]. intros c _.
  destruct (negb _); [|apply yields_ok, like_refl].
  assert (Hc : 0 <= i * static_length p + m < win_size p * static_length p) by nia.
  eapply yields_bind; [eapply yields_rd2; [exact fit_ivar0|lia|done]|]. intros iv _.
  eapply yields_bind; [eapply yields_rd2; [exact fit_mean0|lia|done]|]. intros mu _. cbn zeta.
  eapply yields_bind; [apply upd_len; [lia|intros; by apply yields_ok]|]. intros b Lb.
  eapply yields_bind.
  { apply shape_loop; [lia|]. intros k a Hk Sa. rewrite Er, bind_Ok.
    destruct (Z.leb_spec (k - j) r); [|by apply yields_ok].
    eapply yields_bind; [eapply coefficient_in; eauto; lia|]. intros e _.
    destruct (negb _); [|by apply yields_ok].
    eapply upd2_shape; [by eapply dims_shape|done|lia|]. intros. by apply yields_ok. }
  intros a Sa. apply yields_ok. exact (like_memory p (par p) (g p) a b eq_refl eq_refl Sa Lb).
Qed.

Lemma calc_wuw_and_wum_like p m :
  fit p -> 0 <= m < static_length p -> yields (HTS_PStream_calc_wuw_and_wum p m) (like p).
Proof.
  intros W Hm. unfold HTS_PStream_calc_wuw_and_wum.
  apply like_loop; [done|apply W|]. intros ti p1 Ht (x1 & g1 & a1 & b1 & E1 & _) W1.
  assert (Hm1 : 0 <= m < static_length p1) by by rewrite E1.
  assert (Ht1 : 0 <= ti < length p1) by by rewrite E1. clear E1 x1 g1 a1 b1.
  pose proof W1 as []. rewrite wr_ok, bind_Ok by lia.
  eapply yields_bind.
  { apply shape_loop; [lia|]. intros i a Hi Sa. eapply wr2_shape; [by eapply dims_shape|done|done]. }
  intros a Sa. set (p2 := p1 <| wum := _ |> <| wuw := _ |>).
  assert (L2 : like p1 p2).
  { exact (like_memory p1 (par p1) (g p1) a _ eq_refl eq_refl Sa (zlen_insert _ _ _)). }
  pose proof (like_fit _ _ L2 W1) as W2.
  eapply yields_mono; [|intros p'; by apply like_trans].
  apply like_loop; [done|apply W1|]. intros i p3 Hi L3 W3.
  assert (Hin : forall q, like p2 q -> static_length q = static_length p1 /\ length q = length p1 /\
    win_l_width q = win_l_width p1 /\ win_r_width q = win_r_width p1 /\ win_size q = win_size p1).
  { intros q (x & gg & a' & b' & -> & _). done. }
  destruct (Hin _ L3) as (_ & _ & El3 & Er3 & _). rewrite El3, Er3.
  destruct fit_windows0 as (Nl & Nr & Hlr). change (win_size p2) with (win_size p1) in Hi.
  destruct (yields_rd (win_l_width p1) i) as (l & Rl & Xl); [lia|].
  destruct (yields_rd (win_r_width p1) i) as (r & Rr & Xr); [lia|]. rewrite Rl, Rr, !bind_Ok.
  destruct (Hlr _ _ _ Xl Xr) as [Hl Hr].
  apply like_loop; [done|lia|]. intros j p4 Hj L4 W4. pose proof (like_trans _ _ _ L3 L4) as L5.
  destruct (Hin _ L5) as (E1 & E2 & E3 & E4 & E5).
  eapply calc_entry_like; rewrite ?E1, ?E2, ?E3, ?E4, ?E5; eauto; lia.
Qed.

(** a chain of reads that ends in a value *)
Ltac reads := cbn beta;
  repeat (eapply yields_bind;
    [first [eapply yields_rd2_shape; [eassumption|first [eassumption|reflexivity]|lia|lia]
           |apply yields_rd; lia]|intros ? _]);
  by apply yields_ok.

Lemma ldl_like p : fit p -> yields (HTS_PStream_ldl_factorization p) (like p).
Proof.
  intros W. pose proof W as [[Hn _] Hw _ D _ _ _ _ _ _ _]. unfold HTS_PStream_ldl_factorization.
  eapply yields_bind.
  { apply shape_loop; [done|]. intros ti a Ht Sa. unfold ldl_row, ldl_pivot.
    pose proof (dims_shape _ _ _ _ Sa D) as Da. eapply yields_bind.
    { apply shape_loop; [lia|]. intros i a' Hi Sa'.
      eapply upd2_shape'; [exact Da|exact Sa'|lia|lia|]. intros x. reads. }
    intros a1 S1. cbn beta in S1. eapply yields_mono; [|intros a2 S2; etransitivity; [exact S2|exact S1]].
    apply shape_loop; [lia|]. intros i a2 Hi S2. unfold ldl_entry.
    pose proof (dims_shape _ _ _ _ (eq_trans S2 S1) Da) as D2. eapply yields_bind.
    { apply shape_loop; [lia|]. intros j a3 Hj S3.
      eapply upd2_shape'; [exact D2|exact S3|lia|lia|]. intros x. reads. }
    intros a3 S3. cbn beta in S3.
    eapply yields_bind; [by eapply yields_rd2_shape; [exact D2|exact S3|lia|lia]|]. intros d _.
    eapply yields_mono.
    - eapply upd2_shape'; [exact D2|exact S3|lia|lia|]. intros x. by apply yields_ok.
    - cbn. intros a4 S4. congruence. }
  intros a Sa. apply yields_ok. exact (like_memory p (par p) (g p) a (wum p) eq_refl eq_refl Sa eq_refl).
Qed.

Lemma forward_like p : fit p -> yields (HTS_PStream_forward_substitution p) (like p).
Proof.
  intros W. pose proof W as [[Hn _] Hw _ D Hb Hg _ _ _ _ _]. unfold HTS_PStream_forward_substitution.
  eapply yields_bind.
  { apply len_loop; [done|]. intros ti gg Ht L. unfold forward_row.
    eapply yields_bind; [apply yields_rd; lia|]. intros x _. rewrite wr_ok, bind_Ok by lia.
    eapply yields_mono; [apply len_loop; [lia|]|].
    - intros i g2 Hi L2. rewrite zlen_insert in L2. apply upd_len; [lia|]. intros y.
      eapply yields_bind; [eapply yields_rd2; [exact D|lia|lia]|]. intros u _.
      eapply yields_bind; [apply yields_rd; lia|]. intros v _. by apply yields_ok.
    - cbn. intros g2 L2. by rewrite zlen_insert in L2. }
  intros gg L. apply yields_ok.
  exact (like_memory p (par p) gg (wuw p) (wum p) eq_refl L eq_refl eq_refl).
Qed.

Lemma backward_like p m :
  fit p -> 0 <= m < static_length p -> yields (HTS_PStream_backward_substitution p m) (like p).
Proof.
  intros W Hm. pose proof W as [[Hn _] Hw _ D Hb Hg Dx _ _ _ _].
  unfold HTS_PStream_backward_substitution. eapply yields_bind.
  { apply (for_down_yields (fun _ x => shape x = shape (par p))); [lia|done|].
    intros ti x Ht Sx. unfold backward_row. eapply yields_bind; [apply yields_rd; lia|]. intros y _.
    eapply yields_bind; [eapply yields_rd2; [exact D|lia|lia]|]. intros d _.
    pose proof (dims_shape _ _ _ _ Sx Dx) as D1.
    eapply yields_bind; [eapply wr2_shape; [exact D1|lia|lia]|]. intros x1 S1. cbn beta in S1.
    eapply yields_mono; [apply shape_loop; [lia|]|].
    - intros i x2 Hi S2. eapply upd2_shape'; [exact D1|by rewrite S2|lia|lia|]. intros v.
      eapply yields_bind; [eapply yields_rd2; [exact D|lia|lia]|]. intros u _.
      eapply yields_bind; [eapply yields_rd2_shape; [exact D1|by rewrite S2|lia|lia]|].
      intros z _. by apply yields_ok.
    - cbn beta. intros x2 S2. congruence. }
  intros x Sx. apply yields_ok.
  exact (like_memory p x (g p) (wuw p) (wum p) Sx eq_refl eq_refl eq_refl).
Qed.

Lemma solve_like p m : fit p -> 0 <= m < static_length p -> yields (solve p m) (like p).
Proof.
  intros W Hm. unfold solve. apply like_bind; [by apply ldl_like|]. intros p1 L1.
  pose proof (like_fit _ _ L1 W) as W1. apply like_bind; [by apply forward_like|]. intros p2 L2.
  apply backward_like; [by eapply like_fit|].
  destruct L1 as (? & ? & ? & ? & -> & _), L2 as (? & ? & ? & ? & -> & _). done.
Qed.

(** *** Global variance *)

Lemma calc_gv_yields p m :
  fit p -> 0 <= m < static_length p -> yields (HTS_PStream_calc_gv p m) (fun _ => True).
Proof.
  intros W Hm. pose proof W as [[Hn _] _ _ _ _ _ Dx _ _ (_ & _ & Hs) _]. unfold HTS_PStream_calc_gv.
  assert (Over : forall f : F -> F, yields (for_up 0 (length p) (fun ti acc =>
      s ← rd (gv_switch p) ti;
      if s : bool then x ← rd2 (par p) ti m; Ok (acc + f x)%num else Ok acc) (nZ 0))
    (fun _ => True)).
  { intros f. apply any_loop; [done|]. intros ti acc Ht.
    eapply yields_bind; [apply yields_rd; lia|]. intros s _. destruct s; [|by apply yields_ok].
    eapply yields_bind; [eapply yields_rd2; [exact Dx|lia|done]|]. intros x _. by apply yields_ok. }
  eapply yields_bind; [apply Over|]. intros s _. eapply yields_bind; [apply Over|]. intros v _.
  by apply yields_ok.
Qed.

Lemma conv_gv_like p m :
  fit p -> 0 <= m < static_length p -> yields (HTS_PStream_conv_gv p m) (like p).
Proof.
  intros W Hm. pose proof W as [[Hn _] _ _ _ _ _ Dx _ _ (Hgm & _ & Hs) _].
  unfold HTS_PStream_conv_gv. eapply yields_bind; [by apply calc_gv_yields|]. intros [mu va] _.
  eapply yields_bind; [apply yields_rd; lia|]. intros gm _. eapply yields_bind.
  { apply shape_loop; [done|]. intros ti x Ht Sx. eapply yields_bind; [apply yields_rd; lia|].
    intros s _. destruct s; [|by apply yields_ok].
    eapply upd2_shape'; [exact Dx|exact Sx|lia|done|]. intros v. by apply yields_ok. }
  intros x Sx. apply yields_ok.
  exact (like_memory p x (g p) (wuw p) (wum p) Sx eq_refl eq_refl eq_refl).
Qed.

Lemma apply_band_yields p m :
  fit p -> 0 <= m < static_length p -> yields (apply_band p m) (fun gg => zlen gg = zlen (g p)).
Proof.
  intros W Hm. pose proof W as [[Hn _] Hw _ D _ Hg Dx _ _ _ _]. unfold apply_band.
  apply len_loop; [done|]. intros ti gg Ht L.
  eapply yields_bind; [eapply yields_rd2; [exact D|lia|lia]|]. intros a0 _.
  eapply yields_bind; [eapply yields_rd2; [exact Dx|lia|done]|]. intros x0 _.
  rewrite wr_ok, bind_Ok by lia.
  eapply yields_mono; [apply len_loop; [lia|]|cbn; intros; by rewrite zlen_insert in *].
  intros i g2 Hi L2. rewrite zlen_insert in L2. eapply yields_bind.
  { destruct (Z.ltb_spec (ti + i) (length p));
      [|apply (yields_ok g2 (fun g3 => zlen g3 = zlen g2)); done].
    eapply yields_bind; [eapply yields_rd2; [exact D|lia|lia]|]. intros a _.
    eapply yields_bind; [eapply yields_rd2; [exact Dx|lia|done]|]. intros x _.
    apply upd_len; [lia|]. intros. by apply yields_ok. }
  intros g3 L3. cbn beta in L3. destruct (Z.ltb_spec i (ti + 1)); [|by apply yields_ok].
  eapply yields_bind; [eapply yields_rd2; [exact D|lia|lia]|]. intros a _.
  eapply yields_bind; [eapply yields_rd2; [exact Dx|lia|done]|]. intros x _.
  eapply yields_mono; [apply upd_len; [lia|]; intros; by apply yields_ok|]. cbn. intros. congruence.
Qed.

Lemma calc_derivative_like p m :
  fit p -> 0 <= m < static_length p ->
  yields (HTS_PStream_calc_derivative p m) (fun r => like p r.2).
Proof.
  intros W Hm. pose proof W as [(Hn & Hsq & Hws) Hw (_ & Hz) D Hb Hg Dx _ _ (Hgm & Hgv & Hs) _].
  unfold HTS_PStream_calc_derivative. rewrite (i32_ok (win_size p * length p)), bind_Ok by nia. cbn zeta.
  eapply yields_bind; [by apply calc_gv_yields|]. intros [mu va] _.
  eapply yields_bind; [apply yields_rd; lia|]. intros gm _.
  eapply yields_bind; [apply yields_rd; lia|]. intros gvv _. cbn zeta.
  eapply yields_bind; [by apply apply_band_yields|]. intros gg L. cbn beta in L.
  rewrite i32_ok, bind_Ok by nia. eapply yields_bind.
  { apply (for_up_yields (fun _ r => zlen r.2 = zlen (g p))); [done|done|].
    intros ti [obj g2] Ht L2. cbn [snd] in L2.
    eapply yields_bind; [eapply yields_rd2; [exact Dx|lia|done]|]. intros x _.
    eapply yields_bind; [apply yields_rd; lia|]. intros b _.
    eapply yields_bind; [apply yields_rd; lia|]. intros y _.
    eapply yields_bind; [eapply yields_rd2; [exact D|lia|lia]|]. intros a0 _. cbn zeta.
    eapply yields_bind; [apply yields_rd; lia|]. intros s _.
    rewrite wr_ok, bind_Ok by lia. apply yields_ok. cbn. by rewrite zlen_insert. }
  intros [obj g2] L2. cbn [snd] in L2. apply yields_ok. cbn [snd].
  exact (like_memory p (par p) g2 (wuw p) (wum p) eq_refl L2 eq_refl eq_refl).
Qed.

Lemma gv_step_like m p0 st :
  fit p0 -> 0 <= m < static_length p0 -> like p0 st.1.1 ->
  yields (gv_step m st) (fun st' => like p0 st'.1.1).
Proof.
  intros W Hm L. destruct st as [[p step] prev]. cbn [fst] in L. unfold gv_step.
  pose proof (like_fit _ _ L W) as W1.
  assert (Hm1 : 0 <= m < static_length p) by (destruct L as (? & ? & ? & ? & -> & _); done).
  eapply yields_bind; [by apply calc_derivative_like|]. intros [obj p2] L2. cbn [snd] in L2. cbn zeta.
  pose proof (like_fit _ _ L2 W1) as W2. pose proof W2 as [(Hn & _) _ _ _ _ Hg Dx _ _ _ _].
  assert (Hm2 : 0 <= m < static_length p2) by (destruct L2 as (? & ? & ? & ? & -> & _); done).
  eapply yields_bind.
  { apply shape_loop; [done|]. intros ti x Ht Sx.
    eapply upd2_shape'; [exact Dx|exact Sx|lia|done|]. intros v.
    eapply yields_bind; [apply yields_rd; lia|]. intros y _. by apply yields_ok. }
  intros x Sx. apply yields_ok. cbn [fst]. eapply like_trans; [exact L|]. eapply like_trans; [exact L2|].
  exact (like_memory p2 x (g p2) (wuw p2) (wum p2) Sx eq_refl eq_refl eq_refl).
Qed.

Lemma like_static p p' : like p p' -> static_length p' = static_length p.
Proof. by intros (? & ? & ? & ? & -> & _). Qed.

Lemma gv_parmgen_like p m :
  fit p -> 0 <= m < static_length p -> yields (HTS_PStream_gv_parmgen p m) (like p).
Proof.
  intros W Hm. unfold HTS_PStream_gv_parmgen. destruct (_ =? 0); [apply yields_ok, like_refl|].
  apply like_bind; [by apply conv_gv_like|]. intros p1 L1. pose proof (like_fit _ _ L1 W) as W1.
  rewrite <-(like_static _ _ L1) in Hm.
  apply like_bind; [by apply calc_wuw_and_wum_like|]. intros p2 L2.
  pose proof (like_fit _ _ L2 W1) as W2. rewrite <-(like_static _ _ L2) in Hm.
  eapply yields_bind.
  { apply (for_up_yields (fun _ st => like p2 st.1.1)); [done|apply like_refl|].
    intros i st _ L. by apply gv_step_like. }
  intros [[p3 step] prev] L3. by apply yields_ok.
Qed.

(** The parameter generation is safe: on a stream that fits its memory
    and whose windows are symmetric, whatever the numbers are, it returns
    without leaving any array, and changes the numbers of its own memory only
    ([par], [g], [wuw] and [wum], which keep their sizes). *)
Lemma mlpg_like p : fit p -> yields (HTS_PStream_mlpg p) (like p).
Proof.
  intros W. unfold HTS_PStream_mlpg. destruct (_ =? 0); [apply yields_ok, like_refl|].
  apply like_loop; [done|apply W|]. intros m p1 Hm L1 W1. rewrite <-(like_static _ _ L1) in Hm.
  apply like_bind; [by apply calc_wuw_and_wum_like|]. intros p2 L2.
  pose proof (like_fit _ _ L2 W1) as W2. rewrite <-(like_static _ _ L2) in Hm.
  apply like_bind; [by apply solve_like|]. intros p3 L3. pose proof (like_fit _ _ L3 W2) as W3.
  destruct (_ <? _); [|apply yields_ok, like_refl].
  apply gv_parmgen_like; [done|]. by rewrite (like_static _ _ L3).
Qed.

End Mlpg.

(** ** Exact arithmetic: the loops and their equations *)

Section Exact.
Context {F : Type} `{NumField F}.
Add Field mlpg_field : num_field.

(** a loop that subtracts a sum from one entry, whose terms do not read it *)
Lemma subtract_loop n w a i j lo hi (f : Z -> list (list F) -> F -> Res F) term :
  dims n w a -> 0 <= i < n -> 0 <= j < w -> lo <= hi ->
  (forall k a' x, lo <= k < hi -> put n w a i j x a' -> f k a' x = Ok (x - term k)%num) ->
  yields (for_up lo hi (fun k a => upd2 a i j (f k a)) a)
    (put n w a i j (ent a i j - sum lo hi term)%num).
Proof.
  intros Hd Hi Hj Hlh Hf.
  apply (for_up_yields (fun k a' => put n w a i j (ent a i j - sum lo k term)%num a')); [done| |].
  - rewrite sum_nil by lia. replace (ent a i j - nZ 0)%num with (ent a i j) by ring.
    apply put_refl; [done|lia|lia].
  - intros k a' Hk P. pose proof (put_at _ _ _ _ _ _ _ P ltac:(lia) ltac:(lia)) as Ev.
    rewrite sum_snoc by lia.
    eapply yields_mono; [apply upd2_put; [apply P|done|done|rewrite Ev; by eapply Hf]|].
    intros a2 P2. replace (ent a i j - (sum lo k term + term k))%num
      with (ent a i j - sum lo k term - term k)%num by ring.
    by eapply put_trans.
Qed.

Lemma vsubtract_loop n l i lo hi (f : Z -> list F -> F -> Res F) term :
  n <= zlen l -> 0 <= i < n -> lo <= hi ->
  (forall k l' x, lo <= k < hi -> vput n l i x l' -> f k l' x = Ok (x - term k)%num) ->
  yields (for_up lo hi (fun k l => upd l i (f k l)) l)
    (vput n l i (vent l i - sum lo hi term)%num).
Proof.
  intros Hd Hi Hlh Hf.
  apply (for_up_yields (fun k l' => vput n l i (vent l i - sum lo k term)%num l')); [done| |].
  - rewrite sum_nil by lia. replace (vent l i - nZ 0)%num with (vent l i) by ring.
    split; [done|]. intros i' _. by case_bool_decide as C; [subst|].
  - intros k l' Hk P. pose proof P as [Ll Ev]. pose proof (Ev i ltac:(lia)) as Ei.
    rewrite bool_decide_eq_true_2 in Ei by done. rewrite sum_snoc by lia.
    eapply yields_mono; [apply upd_vput; [exact Ll|done|rewrite Ei; by eapply Hf]|].
    intros l2 P2. replace (vent l i - (sum lo k term + term k))%num
      with (vent l i - sum lo k term - term k)%num by ring.
    by eapply vput_trans.
Qed.

(** *** Factorization *)

(** the value of the pivot, and of an entry, in terms of the rows above [ti] *)
Definition pivot_of (w ti : Z) (a : list (list F)) : F :=
  (ent a ti 0 - sum 1 (Z.min w (ti + 1))
     (fun i => ent a (ti - i) i * ent a (ti - i) i * ent a (ti - i) 0))%num.
Definition entry_of (w ti i : Z) (a : list (list F)) : F :=
  ((ent a ti i - sum 1 (Z.min (w - i) (ti + 1))
      (fun j => ent a (ti - j) j * ent a (ti - j) (i + j) * ent a (ti - j) 0))
   / pivot_of w ti a)%num.

Lemma ldl_pivot_spec n w ti a :
  dims n w a -> 0 <= ti < n -> 1 <= w ->
  yields (ldl_pivot w ti a) (put n w a ti 0 (pivot_of w ti a)).
Proof.
  intros Hd Ht Hw. unfold ldl_pivot, pivot_of.
  apply subtract_loop; [done|done|lia|lia|]. intros k a' x Hk P. cbn beta.
  rewrite !(rd2_ent n w) by (apply P || lia). rewrite !bind_Ok.
  by rewrite !(put_other _ _ _ _ _ _ _ _ _ P) by lia.
Qed.

(** row [ti] of [a2] is factorized up to entry [i]; the other rows are those of [a] *)
Definition row_done (n w ti i : Z) (a a2 : list (list F)) : Prop :=
  dims n w a2 /\
  (forall t j, 0 <= t -> 0 <= j -> t <> ti -> ent a2 t j = ent a t j) /\
  ent a2 ti 0 = pivot_of w ti a /\
  forall j, 1 <= j -> ent a2 ti j = if j <? i then entry_of w ti j a else ent a ti j.

Lemma ldl_entry_spec n w ti i a a1 :
  dims n w a -> 0 <= ti < n -> 1 <= i < w -> row_done n w ti i a a1 ->
  yields (ldl_entry w ti i a1) (row_done n w ti (i + 1) a).
Proof.
  intros Hd Ht Hi (D1 & O1 & P1 & E1). unfold ldl_entry. eapply yields_bind.
  { apply (subtract_loop n w a1 ti i 1 _ _
      (fun j => ent a (ti - j) j * ent a (ti - j) (i + j) * ent a (ti - j) 0)%num);
      [done|done|lia|lia|].
    intros k a' x Hk P. cbn beta. rewrite !(rd2_ent n w) by (apply P || lia). rewrite !bind_Ok.
    by rewrite !(put_other _ _ _ _ _ _ _ _ _ P), !O1 by lia. }
  intros a2 P2. rewrite (rd2_ent n w) by (apply P2 || lia). rewrite bind_Ok.
  eapply yields_mono; [apply (upd2_put n w); [apply P2|done|lia|done]|]. intros a3 P3.
  pose proof (put_at _ _ _ _ _ _ _ P2 ltac:(lia) ltac:(lia)) as V2. rewrite V2 in P3.
  rewrite (put_other _ _ _ _ _ _ _ ti 0 P2) in P3 by lia.
  rewrite P1, E1 in P3 by lia. rewrite (proj2 (Z.ltb_ge i i)) in P3 by lia.
  split; [apply P3|]. split; [|split].
  - intros t j Ht' Hj Hne.
    rewrite (put_other _ _ _ _ _ _ _ t j P3), (put_other _ _ _ _ _ _ _ t j P2) by lia.
    by apply O1.
  - by rewrite (put_other _ _ _ _ _ _ _ ti 0 P3), (put_other _ _ _ _ _ _ _ ti 0 P2) by lia.
  - intros j Hj. destruct (decide (j = i)) as [->|Hne].
    + rewrite (put_at _ _ _ _ _ _ _ P3) by lia. by rewrite (proj2 (Z.ltb_lt _ _)) by lia.
    + rewrite (put_other _ _ _ _ _ _ _ ti j P3), (put_other _ _ _ _ _ _ _ ti j P2) by lia.
      rewrite E1 by lia. destruct (decide (j < i)); by zbool.
Qed.

Lemma ldl_row_spec n w ti a :
  dims n w a -> 0 <= ti < n -> 1 <= w ->
  yields (ldl_row w ti a) (row_done n w ti w a).
Proof.
  intros Hd Ht Hw. unfold ldl_row. eapply yields_bind; [by apply (ldl_pivot_spec n)|].
  intros a1 P1. apply (for_up_yields (fun i => row_done n w ti i a)); [lia| |].
  - split; [apply P1|]. split; [|split].
    + intros t j Ht' Hj Hne. apply (put_other _ _ _ _ _ _ _ t j P1); lia.
    + apply (put_at _ _ _ _ _ _ _ P1); lia.
    + intros j Hj. rewrite (proj2 (Z.ltb_ge _ _)) by lia.
      apply (put_other _ _ _ _ _ _ _ ti j P1); lia.
  - intros i a2 Hi R. by apply ldl_entry_spec.
Qed.

(** the rows above [ti] are factorized, the others are those of [a] *)
Definition factorized (n w ti : Z) (a a' : list (list F)) : Prop :=
  dims n w a' /\
  (forall t j, ti <= t -> 0 <= t -> 0 <= j -> ent a' t j = ent a t j) /\
  forall t, 0 <= t < ti ->
    ent a' t 0 = (ent a t 0 - sum 1 (Z.min w (t + 1))
      (fun i => ent a' (t - i) i * ent a' (t - i) i * ent a' (t - i) 0))%num /\
    forall i, 1 <= i < w -> ent a' t i = ((ent a t i - sum 1 (Z.min (w - i) (t + 1))
      (fun j => ent a' (t - j) j * ent a' (t - j) (i + j) * ent a' (t - j) 0))
      / ent a' t 0)%num.

Lemma ldl_spec n w a :
  dims n w a -> 0 <= n -> 1 <= w ->
  yields (for_up 0 n (ldl_row w) a) (factorized n w n a).
Proof.
  intros Hd Hn Hw. apply (for_up_yields (fun ti => factorized n w ti a)); [done| |].
  { split; [done|]. split; [done|]. lia. }
  intros ti a1 Ht (D1 & O1 & E1).
  eapply yields_mono; [by apply (ldl_row_spec n)|]. intros a2 (D2 & O2 & P2 & Q2).
  split; [done|]. split.
  { intros t j Ht' H0t Hj. rewrite O2 by lia. apply O1; lia. }
  intros t Ht'. destruct (decide (t = ti)) as [->|Hne].
  - unfold entry_of in *. split.
    + rewrite P2. unfold pivot_of. rewrite (O1 ti 0) by lia. f_equal. apply sum_ext. intros i Hi.
      by rewrite !(O2 (ti - i)) by lia.
    + intros i Hi. rewrite Q2 by lia. rewrite (proj2 (Z.ltb_lt i w)) by lia.
      rewrite (O1 ti i), <-P2 by lia. do 2 f_equal. apply sum_ext. intros j Hj.
      by rewrite !(O2 (ti - j)) by lia.
  - destruct (E1 t) as [P Q]; [lia|]. rewrite !(O2 t 0) by lia. split.
    + rewrite P at 1. f_equal. apply sum_ext. intros i Hi. by rewrite !(O2 (t - i)) by lia.
    + intros i Hi. rewrite (O2 t i), Q by lia. do 2 f_equal. apply sum_ext. intros j Hj.
      by rewrite !(O2 (t - j)) by lia.
Qed.

(** *** Substitutions *)

Lemma forward_row_spec n w ti a b gg :
  dims n w a -> n <= zlen b -> n <= zlen gg -> 0 <= ti < n -> 1 <= w ->
  yields (forward_row w ti a b gg)
    (vput n gg ti (vent b ti - sum 1 (Z.min w (ti + 1))
                     (fun i => ent a (ti - i) i * vent gg (ti - i)))%num).
Proof.
  intros Ha Hb Hg Ht Hw. unfold forward_row. rewrite rd_vent, bind_Ok, wr_ok, bind_Ok by lia.
  set (g1 := <[Z.to_nat ti := vent b ti]> gg).
  assert (P1 : vput n gg ti (vent b ti) g1).
  { split; [unfold g1; by rewrite zlen_insert|]. intros. apply vent_insert; lia. }
  pose proof P1 as [L1 V1]. eapply yields_mono.
  { apply (vsubtract_loop n g1 ti 1 _ _ (fun i => ent a (ti - i) i * vent gg (ti - i))%num);
      [done|done|lia|].
    intros k g2 x Hk [L2 V2]. cbn beta. rewrite (rd2_ent n w), bind_Ok by (done || lia).
    rewrite rd_vent, bind_Ok by lia. rewrite V2, V1 by lia.
    by rewrite !bool_decide_eq_false_2 by lia. }
  intros g2 P2. rewrite V1, bool_decide_eq_true_2 in P2 by lia. by eapply vput_trans.
Qed.

Lemma forward_spec n w a b gg :
  dims n w a -> n <= zlen b -> n <= zlen gg -> 0 <= n -> 1 <= w ->
  yields (for_up 0 n (fun ti => forward_row w ti a b) gg) (fun g' => n <= zlen g' /\
    forall t, 0 <= t < n -> vent g' t = (vent b t - sum 1 (Z.min w (t + 1))
      (fun i => ent a (t - i) i * vent g' (t - i)))%num).
Proof.
  intros Ha Hb Hg Hn Hw.
  apply (for_up_yields (fun ti g' => n <= zlen g' /\ forall t, 0 <= t < ti ->
    vent g' t = (vent b t - sum 1 (Z.min w (t + 1))
      (fun i => ent a (t - i) i * vent g' (t - i)))%num)); [done|split; [done|lia]|].
  intros ti g1 Ht [L1 E1]. eapply yields_mono; [by apply (forward_row_spec n)|].
  intros g2 [L2 V2]. split; [done|]. intros t Ht'.
  assert (Old : forall i, 1 <= i < Z.min w (t + 1) ->
    (ent a (t - i) i * vent g1 (t - i))%num = (ent a (t - i) i * vent g2 (t - i))%num).
  { intros i Hi. by rewrite V2, bool_decide_eq_false_2 by lia. }
  rewrite V2 by lia. destruct (decide (t = ti)) as [->|Hne].
  - rewrite bool_decide_eq_true_2 by done. f_equal. by apply sum_ext.
  - rewrite bool_decide_eq_false_2, E1 by lia. f_equal. by apply sum_ext.
Qed.

Lemma backward_row_spec n w wp m ti a gg x :
  dims n w a -> n <= zlen gg -> dims n wp x -> 0 <= m < wp -> 0 <= ti < n -> 1 <= w ->
  yields (backward_row w n m ti a gg x)
    (put n wp x ti m (vent gg ti / ent a ti 0 - sum 1 (Z.min w (n - ti))
                        (fun i => ent a ti i * ent x (ti + i) m))%num).
Proof.
  intros Ha Hg Hx Hm Ht Hw. unfold backward_row.
  rewrite rd_vent, bind_Ok by lia. rewrite (rd2_ent n w), bind_Ok by (done || lia).
  unfold wr2. eapply yields_bind; [by apply (upd2_put n wp)|]. intros x1 P1.
  eapply yields_mono.
  { apply (subtract_loop n wp x1 ti m 1 _ _ (fun i => ent a ti i * ent x (ti + i) m)%num);
      [apply P1|done|done|lia|].
    intros k x2 v Hk P2. cbn beta. rewrite (rd2_ent n w a), bind_Ok by (done || lia).
    rewrite (rd2_ent n wp x2), bind_Ok by (apply P2 || lia).
    by rewrite (put_other _ _ _ _ _ _ _ _ _ P2), (put_other _ _ _ _ _ _ _ _ _ P1) by lia. }
  intros x2 P2. rewrite (put_at _ _ _ _ _ _ _ P1) in P2 by lia. by eapply put_trans.
Qed.

Lemma backward_spec n w wp m a gg x :
  dims n w a -> n <= zlen gg -> dims n wp x -> 0 <= m < wp -> 0 <= n -> 1 <= w ->
  yields (for_down (n - 1) 0 (fun ti => backward_row w n m ti a gg) x) (fun x' =>
    dims n wp x' /\
    (forall t j, 0 <= t -> 0 <= j -> j <> m -> ent x' t j = ent x t j) /\
    forall t, 0 <= t < n -> ent x' t m = (vent gg t / ent a t 0 - sum 1 (Z.min w (n - t))
      (fun i => ent a t i * ent x' (t + i) m))%num).
Proof.
  intros Ha Hg Hx Hm Hn Hw.
  eapply yields_mono; [apply (for_down_yields (fun ti x' => dims n wp x' /\
    (forall t j, 0 <= t -> 0 <= j -> j <> m -> ent x' t j = ent x t j) /\
    forall t, ti < t < n -> ent x' t m = (vent gg t / ent a t 0 - sum 1 (Z.min w (n - t))
      (fun i => ent a t i * ent x' (t + i) m))%num))|].
  - lia.
  - split; [done|]. split; [done|]. lia.
  - intros ti x1 Ht (D1 & O1 & E1).
    eapply yields_mono; [by apply (backward_row_spec n w wp); try done; lia|].
    intros x2 P2. split; [apply P2|]. split.
    { intros t j Ht' Hj Hne. rewrite (put_other _ _ _ _ _ _ _ t j P2) by lia. by apply O1. }
    intros t Ht'.
    assert (Old : forall i, 1 <= i < Z.min w (n - t) ->
      (ent a t i * ent x1 (t + i) m)%num = (ent a t i * ent x2 (t + i) m)%num).
    { intros i Hi. by rewrite (put_other _ _ _ _ _ _ _ _ _ P2) by lia. }
    destruct (decide (t = ti)) as [->|Hne].
    + rewrite (put_at _ _ _ _ _ _ _ P2) by lia. f_equal. by apply sum_ext.
    + rewrite (put_other _ _ _ _ _ _ _ t m P2), E1 by lia. f_equal. by apply sum_ext.
  - intros x' (D' & O' & E'). split; [done|]. split; [done|]. intros t Ht. apply E'. lia.
Qed.

(** *** The solution *)

(** the memory holds the arrays of a stream of [length] frames *)
Definition sized (p : t F) (wp : Z) : Prop :=
  0 <= length p /\ 1 <= width p /\ dims (length p) (width p) (wuw p) /\
  length p <= zlen (wum p) /\ length p <= zlen (g p) /\ dims (length p) wp (par p).

(** the solution, together with the factors it comes from: the other columns of
    [par] are left alone, and when no pivot is zero the equations hold *)
Definition solved (p : t F) (m : Z) (p' : t F) : Prop :=
  (forall t j, 0 <= t -> 0 <= j -> j <> m -> ent (par p') t j = ent (par p) t j) /\
  factorized (length p) (width p) (length p) (wuw p) (wuw p') /\
  ((forall t, 0 <= t < length p -> ent (wuw p') t 0 <> nZ 0) ->
   forall t, 0 <= t < length p ->
     sum 0 (length p) (fun r => full (width p) (ent (wuw p)) t r * ent (par p') r m)%num
     = vent (wum p) t).

Lemma solve_solved (p : t F) m wp :
  sized p wp -> 0 <= m < wp -> yields (solve p m) (solved p m).
Proof.
  intros (Hn & Hw & Ha & Hb & Hg & Hx) Hm. unfold solve.
  destruct (ldl_spec _ _ _ Ha Hn Hw) as (a' & Ea & Fa).
  pose proof Fa as (D' & _ & La).
  unfold HTS_PStream_ldl_factorization. rewrite Ea, !bind_Ok.
  destruct (forward_spec _ _ _ _ _ D' Hb Hg Hn Hw) as (g' & Eg & Lg & Vg).
  unfold HTS_PStream_forward_substitution. cbn [length width wuw wum g set_field eta_pstream].
  rewrite Eg, !bind_Ok.
  destruct (backward_spec _ _ _ m _ _ _ D' Lg Hx Hm Hn Hw) as (x' & Ex & _ & Ox & Vx).
  unfold HTS_PStream_backward_substitution.
  cbn [length width wuw wum g par set_field eta_pstream].
  rewrite Ex, !bind_Ok. apply yields_ok. split; [exact Ox|]. split; [exact Fa|].
  cbn [par wuw set_field eta_pstream]. intros Hp t Ht.
  apply (band_solution (length p) (width p) (ent (wuw p)) (ent a') (fun t => ent a' t 0)
           (vent g') (fun t => ent x' t m) (vent (wum p))); try done.
  - intros t' Ht'. apply La. lia.
  - intros t' i Ht' Hi. by apply La.
Qed.

(** The trajectory of a dimension solves the normal equations: the
    factorization and the substitutions return, and on exact numbers, when no
    pivot is zero, multiplying the symmetric banded matrix whose upper half
    was in [wuw] by column [m] of the result gives [wum]; the other columns
    of [par] are left alone. *)
Theorem solve_normal_equations (p : t F) m wp :
  sized p wp -> 0 <= m < wp ->
  yields (solve p m) (fun p' =>
    (forall t j, 0 <= t -> 0 <= j -> j <> m -> ent (par p') t j = ent (par p) t j) /\
    ((forall t, 0 <= t < length p -> ent (wuw p') t 0 <> nZ 0) ->
     forall t, 0 <= t < length p ->
       sum 0 (length p) (fun r => full (width p) (ent (wuw p)) t r * ent (par p') r m)%num
       = vent (wum p) t)).
Proof.
  intros S Hm. eapply yields_mono; [by eapply solve_solved|]. by intros p' (? & _ & ?).
Qed.
End Exact.

(** ** A concrete system *)

Section ExactRuns.
#[local] Existing Instance no_qlibm.

(** three frames, a band of width 2 *)
Definition ex_stream : t Qc :=
  mk 1 3 2 (replicate 3 [nZ 0]) [] [] (replicate 3 (nZ 0))
    [[nZ 2; nZ 1]; [nZ 2; nZ 1]; [nZ 2; nZ 0]] [nZ 1; nZ 2; nZ 3]
    1 [0] [0] (fun _ _ => nZ 1) [] [] [] 0.

Lemma dims_forall n w (a : list (list Qc)) :
  n <= zlen a -> Forall (fun row => w <= zlen row) a -> dims n w a.
Proof.
  intros L A. split; [done|]. intros i row _ E. rewrite Forall_lookup in A. by eapply A.
Qed.

Lemma solve_normal_equations_witness :
  yields (solve ex_stream 0) (fun p' =>
    (forall t j, 0 <= t -> 0 <= j -> j <> 0 -> ent (par p') t j = ent (par ex_stream) t j) /\
    ((forall t, 0 <= t < 3 -> ent (wuw p') t 0 <> nZ 0) ->
     forall t, 0 <= t < 3 ->
       sum 0 3 (fun r => full 2 (ent (wuw ex_stream)) t r * ent (par p') r 0)%num
       = vent (wum ex_stream) t)).
Proof.
  refine (solve_normal_equations ex_stream 0 1 _ _); [|lia].
  repeat (split; [done|]). split; [by apply dims_forall; [|repeat constructor]|].
  split; [done|]. split; [done|]. by apply dims_forall; [|repeat constructor].
Defined.
End ExactRuns.
End Mlpg.
