(* ===== verification/Likelihood.v ===== *)
(** * The most likely trajectory

    What [HTS_PStream_mlpg] is for.  The distributions of a stream give, for
    every frame and every window (the static one, the differences), a mean and
    the inverse of a variance; a trajectory is the likelier the smaller its
    weighted squared distance from the means is.  The banded equations that
    [calc_wuw_and_wum] sets up are the normal equations of that distance, their
    matrix is positive definite, and their solution is the only trajectory of
    least distance. *)

From Stdlib Require Import Field QArith Qcanon.
From S2P Require Import Prelude Num Sums Matrix Mlpg.
#[local] Open Scope Z_scope.

Module Likelihood.
Import Mlpg.

(** ** Weighted squares *)

Section Squares.
Context {F : Type} `{NumOrdered F}.
Add Field squares_field : num_field.
#[local] Open Scope num_scope.
#[local] Open Scope Z_scope.

(** [n] windows over [T] frames: [w i s t] is what frame [t] counts for in
    feature [i] of frame [s]; [v] are the weights, [mu] the means *)
Variables (T n : Z) (w : Z -> Z -> Z -> F) (v mu : Z -> Z -> F).

Definition over (f : Z -> Z -> F) : F := sum 0 n (fun i => sum 0 T (f i)).
Definition feature (c : Z -> F) (i s : Z) : F := sum 0 T (fun t => w i s t * c t)%num.
Definition squares (c : Z -> F) : F :=
  over (fun i s => v i s * ((mu i s - feature c i s) * (mu i s - feature c i s)))%num.
Definition form (c : Z -> F) : F :=
  over (fun i s => v i s * (feature c i s * feature c i s))%num.
Definition normal (t r : Z) : F := over (fun i s => w i s t * v i s * w i s r)%num.
Definition rhs (t : Z) : F := over (fun i s => w i s t * v i s * mu i s)%num.

Lemma over_ext f f' :
  (forall i s, 0 <= i < n -> 0 <= s < T -> f i s = f' i s) -> over f = over f'.
Proof. intros E. apply sum_ext. intros i Hi. apply sum_ext. intros s Hs. by apply E. Qed.

Lemma over_add f f' : over (fun i s => f i s + f' i s)%num = (over f + over f')%num.
Proof. unfold over. rewrite <-sum_add. apply sum_ext. intros. apply sum_add. Qed.

Lemma over_mul c f : over (fun i s => c * f i s)%num = (c * over f)%num.
Proof. unfold over. rewrite <-sum_mul. apply sum_ext. intros. apply sum_mul. Qed.

Lemma over_sum f : sum 0 T (fun t => over (f t)) = over (fun i s => sum 0 T (fun t => f t i s)).
Proof.
  unfold over. rewrite sum_exchange. apply sum_ext. intros i _. apply sum_exchange.
Qed.

Lemma feature_add c d i s :
  feature (fun t => c t + d t)%num i s = (feature c i s + feature d i s)%num.
Proof. unfold feature. rewrite <-sum_add. apply sum_ext. intros. ring. Qed.

Lemma feature_ext c d i s : (forall t, 0 <= t < T -> c t = d t) -> feature c i s = feature d i s.
Proof. intros E. apply sum_ext. intros t Ht. by rewrite E. Qed.

Lemma squares_ext c d : (forall t, 0 <= t < T -> c t = d t) -> squares c = squares d.
Proof. intros E. apply over_ext. intros i s _ _. by rewrite (feature_ext c d). Qed.

(** a row of the matrix against a trajectory *)
Lemma normal_row c t :
  sum 0 T (fun r => normal t r * c r)%num = over (fun i s => w i s t * v i s * feature c i s)%num.
Proof.
  transitivity (sum 0 T (fun r => over (fun i s => w i s t * v i s * (w i s r * c r))))%num.
  - apply sum_ext. intros r _. transitivity (c r * normal t r)%num; [ring|].
    unfold normal. rewrite <-over_mul. apply over_ext. intros. ring.
  - rewrite over_sum. apply over_ext. intros i s _ _. apply sum_mul.
Qed.

(** a trajectory against the functions of its frames *)
Lemma over_feature d f :
  sum 0 T (fun t => d t * over (fun i s => w i s t * f i s))%num
  = over (fun i s => f i s * feature d i s)%num.
Proof.
  transitivity (sum 0 T (fun t => over (fun i s => f i s * (w i s t * d t))))%num.
  - apply sum_ext. intros t _. rewrite <-over_mul. apply over_ext. intros. ring.
  - rewrite over_sum. apply over_ext. intros i s _ _. apply sum_mul.
Qed.

Lemma form_normal c :
  sum 0 T (fun a => sum 0 T (fun r => c a * (normal a r * c r)))%num = form c.
Proof.
  transitivity (sum 0 T (fun a => c a * over (fun i s => w i s a * (v i s * feature c i s))))%num.
  - apply sum_ext. intros a _. rewrite sum_mul, normal_row. f_equal. apply over_ext. intros. ring.
  - rewrite over_feature. apply over_ext. intros. ring.
Qed.

(** at a solution of the normal equations a change costs its own form *)
Lemma squares_change x d :
  (forall t, 0 <= t < T -> sum 0 T (fun r => normal t r * x r)%num = rhs t) ->
  squares (fun t => x t + d t)%num = (squares x + form d)%num.
Proof.
  intros Hx.
  assert (Z0 : over (fun i s => v i s * (mu i s - feature x i s) * feature d i s)%num = nZ 0).
  { rewrite <-(over_feature d (fun i s => v i s * (mu i s - feature x i s))%num).
    apply sum_zero. intros t Ht. pose proof (Hx t Ht) as E. rewrite normal_row in E.
    transitivity (d t * (rhs t - over (fun i s => w i s t * v i s * feature x i s)))%num.
    - f_equal. transitivity (rhs t + nZ (-1) * over (fun i s => w i s t * v i s * feature x i s))%num.
      + unfold rhs. rewrite <-over_mul, <-over_add. apply over_ext. intros i s _ _.
        rewrite opp_one. ring.
      + rewrite opp_one. ring.
    - rewrite E. ring. }
  transitivity (squares x + (nZ (-1) + nZ (-1)) *
    over (fun i s => v i s * (mu i s - feature x i s) * feature d i s) + form d)%num.
  - unfold squares, form. rewrite <-over_mul, <-!over_add. apply over_ext. intros i s _ _.
    rewrite feature_add, opp_one. ring.
  - rewrite Z0. ring.
Qed.

(** *** Definiteness *)

Hypothesis weights : forall i s, 0 <= i < n -> 0 <= s < T -> nonneg (v i s).

Lemma sum_nonneg lo hi f : (forall k, lo <= k < hi -> nonneg (f k)) -> nonneg (sum lo hi f).
Proof.
  revert lo hi. refine (range_ind _ _ _); intros lo hi Hr; [rewrite sum_nil by done; intros; apply nonneg_zero|].
  intros IH Hf. rewrite sum_cons by done. apply nonneg_add; [apply Hf; lia|].
  apply IH. intros. apply Hf. lia.
Qed.

Lemma sum_nonneg_zero lo hi f :
  (forall k, lo <= k < hi -> nonneg (f k)) -> sum lo hi f = nZ 0 ->
  forall k, lo <= k < hi -> f k = nZ 0.
Proof.
  revert lo hi. refine (range_ind _ _ _); intros lo hi Hr; [lia|]. intros IH Hf E k Hk.
  rewrite sum_cons in E by done.
  apply nonneg_add_zero in E as [E1 E2];
    [|apply Hf; lia|apply sum_nonneg; intros; apply Hf; lia].
  destruct (decide (k = lo)) as [->|]; [done|]. apply (IH ltac:(intros; apply Hf; lia) E2). lia.
Qed.

Lemma form_terms c i s :
  0 <= i < n -> 0 <= s < T -> nonneg (v i s * (feature c i s * feature c i s))%num.
Proof. intros. apply nonneg_mul; [by apply weights|apply nonneg_square]. Qed.

Lemma form_nonneg c : nonneg (form c).
Proof. apply sum_nonneg. intros i Hi. apply sum_nonneg. intros s Hs. by apply form_terms. Qed.

Hypothesis windows : 0 < n.
Hypothesis static : forall s t, 0 <= s < T -> 0 <= t < T ->
  if t =? s then w 0 s t <> nZ 0 else w 0 s t = nZ 0.
Hypothesis observed : forall s, 0 <= s < T -> v 0 s <> nZ 0.

Lemma form_definite c : form c = nZ 0 -> forall t, 0 <= t < T -> c t = nZ 0.
Proof.
  intros E t Ht.
  set (f i s := (v i s * (feature c i s * feature c i s))%num).
  assert (E0 : sum 0 T (f 0) = nZ 0).
  { apply (sum_nonneg_zero 0 n (fun i => sum 0 T (f i))); [|done|lia].
    intros i Hi. apply sum_nonneg. intros. by apply form_terms. }
  assert (Et : f 0 t = nZ 0).
  { apply (sum_nonneg_zero 0 T (f 0)); [|done|done]. intros. apply form_terms; lia. }
  unfold f in Et.
  apply mul_zero in Et as [Et|Et]; [by destruct (observed t Ht)|].
  assert (Ef : feature c 0 t = (w 0 t t * c t)%num).
  { apply (sum_single 0 T t (fun r => w 0 t r * c r)%num); [done|]. intros k Hk Hne.
    pose proof (static t k Ht Hk) as S. rewrite (proj2 (Z.eqb_neq k t)) in S by done. rewrite S. ring. }
  pose proof (static t t Ht Ht) as S. rewrite Z.eqb_refl in S.
  apply mul_zero in Et as [Et|Et]; rewrite Ef in Et; by apply mul_zero in Et as [].
Qed.

(** the pivots of the factorization of the matrix are not zero *)
Section Pivots.
Variables (bw : Z) (A u : Z -> Z -> F) (D : Z -> F).
Hypothesis band : 1 <= bw.
Hypothesis ldl_diag : forall t, 0 <= t < T ->
  D t = (A t 0 - sum 1 (Z.min bw (t + 1)) (fun i => u (t - i) i * u (t - i) i * D (t - i)))%num.
Hypothesis ldl_band : forall t i, 0 <= t < T -> 1 <= i < bw ->
  u t i = ((A t i - sum 1 (Z.min (bw - i) (t + 1))
                      (fun j => u (t - j) j * u (t - j) (i + j) * D (t - j))) / D t)%num.
Hypothesis equations : forall t r, 0 <= t < T -> 0 <= r < T -> full bw A t r = normal t r.

Lemma pivots_nonzero t : 0 <= t < T -> D t <> nZ 0.
Proof.
  induction (Z.lt_wf 0 t) as [t _ IH]. intros Ht Hz.
  destruct (pivot_of_form T bw A u D band ldl_diag ldl_band t Ht) as (x & X1 & _ & E);
    [intros s Hs; apply IH; lia|].
  rewrite Hz in E. assert (Ef : form x = nZ 0).
  { rewrite <-form_normal, <-E. apply sum_ext. intros a Ha. apply sum_ext. intros r Hr.
    by rewrite equations by done. }
  pose proof (form_definite x Ef t Ht) as Ex. rewrite X1 in Ex. by apply (nZ_inj 1 0) in Ex.
Qed.
End Pivots.

(** the solution of the normal equations, and nothing else, is least *)
Lemma squares_least x c :
  (forall t, 0 <= t < T -> sum 0 T (fun r => normal t r * x r)%num = rhs t) ->
  nleb (squares x) (squares c) = true /\
  (squares c = squares x -> forall t, 0 <= t < T -> c t = x t).
Proof.
  intros Hx. pose proof (squares_change x (fun t => c t - x t)%num Hx) as E.
  rewrite (squares_ext _ c) in E by (intros; ring). rewrite E.
  split; [apply nleb_add, form_nonneg|]. intros Es t Ht.
  assert (Ef : form (fun t => c t - x t)%num = nZ 0).
  { transitivity (squares x + form (fun t => c t - x t) - squares x)%num; [ring|rewrite Es; ring]. }
  pose proof (form_definite _ Ef t Ht) as Et. cbn beta in Et.
  transitivity (c t - x t + x t)%num; [ring|]. rewrite Et. ring.
Qed.
End Squares.

(** ** The equations of a stream *)

Section Streams.
Context {F : Type} `{NumOrdered F}.
Add Field streams_field : num_field.
#[local] Open Scope num_scope.
#[local] Open Scope Z_scope.

(** what window [i] of a stream counts a frame [o] frames away for *)
Definition window (p : t F) (i o : Z) : F :=
  match win_l_width p !! Z.to_nat i, win_r_width p !! Z.to_nat i with
  | Some l, Some r => if (l <=? o) && (o <=? r) then win_coefficient p i o else nZ 0
  | _, _ => nZ 0
  end.

Definition offsets (p : t F) (i s t : Z) : F := window p i (t - s).

(** the weight and the mean of feature [i] of dimension [m] in a frame *)
Definition weight_of (p : t F) (m i s : Z) : F := ent (ivar p) s (i * static_length p + m).
Definition mean_of (p : t F) (m i s : Z) : F := ent (mean p) s (i * static_length p + m).

(** the weighted squared distance of a trajectory from the means *)
Definition distance (p : t F) (m : Z) (c : Z -> F) : F :=
  squares (length p) (win_size p) (offsets p) (weight_of p m) (mean_of p m) c.

(** what a frame [j] frames away and window [i] add to row [ti] *)
Definition wum_term (p : t F) (m ti i j : Z) : F :=
  if (0 <=? ti + j) && (ti + j <? length p)
  then (window p i (- j) * weight_of p m i (ti + j) * mean_of p m i (ti + j))%num else nZ 0.
Definition wuw_term (p : t F) (m ti k i j : Z) : F :=
  if (0 <=? ti + j) && (ti + j <? length p) && (ti + k <? length p)
  then (window p i (- j) * weight_of p m i (ti + j) * window p i (k - j))%num else nZ 0.

(** [p'] is [p] with the matrix [A] and the vector [B] *)
Definition holds (p : t F) (A : Z -> Z -> F) (B : Z -> F) (p' : t F) : Prop :=
  exists a b, p' = with_memory p (par p) (g p) a b /\ shape a = shape (wuw p) /\
    zlen b = zlen (wum p) /\
    (forall t k, 0 <= t < length p -> 0 <= k < width p -> ent a t k = A t k) /\
    forall t, 0 <= t < length p -> vent b t = B t.

Lemma holds_ext p A A' B B' p' :
  (forall t k, 0 <= t < length p -> 0 <= k < width p -> A t k = A' t k) ->
  (forall t, 0 <= t < length p -> B t = B' t) -> holds p A B p' -> holds p A' B' p'.
Proof.
  intros EA EB (a & b & -> & Sa & Lb & Ha & Hb). exists a, b. split; [done|]. split; [done|].
  split; [done|]. split; intros; rewrite <-?EA, <-?EB by done; auto.
Qed.

Lemma holds_self p : holds p (ent (wuw p)) (vent (wum p)) p.
Proof. destruct p. by do 2 eexists. Qed.

Lemma holds_like p A B p' : holds p A B p' -> like p p'.
Proof. intros (a & b & -> & Sa & Lb & _). by apply like_memory. Qed.

(** a row replaced *)
Definition at_row {X} (ti : Z) (x : X) (f : Z -> X) : Z -> X := fun t => if t =? ti then x else f t.

Lemma coefficient_window p i j l r :
  fit p -> 0 <= i < win_size p -> rd (win_l_width p) i = Ok l -> rd (win_r_width p) i = Ok r ->
  l <= j <= r -> coefficient p i j = Ok (window p i j).
Proof.
  intros W Hi El Er Hj. pose proof (fit_windows _ W) as (Nl & Nr & _).
  unfold coefficient, window. rewrite El, Er, !bind_Ok.
  destruct (yields_rd (win_l_width p) i) as (l' & El' & ->); [lia|].
  destruct (yields_rd (win_r_width p) i) as (r' & Er' & ->); [lia|].
  rewrite El in El'. rewrite Er in Er'. injection El' as <-. injection Er' as <-.
  rewrite (proj2 (Z.leb_le l j)), (proj2 (Z.leb_le j r)) by lia. done.
Qed.

(** a loop that adds to the entries of a row *)
Lemma add_row_loop n w (a : list (list F)) ti hi body term :
  dims n w a -> 0 <= ti < n -> 0 <= hi <= w ->
  (forall k a', 0 <= k < hi -> dims n w a' -> body k a' = Ok a' /\ term k = nZ 0 \/
     body k a' = upd2 a' ti k (fun x => Ok (x + term k)%num)) ->
  yields (for_up 0 hi body a) (fun a' => shape a' = shape a /\ forall t k, 0 <= t -> 0 <= k ->
    ent a' t k = if (t =? ti) && (k <? hi) then (ent a t k + term k)%num else ent a t k).
Proof.
  intros D Ht Hh Hb.
  apply (for_up_yields (fun j a' => shape a' = shape a /\ forall t k, 0 <= t -> 0 <= k ->
    ent a' t k = if (t =? ti) && (k <? j) then (ent a t k + term k)%num else ent a t k)); [lia| |].
  { split; [done|]. intros t k _ Hk. rewrite (proj2 (Z.ltb_ge k 0)) by lia. by rewrite andb_false_r. }
  intros j a1 Hj [S1 E1]. pose proof (dims_shape _ _ _ _ S1 D) as D1.
  assert (Step : forall x a2, x = (ent a ti j + term j)%num -> shape a2 = shape a1 ->
    put n w a1 ti j x a2 -> shape a2 = shape a /\ forall t k, 0 <= t -> 0 <= k ->
    ent a2 t k = if (t =? ti) && (k <? j + 1) then (ent a t k + term k)%num else ent a t k).
  { intros x a2 -> S2 [_ P]. split; [congruence|]. intros t k Ht' Hk. rewrite P by done.
    case_bool_decide as C.
    - destruct C as [-> ->]. by zbool.
    - rewrite E1 by done. destruct (Z.eqb_spec t ti); [|done]. cbn [andb].
      destruct (Z.ltb_spec k j), (Z.ltb_spec k (j + 1)); lia || done. }
  assert (Ej : ent a1 ti j = ent a ti j) by (rewrite E1 by lia; zbool; done).
  destruct (Hb j a1 Hj D1) as [[-> Hz]| ->].
  - apply yields_ok. apply (Step (ent a1 ti j)); [rewrite Ej, Hz; ring|done|apply put_refl; [done|lia|lia]].
  - eapply yields_mono; [eapply yields_and|intros a2 [S2 P2]; by eapply Step; [|exact S2|exact P2]].
    + eapply upd2_shape; [exact D1|done|lia|]. intros. by apply yields_ok.
    + eapply upd2_put; [exact D1|done|lia|]. by rewrite Ej.
Qed.

(** a loop that clears the entries of a row *)
Lemma clear_row_loop n w (a : list (list F)) ti hi :
  dims n w a -> 0 <= ti < n -> 0 <= hi <= w ->
  yields (for_up 0 hi (fun k a => wr2 a ti k (nZ 0)) a) (fun a' => shape a' = shape a /\
    forall t k, 0 <= t -> 0 <= k ->
    ent a' t k = if (t =? ti) && (k <? hi) then nZ 0 else ent a t k).
Proof.
  intros D Ht Hh.
  apply (for_up_yields (fun j a' => shape a' = shape a /\ forall t k, 0 <= t -> 0 <= k ->
    ent a' t k = if (t =? ti) && (k <? j) then nZ 0 else ent a t k)); [lia| |].
  { split; [done|]. intros t k _ Hk. rewrite (proj2 (Z.ltb_ge k 0)) by lia. by rewrite andb_false_r. }
  intros j a1 Hj [S1 E1]. pose proof (dims_shape _ _ _ _ S1 D) as D1.
  eapply yields_mono.
  { eapply yields_and; [eapply wr2_shape; [exact D1|done|lia]|].
    eapply upd2_put; [exact D1|done|lia|done]. }
  intros a2 [S2 [_ P2]]. split; [congruence|]. intros t k Ht' Hk. rewrite P2 by done.
  case_bool_decide as C; [destruct C as [-> ->]; by zbool|]. rewrite E1 by done.
  destruct (Z.eqb_spec t ti); [|done]. cbn [andb].
  destruct (Z.ltb_spec k j), (Z.ltb_spec k (j + 1)); lia || done.
Qed.

Lemma at_row_at {X} ti (x : X) f : at_row ti x f ti = x.
Proof. unfold at_row. by rewrite Z.eqb_refl. Qed.
Lemma at_row_other {X} ti (x : X) f t : t <> ti -> at_row ti x f t = f t.
Proof. intros. unfold at_row. by rewrite (proj2 (Z.eqb_neq t ti)) by done. Qed.

Lemma calc_entry_adds p m ti i j l r A B p1 :
  fit p -> 0 <= m < static_length p -> 0 <= ti < length p -> 0 <= i < win_size p ->
  rd (win_l_width p) i = Ok l -> rd (win_r_width p) i = Ok r -> l = - r -> l <= j <= r ->
  holds p A B p1 ->
  yields (calc_entry m ti i j p1)
    (holds p (at_row ti (fun k => A ti k + wuw_term p m ti k i j)%num A)
             (at_row ti (B ti + wum_term p m ti i j)%num B)).
Proof.
  intros W Hm Ht Hi El Er Hlr Hj Hh. pose proof W as [].
  unfold wum_term, wuw_term.
  pose proof Hh as (a & b & -> & Sa & Lb & Ha & Hb). unfold calc_entry.
  cbn [length width par mean ivar g wuw wum static_length win_r_width with_memory].
  destruct ((0 <=? ti + j) && (ti + j <? length p)) eqn:In; cbn [andb]; [|apply yields_ok;
    eapply holds_ext; [| |exact Hh]; intros; cbn beta; unfold at_row;
    case Z.eqb_spec; intros; subst; first [done|ring]].
  change (coefficient (with_memory p (par p) (g p) a b)) with (coefficient p).
  rewrite (coefficient_window p i (- j) l r), bind_Ok by (done || lia).
  set (c := window p i (- j)). destruct (neqb c (nZ 0)) eqn:Ec; cbn [negb].
  { apply neqb_eq in Ec. apply yields_ok. eapply holds_ext; [| |exact Hh]; intros; cbn beta;
      unfold at_row; case Z.eqb_spec; intros; subst; rewrite ?Ec; try (case Z.ltb_spec; intros);
      first [done|ring]. }
  assert (Hc : 0 <= i * static_length p + m < win_size p * static_length p) by nia.
  apply andb_true_iff in In as [I1%Z.leb_le I2%Z.ltb_lt].
  rewrite (rd2_ent _ _ (ivar p) _ _ fit_ivar0), bind_Ok by (lia || done).
  rewrite (rd2_ent _ _ (mean p) _ _ fit_mean0), bind_Ok by (lia || done).
  fold (weight_of p m i (ti + j)). fold (mean_of p m i (ti + j)).
  set (wu := (c * weight_of p m i (ti + j))%num).
  eapply yields_bind; [eapply yields_and; [apply upd_len|apply (upd_vput (length p))]|].
  { lia. } { intros. by apply yields_ok. } { lia. } { lia. } { reflexivity. }
  intros b2 [Lb2 [_ Vb2]]. eapply yields_bind.
  { apply (add_row_loop (length p) (width p) a ti _ _
      (fun k => wu * window p i (k - j))%num); [by eapply dims_shape|done|lia|].
    intros k a' Hk Da. rewrite Er, bind_Ok. destruct (Z.leb_spec (k - j) r).
    - rewrite (coefficient_window p i (k - j) l r), bind_Ok by (done || lia).
      destruct (neqb (window p i (k - j)) (nZ 0)) eqn:Ek; cbn [negb]; [left|by right].
      apply neqb_eq in Ek. rewrite Ek. split; [done|ring].
    - left. split; [done|]. unfold window.
      destruct (yields_rd (win_l_width p) i) as (l' & El' & ->); [lia|].
      destruct (yields_rd (win_r_width p) i) as (r' & Er' & ->); [lia|].
      rewrite Er in Er'. injection Er' as <-. rewrite (proj2 (Z.leb_gt (k - j) r)) by done.
      rewrite andb_false_r. ring. }
  intros a2 [Sa2 Ea2]. apply yields_ok.
  exists a2, b2. split; [done|]. split; [congruence|]. split; [congruence|]. split.
  - intros t k Ht' Hk. rewrite Ea2 by lia. unfold at_row. destruct (Z.eqb_spec t ti) as [->|];
      cbn [andb]; rewrite Ha by done; [|done]. 
    destruct (Z.ltb_spec k (Z.min (width p) (length p - ti))), (Z.ltb_spec (ti + k) (length p));
      try lia; unfold wu; ring.
  - intros t Ht'. rewrite Vb2 by lia. unfold at_row. destruct (Z.eqb_spec t ti) as [->|Hne].
    + rewrite bool_decide_eq_true_2, Hb by done. unfold wu. ring.
    + rewrite bool_decide_eq_false_2 by done. by apply Hb.
Qed.

Definition left_of (p : t F) (i : Z) : Z := default 0 (win_l_width p !! Z.to_nat i).
Definition right_of (p : t F) (i : Z) : Z := default 0 (win_r_width p !! Z.to_nat i).

(** a sum over the windows and their frames *)
Definition reached (p : t F) (f : Z -> Z -> F) (n : Z) : F :=
  sum 0 n (fun i => sum (left_of p i) (right_of p i + 1) (f i)).

Lemma widths_of p i :
  fit p -> 0 <= i < win_size p ->
  rd (win_l_width p) i = Ok (left_of p i) /\ rd (win_r_width p) i = Ok (right_of p i) /\
  left_of p i = - right_of p i /\ 0 <= right_of p i.
Proof.
  intros W Hi. pose proof (fit_windows _ W) as (Nl & Nr & Hw). unfold left_of, right_of.
  destruct (yields_rd (win_l_width p) i) as (l & -> & El); [lia|].
  destruct (yields_rd (win_r_width p) i) as (r & -> & Er); [lia|].
  pose proof (Hw _ _ _ El Er) as Hlr. by rewrite El, Er.
Qed.

Lemma holds_row p ti f x A B p' :
  (forall k, 0 <= k < width p -> f k = A ti k) -> x = B ti ->
  holds p A B p' -> holds p (at_row ti f A) (at_row ti x B) p'.
Proof.
  intros Ef Ex. apply holds_ext; intros; unfold at_row; case Z.eqb_spec; intros; subst; auto.
  by rewrite Ef.
Qed.

(** the windows of a row *)
Lemma row_adds p m ti A B p1 :
  fit p -> 0 <= m < static_length p -> 0 <= ti < length p -> holds p A B p1 ->
  (forall k, 0 <= k < width p -> A ti k = nZ 0) -> B ti = nZ 0 ->
  yields (for_up 0 (win_size p) (fun i p1 =>
      l ← rd (win_l_width p1) i;
      r ← rd (win_r_width p1) i;
      for_up l (r + 1) (fun j p1 => calc_entry m ti i j p1) p1) p1)
    (holds p (at_row ti (fun k => reached p (wuw_term p m ti k) (win_size p)) A)
             (at_row ti (reached p (wum_term p m ti) (win_size p)) B)).
Proof.
  intros W Hm Ht H1' HA HB. pose proof (fit_sizes _ W) as [_ Hn].
  apply (for_up_yields (fun n => holds p (at_row ti (fun k => reached p (wuw_term p m ti k) n) A)
    (at_row ti (reached p (wum_term p m ti) n) B))); [done| |].
  - apply holds_row; [|by rewrite HB; apply sum_nil|done]. intros k Hk. rewrite HA by done. by apply sum_nil.
  - intros i p2 Hi H2'. destruct (widths_of p i W Hi) as (El & Er & Hlr & Hr).
    assert (Es : win_l_width p2 = win_l_width p /\ win_r_width p2 = win_r_width p).
    { by destruct H2' as (a & b & -> & _). }
    destruct Es as [-> ->]. rewrite El, Er, !bind_Ok.
    eapply yields_mono; [apply (for_up_yields (fun j => holds p
      (at_row ti (fun k => reached p (wuw_term p m ti k) i + sum (left_of p i) j (wuw_term p m ti k i))%num A)
      (at_row ti (reached p (wum_term p m ti) i + sum (left_of p i) j (wum_term p m ti i))%num B)))|].
    + lia.
    + eapply holds_ext; [| |exact H2']; intros; unfold at_row; case Z.eqb_spec; intros; [|done| |done];
        rewrite sum_nil by lia; ring.
    + intros j p3 Hj H3'. eapply yields_mono;
        [eapply (calc_entry_adds p m ti i j _ _ _ _ p3 W); try eassumption; lia|].
      intros p4. apply holds_ext; intros; unfold at_row; case Z.eqb_spec; intros;
        rewrite ?Z.eqb_refl, ?sum_snoc by lia; first [done|ring].
    + intros p3. apply holds_ext; intros; unfold at_row, reached; case Z.eqb_spec; intros;
        rewrite ?(sum_snoc 0 i) by lia; done.
Qed.

(** the equations: every row is the sum over the windows *)
Lemma calc_wuw_and_wum_holds p m :
  fit p -> 0 <= m < static_length p ->
  yields (HTS_PStream_calc_wuw_and_wum p m)
    (holds p (fun t k => reached p (wuw_term p m t k) (win_size p))
             (fun t => reached p (wum_term p m t) (win_size p))).
Proof.
  intros W Hm. pose proof (fit_length _ W) as [Hn _]. pose proof (fit_width _ W) as Hw.
  unfold HTS_PStream_calc_wuw_and_wum.
  set (A' := fun t k => reached p (wuw_term p m t k) (win_size p)).
  set (B' := fun t => reached p (wum_term p m t) (win_size p)).
  eapply yields_mono; [apply (for_up_yields (fun ti => holds p
    (fun t k => if t <? ti then A' t k else ent (wuw p) t k)
    (fun t => if t <? ti then B' t else vent (wum p) t))); [done| |]|].
  - eapply holds_ext; [| |apply holds_self]; intros; by rewrite (proj2 (Z.ltb_ge _ 0)) by lia.
  - intros ti p1 Ht Hh. set (A := fun t k => if t <? ti then _ else _) in Hh.
    set (B := fun t => if t <? ti then _ else _) in Hh.
    pose proof Hh as (a & b & -> & Sa & Lb & Ha & Hb).
    cbn [wum wuw width win_size with_memory]. pose proof (fit_wum _ W) as Wb.
    pose proof (dims_shape _ _ _ _ Sa (fit_wuw _ W)) as Da.
    rewrite wr_ok, bind_Ok by lia. eapply yields_bind.
    { apply (clear_row_loop (length p) (width p) a ti (width p)); [done|done|lia]. }
    intros a1 [S1 E1]. set (p2 := _ <| wuw := a1 |>).
    assert (H2' : holds p (at_row ti (fun _ => nZ 0) A) (at_row ti (nZ 0) B) p2).
    { exists a1, (<[Z.to_nat ti := nZ 0]> b). split; [done|]. split; [congruence|].
      split; [by rewrite zlen_insert|]. split; intros t' ; intros.
      - rewrite E1 by lia. unfold at_row. case Z.eqb_spec; intros; cbn [andb];
          [by rewrite (proj2 (Z.ltb_lt _ _)) by lia|by apply Ha].
      - rewrite vent_insert by lia. unfold at_row. case_bool_decide; case Z.eqb_spec; try done.
        intros. by apply Hb. }
    eapply yields_mono; [apply (row_adds p m ti _ _ p2 W Hm Ht H2'); [intros|]; by rewrite at_row_at|].
    intros p3. apply holds_ext; intros t'; intros; unfold at_row, A, B;
      destruct (Z.eqb_spec t' ti) as [->|]; case Z.ltb_spec; try case Z.ltb_spec; intros; lia || done.
  - intros p1. apply holds_ext; intros; by rewrite (proj2 (Z.ltb_lt _ _)) by lia.
Qed.

(** ** The normal equations *)

(** a window has nothing outside its widths *)
Lemma window_outside p i o :
  fit p -> 0 <= i < win_size p -> right_of p i < Z.abs o -> window p i o = nZ 0.
Proof.
  intros W Hi Ho. destruct (widths_of p i W Hi) as (El & Er & Hlr & Hr).
  apply rd_inv in El as [_ El]. apply rd_inv in Er as [_ Er]. unfold window. rewrite El, Er.
  destruct (Z.leb_spec (left_of p i) o), (Z.leb_spec o (right_of p i)); lia || done.
Qed.

Lemma reached_over p (f : Z -> Z -> F) ti :
  fit p ->
  (forall i s, 0 <= i < win_size p -> 0 <= s < length p -> right_of p i < Z.abs (s - ti) -> f i s = nZ 0) ->
  reached p (fun i j => if (0 <=? ti + j) && (ti + j <? length p) then f i (ti + j) else nZ 0)
    (win_size p) = over (length p) (win_size p) f.
Proof.
  intros W Hf. pose proof (fit_length _ W) as [Hn _]. apply sum_ext. intros i Hi.
  destruct (widths_of p i W Hi) as (_ & _ & Hlr & Hr).
  rewrite (sum_clip _ _ (length p) ti (f i)) by lia. apply sum_ext. intros s Hs.
  destruct (Z.leb_spec (left_of p i) (s - ti)), (Z.ltb_spec (s - ti) (right_of p i + 1));
    cbn [andb]; [done|symmetry; apply Hf; lia..].
Qed.

Lemma wum_rhs p m t :
  fit p -> reached p (wum_term p m t) (win_size p)
           = rhs (length p) (win_size p) (offsets p) (weight_of p m) (mean_of p m) t.
Proof.
  intros W. unfold rhs. rewrite <-(reached_over p _ t W).
  - apply sum_ext. intros i _. apply sum_ext. intros j _. unfold wum_term, offsets.
    by replace (t - (t + j)) with (- j) by lia.
  - intros i s Hi Hs Ho. unfold offsets. rewrite window_outside by (done || lia). ring.
Qed.

Lemma wuw_normal p m t k :
  fit p -> t + k < length p -> reached p (wuw_term p m t k) (win_size p)
           = normal (length p) (win_size p) (offsets p) (weight_of p m) t (t + k).
Proof.
  intros W Hk. unfold normal. rewrite <-(reached_over p _ t W).
  - apply sum_ext. intros i _. apply sum_ext. intros j _. unfold wuw_term, offsets.
    rewrite (proj2 (Z.ltb_lt (t + k) _)), andb_true_r by done.
    replace (t - (t + j)) with (- j) by lia. by replace (t + k - (t + j)) with (k - j) by lia.
  - intros i s Hi Hs Ho. unfold offsets. rewrite window_outside by (done || lia). ring.
Qed.

(** the statistics of a stream as MAGE lays them out: the first window is the
    static one, and its features are observed in every frame *)
Record regular (p : t F) : Prop := {
  regular_static : win_l_width p !! 0%nat = Some 0 /\ win_r_width p !! 0%nat = Some 0 /\
    win_coefficient p 0 0 <> nZ 0;
  regular_width : forall i r, win_r_width p !! i = Some r -> 2 * r < width p;
  regular_weights : forall m i s, 0 <= m < static_length p -> 0 <= i < win_size p ->
    0 <= s < length p -> nonneg (weight_of p m i s);
  regular_observed : forall m s, 0 <= m < static_length p -> 0 <= s < length p ->
    weight_of p m 0 s <> nZ 0
}.

Lemma regular_windows p : fit p -> regular p -> 0 < win_size p.
Proof.
  intros W R. destruct (fit_windows _ W) as (Nl & _). destruct (regular_static _ R) as (E & _).
  apply lookup_lt_Some in E. unfold zlen in Nl. lia.
Qed.

Lemma static_window p s t :
  fit p -> regular p -> if t =? s then offsets p 0 s t <> nZ 0 else offsets p 0 s t = nZ 0.
Proof.
  intros W R. destruct (regular_static _ R) as (El & Er & Hc). unfold offsets, window.
  change (Z.to_nat 0) with 0%nat. rewrite El, Er. destruct (Z.eqb_spec t s) as [->|Hne].
  - by rewrite Z.sub_diag.
  - destruct (Z.leb_spec 0 (t - s)), (Z.leb_spec (t - s) 0); lia || done.
Qed.

Lemma normal_sym T n (w : Z -> Z -> Z -> F) v t r : normal T n w v t r = normal T n w v r t.
Proof. apply over_ext. intros. ring. Qed.

(** the band holds the whole matrix *)
Lemma band_normal p m t r :
  fit p -> regular p -> 0 <= t < length p -> 0 <= r < length p ->
  full (width p) (fun t k => reached p (wuw_term p m t k) (win_size p)) t r
  = normal (length p) (win_size p) (offsets p) (weight_of p m) t r.
Proof.
  intros W R Ht Hr. unfold full. case Z.ltb_spec; intros Hd.
  - rewrite wuw_normal by (done || lia). destruct (Z.le_ge_cases t r).
    + rewrite Z.min_l by lia. f_equal. lia.
    + rewrite Z.min_r, normal_sym by lia. f_equal. lia.
  - symmetry. apply sum_zero. intros i Hi. apply sum_zero. intros s Hs. unfold offsets.
    destruct (widths_of p i W Hi) as (_ & Er & _ & _). apply rd_inv in Er as [_ Er].
    pose proof (regular_width _ R _ _ Er).
    destruct (decide (right_of p i < Z.abs (t - s))).
    + rewrite (window_outside p i (t - s)) by (done || lia). ring.
    + rewrite (window_outside p i (r - s)) by (done || lia). ring.
Qed.

(** the normal equations of dimension [m] *)
Definition solves (p : t F) (m : Z) (x : Z -> F) : Prop :=
  forall t, 0 <= t < length p -> sum 0 (length p) (fun r =>
     normal (length p) (win_size p) (offsets p) (weight_of p m) t r * x r)%num
   = rhs (length p) (win_size p) (offsets p) (weight_of p m) (mean_of p m) t.

(** a trajectory that is nearer to the means than any other *)
Definition nearest (p : t F) (m : Z) (x : Z -> F) : Prop :=
  forall c, nleb (distance p m x) (distance p m c) = true /\
    (distance p m c = distance p m x -> forall t, 0 <= t < length p -> c t = x t).

Lemma solution_nearest p m x :
  fit p -> regular p -> 0 <= m < static_length p -> solves p m x -> nearest p m x.
Proof.
  intros W R Hm Hx c. apply squares_least.
  - intros. by apply regular_weights.
  - by apply regular_windows.
  - intros. by apply static_window.
  - intros. by apply regular_observed.
  - exact Hx.
Qed.

(** [column p m]: the trajectory of dimension [m] *)
Definition column (p : t F) (m t : Z) : F := ent (par p) t m.

Lemma like_regular p p' : like p p' -> regular p -> regular p'.
Proof. intros (x & gg & a & b & -> & _) []. by split. Qed.

Lemma like_solves p p' m x : like p p' -> solves p' m x <-> solves p m x.
Proof. by intros (? & ? & ? & ? & -> & _). Qed.

Lemma solves_ext p m x y : (forall t, 0 <= t < length p -> x t = y t) -> solves p m x -> solves p m y.
Proof.
  intros E Hx t Ht. rewrite <-(Hx t Ht). apply sum_ext. intros r Hr. by rewrite E.
Qed.

(** the memory of the equations, against the sums they stand for *)
Lemma holds_full p m p' t r :
  fit p -> regular p -> 0 <= t < length p -> 0 <= r < length p ->
  holds p (fun t k => reached p (wuw_term p m t k) (win_size p))
          (fun t => reached p (wum_term p m t) (win_size p)) p' ->
  full (width p) (ent (wuw p')) t r
    = normal (length p) (win_size p) (offsets p) (weight_of p m) t r /\
  vent (wum p') t = rhs (length p) (win_size p) (offsets p) (weight_of p m) (mean_of p m) t.
Proof.
  intros W R Ht Hr (a & b & -> & _ & _ & Ha & Hb). cbn [wuw wum with_memory].
  rewrite <-band_normal, <-wum_rhs, Hb by done. split; [|done]. unfold full.
  case Z.ltb_spec; intros; [apply Ha; lia|done].
Qed.

(** one dimension: the equations are set up and solved *)
Lemma dimension_solved p m :
  fit p -> regular p -> 0 <= m < static_length p ->
  yields (p1 ← HTS_PStream_calc_wuw_and_wum p m; solve p1 m) (fun p2 => like p p2 /\
    solves p m (column p2 m) /\
    forall t j, 0 <= t -> 0 <= j -> j <> m -> ent (par p2) t j = ent (par p) t j).
Proof.
  intros W R Hm. eapply yields_bind; [by apply calc_wuw_and_wum_holds|].
  intros p1 Hh. pose proof (holds_like _ _ _ _ Hh) as L1. pose proof (like_fit _ _ L1 W) as W1.
  assert (Hm1 : 0 <= m < static_length p1) by by rewrite (like_static _ _ L1).
  assert (Sz : sized p1 (static_length p1)) by (destruct W1; repeat (split; [tauto|]); done).
  eapply yields_mono; [eapply yields_and; [by apply solve_like|by apply (solve_solved p1 m _ Sz)]|].
  intros p2 [L2 (Oc & Fa & Eq)].
  assert (Fu : forall t r, 0 <= t < length p -> 0 <= r < length p -> full (width p) (ent (wuw p1)) t r
    = normal (length p) (win_size p) (offsets p) (weight_of p m) t r).
  { intros t r Ht Hr. by apply (holds_full p m p1). }
  assert (Bu : forall t, 0 <= t < length p -> vent (wum p1) t
    = rhs (length p) (win_size p) (offsets p) (weight_of p m) (mean_of p m) t).
  { intros t Ht. by apply (holds_full p m p1 t t). }
  pose proof Hh as (a & b & -> & _). split; [by eapply like_trans|]. split; [|exact Oc].
  cbn [length width wuw wum par with_memory] in *.
  destruct Fa as (D2 & _ & La). pose proof (fit_width _ W) as Hw.
  intros t Ht. rewrite <-Bu by done. rewrite <-Eq; [|clear t Ht|done].
  - apply sum_ext. intros r Hr. by rewrite Fu by done.
  - apply (pivots_nonzero (length p) (win_size p) (offsets p) (weight_of p m)) with
      (bw := width p) (A := ent a) (u := ent (wuw p2)); try done.
    + intros. by apply regular_weights.
    + by apply regular_windows.
    + intros. by apply static_window.
    + intros. by apply regular_observed.
    + intros t Ht. by apply La.
    + intros t i Ht Hi. by apply La.
Qed.

(** ** Weights from variances *)

(** a variance of which the inverse is a positive weight *)
Definition proper (x : F) : Prop := nonneg x /\ x <> nZ 0 /\ nleb INFTY2 x = false.

Lemma HTS_finv_positive x : proper x -> nonneg (HTS_finv x) /\ HTS_finv x <> nZ 0.
Proof.
  intros (Hx & Nx & Hi). unfold HTS_finv. rewrite Hi.
  assert (P : forall e, 0 <= e -> nonneg (ndec 1 e : F)).
  { intros e He. rewrite ndec_int by done. apply nonneg_nZ. lia. }
  destruct (nleb x (- INFTY2)%num) eqn:En.
  { rewrite nleb_nonneg in En. destruct Nx. apply nonneg_antisym; [done|].
    replace (- x)%num with ((- INFTY2 - x) + INFTY2)%num by ring.
    apply nonneg_add; [done|by apply P]. }
  destruct (nleb x INVINF2 && nleb (nZ 0) x)%num eqn:Es.
  - split; [by apply P|]. unfold INFTY. rewrite ndec_int by lia. by apply nZ_0_neq.
  - rewrite (nltb_nleb x). rewrite Hx. rewrite andb_false_r. by apply nonneg_inverse.
Qed.
End Streams.

End Likelihood.
