(* ===== verification/Generation.v ===== *)
(** * The parameter generation as a whole (HTS_PStream_mlpg)

    [Likelihood] shows that the solution of a dimension is its most likely
    trajectory.  Here the routine is put together: the dimensions one after the
    other, and the steps for the global variance, which move only the frames
    that are switched on.  MAGE switches none on ([Model.computeGlobalVariances]),
    so the steps leave the solution as it is. *)

From Stdlib Require Import Field QArith Qcanon.
From S2P Require Import Prelude Num Sums Matrix Mlpg Likelihood.
#[local] Open Scope Z_scope.

Module Generation.
Import Mlpg Likelihood.

Section Generation.
Context {F : Type} `{NumOrdered F}.
Add Field generation_field : num_field.
#[local] Open Scope num_scope.
#[local] Open Scope Z_scope.

(** ** The product with the band *)

(** row [t] of the band, against the trajectory of dimension [m] *)
Definition row_product (p : t F) (m t : Z) : F :=
  sum 0 (length p) (fun r => full (width p) (ent (wuw p)) t r * ent (par p) r m)%num.

Lemma row_product_sides p m t :
  0 <= t < length p -> 1 <= width p ->
  row_product p m t = nadd (ent (wuw p) t 0 * ent (par p) t m)%num
    (sum 1 (width p) (fun i =>
       nadd (if t + i <? length p then (ent (wuw p) t i * ent (par p) (t + i) m)%num else nZ 0)
            (if i <? t + 1 then (ent (wuw p) (t - i) i * ent (par p) (t - i) m)%num else nZ 0))).
Proof.
  intros Ht Hw.
  pose proof (sum_sides (length p) (width p) t
    (fun r => ent (wuw p) (Z.min t r) (Z.abs (t - r)) * ent (par p) r m)%num Ht Hw) as E.
  unfold row_product. etransitivity; [etransitivity; [|exact E]|].
  - apply sum_ext. intros r _. unfold full. case Z.ltb_spec; intros; [done|ring].
  - cbn beta. rewrite Z.min_id, Z.sub_diag. f_equal. apply sum_ext. intros i Hi.
    replace (Z.min t (t + i)) with t by lia. replace (Z.abs (t - (t + i))) with i by lia.
    replace (Z.min t (t - i)) with (t - i) by lia. by replace (Z.abs (t - (t - i))) with i by lia.
Qed.

(** [l'] is [l] with [x] at [ti] *)
Definition with_at (l : list F) (ti : Z) (x : F) (l' : list F) : Prop :=
  zlen l' = zlen l /\ forall t, 0 <= t -> vent l' t = if t =? ti then x else vent l t.

Lemma with_at_write l ti x :
  0 <= ti < zlen l -> yields (wr l ti x) (with_at l ti x).
Proof.
  intros Ht. rewrite wr_ok by done. apply yields_ok. split; [by rewrite zlen_insert|].
  intros t Ht'. rewrite vent_insert by lia. by case_bool_decide; case Z.eqb_spec.
Qed.

Lemma with_at_add l ti x l' v :
  0 <= ti < zlen l -> with_at l ti x l' ->
  yields (upd l' ti (fun y => Ok (y + v)%num)) (with_at l ti (x + v)%num).
Proof.
  intros Ht [L V]. eapply yields_mono; [eapply yields_and;
    [apply upd_len; [lia|intros; by apply yields_ok]|
     eapply (upd_vput (zlen l)); [lia|lia|reflexivity]]|].
  intros l2 [L2 [_ V2]]. split; [congruence|]. intros t Ht'. rewrite V2, !V by lia.
  rewrite Z.eqb_refl. case_bool_decide; case Z.eqb_spec; done.
Qed.

Lemma with_at_eq l ti x x' l' : x = x' -> with_at l ti x l' -> with_at l ti x' l'.
Proof. by intros ->. Qed.

(** an entry added under a condition *)
Lemma with_at_product p m l ti x l' (b : bool) r k :
  fit p -> 0 <= m < static_length p -> 0 <= ti < zlen l -> with_at l ti x l' ->
  (b = true -> 0 <= r < length p /\ 0 <= Z.min ti r < length p /\ 0 <= k < width p) ->
  yields (if b then
            a ← rd2 (wuw p) (Z.min ti r) k; y ← rd2 (par p) r m;
            upd l' ti (fun z => Ok (z + a * y)%num)
          else Ok l')
    (with_at l ti (x + if b then ent (wuw p) (Z.min ti r) k * ent (par p) r m else nZ 0)%num).
Proof.
  intros W Hm Ht Hl Hb. destruct b.
  - destruct Hb as (Hr & Hr' & Hk); [done|].
    rewrite (rd2_ent _ _ (wuw p) _ _ (fit_wuw _ W)), bind_Ok by done.
    rewrite (rd2_ent _ _ (par p) _ _ (fit_par _ W)), bind_Ok by done. by apply with_at_add.
  - apply yields_ok. eapply with_at_eq; [|exact Hl]. ring.
Qed.

Lemma apply_band_spec p m :
  fit p -> 0 <= m < static_length p ->
  yields (apply_band p m) (fun gg => zlen gg = zlen (g p) /\
    forall t, 0 <= t < length p -> vent gg t = row_product p m t).
Proof.
  intros W Hm. pose proof W as [[Hn _] Hw _ D _ Hg Dx _ _ _ _].
  unfold apply_band. apply (for_up_yields (fun n gg => zlen gg = zlen (g p) /\
    forall t, 0 <= t < n -> vent gg t = row_product p m t)); [done|split; [done|lia]|].
  intros ti gg Ht [L V].
  rewrite (rd2_ent _ _ (wuw p) _ _ D), bind_Ok by lia.
  rewrite (rd2_ent _ _ (par p) _ _ Dx), bind_Ok by lia.
  eapply yields_bind; [apply with_at_write; lia|]. intros g0 W0.
  set (term i := nadd (if ti + i <? length p then (ent (wuw p) ti i * ent (par p) (ti + i) m)%num else nZ 0)
            (if i <? ti + 1 then (ent (wuw p) (ti - i) i * ent (par p) (ti - i) m)%num else nZ 0)).
  set (x0 := (ent (wuw p) ti 0 * ent (par p) ti m)%num) in *.
  eapply yields_mono; [apply (for_up_yields (fun i => with_at gg ti (x0 + sum 1 i term)%num))|].
  - lia.
  - eapply with_at_eq; [|exact W0]. rewrite sum_nil by lia. ring.
  - intros i g1 Hi W1. rewrite sum_snoc by lia.
    pose proof (with_at_product p m gg ti _ g1 (ti + i <? length p) (ti + i) i W Hm ltac:(lia) W1) as Up.
    rewrite Z.min_l in Up by lia.
    eapply yields_bind; [apply Up; intros B%Z.ltb_lt; lia|]. intros g2 W2.
    pose proof (with_at_product p m gg ti _ g2 (i <? ti + 1) (ti - i) i W Hm ltac:(lia) W2) as Down.
    rewrite Z.min_r in Down by lia.
    eapply yields_mono; [apply Down; intros B%Z.ltb_lt; lia|]. intros g3. apply with_at_eq.
    unfold term. ring.
  - intros g1 [L1 V1]. split; [congruence|]. intros t Ht'. rewrite V1 by lia. case Z.eqb_spec; intros.
    + subst t. by rewrite row_product_sides by lia.
    + apply V. lia.
Qed.

(** ** The steps for the global variance, with every frame switched off *)

Definition unswitched (p : t F) : Prop :=
  forall t s, 0 <= t < length p -> gv_switch p !! Z.to_nat t = Some s -> s = false.

Lemma unswitched_rd p t :
  fit p -> unswitched p -> 0 <= t < length p -> rd (gv_switch p) t = Ok false.
Proof.
  intros W U Ht. pose proof (fit_gv _ W) as (_ & _ & Ls).
  destruct (yields_rd (gv_switch p) t) as (s & E & Es); [lia|]. by rewrite E, (U t s Ht Es).
Qed.

Lemma like_unswitched p p' : like p p' -> unswitched p -> unswitched p'.
Proof. by intros (? & ? & ? & ? & -> & _). Qed.

Lemma conv_gv_unswitched p m :
  fit p -> 0 <= m < static_length p -> unswitched p -> HTS_PStream_conv_gv p m = Ok p.
Proof.
  intros W Hm U. pose proof (fit_length _ W) as [Hn _]. pose proof (fit_gv _ W) as (Lm & _).
  unfold HTS_PStream_conv_gv.
  destruct (calc_gv_yields p m W Hm) as ([mu va] & -> & _). rewrite bind_Ok.
  destruct (yields_rd (gv_mean p) m) as (gm & -> & _); [lia|]. rewrite bind_Ok.
  destruct (for_up_yields (fun _ x => x = par p) 0 (length p) (fun t x =>
    s ← rd (gv_switch p) t;
    if s : bool then upd2 x t m (fun v => Ok (nsqrt (gm / va) * (v - mu) + mu)%num) else Ok x)
    (par p)) as (x & E & ->); [done|done| |].
  { intros t x Ht ->. rewrite unswitched_rd, bind_Ok by done. by apply yields_ok. }
  cbn zeta. rewrite E, bind_Ok. by destruct p.
Qed.

(** at a solution of its own equations, the derivative is zero *)
Definition balanced (p : t F) (m : Z) : Prop :=
  forall t, 0 <= t < length p -> row_product p m t = vent (wum p) t.

Lemma calc_derivative_balanced p m :
  fit p -> 0 <= m < static_length p -> unswitched p -> balanced p m ->
  yields (HTS_PStream_calc_derivative p m) (fun r => exists gg, r.2 = p <| g := gg |> /\
    zlen gg = zlen (g p) /\ forall t, 0 <= t < length p -> vent gg t = nZ 0).
Proof.
  intros W Hm U B. pose proof W as [(Hn & Hsq & Hws) Hw (_ & Hz) D Hb Hg Dx _ _ (Hgm & Hgv & Hs) _].
  unfold HTS_PStream_calc_derivative. rewrite (i32_ok (win_size p * length p)), bind_Ok by nia. cbn zeta.
  eapply yields_bind; [by apply calc_gv_yields|]. intros [mu va] _.
  eapply yields_bind; [apply yields_rd; lia|]. intros gm _.
  eapply yields_bind; [apply yields_rd; lia|]. intros gvv _. cbn zeta.
  eapply yields_bind; [by apply apply_band_spec|]. intros gg [L V].
  rewrite i32_ok, bind_Ok by nia. eapply yields_bind.
  { apply (for_up_yields (fun n r => zlen r.2 = zlen (g p) /\
      forall t, 0 <= t < length p -> vent r.2 t = if t <? n then nZ 0 else vent gg t)); [done|split; [done|]|].
    { intros t Ht. by rewrite (proj2 (Z.ltb_ge t 0)) by lia. }
    intros ti [obj g1] Ht [L1 V1]. cbn [snd] in L1, V1.
    rewrite (rd2_ent _ _ (par p) _ _ Dx), bind_Ok by lia.
    rewrite (rd_vent (wum p)), bind_Ok, (rd_vent g1), bind_Ok by lia.
    rewrite (rd2_ent _ _ (wuw p) _ _ D), bind_Ok by lia. cbn zeta.
    rewrite unswitched_rd, bind_Ok by done. rewrite V1, (proj2 (Z.ltb_ge ti ti)), V, B by lia.
    eapply yields_bind; [apply with_at_write; lia|]. intros g2 [L2 V2]. apply yields_ok. cbn [snd].
    split; [congruence|]. intros t Ht'. rewrite V2, V1 by lia.
    destruct (Z.eqb_spec t ti) as [->|Hne].
    - rewrite (proj2 (Z.ltb_lt _ _)) by lia. ring.
    - case Z.ltb_spec; case Z.ltb_spec; lia || done. }
  intros [obj g2] [L2 V2]. cbn [snd] in L2, V2. apply yields_ok. exists g2. split; [done|].
  split; [done|]. intros t Ht. by rewrite V2, (proj2 (Z.ltb_lt _ _)) by lia.
Qed.

(** [p'] is [p] but for [g], and the memory of [par], which has the same values *)
Definition still (p p' : t F) : Prop :=
  exists x gg, p' = with_memory p x gg (wuw p) (wum p) /\ shape x = shape (par p) /\
    zlen gg = zlen (g p) /\
    forall t j, 0 <= t < length p -> 0 <= j -> ent x t j = ent (par p) t j.

Lemma still_refl p : still p p.
Proof. destruct p. by do 2 eexists. Qed.

Lemma still_like p p' : still p p' -> like p p'.
Proof. intros (x & gg & -> & Sx & Lg & _). by apply like_memory. Qed.

Lemma still_balanced p p' m : still p p' -> 0 <= m -> balanced p m -> balanced p' m.
Proof.
  intros (x & gg & -> & _ & _ & E) Hm B t Ht. cbn [length wum with_memory] in *.
  rewrite <-(B t Ht). unfold row_product. cbn [length width wuw par with_memory].
  apply sum_ext. intros r Hr. by rewrite E.
Qed.

Lemma gv_step_still p0 m st :
  fit p0 -> 0 <= m < static_length p0 -> unswitched p0 -> balanced p0 m -> still p0 st.1.1 ->
  yields (gv_step m st) (fun st' => still p0 st'.1.1).
Proof.
  intros W Hm U B S. destruct st as [[p step] prev]. cbn [fst] in S. unfold gv_step.
  pose proof (still_like _ _ S) as L. pose proof (like_fit _ _ L W) as Wp.
  eapply yields_bind.
  { apply calc_derivative_balanced; [done|by rewrite (like_static _ _ L)|by eapply like_unswitched|].
    eapply still_balanced; [done|lia|done]. }
  intros [obj p2] (gg & E2 & Lg & Zg). cbn [snd] in E2. subst p2. cbn zeta.
  destruct S as (x & g1 & -> & Sx & L1 & E). cbn [length par g wuw wum with_memory] in *.
  pose proof (fit_length _ W) as [Hn _]. pose proof (fit_g _ W) as Gg.
  pose proof (dims_shape _ _ _ _ Sx (fit_par _ W)) as Dx.
  set (step' := if nltb obj prev then _ else _).
  cbn [length par g set_field eta_pstream with_memory]. eapply yields_bind.
  { apply (for_up_yields (fun _ x' => shape x' = shape x /\ forall t j, 0 <= t < length p0 -> 0 <= j ->
      ent x' t j = ent x t j)); [done|done|].
    intros ti x1 Ht [S1 E1]. pose proof (dims_shape _ _ _ _ S1 Dx) as D1.
    eapply yields_mono; [eapply yields_and; [eapply upd2_shape; [exact D1|done|done|]|
      eapply upd2_put; [exact D1|done|done|]]|].
    - intros v. rewrite rd_vent by lia. by apply yields_ok.
    - cbn beta. rewrite rd_vent by lia. reflexivity.
    - intros x2 [S2 [_ P2]]. split; [congruence|]. intros t j Ht' Hj. rewrite P2 by lia.
      case_bool_decide as C; [|by apply E1]. destruct C as [-> ->].
      rewrite Zg, E1 by lia. ring. }
  intros x2 [S2 Ex2]. apply yields_ok. cbn [fst]. exists x2, gg. split; [done|].
  split; [congruence|]. split; [congruence|]. intros t j Ht Hj. by rewrite Ex2, E.
Qed.

(** the global variance changes nothing *)
Lemma gv_parmgen_unswitched p m :
  fit p -> regular p -> 0 <= m < static_length p -> unswitched p -> solves p m (column p m) ->
  yields (HTS_PStream_gv_parmgen p m) (fun p' => like p p' /\
    forall t j, 0 <= t < length p -> 0 <= j -> ent (par p') t j = ent (par p) t j).
Proof.
  intros W R Hm U Hx. unfold HTS_PStream_gv_parmgen.
  destruct (_ =? 0); [apply yields_ok; split; [apply like_refl|done]|].
  rewrite conv_gv_unswitched, bind_Ok by done.
  eapply yields_bind; [by apply calc_wuw_and_wum_holds|]. intros p2 Hh.
  pose proof (holds_like _ _ _ _ Hh) as L2. pose proof (like_fit _ _ L2 W) as W2.
  assert (Ep : par p2 = par p) by by destruct Hh as (a & b & -> & _).
  assert (B2 : balanced p2 m).
  { intros t Ht. assert (Ht' : 0 <= t < length p) by by destruct Hh as (a & b & -> & _).
    rewrite (proj2 (holds_full p m p2 t t W R Ht' Ht' Hh)), <-(Hx t Ht'). unfold row_product.
    assert (E : length p2 = length p /\ width p2 = width p) by by destruct Hh as (a & b & -> & _).
    destruct E as [-> ->]. apply sum_ext. intros r Hr. unfold column. rewrite Ep.
    by rewrite (proj1 (holds_full p m p2 t r W R Ht' Hr Hh)). }
  eapply yields_bind.
  { apply (for_up_yields (fun _ st => still p2 st.1.1)); [done|apply still_refl|].
    intros i st _ S. apply gv_step_still; try done; [by rewrite (like_static _ _ L2)|by eapply like_unswitched]. }
  intros [[p3 step] prev] S. cbn [fst] in S. apply yields_ok.
  pose proof (still_like _ _ S) as L3. split; [by eapply like_trans|].
  destruct S as (x & gg & -> & _ & _ & E). cbn [par with_memory]. intros t j Ht Hj.
  assert (Ht2 : 0 <= t < length p2) by by destruct Hh as (a & b & -> & _).
  by rewrite E, Ep by done.
Qed.
(** ** The routine *)

Lemma mlpg_nearest (p : t F) :
  fit p -> regular p -> gv_length p = 0 \/ unswitched p ->
  yields (HTS_PStream_mlpg p) (fun p' => like p p' /\
    forall m, 0 <= m < static_length p -> nearest p m (column p' m)).
Proof.
  intros W R Hg. unfold HTS_PStream_mlpg. pose proof (fit_length _ W) as [Hn _].
  case Z.eqb_spec; intros Hz.
  { apply yields_ok. split; [apply like_refl|]. intros m Hm. apply solution_nearest; [done..|].
    intros t Ht. lia. }
  eapply yields_mono; [apply (for_up_yields (fun n p' => like p p' /\
    forall m, 0 <= m < n -> solves p m (column p' m))); [apply W|split; [apply like_refl|lia]|]|].
  2:{ intros p' [L S]. split; [done|]. intros m Hm. by apply solution_nearest; [..|apply S]. }
  intros m p1 Hm [L1 S1]. pose proof (like_fit _ _ L1 W) as W1.
  assert (Hm1 : 0 <= m < static_length p1) by by rewrite (like_static _ _ L1).
  destruct (dimension_solved p1 m W1 (like_regular _ _ L1 R) Hm1) as (p2 & E & L2 & S2 & O2).
  destruct (HTS_PStream_calc_wuw_and_wum p1 m) as [p0| | |] eqn:E0; try done. rewrite bind_Ok in E.
  rewrite bind_Ok, E, bind_Ok. pose proof (like_trans _ _ _ L1 L2) as L.
  assert (S : forall j, 0 <= j < m + 1 -> solves p j (column p2 j)).
  { intros j Hj. destruct (decide (j = m)) as [->|]; [by apply (like_solves p p1)|].
    eapply solves_ext; [|apply (S1 j); lia]. intros t Ht. symmetry. apply O2; lia. }
  destruct (Z.ltb_spec 0 (gv_length p2)) as [Hp|]; [|by apply yields_ok].
  assert (U2 : unswitched p2).
  { destruct Hg as [Hg|U]; [|by eapply like_unswitched].
    assert (gv_length p2 = gv_length p) by by destruct L as (? & ? & ? & ? & -> & _). lia. }
  eapply yields_mono; [apply (gv_parmgen_unswitched p2 m);
    [by eapply like_fit|by eapply like_regular|by rewrite (like_static _ _ L)|done|]|].
  - apply (like_solves p p2); [done|]. apply S. lia.
  - intros p3 [L3 E3]. split; [by eapply like_trans|]. intros j Hj.
    eapply solves_ext; [|by apply S]. intros t Ht. symmetry. apply E3; [|lia].
    by destruct L as (? & ? & ? & ? & -> & _).
Qed.

(** C7: maximum likelihood.  For a stream that fits its memory, whose weights
    (the inverse variances) are not negative, whose first window is the static
    one, with positive weights, and whose windows are narrower than the band,
    without global variance or with no frame switched on for it, the parameter
    generation returns, on exact numbers, for every dimension the one trajectory
    whose weighted squared distance from the means, over all windows and frames,
    is least: no other trajectory is as near. *)
Theorem mlpg_most_likely (p : t F) :
  fit p -> regular p -> gv_length p = 0 \/ unswitched p ->
  yields (HTS_PStream_mlpg p) (fun p' => like p p' /\
    forall m, 0 <= m < static_length p -> nearest p m (column p' m)).
Proof. apply mlpg_nearest. Qed.
End Generation.

(** ** A concrete stream *)

Section ExactRuns.
#[local] Existing Instance no_qlibm.

(** three frames, the static window and the differences of their neighbours,
    which are not observed at the ends *)
Definition ex_stream : t Qc :=
  mk 1 3 3 (replicate 3 [nZ 0]) [[nZ 1; nZ 0]; [nZ 4; nZ 2]; [nZ 2; nZ 0]]
    [[nZ 1; nZ 0]; [nZ 2; nZ 4]; [nZ 1; nZ 0]] (replicate 3 (nZ 0))
    (replicate 3 (replicate 3 (nZ 0))) (replicate 3 (nZ 0))
    2 [0; -1] [0; 1] (fun i o => if i =? 0 then nZ 1 else ndec (5 * o) (-1))
    [nZ 1] [nZ 1] (replicate 3 false) 3.

Lemma ex_stream_fit : fit ex_stream.
Proof.
  split; try done; try (apply dims_forall; [done|by repeat constructor]).
  split; [done|]. split; [done|]. intros [|[|i]] l r; [| |done]; by intros [= <-] [= <-].
Qed.

Lemma ex_stream_regular : regular ex_stream.
Proof.
  assert (N : forall x : Qc, Qc_eqb x (nZ 0) = false -> x <> nZ 0).
  { intros x Ex E. apply Qc_eqb_eq in E. congruence. }
  assert (S : forall s, 0 <= s < 3 -> s = 0 \/ s = 1 \/ s = 2) by lia.
  split.
  - split; [done|]. split; [done|]. by apply N.
  - intros [|[|i]] r; [| |done]; by intros [= <-].
  - intros m i s Hm Hi Hs. assert (m = 0) as -> by (cbn in Hm; lia).
    assert (i = 0 \/ i = 1) as [-> | ->] by (cbn in Hi; lia);
      destruct (S s Hs) as [-> |[-> | ->]]; vm_compute; done.
  - intros m s Hm Hs. assert (m = 0) as -> by (cbn in Hm; lia).
    destruct (S s Hs) as [-> |[-> | ->]]; by apply N; vm_compute.
Qed.

Lemma ex_stream_unswitched : gv_length ex_stream = 0 \/ unswitched ex_stream.
Proof. right. intros t s _ E. change (gv_switch ex_stream) with (replicate 3 false) in E.
  by apply lookup_replicate in E as [-> _]. Qed.

Lemma mlpg_most_likely_witness :
  yields (HTS_PStream_mlpg ex_stream) (fun p' => like ex_stream p' /\
    forall m, 0 <= m < 1 -> nearest ex_stream m (column p' m)).
Proof. exact (mlpg_most_likely ex_stream ex_stream_fit ex_stream_regular ex_stream_unswitched). Defined.

(** the trajectory it finds *)
Example ex_trajectory :
  (p ← HTS_PStream_mlpg ex_stream; Ok ((fun t => this (column p 0 t)) <$> [0; 1; 2])) = Ok [0; 4; 3]%Q.
Proof. vm_compute. reflexivity. Qed.
End ExactRuns.
End Generation.

