(* ===== verification/Dft.v ===== *)
(** * Discrete Fourier transforms

    The mathematics of [Fft]: complex numbers over exact arithmetic, sums of
    powers of roots of unity, the radix-2 recursion (decimation in frequency)
    whose outputs come in bit-reversed order, and the inverse transform. *)

From Stdlib Require Import Field Ring.
From S2P Require Import Prelude Num.
#[local] Open Scope Z_scope.

(** ** Bit reversal *)

(** the [k] lowest bits of [p] in reverse order *)
Fixpoint rev (k p : nat) : nat :=
  match k with O => O | S k => (2 ^ k * (p mod 2) + rev k (p / 2))%nat end.

Lemma pow2_pos k : (0 < 2 ^ k)%nat.
Proof. apply Nat.neq_0_lt_0, Nat.pow_nonzero. lia. Qed.

Lemma mod2_cases p : (p mod 2 = 0 \/ p mod 2 = 1)%nat.
Proof. pose proof (Nat.mod_upper_bound p 2). lia. Qed.

Lemma rev_lt k p : (rev k p < 2 ^ k)%nat.
Proof.
  revert p. induction k as [|k IH]; intros p; [cbn; lia|]. cbn [rev Nat.pow].
  specialize (IH (p / 2)%nat). destruct (mod2_cases p) as [-> | ->]; lia.
Qed.

Lemma halves p : exists a b, (p = 2 * a + b)%nat /\ (b < 2)%nat.
Proof.
  exists (p / 2)%nat, (p mod 2)%nat. split; [apply Nat.div_mod_eq|apply Nat.mod_upper_bound; lia].
Qed.

Lemma rev_step k a b : (b < 2)%nat -> rev (S k) (2 * a + b) = (2 ^ k * b + rev k a)%nat.
Proof.
  intros Hb. cbn [rev]. replace (2 * a + b)%nat with (b + a * 2)%nat by lia.
  rewrite Nat.Div0.mod_add, Nat.div_add, Nat.mod_small, Nat.div_small by lia. done.
Qed.

(** from the highest bit on *)
Lemma rev_high k p : (p < 2 ^ S k)%nat ->
  rev (S k) p = if (p <? 2 ^ k)%nat then (2 * rev k p)%nat else (2 * rev k (p - 2 ^ k) + 1)%nat.
Proof.
  revert p. induction k as [|k IH]; intros p Hp.
  { cbn in Hp. destruct p as [|[|]]; [done|done|lia]. }
  destruct (halves p) as (a & b & -> & Hb). rewrite rev_step by done.
  rewrite !(Nat.pow_succ_r' 2) in *. rewrite IH by lia. cbv zeta.
  destruct (Nat.ltb_spec a (2 ^ k)), (Nat.ltb_spec (2 * a + b) (2 * 2 ^ k)); try lia.
  - rewrite rev_step by done. lia.
  - replace (2 * a + b - 2 * 2 ^ k)%nat with (2 * (a - 2 ^ k) + b)%nat by lia.
    rewrite rev_step by done. lia.
Qed.

Lemma rev_rev k p : (p < 2 ^ k)%nat -> rev k (rev k p) = p.
Proof.
  revert p. induction k as [|k IH]; intros p Hp; [cbn in *; lia|].
  destruct (halves p) as (a & b & -> & Hb). rewrite Nat.pow_succ_r' in Hp.
  rewrite rev_step by done. pose proof (rev_lt k a).
  specialize (IH a ltac:(lia)). assert (b = 0 \/ b = 1)%nat as [-> | ->] by lia;
    rewrite rev_high by (rewrite Nat.pow_succ_r'; lia).
  - rewrite Nat.mul_0_r, Nat.add_0_l, (proj2 (Nat.ltb_lt _ _)) by done. lia.
  - rewrite (proj2 (Nat.ltb_ge _ _)) by lia.
    replace (2 ^ k * 1 + rev k a - 2 ^ k)%nat with (rev k a) by lia. lia.
Qed.

Section Dft.
Context {F : Type} `{NumField F}.
Add Field dft_field : num_field.

(** ** Complex numbers *)

Definition cpx : Type := F * F.

Definition cre (r : F) : cpx := (r, nZ 0).
Definition c0 : cpx := cre (nZ 0).
Definition c1 : cpx := cre (nZ 1).
Definition ci : cpx := (nZ 0, nZ 1).
Definition cadd (a b : cpx) : cpx := (a.1 + b.1, a.2 + b.2)%num.
Definition csub (a b : cpx) : cpx := (a.1 - b.1, a.2 - b.2)%num.
Definition copp (a : cpx) : cpx := (- a.1, - a.2)%num.
Definition cmul (a b : cpx) : cpx := (a.1 * b.1 - a.2 * b.2, a.1 * b.2 + a.2 * b.1)%num.
Definition conj (a : cpx) : cpx := (a.1, - a.2)%num.
Definition swap (a : cpx) : cpx := (a.2, a.1).

Lemma cpx_ring : ring_theory c0 c1 cadd cmul csub copp (@eq cpx).
Proof.
  split; intros; repeat match goal with a : cpx |- _ => destruct a end;
    cbv [cadd cmul csub copp c0 c1 cre fst snd]; f_equal; ring.
Qed.
Add Ring cpx_ring : cpx_ring.

Declare Scope cpx_scope.
Delimit Scope cpx_scope with C.
#[local] Infix "+" := cadd : cpx_scope.
#[local] Infix "-" := csub : cpx_scope.
#[local] Infix "*" := cmul : cpx_scope.
#[local] Notation "- x" := (copp x) : cpx_scope.

Lemma conj_add a b : conj (a + b)%C = (conj a + conj b)%C.
Proof. destruct a, b; cbv [conj cadd fst snd]; f_equal; ring. Qed.
Lemma conj_mul a b : conj (a * b)%C = (conj a * conj b)%C.
Proof. destruct a, b; cbv [conj cmul fst snd]; f_equal; ring. Qed.
Lemma swap_add a b : swap (a + b)%C = (swap a + swap b)%C.
Proof. done. Qed.
Lemma swap_mul a b : swap (a * b)%C = (swap a * conj b)%C.
Proof. destruct a, b; cbv [swap conj cmul fst snd]; f_equal; ring. Qed.
Lemma swap_swap a : swap (swap a) = a.
Proof. by destruct a. Qed.

(** ** Powers *)

Fixpoint cpow (w : cpx) (n : nat) : cpx :=
  match n with O => c1 | S n => (w * cpow w n)%C end.

Lemma cpow_add w a b : cpow w (a + b) = (cpow w a * cpow w b)%C.
Proof. induction a as [|a IH]; cbn [cpow Nat.add]; [ring|rewrite IH; ring]. Qed.
Lemma cpow_mul w a b : cpow w (a * b) = cpow (cpow w a) b.
Proof.
  induction b as [|b IH]; [by rewrite Nat.mul_0_r|].
  by rewrite Nat.mul_succ_r, Nat.add_comm, cpow_add, IH.
Qed.
Lemma cpow_c1 n : cpow c1 n = c1.
Proof. induction n as [|n IH]; cbn [cpow]; [done|rewrite IH; ring]. Qed.
Lemma cpow_prod a b n : cpow (a * b)%C n = (cpow a n * cpow b n)%C.
Proof. induction n as [|n IH]; cbn [cpow]; [ring|rewrite IH; ring]. Qed.
Lemma conj_pow w n : conj (cpow w n) = cpow (conj w) n.
Proof.
  induction n as [|n IH]; cbn [cpow]; [cbv [conj c1 cre fst snd]; f_equal; ring|].
  by rewrite conj_mul, IH.
Qed.

(** ** Sums *)

Fixpoint csum (n : nat) (f : nat -> cpx) : cpx :=
  match n with O => c0 | S n => (csum n f + f n)%C end.

Lemma csum_ext n f g : (forall i, (i < n)%nat -> f i = g i) -> csum n f = csum n g.
Proof.
  induction n as [|n IH]; intros E; [done|]. cbn [csum]. rewrite IH by auto with lia.
  by rewrite E by lia.
Qed.
Lemma csum_zero n f : (forall i, (i < n)%nat -> f i = c0) -> csum n f = c0.
Proof.
  induction n as [|n IH]; intros E; [done|]. cbn [csum]. rewrite IH, E by auto with lia. ring.
Qed.
Lemma csum_add n f g : csum n (fun i => f i + g i)%C = (csum n f + csum n g)%C.
Proof. induction n as [|n IH]; cbn [csum]; [ring|rewrite IH; ring]. Qed.
Lemma csum_mul n f c : csum n (fun i => c * f i)%C = (c * csum n f)%C.
Proof. induction n as [|n IH]; cbn [csum]; [ring|rewrite IH; ring]. Qed.
Lemma csum_split a b f : csum (a + b) f = (csum a f + csum b (fun i => f (a + i)%nat))%C.
Proof.
  induction b as [|b IH]; [rewrite Nat.add_0_r; cbn [csum]; ring|].
  rewrite Nat.add_succ_r. cbn [csum]. rewrite IH. ring.
Qed.
Lemma csum_halves n f :
  csum (2 * n) f = csum n (fun i => f i + f (i + n)%nat)%C.
Proof.
  replace (2 * n)%nat with (n + n)%nat by lia. rewrite csum_split, csum_add. f_equal.
  apply csum_ext. intros. f_equal. lia.
Qed.
Lemma csum_pairs n f :
  csum (2 * n) f = csum n (fun i => f (2 * i)%nat + f (2 * i + 1)%nat)%C.
Proof.
  induction n as [|n IH]; [done|]. replace (2 * S n)%nat with (S (S (2 * n))) by lia.
  cbn [csum]. rewrite IH. replace (2 * n + 1)%nat with (S (2 * n)) by lia. ring.
Qed.
Lemma csum_exchange a b (f : nat -> nat -> cpx) :
  csum a (fun i => csum b (f i)) = csum b (fun j => csum a (fun i => f i j)).
Proof.
  induction a as [|a IH]; cbn [csum]; [by rewrite csum_zero|]. by rewrite IH, <-csum_add.
Qed.
Lemma csum_single n f k :
  (k < n)%nat -> (forall i, (i < n)%nat -> i <> k -> f i = c0) -> csum n f = f k.
Proof.
  intros Hk Hz. replace n with (k + S (n - S k))%nat by lia. rewrite csum_split.
  rewrite csum_zero by (intros; apply Hz; lia).
  replace (S (n - S k)) with (1 + (n - S k))%nat by lia. rewrite csum_split. cbn [csum].
  rewrite Nat.add_0_r, csum_zero by (intros; apply Hz; lia). ring.
Qed.
Lemma conj_sum n f : conj (csum n f) = csum n (fun i => conj (f i)).
Proof.
  induction n as [|n IH]; cbn [csum]; [cbv [conj c0 cre fst snd]; f_equal; ring|].
  by rewrite conj_add, IH.
Qed.
Lemma swap_sum n f : swap (csum n f) = csum n (fun i => swap (f i)).
Proof. induction n as [|n IH]; cbn [csum]; [done|]. by rewrite swap_add, IH. Qed.

(** ** The transform *)

Definition dft (n : nat) (w : cpx) (f : nat -> cpx) (k : nat) : cpx :=
  csum n (fun j => f j * cpow w (j * k))%C.

(** a root of unity of order [2 ^ k] *)
Definition root (k : nat) (w : cpx) : Prop :=
  match k with O => w = c1 | S k => cpow w (2 ^ k) = copp c1 end.

Lemma root_square k w : root (S k) w -> root k (w * w)%C.
Proof.
  unfold root. destruct k as [|k]; intros E.
  - cbn [Nat.pow cpow] in E. replace w with (w * c1)%C by ring. rewrite E. ring.
  - rewrite Nat.pow_succ_r', cpow_mul in E. cbn [cpow] in E. rewrite <-E. f_equal. ring.
Qed.

Lemma root_one k w : root k w -> cpow w (2 ^ k) = c1.
Proof.
  destruct k as [|k]; cbn [root]; intros E; [rewrite E; apply cpow_c1|].
  replace (2 ^ S k)%nat with (2 ^ k + 2 ^ k)%nat by (cbn [Nat.pow]; lia).
  rewrite cpow_add, E. ring.
Qed.

(** the two halves of a transform *)
Lemma dft_even k w f r :
  root (S k) w ->
  dft (2 ^ S k) w f (2 * r)
  = dft (2 ^ k) (w * w)%C (fun j => f j + f (j + 2 ^ k)%nat)%C r.
Proof.
  intros R. unfold dft. rewrite Nat.pow_succ_r', csum_halves. apply csum_ext. intros j Hj.
  replace ((j + 2 ^ k) * (2 * r))%nat with (2 * (j * r) + 2 ^ S k * r)%nat
    by (cbn [Nat.pow]; lia).
  replace (j * (2 * r))%nat with (2 * (j * r))%nat by lia.
  rewrite cpow_add, !cpow_mul, root_one, cpow_c1 by done. cbn [cpow].
  replace (w * (w * c1))%C with (w * w)%C by ring. ring.
Qed.

Lemma dft_odd k w f r :
  root (S k) w ->
  dft (2 ^ S k) w f (2 * r + 1)
  = dft (2 ^ k) (w * w)%C (fun j => (f j - f (j + 2 ^ k)%nat) * cpow w j)%C r.
Proof.
  intros R. pose proof R as E. cbn [root] in E. unfold dft.
  rewrite Nat.pow_succ_r', csum_halves. apply csum_ext. intros j Hj.
  replace ((j + 2 ^ k) * (2 * r + 1))%nat with (2 * (j * r) + 2 ^ S k * r + j + 2 ^ k)%nat
    by (cbn [Nat.pow]; lia).
  replace (j * (2 * r + 1))%nat with (2 * (j * r) + j)%nat by lia.
  rewrite !cpow_add, !cpow_mul, root_one, cpow_c1, E by done. cbn [cpow].
  replace (w * (w * c1))%C with (w * w)%C by ring. ring.
Qed.

(** ** Decimation in frequency *)

(** one stage: the blocks of [2 * h] points are combined with their halves *)
Definition stage (h : nat) (w : cpx) (f : nat -> cpx) (q : nat) : cpx :=
  if (q mod (2 * h) <? h)%nat then (f q + f (q + h)%nat)%C
  else ((f (q - h)%nat - f q) * cpow w (q mod h))%C.

(** the stages of a block of [2 ^ k] points *)
Fixpoint stages (k : nat) (w : cpx) (f : nat -> cpx) : nat -> cpx :=
  match k with
  | O => f
  | S k => stages k (w * w)%C (stage (2 ^ k) w f)
  end.

Lemma stages_dft k w f b p :
  root k w -> (p < 2 ^ k)%nat ->
  stages k w f (b * 2 ^ k + p) = dft (2 ^ k) w (fun j => f (b * 2 ^ k + j)%nat) (rev k p).
Proof.
  revert w f b p. induction k as [|k IH]; intros w f b p R Hp.
  { cbn in Hp. assert (p = O) as -> by lia. unfold dft. cbn. ring. }
  pose proof (pow2_pos k) as P0. rewrite Nat.pow_succ_r' in Hp. cbn [stages].
  assert (Em : forall h j, (j < 2 * 2 ^ k)%nat -> (h = b * (2 * 2 ^ k))%nat ->
    ((h + j) mod (2 * 2 ^ k) = j)%nat /\ (j < 2 ^ k -> (h + j) mod 2 ^ k = j)%nat /\
    (2 ^ k <= j -> (h + j) mod 2 ^ k = j - 2 ^ k)%nat).
  { intros h j Hj ->. rewrite Nat.add_comm, Nat.Div0.mod_add, Nat.mod_small by done.
    split; [done|]. replace (j + b * (2 * 2 ^ k))%nat with (j + (b * 2) * 2 ^ k)%nat by lia.
    rewrite Nat.Div0.mod_add. split; intros; [by rewrite Nat.mod_small|].
    replace j with (j - 2 ^ k + 1 * 2 ^ k)%nat at 1 by lia.
    by rewrite Nat.Div0.mod_add, Nat.mod_small by lia. }
  rewrite rev_high by (rewrite Nat.pow_succ_r'; lia). rewrite (Nat.pow_succ_r' 2 k) at 1.
  destruct (Nat.ltb_spec p (2 ^ k)) as [Hl|Hl].
  - rewrite dft_even by done.
    replace (b * (2 * 2 ^ k) + p)%nat with ((2 * b) * 2 ^ k + p)%nat by lia.
    rewrite IH by (try apply root_square; done).
    apply csum_ext. intros j Hj. f_equal. unfold stage.
    replace (2 * b * 2 ^ k + j)%nat with (b * (2 * 2 ^ k) + j)%nat by lia.
    destruct (Em (b * (2 * 2 ^ k))%nat j) as (-> & _); [lia|done|].
    rewrite (proj2 (Nat.ltb_lt _ _)), Nat.pow_succ_r' by done. f_equal. f_equal. lia.
  - rewrite dft_odd by done.
    replace (b * (2 * 2 ^ k) + p)%nat with ((2 * b + 1) * 2 ^ k + (p - 2 ^ k))%nat by lia.
    rewrite IH by (try apply root_square; try done; lia).
    apply csum_ext. intros j Hj. f_equal. unfold stage.
    replace ((2 * b + 1) * 2 ^ k + j)%nat with (b * (2 * 2 ^ k) + (2 ^ k + j))%nat by lia.
    destruct (Em (b * (2 * 2 ^ k))%nat (2 ^ k + j)%nat) as (-> & _ & Ej); [lia|done|].
    rewrite Ej, (proj2 (Nat.ltb_ge _ _)), Nat.pow_succ_r' by lia.
    replace (2 ^ k + j - 2 ^ k)%nat with j by lia.
    f_equal. f_equal; f_equal; lia.
Qed.

(** ** The inverse transform *)

Lemma csum_one n : csum n (fun _ => c1) = cre (nZ (Z.of_nat n)).
Proof.
  induction n as [|n IH]; [done|]. cbn [csum]. rewrite IH, Nat2Z.inj_succ, <-Z.add_1_r, nZ_add.
  cbv [cadd c1 cre fst snd]. f_equal. ring.
Qed.

Lemma root_sum k w d :
  root k w -> (0 < d < 2 ^ k)%nat -> csum (2 ^ k) (cpow (cpow w d)) = c0.
Proof.
  revert w d. induction k as [|k IH]; intros w d R Hd; [cbn in Hd; lia|].
  rewrite Nat.pow_succ_r' in *. rewrite csum_pairs.
  assert (E : csum (2 ^ k) (fun i => cpow (cpow w d) (2 * i) + cpow (cpow w d) (2 * i + 1))%C
    = ((c1 + cpow w d) * csum (2 ^ k) (cpow (cpow (w * w) d)))%C).
  { rewrite <-csum_mul. apply csum_ext. intros i Hi.
    rewrite cpow_add, cpow_mul, cpow_prod. cbn [cpow].
    replace (cpow w d * (cpow w d * c1))%C with (cpow w d * cpow w d)%C by ring. ring. }
  rewrite E. destruct (lt_eq_lt_dec d (2 ^ k)) as [[Hl|He]|Hg].
  - rewrite IH by (try apply root_square; done || lia). ring.
  - cbn [root] in R. rewrite He, R. ring.
  - replace d with (2 ^ k + (d - 2 ^ k))%nat at 2 by lia.
    rewrite cpow_add, (root_one k) by by apply root_square.
    replace (c1 * cpow (w * w) (d - 2 ^ k))%C with (cpow (w * w)%C (d - 2 ^ k)) by ring.
    rewrite IH by (try apply root_square; done || lia). ring.
Qed.

Lemma root_inverse k w v : root k w -> (w * v)%C = c1 -> root k v.
Proof.
  destruct k as [|k]; cbn [root]; intros R E.
  - rewrite R in E. rewrite <-E. ring.
  - assert (E2 : (cpow w (2 ^ k) * cpow v (2 ^ k))%C = c1) by by rewrite <-cpow_prod, E, cpow_c1.
    rewrite R in E2. replace (cpow v (2 ^ k)) with (- (- c1 * cpow v (2 ^ k)))%C by ring.
    by rewrite E2.
Qed.

Lemma cpow_cancel w v a b : (w * v)%C = c1 -> (cpow w (a + b) * cpow v b)%C = cpow w a.
Proof.
  intros E. rewrite cpow_add. replace (cpow w a * cpow w b * cpow v b)%C
    with (cpow w a * (cpow w b * cpow v b))%C by ring.
  rewrite <-cpow_prod, E, cpow_c1. ring.
Qed.

(** the transform with the inverse root undoes the transform, but for the factor *)
Lemma dft_inverse k w v f j :
  root k w -> (w * v)%C = c1 -> (j < 2 ^ k)%nat ->
  dft (2 ^ k) v (dft (2 ^ k) w f) j = (cre (nZ (Z.of_nat (2 ^ k))) * f j)%C.
Proof.
  intros R E Hj. pose proof (root_inverse k w v R E) as Rv. unfold dft.
  rewrite (csum_ext _ _ (fun i => csum (2 ^ k) (fun l => f l * cpow (cpow w l * cpow v j) i))%C).
  2: { intros i Hi.
       transitivity (csum (2 ^ k) (fun l => cpow v (i * j) * (f l * cpow w (l * i)))%C).
       - rewrite csum_mul. ring.
       - apply csum_ext. intros l Hl. rewrite cpow_prod, <-!cpow_mul.
         replace (j * i)%nat with (i * j)%nat by lia. ring. }
  rewrite csum_exchange, (csum_single _ _ j Hj).
  - rewrite csum_mul, <-cpow_prod, E, cpow_c1.
    rewrite (csum_ext _ _ (fun _ => c1)) by (intros; apply cpow_c1). rewrite csum_one. ring.
  - intros l Hl Hne. rewrite csum_mul.
    assert (Es : csum (2 ^ k) (cpow (cpow w l * cpow v j)%C) = c0); [|rewrite Es; ring].
    destruct (Nat.lt_total l j) as [Hlt|[->|Hgt]]; [|done|].
    + replace (cpow w l * cpow v j)%C with (cpow v (j - l)); [apply root_sum; [done|lia]|].
      rewrite <-(cpow_cancel v w (j - l) l) by (rewrite <-E; ring).
      replace (j - l + l)%nat with j by lia. ring.
    + replace (cpow w l * cpow v j)%C with (cpow w (l - j)); [apply root_sum; [done|lia]|].
      rewrite <-(cpow_cancel w v (l - j) j) by done. by replace (l - j + j)%nat with l by lia.
Qed.

(** the transform of exchanged parts is the exchanged conjugate transform *)
Lemma dft_swap n w f k : dft n w (fun j => swap (f j)) k = swap (dft n (conj w) f k).
Proof.
  unfold dft. rewrite swap_sum. apply csum_ext. intros j Hj.
  rewrite swap_mul, conj_pow. do 2 f_equal. destruct w; cbv [conj fst snd]. f_equal. ring.
Qed.

(** ** Real signals *)

Lemma conj_conj a : conj (conj a) = a.
Proof. destruct a; cbv [conj fst snd]; f_equal; ring. Qed.
Lemma conj_cre r : conj (cre r) = cre r.
Proof. cbv [conj cre fst snd]. f_equal. ring. Qed.

Lemma dft_real k w (x : nat -> F) j :
  root k w -> (w * conj w)%C = c1 -> (j <= 2 ^ k)%nat ->
  dft (2 ^ k) w (fun n => cre (x n)) (2 ^ k - j) = conj (dft (2 ^ k) w (fun n => cre (x n)) j).
Proof.
  intros R U Hj. unfold dft. rewrite conj_sum. apply csum_ext. intros n Hn.
  rewrite conj_mul, conj_cre, conj_pow. f_equal.
  rewrite <-(cpow_cancel w (conj w) _ (n * j) U).
  replace (n * (2 ^ k - j) + n * j)%nat with (2 ^ k * n)%nat by nia.
  rewrite cpow_mul, (root_one k w R), cpow_c1. ring.
Qed.

(** a real signal of [2 * n] points from the transform of its [n] pairs *)
Lemma dft_pairs k w (x : nat -> F) j :
  root (S k) w ->
  dft (2 ^ S k) w (fun n => cre (x n)) j
  = (dft (2 ^ k) (w * w) (fun n => cre (x (2 * n)%nat)) j
     + cpow w j * dft (2 ^ k) (w * w) (fun n => cre (x (2 * n + 1)%nat)) j)%C.
Proof.
  intros R. unfold dft. rewrite Nat.pow_succ_r', csum_pairs, csum_add. f_equal.
  - apply csum_ext. intros n Hn. f_equal. replace (2 * n * j)%nat with (2 * (n * j))%nat by lia.
    rewrite cpow_mul. cbn [cpow]. f_equal. ring.
  - rewrite <-csum_mul. apply csum_ext. intros n Hn.
    replace ((2 * n + 1) * j)%nat with (2 * (n * j) + j)%nat by lia.
    rewrite cpow_add, cpow_mul. cbn [cpow].
    replace (w * (w * c1))%C with (w * w)%C by ring. ring.
Qed.

Lemma dft_zip n w (a b : nat -> F) j :
  dft n w (fun i => (a i, b i)) j = (dft n w (fun i => cre (a i)) j + ci * dft n w (fun i => cre (b i)) j)%C.
Proof.
  unfold dft. rewrite <-csum_mul, <-csum_add. apply csum_ext. intros i Hi.
  replace (a i, b i) with (cre (a i) + ci * cre (b i))%C; [ring|].
  cbv [cadd cmul ci cre fst snd]. f_equal; ring.
Qed.

(** the separation of the two halves, as [fftr] computes it *)
Lemma dft_split k w (x : nat -> F) (half : F) j :
  root (S k) w -> (w * conj w)%C = c1 -> (half + half)%num = nZ 1 -> (0 < j < 2 ^ k)%nat ->
  let Z := dft (2 ^ k) (w * w)%C (fun n => (x (2 * n)%nat, x (2 * n + 1)%nat)) in
  let c := (cpow w j).1 in
  let s := (- (cpow w j).2)%num in
  let xt := ((Z j).1 - (Z (2 ^ k - j)%nat).1)%num in
  let yt := ((Z j).2 + (Z (2 ^ k - j)%nat).2)%num in
  dft (2 ^ S k) w (fun n => cre (x n)) j
  = (((Z j).1 + (Z (2 ^ k - j)%nat).1 + c * yt - s * xt) * half,
     - (((Z (2 ^ k - j)%nat).2 - (Z j).2 + s * yt + c * xt) * half))%num.
Proof.
  intros R U Hh Hj. cbv zeta. rewrite dft_pairs by done. rewrite !dft_zip.
  assert (R2 : root k (w * w)%C) by by apply root_square.
  assert (U2 : (w * w * conj (w * w))%C = c1).
  { rewrite conj_mul. replace (w * w * (conj w * conj w))%C with ((w * conj w) * (w * conj w))%C by ring.
    rewrite U. ring. }
  rewrite !(dft_real k (w * w)%C (fun n => x (2 * n)%nat)) by (done || lia).
  rewrite !(dft_real k (w * w)%C (fun n => x (2 * n + 1)%nat)) by (done || lia).
  destruct (dft _ _ (fun n => cre (x (2 * n)%nat)) j) as [e f].
  destruct (dft _ _ (fun n => cre (x (2 * n + 1)%nat)) j) as [g h].
  destruct (cpow w j) as [c s]. cbv [cadd cmul conj ci fst snd].
  f_equal.
  - transitivity ((e + (c * g - s * h)) * (half + half))%num; [rewrite Hh|]; ring.
  - transitivity ((f + (c * h + s * g)) * (half + half))%num; [rewrite Hh|]; ring.
Qed.

Lemma dft_ends k w (x : nat -> F) :
  root (S k) w ->
  let Z := dft (2 ^ k) (w * w)%C (fun n => (x (2 * n)%nat, x (2 * n + 1)%nat)) in
  dft (2 ^ S k) w (fun n => cre (x n)) 0 = cre ((Z 0%nat).1 + (Z 0%nat).2)%num /\
  dft (2 ^ S k) w (fun n => cre (x n)) (2 ^ k) = cre ((Z 0%nat).1 - (Z 0%nat).2)%num.
Proof.
  intros R. cbv zeta. rewrite !dft_pairs, !dft_zip by done.
  assert (R2 : root k (w * w)%C) by by apply root_square.
  assert (Real : forall a : nat -> F, exists r, dft (2 ^ k) (w * w)%C (fun n => cre (a n)) 0 = cre r /\
    dft (2 ^ k) (w * w)%C (fun n => cre (a n)) (2 ^ k) = cre r).
  { intros a. exists (dft (2 ^ k) (w * w)%C (fun n => cre (a n)) 0).1.
    assert (E : dft (2 ^ k) (w * w)%C (fun n => cre (a n)) (2 ^ k)
      = dft (2 ^ k) (w * w)%C (fun n => cre (a n)) 0).
    { unfold dft. apply csum_ext. intros n Hn. f_equal.
      by rewrite Nat.mul_0_r, Nat.mul_comm, cpow_mul, (root_one k), cpow_c1. }
    rewrite E. split; [|]; (unfold dft; generalize (2 ^ k)%nat as m; intros m;
      induction m as [|m IH]; [done|]; cbn [csum]; rewrite Nat.mul_0_r; cbn [cpow];
      destruct (csum m _) as [u v]; cbv [cre fst snd cadd cmul c1] in *; injection IH as ->; f_equal; ring). }
  destruct (Real (fun n => x (2 * n)%nat)) as (e & E1 & E2).
  destruct (Real (fun n => x (2 * n + 1)%nat)) as (o & O1 & O2).
  pose proof R as R'. cbn [root] in R'. rewrite E1, E2, O1, O2, R'. cbn [cpow].
  cbv [cre cadd cmul copp ci c1 fst snd]. split; f_equal; ring.
Qed.

End Dft.
