(* ===== verification/Fft.v ===== *)
(** * The fast Fourier transform of SPTK (mage/libs/sptk/fft-sptk.c)

    [fft], [ifft] and [fftr] as mlsacheck calls them: in place on two arrays,
    with a table of sines that is kept between calls.  On exact numbers they
    compute the transforms of [Dft]. *)

From Stdlib Require Import Field.
From S2P Require Import Prelude Num Dft.
#[local] Open Scope Z_scope.

Module Fft.

Section Fft.
Context {F : Type} `{NumOps F}.
#[local] Open Scope num_scope.
#[local] Open Scope Z_scope.

(** the sine of libm *)
Variable sin : F -> F.

Definition M_PI : F := ndec 314159265358979323846 (-20).

(** [dgetmem( leng )] of getmem-sptk.c: zeros; a size that calloc refuses ends
    the process *)
Definition dgetmem (leng : Z) : Res (list F) :=
  if leng <? 0 then Exit 3 else Ok (replicate (Z.to_nat leng) (nZ 0)).

(** ** The table of sines *)

(** [_sintbl] and [maxfftsize] *)
Record tables := mkTables { sintbl : option (list F); maxfftsize : Z }.

Definition make_table (m : Z) : Res (list F) :=
  let tblsize := m - Z.quot m 4 + 1 in
  let arg := (M_PI / nZ m * nZ 2)%num in
  tbl ← dgetmem tblsize;
  tbl ← wr tbl 0 (nZ 0);
  tbl ← for_up 1 tblsize (fun j tbl => wr tbl j (sin (arg * nZ j)%num)) tbl;
  wr tbl (Z.quot m 2) (nZ 0).

(** the table in use for a size: a new one when there is none large enough *)
Definition ensure_table (m : Z) (tb : tables) : Res (list F * tables) :=
  match sintbl tb with
  | Some tbl =>
      if maxfftsize tb <? m then
        tbl ← make_table m; Ok (tbl, mkTables (Some tbl) m)
      else Ok (tbl, tb)
  | None => tbl ← make_table m; Ok (tbl, mkTables (Some tbl) m)
  end.

(** ** The transform *)

(** [checkm( m )]: whether [m] is a power of two, from 4 on *)
Fixpoint checkm_from (fuel : nat) (k m : Z) : Res Z :=
  match fuel with
  | O => Timeout
  | S fuel =>
      if k <=? m then
        if k =? m then Ok 0 else k ← i32 (2 * k); checkm_from fuel k m
      else Ok (-1)
  end.
Definition checkm (m : Z) : Res Z := checkm_from 32 4 m.

(** the two arrays *)
Definition arrays : Type := list F * list F.

(** one butterfly at [xp = &x[p]], [yp = &y[p]] *)
Definition butterfly (tbl : list F) (lmx sinp cosp p : Z) (st : arrays) : Res arrays :=
  let '(x, y) := st in
  a ← rd x p; a' ← rd x (p + lmx);
  b ← rd y p; b' ← rd y (p + lmx);
  let t1 := (a - a')%num in
  let t2 := (b - b')%num in
  x ← wr x p (a + a')%num;
  y ← wr y p (b + b')%num;
  c ← rd tbl cosp; s ← rd tbl sinp;
  x ← wr x (p + lmx) (c * t1 + s * t2)%num;
  y ← wr y (p + lmx) (c * t2 - s * t1)%num;
  Ok (x, y).

(** [for( li = lix; li <= m; li += lix )] with [xp += lix] *)
Fixpoint blocks (fuel : nat) (tbl : list F) (m lix lmx sinp cosp li p : Z) (st : arrays)
    : Res arrays :=
  match fuel with
  | O => Timeout
  | S fuel =>
      if li <=? m then
        st ← butterfly tbl lmx sinp cosp p st;
        li ← i32 (li + lix);
        blocks fuel tbl m lix lmx sinp cosp li (p + lix) st
      else Ok st
  end.

(** [for( j = 0; j < lmx; j++ )]: [sinp] and [cosp] advance by [lf] each round *)
Definition pass (tbl : list F) (mx m lix lmx lf : Z) (st : arrays) : Res arrays :=
  for_up 0 lmx (fun j =>
    blocks (Z.to_nat (m + 1)) tbl m lix lmx (j * lf) (Z.quot mx 4 + j * lf) lix j) st.

(** [for( ; ; )] *)
Fixpoint passes (fuel : nat) (tbl : list F) (mx m lix lf : Z) (st : arrays) : Res arrays :=
  match fuel with
  | O => Timeout
  | S fuel =>
      let lmx := Z.quot lix 2 in
      if lmx <=? 1 then Ok st
      else
        st ← pass tbl mx m lix lmx lf st;
        lf ← i32 (lf + lf);
        passes fuel tbl mx m lmx lf st
  end.

(** the last stage, of neighbours *)
Definition last_pass (m : Z) (st : arrays) : Res arrays :=
  for_up 0 (Z.quot m 2) (fun i '(x, y) =>
    let p := 2 * i in
    a ← rd x p; a' ← rd x (p + 1);
    b ← rd y p; b' ← rd y (p + 1);
    x ← wr x p (a + a')%num;
    y ← wr y p (b + b')%num;
    x ← wr x (p + 1) (a - a')%num;
    y ← wr y (p + 1) (b - b')%num;
    Ok (x, y)) st.

(** [while( li <= j )] *)
Fixpoint next_reversed (fuel : nat) (li j : Z) : Res Z :=
  match fuel with
  | O => Timeout
  | S fuel => if li <=? j then next_reversed fuel (Z.quot li 2) (j - li) else Ok (j + li)
  end.

Definition exchange (i j : Z) (st : arrays) : Res arrays :=
  let '(x, y) := st in
  t1 ← rd x j; t2 ← rd y j;
  a ← rd x i; b ← rd y i;
  x ← wr x j a; y ← wr y j b;
  x ← wr x i t1; y ← wr y i t2;
  Ok (x, y).

Definition bit_reversal (m : Z) (st : arrays) : Res arrays :=
  '(st, _) ← for_up 0 (m - 1) (fun lmx '(st, j) =>
    st ← (if lmx - j <? 0 then exchange lmx j st else Ok st);
    j ← next_reversed 33 (Z.quot m 2) j;
    Ok (st, j)) (st, 0);
  Ok st.

(** the status, the arrays and the tables *)
Definition fft (st : arrays) (m : Z) (tb : tables) : Res (Z * arrays * tables) :=
  r ← checkm m;
  if negb (r =? 0) then Ok (-1, st, tb)
  else
    '(tbl, tb) ← ensure_table m tb;
    st ← passes (Z.to_nat m) tbl (maxfftsize tb) m m (Z.quot (maxfftsize tb) m) st;
    st ← last_pass m st;
    st ← bit_reversal m st;
    Ok (0, st, tb).

(** the exchanged arrays give the inverse *)
Definition ifft (st : arrays) (m : Z) (tb : tables) : Res (Z * arrays * tables) :=
  '(r, st, tb) ← fft (st.2, st.1) m tb;
  let '(y, x) := st in
  if r =? -1 then Ok (-1, (x, y), tb)
  else
    '(x, y) ← for_up 0 m (fun i '(x, y) =>
      x ← upd x i (fun a => Ok (a / nZ m)%num);
      y ← upd y i (fun b => Ok (b / nZ m)%num);
      Ok (x, y)) (x, y);
    Ok (0, (x, y), tb).

(** ** Real signals *)

(** even and odd elements apart: the real and imaginary parts of half as many *)
Definition separate (mv2 : Z) (st : arrays) : Res arrays :=
  for_up 0 mv2 (fun i '(x, y) =>
    a ← rd x (2 * i); x ← wr x i a;
    b ← rd x (2 * i + 1); y ← wr y i b;
    Ok (x, y)) st.

(** the upper half of the spectrum from the transform of the pairs *)
Definition combine (tbl : list F) (mx m mv2 n : Z) (st : arrays) : Res arrays :=
  for_up 1 mv2 (fun k '(x, y) =>
    let p := k + (mv2 - 2 * k) in
    s ← rd tbl (k * n); c ← rd tbl (Z.quot mx 4 + k * n);
    b ← rd y k; b' ← rd y p; let yt := (b + b')%num in
    a ← rd x k; a' ← rd x p; let xt := (a - a')%num in
    x ← wr x (m - k) ((a + a' + c * yt - s * xt) * ndec 5 (-1))%num;
    y ← wr y (m - k) ((b' - b + s * yt + c * xt) * ndec 5 (-1))%num;
    Ok (x, y)) st.

(** the lower half is its conjugate *)
Definition mirror (m mv2 : Z) (st : arrays) : Res arrays :=
  for_up 1 mv2 (fun k '(x, y) =>
    a ← rd x (m - k); x ← wr x k a;
    b ← rd y (m - k); y ← wr y k (- b)%num;
    Ok (x, y)) st.

(** elements 0 and [m / 2], which are real *)
Definition outer (mv2 : Z) (st : arrays) : Res arrays :=
  let '(x, y) := st in
  a ← rd x 0; b ← rd y 0;
  x ← wr x mv2 (a - b)%num;
  x ← wr x 0 (a + b)%num;
  y ← wr y 0 (nZ 0);
  y ← wr y mv2 (nZ 0);
  Ok (x, y).

Definition fftr (st : arrays) (m : Z) (tb : tables) : Res (Z * arrays * tables) :=
  let mv2 := Z.quot m 2 in
  st ← separate mv2 st;
  '(r, st, tb) ← fft st mv2 tb;
  if r =? -1 then Ok (-1, st, tb)
  else
    '(tbl, tb) ← ensure_table m tb;
    let n := Z.quot (maxfftsize tb) m in
    st ← outer mv2 st;
    st ← combine tbl (maxfftsize tb) m mv2 n st;
    st ← mirror m mv2 st;
    Ok (0, st, tb).

(** ** What the loops compute, element by element *)

Definition dims (n : Z) (st : arrays) : Prop := zlen st.1 = n /\ zlen st.2 = n.

(** the complex number at an index *)
Definition point (st : arrays) (p : nat) : F * F :=
  (default (nZ 0) (st.1 !! p), default (nZ 0) (st.2 !! p)).

Lemma rd_point n st p :
  dims n st -> 0 <= p < n ->
  rd st.1 p = Ok (point st (Z.to_nat p)).1 /\ rd st.2 p = Ok (point st (Z.to_nat p)).2.
Proof.
  intros [L1 L2] Hp. unfold point. cbn [fst snd].
  destruct (yields_rd st.1 p) as (a & E & ->); [lia|].
  destruct (yields_rd st.2 p) as (b & E' & ->); [lia|]. done.
Qed.

(** the arrays after a store of both parts *)
Definition put (st : arrays) (p : nat) (v : F * F) : arrays :=
  (<[p := v.1]> st.1, <[p := v.2]> st.2).

Lemma put_dims n st p v : dims n st -> dims n (put st p v).
Proof. intros [L1 L2]. by split; cbn; rewrite zlen_insert. Qed.

Lemma point_put n st p v q :
  dims n st -> Z.of_nat p < n -> point (put st p v) q = if decide (q = p) then v else point st q.
Proof.
  intros [L1 L2] Hp. unfold point, put, zlen in *. cbn [fst snd].
  destruct (decide (q = p)) as [->|Hne].
  - rewrite !list_lookup_insert_eq by lia. by destruct v.
  - by rewrite !list_lookup_insert_ne by done.
Qed.

(** a butterfly with cosine [c] and sine [s] *)
Definition sums (a b : F * F) : F * F := (a.1 + b.1, a.2 + b.2)%num.
Definition turned (c s : F) (a b : F * F) : F * F :=
  let t1 := (a.1 - b.1)%num in let t2 := (a.2 - b.2)%num in
  (c * t1 + s * t2, c * t2 - s * t1)%num.

Definition entry (tbl : list F) (i : Z) : F := default (nZ 0) (tbl !! Z.to_nat i).

Lemma rd_entry tbl i : 0 <= i < zlen tbl -> rd tbl i = Ok (entry tbl i).
Proof. intros Hi. destruct (yields_rd tbl i Hi) as (x & E & Hx). unfold entry. by rewrite Hx. Qed.

Lemma butterfly_put n tbl h sp cp p st :
  dims n st -> 0 < h -> 0 <= p -> p + h < n -> 0 <= sp < zlen tbl -> 0 <= cp < zlen tbl ->
  butterfly tbl h sp cp p st
  = Ok (put (put st (Z.to_nat p) (sums (point st (Z.to_nat p)) (point st (Z.to_nat (p + h)))))
          (Z.to_nat (p + h))
          (turned (entry tbl cp) (entry tbl sp) (point st (Z.to_nat p)) (point st (Z.to_nat (p + h))))).
Proof.
  intros D Hh Hp Hn Hs Hc. destruct st as [x y]. pose proof D as [L1 L2]. cbn [fst snd] in L1, L2.
  destruct (rd_point n _ p D) as [X1 Y1]; [lia|]. destruct (rd_point n _ (p + h) D) as [X2 Y2]; [lia|].
  unfold butterfly. cbn [fst snd] in X1, Y1, X2, Y2. rewrite X1, X2, Y1, Y2, !bind_Ok. cbn zeta.
  rewrite !(rd_entry tbl) by done.
  by repeat first [rewrite bind_Ok | rewrite wr_ok by (rewrite ?zlen_insert; lia)].
Qed.

(** ** Indices of a stage *)

(** [q] is element [q mod (2 * h)] of block [q / (2 * h)]; its partner is [h] away *)
Definition done (h j b q : nat) : bool :=
  bool_decide (q mod h < j)%nat || bool_decide (q mod h = j /\ q / (2 * h) < b)%nat.

(** the value of a stage at [q]: the sum in the lower half of a block, the
    turned difference in the upper half *)
Definition combined (h : nat) (c s : nat -> F) (f : nat -> F * F) (q : nat) : F * F :=
  if (q mod (2 * h) <? h)%nat then sums (f q) (f (q + h)%nat)
  else turned (c (q mod h)%nat) (s (q mod h)%nat) (f (q - h)%nat) (f q).

Lemma index_parts h b j : (0 < h)%nat -> (j < 2 * h)%nat ->
  ((b * (2 * h) + j) mod (2 * h) = j /\ (b * (2 * h) + j) / (2 * h) = b /\
   (b * (2 * h) + j) mod h = if j <? h then j else j - h)%nat.
Proof.
  intros Hh Hj. rewrite (Nat.add_comm _ j), Nat.Div0.mod_add, Nat.div_add, Nat.mod_small, Nat.div_small by lia.
  split; [done|]. split; [done|]. replace (j + b * (2 * h))%nat with (j + b * 2 * h)%nat by lia.
  rewrite Nat.Div0.mod_add. destruct (Nat.ltb_spec j h); [by apply Nat.mod_small|].
  replace j with (j - h + 1 * h)%nat at 1 by lia. rewrite Nat.Div0.mod_add. apply Nat.mod_small. lia.
Qed.

Lemma index_cases h q : (0 < h)%nat ->
  exists b j, (q = b * (2 * h) + j)%nat /\ (j < 2 * h)%nat.
Proof.
  intros Hh. exists (q / (2 * h))%nat, (q mod (2 * h))%nat. split.
  - pose proof (Nat.div_mod_eq q (2 * h)). lia.
  - apply Nat.mod_upper_bound. lia.
Qed.

(** the arrays during a stage: the elements of [D] are new *)
Definition staged (n : Z) (h M : nat) (c s : nat -> F) (f : nat -> F * F) (D : nat -> bool)
    (st : arrays) : Prop :=
  dims n st /\ forall q, point st q = if (q <? M)%nat && D q then combined h c s f q else f q.

Lemma done_next h j b q : (0 < h)%nat -> (j < h)%nat ->
  done h j (S b) q = done h j b q || bool_decide (q = b * (2 * h) + j \/ q = b * (2 * h) + j + h)%nat.
Proof.
  intros Hh Hj. destruct (index_cases h q Hh) as (b' & j' & -> & Hj').
  destruct (index_parts h b' j' Hh Hj') as (_ & Ed & Em). unfold done. rewrite Ed, Em.
  assert (E : (b' * (2 * h) + j' = b * (2 * h) + j \/ b' * (2 * h) + j' = b * (2 * h) + j + h
    <-> b' = b /\ (j' = j \/ j' = j + h))%nat).
  { split; [|intros [-> ?]; lia]. intros X. destruct (lt_eq_lt_dec b' b) as [[Hl|He]|Hg].
    - assert (b' * (2 * h) + 2 * h <= b * (2 * h))%nat by nia. lia.
    - subst b'. lia.
    - assert (b * (2 * h) + 2 * h <= b' * (2 * h))%nat by nia. lia. }
  apply eq_bool_prop_intro. rewrite !orb_True, !bool_decide_spec, E.
  destruct (Nat.ltb_spec j' h); lia.
Qed.

Lemma block_step n h M c s f j b st :
  staged n h M c s f (done h j b) st -> (j < h)%nat -> (S b * (2 * h) <= M)%nat -> Z.of_nat M <= n ->
  let p := (b * (2 * h) + j)%nat in
  staged n h M c s f (done h j (S b))
    (put (put st p (sums (point st p) (point st (p + h))))
       (p + h) (turned (c j) (s j) (point st p) (point st (p + h)))).
Proof.
  intros [D S0] Hj Hb HM p. assert (Hh : (0 < h)%nat) by lia.
  destruct (index_parts h b j Hh) as (E1 & E2 & E3); [lia|].
  destruct (index_parts h b (j + h) Hh) as (G1 & G2 & G3); [lia|].
  rewrite Nat.add_assoc in G1, G2, G3. fold p in E1, E2, E3, G1, G2, G3.
  rewrite (proj2 (Nat.ltb_lt _ _)) in E3 by done. rewrite (proj2 (Nat.ltb_ge _ _)) in G3 by lia.
  replace (j + h - h)%nat with j in G3 by lia.
  assert (Hp : (p + h < M)%nat) by (unfold p; lia).
  assert (Pp : point st p = f p).
  { rewrite S0. unfold done. rewrite E2, E3, !bool_decide_eq_false_2 by lia. by rewrite andb_false_r. }
  assert (Pq : point st (p + h) = f (p + h)%nat).
  { rewrite S0. unfold done. rewrite G2, G3, !bool_decide_eq_false_2 by lia. by rewrite andb_false_r. }
  split; [by repeat apply put_dims|]. intros q.
  rewrite !(point_put n) by (try apply put_dims; done || lia).
  rewrite done_next by done. fold p. rewrite Pp, Pq.
  destruct (decide (q = p + h)%nat) as [->|N1]; [|destruct (decide (q = p)) as [->|N2]].
  - rewrite bool_decide_eq_true_2 by auto. rewrite orb_true_r, andb_true_r.
    rewrite (proj2 (Nat.ltb_lt _ _)) by done. unfold combined. rewrite G1, G3.
    rewrite (proj2 (Nat.ltb_ge _ _)) by lia. do 2 f_equal; lia.
  - rewrite bool_decide_eq_true_2 by auto. rewrite orb_true_r, andb_true_r.
    rewrite (proj2 (Nat.ltb_lt _ _)) by lia. unfold combined. rewrite E1.
    by rewrite (proj2 (Nat.ltb_lt _ _)) by lia.
  - rewrite bool_decide_eq_false_2 by tauto. by rewrite orb_false_r.
Qed.

Lemma blocks_yields fuel tbl n h B c s f j b sp cp st :
  staged n h (B * (2 * h)) c s f (done h j b) st -> (j < h)%nat -> (b <= B)%nat ->
  (B - b < fuel)%nat -> Z.of_nat (B * (2 * h)) <= n -> 2 * Z.of_nat (B * (2 * h)) < 2 ^ 31 ->
  0 <= sp < zlen tbl -> 0 <= cp < zlen tbl -> c j = entry tbl cp -> s j = entry tbl sp ->
  yields (blocks fuel tbl (Z.of_nat (B * (2 * h))) (Z.of_nat (2 * h)) (Z.of_nat h) sp cp
            (Z.of_nat (S b * (2 * h))) (Z.of_nat (b * (2 * h) + j)) st)
    (staged n h (B * (2 * h)) c s f (done h j B)).
Proof.
  revert b st. induction fuel as [|fuel IH]; intros b st S0 Hj Hb Hf HM Hov Hs Hc Ec Es; [lia|].
  cbn [blocks]. case Z.leb_spec; intros Hle.
  - assert (b < B)%nat by nia. assert (S b * (2 * h) <= B * (2 * h))%nat by nia.
    rewrite (butterfly_put n) by (try apply S0; lia || nia).
    rewrite bind_Ok. replace (Z.of_nat (b * (2 * h) + j) + Z.of_nat h)
      with (Z.of_nat (b * (2 * h) + j + h)) by lia. rewrite !Nat2Z.id, <-Ec, <-Es.
    rewrite i32_ok, bind_Ok by lia.
    replace (Z.of_nat (S b * (2 * h)) + Z.of_nat (2 * h)) with (Z.of_nat (S (S b) * (2 * h))) by lia.
    replace (Z.of_nat (b * (2 * h) + j) + Z.of_nat (2 * h)) with (Z.of_nat (S b * (2 * h) + j)) by lia.
    apply IH; try done; try lia. by apply block_step.
  - assert (b = B) as -> by nia. by apply yields_ok.
Qed.

Lemma done_all h j B q : (0 < h)%nat -> (q < B * (2 * h))%nat ->
  done h j B q = done h (S j) 0 q.
Proof.
  intros Hh Hq. destruct (index_cases h q Hh) as (b' & j' & -> & Hj').
  destruct (index_parts h b' j' Hh Hj') as (_ & Ed & Em). unfold done. rewrite Ed, Em.
  assert (b' < B)%nat by nia. apply eq_bool_prop_intro. rewrite !orb_True, !bool_decide_spec.
  destruct (Nat.ltb_spec j' h); lia.
Qed.

(** a pass is a stage *)
Lemma pass_yields tbl n mx h B lf st :
  dims n st -> (0 < h)%nat -> Z.of_nat (B * (2 * h)) <= n -> 2 * Z.of_nat (B * (2 * h)) < 2 ^ 31 ->
  0 <= lf -> 0 <= mx -> (Z.of_nat h - 1) * lf + Z.quot mx 4 < zlen tbl ->
  yields (pass tbl mx (Z.of_nat (B * (2 * h))) (Z.of_nat (2 * h)) (Z.of_nat h) lf st) (fun st' =>
    dims n st' /\ forall q, point st' q = if (q <? B * (2 * h))%nat
      then combined h (fun j => entry tbl (Z.quot mx 4 + Z.of_nat j * lf))
             (fun j => entry tbl (Z.of_nat j * lf)) (point st) q
      else point st q).
Proof.
  intros D Hh HM Hov Hlf Hmx Ht. unfold pass.
  set (c := fun j => entry tbl (Z.quot mx 4 + Z.of_nat j * lf)).
  set (s := fun j => entry tbl (Z.of_nat j * lf)).
  pose proof (Z.quot_pos mx 4 ltac:(lia) ltac:(lia)).
  eapply yields_mono; [apply (for_up_yields (fun i => staged n h (B * (2 * h)) c s (point st)
    (done h (Z.to_nat i) 0)))|].
  - lia.
  - split; [done|]. intros q. unfold done. rewrite !bool_decide_eq_false_2 by lia. by rewrite andb_false_r.
  - intros i st1 Hi S1. destruct (Z_of_nat_complete i) as [j ->]; [lia|]. rewrite Nat2Z.id in S1.
    assert (Hb : Z.of_nat j * lf <= (Z.of_nat h - 1) * lf) by nia.
    eapply yields_mono.
    + pose proof (blocks_yields (Z.to_nat (Z.of_nat (B * (2 * h)) + 1)) tbl n h B c s (point st) j 0
        (Z.of_nat j * lf) (Z.quot mx 4 + Z.of_nat j * lf) st1 S1) as Y.
      rewrite Nat.mul_1_l, Nat.mul_0_l, Nat.add_0_l in Y. apply Y; try done; nia.
    + intros st2 [D2 S2]. split; [done|]. intros q. rewrite S2.
      replace (Z.to_nat (Z.of_nat j + 1)) with (S j) by lia.
      destruct (Nat.ltb_spec q (B * (2 * h))); [|done]. by rewrite done_all.
  - intros st1 [D1 S1]. split; [done|]. intros q. rewrite S1, Nat2Z.id.
    destruct (Nat.ltb_spec q (B * (2 * h))); [|done]. unfold done.
    rewrite (bool_decide_eq_true_2 (q mod h < h)%nat); [done|]. apply Nat.mod_upper_bound. lia.
Qed.

Lemma combined_ext h B c s f g q :
  (0 < h)%nat -> (forall i, (i < B * (2 * h))%nat -> f i = g i) -> (q < B * (2 * h))%nat ->
  combined h c s f q = combined h c s g q.
Proof.
  intros Hh E Hq. unfold combined. destruct (index_cases h q Hh) as (b & j & Eq & Hj).
  assert (Em : (q mod (2 * h) = j)%nat) by (subst q; by apply index_parts).
  assert (b < B)%nat by nia. assert ((S b) * (2 * h) <= B * (2 * h))%nat by nia. rewrite Em.
  destruct (Nat.ltb_spec j h); rewrite !E by lia; done.
Qed.

(** the stages down to blocks of two *)
Fixpoint staging (tbl : list F) (mx : Z) (k : nat) (lf : Z) (f : nat -> F * F) : nat -> F * F :=
  match k with
  | O | S O => f
  | S k =>
      staging tbl mx k (2 * lf)
        (combined (2 ^ k) (fun j => entry tbl (Z.quot mx 4 + Z.of_nat j * lf))
           (fun j => entry tbl (Z.of_nat j * lf)) f)
  end.

Lemma staging_S tbl mx k lf f :
  staging tbl mx (S (S k)) lf f
  = staging tbl mx (S k) (2 * lf)
      (combined (2 ^ S k) (fun j => entry tbl (Z.quot mx 4 + Z.of_nat j * lf))
         (fun j => entry tbl (Z.of_nat j * lf)) f).
Proof. done. Qed.

Lemma pow_blocks k K : (S k <= K)%nat -> (2 ^ K = 2 ^ (K - S k) * (2 * 2 ^ k))%nat.
Proof.
  intros Hk. rewrite <-Nat.pow_succ_r', <-Nat.pow_add_r. f_equal. lia.
Qed.

Lemma staging_ext tbl mx K k lf f g q :
  (k <= K)%nat -> (forall i, (i < 2 ^ K)%nat -> f i = g i) -> (q < 2 ^ K)%nat ->
  staging tbl mx k lf f q = staging tbl mx k lf g q.
Proof.
  revert lf f g. induction k as [|k IH]; intros lf f g Hk E Hq; [by apply E|].
  destruct k as [|k]; [by apply E|].
  rewrite !staging_S.
  apply IH; [lia| |done]. intros i Hi. pose proof (pow_blocks (S k) K Hk) as EK.
  apply (combined_ext _ (2 ^ (K - S (S k)))); [apply pow2_pos| |by rewrite <-EK].
  intros j Hj. apply E. by rewrite EK.
Qed.

Lemma of_pow2 k : Z.of_nat (2 ^ k) = 2 ^ Z.of_nat k.
Proof. by rewrite Nat2Z.inj_pow. Qed.

Lemma quot_pow2 k : Z.quot (Z.of_nat (2 ^ S k)) 2 = Z.of_nat (2 ^ k).
Proof.
  rewrite Nat.pow_succ_r'. replace (Z.of_nat (2 * 2 ^ k)) with (Z.of_nat (2 ^ k) * 2) by lia.
  apply Z.quot_mul. lia.
Qed.

(** the table reaches three quarters of a period *)
Definition table_long (tbl : list F) (mx : Z) : Prop := 4 <= mx /\ zlen tbl = mx - Z.quot mx 4 + 1.

Lemma passes_yields fuel tbl n mx k K lf st :
  dims n st -> (k <= K)%nat -> (k < fuel)%nat -> Z.of_nat (2 ^ K) <= n ->
  2 * Z.of_nat (2 ^ K) < 2 ^ 31 -> table_long tbl mx -> mx < 2 ^ 31 ->
  0 <= lf -> lf * Z.of_nat (2 ^ k) = mx ->
  yields (passes fuel tbl mx (Z.of_nat (2 ^ K)) (Z.of_nat (2 ^ k)) lf st) (fun st' =>
    dims n st' /\ forall q, point st' q = if (q <? 2 ^ K)%nat
      then staging tbl mx k lf (point st) q else point st q).
Proof.
  revert fuel lf st. induction k as [|k IH]; intros fuel lf st D Hk Hf HM Hov [M4 Lt] Hmx Hlf Elf.
  - destruct fuel as [|fuel]; [lia|]. cbn [passes]. cbn zeta. change (Z.of_nat (2 ^ 0)) with 1.
    change (Z.quot 1 2) with 0. cbn [Z.leb Z.compare]. apply yields_ok. split; [done|].
    intros q. by destruct (q <? 2 ^ K)%nat.
  - destruct fuel as [|fuel]; [lia|]. cbn [passes]. cbn zeta. rewrite quot_pow2.
    destruct k as [|k].
    { change (Z.of_nat (2 ^ 0)) with 1. cbn [Z.leb Z.compare]. apply yields_ok. split; [done|].
      intros q. by destruct (q <? 2 ^ K)%nat. }
    pose proof (pow2_pos k) as P0. pose proof (pow_blocks (S k) K Hk) as EK.
    assert (1 < Z.of_nat (2 ^ S k)) by (rewrite Nat.pow_succ_r'; lia). rewrite (proj2 (Z.leb_gt _ _)) by done.
    assert (Elf2 : 2 * lf * Z.of_nat (2 ^ S k) = mx) by (rewrite Nat.pow_succ_r' in Elf; lia).
    pose proof (Z.quot_div_nonneg mx 4 ltac:(lia) ltac:(lia)) as Eq4. 
    eapply yields_bind.
    { pose proof (pass_yields tbl n mx (2 ^ S k) (2 ^ (K - S (S k))) lf st D (pow2_pos _)) as Y.
      rewrite <-EK, <-Nat.pow_succ_r' in Y. apply Y; try done; try lia.
      rewrite Lt, Eq4. pose proof (Z.div_mod mx 4 ltac:(lia)). pose proof (Z.mod_pos_bound mx 4 ltac:(lia)). nia. }
    intros st1 (D1 & S1). rewrite i32_ok, bind_Ok by nia. replace (lf + lf) with (2 * lf) by lia.
    eapply yields_mono; [apply IH; try done; lia|]. intros st2 (D2 & S2). split; [done|].
    intros q. rewrite S2. destruct (Nat.ltb_spec q (2 ^ K)) as [Hq|Hq].
    2: { rewrite S1. by rewrite (proj2 (Nat.ltb_ge _ _)). }
    rewrite staging_S.
    apply (staging_ext tbl mx K); [lia| |done]. intros i Hi.
    rewrite S1. by rewrite (proj2 (Nat.ltb_lt _ _)).
Qed.

(** the last stage *)
Definition differ (a b : F * F) : F * F := (a.1 - b.1, a.2 - b.2)%num.
Definition paired (f : nat -> F * F) (q : nat) : F * F :=
  if Nat.even q then sums (f q) (f (S q)) else differ (f (pred q)) (f q).

Lemma last_pass_yields n k st :
  dims n st -> Z.of_nat (2 ^ S k) <= n ->
  yields (last_pass (Z.of_nat (2 ^ S k)) st) (fun st' =>
    dims n st' /\ forall q, point st' q = if (q <? 2 ^ S k)%nat then paired (point st) q else point st q).
Proof.
  intros D Hn. unfold last_pass. rewrite quot_pow2. rewrite Nat.pow_succ_r' in *.
  eapply yields_mono; [apply (for_up_yields (fun i st' => dims n st' /\ forall q,
    point st' q = if (q <? 2 * Z.to_nat i)%nat then paired (point st) q else point st q))|].
  - lia.
  - by split.
  - intros i [x y] Hi [D1 S1]. destruct (Z_of_nat_complete i) as [j ->]; [lia|]. rewrite Nat2Z.id in S1.
    pose proof D1 as [L1 L2]. cbn [fst snd] in L1, L2. cbn zeta.
    destruct (rd_point n _ (2 * Z.of_nat j) D1) as [X1 Y1]; [lia|].
    destruct (rd_point n _ (2 * Z.of_nat j + 1) D1) as [X2 Y2]; [lia|].
    cbn [fst snd] in X1, Y1, X2, Y2. rewrite X1, X2, Y1, Y2, !bind_Ok.
    repeat first [rewrite bind_Ok | rewrite wr_ok by (rewrite ?zlen_insert; lia)].
    replace (Z.to_nat (2 * Z.of_nat j)) with (2 * j)%nat by lia.
    replace (Z.to_nat (2 * Z.of_nat j + 1)) with (S (2 * j)) by lia.
    apply yields_ok.
    change (dims n (put (put (x, y) (2 * j) (sums (point (x, y) (2 * j)) (point (x, y) (S (2 * j)))))
              (S (2 * j)) (differ (point (x, y) (2 * j)) (point (x, y) (S (2 * j))))) /\ forall q,
      point (put (put (x, y) (2 * j) (sums (point (x, y) (2 * j)) (point (x, y) (S (2 * j)))))
              (S (2 * j)) (differ (point (x, y) (2 * j)) (point (x, y) (S (2 * j))))) q
      = if (q <? 2 * Z.to_nat (Z.of_nat j + 1))%nat then paired (point st) q else point st q).
    split; [by repeat apply put_dims|]. intros q.
    rewrite !(point_put n) by (try apply put_dims; done || lia).
    rewrite !S1, !(proj2 (Nat.ltb_ge _ _)) by lia.
    replace (2 * Z.to_nat (Z.of_nat j + 1))%nat with (S (S (2 * j))) by lia.
    destruct (decide (q = S (2 * j))) as [->|N1]; [|destruct (decide (q = 2 * j)%nat) as [->|N2]].
    + rewrite (proj2 (Nat.ltb_lt _ _)) by lia. unfold paired.
      by rewrite Nat.even_succ, Nat.odd_mul.
    + rewrite (proj2 (Nat.ltb_lt _ _)) by lia. unfold paired. by rewrite Nat.even_mul.
    + destruct (Nat.ltb_spec q (2 * j)), (Nat.ltb_spec q (S (S (2 * j)))); done || lia.
  - intros st1 [D1 S1]. split; [done|]. intros q. by rewrite S1, Nat2Z.id.
Qed.

(** ** The bit reversal *)

Lemma next_reversed_rev fuel k i :
  (S i < 2 ^ S k)%nat -> (k < fuel)%nat ->
  next_reversed fuel (Z.of_nat (2 ^ k)) (Z.of_nat (rev (S k) i)) = Ok (Z.of_nat (rev (S k) (S i))).
Proof.
  revert fuel i. induction k as [|k IH]; intros fuel i Hi Hf.
  { destruct fuel as [|fuel]; [lia|]. cbn in Hi. by assert (i = O) as -> by lia. }
  destruct fuel as [|fuel]; [lia|]. cbn [next_reversed].
  destruct (halves i) as (a & b & -> & Hb). rewrite (Nat.pow_succ_r' 2 (S k)) in Hi.
  pose proof (rev_lt (S k) a). rewrite rev_step by done.
  assert (b = 0 \/ b = 1)%nat as [-> | ->] by lia.
  - rewrite Nat.mul_0_r, Nat.add_0_l, (proj2 (Z.leb_gt _ _)) by lia. replace (S (2 * a + 0)) with (2 * a + 1)%nat by lia.
    rewrite rev_step by lia. f_equal. lia.
  - rewrite (proj2 (Z.leb_le _ _)) by lia. replace (S (2 * a + 1)) with (2 * S a + 0)%nat by lia. rewrite rev_step by lia.
    rewrite quot_pow2. replace (Z.of_nat (2 ^ S k * 1 + rev (S k) a) - Z.of_nat (2 ^ S k))
      with (Z.of_nat (rev (S k) a)) by lia.
    rewrite IH by lia. f_equal. lia.
Qed.

Lemma exchange_put n i j st :
  dims n st -> 0 <= i < n -> 0 <= j < n ->
  exchange i j st = Ok (put (put st (Z.to_nat j) (point st (Z.to_nat i))) (Z.to_nat i)
                          (point st (Z.to_nat j))).
Proof.
  intros D Hi Hj. destruct st as [x y]. pose proof D as [L1 L2]. cbn [fst snd] in L1, L2.
  destruct (rd_point n _ i D Hi) as [X1 Y1]. destruct (rd_point n _ j D Hj) as [X2 Y2].
  unfold exchange. cbn [fst snd] in X1, Y1, X2, Y2. rewrite X1, X2, Y1, Y2, !bind_Ok.
  by repeat first [rewrite bind_Ok | rewrite wr_ok by (rewrite ?zlen_insert; lia)].
Qed.

(** the elements that have reached their places before round [i] *)
Definition reversed (n : Z) (K : nat) (f : nat -> F * F) (i : nat) (st : arrays) : Prop :=
  dims n st /\ forall q, point st q
    = if (q <? 2 ^ K)%nat && ((q <? i)%nat || (rev K q <? i)%nat) then f (rev K q) else f q.

Lemma reversed_step n K f i st :
  reversed n K f i st -> (i < 2 ^ K)%nat -> Z.of_nat (2 ^ K) <= n ->
  reversed n K f (S i) (if (i <? rev K i)%nat
    then put (put st (rev K i) (point st i)) i (point st (rev K i)) else st).
Proof.
  intros [D S0] Hi Hn. pose proof (rev_lt K i) as Hr. pose proof (rev_rev K i Hi) as RR.
  assert (Out : forall q, (q < 2 ^ K)%nat -> q <> i -> q <> rev K i ->
    ((q <? S i) || (rev K q <? S i) = (q <? i) || (rev K q <? i))%nat).
  { intros q Hq N1 N2. assert (rev K q <> i) by (intros <-; by rewrite rev_rev in N2).
    apply eq_bool_prop_intro. rewrite !orb_True, !Is_true_true, !Nat.ltb_lt. lia. }
  destruct (Nat.ltb_spec i (rev K i)) as [Hl|Hl].
  - split; [by repeat apply put_dims|]. intros q.
    rewrite !(point_put n) by (try apply put_dims; done || lia). rewrite !S0, RR.
    rewrite !(proj2 (Nat.ltb_lt _ _) Hi), !(proj2 (Nat.ltb_lt _ _) Hr).
    rewrite Nat.ltb_irrefl, (proj2 (Nat.ltb_ge (rev K i) i)) by lia. cbn [andb orb].
    destruct (decide (q = i)) as [->|N1]; [|destruct (decide (q = rev K i)) as [->|N2]].
    + by rewrite (proj2 (Nat.ltb_lt _ _) Hi), (proj2 (Nat.ltb_lt i (S i))) by lia.
    + by rewrite (proj2 (Nat.ltb_lt _ _) Hr), RR, (proj2 (Nat.ltb_lt i (S i))), orb_true_r by lia.
    + destruct (Nat.ltb_spec q (2 ^ K)); [|done]. by rewrite Out.
  - split; [done|]. intros q. rewrite S0. destruct (Nat.ltb_spec q (2 ^ K)) as [Hq|]; [|done]. cbn [andb].
    destruct (decide (q = i)) as [->|N1]; [|destruct (decide (q = rev K i)) as [->|N2]].
    + rewrite (proj2 (Nat.ltb_lt i (S i))) by lia. cbn [orb]. rewrite Nat.ltb_irrefl. cbn [orb].
      destruct (Nat.ltb_spec (rev K i) i); [done|]. by assert (rev K i = i) as -> by lia.
    + rewrite RR, (proj2 (Nat.ltb_lt i (S i))), orb_true_r, Nat.ltb_irrefl, orb_false_r by lia.
      destruct (Nat.ltb_spec (rev K i) i); [done|]. by assert (rev K i = i) as -> by lia.
    + by rewrite Out.
Qed.

Lemma rev_0 k : rev k 0 = O.
Proof. induction k as [|k IH]; [done|]. cbn [rev]. rewrite Nat.Div0.mod_0_l, Nat.Div0.div_0_l, IH. lia. Qed.

Lemma rev_last k : rev k (2 ^ k - 1) = (2 ^ k - 1)%nat.
Proof.
  induction k as [|k IH]; [done|]. pose proof (pow2_pos k).
  replace (2 ^ S k - 1)%nat with (2 * (2 ^ k - 1) + 1)%nat by (rewrite Nat.pow_succ_r'; lia).
  rewrite rev_step, IH by lia. lia.
Qed.

Lemma bit_reversal_yields n k st :
  dims n st -> Z.of_nat (2 ^ S k) <= n -> (k < 33)%nat ->
  yields (bit_reversal (Z.of_nat (2 ^ S k)) st) (fun st' =>
    dims n st' /\ forall q, point st' q
      = if (q <? 2 ^ S k)%nat then point st (rev (S k) q) else point st q).
Proof.
  intros D Hn Hk. unfold bit_reversal. rewrite quot_pow2. pose proof (pow2_pos (S k)) as P0.
  eapply (yields_bind _ _ (fun r => reversed n (S k) (point st) (2 ^ S k - 1) r.1)).
  - eapply yields_mono; [apply (for_up_yields (fun i r => reversed n (S k) (point st) (Z.to_nat i) r.1 /\
      r.2 = Z.of_nat (rev (S k) (Z.to_nat i))))|].
    + lia.
    + cbn [fst snd]. rewrite rev_0. split; [|done]. split; [done|]. intros q.
      destruct (Nat.ltb_spec q (2 ^ S k)); [|done].
      by rewrite !(proj2 (Nat.ltb_ge _ _)) by lia.
    + intros i [st1 j] Hi [R1 Ej]. cbn [fst snd] in *. subst j.
      destruct (Z_of_nat_complete i) as [l ->]; [lia|]. rewrite Nat2Z.id in *.
      pose proof (reversed_step n (S k) (point st) l st1 R1 ltac:(lia) Hn) as R2.
      pose proof (rev_lt (S k) l). replace (Z.to_nat (Z.of_nat l + 1)) with (S l) by lia.
      eapply (yields_bind_eq _ (if (l <? rev (S k) l)%nat
        then put (put st1 (rev (S k) l) (point st1 l)) l (point st1 (rev (S k) l)) else st1)).
      { destruct (Nat.ltb_spec l (rev (S k) l));
          [rewrite (proj2 (Z.ltb_lt _ _)) by lia|by rewrite (proj2 (Z.ltb_ge _ _)) by lia].
        rewrite (exchange_put n) by (try apply R1; lia). by rewrite !Nat2Z.id. }
      rewrite next_reversed_rev, bind_Ok by lia. by apply yields_ok.
    + intros [st1 j] [R1 _]. cbn [fst] in *. by replace (Z.to_nat _) with (2 ^ S k - 1)%nat in R1 by lia.
  - intros [st1 j] [D1 R1]. cbn [fst] in *. apply yields_ok. split; [done|]. intros q. rewrite R1.
    destruct (Nat.ltb_spec q (2 ^ S k)); [|done]. cbn [andb].
    destruct (Nat.ltb_spec q (2 ^ S k - 1)); [done|].
    assert (q = 2 ^ S k - 1)%nat as -> by lia. rewrite rev_last. by destruct (_ <? _)%nat.
Qed.

(** ** The table *)

Lemma quot_nat a b : Z.quot (Z.of_nat a) (Z.of_nat b) = Z.of_nat (a / b).
Proof. destruct b as [|b]; [by rewrite Nat.div_0_r; destruct a|]. rewrite Z.quot_div_nonneg by lia. by rewrite Nat2Z.inj_div. Qed.

(** the elements of the table of a size *)
Definition sine (m j : Z) : F :=
  if (j =? 0) || (j =? Z.quot m 2) then nZ 0 else sin (M_PI / nZ m * nZ 2 * nZ j)%num.

Lemma make_table_yields m :
  4 <= m -> yields (make_table m) (fun tbl => table_long tbl m /\
    forall j, 0 <= j < zlen tbl -> entry tbl j = sine m j).
Proof.
  intros Hm. unfold make_table, dgetmem. cbn zeta.
  pose proof (Z.quot_div_nonneg m 4 ltac:(lia) ltac:(lia)) as E4.
  pose proof (Z.quot_div_nonneg m 2 ltac:(lia) ltac:(lia)) as E2.
  pose proof (Z.div_mod m 4 ltac:(lia)). pose proof (Z.mod_pos_bound m 4 ltac:(lia)).
  pose proof (Z.div_mod m 2 ltac:(lia)). pose proof (Z.mod_pos_bound m 2 ltac:(lia)).
  set (size := m - Z.quot m 4 + 1). assert (Hs : size = m - m / 4 + 1) by (unfold size; lia).
  rewrite (proj2 (Z.ltb_ge _ _)), bind_Ok by lia.
  rewrite wr_ok, bind_Ok by (rewrite zlen_replicate; lia).
  eapply yields_bind.
  { apply (for_up_yields (fun i tbl => zlen tbl = size /\ forall j, 0 <= j < i ->
      entry tbl j = if j =? 0 then nZ 0 else sin (M_PI / nZ m * nZ 2 * nZ j)%num)); [lia| |].
    - split; [rewrite zlen_insert, zlen_replicate; lia|]. intros j Hj. assert (j = 0) as -> by lia.
      unfold entry. rewrite list_lookup_insert_eq; [done|rewrite length_replicate; lia].
    - intros i tbl Hi [L T]. rewrite wr_ok by lia. apply yields_ok. split; [by rewrite zlen_insert|].
      intros j Hj. unfold entry. destruct (decide (j = i)) as [->|Hne].
      + rewrite list_lookup_insert_eq by (unfold zlen in L; lia). by rewrite (proj2 (Z.eqb_neq i 0)) by lia.
      + rewrite list_lookup_insert_ne by lia. apply T. lia. }
  intros tbl [L T]. rewrite wr_ok by lia. apply yields_ok. split; [split; [done|by rewrite zlen_insert]|].
  rewrite zlen_insert, L. intros j Hj. unfold entry, sine. destruct (decide (j = Z.quot m 2)) as [->|Hne].
  - rewrite list_lookup_insert_eq by (unfold zlen in L; lia). by rewrite Z.eqb_refl, orb_true_r.
  - rewrite list_lookup_insert_ne by lia. rewrite (proj2 (Z.eqb_neq j (Z.quot m 2))), orb_false_r by done.
    by apply T.
Qed.

(** the tables hold the sines of some size *)
Definition holds_sines (tb : tables) (tbl : list F) (M : nat) : Prop :=
  sintbl tb = Some tbl /\ maxfftsize tb = Z.of_nat (2 ^ M) /\ (2 <= M <= 28)%nat /\
  table_long tbl (Z.of_nat (2 ^ M)) /\
  forall j, 0 <= j < zlen tbl -> entry tbl j = sine (Z.of_nat (2 ^ M)) j.

Definition tables_ok (tb : tables) : Prop :=
  sintbl tb = None \/ exists tbl M, holds_sines tb tbl M.

Lemma pow2_mono a b : (a <= b)%nat -> (2 ^ a <= 2 ^ b)%nat.
Proof. intros. apply Nat.pow_le_mono_r; lia. Qed.

Lemma pow2_small K : (K <= 28)%nat -> Z.of_nat (2 ^ K) <= 2 ^ 28.
Proof. intros. rewrite of_pow2. apply Z.pow_le_mono_r; lia. Qed.

Lemma ensure_table_yields tb K :
  tables_ok tb -> (2 <= K <= 28)%nat ->
  yields (ensure_table (Z.of_nat (2 ^ K)) tb) (fun r =>
    exists M, (K <= M)%nat /\ holds_sines r.2 r.1 M /\
      forall tbl M0, holds_sines tb tbl M0 -> (K <= M0)%nat -> r = (tbl, tb)).
Proof.
  intros Hok HK. pose proof (pow2_mono 2 K ltac:(lia)) as P. cbn in P.
  assert (Made : yields (tbl ← make_table (Z.of_nat (2 ^ K));
                         Ok (tbl, mkTables (Some tbl) (Z.of_nat (2 ^ K))))
    (fun r => holds_sines r.2 r.1 K)).
  { eapply yields_bind; [apply make_table_yields; lia|]. intros tbl [L T]. by apply yields_ok. }
  unfold ensure_table. destruct Hok as [E|(tbl & M & Hh)].
  - rewrite E. eapply yields_mono; [exact Made|]. intros r Hr. exists K. split; [done|]. split; [done|].
    intros tbl M0 (E' & _). congruence.
  - pose proof Hh as (E & Em & HM & _). rewrite E, Em. case Z.ltb_spec; intros Hl.
    + eapply yields_mono; [exact Made|]. intros r Hr. exists K. split; [done|]. split; [done|].
      intros tbl0 M0 (_ & Em0 & _) HK0. pose proof (pow2_mono K M0 HK0). lia.
    + apply yields_ok. exists M. split; [|split; [done|]].
      * destruct (le_gt_dec K M) as [?|Hgt]; [done|]. pose proof (pow2_mono (S M) K Hgt) as Q.
        pose proof (pow2_pos M). rewrite Nat.pow_succ_r' in Q. lia.
      * intros tbl0 M0 (E0 & _) _. rewrite E in E0. by injection E0 as ->.
Qed.

Lemma checkm_pow2 K : (2 <= K <= 28)%nat -> checkm (Z.of_nat (2 ^ K)) = Ok 0.
Proof.
  intros HK. unfold checkm. change 4 with (Z.of_nat (2 ^ 2)).
  assert (G : forall fuel i, (i <= K)%nat -> (K - i < fuel)%nat ->
    checkm_from fuel (Z.of_nat (2 ^ i)) (Z.of_nat (2 ^ K)) = Ok 0); [|apply G; lia].
  induction fuel as [|fuel IH]; intros i Hi Hf; [lia|]. cbn [checkm_from].
  pose proof (pow2_mono i K Hi). rewrite (proj2 (Z.leb_le _ _)) by lia. case Z.eqb_spec; [done|]. intros Hne.
  assert (i <> K) by congruence. pose proof (pow2_mono (S i) K ltac:(lia)) as P1.
  pose proof (pow2_small K ltac:(lia)) as P2. rewrite Nat.pow_succ_r' in P1.
  replace (2 * Z.of_nat (2 ^ i)) with (Z.of_nat (2 ^ S i)) by (rewrite Nat.pow_succ_r'; lia).
  rewrite i32_ok, bind_Ok by (rewrite Nat.pow_succ_r'; lia). apply IH; lia.
Qed.

(** ** The transform *)

Definition transformed (tbl : list F) (M K : nat) (f : nat -> F * F) (q : nat) : F * F :=
  paired (staging tbl (Z.of_nat (2 ^ M)) K (Z.of_nat (2 ^ (M - K))) f) (rev K q).

Lemma paired_ext k f g q :
  (forall i, (i < 2 ^ S k)%nat -> f i = g i) -> (q < 2 ^ S k)%nat -> paired f q = paired g q.
Proof.
  intros E Hq. unfold paired. destruct (Nat.even q) eqn:Ev; [|by rewrite !E by lia].
  apply Nat.even_spec in Ev as [r ->]. rewrite Nat.pow_succ_r' in *. by rewrite !E by lia.
Qed.

Lemma fft_yields n K st tb :
  dims n st -> (2 <= K <= 28)%nat -> Z.of_nat (2 ^ K) <= n -> tables_ok tb ->
  yields (fft st (Z.of_nat (2 ^ K)) tb) (fun r => exists tbl M,
    r.1.1 = 0 /\ (K <= M)%nat /\ holds_sines r.2 tbl M /\ dims n r.1.2 /\
    (forall tbl0 M0, holds_sines tb tbl0 M0 -> (K <= M0)%nat -> (tbl, r.2) = (tbl0, tb)) /\
    forall q, point r.1.2 q
      = if (q <? 2 ^ K)%nat then transformed tbl M K (point st) q else point st q).
Proof.
  intros D HK Hn Hok. unfold fft. rewrite checkm_pow2, bind_Ok by done. cbn [Z.eqb negb].
  eapply yields_bind; [by apply ensure_table_yields|]. intros [tbl tb1] (M & HM & Hh & Hsame).
  cbn [fst snd] in Hh, Hsame. pose proof Hh as (_ & Em & HM2 & Lt & _). rewrite Em.
  pose proof (pow2_small K ltac:(lia)) as P1. pose proof (pow2_small M ltac:(lia)) as P2.
  assert (Elf : (2 ^ M = 2 ^ (M - K) * 2 ^ K)%nat) by (rewrite <-Nat.pow_add_r; f_equal; lia).
  assert (Eq : Z.quot (Z.of_nat (2 ^ M)) (Z.of_nat (2 ^ K)) = Z.of_nat (2 ^ (M - K))).
  { rewrite quot_nat, Elf, Nat.div_mul; [done|]. pose proof (pow2_pos K). lia. }
  rewrite Eq. pose proof (Nat.pow_gt_lin_r 2 K ltac:(lia)) as Hlin. rewrite Nat2Z.id.
  eapply yields_bind.
  { apply (passes_yields _ _ n _ K K); try done; try lia. }
  intros st1 [D1 S1]. destruct K as [|k]; [lia|].
  eapply yields_bind; [by apply (last_pass_yields n)|]. intros st2 [D2 S2].
  eapply yields_bind; [apply (bit_reversal_yields n); try done; lia|]. intros st3 [D3 S3].
  apply yields_ok. exists tbl, M. cbn [fst snd]. split_and!; try done.
  intros q. rewrite S3. destruct (Nat.ltb_spec q (2 ^ S k)) as [Hq|Hq].
  - pose proof (rev_lt (S k) q) as Hr. rewrite S2, (proj2 (Nat.ltb_lt _ _)) by done.
    unfold transformed. apply (paired_ext k); [|done]. intros i Hi.
    by rewrite S1, (proj2 (Nat.ltb_lt _ _)) by done.
  - by rewrite S2, S1, !(proj2 (Nat.ltb_ge q (2 ^ S k))) by done.
Qed.

(** ** The inverse *)

Definition swapped (st : arrays) : arrays := (st.2, st.1).

Lemma swapped_dims n st : dims n st -> dims n (swapped st).
Proof. by intros []. Qed.
Lemma point_swapped st q : point (swapped st) q = ((point st q).2, (point st q).1).
Proof. done. Qed.

Lemma ifft_yields n K st tb :
  dims n st -> (2 <= K <= 28)%nat -> Z.of_nat (2 ^ K) <= n -> tables_ok tb ->
  yields (ifft st (Z.of_nat (2 ^ K)) tb) (fun r => exists tbl M,
    r.1.1 = 0 /\ (K <= M)%nat /\ holds_sines r.2 tbl M /\ dims n r.1.2 /\
    (forall tbl0 M0, holds_sines tb tbl0 M0 -> (K <= M0)%nat -> (tbl, r.2) = (tbl0, tb)) /\
    forall q, (q < 2 ^ K)%nat -> point r.1.2 q
      = let z := transformed tbl M K (point (swapped st)) q in
        (z.2 / nZ (Z.of_nat (2 ^ K)), z.1 / nZ (Z.of_nat (2 ^ K)))%num).
Proof.
  intros D HK Hn Hok. unfold ifft. pose proof (pow2_pos K) as P0.
  eapply yields_bind; [apply (fft_yields n K); [by apply swapped_dims|done..]|].
  intros [[r [y x]] tb1] (tbl & M & Er & HM & Hh & D1 & Hs & S1). cbn [fst snd] in *. subst r.
  cbn [Z.eqb]. pose proof D1 as [L1 L2]. cbn [fst snd] in L1, L2.
  set (mz := Z.of_nat (2 ^ K)) in *. eapply yields_bind.
  { apply (for_up_yields (fun i st' => dims n st' /\ forall q, point st' q
      = if (q <? Z.to_nat i)%nat then ((point (x, y) q).1 / nZ mz, (point (x, y) q).2 / nZ mz)%num
        else point (x, y) q)); [lia|by split|].
    intros i [x1 y1] Hi [D2 S2]. pose proof D2 as [M1 M2]. cbn [fst snd] in M1, M2.
    destruct (rd_point n _ i D2) as [X1 Y1]; [lia|]. cbn [fst snd] in X1, Y1.
    unfold upd. rewrite X1, Y1, !bind_Ok.
    repeat first [rewrite bind_Ok | rewrite wr_ok by (rewrite ?zlen_insert; lia)].
    apply yields_ok.
    change (dims n (put (x1, y1) (Z.to_nat i) ((point (x1, y1) (Z.to_nat i)).1 / nZ mz,
              (point (x1, y1) (Z.to_nat i)).2 / nZ mz)%num) /\ forall q,
      point (put (x1, y1) (Z.to_nat i) ((point (x1, y1) (Z.to_nat i)).1 / nZ mz,
              (point (x1, y1) (Z.to_nat i)).2 / nZ mz)%num) q
      = if (q <? Z.to_nat (i + 1))%nat then ((point (x, y) q).1 / nZ mz, (point (x, y) q).2 / nZ mz)%num
        else point (x, y) q).
    split; [by apply put_dims|]. intros q. rewrite (point_put n) by (done || lia). rewrite !S2.
    rewrite Nat.ltb_irrefl. destruct (decide (q = Z.to_nat i)) as [->|Hne].
    - by rewrite (proj2 (Nat.ltb_lt _ _)) by lia.
    - destruct (Nat.ltb_spec q (Z.to_nat i)), (Nat.ltb_spec q (Z.to_nat (i + 1))); done || lia. }
  intros [x1 y1] [D2 S2]. apply yields_ok. exists tbl, M. cbn [fst snd]. split_and!; try done.
  intros q Hq. unfold mz in S2. rewrite Nat2Z.id in S2. rewrite S2, (proj2 (Nat.ltb_lt _ _)) by done.
  specialize (S1 q). rewrite (proj2 (Nat.ltb_lt _ _)) in S1 by done.
  change (point (swapped st)) with (point (st.2, st.1)). cbn zeta. by rewrite <-S1.
Qed.

(** ** Real signals *)

Lemma separate_yields n k st :
  dims n st -> Z.of_nat (2 ^ S k) <= n ->
  yields (separate (Z.of_nat (2 ^ k)) st) (fun st' => dims n st' /\ forall q, point st' q
    = if (q <? 2 ^ k)%nat then ((point st (2 * q)).1, (point st (2 * q + 1)).1) else point st q).
Proof.
  intros D Hn. rewrite Nat.pow_succ_r' in Hn. unfold separate.
  eapply yields_mono; [apply (for_up_yields (fun i st' => dims n st' /\ forall q, point st' q
    = if (q <? Z.to_nat i)%nat then ((point st (2 * q)).1, (point st (2 * q + 1)).1) else point st q))|].
  - lia.
  - by split.
  - intros i [x y] Hi [D1 S1]. destruct (Z_of_nat_complete i) as [j ->]; [lia|]. rewrite Nat2Z.id in S1.
    pose proof D1 as [L1 L2]. cbn [fst snd] in L1, L2.
    destruct (rd_point n _ (2 * Z.of_nat j) D1) as [X1 _]; [lia|].
    destruct (rd_point n _ (2 * Z.of_nat j + 1) D1) as [X2 _]; [lia|]. cbn [fst snd] in X1, X2.
    rewrite X1, bind_Ok, wr_ok, bind_Ok by lia.
    assert (X3 : rd (<[Z.to_nat (Z.of_nat j) := (point (x, y) (Z.to_nat (2 * Z.of_nat j))).1]> x)
        (2 * Z.of_nat j + 1) = Ok (point (x, y) (Z.to_nat (2 * Z.of_nat j + 1))).1).
    { apply rd_inv in X2 as [_ X2]. apply rd_ok; [lia|]. by rewrite list_lookup_insert_ne by lia. }
    rewrite X3, bind_Ok, wr_ok, bind_Ok by lia. apply yields_ok.
    replace (Z.to_nat (2 * Z.of_nat j)) with (2 * j)%nat by lia.
    replace (Z.to_nat (2 * Z.of_nat j + 1)) with (2 * j + 1)%nat by lia. rewrite Nat2Z.id.
    change (dims n (put (x, y) j ((point (x, y) (2 * j)).1, (point (x, y) (2 * j + 1)).1)) /\ forall q,
      point (put (x, y) j ((point (x, y) (2 * j)).1, (point (x, y) (2 * j + 1)).1)) q
      = if (q <? Z.to_nat (Z.of_nat j + 1))%nat then ((point st (2 * q)).1, (point st (2 * q + 1)).1)
        else point st q).
    split; [by apply put_dims|]. intros q. rewrite (point_put n) by (done || lia). rewrite !S1.
    rewrite !(proj2 (Nat.ltb_ge _ j)) by lia.
    replace (Z.to_nat (Z.of_nat j + 1)) with (S j) by lia.
    destruct (decide (q = j)) as [->|Hne]; [by rewrite (proj2 (Nat.ltb_lt _ _)) by lia|].
    destruct (Nat.ltb_spec q j), (Nat.ltb_spec q (S j)); done || lia.
  - intros st1 [D1 S1]. split; [done|]. intros q. by rewrite S1, Nat2Z.id.
Qed.

(** element [m - k] of the spectrum from elements [k] and [m / 2 - k] of the
    transform of the pairs *)
Definition upper (c s : F) (a b : F * F) : F * F :=
  let yt := (a.2 + b.2)%num in let xt := (a.1 - b.1)%num in
  ((a.1 + b.1 + c * yt - s * xt) * ndec 5 (-1), (b.2 - a.2 + s * yt + c * xt) * ndec 5 (-1))%num.

Definition uppers (tbl : list F) (mx : Z) (h n : nat) (f : nat -> F * F) (k : nat) : F * F :=
  upper (entry tbl (Z.quot mx 4 + Z.of_nat (k * n))) (entry tbl (Z.of_nat (k * n)))
    (f k) (f (h - k)%nat).

Lemma combine_yields tbl mx n h l st :
  dims n st -> (1 <= h)%nat -> Z.of_nat (2 * h) <= n -> 0 <= mx ->
  Z.quot mx 4 + Z.of_nat (h * l) < zlen tbl ->
  yields (combine tbl mx (Z.of_nat (2 * h)) (Z.of_nat h) (Z.of_nat l) st) (fun st' =>
    dims n st' /\ forall q, point st' q
      = if (h <? q)%nat && (q <? 2 * h)%nat then uppers tbl mx h l (point st) (2 * h - q)
        else point st q).
Proof.
  intros D Hh Hn Hmx Ht. unfold combine. pose proof (Z.quot_pos mx 4 ltac:(lia) ltac:(lia)).
  eapply yields_mono; [apply (for_up_yields (fun i st' => dims n st' /\ forall q, point st' q
    = if (2 * h - Z.to_nat i <? q)%nat && (q <? 2 * h)%nat
      then uppers tbl mx h l (point st) (2 * h - q) else point st q))|].
  - lia.
  - split; [done|]. intros q. change (Z.to_nat 1) with 1%nat.
    destruct (Nat.ltb_spec (2 * h - 1) q), (Nat.ltb_spec q (2 * h)); done || lia.
  - intros i [x y] Hi [D1 S1]. destruct (Z_of_nat_complete i) as [j ->]; [lia|]. rewrite Nat2Z.id in S1.
    pose proof D1 as [L1 L2]. cbn [fst snd] in L1, L2. cbn zeta.
    replace (Z.of_nat j + (Z.of_nat h - 2 * Z.of_nat j)) with (Z.of_nat (h - j)) by lia.
    replace (Z.of_nat (2 * h) - Z.of_nat j) with (Z.of_nat (2 * h - j)) by lia.
    replace (Z.of_nat j * Z.of_nat l) with (Z.of_nat (j * l)) by lia.
    assert (j * l <= h * l)%nat by nia.
    destruct (rd_point n _ (Z.of_nat j) D1) as [X1 Y1]; [lia|].
    destruct (rd_point n _ (Z.of_nat (h - j)) D1) as [X2 Y2]; [lia|].
    cbn [fst snd] in X1, Y1, X2, Y2. rewrite !(rd_entry tbl), X1, X2, Y1, Y2, !bind_Ok by lia.
    repeat first [rewrite bind_Ok | rewrite wr_ok by (rewrite ?zlen_insert; lia)].
    rewrite !Nat2Z.id. apply yields_ok.
    change (dims n (put (x, y) (2 * h - j) (uppers tbl mx h l (point (x, y)) j)) /\ forall q,
      point (put (x, y) (2 * h - j) (uppers tbl mx h l (point (x, y)) j)) q
      = if (2 * h - Z.to_nat (Z.of_nat j + 1) <? q)%nat && (q <? 2 * h)%nat
        then uppers tbl mx h l (point st) (2 * h - q) else point st q).
    split; [by apply put_dims|]. intros q. rewrite (point_put n) by (done || lia). rewrite S1.
    assert (E : forall i, (i < h)%nat -> (1 <= i)%nat -> point (x, y) i = point st i).
    { intros i Hi2 Hi1. rewrite S1. by rewrite (proj2 (Nat.ltb_ge (2 * h - j) i)) by lia. }
    replace (Z.to_nat (Z.of_nat j + 1)) with (S j) by lia.
    destruct (decide (q = 2 * h - j)%nat) as [->|Hne].
    + rewrite !(proj2 (Nat.ltb_lt _ _)) by lia. cbn [andb].
      replace (2 * h - (2 * h - j))%nat with j by lia. unfold uppers. by rewrite !E by lia.
    + destruct (Nat.ltb_spec (2 * h - j) q), (Nat.ltb_spec (2 * h - S j) q); done || lia.
  - intros st1 [D1 S1]. split; [done|]. intros q. rewrite S1, Nat2Z.id.
    by replace (2 * h - h)%nat with h by lia.
Qed.

Lemma mirror_yields n h st :
  dims n st -> (1 <= h)%nat -> Z.of_nat (2 * h) <= n ->
  yields (mirror (Z.of_nat (2 * h)) (Z.of_nat h) st) (fun st' =>
    dims n st' /\ forall q, point st' q
      = if (0 <? q)%nat && (q <? h)%nat
        then ((point st (2 * h - q)).1, - (point st (2 * h - q)).2)%num else point st q).
Proof.
  intros D Hh Hn. unfold mirror.
  eapply yields_mono; [apply (for_up_yields (fun i st' => dims n st' /\ forall q, point st' q
    = if (0 <? q)%nat && (q <? Z.to_nat i)%nat
      then ((point st (2 * h - q)).1, - (point st (2 * h - q)).2)%num else point st q))|].
  - lia.
  - split; [done|]. intros q. change (Z.to_nat 1) with 1%nat. by destruct q.
  - intros i [x y] Hi [D1 S1]. destruct (Z_of_nat_complete i) as [j ->]; [lia|]. rewrite Nat2Z.id in S1.
    pose proof D1 as [L1 L2]. cbn [fst snd] in L1, L2.
    replace (Z.of_nat (2 * h) - Z.of_nat j) with (Z.of_nat (2 * h - j)) by lia.
    destruct (rd_point n _ (Z.of_nat (2 * h - j)) D1) as [X1 Y1]; [lia|].
    cbn [fst snd] in X1, Y1. rewrite X1, Y1, !bind_Ok.
    repeat first [rewrite bind_Ok | rewrite wr_ok by (rewrite ?zlen_insert; lia)].
    rewrite !Nat2Z.id. apply yields_ok.
    change (dims n (put (x, y) j ((point (x, y) (2 * h - j)).1, - (point (x, y) (2 * h - j)).2)%num) /\
      forall q, point (put (x, y) j ((point (x, y) (2 * h - j)).1, - (point (x, y) (2 * h - j)).2)%num) q
      = if (0 <? q)%nat && (q <? Z.to_nat (Z.of_nat j + 1))%nat
        then ((point st (2 * h - q)).1, - (point st (2 * h - q)).2)%num else point st q).
    split; [by apply put_dims|]. intros q. rewrite (point_put n) by (done || lia). rewrite !S1.
    rewrite (proj2 (Nat.ltb_ge (2 * h - j) j)), andb_false_r by lia.
    replace (Z.to_nat (Z.of_nat j + 1)) with (S j) by lia.
    destruct (decide (q = j)) as [->|Hne].
    + by rewrite !(proj2 (Nat.ltb_lt _ _)) by lia.
    + destruct (Nat.ltb_spec q j), (Nat.ltb_spec q (S j)); done || lia.
  - intros st1 [D1 S1]. split; [done|]. intros q. by rewrite S1, Nat2Z.id.
Qed.

Lemma transformed_ext tbl M k f g q :
  (forall i, (i < 2 ^ S k)%nat -> f i = g i) -> transformed tbl M (S k) f q = transformed tbl M (S k) g q.
Proof.
  intros E. unfold transformed. apply (paired_ext k); [|apply rev_lt].
  intros i Hi. by apply (staging_ext tbl _ (S k)).
Qed.

(** the real signal as half as many complex numbers *)
Definition pairs (f : nat -> F * F) (q : nat) : F * F := ((f (2 * q)%nat).1, (f (2 * q + 1)%nat).1).

(** the spectrum of the signal from the transform [z] of its pairs *)
Definition spectrum (tbl : list F) (M k : nat) (z : nat -> F * F) (q : nat) : F * F :=
  let h := (2 ^ k)%nat in
  let up := uppers tbl (Z.of_nat (2 ^ M)) h (2 ^ (M - S k)) z in
  if (q =? 0)%nat then ((z O).1 + (z O).2, nZ 0)%num
  else if (q =? h)%nat then ((z O).1 - (z O).2, nZ 0)%num
  else if (q <? h)%nat then ((up q).1, - (up q).2)%num
  else up (2 * h - q)%nat.

Lemma outer_put n h st :
  dims n st -> (1 <= h)%nat -> Z.of_nat (2 * h) <= n ->
  outer (Z.of_nat h) st
  = Ok (put (put st h ((point st 0).1 - (point st 0).2, nZ 0)%num) 0
          ((point st 0).1 + (point st 0).2, nZ 0)%num).
Proof.
  intros D Hh Hn. destruct st as [x y]. pose proof D as [L1 L2]. cbn [fst snd] in L1, L2.
  destruct (rd_point n _ 0 D) as [X0 Y0]; [lia|]. cbn [fst snd] in X0, Y0.
  unfold outer. rewrite X0, Y0, !bind_Ok.
  repeat first [rewrite bind_Ok | rewrite wr_ok by (rewrite ?zlen_insert; lia)].
  rewrite Nat2Z.id. change (Z.to_nat 0) with O. unfold put. cbn [fst snd].
  by rewrite (list_insert_insert_ne y O h) by lia.
Qed.

Lemma fftr_yields n k st tb :
  dims n st -> (2 <= k)%nat -> (S k <= 28)%nat -> Z.of_nat (2 ^ S k) <= n -> tables_ok tb ->
  yields (fftr st (Z.of_nat (2 ^ S k)) tb) (fun r => exists tbl0 M0 tbl M,
    r.1.1 = 0 /\ (k <= M0)%nat /\ (S k <= M)%nat /\ holds_sines r.2 tbl M /\ dims n r.1.2 /\
    (exists tb0, holds_sines tb0 tbl0 M0) /\
    (forall tbl1 M1, holds_sines tb tbl1 M1 -> (S k <= M1)%nat -> r.2 = tb) /\
    forall q, (q < 2 ^ S k)%nat ->
      point r.1.2 q = spectrum tbl M k (transformed tbl0 M0 k (pairs (point st))) q).
Proof.
  intros D Hk HK Hn Hok. unfold fftr. cbn zeta. rewrite quot_pow2. pose proof (pow2_pos k) as P0.
  eapply yields_bind; [by apply (separate_yields n)|]. intros st1 [D1 S1].
  assert (Hn1 : Z.of_nat (2 ^ k) <= n) by (rewrite Nat.pow_succ_r' in Hn; lia).
  eapply yields_bind; [apply (fft_yields n k); try done; lia|].
  intros [[r st2] tb1] (tbl0 & M0 & Er & HM0 & Hh0 & D2 & Hs0 & S2). cbn [fst snd] in *. subst r.
  cbn [Z.eqb]. assert (Hok1 : tables_ok tb1) by (right; by exists tbl0, M0).
  eapply yields_bind; [apply (ensure_table_yields tb1 (S k) Hok1); lia|].
  intros [tbl tb2] (M & HM & Hh & Hsame). cbn [fst snd] in *.
  pose proof Hh as (_ & Em & HM2 & [_ Lt] & _). rewrite Em.
  assert (EM : (2 ^ M = 2 ^ (M - S k) * 2 ^ S k)%nat) by (rewrite <-Nat.pow_add_r; f_equal; lia).
  assert (Eq : Z.quot (Z.of_nat (2 ^ M)) (Z.of_nat (2 ^ S k)) = Z.of_nat (2 ^ (M - S k))).
  { rewrite quot_nat, EM, Nat.div_mul; [done|]. pose proof (pow2_pos (S k)). lia. }
  rewrite Eq. rewrite (Nat.pow_succ_r' 2 k) in *. rewrite (outer_put n), bind_Ok by (done || lia).
  set (st3 := put _ 0 _). assert (D3 : dims n st3) by by repeat apply put_dims.
  assert (EM2 : (2 ^ k * 2 ^ (M - S k) * 2 = 2 ^ M)%nat) by lia.
  assert (E4 : Z.quot (Z.of_nat (2 ^ M)) 4 = Z.of_nat (2 ^ M / 4)) by apply (quot_nat _ 4).
  pose proof (Nat.Div0.mul_div_le (2 ^ M) 4).
  eapply yields_bind; [apply (combine_yields tbl _ n (2 ^ k) (2 ^ (M - S k)) st3); try done; try lia|].
  intros st4 [D4 S4]. eapply yields_bind; [by apply (mirror_yields n); [|lia|]|]. intros st5 [D5 S5].
  apply yields_ok. exists tbl0, M0, tbl, M. cbn [fst snd]. split_and!; try done.
  - by exists tb1.
  - intros tbl1 M1 Hh1 HM1. specialize (Hs0 tbl1 M1 Hh1 ltac:(lia)). injection Hs0 as -> ->.
    specialize (Hsame tbl1 M1 Hh1 HM1). by injection Hsame as _ ->.
  - set (z := transformed tbl0 M0 k (pairs (point st))).
    assert (P3 : forall q, (q < 2 ^ k)%nat -> point st2 q = z q).
    { intros q Hq. rewrite S2, (proj2 (Nat.ltb_lt _ _)) by done. unfold z.
      destruct k as [|k']; [lia|]. apply transformed_ext. intros i Hi.
      by rewrite S1, (proj2 (Nat.ltb_lt _ _)) by done. }
    assert (P4 : forall q, (0 < q < 2 ^ k)%nat -> point st3 q = z q).
    { intros q Hq. unfold st3. rewrite !(point_put n) by (try apply put_dims; done || lia).
      rewrite !decide_False by lia. apply P3. lia. }
    assert (U : forall q, (0 < q < 2 ^ k)%nat ->
      uppers tbl (Z.of_nat (2 ^ M)) (2 ^ k) (2 ^ (M - S k)) (point st3) q
      = uppers tbl (Z.of_nat (2 ^ M)) (2 ^ k) (2 ^ (M - S k)) z q).
    { intros q Hq. unfold uppers. by rewrite !P4 by lia. }
    intros q Hq. rewrite S5. unfold spectrum.
    destruct (Nat.eqb_spec q 0) as [->|N0]; [|destruct (Nat.eqb_spec q (2 ^ k)) as [->|N1]].
    + cbn [Nat.ltb Nat.leb andb]. rewrite S4. cbn [Nat.ltb Nat.leb andb]. unfold st3.
      rewrite !(point_put n) by (try apply put_dims; done || lia). rewrite decide_True by done.
      by rewrite P3 by lia.
    + rewrite Nat.ltb_irrefl, andb_false_r, S4, Nat.ltb_irrefl. cbn [andb]. unfold st3.
      rewrite !(point_put n) by (try apply put_dims; done || lia).
      rewrite decide_False, decide_True by lia || done. by rewrite P3 by lia.
    + rewrite (proj2 (Nat.ltb_lt 0 q)) by lia. cbn [andb]. destruct (Nat.ltb_spec q (2 ^ k)).
      * rewrite S4, !(proj2 (Nat.ltb_lt _ _)) by lia. cbn [andb].
        replace (2 * 2 ^ k - (2 * 2 ^ k - q))%nat with q by lia. by rewrite U by lia.
      * rewrite S4, !(proj2 (Nat.ltb_lt _ _)) by lia. cbn [andb]. by rewrite U by lia.
Qed.

End Fft.

(** ** On exact numbers *)

Section Exact.
Context {F : Type} `{NumField F}.
Add Field fft_field : num_field.
Add Ring fft_cpx : cpx_ring.
#[local] Open Scope nat_scope.
Variable sin : F -> F.

(** the sines of the tables are those of the roots of unity [w K] of order
    [2 ^ K]: what the [sin] of libm computes, without rounding *)
Record exact_sines (w : nat -> cpx (F := F)) : Prop := {
  sines_one : w 0 = c1;
  sines_minus_one : w 1 = copp c1;
  sines_square : forall K, cmul (w (S K)) (w (S K)) = w K;
  sines_unit : forall K, cmul (w K) (conj (w K)) = c1;
  sines_table : forall M j, 2 <= M -> j < 2 ^ (M - 1) ->
    cpow (w M) j = (sine sin (Z.of_nat (2 ^ M)) (Z.of_nat (2 ^ M / 4 + j)),
                    - sine sin (Z.of_nat (2 ^ M)) (Z.of_nat j))%num
}.

Context (w : nat -> cpx (F := F)) (Hw : exact_sines w).

Lemma root_power K d : cpow (w (K + d)) (2 ^ d) = w K.
Proof.
  induction d as [|d IH]; [rewrite Nat.add_0_r; cbn [Nat.pow cpow]; ring|].
  rewrite Nat.pow_succ_r', cpow_mul, Nat.add_succ_r. cbn [cpow].
  replace (cmul (w (S (K + d))) (cmul (w (S (K + d))) c1)) with (w (K + d)); [done|].
  rewrite <-(sines_square w Hw (K + d)). ring.
Qed.

Lemma w_root K : root K (w K).
Proof.
  destruct K as [|K]; cbn [root]; [apply Hw|]. change (S K) with (1 + K).
  rewrite root_power. apply Hw.
Qed.

Lemma div4 M : 2 <= M -> (2 ^ M / 4 = 2 ^ (M - 2) /\ 4 * 2 ^ (M - 2) = 2 ^ M /\
  2 * 2 ^ (M - 2) = 2 ^ (M - 1))%nat.
Proof.
  intros HM. assert (E1 : 2 ^ (M - 1) = 2 * 2 ^ (M - 2)) by (rewrite <-Nat.pow_succ_r'; f_equal; lia).
  assert (E : 2 ^ M = 2 ^ (M - 2) * 4).
  { replace (2 ^ (M - 2) * 4) with (2 * (2 * 2 ^ (M - 2))) by lia.
    rewrite <-!Nat.pow_succ_r'. f_equal. lia. }
  rewrite E at 1. rewrite Nat.div_mul by lia. lia.
Qed.

(** the entries of a table are the powers of its root *)
Lemma table_power tb tbl M i :
  holds_sines sin tb tbl M -> i < 2 ^ (M - 1) ->
  cpow (w M) i = (entry tbl (Z.quot (Z.of_nat (2 ^ M)) 4 + Z.of_nat i), - entry tbl (Z.of_nat i))%num.
Proof.
  intros (_ & _ & HM & [_ L] & T) Hi. destruct (div4 M) as (E4 & E1 & E2); [lia|].
  rewrite (sines_table w Hw) by lia. change 4%Z with (Z.of_nat 4) in L |- *.
  rewrite quot_nat in L |- *.
  rewrite E4 in *. rewrite !T by lia. do 2 f_equal. lia.
Qed.

Lemma turned_cmul c s (a b : F * F) : turned c s a b = cmul (csub a b) (c, - s)%num.
Proof. destruct a, b. cbv [turned cmul csub fst snd]. f_equal; ring. Qed.

Lemma combined_stage tb tbl M k f q :
  holds_sines sin tb tbl M -> S k <= M ->
  combined (2 ^ k) (fun j => entry tbl (Z.quot (Z.of_nat (2 ^ M)) 4 + Z.of_nat j * Z.of_nat (2 ^ (M - S k))))
    (fun j => entry tbl (Z.of_nat j * Z.of_nat (2 ^ (M - S k)))) f q
  = stage (2 ^ k) (w (S k)) f q.
Proof.
  intros Hh Hk. unfold combined, stage. destruct (_ <? _)%nat; [done|].
  rewrite turned_cmul. f_equal. pose proof (pow2_pos k).
  pose proof (Nat.mod_upper_bound q (2 ^ k) ltac:(lia)). pose proof (pow2_pos (M - S k)).
  rewrite <-Nat2Z.inj_mul. rewrite <-(table_power tb tbl M _ Hh).
  - rewrite Nat.mul_comm, cpow_mul. do 2 f_equal. replace M with (S k + (M - S k)) at 1 by lia.
    apply root_power.
  - replace (M - 1) with (k + (M - S k)) by (destruct Hh as (_ & _ & ? & _); lia).
    rewrite Nat.pow_add_r. nia.
Qed.

Lemma stages_ext k K w0 f g q :
  k <= K -> (forall i, i < 2 ^ K -> f i = g i) -> q < 2 ^ K -> stages k w0 f q = stages k w0 g q.
Proof.
  revert w0 f g. induction k as [|k IH]; intros w0 f g Hk E Hq; [by apply E|].
  cbn [stages]. apply IH; [lia| |done]. intros i Hi. pose proof (pow_blocks k K Hk) as EK.
  unfold stage. pose proof (pow2_pos k) as P0. destruct (index_cases (2 ^ k) i P0) as (b & j & -> & Hj).
  destruct (index_parts (2 ^ k) b j P0 Hj) as (-> & _ & _).
  assert (S b * (2 * 2 ^ k) <= 2 ^ K).
  { rewrite EK in Hi |- *. apply Nat.mul_le_mono_r. assert (b < 2 ^ (K - S k)) by nia. lia. }
  destruct (Nat.ltb_spec j (2 ^ k)); rewrite !E by lia; done.
Qed.

Lemma paired_stage f q : paired f q = stage 1 (w 1) f q.
Proof.
  unfold paired, stage. change (2 * 1) with 2. rewrite Nat.mod_1_r. cbn [cpow].
  rewrite <-Nat.bit0_mod, Nat.bit0_odd, <-Nat.negb_even. destruct (Nat.even q); cbn [negb Nat.b2n].
  - rewrite (proj2 (Nat.ltb_lt 0 1)) by lia. by rewrite Nat.add_1_r.
  - rewrite Nat.ltb_irrefl, Nat.sub_1_r.
    replace (cmul (csub (f (pred q)) (f q)) c1) with (csub (f (pred q)) (f q)) by ring. done.
Qed.

Lemma staging_stages tb tbl M k f q :
  holds_sines sin tb tbl M -> S k <= M -> q < 2 ^ S k ->
  paired (staging tbl (Z.of_nat (2 ^ M)) (S k) (Z.of_nat (2 ^ (M - S k))) f) q
  = stages (S k) (w (S k)) f q.
Proof.
  intros Hh. enough (G : forall K, k <= K -> S K <= M -> forall f q, q < 2 ^ S K ->
    paired (staging tbl (Z.of_nat (2 ^ M)) (S k) (Z.of_nat (2 ^ (M - S k))) f) q
    = stages (S k) (w (S k)) f q) by (intros; by apply (G k)).
  clear f q. induction k as [|k IH]; intros K Hk HK f q Hq; [apply paired_stage|].
  rewrite staging_S. replace (2 * Z.of_nat (2 ^ (M - S (S k))))%Z with (Z.of_nat (2 ^ (M - S k))).
  2: { replace (M - S k) with (S (M - S (S k))) by lia. rewrite Nat.pow_succ_r'. lia. }
  rewrite (IH K) by (done || lia).
  change (stages (S (S k)) (w (S (S k))) f) with
    (stages (S k) (cmul (w (S (S k))) (w (S (S k)))) (stage (2 ^ S k) (w (S (S k))) f)).
  rewrite (sines_square w Hw). apply (stages_ext (S k) (S K)); [lia| |done].
  intros i Hi. apply (combined_stage tb); [done|lia].
Qed.

(** what [fft] leaves is the transform of what it was given *)
Lemma transformed_dft tb tbl M K f q :
  holds_sines sin tb tbl M -> 1 <= K <= M -> q < 2 ^ K ->
  transformed tbl M K f q = dft (2 ^ K) (w K) f q.
Proof.
  intros Hh HK Hq. unfold transformed. destruct K as [|k]; [lia|].
  pose proof (rev_lt (S k) q) as Hr. rewrite (staging_stages tb) by (done || lia).
  pose proof (stages_dft (S k) (w (S k)) f 0 (rev (S k) q) (w_root _) Hr) as E.
  rewrite Nat.mul_0_l, Nat.add_0_l, rev_rev in E by done. by rewrite E.
Qed.

Lemma spectrum_dft tb tbl M k (x : nat -> F) q :
  holds_sines sin tb tbl M -> 1 <= k -> S k <= M -> q < 2 ^ S k ->
  spectrum tbl M k (dft (2 ^ k)%nat (w k) (fun n => (x (2 * n)%nat, x (2 * n + 1)%nat))) q
  = dft (2 ^ S k) (w (S k)) (fun n => cre (x n)) q.
Proof.
  intros Hh Hk HM Hq. pose proof (pow2_pos k) as P0. pose proof (w_root (S k)) as R.
  destruct (dft_ends k (w (S k)) x R) as [E0 E1]. cbv zeta in E0, E1.
  rewrite (sines_square w Hw) in E0, E1.
  assert (Mid : forall j, 0 < j < 2 ^ k ->
    dft (2 ^ S k) (w (S k)) (fun n => cre (x n)) j
    = ((uppers tbl (Z.of_nat (2 ^ M)) (2 ^ k)%nat (2 ^ (M - S k))%nat
          (dft (2 ^ k)%nat (w k) (fun n => (x (2 * n)%nat, x (2 * n + 1)%nat))) j).1,
       - (uppers tbl (Z.of_nat (2 ^ M)) (2 ^ k)%nat (2 ^ (M - S k))%nat
          (dft (2 ^ k)%nat (w k) (fun n => (x (2 * n)%nat, x (2 * n + 1)%nat))) j).2)%num).
  { intros j Hj. rewrite (dft_split k (w (S k)) x (ndec 5 (-1)%Z) j R (sines_unit w Hw _) half_half Hj).
    rewrite (sines_square w Hw).
    assert (Ew : cpow (w (S k)) j = (entry tbl (Z.quot (Z.of_nat (2 ^ M)) 4 + Z.of_nat (j * 2 ^ (M - S k))%nat),
       - entry tbl (Z.of_nat (j * 2 ^ (M - S k))%nat))%num).
    { rewrite <-(table_power tb tbl M _ Hh).
      - rewrite Nat.mul_comm, cpow_mul. f_equal. replace M with (S k + (M - S k)) at 1 by lia.
        symmetry. apply root_power.
      - replace (M - 1) with (k + (M - S k)) by lia. rewrite Nat.pow_add_r.
        pose proof (pow2_pos (M - S k)). nia. }
    rewrite Ew. cbn [fst snd]. unfold uppers, upper. cbn [fst snd]. f_equal; ring. }
  unfold spectrum. cbv zeta.
  destruct (Nat.eqb_spec q 0) as [->|N0]; [by rewrite E0|].
  destruct (Nat.eqb_spec q (2 ^ k)) as [->|N1]; [by rewrite E1|].
  destruct (Nat.ltb_spec q (2 ^ k)); [by rewrite Mid by lia|].
  rewrite Nat.pow_succ_r' in Hq. replace q with (2 ^ S k - (2 * 2 ^ k - q)) at 2
    by (rewrite Nat.pow_succ_r'; lia).
  rewrite (dft_real (S k)); [|done|apply Hw|rewrite Nat.pow_succ_r'; lia].
  rewrite Mid by lia. destruct (uppers _ _ _ _ _ _) as [u v]. cbv [conj fst snd]. f_equal. ring.
Qed.

(** ** The transforms *)

(** [fft] computes the transform *)
Lemma fft_computes n K st tb :
  dims n st -> 2 <= K <= 28 -> (Z.of_nat (2 ^ K) <= n)%Z -> tables_ok sin tb ->
  yields (fft sin st (Z.of_nat (2 ^ K)) tb) (fun r =>
    r.1.1 = 0%Z /\ tables_ok sin r.2 /\ dims n r.1.2 /\
    forall q, point r.1.2 q = if q <? 2 ^ K then dft (2 ^ K) (w K) (point st) q else point st q).
Proof.
  intros D HK Hn Hok. eapply yields_mono; [by apply (fft_yields sin n K)|].
  intros r (tbl & M & Er & HM & Hh & Dr & _ & S1). split_and!; [done|right; by exists tbl, M|done|].
  intros q. rewrite S1. destruct (Nat.ltb_spec q (2 ^ K)) as [Hq|]; [|done].
  by apply (transformed_dft r.2); [|lia|].
Qed.

(** division by the number of points *)
Definition shared (N : nat) (z : F * F) : F * F := (z.1 / nZ (Z.of_nat N), z.2 / nZ (Z.of_nat N))%num.

(** [ifft] is the transform with the conjugate root, over the number of points *)
Lemma ifft_computes n K st tb :
  dims n st -> 2 <= K <= 28 -> (Z.of_nat (2 ^ K) <= n)%Z -> tables_ok sin tb ->
  yields (ifft sin st (Z.of_nat (2 ^ K)) tb) (fun r =>
    r.1.1 = 0%Z /\ tables_ok sin r.2 /\ dims n r.1.2 /\
    forall q, q < 2 ^ K -> point r.1.2 q = shared (2 ^ K) (dft (2 ^ K) (conj (w K)) (point st) q)).
Proof.
  intros D HK Hn Hok. eapply yields_mono; [by apply (ifft_yields sin n K)|].
  intros r (tbl & M & Er & HM & Hh & Dr & _ & S1). split_and!; [done|right; by exists tbl, M|done|].
  intros q Hq. rewrite S1 by done. rewrite (transformed_dft r.2) by (done || lia). cbv zeta.
  change (dft (2 ^ K) (w K) (point (swapped st)) q)
    with (dft (2 ^ K) (w K) (fun j => swap (point st j)) q).
  rewrite dft_swap. unfold shared. by destruct (dft _ _ _ _).
Qed.

Lemma shared_scaled N z : N <> 0 -> shared N (cmul (cre (nZ (Z.of_nat N))) z) = z.
Proof.
  intros HN. assert (nZ (Z.of_nat N) <> nZ 0) by (intros E; apply nZ_inj in E; lia).
  destruct z as [a b]. unfold shared. cbv [cmul cre fst snd]. f_equal; field; done.
Qed.

(** arrays of the same elements are the same *)
Lemma arrays_eq n (st st' : arrays) :
  dims n st -> dims n st' -> (forall q, (Z.of_nat q < n)%Z -> point st q = point st' q) -> st = st'.
Proof.
  intros [L1 L2] [M1 M2] E. unfold zlen in *. destruct st as [x y], st' as [x' y']. cbn [fst snd] in *.
  assert (G : forall (a b : list F), length a = length b -> (forall q, (q < length a) ->
    default (nZ 0) (a !! q) = default (nZ 0) (b !! q)) -> a = b).
  { intros a b Hl Hq. apply list_eq. intros i. destruct (decide (i < length a)) as [Hi|Hi].
    - specialize (Hq i Hi). destruct (lookup_lt_is_Some_2 a i Hi) as [u Eu].
      destruct (lookup_lt_is_Some_2 b i) as [v Ev]; [lia|]. rewrite Eu, Ev in *. by f_equal.
    - by rewrite !lookup_ge_None_2 by lia. }
  f_equal; apply G; try lia; intros q Hq; specialize (E q ltac:(lia)); by injection E.
Qed.

(** C20: on exact numbers with the sines of the roots of unity, [fft] of a
    power of two from 4 on accepts, replaces the first [2 ^ K] elements of the
    arrays by their discrete Fourier transform, leaves the rest, and leaves
    tables the next call can use. *)
Theorem fft_computes_dft n K st tb :
  dims n st -> 2 <= K <= 28 -> (Z.of_nat (2 ^ K) <= n)%Z -> tables_ok sin tb ->
  yields (fft sin st (Z.of_nat (2 ^ K)) tb) (fun r =>
    r.1.1 = 0%Z /\ tables_ok sin r.2 /\ dims n r.1.2 /\
    forall q, point r.1.2 q = if q <? 2 ^ K then dft (2 ^ K) (w K) (point st) q else point st q).
Proof. apply fft_computes. Qed.

(** C23: [ifft] undoes [fft]: on exact numbers both accept and the arrays are
    again what they were, whatever they hold. *)
Theorem ifft_undoes_fft K st tb :
  2 <= K <= 28 -> dims (Z.of_nat (2 ^ K)) st -> tables_ok sin tb ->
  yields (r ← fft sin st (Z.of_nat (2 ^ K)) tb; ifft sin r.1.2 (Z.of_nat (2 ^ K)) r.2) (fun r =>
    r.1 = (0%Z, st) /\ tables_ok sin r.2).
Proof.
  intros HK D Hok. set (n := Z.of_nat (2 ^ K)) in *.
  eapply yields_bind; [by apply (fft_computes n K)|]. intros r1 (_ & Hok1 & D1 & S1). cbn beta.
  eapply yields_mono; [by apply (ifft_computes n K)|]. intros [[r st2] tb2] (Er & Hok2 & D2 & S2).
  cbn [fst snd] in *. subst r. split; [|done]. f_equal. apply (arrays_eq n); [done..|].
  intros q Hq. assert (Hq' : q < 2 ^ K) by lia. rewrite S2 by done.
  replace (dft (2 ^ K) (conj (w K)) (point r1.1.2) q)
    with (dft (2 ^ K) (conj (w K)) (dft (2 ^ K) (w K) (point st)) q).
  - rewrite (dft_inverse K) by (try apply w_root; try apply (sines_unit w Hw); done).
    apply shared_scaled. pose proof (pow2_pos K). lia.
  - apply csum_ext. intros j Hj. by rewrite S1, (proj2 (Nat.ltb_lt _ _)) by done.
Qed.

(** [fftr] computes the transform of a real signal *)
Lemma fftr_computes n k st tb :
  dims n st -> 2 <= k -> S k <= 28 -> (Z.of_nat (2 ^ S k) <= n)%Z -> tables_ok sin tb ->
  yields (fftr sin st (Z.of_nat (2 ^ S k)) tb) (fun r =>
    r.1.1 = 0%Z /\ tables_ok sin r.2 /\ dims n r.1.2 /\
    forall q, q < 2 ^ S k ->
      point r.1.2 q = dft (2 ^ S k) (w (S k)) (fun j => cre (point st j).1) q).
Proof.
  intros D Hk HK Hn Hok. eapply yields_mono; [by apply (fftr_yields sin n k)|].
  intros r (tbl0 & M0 & tbl & M & Er & HM0 & HM & Hh & Dr & (tb0 & Hh0) & _ & S1).
  split_and!; [done|right; by exists tbl, M|done|]. intros q Hq. rewrite S1 by done.
  rewrite <-(spectrum_dft r.2 tbl M k (fun j => (point st j).1)) by (done || lia).
  unfold spectrum, uppers. pose proof (pow2_pos k). rewrite Nat.pow_succ_r' in Hq.
  assert (E : forall i, i < 2 ^ k -> transformed tbl0 M0 k (pairs (point st)) i
    = dft (2 ^ k) (w k) (fun n => ((point st (2 * n)).1, (point st (2 * n + 1)).1)) i).
  { intros i Hi. by rewrite (transformed_dft tb0) by (done || lia). }
  cbv zeta. rewrite !E by lia.
  destruct (Nat.eqb_spec q 0); [done|]. destruct (Nat.eqb_spec q (2 ^ k)); [done|].
  destruct (Nat.ltb_spec q (2 ^ k)); by rewrite !E by lia.
Qed.

(** C24: on exact numbers, with exact sines in the tables, [fftr] of a power of
    two from 8 on computes the transform of the real
    signal in [x] from a transform of half the length: the conjugate symmetry
    and the separation of even and odd elements are right at every index. *)
Theorem fftr_computes_dft n k st tb :
  dims n st -> 2 <= k -> S k <= 28 -> (Z.of_nat (2 ^ S k) <= n)%Z -> tables_ok sin tb ->
  yields (fftr sin st (Z.of_nat (2 ^ S k)) tb) (fun r =>
    r.1.1 = 0%Z /\ tables_ok sin r.2 /\ dims n r.1.2 /\
    forall q, q < 2 ^ S k ->
      point r.1.2 q = dft (2 ^ S k) (w (S k)) (fun j => cre (point st j).1) q).
Proof. apply fftr_computes. Qed.

End Exact.
End Fft.
