(* ===== verification/RealNum.v ===== *)
(** * Exact arithmetic on the real numbers

    The instance of [NumOps] at the reals: every operation of the numeric code
    without rounding, the square root, [exp], [log] and [pow] included.  The
    sines of a table are those of the roots of unity here, which exact rational
    arithmetic has not. *)

From Stdlib Require Import Reals Lra Field.
From S2P Require Import Prelude Num Dft Fft.
Import Fft.
#[local] Open Scope Z_scope.
#[local] Open Scope R_scope.

#[export] Instance Rlt_decision x y : Decision (x < y) := Rlt_dec x y.
#[export] Instance Rle_decision x y : Decision (x <= y) := Rle_dec x y.
#[export] Instance R_eq_dec : EqDecision R := Req_dec_T.

Definition Rdec (m e : Z) : R :=
  if (0 <=? e)%Z then IZR (m * 10 ^ e) else IZR m / IZR (10 ^ (- e)).
Definition Rtrunc (x : R) : Z := if decide (x < 0) then (- Int_part (- x))%Z else Int_part x.

#[export] Instance reals : NumOps R := {|
  nZ := IZR; ndec := Rdec;
  nadd := Rplus; nsub := Rminus; nmul := Rmult; ndiv := Rdiv; nopp := Ropp; nabs := Rabs;
  nsqrt := sqrt; nexp := exp; nlog := ln; npow := Rpower;
  nltb x y := bool_decide (x < y); nleb x y := bool_decide (x <= y); neqb x y := bool_decide (x = y);
  ntrunc x := Some (Rtrunc x); nfloor x := IZR (Int_part x); nsingle x := x
|}.

Lemma Int_part_IZR z : Int_part (IZR z) = z.
Proof. symmetry. apply Int_part_spec. lra. Qed.

#[export] Instance real_field : NumField R.
Proof.
  split; cbn.
  - constructor; [constructor; intros; cbn; ring|cbn; lra|intros; cbn; lra|].
    intros x Hx. cbn in *. field. done.
  - apply plus_IZR.
  - apply mult_IZR.
  - apply eq_IZR.
  - intros x y. apply bool_decide_eq_true.
  - intros z. unfold Rtrunc. f_equal. rewrite <-opp_IZR. destruct (decide _); rewrite Int_part_IZR; lia.
  - intros m e He. unfold Rdec. destruct (Z.leb_spec 0 (- e)) as [Hle|].
    + assert (e = 0)%Z as -> by lia. cbn. rewrite Z.mul_1_r. lra.
    + by rewrite Z.opp_involutive.
  - intros m e He. unfold Rdec. by rewrite (proj2 (Z.leb_le 0 e)) by done.
Qed.

#[export] Instance real_ordered : NumOrdered R.
Proof.
  assert (N : forall x : R, nonneg x <-> 0 <= x) by (intros x; apply bool_decide_eq_true).
  split; intros; rewrite ?N in *; cbn in *.
  - apply bool_decide_ext. lra.
  - destruct (decide (y <= x)).
    + rewrite (bool_decide_eq_true_2 (y <= x)) by done. apply bool_decide_eq_false_2. lra.
    + rewrite (bool_decide_eq_false_2 (y <= x)) by done. apply bool_decide_eq_true_2. lra.
  - lra.
  - by apply Rmult_le_pos.
  - apply Rle_0_sqr.
  - lra.
Qed.

(** ** The roots of unity *)

(** the sine of a table's argument, whose [M_PI] is a rational number *)
Definition table_sin (x : R) : R := sin (x * (PI / M_PI)).

Definition angle (K : nat) : R := 2 * PI / 2 ^ K.
Definition unit_root (K : nat) : cpx (F := R) := (cos (angle K), - sin (angle K)).

Lemma unit_power K j : cpow (unit_root K) j = (cos (INR j * angle K), - sin (INR j * angle K)).
Proof.
  induction j as [|j IH].
  - cbn [cpow INR]. rewrite Rmult_0_l, cos_0, sin_0. unfold c1, cre. cbn. f_equal. lra.
  - cbn [cpow]. rewrite IH, S_INR, Rmult_plus_distr_r, Rmult_1_l, cos_plus, sin_plus.
    unfold cmul, unit_root. cbn. f_equal; ring.
Qed.

Lemma M_PI_pos : (M_PI : R) <> 0.
Proof.
  unfold M_PI. cbn [ndec reals]. unfold Rdec. cbn [Z.leb Z.compare].
  apply Rmult_integral_contrapositive. split; [|apply Rinv_neq_0_compat]; by apply not_0_IZR.
Qed.

Lemma pow2_real K : IZR (Z.of_nat (2 ^ K)) = 2 ^ K.
Proof. rewrite <-INR_IZR_INZ, pow_INR. done. Qed.

Lemma pow2_nonzero K : 2 ^ K <> 0.
Proof. apply pow_nonzero. lra. Qed.

(** an entry is the sine of its share of the circle *)
Lemma table_sine M j : (1 <= M)%nat ->
  sine table_sin (Z.of_nat (2 ^ M)) (Z.of_nat j) = sin (INR j * angle M).
Proof.
  intros HM. unfold sine. destruct (Z.eqb_spec (Z.of_nat j) 0) as [E|N0].
  { assert (j = 0)%nat as -> by lia. cbn [orb INR]. by rewrite Rmult_0_l, sin_0. }
  destruct M as [|M]; [lia|]. rewrite quot_pow2. cbn [orb].
  destruct (Z.eqb_spec (Z.of_nat j) (Z.of_nat (2 ^ M))) as [E|N1].
  - apply Nat2Z.inj in E as ->. cbn [nZ reals]. rewrite pow_INR. unfold angle.
    change (INR 2) with 2. cbn [pow].
    replace (2 ^ M * (2 * PI / (2 * 2 ^ M))) with PI by (field; apply pow2_nonzero).
    by rewrite sin_PI.
  - unfold table_sin. cbn [nZ ndiv nmul reals]. rewrite pow2_real, <-INR_IZR_INZ.
    f_equal. unfold angle. field. split; [apply pow2_nonzero|apply M_PI_pos].
Qed.

Lemma real_sines : exact_sines table_sin unit_root.
Proof.
  split.
  - unfold unit_root, angle. replace (2 * PI / 2 ^ 0) with (2 * PI) by (cbn; field).
    rewrite cos_2PI, sin_2PI. unfold c1, cre. cbn. f_equal. lra.
  - unfold unit_root, angle. replace (2 * PI / 2 ^ 1) with PI by (cbn; field).
    rewrite cos_PI, sin_PI. unfold copp, c1, cre. cbn. f_equal; lra.
  - intros K. transitivity (cpow (unit_root (S K)) 2); [cbn; unfold cmul, c1, cre; cbn; f_equal; ring|].
    rewrite unit_power. unfold unit_root, angle. cbn [pow INR].
    replace ((1 + 1) * (2 * PI / (2 * 2 ^ K))) with (2 * PI / 2 ^ K) by (field; apply pow2_nonzero).
    done.
  - intros K. unfold unit_root, cmul, conj, c1, cre. cbn.
    pose proof (sin2_cos2 (angle K)) as E. unfold Rsqr in E. f_equal; lra.
  - intros M j HM Hj. rewrite unit_power, !table_sine by lia. cbn [nopp reals].
    f_equal. rewrite cos_sin. f_equal. rewrite plus_INR, Rmult_plus_distr_r. f_equal.
    destruct (div4 M HM) as (-> & E & _). rewrite pow_INR. change (INR 2) with 2. unfold angle.
    apply (f_equal INR) in E. rewrite mult_INR, !pow_INR in E. change (INR 2) with 2 in E.
    change (INR 4) with (1 + 1 + 1 + 1) in E. rewrite <-E. field. apply pow2_nonzero.
Qed.

(** ** The transforms at work *)

Definition no_tables : tables (F := R) := mkTables None 0.

Lemma no_tables_ok : tables_ok table_sin no_tables.
Proof. by left. Qed.

Definition ex_arrays : arrays (F := R) := ([1; 2; 3; 4; 5; 6; 7; 8], [0; 1; 0; 1; 0; 1; 0; 1]).

Lemma ex_arrays_dims : dims 8 ex_arrays.
Proof. done. Qed.

Lemma fft_computes_dft_witness :
  yields (fft table_sin ex_arrays (Z.of_nat (2 ^ 2)) no_tables) (fun r =>
    r.1.1 = 0%Z /\ tables_ok table_sin r.2 /\ dims 8 r.1.2 /\
    forall q, point r.1.2 q
      = if (q <? 2 ^ 2)%nat then dft (2 ^ 2) (unit_root 2) (point ex_arrays) q else point ex_arrays q).
Proof.
  apply (fft_computes_dft table_sin unit_root real_sines 8 2);
    [exact ex_arrays_dims|lia|done|exact no_tables_ok].
Defined.

Lemma ifft_undoes_fft_witness :
  yields (r ← fft table_sin ex_arrays (Z.of_nat (2 ^ 3)) no_tables;
          ifft table_sin r.1.2 (Z.of_nat (2 ^ 3)) r.2)
    (fun r => r.1 = (0%Z, ex_arrays) /\ tables_ok table_sin r.2).
Proof.
  apply (ifft_undoes_fft table_sin unit_root real_sines 3); [lia|exact ex_arrays_dims|exact no_tables_ok].
Defined.

Lemma fftr_computes_dft_witness :
  yields (fftr table_sin ex_arrays (Z.of_nat (2 ^ 3)) no_tables) (fun r =>
    r.1.1 = 0%Z /\ tables_ok table_sin r.2 /\ dims 8 r.1.2 /\
    forall q, (q < 2 ^ 3)%nat ->
      point r.1.2 q = dft (2 ^ 3) (unit_root 3) (fun j => cre (point ex_arrays j).1) q).
Proof.
  apply (fftr_computes_dft table_sin unit_root real_sines 8 2);
    [exact ex_arrays_dims|lia|lia|done|exact no_tables_ok].
Defined.
