(* ===== verification/MlsaCheck.v ===== *)
(** * The stability check of the spectrum filter (mage/libs/sptk/mlsacheck-sptk.c)

    [mlsacheck] as [ModelQueue.generate] calls it on the spectral row of a
    frame: the gain is taken out, the log spectrum of the row is computed,
    bins above the stable amplitude of the Pade approximation are reduced, and
    the row is transformed back. *)

From Stdlib Require Import Reals Lra Field.
From S2P Require Import Prelude Num Constants Dft Fft RealNum.
Import Fft.
#[local] Open Scope Z_scope.

Module MlsaCheck.

Definition STABLE1 : Z := 0.
Definition STABLE2 : Z := 1.
Definition TR : Z := 1.

Section Check.
Context {F : Type} `{NumOps F}.
#[local] Open Scope num_scope.
#[local] Open Scope Z_scope.
Variable sin : F -> F.

(** the gain factor *)
Definition gain_factor (x : list F) (m : Z) (a : F) : Res F :=
  for_up 0 (m + 1) (fun i K => v ← rd x i; Ok (K + v * npow a (nZ i))%num) (nZ 0).

(** the row in arrays of the length of the transform, its gain taken out *)
Definition prepare (mcep : list F) (m fftlen : Z) (a : F) : Res (arrays (F := F) * F) :=
  x ← dgetmem fftlen;
  y ← dgetmem fftlen;
  '(x, y) ← for_up 0 fftlen (fun i '(x, y) =>
    x ← wr x i (nZ 0); y ← wr y i (nZ 0); Ok (x, y)) (x, y);
  n ← i32 (m + 1);
  x ← for_up 0 n (fun i x => v ← rd mcep i; wr x i v) x;
  K ← gain_factor x m a;
  x ← upd x 0 (fun v => Ok (v - K)%num);
  Ok ((x, y), K).

(** [x[i] *= r; y[i] *= r; x[fftlen - 1 - i] *= r; y[fftlen - 1 - i] *= r] *)
Definition scale (fftlen i : Z) (r : F) (st : arrays (F := F)) : Res (arrays (F := F)) :=
  let '(x, y) := st in
  x ← upd x i (fun v => Ok (v * r)%num);
  y ← upd y i (fun v => Ok (v * r)%num);
  x ← upd x (fftlen - 1 - i) (fun v => Ok (v * r)%num);
  y ← upd y (fftlen - 1 - i) (fun v => Ok (v * r)%num);
  Ok (x, y).

Definition check_bin (fftlen : Z) (R1 R2 : F) (modify_filter stable_condition i : Z)
    (s : arrays (F := F) * list F) : Res (arrays (F := F) * list F) :=
  let '((x, y), mag) := s in
  a ← rd x i; b ← rd y i;
  mag ← wr mag i (a * a + b * b)%num;
  mag ← upd mag i (fun v => Ok (nsqrt v));
  g ← rd mag i;
  if ((R1 <? g) || (R2 <? g))%num then
    if modify_filter =? TR then
      if stable_condition =? STABLE1 then
        if (R1 <? g)%num then st ← scale fftlen i (R1 / g)%num (x, y); Ok (st, mag)
        else Ok ((x, y), mag)
      else if stable_condition =? STABLE2 then
        if (R2 <? g)%num then st ← scale fftlen i (R2 / g)%num (x, y); Ok (st, mag)
        else Ok ((x, y), mag)
      else Ok ((x, y), mag)
    else Ok ((x, y), mag)
  else Ok ((x, y), mag).

Definition check_bins (fftlen : Z) (R1 R2 : F) (modify_filter stable_condition : Z)
    (st : arrays (F := F)) : Res (arrays (F := F)) :=
  mag ← dgetmem (Z.quot fftlen 2);
  '(st, _) ← for_up 0 (Z.quot fftlen 2) (check_bin fftlen R1 R2 modify_filter stable_condition)
    (st, mag);
  Ok st.

(** the gain put back and the row overwritten *)
Definition restore (mcep : list F) (m : Z) (K : F) (x : list F) : Res (list F) :=
  x ← upd x 0 (fun v => Ok (v + K)%num);
  for_up 0 (m + 1) (fun i mcep => v ← rd x i; wr mcep i v) mcep.

(** the row and the tables of the transform; the frame number is not used *)
Definition mlsacheck (mcep : list F) (m fftlen : Z) (a R1 R2 : F)
    (modify_filter stable_condition : Z) (tb : tables (F := F)) : Res (list F * tables (F := F)) :=
  '(st, K) ← prepare mcep m fftlen a;
  '(_, st, tb) ← fftr sin st fftlen tb;
  st ← check_bins fftlen R1 R2 modify_filter stable_condition st;
  '(_, st, tb) ← ifft sin st fftlen tb;
  mcep ← restore mcep m K st.1;
  Ok (mcep, tb).

(** as [ModelQueue.generate] calls it *)
Definition check_frame (row : list F) (tb : tables (F := F)) : Res (list F * tables (F := F)) :=
  mlsacheck row (nOfMGCs - 1) fftLen defaultAlpha R1 R2 1 0 tb.

(** ** The parts *)

(** the coefficients, and their gain *)
Definition coefficient (mcep : list F) (m : Z) (q : nat) : F :=
  if Z.of_nat q <=? m then default (nZ 0) (mcep !! q) else nZ 0.

Fixpoint gain_sum (mcep : list F) (m : Z) (a : F) (n : nat) : F :=
  match n with
  | O => nZ 0
  | S n => (gain_sum mcep m a n + coefficient mcep m n * npow a (nZ (Z.of_nat n)))%num
  end.
Definition gain (mcep : list F) (m : Z) (a : F) : F := gain_sum mcep m a (Z.to_nat (m + 1)).

Definition normalised (mcep : list F) (m : Z) (a : F) (q : nat) : F :=
  if (q =? 0)%nat then (coefficient mcep m 0 - gain mcep m a)%num else coefficient mcep m q.

Lemma dgetmem_yields n : 0 <= n -> dgetmem n = Ok (replicate (Z.to_nat n) (nZ 0 : F)).
Proof. intros. unfold dgetmem. by rewrite (proj2 (Z.ltb_ge _ _)) by lia. Qed.

Lemma element_insert (l : list F) i q (v : F) :
  0 <= i < zlen l ->
  default (nZ 0) (<[Z.to_nat i := v]> l !! q)
  = if decide (q = Z.to_nat i) then v else default (nZ 0) (l !! q).
Proof.
  intros Hi. unfold zlen in Hi. destruct (decide _) as [->|Hne].
  - by rewrite list_lookup_insert_eq by lia.
  - by rewrite list_lookup_insert_ne by done.
Qed.

Lemma rd_element (l : list F) i : 0 <= i < zlen l -> rd l i = Ok (default (nZ 0) (l !! Z.to_nat i)).
Proof. intros Hi. by destruct (yields_rd l i Hi) as (v & -> & ->). Qed.

Lemma row_prepared mcep m n a :
  0 <= m -> m + 1 <= n -> n < 2 ^ 31 -> m + 1 <= zlen mcep ->
  yields (prepare mcep m n a) (fun r => dims n r.1 /\ r.2 = gain mcep m a /\
    forall q, point r.1 q = (normalised mcep m a q, nZ 0)).
Proof.
  intros Hm Hn Hn31 Hl. unfold prepare. rewrite !dgetmem_yields, !bind_Ok by lia.
  assert (Z0 : forall q, default (nZ 0) (replicate (Z.to_nat n) (nZ 0 : F) !! q) = nZ 0).
  { intros q. destruct (_ !! q) as [v|] eqn:E; [|done]. by apply lookup_replicate in E as [-> _]. }
  eapply yields_bind.
  { apply (for_up_yields (fun _ st => dims n st /\ forall q, point st q = (nZ 0, nZ 0))); [lia| |].
    - split; [split; cbn; rewrite zlen_replicate; lia|]. intros q. unfold point. cbn [fst snd].
      by rewrite Z0.
    - intros i [x y] Hi [D S]. pose proof D as [L1 L2]. cbn [fst snd] in L1, L2.
      rewrite !wr_ok, !bind_Ok by lia. apply yields_ok.
      change (dims n (put (x, y) (Z.to_nat i) (nZ 0, nZ 0)) /\
        forall q, point (put (x, y) (Z.to_nat i) (nZ 0, nZ 0)) q = (nZ 0, nZ 0)).
      split; [by apply put_dims|]. intros q. rewrite (point_put n) by (done || lia).
      by destruct (decide _). }
  intros [x y] [[L1 L2] S]. cbn [fst snd] in L1, L2.
  assert (Sx : forall q, default (nZ 0) (x !! q) = nZ 0) by (intros q; specialize (S q); by injection S).
  assert (Sy : forall q, default (nZ 0) (y !! q) = nZ 0) by (intros q; specialize (S q); by injection S).
  rewrite (i32_ok (m + 1)), bind_Ok by lia. eapply yields_bind.
  { apply (for_up_yields (fun i x' => zlen x' = n /\ forall q, default (nZ 0) (x' !! q)
      = if Z.of_nat q <? i then default (nZ 0) (mcep !! q) else nZ 0)); [lia| |].
    - split; [done|]. intros q. by rewrite (proj2 (Z.ltb_ge _ _)), Sx by lia.
    - intros i x' Hi [L' S']. rewrite rd_element, bind_Ok, wr_ok by lia. apply yields_ok.
      rewrite zlen_insert. split; [done|]. intros q. rewrite element_insert, S' by lia.
      destruct (decide _) as [->|Hne]; case Z.ltb_spec; try case Z.ltb_spec; done || lia. }
  intros x1 [M1 S1]. unfold gain_factor. cbn beta.
  assert (C1 : forall q, default (nZ 0) (x1 !! q) = coefficient mcep m q).
  { intros q. rewrite S1. unfold coefficient. case Z.ltb_spec; case Z.leb_spec; done || lia. }
  eapply yields_bind.
  { apply (for_up_yields (fun i K => K = gain_sum mcep m a (Z.to_nat i))); [lia|done|].
    intros i K Hi ->. rewrite rd_element, bind_Ok, C1 by lia. apply yields_ok.
    replace (Z.to_nat (i + 1)) with (Datatypes.S (Z.to_nat i)) by lia. cbn [gain_sum].
    by rewrite Z2Nat.id by lia. }
  intros K ->. cbn beta. unfold upd.
  rewrite rd_element, !bind_Ok, wr_ok, bind_Ok by lia. apply yields_ok. cbn [fst snd].
  split; [split; cbn [fst snd]; [by rewrite zlen_insert|done]|]. split; [done|].
  intros q. unfold point. cbn [fst snd]. rewrite element_insert, Sy by lia. rewrite !C1.
  unfold normalised. by destruct q.
Qed.

(** ** The bins *)

Definition size (z : F * F) : F := nsqrt (z.1 * z.1 + z.2 * z.2)%num.

(** neither bound is exceeded *)
Definition stable (R1 R2 : F) (z : F * F) : bool := negb ((R1 <? size z) || (R2 <? size z))%num.

(** what a bin is multiplied with *)
Definition factor (R1 R2 : F) (modify_filter stable_condition : Z) (z : F * F) : option F :=
  if stable R1 R2 z || negb (modify_filter =? TR) then None
  else if stable_condition =? STABLE1 then
    if (R1 <? size z)%num then Some (R1 / size z)%num else None
  else if stable_condition =? STABLE2 then
    if (R2 <? size z)%num then Some (R2 / size z)%num else None
  else None.

Definition shrink (r : option F) (z : F * F) : F * F :=
  match r with Some r => (z.1 * r, z.2 * r)%num | None => z end.

(** the spectrum after the check: element [2 * h - 1 - i] is treated as the
    image of element [i] *)
Definition limited (fac : F * F -> option F) (h : nat) (f : nat -> F * F) (q : nat) : F * F :=
  shrink (fac (f (if (q <? h)%nat then q else 2 * h - 1 - q)%nat)) (f q).

Lemma scale_put n i j r st :
  dims n st -> 0 <= i < n -> 0 <= j < n -> i <> j -> j = n - 1 - i ->
  scale n i r st = Ok (put (put st (Z.to_nat i) (shrink (Some r) (point st (Z.to_nat i))))
                         (Z.to_nat j) (shrink (Some r) (point st (Z.to_nat j)))).
Proof.
  intros D Hi Hj Hne Ej. destruct st as [x y]. pose proof D as [L1 L2]. cbn [fst snd] in L1, L2.
  unfold scale, upd. rewrite <-Ej.
  rewrite !(rd_element x i), !(rd_element y i), !bind_Ok by lia.
  rewrite !wr_ok, !bind_Ok by lia.
  rewrite !(rd_element (<[_ := _]> x) j), !(rd_element (<[_ := _]> y) j), !bind_Ok
    by (rewrite zlen_insert; lia).
  rewrite !wr_ok, !bind_Ok by (rewrite zlen_insert; lia).
  rewrite !element_insert by lia. by rewrite !decide_False by lia.
Qed.

(** one round leaves every bin alone or scales it and its image *)
Lemma check_bin_put n R1 R2 mf sc i st mag :
  dims n st -> n - 1 - i <> i -> 0 <= i < zlen mag -> i < n ->
  yields (check_bin n R1 R2 mf sc i (st, mag)) (fun r => zlen r.2 = zlen mag /\
    let fac := factor R1 R2 mf sc (point st (Z.to_nat i)) in
    r.1 = match fac with
          | Some _ => put (put st (Z.to_nat i) (shrink fac (point st (Z.to_nat i))))
                        (Z.to_nat (n - 1 - i)) (shrink fac (point st (Z.to_nat (n - 1 - i))))
          | None => st
          end).
Proof.
  intros D Hne Hi Hn. destruct st as [x y]. pose proof D as [L1 L2]. cbn [fst snd] in L1, L2.
  unfold check_bin, upd. rewrite !rd_element, !bind_Ok by lia. rewrite wr_ok, bind_Ok by lia.
  rewrite rd_element, !bind_Ok by (rewrite zlen_insert; lia).
  rewrite wr_ok, bind_Ok by (rewrite zlen_insert; lia).
  rewrite rd_element, bind_Ok by (rewrite !zlen_insert; lia).
  rewrite !element_insert by (rewrite ?zlen_insert; lia).
  rewrite !decide_True by done. cbv zeta.
  change (nsqrt _) with (size (point (x, y) (Z.to_nat i))).
  unfold factor, stable. set (g := size _).
  destruct (R1 <? g)%num, (R2 <? g)%num, (mf =? TR), (sc =? STABLE1), (sc =? STABLE2); cbn [negb orb];
    rewrite ?(scale_put n i (n - 1 - i)), ?bind_Ok by (done || lia);
    apply yields_ok; cbn [fst snd]; by rewrite ?zlen_insert.
Qed.

Lemma check_bins_yields h R1 R2 mf sc st :
  dims (Z.of_nat (2 * h)) st ->
  yields (check_bins (Z.of_nat (2 * h)) R1 R2 mf sc st) (fun st' => dims (Z.of_nat (2 * h)) st' /\
    forall q, (q < 2 * h)%nat -> point st' q = limited (factor R1 R2 mf sc) h (point st) q).
Proof.
  intros D. unfold check_bins.
  replace (Z.quot (Z.of_nat (2 * h)) 2) with (Z.of_nat h).
  2: { rewrite (Z.quot_div_nonneg _ 2), Nat2Z.inj_mul, Z.mul_comm, Z.div_mul by lia. done. }
  rewrite dgetmem_yields, bind_Ok by lia. set (n := Z.of_nat (2 * h)) in *.
  eapply yields_bind.
  { apply (for_up_yields (fun i r => dims n r.1 /\ zlen r.2 = Z.of_nat h /\ forall q, (q < 2 * h)%nat ->
      point r.1 q = if (q <? Z.to_nat i)%nat || (2 * h - Z.to_nat i <=? q)%nat
                    then limited (factor R1 R2 mf sc) h (point st) q else point st q)); [lia| |].
    - cbn [fst snd]. split_and!; [done|rewrite zlen_replicate; lia|]. intros q Hq.
      rewrite (proj2 (Nat.ltb_ge _ _)), (proj2 (Nat.leb_gt _ _)) by lia. done.
    - intros i [st1 mag] Hi (D1 & Lm & S1). cbn [fst snd] in *.
      eapply yields_mono; [apply check_bin_put; (done || lia)|].
      intros [st2 mag2] [Lm2 E]. cbn [fst snd] in *. cbv zeta in E.
      assert (P1 : point st1 (Z.to_nat i) = point st (Z.to_nat i)).
      { rewrite S1 by lia. by rewrite (proj2 (Nat.ltb_ge _ _)), (proj2 (Nat.leb_gt _ _)) by lia. }
      assert (P2 : point st1 (Z.to_nat (n - 1 - i)) = point st (Z.to_nat (n - 1 - i))).
      { rewrite S1 by lia. by rewrite (proj2 (Nat.ltb_ge _ _)), (proj2 (Nat.leb_gt _ _)) by lia. }
      rewrite P1, P2 in E. split_and!; [|lia|].
      { subst st2. destruct (factor _ _ _ _ _); [by repeat apply put_dims|done]. }
      intros q Hq.
      assert (Hc : q = Z.to_nat i \/ q = Z.to_nat (n - 1 - i) \/
        ((q <? Z.to_nat (i + 1)) || (2 * h - Z.to_nat (i + 1) <=? q)
         = (q <? Z.to_nat i) || (2 * h - Z.to_nat i <=? q))%nat /\
        q <> Z.to_nat i /\ q <> Z.to_nat (n - 1 - i)).
      { destruct (decide (q = Z.to_nat i)); [by left|].
        destruct (decide (q = Z.to_nat (n - 1 - i))); [by right; left|]. right; right.
        split; [|done]. f_equal; [|]; apply eq_bool_prop_intro; rewrite !Is_true_true,
          ?Nat.ltb_lt, ?Nat.leb_le; lia. }
      destruct Hc as [-> | [-> | (-> & N1 & N2)]].
      + rewrite (proj2 (Nat.ltb_lt _ (Z.to_nat (i + 1)))) by lia. cbn [orb].
        unfold limited. rewrite (proj2 (Nat.ltb_lt _ h)) by lia.
        subst st2. destruct (factor _ _ _ _ _) eqn:Ef; [|by rewrite P1].
        rewrite (point_put n) by (try apply put_dims; done || lia). rewrite decide_False by lia.
        rewrite (point_put n) by (done || lia). by rewrite decide_True by done.
      + rewrite (proj2 (Nat.leb_le _ (Z.to_nat (n - 1 - i)))), orb_true_r by lia.
        unfold limited. rewrite (proj2 (Nat.ltb_ge _ h)) by lia.
        replace (2 * h - 1 - Z.to_nat (n - 1 - i))%nat with (Z.to_nat i) by lia.
        subst st2. destruct (factor _ _ _ _ _) eqn:Ef; [|by rewrite P2].
        rewrite (point_put n) by (try apply put_dims; done || lia). by rewrite decide_True by done.
      + rewrite <-S1 by done. subst st2. destruct (factor _ _ _ _ _); [|done].
        rewrite !(point_put n) by (try apply put_dims; done || lia). by rewrite !decide_False by done. }
  intros [st1 mag] (D1 & _ & S1). cbn [fst snd] in *. apply yields_ok. split; [done|].
  intros q Hq. rewrite S1 by done. rewrite Nat2Z.id.
  destruct (Nat.ltb_spec q h); [done|]. by rewrite (proj2 (Nat.leb_le _ _)) by lia.
Qed.

Lemma restore_yields mcep m K x :
  0 <= m -> m + 1 <= zlen x -> m + 1 <= zlen mcep ->
  yields (restore mcep m K x) (fun r => zlen r = zlen mcep /\ forall q,
    r !! q = if Z.of_nat q <=? m
             then Some (if (q =? 0)%nat then default (nZ 0) (x !! O) + K else default (nZ 0) (x !! q))%num
             else mcep !! q).
Proof.
  intros Hm Hx Hl. unfold restore, upd. rewrite rd_element, !bind_Ok, wr_ok, bind_Ok by lia.
  eapply yields_mono; [apply (for_up_yields (fun i r => zlen r = zlen mcep /\ forall q,
    r !! q = if Z.of_nat q <? i
             then Some (if (q =? 0)%nat then default (nZ 0) (x !! O) + K else default (nZ 0) (x !! q))%num
             else mcep !! q))|].
  - lia.
  - split; [done|]. intros q. by rewrite (proj2 (Z.ltb_ge _ _)) by lia.
  - intros i r Hi [L S]. rewrite rd_element, bind_Ok, wr_ok by (rewrite ?zlen_insert; lia).
    apply yields_ok. rewrite zlen_insert. split; [done|]. intros q.
    rewrite element_insert by lia. unfold zlen in *. destruct (decide (q = Z.to_nat i)) as [->|Hne].
    + rewrite list_lookup_insert_eq, (proj2 (Z.ltb_lt _ _)) by lia. f_equal.
      destruct (decide _) as [E|E]; case Nat.eqb_spec; done || lia.
    + rewrite list_lookup_insert_ne, S by done. case Z.ltb_spec; case Z.ltb_spec; done || lia.
  - intros r [L S]. split; [done|]. intros q. rewrite S. case Z.ltb_spec; case Z.leb_spec; done || lia.
Qed.

(** ** The interface to the frames *)

(** the check returns, for any numbers, and keeps the length of the row and
    what lies beyond the coefficients; tables that are large enough stay *)
Lemma mlsacheck_yields mcep m k a R1 R2 mf sc tb :
  (2 <= k)%nat -> (S k <= 28)%nat -> 0 <= m -> m + 1 <= Z.of_nat (2 ^ S k) -> m + 1 <= zlen mcep ->
  tables_ok sin tb ->
  yields (mlsacheck mcep m (Z.of_nat (2 ^ S k)) a R1 R2 mf sc tb) (fun r =>
    zlen r.1 = zlen mcep /\ (exists tbl M, (S k <= M)%nat /\ holds_sines sin r.2 tbl M) /\
    (forall tbl M, holds_sines sin tb tbl M -> (S k <= M)%nat -> r.2 = tb) /\
    forall q, m < Z.of_nat q -> r.1 !! q = mcep !! q).
Proof.
  intros Hk HK Hm Hn Hl Hok. set (n := Z.of_nat (2 ^ S k)) in *. unfold mlsacheck.
  pose proof (pow2_small (S k) HK) as P28.
  eapply yields_bind; [apply (row_prepared mcep m n a); (done || lia)|]. intros [st K] (D & _ & _).
  cbn [fst snd] in D. eapply yields_bind; [by apply (fftr_yields sin n k)|].
  intros [[r1 st1] tb1] (_ & _ & tbl & M & _ & _ & HM & Hh & D1 & _ & Same1 & _). cbn [fst snd] in *.
  assert (En : n = Z.of_nat (2 * 2 ^ k)) by (unfold n; by rewrite Nat.pow_succ_r'). rewrite En in *.
  eapply yields_bind; [by apply check_bins_yields|]. intros st2 [D2 _].
  rewrite <-En in *. assert (Hok1 : tables_ok sin tb1) by (right; by exists tbl, M).
  eapply yields_bind; [apply (ifft_yields sin n (S k)); (done || lia)|].
  intros [[r3 st3] tb3] (tbl3 & M3 & _ & HM3 & Hh3 & D3 & Same3 & _). cbn [fst snd] in *.
  eapply yields_bind; [apply restore_yields; (done || (destruct D3; lia))|].
  intros row [L S]. apply yields_ok. cbn [fst snd]. split_and!; [done|by exists tbl3, M3| |].
  - intros tbl0 M0 H0 HM0. rewrite <-(Same1 tbl0 M0 H0 HM0).
    specialize (Same3 tbl M Hh HM). by injection Same3.
  - intros q Hq. by rewrite S, (proj2 (Z.leb_gt _ _)) by done.
Qed.

(** once the tables hold the sines of [fftLen] points, the check is a function
    of the row, as [ModelQueue.generate] takes it *)
Definition checked (tb : tables (F := F)) (row : list F) : list F :=
  match check_frame row tb with Ok (row', _) => row' | _ => row end.

Definition settled (tb : tables (F := F)) : Prop :=
  exists tbl M, (8 <= M)%nat /\ holds_sines sin tb tbl M.

Lemma restore_len mcep m K x r : restore mcep m K x = Ok r -> zlen r = zlen mcep.
Proof.
  unfold restore. intros E. apply bind_inv_Ok in E as (x' & _ & E).
  destruct (Z.le_gt_cases 0 (m + 1)) as [Hm|Hm].
  - apply (for_up_inv (fun _ r => zlen r = zlen mcep) _ _ _ _ _ E); [lia|done|].
    intros i s s' _ L Es. apply bind_inv_Ok in Es as (v & _ & Es). apply wr_inv in Es as [_ ->].
    by rewrite zlen_insert.
  - rewrite for_up_nil in E by lia. by injection E as ->.
Qed.

Lemma mlsacheck_len mcep m n a R1 R2 mf sc tb r :
  mlsacheck mcep m n a R1 R2 mf sc tb = Ok r -> zlen r.1 = zlen mcep.
Proof.
  unfold mlsacheck. intros E.
  apply bind_inv_Ok in E as ([st K] & _ & E). apply bind_inv_Ok in E as ([[r1 st1] tb1] & _ & E).
  apply bind_inv_Ok in E as (st2 & _ & E). apply bind_inv_Ok in E as ([[r3 st3] tb3] & _ & E).
  apply bind_inv_Ok in E as (row1 & E1 & E). apply restore_len in E1. by injection E as <-.
Qed.

Lemma checked_len tb row : zlen (checked tb row) = zlen row.
Proof.
  unfold checked. destruct (check_frame row tb) as [[row' tb']| | |] eqn:E; [|reflexivity..].
  exact (mlsacheck_len _ _ _ _ _ _ _ _ _ _ E).
Qed.

(** C21: the check is a function of the row: from tables no call has touched or
    that earlier calls left, one call on a row of the filter's coefficients
    returns and leaves tables of at least [fftLen] points; from then on every
    call returns [checked] of its row, of the row's length, and the tables
    stay as they are.  This is what the frames generation is proved against. *)
Theorem check_frame_pure row row' tb :
  tables_ok sin tb -> nOfMGCs <= zlen row -> nOfMGCs <= zlen row' ->
  yields (check_frame row tb) (fun r => zlen r.1 = zlen row /\ settled r.2 /\
    check_frame row' r.2 = Ok (checked r.2 row', r.2) /\ zlen (checked r.2 row') = zlen row').
Proof.
  intros Hok L L'. unfold nOfMGCs in *.
  assert (G : forall row tb, tables_ok sin tb -> 35 <= zlen row ->
    yields (check_frame row tb) (fun r => zlen r.1 = zlen row /\ settled r.2 /\
      (settled tb -> r.2 = tb))).
  { intros row0 tb0 Hok0 L0. change (check_frame row0 tb0) with
      (mlsacheck row0 34 (Z.of_nat (2 ^ 8)) defaultAlpha R1 R2 1 0 tb0).
    eapply yields_mono; [apply (mlsacheck_yields row0 34 7); (done || lia)|].
    intros r (Lr & Hs & Same & _). split_and!; [done|done|]. intros (tbl & M & HM & Hh). by eapply Same. }
  eapply yields_mono; [by apply G|]. intros [row1 tb1] (L1 & Hs & _). cbn [fst snd] in *.
  split_and!; [done|done| |apply checked_len].
  assert (Hok1 : tables_ok sin tb1) by (destruct Hs as (tbl & M & _ & Hh); right; by exists tbl, M).
  destruct (G row' tb1 Hok1 L') as ([row2 tb2] & E & _ & _ & Same). cbn [fst snd] in *.
  unfold checked. rewrite E. by rewrite Same.
Qed.

End Check.

Section Exact.
Context {F : Type} `{NumField F}.
Add Field check_field : num_field.
#[local] Open Scope nat_scope.
Variable sin : F -> F.
Context (w : nat -> cpx (F := F)) (Hw : exact_sines sin w).

(** the log spectrum of a row without its gain *)
Definition log_spectrum (mcep : list F) (m : Z) (a : F) (k : nat) : nat -> F * F :=
  dft (2 ^ k) (w k) (fun j => cre (normalised mcep m a j)).

(** back from a spectrum *)
Definition coefficients_of (k : nat) (f : nat -> F * F) (q : nat) : F :=
  (shared (2 ^ k) (dft (2 ^ k) (conj (w k)) f q)).1.

(** what the check writes *)
Lemma mlsacheck_row mcep m k a R1 R2 mf sc tb :
  2 <= k -> S k <= 28 -> (0 <= m)%Z -> (m + 1 <= Z.of_nat (2 ^ S k))%Z -> (m + 1 <= zlen mcep)%Z ->
  tables_ok sin tb ->
  yields (mlsacheck sin mcep m (Z.of_nat (2 ^ S k)) a R1 R2 mf sc tb) (fun r =>
    tables_ok sin r.2 /\ zlen r.1 = zlen mcep /\ forall q,
    let f := limited (factor R1 R2 mf sc) (2 ^ k) (log_spectrum mcep m a (S k)) in
    r.1 !! q = if (Z.of_nat q <=? m)%Z
               then Some (if (q =? 0)%nat then coefficients_of (S k) f 0%nat + gain mcep m a
                          else coefficients_of (S k) f q)%num
               else mcep !! q).
Proof.
  intros Hk HK Hm Hn Hl Hok. set (n := Z.of_nat (2 ^ S k)) in *. unfold mlsacheck.
  pose proof (pow2_small (S k) HK) as P28.
  eapply yields_bind; [apply (row_prepared mcep m n a); (done || lia)|]. intros [st K] (D & EK & S0).
  cbn [fst snd] in *. eapply yields_bind; [by apply (fftr_computes sin w Hw n k)|].
  intros [[r1 st1] tb1] (_ & Hok1 & D1 & S1). cbn [fst snd] in *.
  assert (En : n = Z.of_nat (2 * 2 ^ k)) by (unfold n; by rewrite Nat.pow_succ_r'). rewrite En in *.
  eapply yields_bind; [by apply check_bins_yields|]. intros st2 [D2 S2]. rewrite <-En in *.
  eapply yields_bind; [apply (ifft_computes sin w Hw n (S k)); (done || lia)|].
  intros [[r3 st3] tb3] (_ & Hok3 & D3 & S3). cbn [fst snd] in *.
  eapply yields_bind; [apply restore_yields; (done || (destruct D3; lia))|].
  intros row [L Sr]. apply yields_ok. cbn [fst snd]. split_and!; [done|done|]. intros q. cbv zeta.
  rewrite Sr. destruct (Z.leb_spec (Z.of_nat q) m) as [Hq|]; [|done]. f_equal.
  assert (E : forall q, (Z.of_nat q <= m)%Z -> default (nZ 0) (st3.1 !! q)
    = coefficients_of (S k) (limited (factor R1 R2 mf sc) (2 ^ k) (log_spectrum mcep m a (S k))) q).
  { intros i Hi. change (default (nZ 0) (st3.1 !! i)) with (point st3 i).1. rewrite S3 by lia.
    unfold coefficients_of. do 2 f_equal. apply csum_ext. intros j Hj. f_equal.
    rewrite S2 by (rewrite <-Nat.pow_succ_r'; done). unfold limited.
    assert (Hj' : (if j <? 2 ^ k then j else 2 * 2 ^ k - 1 - j) < 2 ^ S k).
    { rewrite Nat.pow_succ_r' in *. destruct (Nat.ltb_spec j (2 ^ k)); lia. }
    assert (E1 : forall i, i < 2 ^ S k -> point st1 i = log_spectrum mcep m a (S k) i).
    { intros i' Hi'. rewrite S1 by done. unfold log_spectrum. apply csum_ext. intros l Hl'.
      by rewrite S0. }
    by rewrite !E1. }
  rewrite !E by lia. by rewrite EK.
Qed.

(** C22: on exact numbers, with exact sines in the tables, a row whose spectrum,
    without its gain, stays within both bounds at every bin the loop visits is
    left as it was: the two transforms and the gain cancel.  (In binary64 they
    round, and the row comes back up to their rounding.) *)
Theorem stable_row_unchanged mcep m k a R1 R2 mf sc tb :
  2 <= k -> S k <= 28 -> (0 <= m)%Z -> (m + 1 <= Z.of_nat (2 ^ S k))%Z -> (m + 1 <= zlen mcep)%Z ->
  tables_ok sin tb ->
  (forall i, i < 2 ^ k -> stable R1 R2 (log_spectrum mcep m a (S k) i) = true) ->
  yields (mlsacheck sin mcep m (Z.of_nat (2 ^ S k)) a R1 R2 mf sc tb) (fun r => r.1 = mcep).
Proof.
  intros Hk HK Hm Hn Hl Hok Hst. eapply yields_mono; [by apply mlsacheck_row|].
  intros [row tb'] (_ & L & S). cbn [fst snd] in *. apply list_eq. intros q. rewrite S.
  destruct (Z.leb_spec (Z.of_nat q) m) as [Hq|]; [|done].
  assert (E : forall i, (Z.of_nat i <= m)%Z -> coefficients_of (Datatypes.S k)
    (limited (factor R1 R2 mf sc) (2 ^ k) (log_spectrum mcep m a (Datatypes.S k))) i
    = normalised mcep m a i).
  { intros i Hi. unfold coefficients_of.
    replace (dft _ _ _ i) with (dft (2 ^ Datatypes.S k) (conj (w (Datatypes.S k)))
      (log_spectrum mcep m a (Datatypes.S k)) i).
    - unfold log_spectrum. rewrite (dft_inverse (Datatypes.S k)) by
        (try apply (w_root sin w Hw); try apply (sines_unit sin w Hw); done || lia).
      pose proof (pow2_pos (Datatypes.S k)). by rewrite shared_scaled by lia.
    - apply csum_ext. intros j Hj. f_equal. unfold limited, factor. rewrite Hst; [done|].
      rewrite Nat.pow_succ_r' in Hj. destruct (Nat.ltb_spec j (2 ^ k)); lia. }
  unfold zlen in *. destruct (lookup_lt_is_Some_2 mcep q) as [v Ev]; [lia|].
  assert (Ec : coefficient mcep m q = v) by (unfold coefficient; by rewrite (proj2 (Z.leb_le _ _)), Ev by lia).
  rewrite Ev. f_equal. rewrite !E by lia. unfold normalised.
  destruct (Nat.eqb_spec q 0) as [->|]; [rewrite Ec; cbn [Nat.eqb]; ring|done].
Qed.

End Exact.
(** ** On the reals *)

Section Reals.
#[local] Open Scope R_scope.

Lemma size_shrink (r : R) z : 0 <= r -> size (shrink (Some r) z) = r * size z.
Proof.
  intros Hr. unfold size, shrink. cbn.
  replace (z.1 * r * (z.1 * r) + z.2 * r * (z.2 * r)) with ((r * r) * (z.1 * z.1 + z.2 * z.2)) by ring.
  rewrite sqrt_mult_alt by nra. by rewrite sqrt_square.
Qed.

(** C40: after the check every bin it visits, element 0 up to the middle of the
    spectrum, is within the first bound, whatever the spectrum was. *)
Theorem visited_bins_bounded h (R1 R2 : R) st :
  dims (Z.of_nat (2 * h)) st -> 0 <= R1 ->
  yields (check_bins (Z.of_nat (2 * h)) R1 R2 TR STABLE1 st) (fun st' =>
    forall q, (q < h)%nat -> size (point st' q) <= R1).
Proof.
  intros D HR. eapply yields_mono; [by apply check_bins_yields|]. intros st' [_ S] q Hq.
  rewrite S by lia. unfold limited. rewrite (proj2 (Nat.ltb_lt _ _)) by done.
  set (z := point st q). unfold factor, stable. cbn [negb Z.eqb TR STABLE1 orb Pos.eqb].
  cbn [nltb reals]. rewrite orb_false_r.
  destruct (bool_decide_reflect (R1 < size z)) as [Hgt|Hle]; cbn [orb negb].
  - rewrite size_shrink by (apply Rle_mult_inv_pos; lra). cbn [ndiv reals]. right. field. lra.
  - destruct (bool_decide _); cbn [negb]; unfold shrink; lra.
Qed.

(** *** Witnesses *)

(** a row of the first coefficient alone *)
Definition ex_row : list R := 5 :: replicate 34 0.

Lemma ex_row_normalised q : normalised ex_row 34 (55 / 100) q = 0.
Proof.
  assert (C : forall i, coefficient ex_row 34 (S i) = 0).
  { intros i. unfold coefficient, ex_row. destruct (_ <=? _)%Z; [|done].
    change ((5 :: replicate 34 0) !! S i) with (replicate 34 (0 : R) !! i).
    destruct (_ !! i) as [v|] eqn:E; [|done]. by apply lookup_replicate in E as [-> _]. }
  assert (G : forall n, gain_sum ex_row 34 (55 / 100) (S n) = 5).
  { induction n as [|n IH].
    - cbn [gain_sum nadd nmul nZ npow reals]. change (coefficient ex_row 34 0) with 5.
      rewrite Rpower_O by lra. lra.
    - cbn [gain_sum] in *. rewrite C, IH. cbn. lra. }
  destruct q as [|q]; [|apply C]. unfold normalised, gain. cbn [Nat.eqb].
  change (Z.to_nat (34 + 1)) with (S 34). rewrite G. change (coefficient ex_row 34 0) with 5. cbn. lra.
Qed.

Lemma ex_row_stable i : stable 6 (765 / 100) (log_spectrum unit_root ex_row 34 (55 / 100) 8 i) = true.
Proof.
  replace (log_spectrum unit_root ex_row 34 (55 / 100) 8 i) with (c0 : cpx (F := R)).
  - unfold stable, size. cbn. rewrite Rmult_0_l, Rplus_0_l, sqrt_0.
    rewrite !bool_decide_eq_false_2 by lra. done.
  - unfold log_spectrum, dft. rewrite csum_zero; [done|]. intros j _. rewrite ex_row_normalised.
    unfold cmul, c0, cre. cbn. f_equal; ring.
Qed.

Lemma stable_row_unchanged_witness :
  yields (mlsacheck table_sin ex_row 34 (Z.of_nat (2 ^ 8)) (55 / 100) 6 (765 / 100) 1 0 no_tables)
    (fun r => r.1 = ex_row).
Proof.
  apply (stable_row_unchanged table_sin unit_root real_sines ex_row 34 7); try lia.
  - apply Z.leb_le. reflexivity.
  - apply Z.leb_le. reflexivity.
  - exact no_tables_ok.
  - intros i _. exact (ex_row_stable i).
Defined.

Lemma visited_bins_bounded_witness :
  dims (Z.of_nat (2 * 4)) ex_arrays /\
  yields (check_bins (Z.of_nat (2 * 4)) 6 (765 / 100) TR STABLE1 ex_arrays) (fun st' =>
    forall q, (q < 4)%nat -> size (point st' q) <= 6).
Proof. split; [exact ex_arrays_dims|]. apply visited_bins_bounded; [exact ex_arrays_dims|lra]. Defined.

Lemma check_frame_pure_witness :
  yields (check_frame table_sin ex_row no_tables) (fun r =>
    zlen r.1 = zlen ex_row /\ settled table_sin r.2 /\
    check_frame table_sin ex_row r.2 = Ok (checked table_sin r.2 ex_row, r.2) /\
    zlen (checked table_sin r.2 ex_row) = zlen ex_row).
Proof. apply check_frame_pure; [exact no_tables_ok|apply Z.leb_le; reflexivity..]. Defined.

End Reals.
End MlsaCheck.
