(* ===== verification/Fifo.v ===== *)
(** * Bounded FIFO queues: the interface between the queues and their clients *)

From S2P Require Import Prelude.

(** The operations a client of a queue uses: a queue of items of type [I]. *)
Class FifoOps (Q I : Type) := {
  f_wf : Q -> Prop;                   (* representation invariant *)
  f_cap : Q -> Z;                     (* capacity *)
  f_contents : Q -> list I;           (* waiting items, oldest first *)
  f_push : Q -> I -> Res Q;
  f_pop : Q -> Res (I * Q);
  f_full : Q -> bool;
  f_empty : Q -> bool
}.

(** What a queue promises. *)
Class FifoLaws (Q I : Type) `{FifoOps Q I} := {
  f_bound : forall q, f_wf q -> zlen (f_contents q) <= f_cap q;
  f_push_law : forall q x, f_wf q -> zlen (f_contents q) < f_cap q ->
    yields (f_push q x) (fun q' =>
      f_wf q' /\ f_cap q' = f_cap q /\ f_contents q' = f_contents q ++ [x]);
  f_pop_law : forall q x l, f_wf q -> f_contents q = x :: l ->
    yields (f_pop q) (fun r =>
      r.1 = x /\ f_wf r.2 /\ f_cap r.2 = f_cap q /\ f_contents r.2 = l);
  f_full_law : forall q, f_wf q ->
    f_full q = true <-> zlen (f_contents q) = f_cap q;
  f_empty_law : forall q, f_wf q -> f_empty q = true <-> f_contents q = []
}.

(** ** Guarded use of a queue

    The clients of the two queues test [isFull] before a push and [isEmpty]
    before a pop.  This is that use, on any implementation of the interface. *)

Section Guarded.
Context {Q I : Type} `{FifoLaws Q I}.
Implicit Types q : Q.

Definition guarded_push q (x : I) : Res Q := if f_full q then Ok q else f_push q x.

Definition guarded_pop q : Res (option I * Q) :=
  if f_empty q then Ok (None, q)
  else '(x, q') ← f_pop q; Ok (Some x, q').

Lemma not_full_room q : f_wf q -> f_full q = false -> zlen (f_contents q) < f_cap q.
Proof.
  intros Hq Ef. pose proof (f_bound q Hq). pose proof (f_full_law q Hq) as Hf.
  destruct (decide (zlen (f_contents q) = f_cap q)) as [E|]; [|lia].
  apply Hf in E. congruence.
Qed.

(** a push that returned, on a queue that was not full *)
Lemma push_inv q x q' :
  f_wf q -> f_full q = false -> f_push q x = Ok q' ->
  f_wf q' /\ f_cap q' = f_cap q /\ f_contents q' = f_contents q ++ [x].
Proof.
  intros Hq Ef E. destruct (f_push_law q x Hq (not_full_room q Hq Ef)) as (q1 & E1 & P).
  rewrite E in E1. by injection E1 as <-.
Qed.

(** a pop that returned, on a queue that was not empty *)
Lemma pop_inv q x q' :
  f_wf q -> f_empty q = false -> f_pop q = Ok (x, q') ->
  f_wf q' /\ f_cap q' = f_cap q /\ f_contents q = x :: f_contents q'.
Proof.
  intros Hq Ee E. destruct (f_contents q) as [|y l] eqn:C.
  { apply (f_empty_law q Hq) in C. congruence. }
  destruct (f_pop_law q y l Hq C) as ([z q1] & E1 & P). cbn in P.
  rewrite E in E1. injection E1 as <- <-. destruct P as (-> & W & Cp & ->). done.
Qed.

Lemma guarded_push_spec q x : f_wf q ->
  yields (guarded_push q x) (fun q' => f_wf q' /\ f_cap q' = f_cap q /\
    f_contents q' =
      if bool_decide (zlen (f_contents q) < f_cap q)
      then f_contents q ++ [x] else f_contents q).
Proof.
  intros Hq. unfold guarded_push. pose proof (f_full_law q Hq) as Hf.
  pose proof (f_bound q Hq). destruct (f_full q).
  - destruct Hf as [Hf _]. apply yields_ok. split; [done|]. split; [done|].
    case_bool_decide; [|done]. specialize (Hf eq_refl). lia.
  - assert (zlen (f_contents q) < f_cap q).
    { destruct (decide (zlen (f_contents q) = f_cap q)) as [E|]; [|lia].
      by apply Hf in E. }
    rewrite bool_decide_true by done. by apply f_push_law.
Qed.

Lemma guarded_pop_spec q : f_wf q ->
  yields (guarded_pop q) (fun r => f_wf r.2 /\ f_cap r.2 = f_cap q /\
    f_contents q = match r.1 with Some x => x :: f_contents r.2 | None => [] end /\
    (r.1 = None -> r.2 = q)).
Proof.
  intros Hq. unfold guarded_pop. pose proof (f_empty_law q Hq) as He.
  destruct (f_empty q).
  - apply yields_ok; simpl. rewrite (proj1 He) by done. done.
  - destruct (f_contents q) as [|x l] eqn:C.
    { by specialize (proj2 He eq_refl). }
    eapply yields_bind; [by apply f_pop_law|].
    intros [y q'] (Ey & W & Cp & D); simpl in *. subst. by apply yields_ok.
Qed.

(** a schedule of guarded calls: [Some x] is a push of [x], [None] a pop *)
Fixpoint guarded_run (es : list (option I)) q : Res (list I * Q) :=
  match es with
  | [] => Ok ([], q)
  | Some x :: es => q' ← guarded_push q x; guarded_run es q'
  | None :: es =>
      '(o, q') ← guarded_pop q;
      '(out, q'') ← guarded_run es q';
      Ok (option_list o ++ out, q'')
  end.

(** what a list with a bound does with the same schedule: the items popped,
    the items that were dropped because the queue was full *)
Fixpoint schedule (cap : Z) (es : list (option I)) (l : list I)
    : list I * list I * list I :=
  match es with
  | [] => ([], [], l)
  | Some x :: es =>
      if bool_decide (zlen l < cap) then schedule cap es (l ++ [x])
      else let '(out, lost, l') := schedule cap es l in (out, x :: lost, l')
  | None :: es =>
      match l with
      | [] => schedule cap es []
      | x :: l => let '(out, lost, l') := schedule cap es l in (x :: out, lost, l')
      end
  end.

Lemma guarded_run_spec es q : f_wf q ->
  yields (guarded_run es q) (fun r => f_wf r.2 /\ f_cap r.2 = f_cap q /\
    let '(out, lost, l) := schedule (f_cap q) es (f_contents q) in
    r.1 = out /\ f_contents r.2 = l).
Proof.
  revert q. induction es as [|[x|] es IH]; intros q Hq; simpl.
  - by apply yields_ok.
  - eapply yields_bind; [by apply guarded_push_spec|].
    intros q' (W & Cp & C).
    eapply yields_mono; [by apply IH|]. intros [out' q''] (W' & Cp' & E).
    rewrite Cp, C in E. split; [done|]. split; [by rewrite <-Cp|].
    case_bool_decide; [done|].
    by destruct (schedule (f_cap q) es (f_contents q)) as [[? ?] ?].
  - eapply yields_bind; [by apply guarded_pop_spec|].
    intros [o q'] (W & Cp & C & N); simpl in *.
    eapply yields_bind; [by apply IH|]. intros [out' q''] (W' & Cp' & E).
    apply yields_ok; simpl in *. split; [done|]. split; [by rewrite <-Cp|].
    rewrite Cp in E. destruct o as [x|]; simpl.
    + rewrite C. destruct (schedule (f_cap q) es (f_contents q')) as [[? ?] ?].
      by destruct E as [-> ->].
    + rewrite N, C in E by done. by rewrite C.
Qed.
End Guarded.
