(* ===== verification/MemQueue.v ===== *)
(** * MemQueue: the ring buffer template (mage/src/MemQueue.h)

    [MemQueue<Item>] with its index arithmetic, its two-part [memcpy]s and
    its modular counter; the queue contents it represents, the invariant
    [wf], and the refinement of a bounded FIFO by every operation.
    [FrameQueue] and [ModelQueue] inherit it. *)

From S2P Require Import Prelude Fifo.

Module MemQueue.

(** ** State *)

(** the members of the class; [remain] is indeterminate until written *)
Record t (Item : Type) := mk {
  nOfItems : Z;             (* int *)
  qlength : Z;              (* unsigned int length *)
  remain : option Z;        (* unsigned int *)
  qread : Z;                (* unsigned int read *)
  qwrite : Z;               (* unsigned int write *)
  rawData : list Item       (* Item * , of [length] items *)
}.
Arguments mk {Item} _ _ _ _ _ _.
Arguments nOfItems {Item} _.
Arguments qlength {Item} _.
Arguments remain {Item} _.
Arguments qread {Item} _.
Arguments qwrite {Item} _.
Arguments rawData {Item} _.

#[global] Instance eta_memqueue Item : Settable (t Item) := fun q =>
  mk (nOfItems q) (qlength q) (remain q) (qread q) (qwrite q) (rawData q).

Section Operations.
Context {Item : Type}.
Implicit Types q : t Item.

(** ** Operations *)

(** the constructor; [d] is the default-constructed [Item] of [new Item[length]] *)
Definition create (d : Item) (queueLen : Z) : t Item :=
  mk 0 queueLen None 0 0 (replicate (Z.to_nat queueLen) d).

Definition getNumOfItems q : Z := if 0 <? nOfItems q then nOfItems q else 0.

(** [a % b] on unsigned operands *)
Definition u_mod (a b : Z) : Res Z :=
  check (negb (b =? 0)) DivByZero ;; Ok (a `mod` b).

(** [nOfItems += n], [nOfItems -= n]: the int operand is converted to
    unsigned, and the result back to int *)
Definition count_add q (n : Z) : Z := to_i32 (nOfItems q + n).
Definition count_sub q (n : Z) : Z := to_i32 (nOfItems q - n).

(** [push( unsigned int nItem )]: advance [write] over slots already filled *)
Definition push q (nItem : Z) : Res (t Item) :=
  w ← u_mod (wrap_u32 (qwrite q + nItem)) (qlength q);
  Ok (q <| qwrite := w |> <| nOfItems := count_add q nItem |>).

(** [push( Item * item, unsigned int nItem )]: the copy into the ring ... *)
Definition store_items q (item : list Item) (nItem : Z) : Res (t Item) :=
  if wrap_u32 (qwrite q + nItem) <=? qlength q then
    raw ← memcpy (rawData q) (qwrite q) item 0 nItem;
    Ok (q <| rawData := raw |>)
  else
    let rem := wrap_u32 (qlength q - qwrite q) in
    raw ← memcpy (rawData q) (qwrite q) item 0 rem;
    raw ← memcpy raw 0 item rem (wrap_u32 (nItem - rem));
    Ok (q <| remain := Some rem |> <| rawData := raw |>).

(** ... and the advance of [write] *)
Definition push_items q (item : list Item) (nItem : Z) : Res (t Item) :=
  q' ← store_items q item nItem; push q' nItem.

(** "don't pop() further than available" *)
Definition clamp q (nItem : Z) : Z :=
  if getNumOfItems q <? nItem then getNumOfItems q else nItem.

(** [pop( unsigned int nItem )] *)
Definition pop q (nItem : Z) : Res (t Item) :=
  let nItem := clamp q nItem in
  r ← u_mod (wrap_u32 (qread q + nItem)) (qlength q);
  Ok (q <| qread := r |> <| nOfItems := count_sub q nItem |>).

(** the copy out of the ring shared by [get( Item *, n )] and
    [pop( Item *, n )]; [n] has been clamped; [item] is the caller's array *)
Definition copy_out q (item : list Item) (n : Z) : Res (t Item * list Item) :=
  if wrap_u32 (qread q + n) <=? qlength q then
    item' ← memcpy item 0 (rawData q) (qread q) n;
    Ok (q, item')
  else
    let rem := wrap_u32 (qlength q - qread q) in
    item' ← memcpy item 0 (rawData q) (qread q) rem;
    item' ← memcpy item' rem (rawData q) 0 (wrap_u32 (n - rem));
    Ok (q <| remain := Some rem |>, item').

(** [get( Item * item, unsigned int nItem )] *)
Definition get_items q (item : list Item) (nItem : Z) : Res (t Item * list Item) :=
  copy_out q item (clamp q nItem).

(** [pop( Item * item, unsigned int nItem )] *)
Definition pop_items q (item : list Item) (nItem : Z) : Res (t Item * list Item) :=
  '(q', item') ← copy_out q item (clamp q nItem);
  q'' ← pop q' (clamp q nItem);
  Ok (q'', item').

(** [get( void )]: the oldest item, read through the returned pointer *)
Definition get q : Res Item := rd (rawData q) (qread q).

(** [next( void )]: the index of the slot the returned pointer designates *)
Definition next q : Z := qwrite q.

(** a store through the pointer [next()] returned *)
Definition set_next q (x : Item) : Res (t Item) :=
  raw ← wr (rawData q) (next q) x; Ok (q <| rawData := raw |>).

Definition isEmpty q : bool := nOfItems q <=? 0.
Definition isFull q : bool := qlength q <=? getNumOfItems q.

(** the use protocol documented for [push( void )]: access, write, save *)
Definition push_next q (x : Item) : Res (t Item) :=
  q' ← set_next q x; push q' 1.

(** the use protocol documented for [pop( void )]: access, read, delete *)
Definition get_pop q : Res (Item * t Item) :=
  x ← get q; q' ← pop q 1; Ok (x, q').

(** ** Representation *)

(** the items waiting in the queue, oldest first *)
Definition contents q : list Item :=
  take (Z.to_nat (nOfItems q)) (rotate (Z.to_nat (qread q)) (rawData q)).

Record wf q : Prop := {
  wf_len : 0 < qlength q < 2 ^ 31;
  wf_raw : zlen (rawData q) = qlength q;
  wf_read : 0 <= qread q < qlength q;
  wf_count : 0 <= nOfItems q <= qlength q;
  wf_write : qwrite q = (qread q + nOfItems q) `mod` qlength q
}.

Lemma ring_mod a b : 0 < b -> 0 <= a < 2 * b ->
  a `mod` b = if a <? b then a else a - b.
Proof.
  intros Hb Ha. case Z.ltb_spec; intros.
  - apply Z.mod_small; lia.
  - rewrite <-(Z.mod_add a (-1) b) by lia. rewrite Z.mod_small; lia.
Qed.

Lemma u_mod_ok a b : b <> 0 -> u_mod a b = Ok (a `mod` b).
Proof. intros Hb. unfold u_mod. by rewrite (proj2 (Z.eqb_neq _ _) Hb). Qed.

Lemma getNumOfItems_wf q : wf q -> getNumOfItems q = nOfItems q.
Proof. intros [_ _ _ ? _]. unfold getNumOfItems. case Z.ltb_spec; lia. Qed.

Lemma clamp_wf q n : wf q -> clamp q n = Z.min n (nOfItems q).
Proof.
  intros. unfold clamp. rewrite getNumOfItems_wf by done.
  case Z.ltb_spec; lia.
Qed.

Lemma wf_write_lt q : wf q -> 0 <= qwrite q < qlength q.
Proof. intros [? _ _ _ ->]. apply Z.mod_pos_bound. lia. Qed.

Lemma contents_lookup q (k : nat) : wf q ->
  contents q !! k =
    if bool_decide (Z.of_nat k < nOfItems q)
    then rawData q !! Z.to_nat ((qread q + Z.of_nat k) `mod` qlength q)
    else None.
Proof.
  intros [Hl Hr Hrd Hc _]. unfold contents, zlen in *. case_bool_decide.
  - rewrite lookup_take_lt by lia.
    rewrite lookup_rotate_r by lia. f_equal. unfold rotate_nat_add. f_equal.
    rewrite Hr. f_equal. lia.
  - apply lookup_take_ge. lia.
Qed.

Lemma zlen_contents q : wf q -> zlen (contents q) = nOfItems q.
Proof.
  intros [Hl Hr Hrd Hc _]. unfold contents, zlen in *.
  rewrite length_take, length_rotate. lia.
Qed.

Lemma isEmpty_spec q : wf q -> isEmpty q = true <-> contents q = [].
Proof.
  intros Hq. pose proof (zlen_contents q Hq) as L. destruct Hq.
  unfold isEmpty. rewrite Z.leb_le. split.
  - intros. apply nil_length_inv. unfold zlen in L. lia.
  - intros E. rewrite E in L. unfold zlen in L. simpl in L. lia.
Qed.

Lemma isFull_spec q : wf q -> isFull q = true <-> zlen (contents q) = qlength q.
Proof.
  intros Hq. rewrite zlen_contents by done. unfold isFull.
  rewrite getNumOfItems_wf, Z.leb_le by done. destruct Hq. lia.
Qed.

(** ** Constructor *)

Lemma create_wf d n : 0 < n < 2 ^ 31 -> wf (create d n).
Proof.
  intros H. split; simpl; try lia.
  - rewrite zlen_replicate. lia.
  - by rewrite Z.mod_0_l by lia.
Qed.
Lemma create_contents d n : contents (create d n) = [].
Proof. done. Qed.

(** ** Pushing *)

(** what [push_items] leaves in the ring, slot by slot *)
Definition written (L w n : Z) (j : nat) : bool := (Z.of_nat j - w) `mod` L <? n.

Lemma ring_offset L w (j : Z) : 0 <= w < L -> 0 <= j < L ->
  (j - w) `mod` L = if w <=? j then j - w else j - w + L.
Proof.
  intros. case Z.leb_spec; intros.
  - apply Z.mod_small. lia.
  - rewrite <-(Z.mod_add (j - w) 1 L) by lia. rewrite Z.mod_small; lia.
Qed.

Lemma push_spec q n : wf q -> 0 <= n -> nOfItems q + n <= qlength q ->
  yields (push q n) (fun q' => wf q' /\ qlength q' = qlength q /\
    nOfItems q' = nOfItems q + n /\ qread q' = qread q /\
    rawData q' = rawData q /\ remain q' = remain q).
Proof.
  intros Hq Hn Hfit. pose proof (wf_write_lt q Hq) as Hw.
  destruct Hq as [Hl Hr Hrd Hc Hwr]. unfold push.
  rewrite u_mod_ok by lia. rewrite bind_Ok. apply yields_ok; simpl.
  unfold count_add. rewrite to_i32_small by lia.
  split; [|done]. split; simpl; try done; try lia.
  rewrite wrap_u32_small by lia.
  rewrite Hwr, Z.add_mod_idemp_l by lia. f_equal. lia.
Qed.

(** the ring after storing [n] items at [write] *)
Definition stored q (item : list Item) (n : Z) q' : Prop :=
  wf q' /\ qlength q' = qlength q /\ qread q' = qread q /\
  forall j : nat, Z.of_nat j < qlength q ->
    rawData q' !! j =
      if written (qlength q) (qwrite q) n j
      then item !! Z.to_nat ((Z.of_nat j - qwrite q) `mod` qlength q)
      else rawData q !! j.

Lemma store_items_spec q item n :
  wf q -> 0 <= n -> nOfItems q + n <= qlength q -> n <= zlen item ->
  yields (store_items q item n) (fun q' => stored q item n q' /\
    nOfItems q' = nOfItems q).
Proof.
  intros Hq Hn Hfit Hit. pose proof (wf_write_lt q Hq) as Hw.
  pose proof Hq as [Hl Hr Hrd Hc Hwr]. unfold store_items, stored, written.
  rewrite wrap_u32_small by lia.
  assert (Hoff : forall j : nat, Z.of_nat j < qlength q ->
    (Z.of_nat j - qwrite q) `mod` qlength q =
    if qwrite q <=? Z.of_nat j then Z.of_nat j - qwrite q
    else Z.of_nat j - qwrite q + qlength q) by (intros; apply ring_offset; lia).
  case Z.leb_spec; intros Hcase.
  - destruct (memcpy (rawData q) (qwrite q) item 0 n) as [raw| | |] eqn:E;
      try (rewrite memcpy_ok in E by lia; done).
    apply memcpy_lookup in E as [Elen Eget].
    rewrite bind_Ok. apply yields_ok; simpl. split; [|done].
    split; [split; simpl; done || lia|]. do 2 (split; [done|]).
    intros j Hj. rewrite Eget, (Hoff j Hj).
    case_bool_decide; case Z.leb_spec; case Z.ltb_spec; intros;
      try lia; try done; f_equal; lia.
  - rewrite !wrap_u32_small by (rewrite ?wrap_u32_small; lia).
    set (rem := qlength q - qwrite q).
    destruct (memcpy (rawData q) (qwrite q) item 0 rem) as [raw1| | |] eqn:E1;
      try (rewrite memcpy_ok in E1 by (unfold rem; lia); done).
    pose proof E1 as [Elen1 Eget1]%memcpy_lookup. rewrite bind_Ok.
    destruct (memcpy raw1 0 item rem (n - rem)) as [raw2| | |] eqn:E2;
      try (rewrite memcpy_ok in E2 by (unfold rem; lia); done).
    apply memcpy_lookup in E2 as [Elen2 Eget2]. rewrite bind_Ok.
    apply yields_ok; simpl. split; [|done].
    split; [split; simpl; done || lia|]. do 2 (split; [done|]).
    intros j Hj. rewrite Eget2, Eget1, (Hoff j Hj). unfold rem in *.
    repeat case_bool_decide; case Z.leb_spec; case Z.ltb_spec; intros;
      try lia; try done; f_equal; lia.
Qed.

Lemma push_items_raw q item n :
  wf q -> 0 <= n -> nOfItems q + n <= qlength q -> n <= zlen item ->
  yields (push_items q item n) (fun q' => stored q item n q' /\
    nOfItems q' = nOfItems q + n).
Proof.
  intros Hq Hn Hfit Hit. unfold push_items.
  eapply yields_bind; [by apply store_items_spec|].
  intros q' [(Hq' & L & R & G) N].
  eapply yields_mono; [apply push_spec; [done|lia|lia]|].
  intros q'' (Hq'' & L' & N' & R' & D & _). split; [|lia].
  split; [done|]. split; [lia|]. split; [lia|].
  intros j Hj. rewrite D. by apply G.
Qed.

Lemma written_offset q n k :
  wf q -> 0 <= n -> nOfItems q + n <= qlength q -> 0 <= k < nOfItems q + n ->
  ((qread q + k) `mod` qlength q - qwrite q) `mod` qlength q =
    (if k <? nOfItems q then k - nOfItems q + qlength q else k - nOfItems q) `mod` qlength q.
Proof.
  intros [Hl _ Hrd Hc ->] Hn Hfit Hk.
  rewrite <-Zminus_mod.
  replace (qread q + k - (qread q + nOfItems q)) with (k - nOfItems q) by lia.
  case Z.ltb_spec; intros; [|done].
  by rewrite <-(Z.mod_add (k - nOfItems q) 1) by lia; rewrite Z.mul_1_l.
Qed.

Lemma push_items_contents q item n :
  wf q -> 0 <= n -> nOfItems q + n <= qlength q -> n <= zlen item ->
  yields (push_items q item n) (fun q' => wf q' /\ qlength q' = qlength q /\
    contents q' = contents q ++ take (Z.to_nat n) item).
Proof.
  intros Hq Hn Hfit Hit.
  eapply yields_mono; [by apply push_items_raw|].
  intros q' [(Hq' & L & R & G) N]. split; [done|]. split; [done|].
  pose proof Hq as [Hl Hr Hrd Hc Hwr].
  apply list_eq. intros k. rewrite contents_lookup by done.
  rewrite N, R, L. case_bool_decide as Hk.
  - assert (0 <= (qread q + Z.of_nat k) `mod` qlength q < qlength q)
      by (apply Z.mod_pos_bound; lia).
    rewrite G by lia. unfold written. rewrite !Z2Nat.id by lia.
    rewrite (written_offset q n) by (done || lia).
    destruct (decide (Z.of_nat k < nOfItems q)).
    + rewrite lookup_app_l by (pose proof (zlen_contents q Hq); unfold zlen in *; lia).
      rewrite contents_lookup, bool_decide_true by done.
      rewrite (proj2 (Z.ltb_lt (Z.of_nat k) _)) by lia.
      rewrite Z.mod_small by lia.
      by rewrite (proj2 (Z.ltb_ge _ _)) by lia.
    + pose proof (zlen_contents q Hq) as Lc. unfold zlen in *.
      rewrite lookup_app_r by lia.
      rewrite (proj2 (Z.ltb_ge (Z.of_nat k) _)) by lia.
      rewrite Z.mod_small by lia.
      rewrite (proj2 (Z.ltb_lt _ _)) by lia.
      rewrite lookup_take_lt by lia. f_equal. lia.
  - symmetry. apply lookup_ge_None.
    pose proof (zlen_contents q Hq). unfold zlen in *.
    rewrite length_app, length_take. lia.
Qed.

(** the push protocol [next] / fill / [push] is a copying push of one item *)
Lemma push_next_push_items q x :
  wf q -> nOfItems q < qlength q -> push_next q x = push_items q [x] 1.
Proof.
  intros Hq Hfit. pose proof (wf_write_lt q Hq). pose proof Hq as [Hl Hr _ _ _].
  unfold push_next, push_items, set_next, store_items, next.
  rewrite wrap_u32_small by lia. rewrite wr_ok by lia.
  rewrite (proj2 (Z.leb_le _ _)) by lia.
  rewrite memcpy_ok by (unfold zlen in *; simpl; lia). rewrite !bind_Ok.
  rewrite insert_take_drop by (unfold zlen in *; lia).
  by replace (Z.to_nat (qwrite q + 1)) with (S (Z.to_nat (qwrite q))) by lia.
Qed.

(** filling the next slot does not disturb the waiting items *)
Lemma set_next_spec q x : wf q -> nOfItems q < qlength q ->
  yields (set_next q x) (fun q' => q' = q <| rawData := <[Z.to_nat (qwrite q) := x]> (rawData q) |> /\
    wf q' /\ contents q' = contents q /\
    rawData q' !! Z.to_nat (qwrite q') = Some x).
Proof.
  intros Hq Hfit. pose proof (wf_write_lt q Hq) as Hw.
  pose proof Hq as [Hl Hr Hrd Hc Hwr].
  unfold set_next, next. rewrite wr_ok, bind_Ok by lia. apply yields_ok.
  split; [done|].
  assert (Hq' : wf (q <| rawData := <[Z.to_nat (qwrite q) := x]> (rawData q) |>)).
  { split; simpl; rewrite ?zlen_insert; done || lia. }
  split; [done|]. split.
  - apply list_eq. intros k. rewrite !contents_lookup by done. simpl.
    case_bool_decide; [|done]. apply list_lookup_insert_ne.
    assert (0 <= (qread q + Z.of_nat k) `mod` qlength q) by (apply Z.mod_pos_bound; lia).
    rewrite Hwr. intros E%Z2Nat.inj; [|apply Z.mod_pos_bound; lia|done].
    rewrite !ring_mod in E by lia. revert E. do 2 case Z.ltb_spec; lia.
  - simpl. apply list_lookup_insert_eq. unfold zlen in *. lia.
Qed.

(** a slot may be overwritten, whichever it is *)
Lemma wf_store q raw : wf q -> zlen raw = zlen (rawData q) -> wf (q <| rawData := raw |>).
Proof. intros [Hl Hr Hrd Hc Hw] E. split; simpl; (done || lia). Qed.

(** advancing [write] over a filled slot appends its item *)
Lemma push_filled q x : wf q -> nOfItems q < qlength q ->
  rawData q !! Z.to_nat (qwrite q) = Some x ->
  yields (push q 1) (fun q' => wf q' /\ qlength q' = qlength q /\
    nOfItems q' = nOfItems q + 1 /\ qread q' = qread q /\
    rawData q' = rawData q /\ contents q' = contents q ++ [x]).
Proof.
  intros Hq Hfit Hx. pose proof (push_next_push_items q x Hq Hfit) as E.
  unfold push_next, set_next, next in E.
  pose proof Hq as [Hl Hr Hrd Hc Hwr]. pose proof (wf_write_lt q Hq).
  rewrite wr_ok, !bind_Ok in E by lia. rewrite list_insert_id in E by done.
  assert (Eq : q <| rawData := rawData q |> = q) by (by destruct q).
  rewrite Eq in E. rewrite E.
  destruct (push_items_contents q [x] 1) as (q' & Eq' & W & L & C);
    [done|lia|lia|by unfold zlen|].
  rewrite <-E in Eq' |- *.
  destruct (push_spec q 1) as (q'' & Eq'' & ? & ? & ? & ? & ? & ?); [done|lia|lia|].
  rewrite Eq' in Eq''. injection Eq'' as <-.
  exists q'. done.
Qed.

(** ** Popping *)

Lemma pop_spec q n : wf q -> 0 <= n ->
  yields (pop q n) (fun q' => wf q' /\ qlength q' = qlength q /\
    contents q' = drop (Z.to_nat n) (contents q) /\ rawData q' = rawData q).
Proof.
  intros Hq Hn. pose proof (zlen_contents q Hq) as Lc.
  unfold pop. rewrite clamp_wf by done.
  pose proof Hq as [Hl Hr Hrd Hc Hwr].
  rewrite wrap_u32_small, u_mod_ok, bind_Ok by lia. apply yields_ok.
  set (m := Z.min n (nOfItems q)).
  set (q' := q <| qread := _ |> <| nOfItems := _ |>).
  assert (N' : nOfItems q' = nOfItems q - m).
  { simpl. unfold count_sub. apply to_i32_small. lia. }
  assert (Hq' : wf q').
  { split; rewrite ?N'; simpl; try done; try lia.
    - apply Z.mod_pos_bound. lia.
    - rewrite Z.add_mod_idemp_l, Hwr by lia. f_equal. lia. }
  split; [done|]. split; [done|]. split; [|done].
  apply list_eq. intros k. rewrite lookup_drop, !contents_lookup by done.
  rewrite N'. simpl. repeat case_bool_decide; try lia; [|done].
  rewrite Z.add_mod_idemp_l by lia. do 3 f_equal. lia.
Qed.

Lemma copy_out_spec q item n :
  wf q -> 0 <= n <= nOfItems q -> n <= zlen item ->
  yields (copy_out q item n) (fun r =>
    (r.1 = q \/ exists rem, r.1 = q <| remain := rem |>) /\
    r.2 = take (Z.to_nat n) (contents q) ++ drop (Z.to_nat n) item).
Proof.
  intros Hq Hn Hit. pose proof Hq as [Hl Hr Hrd Hc Hwr].
  pose proof (zlen_contents q Hq) as Lc. unfold zlen in *.
  assert (Hget : forall item',
    zlen item' = zlen item ->
    (forall i : nat, item' !! i = if bool_decide (Z.of_nat i < n) then
        rawData q !! Z.to_nat ((qread q + Z.of_nat i) `mod` qlength q) else item !! i) ->
    item' = take (Z.to_nat n) (contents q) ++ drop (Z.to_nat n) item).
  { intros item' _ G. apply list_eq. intros k. rewrite G. case_bool_decide.
    - rewrite lookup_app_l by (rewrite length_take; lia).
      rewrite lookup_take_lt, contents_lookup, bool_decide_true by (done || lia).
      done.
    - rewrite lookup_app_r by (rewrite length_take; lia).
      rewrite length_take, lookup_drop. f_equal. lia. }
  unfold copy_out. rewrite wrap_u32_small by lia. case Z.leb_spec; intros Hcase.
  - destruct (memcpy item 0 (rawData q) (qread q) n) as [item'| | |] eqn:E;
      try (rewrite memcpy_ok in E by (unfold zlen; lia); done).
    rewrite bind_Ok. apply yields_ok; simpl. split; [by left|].
    apply memcpy_lookup in E as [Elen Eget]. apply Hget; [done|].
    intros i. rewrite Eget. repeat case_bool_decide; try lia; try done.
    rewrite ring_mod by lia. case Z.ltb_spec; intros; f_equal; lia.
  - rewrite !wrap_u32_small by (rewrite ?wrap_u32_small; lia).
    destruct (memcpy item 0 (rawData q) (qread q) (qlength q - qread q))
      as [item1| | |] eqn:E1;
      try (rewrite memcpy_ok in E1 by (unfold zlen; lia); done).
    pose proof E1 as [Elen1 Eget1]%memcpy_lookup. unfold zlen in *. rewrite bind_Ok.
    destruct (memcpy item1 (qlength q - qread q) (rawData q) 0
                (n - (qlength q - qread q))) as [item2| | |] eqn:E2;
      try (rewrite memcpy_ok in E2 by (unfold zlen; lia); done).
    apply memcpy_lookup in E2 as [Elen2 Eget2]. rewrite bind_Ok.
    apply yields_ok; simpl. split; [by right; eexists|].
    apply Hget; [unfold zlen in *; lia|].
    intros i. rewrite Eget2, Eget1. repeat case_bool_decide; try lia; try done;
      rewrite ring_mod by lia; case Z.ltb_spec; intros; try lia; f_equal; lia.
Qed.

Lemma get_contents q : wf q -> get q =
  match contents q with [] => rd (rawData q) (qread q) | x :: _ => Ok x end.
Proof.
  intros Hq. destruct (contents q) as [|x l] eqn:E; [done|].
  pose proof (f_equal (fun l => l !! 0%nat) E) as E0. simpl in E0.
  rewrite contents_lookup in E0 by done. case_bool_decide; [|done].
  pose proof Hq as [Hl Hr Hrd Hc Hwr].
  rewrite Z.add_0_r, Z.mod_small in E0 by lia.
  unfold get. apply rd_ok; [lia|done].
Qed.

Lemma pop_items_spec q item n :
  wf q -> 0 <= n -> Z.min n (nOfItems q) <= zlen item ->
  let m := Z.to_nat (Z.min n (nOfItems q)) in
  yields (pop_items q item n) (fun r =>
    wf r.1 /\ qlength r.1 = qlength q /\
    contents r.1 = drop m (contents q) /\
    r.2 = take m (contents q) ++ drop m item).
Proof.
  intros Hq Hn Hit m. unfold pop_items. rewrite clamp_wf by done.
  pose proof Hq as [Hl Hr Hrd Hc Hwr].
  eapply yields_bind; [apply copy_out_spec; [done|lia|done]|].
  intros [q1 item1] [Hq1 E]; simpl in *.
  assert (Hsame : wf q1 /\ qlength q1 = qlength q /\ contents q1 = contents q).
  { destruct Hq1 as [->|[rem ->]]; [done|].
    split; [|done]. by split. }
  destruct Hsame as (W1 & L1 & C1).
  eapply yields_bind; [apply (pop_spec q1); [done|lia]|].
  intros q2 (W2 & L2 & C2 & _). apply yields_ok; simpl.
  rewrite C2, C1, L2. done.
Qed.

Lemma get_items_spec q item n :
  wf q -> 0 <= n -> Z.min n (nOfItems q) <= zlen item ->
  let m := Z.to_nat (Z.min n (nOfItems q)) in
  yields (get_items q item n) (fun r =>
    wf r.1 /\ qlength r.1 = qlength q /\ contents r.1 = contents q /\
    r.2 = take m (contents q) ++ drop m item).
Proof.
  intros Hq Hn Hit m. unfold get_items. rewrite clamp_wf by done.
  pose proof Hq as [Hl Hr Hrd Hc Hwr].
  eapply yields_mono; [apply copy_out_spec; [done|lia|done]|].
  intros [q1 item1] [Hq1 E]; simpl in *.
  destruct Hq1 as [->|[rem ->]]; [done|].
  split; [by split|done].
Qed.

(** ** The queue as a state machine *)

(** calls of the four counted operations *)
Inductive call :=
  | Push (item : list Item) (nItem : Z)
  | Pop (nItem : Z)
  | PopInto (item : list Item) (nItem : Z)
  | GetInto (item : list Item) (nItem : Z).

(** a call, and what it leaves in the caller's array *)
Definition run_call (c : call) q : Res (t Item * list Item) :=
  match c with
  | Push item n => q' ← push_items q item n; Ok (q', item)
  | Pop n => q' ← pop q n; Ok (q', [])
  | PopInto item n => pop_items q item n
  | GetInto item n => get_items q item n
  end.

Fixpoint run (cs : list call) q : Res (t Item * list (list Item)) :=
  match cs with
  | [] => Ok (q, [])
  | c :: cs =>
      '(q', out) ← run_call c q;
      '(q'', outs) ← run cs q';
      Ok (q'', out :: outs)
  end.

(** the same calls on a bounded list: [None] where the queue promises nothing
    (a push that does not fit, an array too short) *)
Definition spec_call (cap : Z) (c : call) (l : list Item)
    : option (list Item * list Item) :=
  match c with
  | Push item n =>
      if (0 <=? n) && (zlen l + n <=? cap) && (n <=? zlen item)
      then Some (l ++ take (Z.to_nat n) item, item) else None
  | Pop n => if 0 <=? n then Some (drop (Z.to_nat n) l, []) else None
  | PopInto item n =>
      let m := Z.min n (zlen l) in
      if (0 <=? n) && (m <=? zlen item)
      then Some (drop (Z.to_nat m) l,
                 take (Z.to_nat m) l ++ drop (Z.to_nat m) item) else None
  | GetInto item n =>
      let m := Z.min n (zlen l) in
      if (0 <=? n) && (m <=? zlen item)
      then Some (l, take (Z.to_nat m) l ++ drop (Z.to_nat m) item) else None
  end.

Fixpoint spec_run (cap : Z) (cs : list call) (l : list Item)
    : option (list Item * list (list Item)) :=
  match cs with
  | [] => Some (l, [])
  | c :: cs =>
      '(l', out) ← spec_call cap c l;
      '(l'', outs) ← spec_run cap cs l';
      Some (l'', out :: outs)
  end.

Lemma run_call_refines c q l' out :
  wf q -> spec_call (qlength q) c (contents q) = Some (l', out) ->
  yields (run_call c q) (fun r =>
    wf r.1 /\ qlength r.1 = qlength q /\ contents r.1 = l' /\ r.2 = out).
Proof.
  intros Hq. pose proof (zlen_contents q Hq) as Lc.
  destruct c as [item n|n|item n|item n]; simpl; rewrite ?Lc.
  - destruct (_ && _) eqn:E; [|done]. intros [= <- <-].
    rewrite !andb_true_iff, !Z.leb_le in E.
    eapply yields_bind; [apply push_items_contents; [done|lia..]|].
    intros q' (W & L & C). by apply yields_ok.
  - case Z.leb_spec; [|done]. intros Hn [= <- <-].
    eapply yields_bind; [by apply pop_spec|].
    intros q' (W & L & C & _). by apply yields_ok.
  - destruct (_ && _) eqn:E; [|done]. intros [= <- <-].
    rewrite !andb_true_iff, !Z.leb_le in E.
    apply pop_items_spec; [done|lia..].
  - destruct (_ && _) eqn:E; [|done]. intros [= <- <-].
    rewrite !andb_true_iff, !Z.leb_le in E.
    apply get_items_spec; [done|lia..].
Qed.

End Operations.
Arguments call Item : clear implicits.

(** ** Interface *)

(** the one-item protocols make a [MemQueue] a FIFO *)
#[global] Instance memqueue_fifo Item : FifoOps (t Item) Item := {|
  f_wf := wf;
  f_cap := qlength;
  f_contents := contents;
  f_push := push_next;
  f_pop := get_pop;
  f_full := isFull;
  f_empty := isEmpty
|}.

#[global] Instance memqueue_laws Item : FifoLaws (t Item) Item.
Proof.
  split; simpl.
  - intros q Hq. rewrite zlen_contents by done. destruct Hq. lia.
  - intros q x Hq Hfit. rewrite zlen_contents in Hfit by done.
    rewrite push_next_push_items by done.
    eapply yields_mono; [apply push_items_contents; [done|lia|lia|unfold zlen; simpl; lia]|].
    by intros q' (W & L & C).
  - intros q x l Hq C. unfold get_pop.
    rewrite get_contents, C, bind_Ok by done.
    eapply yields_bind; [apply pop_spec; [done|lia]|].
    intros q' (W & L & C' & _). apply yields_ok; simpl.
    by rewrite C', C.
  - intros q. apply isFull_spec.
  - intros q. apply isEmpty_spec.
Qed.

(** ** Queues with the same waiting items *)

(** two rings that hold the same queue: they may differ in [remain], in the
    position of the items and in the dead slots *)
Definition qequiv {Item} (q1 q2 : t Item) : Prop :=
  wf q1 /\ wf q2 /\ qlength q1 = qlength q2 /\ contents q1 = contents q2.

#[global] Instance qequiv_per Item : RelationClasses.PER (@qequiv Item).
Proof.
  split; unfold qequiv.
  - by intros q1 q2 (? & ? & ? & ?).
  - intros q1 q2 q3 (? & ? & L1 & C1) (? & ? & L2 & C2).
    by rewrite L1, L2, C1, C2.
Qed.

(** outcomes related by [R] when both return *)
Definition res_rel {A} (R : A -> A -> Prop) (m1 m2 : Res A) : Prop :=
  yields m1 (fun a => yields m2 (R a)).

#[global] Instance isEmpty_proper Item : Proper (qequiv ==> eq) (@isEmpty Item).
Proof.
  intros q1 q2 (W1 & W2 & L & C).
  apply eq_true_iff_eq. by rewrite !isEmpty_spec, C by done.
Qed.

#[global] Instance isFull_proper Item : Proper (qequiv ==> eq) (@isFull Item).
Proof.
  intros q1 q2 (W1 & W2 & L & C).
  apply eq_true_iff_eq. by rewrite !isFull_spec, C, L by done.
Qed.

#[global] Instance pop_proper Item n :
  0 <= n -> Proper (qequiv ==> res_rel qequiv) (fun q : t Item => pop q n).
Proof.
  intros Hn q1 q2 (W1 & W2 & L & C).
  eapply yields_mono; [by apply (pop_spec q1)|]. intros q1' (W1' & L1' & C1' & _).
  eapply yields_mono; [by apply (pop_spec q2)|]. intros q2' (W2' & L2' & C2' & _).
  unfold qequiv. by rewrite C1', C2', C, L1', L2'.
Qed.

(** ** Properties *)

(** C5: the ring buffer is a bounded FIFO.  For every sequence of pushes,
    pops and gets that fit (each push within the free space, each caller
    array long enough), the ring with its wrap-around copies returns what a
    list returns, leaves the same items waiting, and never accesses memory
    outside the ring or the caller's arrays. *)
Theorem run_refines_fifo {Item} (cs : list (call Item)) (q : t Item) l' outs :
  wf q -> spec_run (qlength q) cs (contents q) = Some (l', outs) ->
  yields (run cs q) (fun r =>
    wf r.1 /\ qlength r.1 = qlength q /\ contents r.1 = l' /\ r.2 = outs).
Proof.
  revert q l' outs. induction cs as [|c cs IH]; intros q l' outs Hq E; simpl in *.
  { simplify_eq. by apply yields_ok. }
  apply bind_Some in E as ([l1 out] & E1 & E).
  apply bind_Some in E as ([l2 outs'] & E2 & [= <- <-]).
  eapply yields_bind; [by apply run_call_refines|].
  intros [q1 o1] (W1 & L1 & C1 & O1); simpl in *; subst.
  rewrite <-L1 in E2.
  eapply yields_bind; [by apply IH|].
  intros [q2 o2] (W2 & L2 & C2 & O2); simpl in *; subst.
  apply yields_ok. by rewrite <-L1.
Qed.

Lemma run_refines_fifo_witness :
  yields (run [Push [1; 2; 3] 3; PopInto [0; 0] 2; Push [4; 5; 6] 3; PopInto [0; 0; 0; 0] 9]
            (create 0 4))
    (fun r => wf r.1 /\ qlength r.1 = 4 /\ contents r.1 = [] /\
              r.2 = [[1; 2; 3]; [1; 2]; [4; 5; 6]; [3; 4; 5; 6]]).
Proof.
  apply (run_refines_fifo
           [Push [1; 2; 3] 3; PopInto [0; 0] 2; Push [4; 5; 6] 3; PopInto [0; 0; 0; 0] 9]
           (create 0 4)).
  - apply create_wf. lia.
  - reflexivity.
Defined.

(** The code does not check for room: pushing to a full queue returns
    normally, overwrites the oldest waiting item and leaves a count above the
    capacity, which no later state of a correct queue has.  Callers must test
    [isFull] first. *)
Theorem push_full_overwrites {Item} (q : t Item) x :
  wf q -> isFull q = true -> qlength q + 1 < 2 ^ 31 ->
  yields (push_next q x) (fun q' =>
    nOfItems q' = qlength q + 1 /\ get q' = Ok x /\ ~ wf q').
Proof.
  intros Hq Hf Hcap. pose proof (wf_write_lt q Hq).
  rewrite isFull_spec, zlen_contents in Hf by done.
  pose proof Hq as [Hl Hr Hrd Hc Hwr].
  assert (Ew : qwrite q = qread q).
  { rewrite Hwr, Hf, ring_mod by lia. case Z.ltb_spec; lia. }
  unfold push_next, set_next, next. rewrite wr_ok, bind_Ok by lia.
  unfold push. simpl. rewrite wrap_u32_small, u_mod_ok, bind_Ok by lia.
  apply yields_ok; simpl. unfold count_add; simpl.
  rewrite to_i32_small, Hf by lia. split; [done|]. split.
  - unfold get; simpl. apply rd_ok; [lia|]. rewrite Ew.
    apply list_lookup_insert_eq. unfold zlen in *. lia.
  - intros [_ _ _ Hc' _]. simpl in Hc'. lia.
Qed.

Lemma push_full_overwrites_witness :
  yields (push_next (mk 2 2 None 0 0 [7; 8]) 9)
    (fun q' => nOfItems q' = 3 /\ get q' = Ok 9 /\ ~ wf q').
Proof.
  apply (push_full_overwrites (mk 2 2 None 0 0 [7; 8]) 9).
  - split; simpl; unfold zlen; simpl; try lia. reflexivity.
  - reflexivity.
  - simpl. lia.
Defined.

End MemQueue.
