(* ===== verification/LabelQueue.v ===== *)
(** * LabelQueue: the queue of labels (mage/src/LabelQueue.cpp, .h)

    A [std::vector] used as a ring, with an unsigned counter and no check of
    its own: pushing to a full queue and popping an empty one are the
    caller's responsibility.  The queue is generic in the type of labels,
    which it only copies. *)

From S2P Require Import Prelude Fifo MemQueue.

Module LabelQueue.

Record t (Label : Type) := mk {
  queue : list Label;      (* vector<Label> *)
  lread : Z;               (* unsigned int read *)
  lwrite : Z;              (* unsigned int write *)
  nOfLabels : Z            (* unsigned int *)
}.
Arguments mk {Label} _ _ _ _.
Arguments queue {Label} _.
Arguments lread {Label} _.
Arguments lwrite {Label} _.
Arguments nOfLabels {Label} _.

#[global] Instance eta_labelqueue Label : Settable (t Label) := fun q =>
  mk (queue q) (lread q) (lwrite q) (nOfLabels q).

Section Operations.
Context {Label : Type}.
Implicit Types q : t Label.

(** ** Operations *)

(** the constructor; [d] is the default-constructed label [resize] fills with *)
Definition create (d : Label) (size : Z) : t Label :=
  mk (replicate (Z.to_nat size) d) 0 0 0.

(** [( i + 1 ) % queue.size()] *)
Definition advance q (i : Z) : Res Z :=
  MemQueue.u_mod (wrap_u32 (i + 1)) (zlen (queue q)).

(** [push( void )] *)
Definition push q : Res (t Label) :=
  w ← advance q (lwrite q);
  Ok (q <| lwrite := w |> <| nOfLabels := wrap_u32 (nOfLabels q + 1) |>).

(** [push( Label & )] *)
Definition push_label q (label : Label) : Res (t Label) :=
  ls ← wr (queue q) (lwrite q) label;
  push (q <| queue := ls |>).

(** [pop( void )] *)
Definition pop q : Res (t Label) :=
  r ← advance q (lread q);
  Ok (q <| lread := r |> <| nOfLabels := wrap_u32 (nOfLabels q - 1) |>).

(** [get( Label & )] *)
Definition get q : Res Label := rd (queue q) (lread q).

(** [pop( Label & )] *)
Definition pop_label q : Res (Label * t Label) :=
  label ← get q; q' ← pop q; Ok (label, q').

(** [next( void )]: the index of the slot the returned pointer designates *)
Definition next q : Z := lwrite q.

Definition isEmpty q : bool := nOfLabels q <=? 0.
Definition isFull q : bool := zlen (queue q) <=? nOfLabels q.

(** [size( void )] *)
Definition size q : Z := nOfLabels q.

(** [clear( void )]: forget the waiting labels; the query of the label at
    [read] is returned ([getQuery] is the method of the labels) *)
Definition clear {Q : Type} (getQuery : Label -> Q) q : Res (Q * t Label) :=
  l ← rd (queue q) (lread q);
  Ok (getQuery l, q <| nOfLabels := 0 |> <| lread := 0 |> <| lwrite := 0 |>).

(** ** Representation *)

(** the ring a label queue represents *)
Definition as_ring q : MemQueue.t Label :=
  MemQueue.mk (nOfLabels q) (zlen (queue q)) None (lread q) (lwrite q) (queue q).

Definition wf q : Prop := MemQueue.wf (as_ring q).
Definition contents q : list Label := MemQueue.contents (as_ring q).

Lemma advance_ok q i : wf q -> 0 <= i < zlen (queue q) ->
  advance q i = Ok ((i + 1) `mod` zlen (queue q)).
Proof.
  intros [Hl _ _ _ _] Hi; simpl in *. unfold advance.
  rewrite wrap_u32_small, MemQueue.u_mod_ok by lia. done.
Qed.

Lemma labels_create_wf d n : 0 < n < 2 ^ 31 -> wf (create d n).
Proof.
  intros H. unfold wf, as_ring, create; simpl.
  rewrite zlen_replicate, Z2Nat.id by lia. by apply MemQueue.create_wf.
Qed.

(** on a well-formed queue the operations are those of the ring *)
Lemma push_label_ring q l : wf q -> nOfLabels q < zlen (queue q) ->
  yields (push_label q l) (fun q' =>
    MemQueue.push_next (as_ring q) l = Ok (as_ring q')).
Proof.
  intros Hq Hfit. pose proof (MemQueue.wf_write_lt _ Hq) as Hw.
  pose proof Hq as [Hl Hr Hrd Hc _]; simpl in *.
  unfold push_label. rewrite wr_ok, bind_Ok by done.
  unfold push, advance; simpl. rewrite zlen_insert.
  rewrite !wrap_u32_small, MemQueue.u_mod_ok, bind_Ok by lia.
  apply yields_ok.
  unfold MemQueue.push_next, MemQueue.set_next, MemQueue.next; simpl.
  rewrite wr_ok, bind_Ok by done. unfold MemQueue.push; simpl.
  rewrite wrap_u32_small, MemQueue.u_mod_ok, bind_Ok by lia.
  unfold MemQueue.count_add, as_ring; simpl. rewrite to_i32_small, zlen_insert by lia.
  done.
Qed.

Lemma pop_ring q : wf q -> 0 < nOfLabels q ->
  yields (pop q) (fun q' => MemQueue.pop (as_ring q) 1 = Ok (as_ring q')).
Proof.
  intros Hq Hpos. pose proof Hq as [Hl Hr Hrd Hc _]; simpl in *.
  unfold pop. rewrite advance_ok, bind_Ok by (done || lia).
  apply yields_ok. unfold MemQueue.pop.
  rewrite MemQueue.clamp_wf by done; simpl. rewrite Z.min_l by lia.
  rewrite wrap_u32_small, MemQueue.u_mod_ok, bind_Ok by lia.
  unfold MemQueue.count_sub, as_ring; simpl.
  rewrite to_i32_small, wrap_u32_small by lia. done.
Qed.

End Operations.

(** ** Interface *)

#[global] Instance labelqueue_fifo Label : FifoOps (t Label) Label := {|
  f_wf := wf;
  f_cap := fun q => zlen (queue q);
  f_contents := contents;
  f_push := push_label;
  f_pop := pop_label;
  f_full := isFull;
  f_empty := isEmpty
|}.

#[global] Instance labelqueue_laws Label : FifoLaws (t Label) Label.
Proof.
  pose proof (MemQueue.memqueue_laws Label) as L.
  split; simpl.
  - intros q Hq. apply (f_bound (FifoLaws := L) (as_ring q) Hq).
  - intros q x Hq Hfit.
    pose proof Hfit as Hn. unfold contents in Hn.
    rewrite MemQueue.zlen_contents in Hn by done.
    destruct (push_label_ring q x Hq Hn) as (q' & -> & E).
    destruct (f_push_law (FifoLaws := L) (as_ring q) x Hq Hfit)
      as (r & E' & W & C & D).
    simpl in E'. rewrite E in E'. injection E' as <-. by apply yields_ok.
  - intros q x l Hq C.
    assert (Hn : 0 < nOfLabels q).
    { change (nOfLabels q) with (MemQueue.nOfItems (as_ring q)).
      rewrite <-MemQueue.zlen_contents by done.
      change (MemQueue.contents (as_ring q)) with (contents q).
      rewrite C. unfold zlen. simpl. lia. }
    destruct (pop_ring q Hq Hn) as (q' & E1 & E2).
    destruct (f_pop_law (FifoLaws := L) (as_ring q) x l Hq C)
      as ([y r] & E' & Ey & W & Cp & D); simpl in *.
    unfold MemQueue.get_pop, MemQueue.get in E'. simpl in E'.
    unfold pop_label, get. apply bind_inv_Ok in E' as (y' & -> & E').
    rewrite E2, bind_Ok in E'. injection E' as <- <-.
    rewrite bind_Ok, E1, bind_Ok. apply yields_ok. simpl. by subst.
  - intros q Hq. rewrite <-(f_full_law (FifoLaws := L) (as_ring q) Hq).
    unfold isFull; simpl. unfold MemQueue.isFull.
    by rewrite MemQueue.getNumOfItems_wf by done.
  - intros q Hq. rewrite <-(f_empty_law (FifoLaws := L) (as_ring q) Hq). done.
Qed.

(** ** Properties *)

(** The label queue delivers labels in order.  Under any interleaving of
    guarded pushes and pops (the way [Mage::pushLabel] and [Mage::popLabel]
    use it) the labels popped are those a bounded list delivers; only pushes
    to a full queue lose labels. *)
Theorem labels_in_order {Label} (es : list (option Label)) (q : t Label) :
  wf q ->
  yields (guarded_run es q) (fun r =>
    wf r.2 /\ zlen (queue r.2) = zlen (queue q) /\
    let '(out, lost, l) := schedule (zlen (queue q)) es (contents q) in
    r.1 = out /\ contents r.2 = l).
Proof. intros Hq. apply (@guarded_run_spec _ _ _ (labelqueue_laws Label) es q Hq). Qed.

Lemma labels_in_order_witness :
  yields (guarded_run [Some 1; Some 2; Some 3; None; Some 4; None; None] (create 0 2))
    (fun r => wf r.2 /\ zlen (queue r.2) = 2 /\ r.1 = [1; 2; 4] /\ contents r.2 = []).
Proof.
  apply (labels_in_order [Some 1; Some 2; Some 3; None; Some 4; None; None] (create 0 2)).
  apply labels_create_wf. lia.
Defined.

(** Popping an empty label queue wraps its unsigned counter: afterwards
    the queue claims to hold 2^32 - 1 labels, reports itself full and not
    empty, so the guards of its callers no longer protect it. *)
Theorem pop_empty_wraps {Label} (q : t Label) :
  wf q -> isEmpty q = true ->
  yields (pop q) (fun q' => nOfLabels q' = 2 ^ 32 - 1 /\
    isEmpty q' = false /\ isFull q' = true).
Proof.
  intros Hq He. pose proof Hq as [Hl _ Hrd Hc _]; simpl in *.
  unfold isEmpty in He. apply Z.leb_le in He.
  unfold pop. rewrite advance_ok, bind_Ok by done. apply yields_ok.
  unfold isEmpty, isFull; simpl. replace (nOfLabels q) with 0 by lia.
  change (wrap_u32 (0 - 1)) with (2 ^ 32 - 1).
  split; [done|]. split; [done|]. apply Z.leb_le. lia.
Qed.

Lemma pop_empty_wraps_witness :
  yields (pop (create 0 3)) (fun q' => nOfLabels q' = 2 ^ 32 - 1 /\
    isEmpty q' = false /\ isFull q' = true).
Proof.
  apply (pop_empty_wraps (create 0 3)).
  - apply labels_create_wf. lia.
  - reflexivity.
Defined.

(** [clear] returns the query of the oldest waiting label (when there is
    one), empties the queue and leaves it usable. *)
Theorem clear_spec {Label Q} (getQuery : Label -> Q) (q : t Label) :
  wf q ->
  yields (clear getQuery q) (fun r =>
    wf r.2 /\ contents r.2 = [] /\ zlen (queue r.2) = zlen (queue q) /\
    forall l ls, contents q = l :: ls -> r.1 = getQuery l).
Proof.
  intros Hq. pose proof Hq as [Hl Hr Hrd Hc Hw]; simpl in *.
  unfold clear. eapply yields_bind; [by apply yields_rd|].
  intros l Hlk. apply yields_ok; simpl. split; [|split; [done|split; [done|]]].
  - split; simpl; try done; lia.
  - intros l' ls C. pose proof (MemQueue.get_contents _ Hq) as G.
    change (MemQueue.contents (as_ring q)) with (contents q) in G.
    rewrite C in G. unfold MemQueue.get in G; simpl in G.
    rewrite (rd_ok _ _ l) in G by (done || lia). by injection G as ->.
Qed.

Lemma clear_spec_witness :
  yields (clear (fun l : Z => l * 2) (mk [5; 6; 7] 1 2 1)) (fun r =>
    wf r.2 /\ contents r.2 = [] /\ zlen (queue r.2) = 3 /\
    forall l ls, [6] = l :: ls -> r.1 = l * 2).
Proof.
  apply (clear_spec (fun l => l * 2) (mk [5; 6; 7] 1 2 1)).
  split; simpl; unfold zlen; simpl; try lia. reflexivity.
Defined.

End LabelQueue.
