(* ===== verification/Spsc.v ===== *)
(** * One producer, one consumer: the ring buffer shared by two threads

    [MemQueue] is documented as a lock-free ring buffer: the generation thread
    ([ModelQueue::generate], through [FrameQueue]) pushes frames while the
    audio thread ([Mage::updateSamples]) pops them.  This file splits the two
    protocols into their accesses to the shared members and interleaves them
    (sequential consistency, which the memory barriers of the code provide).

    The update [nOfItems += 1] of the code is a load and a store, since
    [nOfItems] is a plain [int].  When the updates of the two threads do not
    overlap the ring is a FIFO; when they do, an update is lost. *)

From S2P Require Import Prelude MemQueue.

Module Spsc.
Section Spsc.
Context {Item : Type}.

(** where each thread is in its protocol *)
Inductive producer :=
  | PIdle                        (* about to test isFull() *)
  | PFilled (x : Item)           (* the slot next() has been filled *)
  | PWritten                     (* write advanced, nOfItems not yet *)
  | PLoaded (reg : Z).           (* nOfItems loaded for += *)

Inductive consumer :=
  | CIdle                        (* about to test isEmpty() *)
  | CGot (x : Item)              (* the oldest item has been read *)
  | CClamped (x : Item) (n : Z)  (* nItem clamped by pop() *)
  | CRead                        (* read advanced, nOfItems not yet *)
  | CLoaded (reg : Z).           (* nOfItems loaded for -= *)

(** the shared ring, the two threads, and the history of the items that were
    made available and consumed *)
Record state := mkState {
  ring : MemQueue.t Item;
  prod : producer;
  cons : consumer;
  pushed : list Item;
  popped : list Item
}.

#[global] Instance eta_state : Settable state := fun s =>
  mkState (ring s) (prod s) (cons s) (pushed s) (popped s).

Definition init (d : Item) (len : Z) : state :=
  mkState (MemQueue.create d len) PIdle CIdle [] [].

(** one access of one thread *)
Inductive step : state -> state -> Prop :=
  | P_fill s x r : prod s = PIdle -> MemQueue.isFull (ring s) = false ->
      MemQueue.set_next (ring s) x = Ok r ->
      step s (s <| ring := r |> <| prod := PFilled x |>)
  | P_write s x w : prod s = PFilled x ->
      MemQueue.u_mod (wrap_u32 (MemQueue.qwrite (ring s) + 1))
        (MemQueue.qlength (ring s)) = Ok w ->
      step s (s <| ring := (ring s) <| MemQueue.qwrite := w |> |>
                       <| prod := PWritten |> <| pushed := pushed s ++ [x] |>)
  | P_load s : prod s = PWritten ->
      step s (s <| prod := PLoaded (MemQueue.nOfItems (ring s)) |>)
  | P_store s reg : prod s = PLoaded reg ->
      step s (s <| ring := (ring s) <| MemQueue.nOfItems := to_i32 (reg + 1) |> |>
                       <| prod := PIdle |>)
  | C_get s x : cons s = CIdle -> MemQueue.isEmpty (ring s) = false ->
      MemQueue.get (ring s) = Ok x ->
      step s (s <| cons := CGot x |>)
  | C_clamp s x : cons s = CGot x ->
      step s (s <| cons := CClamped x (MemQueue.clamp (ring s) 1) |>)
  | C_read s x n r : cons s = CClamped x n ->
      MemQueue.u_mod (wrap_u32 (MemQueue.qread (ring s) + n))
        (MemQueue.qlength (ring s)) = Ok r ->
      step s (s <| ring := (ring s) <| MemQueue.qread := r |> |>
                       <| cons := CRead |> <| popped := popped s ++ [x] |>)
  | C_load s : cons s = CRead ->
      step s (s <| cons := CLoaded (MemQueue.nOfItems (ring s)) |>)
  | C_store s reg : cons s = CLoaded reg ->
      step s (s <| ring := (ring s) <| MemQueue.nOfItems := to_i32 (reg - 1) |> |>
                       <| cons := CIdle |>).

(** the same steps as a function: the next access of the chosen thread *)
Inductive thread := Producer | Consumer.

Definition next_step (th : thread) (s : state) : option state :=
  match th with
  | Producer =>
      match prod s with
      | PIdle => None
      | PFilled x =>
          match MemQueue.u_mod (wrap_u32 (MemQueue.qwrite (ring s) + 1))
                  (MemQueue.qlength (ring s)) with
          | Ok w => Some (s <| ring := (ring s) <| MemQueue.qwrite := w |> |>
                            <| prod := PWritten |> <| pushed := pushed s ++ [x] |>)
          | _ => None
          end
      | PWritten => Some (s <| prod := PLoaded (MemQueue.nOfItems (ring s)) |>)
      | PLoaded reg =>
          Some (s <| ring := (ring s) <| MemQueue.nOfItems := to_i32 (reg + 1) |> |>
                  <| prod := PIdle |>)
      end
  | Consumer =>
      match cons s with
      | CIdle =>
          if MemQueue.isEmpty (ring s) then None
          else match MemQueue.get (ring s) with
               | Ok x => Some (s <| cons := CGot x |>)
               | _ => None
               end
      | CGot x => Some (s <| cons := CClamped x (MemQueue.clamp (ring s) 1) |>)
      | CClamped x n =>
          match MemQueue.u_mod (wrap_u32 (MemQueue.qread (ring s) + n))
                  (MemQueue.qlength (ring s)) with
          | Ok r => Some (s <| ring := (ring s) <| MemQueue.qread := r |> |>
                            <| cons := CRead |> <| popped := popped s ++ [x] |>)
          | _ => None
          end
      | CRead => Some (s <| cons := CLoaded (MemQueue.nOfItems (ring s)) |>)
      | CLoaded reg =>
          Some (s <| ring := (ring s) <| MemQueue.nOfItems := to_i32 (reg - 1) |> |>
                  <| cons := CIdle |>)
      end
  end.

(** the producer starts a push of [x] *)
Definition start_push (x : Item) (s : state) : option state :=
  match prod s with
  | PIdle =>
      if MemQueue.isFull (ring s) then None
      else match MemQueue.set_next (ring s) x with
           | Ok r => Some (s <| ring := r |> <| prod := PFilled x |>)
           | _ => None
           end
  | _ => None
  end.

(** a schedule: [inl x] starts a push of [x], [inr th] lets [th] do one access *)
Fixpoint exec (es : list (Item + thread)) (s : state) : option state :=
  match es with
  | [] => Some s
  | e :: es =>
      s' ← (match e with inl x => start_push x s | inr th => next_step th s end);
      exec es s'
  end.

Lemma next_step_sound th s s' : next_step th s = Some s' -> step s s'.
Proof.
  destruct th; simpl.
  - destruct (prod s) eqn:E; [done|..].
    + destruct (MemQueue.u_mod _ _) eqn:Eu; intros [= <-]. by apply P_write.
    + intros [= <-]. by apply P_load.
    + intros [= <-]. by apply P_store.
  - destruct (cons s) eqn:E.
    + destruct (MemQueue.isEmpty _) eqn:Ee; [done|].
      destruct (MemQueue.get _) eqn:Eg; intros [= <-]. by apply C_get.
    + intros [= <-]. by apply C_clamp.
    + destruct (MemQueue.u_mod _ _) eqn:Eu; intros [= <-]. by eapply C_read.
    + intros [= <-]. by apply C_load.
    + intros [= <-]. by apply C_store.
Qed.

Lemma start_push_sound x s s' : start_push x s = Some s' -> step s s'.
Proof.
  unfold start_push. destruct (prod s) eqn:E; try done.
  destruct (MemQueue.isFull _) eqn:Ef; [done|].
  destruct (MemQueue.set_next _ _) eqn:Es; intros [= <-]. by apply P_fill.
Qed.

Lemma exec_sound es s s' : exec es s = Some s' -> rtc step s s'.
Proof.
  revert s. induction es as [|e es IH]; intros s; simpl.
  { intros [= <-]. apply rtc_refl. }
  intros (s1 & E1 & E)%bind_Some. eapply rtc_l; [|by apply IH].
  destruct e; [by eapply start_push_sound|by eapply next_step_sound].
Qed.

Definition reachable (d : Item) (len : Z) : state -> Prop := rtc step (init d len).

(** *** Updates of the counter that do not overlap *)

(** a thread that has loaded the counter and not stored it yet *)
Definition updating_prod (p : producer) : bool := match p with PLoaded _ => true | _ => false end.
Definition updating_cons (c : consumer) : bool := match c with CLoaded _ => true | _ => false end.
Definition overlap (s : state) : bool := updating_prod (prod s) && updating_cons (cons s).

(** the accesses that do not lead into such a state: no thread loads the counter
    between the load and the store of the other *)
Definition apart_step (s s' : state) : Prop := step s s' /\ overlap s' = false.
Definition reachable_apart (d : Item) (len : Z) : state -> Prop := rtc apart_step (init d len).

(** a schedule in which the updates do not overlap *)
Fixpoint exec_apart (es : list (Item + thread)) (s : state) : option state :=
  match es with
  | [] => Some s
  | e :: es =>
      s' ← (match e with inl x => start_push x s | inr th => next_step th s end);
      if overlap s' then None else exec_apart es s'
  end.

Lemma exec_apart_sound es s s' : exec_apart es s = Some s' -> rtc apart_step s s'.
Proof.
  revert s. induction es as [|e es IH]; intros s; simpl.
  { intros [= <-]. apply rtc_refl. }
  intros (s1 & E1 & E)%bind_Some. destruct (overlap s1) eqn:Eo; [done|].
  eapply rtc_l; [split; [|exact Eo]|by apply IH].
  destruct e; [by eapply start_push_sound|by eapply next_step_sound].
Qed.

(** ** The invariant of the protocol *)

(** [nOfItems] lags behind: the ring of the items between [read] and [write],
    [q], differs from the shared one in its count only.  [lag] is one while
    the producer has advanced [write] but not the count, [lead] one while the
    consumer has advanced [read] but not the count.  What a thread has loaded is
    still the count. *)
Definition lag (p : producer) : Z := match p with PWritten | PLoaded _ => 1 | _ => 0 end.
Definition lead (c : consumer) : Z := match c with CRead | CLoaded _ => 1 | _ => 0 end.

Definition with_count (q : MemQueue.t Item) (n : Z) : MemQueue.t Item :=
  q <| MemQueue.nOfItems := n |>.

Definition prod_ok (q : MemQueue.t Item) (n : Z) (p : producer) : Prop :=
  match p with
  | PIdle => True
  | PFilled x => n < MemQueue.qlength q /\
      MemQueue.rawData q !! Z.to_nat (MemQueue.qwrite q) = Some x
  | PWritten => n < MemQueue.qlength q
  | PLoaded reg => n < MemQueue.qlength q /\ reg = n
  end.

Definition cons_ok (q : MemQueue.t Item) (n : Z) (c : consumer) : Prop :=
  match c with
  | CIdle => True
  | CGot x => 0 < n /\ head (MemQueue.contents q) = Some x
  | CClamped x m => 0 < n /\ m = 1 /\ head (MemQueue.contents q) = Some x
  | CRead => 0 < n
  | CLoaded reg => 0 < n /\ reg = n
  end.

(** [inv q s]: the ring [q] of the waiting items explains the state [s] *)
Record inv (q : MemQueue.t Item) (s : state) (n : Z) : Prop := {
  inv_wf : MemQueue.wf q;
  inv_ring : ring s = with_count q n;
  inv_count : MemQueue.nOfItems q = n + lag (prod s) - lead (cons s);
  inv_range : 0 <= n <= MemQueue.qlength q;
  inv_hist : pushed s = popped s ++ MemQueue.contents q;
  inv_prod : prod_ok q n (prod s);
  inv_cons : cons_ok q n (cons s);
  inv_apart : overlap s = false
}.

Lemma init_inv d len : 0 < len < 2 ^ 31 -> inv (MemQueue.create d len) (init d len) 0.
Proof. intros H. split; simpl; try done; [by apply MemQueue.create_wf|lia]. Qed.

Ltac use_inv Hi :=
  destruct Hi as [W Er Ec Hn Hh Hp Hc Ho]; unfold overlap in *; simpl in *;
  try match goal with E : prod _ = _ |- _ => rewrite E in * end;
  try match goal with E : cons _ = _ |- _ => rewrite E in * end;
  simpl in *; try match goal with E : ring _ = _ |- _ => rewrite E in * end.

Lemma head_app_some {A} (l k : list A) x : head l = Some x -> head (l ++ k) = Some x.
Proof. by destruct l. Qed.

Lemma lead_range c : 0 <= lead c <= 1.
Proof. destruct c; simpl; lia. Qed.
Lemma lag_range p : 0 <= lag p <= 1.
Proof. destruct p; simpl; lia. Qed.

Lemma inv_fill q s n x r : inv q s n -> prod s = PIdle ->
  MemQueue.isFull (ring s) = false -> MemQueue.set_next (ring s) x = Ok r ->
  exists q', inv q' (s <| ring := r |> <| prod := PFilled x |>) n.
Proof.
  intros Hi Ep Hf E. use_inv Hi.
  assert (Hlt : n < MemQueue.qlength q).
  { unfold MemQueue.isFull, MemQueue.getNumOfItems in Hf; simpl in Hf.
    apply Z.leb_gt in Hf. revert Hf. case Z.ltb_spec; lia. }
  pose proof (lead_range (cons s)).
  destruct (MemQueue.set_next_spec q x W) as (q' & Eq & Eq' & Wq & Cq & Rq); [lia|].
  unfold MemQueue.set_next, MemQueue.next in *; simpl in *.
  apply bind_inv_Ok in E as (raw' & Ew & [= <-]).
  rewrite Ew, bind_Ok in Eq. injection Eq as Eq.
  exists q'. split; simpl; try done; subst q'; simpl in *; try done.
  - by rewrite Cq.
  - by destruct (cons s); simpl in *; rewrite ?Cq.
Qed.

Lemma inv_write q s n x w : inv q s n -> prod s = PFilled x ->
  MemQueue.u_mod (wrap_u32 (MemQueue.qwrite (ring s) + 1))
    (MemQueue.qlength (ring s)) = Ok w ->
  exists q', inv q' (s <| ring := (ring s) <| MemQueue.qwrite := w |> |>
                       <| prod := PWritten |> <| pushed := pushed s ++ [x] |>) n.
Proof.
  intros Hi Ep E. use_inv Hi. destruct Hp as [Hlt Hx].
  pose proof (lead_range (cons s)).
  destruct (MemQueue.push_filled q x W) as (q' & Eq & Wq & Lq & Nq & Rq & Dq & Cq);
    [lia|done|].
  change (MemQueue.u_mod (wrap_u32 (MemQueue.qwrite q + 1)) (MemQueue.qlength q) = Ok w) in E.
  unfold MemQueue.push in Eq. rewrite E, bind_Ok in Eq. injection Eq as Eq.
  exists q'. split; simpl; try done; try lia.
  - by subst q'.
  - by rewrite Hh, Cq, app_assoc.
  - destruct (cons s); simpl in *; rewrite ?Cq; try done.
    + destruct Hc. split; [done|]. by apply head_app_some.
    + destruct Hc as (? & ? & ?). split; [lia|]. split; [done|]. by apply head_app_some.
Qed.

Lemma inv_load_prod q s n : inv q s n -> prod s = PWritten -> updating_cons (cons s) = false ->
  inv q (s <| prod := PLoaded (MemQueue.nOfItems (ring s)) |>) n.
Proof. intros Hi Ep Ho'. use_inv Hi. split; simpl; try done. Qed.

Lemma inv_count_add q s n reg : inv q s n -> prod s = PLoaded reg ->
  inv q (s <| ring := (ring s) <| MemQueue.nOfItems := to_i32 (reg + 1) |> |>
           <| prod := PIdle |>) (n + 1).
Proof.
  intros Hi Ep. use_inv Hi. destruct Hp as [Hp ->]. pose proof (MemQueue.wf_len q W).
  split; simpl; try done; try lia.
  - by rewrite to_i32_small by lia.
  - destruct (cons s); simpl in *; try done; intuition lia.
Qed.

Lemma inv_get q s n x : inv q s n -> cons s = CIdle ->
  MemQueue.isEmpty (ring s) = false -> MemQueue.get (ring s) = Ok x ->
  inv q (s <| cons := CGot x |>) n.
Proof.
  intros Hi Ek He Eg. use_inv Hi.
  unfold MemQueue.isEmpty in He; simpl in He. apply Z.leb_gt in He.
  pose proof (lag_range (prod s)).
  split; simpl; try done. split; [done|].
  pose proof (MemQueue.zlen_contents q W) as Lc.
  pose proof (MemQueue.get_contents q W) as G.
  change (MemQueue.get q = Ok x) in Eg. rewrite Eg in G.
  destruct (MemQueue.contents q) as [|y l]; [unfold zlen in Lc; simpl in Lc; lia|].
  by injection G as ->.
Qed.

Lemma inv_clamp q s n x : inv q s n -> cons s = CGot x ->
  inv q (s <| cons := CClamped x (MemQueue.clamp (ring s) 1) |>) n.
Proof.
  intros Hi Ek. use_inv Hi. split; simpl; try done. destruct Hc. split; [done|].
  split; [|done]. unfold MemQueue.clamp, MemQueue.getNumOfItems; simpl.
  rewrite (proj2 (Z.ltb_lt 0 n)) by done. case Z.ltb_spec; lia.
Qed.

Lemma inv_read q s n x m r : inv q s n -> cons s = CClamped x m ->
  MemQueue.u_mod (wrap_u32 (MemQueue.qread (ring s) + m))
    (MemQueue.qlength (ring s)) = Ok r ->
  exists q', inv q' (s <| ring := (ring s) <| MemQueue.qread := r |> |>
                       <| cons := CRead |> <| popped := popped s ++ [x] |>) n.
Proof.
  intros Hi Ek E. use_inv Hi. destruct Hc as (Hpos & -> & Hx).
  pose proof (lag_range (prod s)).
  destruct (MemQueue.pop_spec q 1 W) as (q' & Eq & Wq & Lq & Cq & Dq); [done|].
  pose proof (MemQueue.zlen_contents q W) as Lc.
  pose proof (MemQueue.zlen_contents q' Wq) as Lc'.
  unfold MemQueue.pop in Eq. rewrite MemQueue.clamp_wf, Z.min_l in Eq by (done || lia).
  change (MemQueue.u_mod (wrap_u32 (MemQueue.qread q + 1)) (MemQueue.qlength q) = Ok r) in E.
  rewrite E, bind_Ok in Eq. injection Eq as Eq.
  exists q'. split; simpl; try done; try lia.
  - by subst q'.
  - rewrite Cq in Lc'. unfold zlen in *. rewrite length_drop in Lc'. lia.
  - rewrite Hh, Cq, <-app_assoc. f_equal.
    destruct (MemQueue.contents q); simpl in *; [done|]. by injection Hx as ->.
  - subst q'. by destruct (prod s); simpl in *.
Qed.

Lemma inv_load_cons q s n : inv q s n -> cons s = CRead -> updating_prod (prod s) = false ->
  inv q (s <| cons := CLoaded (MemQueue.nOfItems (ring s)) |>) n.
Proof. intros Hi Ek Ho'. use_inv Hi. split; simpl; try done. unfold overlap; simpl. by rewrite Ho'. Qed.

Lemma inv_count_sub q s n reg : inv q s n -> cons s = CLoaded reg ->
  inv q (s <| ring := (ring s) <| MemQueue.nOfItems := to_i32 (reg - 1) |> |>
           <| cons := CIdle |>) (n - 1).
Proof.
  intros Hi Ek. use_inv Hi. destruct Hc as [Hc ->]. pose proof (MemQueue.wf_len q W).
  rewrite andb_true_r in Ho. split; simpl; try done; try lia.
  - by rewrite to_i32_small by lia.
  - destruct (prod s); simpl in *; try done; intuition lia.
  - apply andb_false_r.
Qed.

Lemma inv_step q s s' n : inv q s n -> apart_step s s' -> exists q' n', inv q' s' n'.
Proof.
  intros Hi [Hs Ho]. destruct Hs.
  - edestruct inv_fill as [q' ?]; eauto.
  - edestruct inv_write as [q' ?]; eauto.
  - do 2 eexists. by apply inv_load_prod.
  - do 2 eexists. by apply inv_count_add.
  - do 2 eexists. eapply inv_get; eauto.
  - do 2 eexists. by apply inv_clamp.
  - edestruct inv_read as [q' ?]; eauto.
  - do 2 eexists. apply inv_load_cons; [done|done|]. unfold overlap in Ho. simpl in Ho.
    by rewrite andb_true_r in Ho.
  - do 2 eexists. by apply inv_count_sub.
Qed.

Lemma inv_reachable d len s : 0 < len < 2 ^ 31 ->
  reachable_apart d len s -> exists q n, inv q s n.
Proof.
  intros Hl Hr. unfold reachable_apart in Hr.
  apply (rtc_ind_r (R:=apart_step) (fun s => exists q n, inv q s n) (init d len)); [|..|exact Hr].
  - do 2 eexists. by apply init_inv.
  - intros s1 s2 _ H (q & n & Hi). by apply (inv_step q s1 s2 n).
Qed.

End Spsc.
Arguments state Item : clear implicits.

(** ** Properties *)

(** C30: as long as the updates of [nOfItems] by the two threads do not overlap
    (neither loads the counter between the load and the store of the other), the
    shared ring is a FIFO between them, however their other accesses interleave:
    the consumer receives exactly the items the producer wrote, in order, without
    loss, duplication or stale reads, and the counter stays within the capacity.
    ([lost_update] shows what one overlap does.) *)
Theorem apart_fifo {Item} (d : Item) len (s : state Item) :
  0 < len < 2 ^ 31 -> reachable_apart d len s ->
  popped s `prefix_of` pushed s /\
  zlen (pushed s) - zlen (popped s) <= len /\
  0 <= MemQueue.nOfItems (ring s) <= len.
Proof.
  intros Hl Hr.
  assert (L : MemQueue.qlength (ring s) = len).
  { apply (rtc_ind_r (R:=apart_step) (fun s => MemQueue.qlength (ring s) = len) (init d len));
      [done| |exact Hr].
    intros s1 s2 _ [H _] E. destruct H; simpl in *; try done.
    unfold MemQueue.set_next in *. res_inv. done. }
  destruct (inv_reachable d len s Hl Hr) as (q & n & [W Er Ec Hn Hh _ _ _]).
  rewrite Er in L |- *. simpl in *. subst len.
  pose proof (MemQueue.zlen_contents q W). pose proof (MemQueue.wf_count q W).
  split; [by eexists|]. split; [|done].
  rewrite Hh, zlen_app. lia.
Qed.

(** a push and a pop whose other accesses interleave *)
Lemma apart_fifo_witness :
  let s := mkState (MemQueue.mk 1 2 None 1 0 [5; 6]) PIdle CIdle [5; 6] [5] in
  popped s `prefix_of` pushed s /\
  zlen (pushed s) - zlen (popped s) <= 2 /\
  0 <= MemQueue.nOfItems (ring s) <= 2.
Proof.
  apply (apart_fifo 0 2); [lia|].
  apply (exec_apart_sound
           [inl 5; inr Producer; inr Producer; inr Producer; inr Consumer; inl 6; inr Consumer;
            inr Producer; inr Consumer; inr Producer; inr Producer; inr Consumer; inr Consumer]).
  vm_compute. reflexivity.
Defined.

(** C36: the code's update of [nOfItems] is not indivisible, and one
    interleaving of a push and a pop loses the pop's decrement: both threads
    are idle, every item written has been consumed, yet the counter says one
    item waits, and the consumer then takes an item that was never pushed. *)
Theorem lost_update :
  exists s s' : state Z,
    reachable 0 4 s /\ prod s = PIdle /\ cons s = CIdle /\
    popped s = pushed s /\ MemQueue.nOfItems (ring s) = 1 /\
    rtc step s s' /\ pushed s' = [7; 8] /\ popped s' = [7; 8; 0].
Proof.
  pose (es := [inl 7; inr Producer; inr Producer; inr Producer; inl 8; inr Producer;
    inr Consumer; inr Consumer; inr Consumer;
    (* the producer loads 1, then the consumer's decrement is overwritten *)
    inr Producer; inr Consumer; inr Consumer; inr Producer;
    inr Consumer; inr Consumer; inr Consumer; inr Consumer; inr Consumer]
    : list (Z + thread)).
  destruct (exec es (init 0 4)) as [s|] eqn:E; [|by vm_compute in E].
  destruct (exec [inr Consumer; inr Consumer; inr Consumer] s) as [s'|] eqn:E';
    [|vm_compute in E; injection E as <-; by vm_compute in E'].
  exists s, s'. split; [by apply (exec_sound es)|].
  pose proof (exec_sound _ _ _ E') as R.
  vm_compute in E. injection E as <-. vm_compute in E'. injection E' as <-.
  done.
Qed.

End Spsc.
