(* ===== verification/Duration.v ===== *)
(** * State durations (mHTS_set_duration of mage/src/hts.cpp)

    The distribution of a frame count over the states of a model: rounding of
    the means, or a correction loop that meets a target length.  The routine
    MAGE copied from hts_engine ([HTS_set_duration] of HTS_sstream.c) is
    modelled beside it: the two differ in the first state the correction loop
    considers and in the state it prefers. *)

From S2P Require Import Prelude Num Constants.

Module Duration.
Section Duration.
Context {F : Type} `{NumOps F}.
#[local] Open Scope num_scope.
#[local] Open Scope Z_scope.

(** ** The routine *)

(** [duration[i] = ( int )( x + 0.5 ); if( duration[i] < 1 ) duration[i] = 1;
    sum += duration[i]] *)
Definition estimate (x : F) (i : Z) (st : list Z * Z) : Res (list Z * Z) :=
  let '(duration, sum) := st in
  d ← to_int (x + ndec 5 (-1))%num;
  let d := if d <? 1 then 1 else d in
  duration ← wr duration i d;
  sum ← i32 (sum + d);
  Ok (duration, sum).

(** [for( i = 0; i < size; i++ )] of the first estimation, from the values [x i] *)
Definition estimates (x : Z -> Res F) (size : Z) (duration : list Z)
    : Res (list Z * Z) :=
  for_up 0 size (fun i st => xi ← x i; estimate xi i st) (duration, 0).

Section Loop.
(** [abs] as each routine calls it *)
Variable dabs : F -> Res F.
(** the search of the correction loop: the first index considered, and the
    test that makes a state replace the current choice *)
Variable first : Z.
Variable better : F -> F -> bool.
Variables (rho : F) (mean vari : list F) (size target_length : Z).

(** [abs( rho - ( ( double )duration[i] + delta - mean[i] ) / vari[i] )] *)
Definition deviation (duration : list Z) (delta : F -> F) (i : Z) : Res F :=
  d ← rd duration i;
  m ← rd mean i;
  v ← rd vari i;
  dabs (rho - (delta (nZ d) - m) / v)%num.

(** the [for] that looks for the state to modify; [j] is -1 until one is found *)
Definition search (eligible : Z -> bool) (delta : F -> F) (duration : list Z) (temp1 : F)
    : Res (Z * F) :=
  for_up first size (fun i st =>
    let '(j, temp1) := st in
    d ← rd duration i;
    if eligible d then
      temp2 ← deviation duration delta i;
      Ok (if (j <? 0) || better temp1 temp2 then (i, temp2) else (j, temp1))
    else Ok st) (-1, temp1).

(** one pass of [while( target_length != sum )] *)
Definition adjust_once (st : list Z * Z * F) : Res (list Z * Z * F) :=
  let '(duration, sum, temp1) := st in
  if sum <? target_length then
    '(j, temp1) ← search (fun _ => true) (fun d => d + 1)%num duration temp1;
    sum ← i32 (sum + 1);
    d ← rd duration j;
    d ← i32 (d + 1);
    duration ← wr duration j d;
    Ok (duration, sum, temp1)
  else
    '(j, temp1) ← search (fun d => 1 <? d) (fun d => d - 1)%num duration temp1;
    sum ← i32 (sum - 1);
    d ← rd duration j;
    d ← i32 (d - 1);
    duration ← wr duration j d;
    Ok (duration, sum, temp1).

Fixpoint adjust (fuel : nat) (st : list Z * Z * F) : Res (list Z) :=
  let '(duration, sum, _) := st in
  if target_length =? sum then Ok duration
  else
    match fuel with
    | O => Timeout
    | S fuel => st ← adjust_once st; adjust fuel st
    end.
End Loop.

(** sums of the means and of the variances *)
Definition total (xs : list F) (size : Z) : Res F :=
  for_up 0 size (fun i acc => x ← rd xs i; Ok (acc + x)%num) (nZ 0).

(** the routine up to the search policy of its loop; the fuel is the distance
    the loop has to cover *)
Definition set_duration_with (dabs : F -> Res F) (first : Z) (better : F -> F -> bool)
    (duration : list Z) (mean vari : list F) (size : Z) (frame_length : F)
    : Res (list Z * F) :=
  if (frame_length =? nZ 0)%num then
    '(duration, sum) ← estimates (rd mean) size duration;
    Ok (duration, nZ sum)
  else
    target_length ← to_int (frame_length + ndec 5 (-1))%num;
    if target_length <=? size then
      duration ← for_up 0 size (fun i duration => wr duration i 1) duration;
      Ok (duration, nZ size)
    else
      temp1 ← total mean size;
      temp2 ← total vari size;
      let rho := ((nZ target_length - temp1) / temp2)%num in
      '(duration, sum) ← estimates
        (fun i => m ← rd mean i; v ← rd vari i; Ok (m + rho * v)%num) size duration;
      duration ← adjust dabs first better rho mean vari size target_length
                   (Z.to_nat (Z.abs (target_length - sum))) (duration, sum, temp1);
      Ok (duration, nZ target_length).

(** [abs] of [double] (C++), and [abs] of [int] (C) with the conversions of
    its argument and result *)
Definition abs_double (x : F) : Res F := Ok (nabs x).
Definition abs_int (x : F) : Res F :=
  z ← to_int x; z ← i32 (Z.abs z); Ok (nZ z).

(** MAGE (C++): the search starts at state 1 and prefers the larger deviation *)
Definition mHTS_set_duration : list Z -> list F -> list F -> Z -> F -> Res (list Z * F) :=
  set_duration_with abs_double 1 (fun temp1 temp2 => temp1 <? temp2)%num.

(** hts_engine (C): the search starts at state 0 and prefers the smaller deviation *)
Definition HTS_set_duration : list Z -> list F -> list F -> Z -> F -> Res (list Z * F) :=
  set_duration_with abs_int 0 (fun temp1 temp2 => temp2 <? temp1)%num.

(** ** Sums of durations *)

Definition zsum (l : list Z) : Z := foldr Z.add 0 l.

Lemma zsum_insert l i d e : l !! i = Some d -> zsum (<[i := e]> l) = zsum l - d + e.
Proof.
  revert i. induction l as [|x l IH]; intros [|i] E; simpl in *; try done.
  - injection E as ->. lia.
  - rewrite (IH _ E). lia.
Qed.

Lemma zsum_app l k : zsum (l ++ k) = zsum l + zsum k.
Proof. induction l as [|x l IH]; simpl; lia. Qed.

Lemma zsum_nonneg l : Forall (fun d => 0 <= d) l -> 0 <= zsum l.
Proof.
  induction 1 as [|d l Hd _ IH]; [done|]. change (zsum (d :: l)) with (d + zsum l). lia.
Qed.

Lemma zsum_elem l (i : nat) d :
  Forall (fun d => 0 <= d) l -> l !! i = Some d -> 0 <= d <= zsum l.
Proof.
  intros P E. pose proof (zsum_nonneg _ (Forall_take _ i _ P)).
  pose proof (zsum_nonneg _ (Forall_drop _ (S i) _ P)).
  rewrite Forall_lookup in P. pose proof (P _ _ E). cbn beta in *.
  rewrite <-(take_drop_middle _ _ _ E), zsum_app.
  change (zsum (d :: drop (S i) l)) with (d + zsum (drop (S i) l)). lia.
Qed.

Lemma zsum_lower l : Forall (fun d => 1 <= d) l -> zlen l <= zsum l.
Proof. unfold zlen. induction 1; simpl in *; lia. Qed.

Lemma zsum_ge_nth l i d :
  Forall (fun d => 1 <= d) l -> l !! i = Some d -> d + (zlen l - 1) <= zsum l.
Proof.
  intros Hl E. pose proof (zsum_insert l i d 1 E) as S.
  assert (Forall (fun d => 1 <= d) (<[i := 1]> l)) as H1 by (apply Forall_insert; [done|lia]).
  apply zsum_lower in H1. rewrite zlen_insert in H1. lia.
Qed.

Lemma zsum_ones l :
  Forall (fun d => 1 <= d) l -> (forall i d, l !! i = Some d -> d <= 1) ->
  zsum l = zlen l.
Proof.
  unfold zlen. induction 1 as [|d l Hd Hl IH]; intros H1; [done|]. simpl.
  pose proof (H1 O d eq_refl). rewrite (IH (fun i => H1 (S i))). simpl. lia.
Qed.

(** [size] durations of at least one frame *)
Definition distributed (size : Z) (l : list Z) : Prop :=
  zlen l = size /\ Forall (fun d => 1 <= d) l.

Lemma distributed_insert size l (i : nat) d :
  distributed size l -> 1 <= d -> distributed size (<[i := d]> l).
Proof. intros [L A] ?. split; [by rewrite zlen_insert|by apply Forall_insert]. Qed.

(** the least sum the loop can reach when it leaves the first states alone *)
Definition floor_sum (first size : Z) (l : list Z) : Z :=
  zsum (take (Z.to_nat first) l) + (size - first).

Lemma floor_sum_le first size l :
  0 <= first <= size -> distributed size l -> floor_sum first size l <= zsum l.
Proof.
  intros ? [L A]. unfold floor_sum.
  rewrite <-(take_drop (Z.to_nat first) l) at 2. rewrite zsum_app.
  pose proof (zsum_lower _ (Forall_drop _ (Z.to_nat first) _ A)). zlen_lia.
Qed.

(** when no later state has more than one frame the sum is at its floor *)
Lemma floor_sum_reached first size l :
  0 <= first <= size -> distributed size l ->
  (forall i d, first <= Z.of_nat i -> l !! i = Some d -> d <= 1) ->
  zsum l = floor_sum first size l.
Proof.
  intros ? [L A] H1. unfold floor_sum.
  rewrite <-(take_drop (Z.to_nat first) l) at 1. rewrite zsum_app.
  rewrite (zsum_ones (drop (Z.to_nat first) l)); [zlen_lia|by apply Forall_drop|].
  intros i d E. rewrite lookup_drop in E. eapply H1; [|exact E]. lia.
Qed.

(** ** The first estimation *)

(** after [i] states, the entries written so far *)
Definition estimated (x : Z -> Res F) (size i : Z) (st : list Z * Z) : Prop :=
  let '(l, sum) := st in
  zlen l = size /\ zsum (take (Z.to_nat i) l) = sum /\ - 2 ^ 31 <= sum < 2 ^ 31 /\
  forall k : nat, Z.of_nat k < i -> exists v d, x (Z.of_nat k) = Ok v /\
    to_int (v + ndec 5 (-1))%num = Ok d /\ l !! k = Some (Z.max 1 d).

Lemma estimates_estimated x size l l' sum :
  0 <= size -> zlen l = size -> estimates x size l = Ok (l', sum) ->
  estimated x size size (l', sum).
Proof.
  intros Hs Hl E. unfold estimates in E.
  apply (for_up_inv (estimated x size)) in E; [done|done| |].
  { split; [done|]. split; [done|]. split; [lia|]. intros k Hk. lia. }
  intros i [k s] [k' s'] Hi (L & S & R & A) B.
  apply bind_inv_Ok in B as (v & Ev & B). unfold estimate in B.
  apply bind_inv_Ok in B as (d & Ed & B). res_inv.
  replace (if d <? 1 then 1 else d) with (Z.max 1 d) in * by (case Z.ltb_spec; lia).
  split; [by rewrite zlen_insert|]. split.
  { replace (Z.to_nat (i + 1)) with (Datatypes.S (Z.to_nat i)) by lia.
    rewrite (take_S_r _ _ (Z.max 1 d)) by (apply list_lookup_insert_eq; unfold zlen in *; lia).
    rewrite take_insert_ge, zsum_app by lia. simpl. lia. }
  split; [done|]. intros j Hj. destruct (decide (Z.of_nat j = i)) as [<-|].
  - exists v, d. rewrite Nat2Z.id.
    rewrite list_lookup_insert_eq by (unfold zlen in *; lia). done.
  - rewrite list_lookup_insert_ne by lia. apply A. lia.
Qed.

Lemma estimated_distributed x size l sum :
  0 <= size -> estimated x size size (l, sum) ->
  distributed size l /\ zsum l = sum.
Proof.
  intros ? (L & S & _ & A).
  rewrite take_ge in S by (unfold zlen in *; lia). split; [|done].
  split; [done|]. apply Forall_lookup_2. intros i d E.
  pose proof (lookup_lt_Some _ _ _ E).
  destruct (A i) as (v & e & _ & _ & E'); [unfold zlen in *; lia|]. simplify_eq. lia.
Qed.

(** ** The correction loop *)

Section Correction.
Context (bad : fault -> Prop) (dabs : F -> Res F) (first : Z) (better : F -> F -> bool)
  (rho : F) (mean vari : list F) (size target : Z).
Hypothesis dabs_may : forall x, may bad (dabs x) (fun _ => True).
Hypothesis Hmean : zlen mean = size.
Hypothesis Hvari : zlen vari = size.
Hypothesis Hfirst : 0 <= first <= size.

Lemma deviation_may l delta i :
  zlen l = size -> 0 <= i < size ->
  may bad (deviation dabs rho mean vari l delta i) (fun _ => True).
Proof.
  intros. unfold deviation.
  do 3 (eapply may_bind; [apply may_yields, yields_rd; lia|intros ? _]). apply dabs_may.
Qed.

(** what the search returns: a later eligible state, or -1 when there is none *)
Definition found (eligible : Z -> bool) (l : list Z) (i : Z) (st : Z * F) : Prop :=
  let '(j, _) := st in
  (j = -1 /\ forall k d, first <= Z.of_nat k < i -> l !! k = Some d -> eligible d = false)
  \/ (first <= j < i /\ exists d, l !! Z.to_nat j = Some d /\ eligible d = true).

Lemma search_may eligible delta l temp1 :
  zlen l = size ->
  may bad (search dabs first better rho mean vari size eligible delta l temp1)
    (found eligible l size).
Proof.
  intros L. unfold search. apply for_up_may; [lia|left; split; [done|lia]|].
  intros i [j t] Hi Hst.
  destruct (yields_rd l i) as (d & Ed & Hd); [lia|]. rewrite Ed, bind_Ok.
  destruct (eligible d) eqn:El.
  - eapply may_bind; [by apply deviation_may; lia|]. intros t2 _. simpl.
    destruct Hst as [[-> _]|(Hj & e & ? & ?)]; simpl.
    + right. split; [lia|by exists d].
    + destruct (_ || _); right; split; [lia|by exists d|lia|by exists e].
  - simpl. destruct Hst as [[-> A]|(Hj & e & ? & ?)].
    + left. split; [done|]. intros k e Hk E.
      destruct (decide (Z.of_nat k = i)) as [<-|]; [rewrite Nat2Z.id in Hd; congruence|].
      apply (A k); [lia|done].
    + right. split; [lia|by exists e].
Qed.

(** the states of the loop: distributed, with their sum, and the first states
    as they were *)
Definition adjusting (pre : list Z) (st : list Z * Z * F) : Prop :=
  let '(l, sum, _) := st in
  distributed size l /\ sum = zsum l /\ take (Z.to_nat first) l = pre
  /\ sum < 2 ^ 31 - 1.

Lemma adjusting_step pre l t t' (j : Z) d e :
  adjusting pre (l, zsum l, t) -> first <= j < size ->
  l !! Z.to_nat j = Some d -> 1 <= e -> zsum l + (e - d) < 2 ^ 31 - 1 ->
  adjusting pre (<[Z.to_nat j := e]> l, zsum l + (e - d), t').
Proof.
  intros (D & _ & P & R) Hj Ed He Hs. split; [by apply distributed_insert|].
  split; [rewrite (zsum_insert _ _ _ _ Ed); lia|].
  split; [by rewrite take_insert_ge by lia|done].
Qed.

Lemma adjust_once_up pre l t :
  first < size -> adjusting pre (l, zsum l, t) -> zsum l < target < 2 ^ 31 - 1 ->
  may bad (adjust_once dabs first better rho mean vari size target (l, zsum l, t))
    (fun st => adjusting pre st /\ st.1.2 = zsum l + 1).
Proof.
  intros Hf A Ht. pose proof A as ([L G] & _ & P & R). unfold adjust_once. zbool.
  eapply may_bind; [by apply search_may|].
  intros [j t'] [[-> N]|(Hj & d & Ed & _)].
  { exfalso. destruct (lookup_lt_is_Some_2 l (Z.to_nat first)) as [d Ed];
      [unfold zlen in L; lia|].
    specialize (N (Z.to_nat first) d ltac:(lia) Ed). done. }
  pose proof (zsum_ge_nth _ _ _ G Ed). pose proof (proj1 (Forall_lookup _ _) G _ _ Ed).
  pose proof (zlen_nonneg l). cbn beta in *.
  rewrite i32_ok, bind_Ok by lia. rewrite (rd_ok _ _ d), bind_Ok by (lia || done).
  rewrite i32_ok, bind_Ok by lia. rewrite wr_ok, bind_Ok by lia. simpl. split; [|done].
  replace (zsum l + 1) with (zsum l + (d + 1 - d)) by lia.
  eapply (adjusting_step pre l t t'); [done|done|done|lia|lia].
Qed.

(** a pass above the target shortens a later state, or, when no later state can
    be shortened, indexes [duration] with -1 *)
Lemma adjust_once_down pre l t :
  adjusting pre (l, zsum l, t) -> - 2 ^ 31 < target < zsum l ->
  (zsum l = floor_sum first size l -> bad OutOfBounds) ->
  may bad (adjust_once dabs first better rho mean vari size target (l, zsum l, t))
    (fun st => adjusting pre st /\ st.1.2 = zsum l - 1).
Proof.
  intros A Ht Hbad. pose proof A as ([L G] & _ & P & R). unfold adjust_once. zbool.
  eapply may_bind; [by apply search_may|].
  intros [j t'] [[-> N]|(Hj & d & Ed & Hd%Z.ltb_lt)].
  - pose proof (zsum_lower _ G). pose proof (zlen_nonneg l). cbn beta iota in *.
    rewrite i32_ok, bind_Ok by lia. rewrite rd_oob by lia. simpl. apply Hbad.
    apply floor_sum_reached; [done|done|]. intros i d Hi E.
    pose proof (lookup_lt_Some _ _ _ E).
    specialize (N i d ltac:(unfold zlen in *; lia) E). by apply Z.ltb_ge in N.
  - pose proof (zsum_ge_nth _ _ _ G Ed). pose proof (zlen_nonneg l). cbn beta iota in *.
    rewrite i32_ok, bind_Ok by lia. rewrite (rd_ok _ _ d), bind_Ok by (lia || done).
    rewrite i32_ok, bind_Ok by lia. rewrite wr_ok, bind_Ok by lia. simpl. split; [|done].
    replace (zsum l - 1) with (zsum l + (d - 1 - d)) by lia.
    eapply (adjusting_step pre l t t'); [done|done|done|lia|lia].
Qed.

Lemma floor_sum_pre pre l t :
  adjusting pre (l, zsum l, t) -> floor_sum first size l = zsum pre + (size - first).
Proof. intros (_ & _ & <- & _). done. Qed.

(** the loop returns within its fuel: the durations meet the target *)
Lemma adjust_meets pre fuel l t :
  first < size -> adjusting pre (l, zsum l, t) -> - 2 ^ 31 < target < 2 ^ 31 - 1 ->
  (Z.to_nat (Z.abs (target - zsum l)) <= fuel)%nat ->
  zsum l <= target \/ zsum pre + (size - first) <= target ->
  may bad (adjust dabs first better rho mean vari size target fuel (l, zsum l, t))
    (fun l' => distributed size l' /\ zsum l' = target /\ take (Z.to_nat first) l' = pre).
Proof.
  intros Hf. revert l t. induction fuel as [|fuel IH]; intros l t A Ht Hfuel Hr;
    simpl; destruct (Z.eqb_spec target (zsum l)) as [->|Hne];
    try (destruct A as (? & _ & ? & _); done); try lia.
  destruct (decide (zsum l < target)).
  - eapply may_bind; [apply (adjust_once_up pre); [done|done|lia]|].
    intros [[l' s'] t'] [A' E]. simpl in E. pose proof A' as (_ & -> & _ & _).
    apply IH; [done|done|lia|lia].
  - eapply may_bind; [apply (adjust_once_down pre); [done|lia|]|].
    { intros E. rewrite (floor_sum_pre _ _ _ A) in E. lia. }
    intros [[l' s'] t'] [A' E]. simpl in E. pose proof A' as (_ & -> & _ & _).
    apply IH; [done|done|lia|lia].
Qed.

(** below the floor of the later states the loop ends in an access out of
    bounds *)
Lemma adjust_overruns pre fuel l t :
  bad OutOfBounds -> adjusting pre (l, zsum l, t) -> - 2 ^ 31 < target ->
  (Z.to_nat (Z.abs (target - zsum l)) <= fuel)%nat ->
  target < zsum pre + (size - first) ->
  may bad (adjust dabs first better rho mean vari size target fuel (l, zsum l, t))
    (fun _ => False).
Proof.
  intros Hb. revert l t. induction fuel as [|fuel IH]; intros l t A Ht Hfuel Hr;
    pose proof (floor_sum_le first size l ltac:(done) (proj1 A)) as Fl;
    rewrite (floor_sum_pre _ _ _ A) in Fl; [lia|].
  cbn [adjust]. rewrite (proj2 (Z.eqb_neq target (zsum l))) by lia.
  eapply may_bind; [apply (adjust_once_down pre); [done|lia|done]|].
  intros [[l' s'] t'] [A' E]. simpl in E. pose proof A' as (_ & -> & _ & _).
  apply IH; [done|lia|lia|lia].
Qed.
End Correction.

(** ** The whole routine *)

(** the value of [rho] and the first estimate, for a target length *)
Definition rho_of (mean vari : list F) (size target_length : Z) : Res F :=
  temp1 ← total mean size;
  temp2 ← total vari size;
  Ok ((nZ target_length - temp1) / temp2)%num.

Definition first_estimate (duration : list Z) (mean vari : list F) (size target_length : Z)
    : Res (list Z * Z) :=
  rho ← rho_of mean vari size target_length;
  estimates (fun i => m ← rd mean i; v ← rd vari i; Ok (m + rho * v)%num) size duration.

Lemma total_yields xs size :
  0 <= size <= zlen xs -> yields (total xs size) (fun _ => True).
Proof.
  intros. unfold total. apply (for_up_yields (fun _ _ => True)); [lia|done|].
  intros i acc Hi _. eapply yields_bind; [apply yields_rd; lia|].
  intros x _. by apply yields_ok.
Qed.

(** the routine after its first estimate *)
Lemma set_duration_with_eq dabs first better duration mean vari size frame_length target l sum :
  0 <= size -> zlen mean = size -> zlen vari = size ->
  (frame_length =? nZ 0)%num = false ->
  to_int (frame_length + ndec 5 (-1))%num = Ok target -> size < target ->
  first_estimate duration mean vari size target = Ok (l, sum) ->
  exists rho t,
  set_duration_with dabs first better duration mean vari size frame_length =
    (l' ← adjust dabs first better rho mean vari size target
            (Z.to_nat (Z.abs (target - sum))) (l, sum, t);
     Ok (l', nZ target)).
Proof.
  intros Hs Hm Hv Hf Ht Hlt E. unfold first_estimate, rho_of in E.
  destruct (total_yields mean size) as (t1 & E1 & _); [lia|].
  destruct (total_yields vari size) as (t2 & E2 & _); [lia|].
  rewrite E1, E2, !bind_Ok in E.
  exists ((nZ target - t1) / t2)%num, t1.
  unfold set_duration_with. rewrite Hf, Ht, bind_Ok. zbool.
  by rewrite E1, E2, !bind_Ok, E, bind_Ok.
Qed.

Lemma first_estimate_adjusting first duration mean vari size target l sum t :
  0 <= size -> zlen duration = size -> sum < 2 ^ 31 - 1 ->
  first_estimate duration mean vari size target = Ok (l, sum) ->
  sum = zsum l /\ adjusting first size (take (Z.to_nat first) l) (l, zsum l, t).
Proof.
  intros Hs Hd Hsum E. unfold first_estimate in E. apply bind_inv_Ok in E as (rho & _ & E).
  apply estimates_estimated in E; [|done..].
  apply estimated_distributed in E as [D <-]; [|done].
  split; [done|]. split; [exact D|]. done.
Qed.

Lemma take_1_lookup {A} (l k : list A) : take 1 l = take 1 k -> l !! O = k !! O.
Proof. by destruct l, k; intros [=]; subst. Qed.

Lemma zsum_take_1 l d : l !! O = Some d -> zsum (take 1 l) = d.
Proof. destruct l; intros [= ->]. simpl. lia. Qed.

(** C8: mHTS_set_duration with a target of more than [size] frames, on every
    first estimate: it returns durations of at least one frame that add up to
    the target, and state 0 keeps its first estimate, exactly when that
    estimate is not above the target or the target leaves room for state 0 as
    estimated; in the other case it writes out of the array. *)
Theorem mage_meets_target duration mean vari size frame_length target l sum d0 :
  2 <= size -> zlen duration = size -> zlen mean = size -> zlen vari = size ->
  (frame_length =? nZ 0)%num = false ->
  to_int (frame_length + ndec 5 (-1))%num = Ok target ->
  size < target < 2 ^ 31 - 1 ->
  first_estimate duration mean vari size target = Ok (l, sum) ->
  sum < 2 ^ 31 - 1 -> l !! O = Some d0 ->
  if (sum <=? target) || (d0 + (size - 1) <=? target)
  then yields (mHTS_set_duration duration mean vari size frame_length)
         (fun '(l', r) => distributed size l' /\ zsum l' = target /\
            l' !! O = Some d0 /\ r = nZ target)
  else mHTS_set_duration duration mean vari size frame_length = Undef OutOfBounds.
Proof.
  intros Hs Hd Hm Hv Hf Ht Hlt E Hsum H0.
  destruct (set_duration_with_eq abs_double 1 (fun temp1 temp2 => temp1 <? temp2)%num
              duration mean vari size frame_length target l sum)
    as (rho & t & Eq); [lia|done|done|done|done|lia|done|].
  destruct (first_estimate_adjusting 1 duration mean vari size target l sum t)
    as [-> A]; [lia|done|done|done|].
  pose proof (zsum_take_1 _ _ H0) as Z1. unfold mHTS_set_duration. rewrite Eq.
  destruct (_ || _) eqn:C.
  - rewrite orb_true_iff, !Z.leb_le in C. eapply yields_bind.
    + apply yields_may. apply (adjust_meets (fun _ => False)) with (pre := take 1 l);
        try done; lia.
    + intros l' (D & S & T). apply yields_ok. split; [done|]. split; [done|].
      split; [|done]. rewrite <-H0. by apply take_1_lookup.
  - rewrite orb_false_iff, !Z.leb_gt in C.
    pose proof (adjust_overruns (eq OutOfBounds) abs_double 1
      (fun temp1 temp2 => temp1 <? temp2)%num rho mean vari size target) as O.
    specialize (O (fun _ => I) Hm Hv ltac:(lia) _ (Z.to_nat (Z.abs (target - zsum l))) l t
                  eq_refl A ltac:(lia) (le_n _)).
    change (Z.to_nat 1) with 1%nat in O. rewrite Z1 in O. specialize (O ltac:(lia)).
    destruct (adjust _ _ _ _ _ _ _ _ _ _) as [|f| |]; try done. simpl in O. by subst f.
Qed.

(** The routine MAGE copied: from state 0, hts_engine's loop meets the
    target on every first estimate, or has undefined behaviour in the
    conversions of [abs]; it never writes out of the array. *)
Theorem upstream_meets_target duration mean vari size frame_length target l sum :
  1 <= size -> zlen duration = size -> zlen mean = size -> zlen vari = size ->
  (frame_length =? nZ 0)%num = false ->
  to_int (frame_length + ndec 5 (-1))%num = Ok target ->
  size < target < 2 ^ 31 - 1 ->
  first_estimate duration mean vari size target = Ok (l, sum) ->
  sum < 2 ^ 31 - 1 ->
  may (fun f => f = BadConversion \/ f = IntOverflow)
    (HTS_set_duration duration mean vari size frame_length)
    (fun '(l', r) => distributed size l' /\ zsum l' = target /\ r = nZ target).
Proof.
  intros Hs Hd Hm Hv Hf Ht Hlt E Hsum.
  destruct (set_duration_with_eq abs_int 0 (fun temp1 temp2 => temp2 <? temp1)%num
              duration mean vari size frame_length target l sum)
    as (rho & t & Eq); [lia|done|done|done|done|lia|done|].
  destruct (first_estimate_adjusting 0 duration mean vari size target l sum t)
    as [-> A]; [lia|done|done|done|].
  unfold HTS_set_duration. rewrite Eq. eapply may_bind.
  - apply adjust_meets with (pre := take 0 l); try done; try lia.
    + intros x. unfold abs_int, to_int, i32, check.
      destruct (ntrunc x); simpl; [|auto]. destruct (in_i32 z); simpl; [|auto].
      destruct (in_i32 (Z.abs z)); simpl; auto.
    + right. simpl. lia.
  - intros l' (D & S & _). done.
Qed.

Lemma zsum_take_le l (n : nat) : Forall (fun d => 1 <= d) l -> zsum (take n l) <= zsum l.
Proof.
  intros A. rewrite <-(take_drop n l) at 2. rewrite zsum_app.
  pose proof (zsum_lower _ (Forall_drop _ n _ A)). pose proof (zlen_nonneg (drop n l)). lia.
Qed.

(** the frames of the means: rounded, and at least one *)
Definition rounded (mean : list F) (size : Z) (ds : list Z) : Prop :=
  zlen ds = size /\ forall i : nat, Z.of_nat i < size -> exists m d, mean !! i = Some m /\
    to_int (m + ndec 5 (-1))%num = Ok d /\ ds !! i = Some (Z.max 1 d).

Lemma rounded_pos mean size ds : rounded mean size ds -> Forall (fun d => 1 <= d) ds.
Proof.
  intros [L A]. apply Forall_lookup_2. intros i d E. pose proof (lookup_lt_Some _ _ _ E).
  destruct (A i) as (m & z & _ & _ & Ez); [unfold zlen in L; lia|].
  rewrite E in Ez. injection Ez as ->. lia.
Qed.

Lemma set_duration_means duration mean vari size frame_length ds :
  0 <= size -> zlen duration = size -> (frame_length =? nZ 0)%num = true ->
  rounded mean size ds -> zsum ds < 2 ^ 31 ->
  mHTS_set_duration duration mean vari size frame_length = Ok (ds, nZ (zsum ds)).
Proof.
  intros Hs Hd Hf R Hsum. pose proof (rounded_pos _ _ _ R) as P. destruct R as [L A].
  unfold mHTS_set_duration, set_duration_with. rewrite Hf.
  destruct (for_up_yields (fun i st => zlen st.1 = size /\ st.2 = zsum (take (Z.to_nat i) ds) /\
      take (Z.to_nat i) st.1 = take (Z.to_nat i) ds) 0 size
    (fun i st => xi ← rd mean i; estimate xi i st) (duration, 0)) as ([l sum] & E & R).
  - done.
  - done.
  - intros i [l sum] Hi R. cbn [fst snd] in R. destruct R as (Ll & -> & El).
    destruct (A (Z.to_nat i)) as (m & d & Em & Ed & Ei); [lia|].
    rewrite (rd_ok _ _ m), bind_Ok by (done || lia). unfold estimate. rewrite Ed, bind_Ok.
    replace (if d <? 1 then 1 else d) with (Z.max 1 d) by (case Z.ltb_spec; lia).
    rewrite wr_ok, bind_Ok by lia.
    assert (Es : zsum (take (Z.to_nat i) ds) + Z.max 1 d = zsum (take (S (Z.to_nat i)) ds))
      by (rewrite (take_S_r _ _ _ Ei), zsum_app; cbn [zsum foldr]; lia).
    pose proof (zsum_take_le ds (S (Z.to_nat i)) P).
    pose proof (zsum_lower _ (Forall_take _ (S (Z.to_nat i)) _ P)).
    pose proof (zlen_nonneg (take (S (Z.to_nat i)) ds)).
    rewrite Es, i32_ok, bind_Ok by lia. apply yields_ok. cbn [fst snd].
    replace (Z.to_nat (i + 1)) with (S (Z.to_nat i)) by lia.
    split; [by rewrite zlen_insert|]. split; [done|].
    rewrite (take_S_r _ _ _ Ei), (take_S_r _ _ (Z.max 1 d)), take_insert_ge, El; [done|lia|].
    apply list_lookup_insert_eq. unfold zlen in Ll. lia.
  - unfold estimates. rewrite E, bind_Ok. cbn [fst snd] in R. destruct R as (Ll & -> & El).
    rewrite !take_ge in El by (unfold zlen in *; lia). subst l.
    by rewrite take_ge by (unfold zlen in *; lia).
Qed.

(** Without a target length every state lasts its rounded mean, and at
    least one frame, and the result is the sum; the routine returns exactly when
    the rounded means and their sum are values of [int]. *)
Theorem mean_durations duration mean vari size frame_length l r :
  0 <= size -> zlen duration = size -> (frame_length =? nZ 0)%num = true ->
  mHTS_set_duration duration mean vari size frame_length = Ok (l, r) <->
  rounded mean size l /\ zsum l < 2 ^ 31 /\ r = nZ (zsum l).
Proof.
  intros Hs Hd Hf. split; [|intros (R & Hsum & ->); by apply set_duration_means].
  unfold mHTS_set_duration, set_duration_with. rewrite Hf. intros E.
  apply bind_inv_Ok in E as ([k s] & E & [= <- <-]).
  apply estimates_estimated in E; [|done..].
  pose proof (estimated_distributed _ _ _ _ Hs E) as [[L _] <-].
  destruct E as (_ & _ & B & A). split; [|split; [lia|done]]. split; [done|].
  intros i Hi. destruct (A i Hi) as (m & d & Em & Ed & El). exists m, d.
  apply rd_inv in Em as [_ Em]. by rewrite Nat2Z.id in Em.
Qed.

End Duration.

(** ** Concrete runs *)

Section Runs.
#[local] Existing Instance no_libm.

Definition ex_mean : list double := [nZ 100; nZ 1].
Definition ex_vari : list double := [ndec 1 (-2); nZ 25].

(** state 0 is rigid and longer than the target: MAGE writes [duration[-1]],
    hts_engine shortens state 0 *)
Example rigid_mage : mHTS_set_duration [0; 0] ex_mean ex_vari 2 (nZ 10) = Undef OutOfBounds.
Proof. vm_compute. reflexivity. Qed.
Example rigid_upstream : fst <$> HTS_set_duration [0; 0] ex_mean ex_vari 2 (nZ 10) = Ok [9; 1].
Proof. vm_compute. reflexivity. Qed.
Example roomy_mage : fst <$> mHTS_set_duration [0; 0] ex_mean ex_vari 2 (nZ 120) = Ok [100; 20].
Proof. vm_compute. reflexivity. Qed.

Lemma mage_meets_target_witness :
  mHTS_set_duration [0; 0] ex_mean ex_vari 2 (nZ 10) = Undef OutOfBounds /\
  yields (mHTS_set_duration [0; 0] ex_mean ex_vari 2 (nZ 104))
    (fun '(l', r) => distributed 2 l' /\ zsum l' = 104 /\ l' !! O = Some 100 /\ r = nZ 104).
Proof.
  split.
  - refine (mage_meets_target (F:=double) [0; 0] ex_mean ex_vari 2 (nZ 10) 10 [100; 1] 101 100
      _ _ _ _ _ _ _ _ _ _); by_run.
  - refine (mage_meets_target (F:=double) [0; 0] ex_mean ex_vari 2 (nZ 104) 104 [100; 4] 104 100
      _ _ _ _ _ _ _ _ _ _); by_run.
Defined.

Lemma upstream_meets_target_witness :
  may (fun f => f = BadConversion \/ f = IntOverflow)
    (HTS_set_duration [0; 0] ex_mean ex_vari 2 (nZ 10))
    (fun '(l', r) => distributed 2 l' /\ zsum l' = 10 /\ r = nZ 10).
Proof.
  refine (upstream_meets_target (F:=double) [0; 0] ex_mean ex_vari 2 (nZ 10) 10 [100; 1] 101
    _ _ _ _ _ _ _ _ _); by_run.
Defined.

Lemma mean_durations_witness :
  mHTS_set_duration [0; 0] ex_mean ex_vari 2 (nZ 0) = Ok ([100; 1], nZ 101) <->
  rounded ex_mean 2 [100; 1] /\ zsum [100; 1] < 2 ^ 31 /\ nZ 101 = nZ (zsum [100; 1]).
Proof.
  refine (mean_durations (F:=double) [0; 0] ex_mean ex_vari 2 (nZ 0) [100; 1] (nZ 101)
    _ _ _); by_run.
Defined.
End Runs.
End Duration.
