(* ===== verification/Filters.v ===== *)
(** * The SPTK filters of the vocoder (mage/src/Vocoder.cpp, 410-573)

    All the arrays of the vocoder live in one allocation [mem]: the functions
    take it with the positions of their pointer arguments in it, and every
    access is checked against its length. *)

From Stdlib Require Import Field Qcanon.
From S2P Require Import Prelude Num Constants.
#[local] Open Scope Z_scope.

Module Filters.

(** ** Footprints *)

(** [mem'] is [mem] but for the positions [lo], ..., [hi - 1] *)
Definition footprint {A} (lo hi : Z) (mem mem' : list A) : Prop :=
  zlen mem' = zlen mem /\
  forall k : nat, ~ lo <= Z.of_nat k < hi -> mem' !! k = mem !! k.

#[global] Instance footprint_preorder {A} lo hi : PreOrder (@footprint A lo hi).
Proof.
  split; [by intros mem|]. intros m1 m2 m3 [L1 E1] [L2 E2].
  split; [congruence|]. intros k Hk. by rewrite E2, E1.
Qed.

Lemma footprint_len {A} lo hi (mem mem' : list A) :
  footprint lo hi mem mem' -> zlen mem' = zlen mem.
Proof. by intros []. Qed.

Lemma footprint_weaken {A} lo hi lo' hi' (mem mem' : list A) :
  lo' <= lo -> hi <= hi' -> footprint lo hi mem mem' -> footprint lo' hi' mem mem'.
Proof. intros ?? [L E]. split; [done|]. intros k Hk. apply E. lia. Qed.

Lemma footprint_wr {A} lo hi (m0 mem : list A) i x :
  footprint lo hi m0 mem -> lo <= i < hi -> 0 <= i < zlen m0 ->
  yields (wr mem i x) (footprint lo hi m0).
Proof.
  intros [L E] Hi Hl. rewrite wr_ok by lia. apply yields_ok.
  split; [by rewrite zlen_insert|]. intros k Hk.
  rewrite list_lookup_insert_ne by lia. by apply E.
Qed.

Lemma footprint_rd {A} lo hi (m0 mem : list A) i :
  footprint lo hi m0 mem -> 0 <= i < zlen m0 -> yields (rd mem i) (fun _ => True).
Proof.
  intros [L _] Hi. eapply yields_mono; [apply yields_rd; lia|done].
Qed.

(** run through a body whose reads and writes lie in the allocation *)
Ltac foot_step :=
  match goal with
  | |- yields (rd _ _ ≫= _) _ =>
      eapply yields_bind; [eapply footprint_rd; [eassumption|nia]|intros ? _]
  | |- yields (wr _ _ _ ≫= _) _ =>
      eapply yields_bind; [eapply footprint_wr; [eassumption|nia|nia]|intros ? ?]
  | |- yields (wr _ _ _) _ => eapply footprint_wr; [eassumption|nia|nia]
  | |- yields (Ok _) _ => apply yields_ok
  end.
Ltac foot := cbn beta zeta; repeat foot_step; try assumption.

Section Filters.
Context {F : Type} `{NumOps F}.
#[local] Open Scope num_scope.
#[local] Open Scope Z_scope.

(** ** Definitions *)

(** [movem( &mem[a], &mem[b], size, nitem )]: the copy is upward when the source
    is above the destination, downward otherwise; it moves whole elements *)
Definition movem {A} (mem : list A) (a b nitem : Z) : Res (list A) :=
  let move i mem := v ← rd mem (a + i); wr mem (b + i) v in
  if b <? a then for_up 0 nitem move mem
  else for_down (nitem - 1) 0 move mem.

(** [mc2b( mc, &mem[b], m, a )] *)
Definition mc2b (mc : list F) (mem : list F) (b m : Z) (a : F) : Res (list F) :=
  x ← rd mc m;
  mem ← wr mem (b + m) x;
  for_down (m - 1) 0 (fun k mem =>
    x ← rd mc k;
    y ← rd mem (b + (k + 1));
    wr mem (b + k) (x - a * y)%num) mem.

(** [gnorm( &mem[c1], &mem[c2], m, g )] *)
Definition gnorm (mem : list F) (c1 c2 m : Z) (g : F) : Res (list F) :=
  if negb (g =? nZ 0)%num then
    x ← rd mem c1;
    let k := (nZ 1 + g * x)%num in
    mem ← for_down m 1 (fun m mem =>
      x ← rd mem (c1 + m); wr mem (c2 + m) (x / k)%num) mem;
    wr mem c2 (npow k (nZ 1 / g)%num)
  else
    mem ← movem mem (c1 + 1) (c2 + 1) m;
    x ← rd mem c1;
    wr mem c2 (nexp x).

(** [mglsadff( x, &mem[b], m, a, &mem[d] )] *)
Definition mglsadff (x : F) (b m : Z) (a : F) (d : Z) (mem : list F)
    : Res (F * list F) :=
  let aa := (nZ 1 - a * a)%num in
  d0 ← rd mem d;
  b1 ← rd mem (b + 1);
  '(y, mem) ← for_up 1 m (fun i '(y, mem) =>
    di ← rd mem (d + i);
    dn ← rd mem (d + (i + 1));
    dp ← rd mem (d + (i - 1));
    mem ← wr mem (d + i) (di + a * (dn - dp))%num;
    di ← rd mem (d + i);
    bn ← rd mem (b + (i + 1));
    Ok ((y + di * bn)%num, mem)) ((d0 * b1)%num, mem);
  let x := (x - y)%num in
  mem ← for_down m 1 (fun i mem =>
    dp ← rd mem (d + (i - 1)); wr mem (d + i) dp) mem;
  d0 ← rd mem d;
  mem ← wr mem d (a * d0 + aa * x)%num;
  Ok (x, mem).

(** [mglsadf( x, &mem[b], m, a, n, &mem[d] )] *)
Definition mglsadf (x : F) (b m : Z) (a : F) (n d : Z) (mem : list F)
    : Res (F * list F) :=
  for_up 0 n (fun i '(x, mem) => mglsadff x b m a (d + i * (m + 1)) mem) (x, mem).

(** [mlsafir( x, &mem[b], m, a, &mem[d] )] *)
Definition mlsafir (x : F) (b m : Z) (a : F) (d : Z) (mem : list F)
    : Res (F * list F) :=
  let aa := (nZ 1 - a * a)%num in
  mem ← wr mem d x;
  d0 ← rd mem d;
  d1 ← rd mem (d + 1);
  mem ← wr mem (d + 1) (aa * d0 + a * d1)%num;
  '(y, mem) ← for_up 2 (m + 1) (fun i '(y, mem) =>
    di ← rd mem (d + i);
    dn ← rd mem (d + (i + 1));
    dp ← rd mem (d + (i - 1));
    mem ← wr mem (d + i) (di + a * (dn - dp))%num;
    di ← rd mem (d + i);
    bi ← rd mem (b + i);
    Ok ((y + di * bi)%num, mem)) (nZ 0, mem);
  mem ← for_down (m + 1) 2 (fun i mem =>
    dp ← rd mem (d + (i - 1)); wr mem (d + i) dp) mem;
  Ok (y, mem).

(** [( 1 & i ) ? v : -v] *)
Definition alternate (i : Z) (v : F) : F := if Z.odd i then v else (- v)%num.

(** [mlsadf1( x, &mem[b], m, a, pd, &mem[d] )]; [pade] is [padesptk] and [pp]
    the index [ppadesptk] points to *)
Definition mlsadf1 (pade : list F) (pp : Z) (x : F) (b : Z) (a : F) (pd d : Z) (mem : list F)
    : Res (F * list F) :=
  let aa := (nZ 1 - a * a)%num in
  let pt := d + (pd + 1) in
  '(x, out, mem) ← for_down pd 1 (fun i '(x, out, mem) =>
    p ← rd mem (pt + (i - 1));
    di ← rd mem (d + i);
    mem ← wr mem (d + i) (aa * p + a * di)%num;
    di ← rd mem (d + i);
    b1 ← rd mem (b + 1);
    mem ← wr mem (pt + i) (di * b1)%num;
    p ← rd mem (pt + i);
    c ← rd pade (pp + i);
    let v := (p * c)%num in
    Ok ((x + alternate i v)%num, (out + v)%num, mem)) (x, nZ 0, mem);
  mem ← wr mem pt x;
  Ok ((out + x)%num, mem).

(** [mlsadf2( x, &mem[b], m, a, pd, &mem[d] )] *)
Definition mlsadf2 (pade : list F) (pp : Z) (x : F) (b m : Z) (a : F) (pd d : Z) (mem : list F)
    : Res (F * list F) :=
  let pt := d + pd * (m + 2) in
  '(x, out, mem) ← for_down pd 1 (fun i '(x, out, mem) =>
    p ← rd mem (pt + (i - 1));
    '(p, mem) ← mlsafir p b m a (d + (i - 1) * (m + 2)) mem;
    mem ← wr mem (pt + i) p;
    p ← rd mem (pt + i);
    c ← rd pade (pp + i);
    let v := (p * c)%num in
    Ok ((x + alternate i v)%num, (out + v)%num, mem)) (x, nZ 0, mem);
  mem ← wr mem pt x;
  Ok ((out + x)%num, mem).

(** [ppadesptk = &padesptk[pd * ( pd + 1 ) / 2]] *)
Definition pade_row (pd : Z) : Z := Z.quot (pd * (pd + 1)) 2.

(** [mlsadf( x, &mem[b], m, a, pd, &mem[d] )] *)
Definition mlsadf (pade : list F) (x : F) (b m : Z) (a : F) (pd d : Z) (mem : list F)
    : Res (F * list F) :=
  let pp := pade_row pd in
  '(x, mem) ← mlsadf1 pade pp x b a pd d mem;
  mlsadf2 pade pp x b m a pd (d + 2 * (pd + 1)) mem.

(** ** Bounds *)

(** the shift of a delay line *)
Lemma shift_foot (mem0 mem : list F) d hi lo' hi' :
  footprint lo' hi' mem0 mem -> lo' <= d + 1 -> 0 <= d -> d + hi < hi' -> d + hi < zlen mem0 ->
  forall lo, 1 <= lo <= hi + 1 ->
  yields (for_down hi lo (fun i mem => dp ← rd mem (d + (i - 1)); wr mem (d + i) dp) mem)
    (footprint lo' hi' mem0).
Proof.
  intros Hf ???? lo ?. eapply (for_down_yields (fun _ => footprint lo' hi' mem0)); [lia|done|].
  intros i mem' Hi Hm. foot.
Qed.

Section Bounds.
Context (mem0 : list F) (b m : Z) (a : F) (lo hi : Z).
Hypothesis Hb : 0 <= b /\ b + m < zlen mem0.
Hypothesis Hlo : 0 <= lo /\ hi <= zlen mem0.

Lemma mlsafir_foot x d mem :
  1 <= m -> lo <= d -> d + m + 2 <= hi -> footprint lo hi mem0 mem ->
  yields (mlsafir x b m a d mem) (fun r => footprint lo hi mem0 r.2).
Proof.
  intros Hm Hd Hh Hf. unfold mlsafir. foot.
  eapply yields_bind.
  { apply (for_up_yields (fun _ r => footprint lo hi mem0 r.2)); [lia|done|].
    intros i [y mem2] Hi Hm2. cbn [snd] in Hm2. foot. }
  intros [y mem2] Hm2. cbn [snd] in Hm2.
  eapply yields_bind; [eapply shift_foot; [done|lia..]|].
  intros mem3 Hm3. foot.
Qed.

Lemma mlsadf1_foot pade pp x pd d mem :
  1 <= m -> 0 <= pd -> 0 <= pp -> pp + pd < zlen pade ->
  lo <= d -> d + 2 * (pd + 1) <= hi -> footprint lo hi mem0 mem ->
  yields (mlsadf1 pade pp x b a pd d mem) (fun r => footprint lo hi mem0 r.2).
Proof.
  intros Hm Hp Hpp Hpd Hd Hh Hf. unfold mlsadf1. cbn zeta. eapply yields_bind.
  { apply (for_down_yields (fun _ r => footprint lo hi mem0 r.2)); [lia|done|].
    intros i [[y out] mem2] Hi Hm2. cbn [snd] in Hm2. foot.
    eapply yields_bind; [apply yields_rd; lia|]. intros. by foot. }
  intros [[y out] mem2] Hm2. cbn [snd] in Hm2. foot.
Qed.

Lemma mlsadf2_foot pade pp x pd d mem :
  1 <= m -> 0 <= pd -> 0 <= pp -> pp + pd < zlen pade ->
  lo <= d -> d + pd * (m + 2) + pd + 1 <= hi -> footprint lo hi mem0 mem ->
  yields (mlsadf2 pade pp x b m a pd d mem) (fun r => footprint lo hi mem0 r.2).
Proof.
  intros Hm Hp Hpp Hpd Hd Hh Hf. unfold mlsadf2. cbn zeta. eapply yields_bind.
  { apply (for_down_yields (fun _ r => footprint lo hi mem0 r.2)); [lia|done|].
    intros i [[y out] mem2] Hi Hm2. cbn [snd] in Hm2. foot.
    eapply yields_bind; [apply mlsafir_foot; [nia..|done]|].
    intros [p mem3] Hm3. cbn [snd] in Hm3. foot.
    eapply yields_bind; [apply yields_rd; lia|]. intros. by foot. }
  intros [[y out] mem2] Hm2. cbn [snd] in Hm2. foot.
Qed.

(** the size of the work area of the MLSA filter *)
Definition mlsadf_size (pd : Z) : Z := 3 * (pd + 1) + pd * (m + 2).

Lemma mlsadf_foot pade x pd d mem :
  1 <= m -> 0 <= pd -> pade_row pd + pd < zlen pade ->
  lo <= d -> d + mlsadf_size pd <= hi -> footprint lo hi mem0 mem ->
  yields (mlsadf pade x b m a pd d mem) (fun r => footprint lo hi mem0 r.2).
Proof.
  intros Hm Hp Hpd Hd Hh Hf. unfold mlsadf, mlsadf_size in *. cbn zeta.
  assert (0 <= pade_row pd) by (unfold pade_row; apply Z.quot_pos; nia).
  eapply yields_bind; [apply mlsadf1_foot; [nia..|done]|].
  intros [y mem2] Hm2. apply mlsadf2_foot; [nia..|done].
Qed.

Lemma mglsadff_foot x d mem :
  1 <= m -> lo <= d -> d + m + 1 <= hi -> footprint lo hi mem0 mem ->
  yields (mglsadff x b m a d mem) (fun r => footprint lo hi mem0 r.2).
Proof.
  intros Hm Hd Hh Hf. unfold mglsadff. foot.
  eapply yields_bind.
  { apply (for_up_yields (fun _ r => footprint lo hi mem0 r.2)); [lia|done|].
    intros i [y mem2] Hi Hm2. cbn [snd] in Hm2. foot. }
  intros [y mem2] Hm2. cbn [snd] in Hm2.
  eapply yields_bind; [eapply shift_foot; [done|lia..]|].
  intros mem3 Hm3. foot.
Qed.

Lemma mglsadf_foot x n d mem :
  1 <= m -> 0 <= n -> lo <= d -> d + n * (m + 1) <= hi -> footprint lo hi mem0 mem ->
  yields (mglsadf x b m a n d mem) (fun r => footprint lo hi mem0 r.2).
Proof.
  intros Hm Hn Hd Hh Hf. unfold mglsadf.
  apply (for_up_yields (fun _ r => footprint lo hi mem0 r.2)); [lia|done|].
  intros i [y mem2] Hi Hm2. apply mglsadff_foot; [nia..|done].
Qed.
End Bounds.

(** ** Functional behaviour *)

(** the elements copied so far by [movem], upward and downward *)
Definition moved {A} (mem0 : list A) (a b lo hi : Z) (mem : list A) : Prop :=
  zlen mem = zlen mem0 /\
  forall k : nat, mem !! k =
    if bool_decide (b + lo <= Z.of_nat k < b + hi)
    then mem0 !! Z.to_nat (a + (Z.of_nat k - b)) else mem0 !! k.

Lemma moved_step {A} (mem0 mem : list A) a b lo hi lo' hi' i :
  moved mem0 a b lo hi mem -> 0 <= a + i < zlen mem0 -> 0 <= b + i < zlen mem0 ->
  (i = hi /\ lo' = lo /\ hi' = hi + 1 \/ i = lo - 1 /\ lo' = lo - 1 /\ hi' = hi) ->
  lo <= hi -> ~ b + lo <= a + i < b + hi ->
  yields (v ← rd mem (a + i); wr mem (b + i) v) (moved mem0 a b lo' hi').
Proof.
  intros [L M] Ha Hb Hi Hlh Hs. eapply yields_bind; [apply yields_rd; lia|].
  intros v Hv. rewrite wr_ok by lia. apply yields_ok. split; [by rewrite zlen_insert|].
  intros k. rewrite M, bool_decide_eq_false_2 in Hv by lia.
  destruct (decide (Z.of_nat k = b + i)) as [E|].
  - replace (Z.to_nat (b + i)) with k by lia.
    rewrite list_lookup_insert_eq by (unfold zlen in *; lia).
    rewrite bool_decide_eq_true_2 by lia. rewrite <-Hv. f_equal. lia.
  - rewrite list_lookup_insert_ne, M by lia. repeat case_bool_decide; done || lia.
Qed.

Lemma movem_moved {A} (mem : list A) a b n :
  0 <= n -> 0 <= a -> 0 <= b -> a + n <= zlen mem -> b + n <= zlen mem ->
  yields (movem mem a b n) (moved mem a b 0 n).
Proof.
  intros Hn Ha Hb Hla Hlb. unfold movem. case Z.ltb_spec; intros Hc.
  - apply (for_up_yields (fun i => moved mem a b 0 i)); [lia| |].
    + split; [done|]. intros k. by rewrite bool_decide_eq_false_2 by lia.
    + intros i mem1 Hi M. eapply moved_step; [done|lia..].
  - eapply yields_mono; [apply (for_down_yields (fun i => moved mem a b (i + 1) n))|done].
    + lia.
    + split; [done|]. intros k. by rewrite bool_decide_eq_false_2 by lia.
    + intros i mem1 Hi M. replace (i - 1 + 1) with i by lia.
      eapply moved_step; [done|lia..].
Qed.

(** movem copies as memmove does: every element of the destination is the
    source element as it was before the call, also when the two overlap. *)
Theorem movem_memmove {A} (mem : list A) a b n :
  0 <= n -> 0 <= a -> 0 <= b -> a + n <= zlen mem -> b + n <= zlen mem ->
  yields (movem mem a b n) (fun mem' => zlen mem' = zlen mem /\ forall k : nat,
    mem' !! k = if bool_decide (b <= Z.of_nat k < b + n)
                then mem !! Z.to_nat (a + (Z.of_nat k - b)) else mem !! k).
Proof.
  intros. eapply yields_mono; [by apply movem_moved|].
  intros mem' [L M]. split; [done|]. intros k. by rewrite M, Z.add_0_r.
Qed.

Lemma moved_foot {A} (mem0 mem mem' : list A) a b n lo hi :
  moved mem a b 0 n mem' -> footprint lo hi mem0 mem -> lo <= b -> b + n <= hi ->
  footprint lo hi mem0 mem'.
Proof.
  intros [L M] Hf ??. transitivity mem; [done|]. split; [done|].
  intros k Hk. by rewrite M, bool_decide_eq_false_2 by lia.
Qed.

(** the coefficients [b] of a filter given by its mel-cepstrum [mc] *)
Definition is_b_of (mc : list F) (m : Z) (a : F) (get : nat -> option F) : Prop :=
  get (Z.to_nat m) = mc !! Z.to_nat m /\
  forall k : nat, Z.of_nat k < m -> exists x y, mc !! k = Some x /\ get (S k) = Some y /\
    get k = Some (x - a * y)%num.

Lemma mc2b_spec mc mem b m (a : F) :
  0 <= m < zlen mc -> 0 <= b -> b + m < zlen mem ->
  yields (mc2b mc mem b m a) (fun mem' => footprint b (b + m + 1) mem mem' /\
    is_b_of mc m a (fun k => mem' !! (Z.to_nat b + k)%nat)).
Proof.
  intros Hm Hb Hl. unfold mc2b.
  eapply yields_bind; [apply yields_rd; lia|]. intros xm Exm.
  eapply yields_bind_eq; [apply wr_ok; lia|].
  pose (Inv := fun (i : Z) mem' => footprint b (b + m + 1) mem mem' /\
    mem' !! (Z.to_nat b + Z.to_nat m)%nat = mc !! Z.to_nat m /\
    forall k : nat, i < Z.of_nat k < m -> exists x y, mc !! k = Some x /\
      mem' !! (Z.to_nat b + S k)%nat = Some y /\
      mem' !! (Z.to_nat b + k)%nat = Some (x - a * y)%num).
  eapply yields_mono; [apply (for_down_yields Inv)|].
  - lia.
  - split; [|split].
    + split; [by rewrite zlen_insert|]. intros k Hk.
      by rewrite list_lookup_insert_ne by lia.
    + replace (Z.to_nat (b + m)) with (Z.to_nat b + Z.to_nat m)%nat by lia.
      by rewrite list_lookup_insert_eq by (unfold zlen in *; lia).
    + intros k Hk. lia.
  - intros i mem1 Hi (Hf & Hm1 & Hk). pose proof (footprint_len _ _ _ _ Hf).
    eapply yields_bind; [apply yields_rd; lia|]. intros x Ex.
    eapply yields_bind; [apply yields_rd; lia|]. intros y Ey.
    rewrite wr_ok by lia. apply yields_ok. split; [|split].
    + transitivity mem1; [done|]. split; [by rewrite zlen_insert|]. intros k Hk'.
      by rewrite list_lookup_insert_ne by lia.
    + by rewrite list_lookup_insert_ne by lia.
    + intros k Hk'. destruct (decide (Z.of_nat k = i)) as [E|].
      * exists x, y. replace k with (Z.to_nat i) by lia. split; [done|]. split.
        -- rewrite list_lookup_insert_ne by lia. rewrite <-Ey. f_equal. lia.
        -- replace (Z.to_nat b + Z.to_nat i)%nat with (Z.to_nat (b + i)) by lia.
           by rewrite list_lookup_insert_eq by (unfold zlen in *; lia).
      * rewrite !list_lookup_insert_ne by lia. apply Hk. lia.
  - intros mem' (Hf & Hm' & Hk). split; [done|]. split; [done|].
    intros k Hk'. apply Hk. lia.
Qed.

Lemma gnorm_foot mem0 mem p m (g : F) lo hi :
  1 <= m -> 0 <= p -> p + m < zlen mem0 -> lo <= p -> p + m < hi ->
  footprint lo hi mem0 mem -> yields (gnorm mem p p m g) (footprint lo hi mem0).
Proof.
  intros Hm Hp Hl Hlo Hhi Hf. unfold gnorm. destruct (negb _).
  - foot. eapply yields_bind.
    { apply (for_down_yields (fun _ => footprint lo hi mem0)); [lia|done|].
      intros i mem1 Hi Hm1. foot. }
    intros mem1 Hm1. cbn beta in Hm1. foot.
  - pose proof (footprint_len _ _ _ _ Hf). eapply yields_bind; [apply movem_moved; lia|].
    intros mem1 M. pose proof (moved_foot _ _ _ _ _ _ _ _ M Hf ltac:(lia) ltac:(lia)).
    foot.
Qed.

(** the element [k] places after [d], as a number *)
Definition at_ (mem : list F) (d : Z) (k : nat) : F :=
  default (nZ 0) (mem !! (Z.to_nat d + k)%nat).

Lemma at_lookup mem d (k : nat) v : mem !! (Z.to_nat d + k)%nat = Some v -> at_ mem d k = v.
Proof. unfold at_. by intros ->. Qed.

Lemma rd_at mem d (k : nat) :
  0 <= d -> d + Z.of_nat k < zlen mem -> rd mem (d + Z.of_nat k) = Ok (at_ mem d k).
Proof.
  intros Hd Hk. destruct (yields_rd mem (d + Z.of_nat k)) as (v & E & Hv); [lia|].
  rewrite E. f_equal. symmetry. apply at_lookup. rewrite <-Hv. f_equal. lia.
Qed.

Lemma at_insert mem d (k : nat) v i :
  0 <= d -> 0 <= i < zlen mem ->
  at_ (<[Z.to_nat i := v]> mem) d k = if bool_decide (d + Z.of_nat k = i) then v else at_ mem d k.
Proof.
  intros Hd Hi. unfold at_. case_bool_decide.
  - replace (Z.to_nat d + k)%nat with (Z.to_nat i) by lia.
    by rewrite list_lookup_insert_eq by (unfold zlen in *; lia).
  - by rewrite list_lookup_insert_ne by lia.
Qed.

Lemma footprint_at lo hi mem mem' d (k : nat) :
  footprint lo hi mem mem' -> 0 <= d -> ~ lo <= d + Z.of_nat k < hi ->
  at_ mem' d k = at_ mem d k.
Proof. intros [_ E] Hd Hk. unfold at_. by rewrite E by lia. Qed.

(** the signal along the all-pass chain of one MLSA stage fed with [x], whose
    delay line holds [line] *)
Fixpoint chain (x : F) (line : nat -> F) (a : F) (i : nat) : F :=
  match i with
  | O => x
  | S j =>
      match j with
      | O => ((nZ 1 - a * a) * x + a * line 1%nat)%num
      | S _ => (line (S j) + a * (line (S (S j)) - chain x line a j))%num
      end
  end.

(** the weighted sum of the taps 2, ..., [n + 1] *)
Fixpoint taps (e c : nat -> F) (n : nat) : F :=
  match n with
  | O => nZ 0
  | S n => (taps e c n + e (S (S n)) * c (S (S n)))%num
  end.

Lemma shift_line mem0 mem d n :
  footprint d (d + n + 1) mem0 mem -> 0 <= d -> d + n < zlen mem0 -> forall lo, 1 <= lo <= n + 1 ->
  yields (for_down n lo (fun i mem => dp ← rd mem (d + (i - 1)); wr mem (d + i) dp) mem)
    (fun mem' => footprint d (d + n + 1) mem0 mem' /\ forall k : nat, Z.of_nat k <= n ->
       at_ mem' d k = at_ mem d (if bool_decide (lo <= Z.of_nat k) then pred k else k)).
Proof.
  intros Hf Hd Hl lo Hlo.
  eapply yields_mono; [apply (for_down_yields (fun i mem' => footprint d (d + n + 1) mem0 mem' /\
    forall k : nat, Z.of_nat k <= n ->
    at_ mem' d k = at_ mem d (if bool_decide (i < Z.of_nat k) then pred k else k)))|].
  - lia.
  - split; [done|]. intros k Hk. by rewrite bool_decide_eq_false_2 by lia.
  - intros i mem1 Hi [Hf1 H1]. pose proof (footprint_len _ _ _ _ Hf1).
    replace (d + (i - 1)) with (d + Z.of_nat (Z.to_nat (i - 1))) by lia.
    rewrite rd_at, bind_Ok by lia.
    destruct (footprint_wr d (d + n + 1) mem0 mem1 (d + i) (at_ mem1 d (Z.to_nat (i - 1))))
      as (mem2 & E & Hf2); [done|lia|lia|].
    exists mem2. split; [done|]. split; [done|]. apply wr_inv in E as [_ ->].
    intros k Hk. rewrite at_insert by lia. case_bool_decide.
    + rewrite H1, bool_decide_eq_false_2, bool_decide_eq_true_2 by lia. f_equal. lia.
    + rewrite H1 by lia. repeat case_bool_decide; done || lia.
  - intros mem' [Hf' H']. split; [done|]. intros k Hk. rewrite H' by done.
    repeat case_bool_decide; done || lia.
Qed.

(** after the taps 2, ..., [i - 1] *)
Definition filtering (mem0 : list F) (x : F) (b m : Z) (a : F) (d i : Z) (r : F * list F) : Prop :=
  let e := chain x (at_ mem0 d) a in
  footprint d (d + m + 2) mem0 r.2 /\
  r.1 = taps e (at_ mem0 b) (Z.to_nat (i - 2)) /\
  forall k : nat, Z.of_nat k <= m + 1 ->
    at_ r.2 d k = if bool_decide (Z.of_nat k < i) then e k else at_ mem0 d k.

Lemma filtering_start mem0 x b m a d :
  1 <= m -> 0 <= d -> d + m + 2 <= zlen mem0 ->
  let aa := (nZ 1 - a * a)%num in
  yields (mem ← wr mem0 d x;
          d0 ← rd mem d;
          d1 ← rd mem (d + 1);
          mem ← wr mem (d + 1) (aa * d0 + a * d1)%num; Ok (nZ 0, mem))
    (filtering mem0 x b m a d 2).
Proof.
  intros Hm Hd Hl aa. rewrite wr_ok, bind_Ok by lia.
  replace (rd _ d) with (rd (<[Z.to_nat d := x]> mem0) (d + Z.of_nat 0)) by (f_equal; lia).
  rewrite (rd_at _ _ 0) by zlen_lia. rewrite bind_Ok.
  replace (d + 1) with (d + Z.of_nat 1) by lia.
  rewrite (rd_at _ _ 1) by zlen_lia. rewrite bind_Ok.
  rewrite wr_ok, bind_Ok by zlen_lia. apply yields_ok.
  rewrite !at_insert, bool_decide_eq_true_2, bool_decide_eq_false_2 by lia.
  split; [|split]; cbn [fst snd].
  - split; [by zlen_lia|]. intros k Hk. by rewrite !list_lookup_insert_ne by lia.
  - done.
  - intros k Hk. rewrite !at_insert by zlen_lia.
    destruct k as [|[|k]]; repeat case_bool_decide; try done; lia.
Qed.

Lemma filtering_step mem0 x b m a d i y mem :
  0 <= b -> b + m < d -> d + m + 2 <= zlen mem0 -> 2 <= i < m + 1 ->
  filtering mem0 x b m a d i (y, mem) ->
  yields (di ← rd mem (d + i);
          dn ← rd mem (d + (i + 1));
          dp ← rd mem (d + (i - 1));
          mem ← wr mem (d + i) (di + a * (dn - dp))%num;
          di ← rd mem (d + i);
          bi ← rd mem (b + i);
          Ok ((y + di * bi)%num, mem))
    (filtering mem0 x b m a d (i + 1)).
Proof.
  intros Hb Hbd Hl Hi (Hf & Hy & Hk). cbn [fst snd] in *.
  pose proof (footprint_len _ _ _ _ Hf) as Hlen.
  destruct (Z_of_nat_complete i) as [n ->]; [lia|]. destruct n as [|n]; [lia|].
  replace (Z.of_nat (S n) + 1) with (Z.of_nat (S (S n))) by lia.
  replace (Z.of_nat (S n) - 1) with (Z.of_nat n) by lia.
  rewrite !rd_at, !bind_Ok by lia.
  edestruct (footprint_wr d (d + m + 2) mem0 mem (d + Z.of_nat (S n))) as (mem2 & E & Hf2);
    [done|lia|lia|]. rewrite E, bind_Ok.
  pose proof (footprint_len _ _ _ _ Hf2). apply wr_inv in E as [_ ->].
  rewrite !rd_at, !bind_Ok by lia. apply yields_ok.
  rewrite (footprint_at _ _ _ _ b (S n) Hf2) by lia.
  rewrite (at_insert _ d (S n)), bool_decide_eq_true_2 by lia.
  split; [done|]. rewrite !Hk by lia.
  rewrite (bool_decide_eq_true_2 (Z.of_nat n < Z.of_nat (S n))) by lia.
  rewrite (bool_decide_eq_false_2 (Z.of_nat (S n) < Z.of_nat (S n))) by lia.
  rewrite (bool_decide_eq_false_2 (Z.of_nat (S (S n)) < Z.of_nat (S n))) by lia.
  cbn [fst snd]. split.
  - rewrite Hy. replace (Z.to_nat (Z.of_nat (S (S n)) - 2)) with n by lia.
    destruct n as [|n]; [lia|].
    replace (Z.to_nat (Z.of_nat (S (S n)) - 2)) with n by lia. done.
  - intros k Hkm. rewrite at_insert by lia. rewrite Hk by done.
    destruct (decide (k = S n)) as [->|].
    + rewrite !bool_decide_eq_true_2 by lia. destruct n; [lia|]. done.
    + repeat case_bool_decide; done || lia.
Qed.

(** C29: one stage of the MLSA filter: with the all-pass chain run on its input
    and delay line, mlsafir returns the sum of the taps 2, ..., m weighted by
    the coefficients, and leaves in the delay line the input, the first
    section, and every section delayed by one place; nothing else changes. *)
Theorem mlsafir_chain x b m a d mem :
  1 <= m -> 0 <= b -> b + m < d -> d + m + 2 <= zlen mem ->
  let e := chain x (at_ mem d) a in
  yields (mlsafir x b m a d mem) (fun '(y, mem') =>
    y = taps e (at_ mem b) (Z.to_nat (m - 1)) /\
    at_ mem' d 0 = x /\ at_ mem' d 1 = e 1%nat /\
    (forall k : nat, 1 <= Z.of_nat k <= m -> at_ mem' d (S k) = e k) /\
    footprint d (d + m + 2) mem mem').
Proof.
  intros Hm Hb Hbd Hl e.
  destruct (filtering_start mem x b m a d) as (r0 & E0 & H0); [lia..|].
  unfold mlsafir. cbn zeta.
  eapply bind_inv_Ok in E0 as (m1 & E1 & E0). rewrite E1, bind_Ok.
  eapply bind_inv_Ok in E0 as (x0 & Ex0 & E0). rewrite Ex0, bind_Ok.
  eapply bind_inv_Ok in E0 as (x1 & Ex1 & E0). rewrite Ex1, bind_Ok.
  eapply bind_inv_Ok in E0 as (m2 & E2 & [= <-]). rewrite E2, bind_Ok.
  eapply yields_bind.
  { apply (for_up_yields (filtering mem x b m a d)); [lia|exact H0|].
    intros i [y mem1] Hi H1. by apply filtering_step. }
  intros [y mem1] (Hf & Hy & Hk). cbn [fst snd] in *.
  eapply yields_bind.
  { apply (shift_line mem mem1 d (m + 1)); [by replace (d + (m + 1) + 1) with (d + m + 2) by lia|lia..]. }
  intros mem' [Hf' Hs]. apply yields_ok.
  replace (d + (m + 1) + 1) with (d + m + 2) in Hf' by lia.
  replace (m + 1 - 2) with (m - 1) in Hy by lia.
  assert (T : forall k : nat, Z.of_nat k <= m + 1 -> at_ mem' d k
    = chain x (at_ mem d) a (if bool_decide (2 <= Z.of_nat k) then pred k else k)).
  { intros k Hkm. rewrite Hs by lia. rewrite Hk, bool_decide_eq_true_2;
      [done|case_bool_decide; lia..]. }
  split; [done|]. split_and!; [by rewrite T by lia|by rewrite T by lia| |done].
  intros k Hkm. rewrite T by lia. unfold e. rewrite bool_decide_eq_true_2 by lia. done.
Qed.

End Filters.

(** ** Exact arithmetic *)

Section Exact.
Context {F : Type} `{NumField F}.
Add Field filters_field : num_field.

(** C35: from the mel-cepstrum to the filter coefficients and back, on exact
    numbers: [mc[k] = b[k] + a b[k + 1]]. *)
Theorem mc2b_inverse mc mem b m (a : F) :
  0 <= m < zlen mc -> 0 <= b -> b + m < zlen mem ->
  yields (mc2b mc mem b m a) (fun mem' =>
    footprint b (b + m + 1) mem mem' /\
    at_ mem' b (Z.to_nat m) = default (nZ 0) (mc !! Z.to_nat m) /\
    forall k : nat, Z.of_nat k < m ->
      mc !! k = Some (at_ mem' b k + a * at_ mem' b (S k))%num).
Proof.
  intros Hm Hb Hl. eapply yields_mono; [by apply mc2b_spec|].
  intros mem' (Hf & Hlast & Hk). split; [done|]. split.
  - unfold at_. by rewrite Hlast.
  - intros k Hkm. destruct (Hk k Hkm) as (x & y & -> & Ey & Ex).
    rewrite (at_lookup _ _ _ _ Ex), (at_lookup _ _ _ _ Ey). f_equal. ring.
Qed.

End Exact.

(** ** Concrete runs *)

Section ExactRuns.
#[local] Existing Instance no_qlibm.

Lemma mc2b_inverse_witness :
  yields (mc2b [nZ 3; nZ 2; nZ 1] (replicate 3 (nZ 0)) 0 2 (ndec 5 (-1))) (fun mem' =>
    footprint 0 (0 + 2 + 1) (replicate 3 (nZ 0)) mem' /\
    at_ mem' 0 2 = nZ 1 /\
    forall k : nat, Z.of_nat k < 2 -> [nZ 3; nZ 2; nZ 1] !! k
      = Some (at_ mem' 0 k + ndec 5 (-1) * at_ mem' 0 (S k))%num).
Proof.
  refine (mc2b_inverse (F:=Qc) [nZ 3; nZ 2; nZ 1] (replicate 3 (nZ 0)) 0 2 (ndec 5 (-1)) _ _ _);
    by_run.
Defined.
End ExactRuns.

Lemma movem_memmove_witness :
  yields (movem [1; 2; 3; 4; 5] 0 1 3) (fun mem' => zlen mem' = 5 /\ forall k : nat,
    mem' !! k = if bool_decide (1 <= Z.of_nat k < 1 + 3)
                then [1; 2; 3; 4; 5] !! Z.to_nat (0 + (Z.of_nat k - 1))
                else [1; 2; 3; 4; 5] !! k).
Proof. refine (movem_memmove [1; 2; 3; 4; 5] 0 1 3 _ _ _ _ _); by_run. Defined.

Section Runs.
#[local] Existing Instance no_libm.
Lemma mlsafir_chain_witness :
  let mem : list double := map nZ [1; 2; 3; 4; 5; 6; 7; 8; 9] in
  let e := chain (nZ 1) (at_ mem 4) (ndec 5 (-1)) in
  yields (mlsafir (nZ 1) 0 3 (ndec 5 (-1)) 4 mem) (fun '(y, mem') =>
    y = taps e (at_ mem 0) 2 /\
    at_ mem' 4 0 = nZ 1 /\ at_ mem' 4 1 = e 1%nat /\
    (forall k : nat, 1 <= Z.of_nat k <= 3 -> at_ mem' 4 (S k) = e k) /\
    footprint 4 (4 + 3 + 2) mem mem').
Proof.
  refine (mlsafir_chain (F:=double) (nZ 1) 0 3 (ndec 5 (-1)) 4
            (map nZ [1; 2; 3; 4; 5; 6; 7; 8; 9]) _ _ _ _); by_run.
Defined.
End Runs.
End Filters.
