(* ===== verification/Vocoder.v ===== *)
(** * The MLSA vocoder (mage/src/Vocoder.cpp, Vocoder.h)

    The excitation, the pitch control, the interpolation of the filter
    coefficients between frames, and the buffer that holds the coefficients
    and the work area of the filter. *)

From Stdlib Require Import Field Qcanon.
From S2P Require Import Prelude Num Constants Filters.
#[local] Open Scope Z_scope.
Import Filters.

(** ** Random numbers (mage/src/MathFunctions.cpp, 33-48) *)

(** [MAGE::Random( x, y )] on the value [r] of [rand()]; [float] variables are
    [double]s rounded by [nsingle] *)
Definition Random {F} `{NumOps F} (RAND_MAX : Z) (x y : F) (r : Z) : F :=
  if (x =? y)%num then x
  else
    let high := if (x <? y)%num then y else x in
    let low := if (y <? x)%num then y else x in
    let scaled := nsingle (nsingle (high - low) * nsingle (nZ r))%num in
    nsingle (low + scaled / (nZ RAND_MAX + nZ 1))%num.

Module Vocoder.

(** ** State *)

Record t (F : Type) := mk {
  alpha : F;
  gamma : option F;           (* None: never written *)
  action : Z;
  voiced : bool;
  f0 : F;
  t0 : F;
  volume : F;
  c : list F;                 (* the allocation; cc, inc and d point into it *)
  cc : Z;
  inc : Z;
  d : Z;
  m : Z;
  fprd : Z;
  iprd : Z;
  stage : Z;
  pd : Z;
  csize : Z;
  ngain : bool;
  flagFirstPush : bool;
  count : Z;
  actionValue : option F;
  nOfPopSinceLastPush : Z;
  padesptk : list F
}.
Arguments mk {F}. Arguments alpha {F}. Arguments gamma {F}. Arguments action {F}.
Arguments voiced {F}. Arguments f0 {F}. Arguments t0 {F}. Arguments volume {F}.
Arguments c {F}. Arguments cc {F}. Arguments inc {F}. Arguments d {F}. Arguments m {F}.
Arguments fprd {F}. Arguments iprd {F}. Arguments stage {F}. Arguments pd {F}.
Arguments csize {F}. Arguments ngain {F}. Arguments flagFirstPush {F}.
Arguments count {F}. Arguments actionValue {F}. Arguments nOfPopSinceLastPush {F}.
Arguments padesptk {F}.

#[global] Instance eta_vocoder F : Settable (t F) := fun v =>
  mk (alpha v) (gamma v) (action v) (voiced v) (f0 v) (t0 v) (volume v) (c v) (cc v)
     (inc v) (d v) (m v) (fprd v) (iprd v) (stage v) (pd v) (csize v) (ngain v)
     (flagFirstPush v) (count v) (actionValue v) (nOfPopSinceLastPush v) (padesptk v).

(** a frame of the frame queue (mage/src/Frame.h) *)
Record frame (F : Type) := mkFrame { streams : list (list F); fvoiced : bool }.
Arguments mkFrame {F}. Arguments streams {F}. Arguments fvoiced {F}.

Section Vocoder.
Context {F : Type} `{NumOps F}.
#[local] Open Scope num_scope.
#[local] Open Scope Z_scope.

(** a member that may not have been written yet *)
Definition initialised (x : option F) : Res F :=
  match x with Some v => Ok v | None => Undef Uninitialised end.

(** ** Construction *)

Definition lpadesptk : list F :=
  [ nZ 1;
    nZ 1; nZ 0; nZ 1; nZ 0;
    nZ 0; nZ 1; nZ 0; nZ 0;
    nZ 0; nZ 1; ndec 4999273 (-7); ndec 1067005 (-7);
    ndec 1170221 (-8); ndec 5656279 (-10); nZ 1; ndec 4999391 (-7);
    ndec 1107098 (-7); ndec 1369984 (-8); ndec 9564853 (-10); ndec 3041721 (-11) ].

(** the size of the allocation *)
Definition size_of (m stage pd : Z) : Z :=
  if negb (stage =? 0) then m + m + m + 3 + (m + 1) * stage
  else 3 * (m + 1) + 3 * (pd + 1) + pd * (m + 2).

(** a negative [csize] makes [new double[]] throw, which nothing catches *)
Definition create (am : Z) (aalpha : F) (afprd aiprd astage apd : Z) (angain : bool)
    : Res (t F) :=
  csize ← i32 (size_of am astage apd);
  if csize <? 0 then Exit 134
  else
    let f0 := nZ defaultPitch in
    Ok (mk aalpha
          (if negb (astage =? 0) then Some (nZ (-1) / nZ astage)%num else None)
          noaction false f0 (nZ defaultSamplingRate / f0)%num (nZ 1)
          (replicate (Z.to_nat csize) (nZ 0))
          (am + 1) (am + 1 + (am + 1)) (am + 1 + (am + 1) + (am + 1))
          am afprd aiprd astage apd csize angain true 0 None 0 lpadesptk).

(** the default arguments of the constructor *)
Definition create_default : Res (t F) :=
  create (nOfMGCs - 1) defaultAlpha defaultFrameRate defaultInterpFrameRate
    defaultGamma defaultPadeOrder false.

(** ** Getters and setters *)

Definition getAlpha (v : t F) : F := alpha v.
Definition getPitch (v : t F) : F := f0 v.
Definition getPeriod (v : t F) : F := t0 v.
Definition getVolume (v : t F) : F := volume v.
Definition getPadeOrder (v : t F) : F := nZ (pd v).
Definition getAction (v : t F) : Z := action v.
(** [return( this->gamma = this->stage )] *)
Definition getGamma (v : t F) : F * t F :=
  (nZ (stage v), v <| gamma := Some (nZ (stage v)) |>).
Definition isVoiced (v : t F) : bool := voiced v.
Definition ready (v : t F) : bool := negb (flagFirstPush v).

Definition setAlpha (v : t F) (x : F) : t F := v <| alpha := x |>.
Definition setGamma (v : t F) (x : F) : Res (t F) := s ← to_int x; Ok (v <| stage := s |>).
Definition setVolume (v : t F) (x : F) : t F := v <| volume := x |>.
Definition setPadeOrder (v : t F) (x : F) : Res (t F) := p ← to_int x; Ok (v <| pd := p |>).
Definition setVoiced (v : t F) (forceVoiced : bool) : t F := v <| voiced := forceVoiced |>.

(** a negative pitch is replaced by the default, and the period follows *)
Definition update_period (v : t F) : t F :=
  let v := if (f0 v <? nZ 0)%num then v <| f0 := nZ defaultPitch |> else v in
  v <| t0 := (nZ defaultSamplingRate / f0 v)%num |>.

Definition setPitch (v : t F) (pitch : F) (act : Z) (forceVoiced : bool) : t F :=
  let v :=
    if act =? overwrite then v <| f0 := pitch |>
    else if act =? shift then v <| f0 := (f0 v + pitch)%num |>
    else if act =? scale then v <| f0 := (f0 v * pitch)%num |>
    else if (act =? synthetic) || (act =? noaction) then v
    else v <| f0 := pitch |> in
  let v := v <| action := act |> <| actionValue := Some pitch |> in
  let v := update_period v in
  if forceVoiced then v <| voiced := true |> else v.

(** ** Synthesis *)

(** [noise]: the value of [MAGE::Random( -1, 1 )] *)
Definition excite (noise : F) (v : t F) : Res (F * t F) :=
  if voiced v then
    if count v <=? 0 then
      n ← to_int (t0 v);
      Ok (nsqrt (t0 v), v <| count := n |>)
    else Ok (nZ 0, v <| count := count v - 1 |>)
  else Ok (noise, v <| count := 0 |>).

(** the MGLSA form of the coefficients at [p] *)
Definition to_mglsa (v : t F) (p : Z) (mem : list F) : Res (list F) :=
  g ← initialised (gamma v);
  mem ← gnorm mem p p (m v) g;
  x ← rd mem p;
  mem ← wr mem p (nlog x);
  for_up 1 (m v + 1) (fun i mem => x ← rd mem (p + i); wr mem (p + i) (x * g)%num) mem.

(** the coefficients of a frame at [p] *)
Definition load (v : t F) (mgc : list F) (p : Z) (mem : list F) : Res (list F) :=
  mem ← mc2b mgc mem p (m v) (alpha v);
  if negb (stage v =? 0) then to_mglsa v p mem else Ok mem.

(** [inc[i] = ( cc[i] - c[i] ) * iprd / fprd] *)
Definition set_increments (v : t F) (mem : list F) : Res (list F) :=
  for_up 0 (m v + 1) (fun i mem =>
    x ← rd mem (cc v + i);
    y ← rd mem i;
    wr mem (inc v + i) ((x - y) * nZ (iprd v) / nZ (fprd v))%num) mem.

(** the coefficients the interpolation starts from and leads to *)
Definition set_target (v : t F) (mgc : list F) : Res (list F * t F) :=
  if negb (flagFirstPush v) then
    mem ← movem (c v) (cc v) 0 (m v + 1);
    mem ← load v mgc (cc v) mem;
    Ok (mem, v)
  else
    let v := v <| flagFirstPush := false |> in
    mem ← load v mgc 0 (c v);
    mem ← for_up 0 (m v + 1) (fun i mem => x ← rd mem i; wr mem (cc v + i) x) mem;
    Ok (mem, v).

Definition prepare (v : t F) (fr : list (list F)) (fvoiced ignoreVoicing : bool) : Res (t F) :=
  mgc ← rd fr mgcStreamIndex;
  lf0 ← rd fr lf0StreamIndex;
  '(mem, v) ← set_target v mgc;
  mem ← set_increments v mem;
  let v := v <| c := mem |> in
  f ← rd lf0 0;
  f0' ← (if action v =? overwrite then initialised (actionValue v)
         else if action v =? shift then a ← initialised (actionValue v); Ok (f + a)%num
         else if action v =? scale then a ← initialised (actionValue v); Ok (f * a)%num
         else Ok f);
  let v := update_period (v <| f0 := f0' |>) in
  let v := if negb ignoreVoicing then v <| voiced := fvoiced |> else v in
  Ok (v <| nOfPopSinceLastPush := 0 |>).

Definition push (v : t F) (fr : frame F) (ignoreVoicing : bool) : Res (t F) :=
  prepare v (streams fr) (fvoiced fr) ignoreVoicing.

(** one pass of the filter over the excitation [x] *)
Definition filter (v : t F) (x : F) : Res (F * list F) :=
  c0 ← rd (c v) 0;
  let x := (x * (if negb (ngain v) then nexp c0 else c0))%num in
  if negb (stage v =? 0) then mglsadf x 0 (m v) (alpha v) (stage v) (d v) (c v)
  else mlsadf (padesptk v) x 0 (m v) (alpha v) (pd v) (d v) (c v).

(** [c[i] += inc[i]] *)
Definition interpolate (v : t F) (mem : list F) : Res (list F) :=
  for_up 0 (m v + 1) (fun i mem =>
    x ← rd mem i; y ← rd mem (inc v + i); wr mem i (x + y)%num) mem.

Definition pop (noise : F) (v : t F) : Res (F * t F) :=
  '(x, v) ← excite noise v;
  '(x, mem) ← filter v x;
  check (negb (iprd v =? 0)) DivByZero ;;
  mem ← (if nOfPopSinceLastPush v <? Z.quot (fprd v) (iprd v) then interpolate v mem
         else Ok mem);
  n ← i32 (nOfPopSinceLastPush v + 1);
  let v := v <| c := mem |> <| nOfPopSinceLastPush := n |> in
  Ok (if (nZ 0 <=? volume v)%num then (volume v * x)%num else x, v).

Definition reset (v : t F) : t F :=
  let f0 := nZ defaultPitch in
  mk defaultAlpha (Some (nZ defaultGamma)) noaction (voiced v) f0
     (nZ defaultSamplingRate / f0)%num (nZ defaultVolume)
     (replicate (Z.to_nat (csize v)) (nZ 0)) (cc v) (inc v) (d v) (m v) (fprd v) (iprd v)
     defaultGamma defaultPadeOrder (csize v) (ngain v) true (count v) (actionValue v)
     (nOfPopSinceLastPush v) (padesptk v).

(** ** The allocation is large enough *)

(** the part of the state the accesses depend on *)
Record wf (v : t F) : Prop := {
  wf_m : 1 <= m v < maxStreamLen;
  wf_c : zlen (c v) = csize v;
  wf_cc : cc v = m v + 1;
  wf_inc : inc v = 2 * (m v + 1);
  wf_d : d v = 3 * (m v + 1);
  wf_iprd : iprd v <> 0;
  wf_table : zlen (padesptk v) = 21;
  (* a reset makes it an MLSA filter of the default order *)
  wf_reset : d v + mlsadf_size (m v) defaultPadeOrder <= csize v;
  wf_mlsa : stage v = 0 -> 0 <= pd v <= 5 /\ d v + mlsadf_size (m v) (pd v) <= csize v;
  wf_mglsa : stage v <> 0 ->
    0 < stage v /\ d v + stage v * (m v + 1) <= csize v /\ gamma v <> None;
  wf_action : action v = overwrite \/ action v = shift \/ action v = scale ->
    actionValue v <> None;
  wf_pops : 0 <= nOfPopSinceLastPush v < 2 ^ 31
}.

Lemma vocoder_create_wf am aalpha afprd aiprd apd angain v :
  1 <= am < maxStreamLen -> aiprd <> 0 -> apd = defaultPadeOrder ->
  create am aalpha afprd aiprd 0 apd angain = Ok v -> wf v.
Proof.
  intros Hm Hi -> E. unfold create in E. apply bind_inv_Ok in E as (sz & Es & E).
  apply i32_inv in Es as [-> Hs]. unfold size_of in *. cbn [Z.eqb negb] in *.
  change defaultPadeOrder with 5 in *.
  destruct (_ <? 0) eqn:Hneg; [done|]. injection E as <-.
  split; cbn; unfold mlsadf_size; try lia; try done.
  - rewrite zlen_replicate. lia.
  - change defaultPadeOrder with 5. lia.
  - by intros [|[|]].
Qed.

Lemma mlsa_table pd' : 0 <= pd' <= 5 -> pade_row pd' + pd' < 21.
Proof.
  intros Hp. unfold pade_row. rewrite Z.quot_div_nonneg by nia.
  assert (pd' * (pd' + 1) / 2 <= 15) by (apply Z.div_le_upper_bound; nia). lia.
Qed.

Lemma filter_foot v x :
  wf v -> yields (filter v x) (fun r => footprint (d v) (csize v) (c v) r.2).
Proof.
  intros []. unfold filter.
  assert (0 <= mlsadf_size (m v) defaultPadeOrder)
    by (unfold mlsadf_size; change defaultPadeOrder with 5; lia).
  eapply yields_bind; [apply yields_rd; lia|]. intros c0 _. cbn zeta.
  destruct (Z.eqb_spec (stage v) 0) as [E|E]; cbn [negb].
  - destruct (wf_mlsa0 E) as [Hp Hs]. apply mlsadf_foot; try lia; [|done].
    rewrite wf_table0. by apply mlsa_table.
  - destruct (wf_mglsa0 E) as (Hp & Hs & _). apply mglsadf_foot; try lia. done.
Qed.

Lemma interpolate_foot v mem lo hi mem0 :
  wf v -> footprint lo hi mem0 mem -> zlen mem0 = csize v ->
  lo <= 0 -> m v + 1 <= hi ->
  yields (interpolate v mem) (footprint lo hi mem0).
Proof.
  intros [] Hf L Hlo Hhi. unfold interpolate.
  apply (for_up_yields (fun _ => footprint lo hi mem0)); [lia|done|].
  intros i mem1 Hi Hm1. unfold mlsadf_size in *. change defaultPadeOrder with 5 in *. foot.
Qed.

(** the states the operations go through keep every field the invariant reads *)
Lemma wf_update v v' :
  wf v -> zlen (c v') = zlen (c v) ->
  (m v', csize v', cc v', inc v', d v', iprd v', stage v', pd v')
    = (m v, csize v, cc v, inc v, d v, iprd v, stage v, pd v) ->
  padesptk v' = padesptk v -> gamma v' = gamma v ->
  action v' = action v -> actionValue v' = actionValue v ->
  0 <= nOfPopSinceLastPush v' < 2 ^ 31 -> wf v'.
Proof.
  intros [] Hc [= E1 E2 E3 E4 E5 E6 E7 E8] Ep Eg Ea Ev Hn.
  split; rewrite ?Hc, ?E1, ?E2, ?E3, ?E4, ?E5, ?E6, ?E7, ?E8, ?Ep, ?Eg, ?Ea, ?Ev; auto.
Qed.

Ltac wf_step W :=
  pose proof (wf_pops _ W); apply (wf_update _ _ W); try done; cbn; try lia; try congruence.

(** the value the excitation converts to a sample count is in range *)
Definition period_fits (v : t F) : Prop :=
  voiced v = true -> count v <= 0 -> exists n, to_int (t0 v) = Ok n.

Lemma excite_may bad noise v :
  period_fits v \/ bad BadConversion ->
  may bad (excite noise v) (fun r => exists n, r.2 = v <| count := n |>).
Proof.
  intros Hp. unfold excite. destruct (voiced v) eqn:E; [|by eexists].
  case Z.leb_spec; intros Hc; [|by eexists].
  destruct Hp as [Hp|Hb].
  - destruct (Hp E Hc) as [n ->]. by eexists.
  - unfold to_int, check. destruct (ntrunc (t0 v)) as [z|]; [|done].
    destruct (in_i32 z); [by eexists|done].
Qed.

Lemma pop_may bad noise v :
  wf v -> period_fits v \/ bad BadConversion ->
  nOfPopSinceLastPush v < 2 ^ 31 - 1 \/ bad IntOverflow ->
  may bad (pop noise v) (fun r => wf r.2).
Proof.
  intros W Hp Hn. unfold pop. pose proof (wf_pops _ W) as Hn0.
  eapply may_bind; [by apply excite_may|]. intros [x v1] [k Ev]. cbn [snd] in Ev.
  assert (W1 : wf v1) by (subst v1; wf_step W).
  eapply may_bind; [by apply may_yields, filter_foot|]. intros [y mem] Hf. cbn [snd] in Hf.
  eapply may_bind.
  { apply may_yields, (yields_check _ _ (fun _ => True)); [|done].
    apply negb_true_iff, Z.eqb_neq, W1. }
  intros _ _. eapply (may_bind _ _ _ (fun mem' => zlen mem' = csize v1)).
  { apply may_yields. destruct (_ <? _).
    - eapply yields_mono; [eapply (interpolate_foot v1 mem 0 (csize v1) (c v1))|]; try lia.
      + done.
      + eapply footprint_weaken; [| |exact Hf]; [destruct W1; lia|lia].
      + apply W1.
      + destruct W1. unfold mlsadf_size in *. change defaultPadeOrder with 5 in *. lia.
      + intros mem' L. by rewrite (footprint_len _ _ _ _ L), (wf_c _ W1).
    - apply yields_ok. by rewrite (footprint_len _ _ _ _ Hf), (wf_c _ W1). }
  intros mem' L.
  assert (En : nOfPopSinceLastPush v1 = nOfPopSinceLastPush v) by by subst v1.
  destruct (decide (nOfPopSinceLastPush v < 2 ^ 31 - 1)).
  - rewrite i32_ok, bind_Ok by lia. cbn [may snd]. wf_step W1. by rewrite L, (wf_c _ W1).
  - destruct Hn as [|Hb]; [done|]. unfold i32, check.
    destruct (in_i32 _) eqn:Ei; [|done]. apply in_i32_true in Ei. lia.
Qed.

(** the rows of a frame the vocoder reads *)
Definition frame_ok (v : t F) (fr : list (list F)) : Prop :=
  exists mgc lf0 f, fr !! Z.to_nat mgcStreamIndex = Some mgc /\
    fr !! Z.to_nat lf0StreamIndex = Some lf0 /\ m v < zlen mgc /\ lf0 !! O = Some f.

Lemma to_mglsa_foot v mem0 mem p lo hi :
  1 <= m v -> gamma v <> None -> 0 <= p -> p + m v < zlen mem0 -> lo <= p -> p + m v < hi ->
  footprint lo hi mem0 mem -> yields (to_mglsa v p mem) (footprint lo hi mem0).
Proof.
  intros Hm Hg Hp Hl Hlo Hhi Hf. unfold to_mglsa.
  destruct (gamma v) as [g|]; [|done]. cbn [initialised]. rewrite bind_Ok.
  eapply yields_bind; [by apply gnorm_foot|]. intros mem1 Hm1. foot.
  apply (for_up_yields (fun _ => footprint lo hi mem0)); [lia|done|].
  intros i mem2 Hi Hm2. foot.
Qed.

Lemma load_foot v mgc mem0 mem p lo hi :
  wf v -> m v < zlen mgc -> 0 <= p -> p + m v < zlen mem0 -> lo <= p -> p + m v < hi ->
  footprint lo hi mem0 mem -> yields (load v mgc p mem) (footprint lo hi mem0).
Proof.
  intros [] Hg Hp Hl Hlo Hhi Hf. unfold load. pose proof (footprint_len _ _ _ _ Hf).
  eapply yields_bind; [apply mc2b_spec; lia|]. intros mem1 [Hm1 _].
  assert (footprint lo hi mem0 mem1).
  { transitivity mem; [done|]. eapply footprint_weaken; [| |done]; lia. }
  destruct (Z.eqb_spec (stage v) 0) as [E|E]; cbn [negb]; [by apply yields_ok|].
  destruct (wf_mglsa0 E) as (_ & _ & ?), wf_m0. by apply to_mglsa_foot.
Qed.

Lemma set_increments_foot v mem0 mem lo hi :
  wf v -> zlen mem0 = csize v -> lo <= inc v -> d v <= hi ->
  footprint lo hi mem0 mem -> yields (set_increments v mem) (footprint lo hi mem0).
Proof.
  intros [] L Hlo Hhi Hf. unfold set_increments, mlsadf_size in *.
  change defaultPadeOrder with 5 in *.
  apply (for_up_yields (fun _ => footprint lo hi mem0)); [lia|done|].
  intros i mem1 Hi Hm1. foot.
Qed.

Lemma update_period_wf v : wf v -> wf (update_period v).
Proof. intros W. unfold update_period. destruct (_ <? _)%num; wf_step W. Qed.

Lemma set_target_foot v mgc :
  wf v -> m v < zlen mgc ->
  yields (set_target v mgc) (fun r => footprint 0 (inc v) (c v) r.1 /\
    r.2 = v <| flagFirstPush := false |>).
Proof.
  intros W Hg. pose proof W as []. unfold set_target, mlsadf_size in *.
  change defaultPadeOrder with 5 in *.
  destruct (flagFirstPush v) eqn:Ef; cbn [negb].
  - eapply yields_bind; [apply (load_foot _ _ (c v) (c v) 0 0 (inc v))|]; cbn; try lia.
    + wf_step W.
    + reflexivity.
    + intros mem Hm. eapply yields_bind.
      { apply (for_up_yields (fun _ => footprint 0 (inc v) (c v))); cbn; [lia|done|].
        intros i mem1 Hi Hm1. foot. }
      intros mem1 Hm1. by apply yields_ok.
  - eapply yields_bind; [apply movem_moved; lia|]. intros mem M.
    pose proof (moved_foot _ _ _ _ _ _ 0 (inc v) M (reflexivity _) ltac:(lia) ltac:(lia)).
    eapply yields_bind; [apply (load_foot _ _ (c v) _ (cc v) 0 (inc v))|]; try lia; try done.
    intros mem1 Hm1. apply yields_ok. split; [done|]. cbn [snd].
      destruct v; cbn in *. by subst.
Qed.

Lemma prepare_yields v fr fvoiced ignoreVoicing :
  wf v -> frame_ok v fr ->
  yields (prepare v fr fvoiced ignoreVoicing) (fun v' => wf v' /\
    nOfPopSinceLastPush v' = 0 /\ flagFirstPush v' = false).
Proof.
  intros W (mgc & lf0 & f & Eg & El & Hg & Ef). unfold prepare.
  eapply yields_bind_eq; [by apply rd_ok|]. eapply yields_bind_eq; [by apply rd_ok|].
  eapply yields_bind; [by apply set_target_foot|]. intros [mem v'] [Hm Ev].
  cbn [fst snd] in *. subst v'.
  set (v1 := v <| flagFirstPush := false |>).
  assert (W1 : wf v1) by (subst v1; wf_step W).
  eapply yields_bind.
  { apply (set_increments_foot v1 (c v) mem 0 (d v)); try done.
    - apply W.
    - destruct W. cbn. lia.
    - eapply footprint_weaken; [| |exact Hm]; [lia|destruct W; lia]. }
  intros mem2 Hm2. pose proof (footprint_len _ _ _ _ Hm2). cbn zeta.
  eapply yields_bind_eq; [by apply rd_ok|].
  assert (Hact : yields (
      if action v1 =? overwrite then initialised (actionValue v1)
      else if action v1 =? shift then a ← initialised (actionValue v1); Ok (f + a)%num
      else if action v1 =? scale then a ← initialised (actionValue v1); Ok (f * a)%num
      else Ok f) (fun _ => True)).
  { pose proof (wf_action _ W1) as Wa.
    destruct (actionValue v1) as [a|]; cbn; repeat case Z.eqb_spec; intros;
      try (by eexists); by destruct Wa; auto. }
  eapply yields_bind; [exact Hact|]. intros f0' _. apply yields_ok. split; [|split].
  - set (v2 := update_period _).
    assert (W2 : wf v2) by (apply update_period_wf; wf_step W1).
    destruct (negb ignoreVoicing); wf_step W2.
  - by destruct (negb ignoreVoicing).
  - unfold update_period. cbn. by destruct (negb ignoreVoicing), (_ <? _)%num.
Qed.

(** ** Sessions *)

(** the calls of a client: every public operation but the getters that change
    nothing *)
Inductive call :=
  | Push (fr : frame F) (ignoreVoicing : bool)
  | Pop (noise : F)
  | SetPitch (pitch : F) (act : Z) (forceVoiced : bool)
  | SetAlpha (x : F)
  | SetVolume (x : F)
  | SetVoiced (b : bool)
  | SetPadeOrder (x : F)
  | SetGamma (x : F)
  | GetGamma
  | Excite (noise : F)
  | Reset.

Definition run_call (k : call) (v : t F) : Res (list F * t F) :=
  match k with
  | Push fr ign => v ← push v fr ign; Ok ([], v)
  | Pop noise => '(x, v) ← pop noise v; Ok ([x], v)
  | SetPitch p act fv => Ok ([], setPitch v p act fv)
  | SetAlpha x => Ok ([], setAlpha v x)
  | SetVolume x => Ok ([], setVolume v x)
  | SetVoiced b => Ok ([], setVoiced v b)
  | SetPadeOrder x => v ← setPadeOrder v x; Ok ([], v)
  | SetGamma x => v ← setGamma v x; Ok ([], v)
  | GetGamma => let '(g, v) := getGamma v in Ok ([g], v)
  | Excite noise => '(x, v) ← excite noise v; Ok ([x], v)
  | Reset => Ok ([], reset v)
  end.

Fixpoint session (ks : list call) (v : t F) : Res (list F * t F) :=
  match ks with
  | [] => Ok ([], v)
  | k :: ks =>
      '(xs, v) ← run_call k v;
      '(ys, v) ← session ks v;
      Ok (xs ++ ys, v)
  end.

(** frames have the dimensions of Frame.h *)
Definition frame_dims (fr : list (list F)) : Prop :=
  zlen fr = nOfStreams /\ Forall (fun row => zlen row = maxStreamLen) fr.

(** the setters check nothing: the Pade order is one of the table; the number of
    MGLSA stages is 0, or at most 5, whose delay lines fit where those of the
    MLSA filter are; and the member [gamma], which the constructor of an MLSA
    vocoder leaves unwritten and MGLSA coefficients are computed with, was
    written ([written]) *)
Definition order_ok (x : F) : Prop := exists p, to_int x = Ok p /\ 0 <= p <= 5.
Definition gamma_ok (written : bool) (x : F) : Prop :=
  exists s, to_int x = Ok s /\ 0 <= s <= 5 /\ (s = 0 \/ written = true).

Definition call_ok (written : bool) (k : call) : Prop :=
  match k with
  | Push fr _ => frame_dims (streams fr)
  | SetPadeOrder x => order_ok x
  | SetGamma x => gamma_ok written x
  | _ => True
  end.

(** [gamma] is written by a reset, and by its getter *)
Definition writes_gamma (k : call) (written : bool) : bool :=
  match k with Reset | GetGamma => true | _ => written end.

Fixpoint calls_ok (written : bool) (ks : list call) : Prop :=
  match ks with
  | [] => True
  | k :: ks => call_ok written k /\ calls_ok (writes_gamma k written) ks
  end.

Lemma frame_dims_ok v fr : wf v -> frame_dims fr -> frame_ok v fr.
Proof.
  intros W [L R]. rewrite Forall_lookup in R. pose proof (wf_m _ W).
  assert (G : forall i, 0 <= i < nOfStreams -> exists row,
    fr !! Z.to_nat i = Some row /\ zlen row = maxStreamLen).
  { intros i Hi. destruct (yields_rd fr i) as (row & _ & E); [lia|]. eauto. }
  destruct (G mgcStreamIndex) as (mgc & Eg & Lg); [done|].
  destruct (G lf0StreamIndex) as (lf0 & El & Ll); [done|].
  destruct lf0 as [|f lf0]; [done|]. exists mgc, (f :: lf0), f.
  split_and!; [done|done|lia|done].
Qed.

Lemma mlsadf_size_mono m p q : 0 <= m -> 0 <= p <= q -> mlsadf_size m p <= mlsadf_size m q.
Proof. unfold mlsadf_size. nia. Qed.

Lemma setPitch_wf v p act fv : wf v -> wf (setPitch v p act fv).
Proof.
  intros W. unfold setPitch. cbn zeta.
  set (v1 := (if act =? overwrite then _ else _)).
  assert (W1 : wf (v1 <| action := act |> <| actionValue := Some p |>)).
  { assert (wf v1) as [] by (unfold v1; repeat destruct (_ =? _); cbn; wf_step W).
    split; cbn; auto. }
  apply update_period_wf in W1. destruct fv; [wf_step W1|done].
Qed.

Lemma reset_wf v : wf v -> wf (reset v).
Proof.
  intros []. split; cbn; auto; try done; try (by intros [|[|]]).
  rewrite zlen_replicate. rewrite <-wf_c0. unfold zlen. lia.
Qed.

(** a vocoder whose settings are in range, and whose [gamma] was written *)
Definition tuned (written : bool) (v : t F) : Prop :=
  wf v /\ 0 <= pd v <= 5 /\ (written = true -> gamma v <> None).

Lemma setPadeOrder_wf v x :
  wf v -> order_ok x -> yields (setPadeOrder v x) (fun v' => wf v' /\ exists p,
    v' = v <| pd := p |> /\ 0 <= p <= 5).
Proof.
  intros [] (p & E & Hp). unfold setPadeOrder. rewrite E, bind_Ok. apply yields_ok.
  split; [|by exists p]. split; cbn; auto. intros _. split; [done|].
  etransitivity; [|exact wf_reset0]. apply Z.add_le_mono_l, mlsadf_size_mono; [lia|].
  change defaultPadeOrder with 5. lia.
Qed.

Lemma setGamma_wf w v x :
  wf v -> 0 <= pd v <= 5 -> (w = true -> gamma v <> None) -> gamma_ok w x ->
  yields (setGamma v x) (fun v' => wf v' /\ exists s, v' = v <| stage := s |>).
Proof.
  intros [] Hp Hg (s & E & Hs & Hw). unfold setGamma. rewrite E, bind_Ok. apply yields_ok.
  split; [|by exists s]. unfold mlsadf_size in *. change defaultPadeOrder with 5 in *.
  split; cbn; auto.
  - intros ->. split; [done|]. unfold mlsadf_size. nia.
  - intros Hn. split; [lia|]. split; [nia|]. destruct Hw as [?|Hw]; [done|by apply Hg].
Qed.

Lemma getGamma_wf v : wf v -> wf (getGamma v).2.
Proof. intros []. split; cbn; auto. intros Hn. destruct (wf_mglsa0 Hn) as (? & ? & _). done. Qed.

Lemma reset_tuned w v : tuned w v -> tuned true (reset v).
Proof. intros (W & _ & _). split; [by apply reset_wf|]. by split. Qed.

(** the operations that leave the settings alone *)
Lemma tuned_keep w v v' :
  tuned w v -> wf v' -> pd v' = pd v -> gamma v' = gamma v -> tuned w v'.
Proof. intros (_ & Hp & Hg) W Ep Eg. split; [done|]. by rewrite Ep, Eg. Qed.

Lemma setPitch_settings v p act fv :
  pd (setPitch v p act fv) = pd v /\ gamma (setPitch v p act fv) = gamma v /\
  stage (setPitch v p act fv) = stage v.
Proof.
  unfold setPitch, update_period. cbn zeta.
  by destruct fv; repeat (destruct (_ =? _)); cbn; destruct (_ <? _)%num.
Qed.

Lemma prepare_settings v fr fvd ign v' :
  prepare v fr fvd ign = Ok v' -> pd v' = pd v /\ gamma v' = gamma v.
Proof.
  unfold prepare. intros E. apply bind_inv_Ok in E as (mgc & _ & E). apply bind_inv_Ok in E as (lf0 & _ & E).
  apply bind_inv_Ok in E as ([mem v1] & E1 & E). apply bind_inv_Ok in E as (mem2 & _ & E).
  apply bind_inv_Ok in E as (f & _ & E). apply bind_inv_Ok in E as (f0' & _ & E). injection E as <-.
  assert (pd v1 = pd v /\ gamma v1 = gamma v) as [<- <-].
  { unfold set_target in E1. destruct (negb _); res_inv; done. }
  unfold update_period. by destruct (negb ign); cbn; destruct (_ <? _)%num.
Qed.

Lemma pop_settings noise v x v' :
  pop noise v = Ok (x, v') -> pd v' = pd v /\ gamma v' = gamma v.
Proof.
  unfold pop. intros E. apply bind_inv_Ok in E as ([x1 v1] & E1 & E).
  assert (exists n, v1 = v <| count := n |>) as [n ->].
  { unfold excite in E1. destruct (voiced v); [destruct (count v <=? 0)|]; res_inv; by eexists. }
  apply bind_inv_Ok in E as ([y mem] & _ & E). apply bind_inv_Ok in E as ([] & _ & E).
  apply bind_inv_Ok in E as (mem' & _ & E). apply bind_inv_Ok in E as (k & _ & E). by injection E as _ <-.
Qed.

Lemma run_call_may bad w k v :
  tuned w v -> call_ok w k -> bad BadConversion -> bad IntOverflow ->
  may bad (run_call k v) (fun r => tuned (writes_gamma k w) r.2).
Proof.
  intros T Hk Hb1 Hb2. pose proof T as (W & _ & _). destruct k; cbn [run_call writes_gamma call_ok] in *.
  - destruct (prepare_yields v (streams fr) (fvoiced fr) ignoreVoicing W) as (v' & E & W' & _);
      [by apply frame_dims_ok|].
    unfold push. rewrite E, bind_Ok. destruct (prepare_settings _ _ _ _ _ E). by eapply tuned_keep.
  - eapply may_bind.
    { eapply may_after; [by apply pop_may; auto|]. intros r E.
      exact (pop_settings noise v r.1 r.2 ltac:(by destruct r)). }
    intros [x v'] [W' [Ep Eg]]. by eapply tuned_keep.
  - destruct (setPitch_settings v pitch act forceVoiced) as (Ep & Eg & _).
    eapply tuned_keep; [done|by apply setPitch_wf|done..].
  - eapply tuned_keep; [done|wf_step W|done..].
  - eapply tuned_keep; [done|wf_step W|done..].
  - eapply tuned_keep; [done|wf_step W|done..].
  - eapply may_bind; [apply may_yields; by apply setPadeOrder_wf|].
    intros v' (W' & p & -> & Hp). destruct T as (_ & _ & Hg). by split.
  - destruct T as (_ & Hp & Hg). eapply may_bind; [apply may_yields; by apply (setGamma_wf w)|].
    intros v' (W' & s & ->). by split.
  - destruct T as (_ & Hp & Hg). split; [by apply getGamma_wf|]. by split.
  - eapply may_bind; [apply excite_may; by right|]. intros [x v'] [n Ev]. cbn in Ev. subst v'.
    eapply tuned_keep; [done|wf_step W|done..].
  - by apply (reset_tuned w).
Qed.

Lemma session_may bad ks w v :
  tuned w v -> calls_ok w ks -> bad BadConversion -> bad IntOverflow ->
  may bad (session ks v) (fun r => wf r.2).
Proof.
  intros T Hk Hb1 Hb2. revert w v T Hk. induction ks as [|k ks IH]; intros w v T Hk; [apply T|].
  destruct Hk as [Hk Hks]. cbn [session]. eapply may_bind; [by eapply run_call_may|].
  intros [xs v1] T1. eapply may_bind; [by eapply IH|]. by intros [ys v2] W2.
Qed.

(** ** The interpolation of the coefficients *)

(** the coefficients in use, the ones the interpolation leads to, and the
    increments *)
Definition coef (v : t F) (k : nat) : F := at_ (c v) 0 k.
Definition target (v : t F) (k : nat) : F := at_ (c v) (cc v) k.
Definition increment (v : t F) (k : nat) : F := at_ (c v) (inc v) k.

(** a loop that computes the [m + 1] values at [p] one by one from parts of the
    memory it does not write *)
Lemma fill_loop (mem0 : list F) (n p : Z) (body : Z -> list F -> Res (list F)) (val : nat -> F) :
  0 <= n -> 0 <= p -> p + n < zlen mem0 ->
  (forall k mem, Z.of_nat k <= n -> footprint p (p + n + 1) mem0 mem ->
     at_ mem p k = at_ mem0 p k ->
     body (Z.of_nat k) mem = wr mem (p + Z.of_nat k) (val k)) ->
  yields (for_up 0 (n + 1) body mem0) (fun mem => footprint p (p + n + 1) mem0 mem /\
    forall k : nat, Z.of_nat k <= n -> at_ mem p k = val k).
Proof.
  intros Hn Hp Hl Hb.
  eapply yields_mono; [apply (for_up_yields (fun i mem => footprint p (p + n + 1) mem0 mem /\
    forall k : nat, Z.of_nat k <= n ->
      at_ mem p k = if bool_decide (Z.of_nat k < i) then val k else at_ mem0 p k))|].
  - lia.
  - split; [reflexivity|]. intros k _. by rewrite bool_decide_eq_false_2 by lia.
  - intros i mem Hi [Hf Hk]. destruct (Z_of_nat_complete i) as [j ->]; [lia|].
    pose proof (footprint_len _ _ _ _ Hf).
    rewrite Hb; [|lia|done|by rewrite Hk, bool_decide_eq_false_2 by lia].
    destruct (footprint_wr p (p + n + 1) mem0 mem (p + Z.of_nat j) (val j)) as (mem' & E & Hf');
      [done|lia|lia|].
    exists mem'. split; [done|]. split; [done|]. apply wr_inv in E as [_ ->].
    intros k Hkn. rewrite at_insert, Hk by lia. repeat case_bool_decide; try done; try lia.
    by replace k with j by lia.
  - intros mem [Hf Hk]. split; [done|]. intros k Hkn.
    by rewrite Hk, bool_decide_eq_true_2 by lia.
Qed.

Lemma rd_at0 (mem : list F) (k : nat) :
  Z.of_nat k < zlen mem -> rd mem (Z.of_nat k) = Ok (at_ mem 0 k).
Proof. intros. apply (rd_at mem 0 k); lia. Qed.

Lemma interpolate_spec v mem :
  wf v -> zlen mem = csize v ->
  yields (interpolate v mem) (fun mem' => footprint 0 (m v + 1) mem mem' /\
    forall k : nat, Z.of_nat k <= m v -> at_ mem' 0 k = (at_ mem 0 k + at_ mem (inc v) k)%num).
Proof.
  intros [] L. unfold mlsadf_size in *. change defaultPadeOrder with 5 in *.
  apply (fill_loop mem (m v) 0); [lia..|]. intros k mem1 Hk Hf Hk1.
  pose proof (footprint_len _ _ _ _ Hf).
  rewrite <-Hk1, <-(footprint_at _ _ _ _ (inc v) k Hf) by lia.
  rewrite rd_at0, bind_Ok by lia. rewrite rd_at, bind_Ok by lia. done.
Qed.

Lemma set_increments_spec v mem :
  wf v -> zlen mem = csize v ->
  yields (set_increments v mem) (fun mem' => footprint (inc v) (d v) mem mem' /\
    forall k : nat, Z.of_nat k <= m v -> at_ mem' (inc v) k
      = ((at_ mem (cc v) k - at_ mem 0 k) * nZ (iprd v) / nZ (fprd v))%num).
Proof.
  intros [] L. unfold mlsadf_size in *. change defaultPadeOrder with 5 in *.
  replace (d v) with (inc v + m v + 1) by lia.
  apply (fill_loop mem (m v) (inc v)); [lia..|]. intros k mem1 Hk Hf Hk1.
  pose proof (footprint_len _ _ _ _ Hf).
  rewrite <-(footprint_at _ _ _ _ 0 k Hf), <-(footprint_at _ _ _ _ (cc v) k Hf) by lia.
  rewrite rd_at, bind_Ok by lia. rewrite rd_at0, bind_Ok by lia. done.
Qed.

(** a pop moves the coefficients by the increments until the frame period is
    over, and leaves the target and the increments alone *)
Definition after_pop (v v' : t F) : Prop :=
  wf v' /\ nOfPopSinceLastPush v' = nOfPopSinceLastPush v + 1 /\
  (m v', cc v', inc v', fprd v', iprd v') = (m v, cc v, inc v, fprd v, iprd v) /\
  forall k : nat, Z.of_nat k <= m v ->
    target v' k = target v k /\ increment v' k = increment v k /\
    coef v' k = if nOfPopSinceLastPush v <? Z.quot (fprd v) (iprd v)
                then (coef v k + increment v k)%num else coef v k.

Lemma pop_coefs noise v x v' : wf v -> pop noise v = Ok (x, v') -> after_pop v v'.
Proof.
  intros W E.
  pose proof (pop_may (fun _ => True) noise v W ltac:(auto) ltac:(auto)) as W'. rewrite E in W'.
  unfold pop in E. apply bind_inv_Ok in E as ([x1 v1] & E1 & E).
  assert (exists n, v1 = v <| count := n |>) as [n ->].
  { unfold excite in E1. destruct (voiced v); [destruct (count v <=? 0)|]; res_inv; by eexists. }
  clear E1. set (v1 := v <| count := n |>) in *.
  assert (W1 : wf v1) by (subst v1; wf_step W).
  apply bind_inv_Ok in E as ([y mem] & E2 & E).
  destruct (filter_foot v1 x1 W1) as (r & E2' & Hf). rewrite E2 in E2'.
  injection E2' as <-. cbn [snd] in Hf. apply bind_inv_Ok in E as ([] & _ & E).
  apply bind_inv_Ok in E as (mem' & E3 & E). apply bind_inv_Ok in E as (k & E4 & E).
  apply i32_inv in E4 as [-> _]. injection E as <- <-.
  pose proof (footprint_len _ _ _ _ Hf) as L. pose proof W1 as [].
  unfold mlsadf_size in *. change defaultPadeOrder with 5 in *.
  split; [exact W'|]. split; [done|]. split; [done|]. intros k Hk.
  assert (Hold : forall p, 0 <= p -> p + Z.of_nat k < d v1 -> at_ mem p k = at_ (c v) p k)
    by (intros; apply (footprint_at _ _ _ _ _ _ Hf); lia).
  change (nOfPopSinceLastPush v1) with (nOfPopSinceLastPush v) in *.
  change (fprd v1) with (fprd v) in *. change (iprd v1) with (iprd v) in *.
  change (m v1) with (m v) in *. change (cc v1) with (cc v) in *.
  change (inc v1) with (inc v) in *. change (c v1) with (c v) in *.
  unfold target, increment, coef. cbn [c cc inc set_field].
  destruct (_ <? _).
  - destruct (interpolate_spec v1 mem W1) as (mem2 & E5 & Hf2 & Hc); [lia|].
    rewrite E3 in E5. injection E5 as <-. cbn.
    rewrite (footprint_at _ _ _ _ (cc v) k Hf2), (footprint_at _ _ _ _ (inc v) k Hf2) by
      (change (m v1) with (m v); lia).
    rewrite Hc by done. change (inc v1) with (inc v). rewrite !Hold by lia. done.
  - injection E3 as <-. cbn. rewrite !Hold by lia. done.
Qed.

Fixpoint pops (noises : list F) (v : t F) : Res (list F * t F) :=
  match noises with
  | [] => Ok ([], v)
  | noise :: noises =>
      '(x, v) ← pop noise v; '(xs, v) ← pops noises v; Ok (x :: xs, v)
  end.

(** a frame sets the target to its coefficients, and the increments to the
    steps that lead to it *)
Definition after_push (v v' : t F) (mgc : list F) : Prop :=
  wf v' /\ nOfPopSinceLastPush v' = 0 /\ (m v', fprd v', iprd v') = (m v, fprd v, iprd v) /\
  is_b_of mgc (m v) (alpha v) (fun k => c v' !! (Z.to_nat (cc v') + k)%nat) /\
  forall k : nat, Z.of_nat k <= m v ->
    increment v' k = ((target v' k - coef v' k) * nZ (iprd v) / nZ (fprd v))%num /\
    coef v' k = if flagFirstPush v then target v' k else target v k.

Lemma is_b_of_ext mc m' (a : F) get get' :
  0 <= m' -> (forall k : nat, Z.of_nat k <= m' -> get' k = get k) ->
  is_b_of mc m' a get -> is_b_of mc m' a get'.
Proof.
  intros Hm E [Hl Hk]. split; [by rewrite E by lia|]. intros k Hkm.
  destruct (Hk k Hkm) as (x & y & ? & ? & ?). exists x, y. by rewrite !E by lia.
Qed.

Lemma set_target_spec v mgc :
  wf v -> stage v = 0 -> m v < zlen mgc ->
  yields (set_target v mgc) (fun r =>
    is_b_of mgc (m v) (alpha v) (fun k => r.1 !! (Z.to_nat (cc v) + k)%nat) /\
    forall k : nat, Z.of_nat k <= m v -> at_ r.1 0 k
      = if flagFirstPush v then at_ r.1 (cc v) k else target v k).
Proof.
  intros W Hs Hg. pose proof W as []. unfold set_target, mlsadf_size in *.
  change defaultPadeOrder with 5 in *. destruct (flagFirstPush v) eqn:Ef; cbn [negb].
  - unfold load. cbn [stage m alpha c cc set_field eta_vocoder]. rewrite Hs. cbn [Z.eqb negb].
    destruct (mc2b_spec mgc (c v) 0 (m v) (alpha v)) as (mem & E & Hf & Hb); [lia..|].
    pose proof (footprint_len _ _ _ _ Hf).
    assert (G : yields (for_up 0 (m v + 1) (fun i mem => x ← rd mem i; wr mem (cc v + i) x) mem)
      (fun mem' => footprint (cc v) (cc v + m v + 1) mem mem' /\
         forall k : nat, Z.of_nat k <= m v -> at_ mem' (cc v) k = at_ mem 0 k)).
    { apply fill_loop; [lia..|]. intros k mem1 Hk Hf1 _.
      pose proof (footprint_len _ _ _ _ Hf1). rewrite rd_at0, bind_Ok by lia.
      by rewrite (footprint_at _ _ _ _ 0 k Hf1) by lia. }
    destruct G as (mem' & E' & Hf' & Hc).
    exists (mem', v <| flagFirstPush := false |>). split.
    { by rewrite E, !bind_Ok, E'. }
    cbn [fst]. split.
    + eapply is_b_of_ext; [lia| |exact Hb]. intros k Hk. cbn beta.
      pose proof (Hc k Hk) as Hck. unfold at_ in Hck.
      destruct (lookup_lt_is_Some_2 mem' (Z.to_nat (cc v) + k)) as [a Ea];
        [pose proof (footprint_len _ _ _ _ Hf'); unfold zlen in *; lia|].
      destruct (lookup_lt_is_Some_2 mem (Z.to_nat 0 + k)) as [a' Ea'];
        [unfold zlen in *; lia|].
      rewrite Ea, Ea' in *. cbn in Hck. by subst.
    + intros k Hk. by rewrite (footprint_at _ _ _ _ 0 k Hf'), Hc by lia.
  - destruct (movem_moved (c v) (cc v) 0 (m v + 1)) as (mem & E & L & Mv); [lia..|].
    unfold load. rewrite Hs. cbn [Z.eqb negb].
    destruct (mc2b_spec mgc mem (cc v) (m v) (alpha v)) as (mem' & E' & Hf & Hb); [lia..|].
    exists (mem', v). split; [by rewrite E, bind_Ok, E', !bind_Ok|]. cbn [fst].
    split; [exact Hb|]. intros k Hk. rewrite (footprint_at _ _ _ _ 0 k Hf) by lia.
    unfold target, at_. rewrite Mv, bool_decide_eq_true_2 by lia. do 2 f_equal. lia.
Qed.

Lemma prepare_after_push v fr fv ign mgc v' :
  wf v -> stage v = 0 -> frame_ok v fr -> fr !! Z.to_nat mgcStreamIndex = Some mgc ->
  prepare v fr fv ign = Ok v' -> after_push v v' mgc.
Proof.
  intros W Hs Hfr Eg E. destruct (prepare_yields v fr fv ign W Hfr) as (v2 & E' & W' & Hn & _).
  rewrite E in E'. injection E' as <-. destruct Hfr as (mgc' & _ & _ & Eg' & _ & Hg & _).
  rewrite Eg in Eg'. injection Eg' as <-.
  unfold prepare in E. rewrite (rd_ok fr mgcStreamIndex mgc), bind_Ok in E by done.
  apply bind_inv_Ok in E as (lf0 & _ & E). apply bind_inv_Ok in E as ([mem v1] & E1 & E).
  destruct (set_target_foot v mgc W Hg) as (r & E2 & Hf & Hv). rewrite E1 in E2.
  injection E2 as <-. destruct (set_target_spec v mgc W Hs Hg) as (r & E2 & Hb & Hc).
  rewrite E1 in E2. injection E2 as <-. cbn [fst snd] in *. subst v1.
  set (v1 := v <| flagFirstPush := false |>) in *.
  assert (W1 : wf v1) by (subst v1; wf_step W).
  apply bind_inv_Ok in E as (mem2 & E2 & E).
  pose proof (footprint_len _ _ _ _ Hf) as L. pose proof W as [].
  destruct (set_increments_spec v1 mem W1) as (mem2' & E2' & Hf2 & Hi); [cbn; lia|].
  rewrite E2 in E2'. injection E2' as <-.
  apply bind_inv_Ok in E as (f & _ & E). apply bind_inv_Ok in E as (f0' & _ & E).
  injection E as E. change (m v1) with (m v) in *. change (cc v1) with (cc v) in *.
  change (inc v1) with (inc v) in *. change (fprd v1) with (fprd v) in *.
  change (iprd v1) with (iprd v) in *. change (d v1) with (d v) in *.
  assert (c v' = mem2 /\ (m v', cc v', inc v', fprd v', iprd v') = (m v, cc v, inc v, fprd v, iprd v))
    as [Ec [= Em Ecc Einc Efp Eip]].
  { subst v'. unfold update_period. by destruct (negb ign), (_ <? _)%num. }
  unfold after_push, increment, target, coef. rewrite Ec, Em, Ecc, Einc, Efp, Eip.
  split; [done|]. split; [done|]. split; [done|]. split.
  - eapply is_b_of_ext; [lia| |exact Hb]. intros k Hk. destruct Hf2 as [_ Hf2].
    apply Hf2. lia.
  - intros k Hk. rewrite Hi by done.
    rewrite !(footprint_at _ _ _ _ (cc v) k Hf2), !(footprint_at _ _ _ _ 0 k Hf2) by lia.
    split; [done|]. by apply Hc.
Qed.

(** C16: the vocoder as the library makes it never leaves its allocation or the
    Pade table: any sequence of its public calls (frames, samples, excitations,
    resets, setters), in which the Pade order is set to 0 to 5, the number of
    MGLSA stages (setGamma) to 0 to 5, and to more than 0 only once [gamma] was
    written by a reset or by getGamma, runs to its end, unless a conversion of
    the period to [int] is undefined or [nOfPopSinceLastPush] overflows; and the
    invariant holds at the end.  The setters themselves check no range. *)
Theorem session_in_bounds ks :
  calls_ok false ks ->
  exists v, create_default = Ok v /\ wf v /\
    may (fun e => e = BadConversion \/ e = IntOverflow) (session ks v) (fun r => wf r.2).
Proof.
  intros Hk. destruct create_default as [v| | |] eqn:E; try done.
  assert (W : wf v) by (eapply vocoder_create_wf; [| | |exact E]; done).
  exists v. split; [done|]. split; [done|]. apply (session_may _ ks false); auto.
  apply Ok_inj in E. subst v. by split.
Qed.

(** ** A Pade order outside the table *)

Lemma table_overrun pade pp x b (a : F) pd' d' mem :
  1 <= pd' -> zlen pade <= pp + pd' ->
  mlsadf1 pade pp x b a pd' d' mem = Undef OutOfBounds.
Proof.
  intros Hp Hl. unfold mlsadf1. cbn zeta. unfold for_down.
  replace (Z.to_nat (pd' - 1 + 1)) with (S (Z.to_nat (pd' - 1))) by lia. cbn [loop_down].
  repeat match goal with
  | |- context [rd mem ?i] =>
      destruct (decide (0 <= i < zlen mem));
        [destruct (yields_rd mem i) as (? & -> & _); [done|]
        |by rewrite (rd_oob mem i)]
  end.
  cbn [mbind Res_bind].
  match goal with |- context [wr mem ?i ?v] =>
    destruct (decide (0 <= i < zlen mem)); [rewrite (wr_ok mem i v) by done|by rewrite wr_oob] end.
  cbn [mbind Res_bind].
  match goal with |- context [rd ?l ?i] =>
    destruct (yields_rd l i) as (? & -> & _); [by rewrite zlen_insert|] end.
  cbn [mbind Res_bind].
  match goal with |- context [rd ?l (b + 1)] =>
    destruct (decide (0 <= b + 1 < zlen l)) as [Hb|Hb];
      [destruct (yields_rd l (b + 1) Hb) as (? & -> & _)|by rewrite (rd_oob l (b + 1) Hb)] end.
  cbn [mbind Res_bind].
  match goal with |- context [wr ?l ?i ?v] =>
    destruct (decide (0 <= i < zlen l)); [rewrite (wr_ok l i v) by done|by rewrite (wr_oob l i)] end.
  cbn [mbind Res_bind].
  match goal with |- context [rd ?l ?i ≫= _] =>
    destruct (yields_rd l i) as (? & -> & _); [by rewrite zlen_insert|] end.
  cbn [mbind Res_bind]. by rewrite (rd_oob pade) by lia.
Qed.

(** The setter accepts any Pade order, but the table of coefficients ends
    at order 5: above it, every sample read from the vocoder is read out of
    the table. *)
Theorem pade_order_overruns v x p noise s v2 :
  zlen (padesptk v) = 21 -> stage v = 0 -> 0 < zlen (c v) ->
  to_int x = Ok p -> 6 <= p ->
  setPadeOrder v x = Ok v2 -> excite noise v2 = Ok s ->
  pop noise v2 = Undef OutOfBounds.
Proof.
  intros Ht Hs Hc Ex Hp E2 E. unfold setPadeOrder in E2. rewrite Ex in E2.
  injection E2 as <-. unfold pop. rewrite E, bind_Ok.
  destruct s as [y v1]. assert (exists n, v1 = v <| pd := p |> <| count := n |>) as [n ->].
  { unfold excite in E.
    destruct (voiced _); [destruct (_ <=? 0)|]; res_inv; by eexists. }
  set (v1 := v <| pd := p |> <| count := n |>).
  destruct (yields_rd (c v1) 0) as (c0 & E0 & _); [cbn; lia|].
  unfold filter. rewrite E0, bind_Ok. change (stage v1) with (stage v).
  rewrite Hs. cbn [Z.eqb negb]. cbn zeta.
  unfold mlsadf. cbn zeta. change (pd v1) with p. change (padesptk v1) with (padesptk v).
  rewrite table_overrun; [done|lia|].
  rewrite Ht. unfold pade_row. rewrite Z.quot_div_nonneg by nia.
  assert (21 <= p * (p + 1) / 2) by (apply Z.div_le_lower_bound; nia). lia.
Qed.

(** ** The pulse train *)

Fixpoint excites (noises : list F) (v : t F) : Res (list F * t F) :=
  match noises with
  | [] => Ok ([], v)
  | noise :: noises =>
      '(x, v) ← excite noise v; '(xs, v) ← excites noises v; Ok (x :: xs, v)
  end.

Lemma excites_app ns1 ns2 v xs v1 :
  excites ns1 v = Ok (xs, v1) ->
  excites (ns1 ++ ns2) v = ('(ys, v2) ← excites ns2 v1; Ok (xs ++ ys, v2)).
Proof.
  revert v xs. induction ns1 as [|n ns1 IH]; intros v xs E; cbn [app excites] in *.
  { injection E as <- <-. by destruct (excites ns2 v) as [[]| | |]. }
  apply bind_inv_Ok in E as ([x v2] & -> & E). apply bind_inv_Ok in E as ([ys v3] & E & E').
  injection E' as <- <-. rewrite bind_Ok, (IH v2 ys) by done.
  by destruct (excites ns2 v3) as [[]| | |].
Qed.

Lemma excites_silence noises v :
  voiced v = true -> count v = zlen noises ->
  excites noises v = Ok (replicate (length noises) (nZ 0), v <| count := 0 |>).
Proof.
  revert v. induction noises as [|n noises IH]; intros v Hv Hc.
  { unfold zlen in Hc. cbn in *. destruct v; cbn in *. by subst. }
  cbn [excites]. unfold excite. rewrite Hv. unfold zlen in Hc. cbn [length] in Hc.
  zbool. rewrite (IH (v <| count := count v - 1 |>)); [done|done|].
  unfold zlen. cbn. lia.
Qed.

Lemma pulse_once noises v n :
  voiced v = true -> count v = 0 -> to_int (t0 v) = Ok n -> 0 <= n ->
  zlen noises = n + 1 ->
  excites noises v = Ok (nsqrt (t0 v) :: replicate (Z.to_nat n) (nZ 0), v).
Proof.
  intros Hv Hc Hn Hn0 Hl. destruct noises as [|x noises]; [unfold zlen in Hl; cbn in Hl; lia|].
  cbn [excites]. unfold excite. rewrite Hv, Hc. cbn [Z.leb Z.compare]. rewrite Hn, !bind_Ok.
  assert (zlen noises = n) as L by (unfold zlen in *; cbn in Hl; lia).
  rewrite excites_silence by done. rewrite bind_Ok.
  replace (length noises) with (Z.to_nat n) by (unfold zlen in L; lia).
  do 2 f_equal. destruct v; cbn in *. by subst.
Qed.

(** C37: a voiced excitation is a train of pulses of height sqrt( t0 ), one
    every trunc( t0 ) + 1 samples, with silence between. *)
Theorem pulse_period v n k noises :
  voiced v = true -> count v = 0 -> to_int (t0 v) = Ok n -> 0 <= n ->
  zlen noises = Z.of_nat k * (n + 1) ->
  excites noises v
  = Ok (concat (replicate k (nsqrt (t0 v) :: replicate (Z.to_nat n) (nZ 0))), v).
Proof.
  intros Hv Hc Hn Hn0. revert noises. induction k as [|k IH]; intros noises Hl.
  { destruct noises; [done|]. unfold zlen in Hl. simpl in Hl. lia. }
  rewrite <-(take_drop (Z.to_nat (n + 1)) noises).
  rewrite (excites_app _ _ v (nsqrt (t0 v) :: replicate (Z.to_nat n) (nZ 0)) v).
  - rewrite IH by (rewrite zlen_drop; lia). done.
  - apply pulse_once; try done. rewrite zlen_take. lia.
Qed.

(** ** Pops without a frame *)

Lemma pops_count noises (v : t F) xs v' :
  wf v -> pops noises v = Ok (xs, v') ->
  wf v' /\ nOfPopSinceLastPush v' = nOfPopSinceLastPush v + zlen noises.
Proof.
  revert v xs. induction noises as [|noise noises IH]; intros v xs W E; cbn [pops] in E.
  { injection E as _ <-. split; [done|]. unfold zlen. cbn. lia. }
  apply bind_inv_Ok in E as ([x v1] & E1 & E). apply bind_inv_Ok in E as ([ys v2] & E2 & E).
  injection E as _ <-. destruct (pop_coefs _ _ _ _ W E1) as (W1 & N1 & _).
  destruct (IH _ _ W1 E2) as [W2 N2]. split; [done|]. rewrite zlen_cons. lia.
Qed.

(** The samples are counted from the last frame on, and nothing else bounds the
    count: once no label is left, 2^31 samples of silence (12 hours and a half at
    48 kHz) have no defined result. *)
Theorem silence_overflows noises (v : t F) :
  wf v -> 2 ^ 31 <= nOfPopSinceLastPush v + zlen noises -> is_ok (pops noises v) = false.
Proof.
  intros W L. destruct (pops noises v) as [[xs v']| | |] eqn:E; try done.
  destruct (pops_count _ _ _ _ W E) as [W' N]. pose proof (wf_pops _ W'). lia.
Qed.

End Vocoder.

(** ** Exact arithmetic *)

Section Exact.
Context {F : Type} `{NumField F}.
Add Field vocoder_field : num_field.

(** the number of increments applied from [n] pops on *)
Lemma pops_coefs noises (v : t F) xs v' :
  wf v -> pops noises v = Ok (xs, v') ->
  let q := Z.quot (fprd v) (iprd v) in
  let n := nOfPopSinceLastPush v in
  wf v' /\ m v' = m v /\ nOfPopSinceLastPush v' = n + zlen noises /\
  forall k : nat, Z.of_nat k <= m v ->
    target v' k = target v k /\ coef v' k = (coef v k
      + nZ (Z.min (Z.max n q) (n + zlen noises) - n) * increment v k)%num.
Proof.
  revert v xs. induction noises as [|x0 noises IH]; intros v xs W E; cbn zeta.
  - injection E as _ <-. split; [done|]. split; [done|]. split; [by unfold zlen; simpl; lia|].
    intros k Hk. split; [done|].
    replace (Z.min _ _ - _) with 0 by (unfold zlen; simpl; lia). ring.
  - cbn [pops] in E. apply bind_inv_Ok in E as ([x v1] & E1 & E).
    apply bind_inv_Ok in E as ([ys v2] & E2 & E). injection E as _ <-.
    destruct (pop_coefs _ _ _ _ W E1) as (W1 & Hn1 & [= Em Ecc Einc Efp Eip] & Hk1).
    destruct (IH v1 ys W1 E2) as (W2 & Hm2 & Hn2 & Hk2).
    assert (L : zlen (x0 :: noises) = 1 + zlen noises) by (unfold zlen; simpl; lia).
    pose proof (zlen_nonneg noises).
    split; [done|]. split; [congruence|]. split; [lia|]. intros k Hk.
    destruct (Hk2 k) as [Ht2 Hc2]; [lia|]. destruct (Hk1 k Hk) as (Ht1 & Hi1 & Hc1).
    split; [congruence|]. rewrite Hc2, Hi1, Hc1, Efp, Eip, Hn1, L.
    set (q := Z.quot (fprd v) (iprd v)) in *. set (n := nOfPopSinceLastPush v) in *.
    case Z.ltb_spec; intros Hq.
    + replace (Z.min (Z.max n q) (n + (1 + zlen noises)) - n)
        with (1 + (Z.min (Z.max (n + 1) q) (n + 1 + zlen noises) - (n + 1))) by lia.
      rewrite nZ_add. ring.
    + replace (Z.min (Z.max n q) (n + (1 + zlen noises)) - n) with 0 by lia.
      replace (Z.min (Z.max (n + 1) q) (n + 1 + zlen noises) - (n + 1)) with 0 by lia. ring.
Qed.

Lemma steps_reach (x y : F) (i p q : Z) :
  p <> 0 -> p = q * i -> (x + nZ q * ((y - x) * nZ i / nZ p))%num = y.
Proof.
  intros Hp ->. assert (nZ (q * i) <> nZ 0 :> F) as Hn by by apply nZ_0_neq.
  rewrite nZ_mul in *. field. split; intros E; apply Hn; rewrite E; ring.
Qed.

(** C26: on exact numbers, the interpolation of an MLSA vocoder (stage 0) ends on
    the frame: after a push, as soon as a frame period of samples, a multiple of
    the interpolation period, has been popped (and for as long as no other frame
    is pushed), the filter runs with the coefficients of the pushed frame. *)
Theorem interpolation_reaches_frame v fr fv ign mgc v1 noises xs v2 q :
  wf v -> stage v = 0 -> frame_ok v fr -> fr !! Z.to_nat mgcStreamIndex = Some mgc ->
  0 < q -> fprd v = q * iprd v ->
  prepare v fr fv ign = Ok v1 -> pops noises v1 = Ok (xs, v2) -> q <= zlen noises ->
  forall k : nat, Z.of_nat k <= m v ->
    mgc !! k = Some (if bool_decide (Z.of_nat k < m v)
                     then coef v2 k + alpha v * coef v2 (S k) else coef v2 k)%num.
Proof.
  intros W Hs Hfr Eg Hq Hqp E1 E2 Hn k Hk.
  destruct (prepare_after_push _ _ _ _ _ _ W Hs Hfr Eg E1)
    as (W1 & Hn1 & [= Em Efp Eip] & Hb & Hp).
  destruct (pops_coefs _ _ _ _ W1 E2) as (_ & _ & _ & Hc). rewrite Hn1, Em, Efp, Eip in Hc.
  pose proof (wf_iprd _ W). assert (Z.quot (fprd v) (iprd v) = q) as Eq
    by (rewrite Hqp; apply Z.quot_mul; done). rewrite Eq in Hc.
  replace (Z.min _ _ - _) with q in Hc by lia.
  assert (R : forall k : nat, Z.of_nat k <= m v -> coef v2 k = target v1 k).
  { intros j Hj. destruct (Hc j Hj) as [_ ->]. destruct (Hp j Hj) as [-> _].
    apply steps_reach; [nia|done]. }
  destruct Hb as [Hlast Hb]. case_bool_decide.
  - destruct (Hb k) as (x & y & -> & Ey & Ex); [lia|].
    rewrite !R by lia. unfold target. rewrite (at_lookup _ _ _ _ Ex), (at_lookup _ _ _ _ Ey).
    f_equal. ring.
  - assert (Z.to_nat (m v) = k) as Ek by lia. rewrite Ek in Hlast.
    rewrite R by lia. unfold target, at_. rewrite <-Hlast.
    destruct Hfr as (mgc' & ? & ? & Eg' & _ & Hg & _). rewrite Eg in Eg'. injection Eg' as <-.
    destruct (lookup_lt_is_Some_2 mgc k) as [z Ez]; [unfold zlen in *; lia|].
    rewrite Hlast, Ez. done.
Qed.

End Exact.

(** ** Concrete runs *)

Section Runs.
#[local] Existing Instance no_libm.

Definition ex_frame (mgc lf0 : double) : frame double :=
  mkFrame [replicate 105 mgc; replicate 105 lf0; replicate 105 (nZ 0)] true.

Definition ex_calls : list call :=
  [Push (ex_frame (nZ 1) (nZ 120)) false; Pop (nZ 0); SetPadeOrder (nZ 3);
   SetPitch (nZ 2) scale true; Push (ex_frame (nZ 2) (nZ 130)) true; Pop (nZ 0); Reset;
   SetGamma (nZ 3); Push (ex_frame (nZ 1) (nZ 120)) false; Pop (nZ 0); GetGamma; Excite (nZ 0)].

(** setGamma with more stages than fit: the filter leaves the allocation; before
    [gamma] is written, the coefficients of a frame are computed from it *)
Lemma gamma_overruns :
  (v ← create_default; v ← setGamma v (nZ 6 : double); pop (nZ 0) v) = Undef OutOfBounds /\
  (v ← create_default; v ← setGamma v (nZ 1); push v (ex_frame (nZ 1) (nZ 120)) false)
    = Undef Uninitialised.
Proof. split; vm_compute; reflexivity. Qed.

(** a pitch of 0 is kept, so the period is infinite *)
Lemma zero_pitch_undefined :
  (v ← create_default; excite (nZ 0) (setPitch v (nZ 0 : double) overwrite true)) = Undef BadConversion.
Proof. vm_compute. reflexivity. Qed.

Lemma session_in_bounds_witness :
  calls_ok false ex_calls /\
  exists v, create_default = Ok v /\ wf v /\
    may (fun e => e = BadConversion \/ e = IntOverflow) (session ex_calls v) (fun r => wf r.2).
Proof.
  assert (Hk : calls_ok false ex_calls).
  { repeat constructor; exists 3; [by split|]. split; [done|]. split; [done|by right]. }
  split; [exact Hk|]. exact (session_in_bounds ex_calls Hk).
Defined.

(** 100 Hz at 48 kHz: a pulse every 481 samples *)
Definition ex_voiced : t double :=
  match create_default with Ok v => setPitch v (nZ 100) overwrite true | _ =>
    mk (nZ 0) None 0 true (nZ 0) (nZ 0) (nZ 0) [] 0 0 0 0 0 0 0 0 0 true true 0 None 0 [] end.

Lemma pulse_period_witness :
  excites (replicate 962 (nZ 0)) ex_voiced
  = Ok (concat (replicate 2 (nsqrt (t0 ex_voiced) :: replicate 480 (nZ 0))), ex_voiced).
Proof.
  refine (pulse_period (F:=double) ex_voiced 480 2 (replicate 962 (nZ 0)) _ _ _ _ _); by_run.
Defined.

Lemma pade_order_overruns_witness :
  exists v2, setPadeOrder ex_voiced (nZ 6) = Ok v2 /\ pop (nZ 0) v2 = Undef OutOfBounds.
Proof.
  eexists. split; [vm_compute; reflexivity|].
  refine (pade_order_overruns (F:=double) ex_voiced (nZ 6) 6 (nZ 0) _ _ _ _ _ _ _ _ _);
    vm_compute; try reflexivity; discriminate.
Defined.
End Runs.

Section ExactRuns.
#[local] Existing Instance no_qlibm.

Lemma interpolation_reaches_frame_witness :
  exists (v v1 v2 : t Qc) xs,
    create 1 (ndec 5 (-1)) 2 1 0 5 false = Ok v /\
    prepare v [[nZ 3; nZ 2]; [nZ 120]] true true = Ok v1 /\
    pops [nZ 1; nZ 1; nZ 1] v1 = Ok (xs, v2) /\
    forall k : nat, Z.of_nat k <= m v -> [nZ 3; nZ 2] !! k
      = Some (if bool_decide (Z.of_nat k < m v)
              then coef v2 k + alpha v * coef v2 (S k) else coef v2 k)%num.
Proof.
  destruct (create (F:=Qc) 1 (ndec 5 (-1)) 2 1 0 5 false) as [v| | |] eqn:Ev; try discriminate Ev.
  assert (W : wf v) by (eapply vocoder_create_wf; [| | |exact Ev]; done).
  injection Ev as <-. set (v := mk _ _ _ _ _ _ _ _ _ _ _ _ _ _ _ _ _ _ _ _ _ _ _) in *.
  assert (Hfr : frame_ok v [[nZ 3; nZ 2]; [nZ 120]]).
  { exists [nZ 3; nZ 2], [nZ 120], (nZ 120). done. }
  destruct (is_ok_inv (v1 ← prepare v [[nZ 3; nZ 2]; [nZ 120]] true true;
                       pops [nZ 1; nZ 1; nZ 1] v1)) as [[xs v2] E]; [vm_compute; reflexivity|].
  apply bind_inv_Ok in E as (v1 & E1 & E2).
  exists v, v1, v2, xs. split; [done|]. split; [exact E1|]. split; [exact E2|].
  apply (interpolation_reaches_frame (F:=Qc) v [[nZ 3; nZ 2]; [nZ 120]] true true
           [nZ 3; nZ 2] v1 [nZ 1; nZ 1; nZ 1] xs v2 2); done.
Defined.
End ExactRuns.
End Vocoder.
