(* ===== verification/PsolaVocoder.v ===== *)
(** * The PSOLA vocoder (mage/src/PsolaVocoder.cpp, PsolaVocoder.h)

    A vocoder derived from [Vocoder] that overlaps and adds windows of two
    periods into a ring of excitation samples before it filters them.  The
    accumulated excitation is compared with the plain one of the base class:
    it is the same pulse train, one buffer length later. *)

From Stdlib Require Import Field Qcanon.
From S2P Require Import Prelude Num Constants Filters Vocoder.
#[local] Open Scope Z_scope.
Import Filters.

Module PsolaVocoder.

Definition PSOLA_MAX_T0 : Z := 512 * 4.
Definition PSOLA_MAX_OUT_BUFFER_LENGTH : Z := 16 * PSOLA_MAX_T0.
Definition PSOLA_FRAMEQUEUE_LENGTH : Z := 64.

Ltac ring_consts :=
  assert (PSOLA_MAX_OUT_BUFFER_LENGTH = 32768) by done; assert (PSOLA_MAX_T0 = 2048) by done.

(** ** State *)

(** the members that hide those of [Vocoder] ([c], [inc], [cc], [d]) and the
    new ones; [head_s], [n_s] and [hopCount] are never read *)
Record t (F : Type) := mk {
  base : Vocoder.t F;
  c : list (list F);
  inc : list (list F);
  cc : option (list F);        (* None: never written *)
  d : list F;
  head_c : Z;
  tail_c : Z;
  pulse : list F;
  source : list F;
  tail_s : Z;
  p_s : Z;
  hopLen : list Z;             (* std::queue, front first *)
  countInitPop : Z;
  errorT0 : F
}.
Arguments mk {F}. Arguments base {F}. Arguments c {F}. Arguments inc {F}.
Arguments cc {F}. Arguments d {F}. Arguments head_c {F}. Arguments tail_c {F}.
Arguments pulse {F}. Arguments source {F}. Arguments tail_s {F}. Arguments p_s {F}.
Arguments hopLen {F}. Arguments countInitPop {F}. Arguments errorT0 {F}.

#[global] Instance eta_psola F : Settable (t F) := fun v =>
  mk (base v) (c v) (inc v) (cc v) (d v) (head_c v) (tail_c v) (pulse v) (source v)
     (tail_s v) (p_s v) (hopLen v) (countInitPop v) (errorT0 v).

Section PsolaVocoder.
Context {F : Type} `{NumOps F}.
#[local] Open Scope num_scope.
#[local] Open Scope Z_scope.

(** a negative order makes [resize] throw, which nothing catches *)
Definition create (am : Z) (aalpha : F) (afprd aiprd astage apd : Z) (angain : bool)
    : Res (t F) :=
  v ← Vocoder.create am aalpha afprd aiprd astage apd angain;
  n ← i32 (Vocoder.m v + 1);
  if n <? 0 then Exit 134
  else
    let rows := replicate (Z.to_nat PSOLA_FRAMEQUEUE_LENGTH) (replicate (Z.to_nat n) (nZ 0)) in
    Ok (mk v rows rows None (replicate (Z.to_nat (Vocoder.csize v)) (nZ 0)) 0 0
          (replicate (Z.to_nat (2 * PSOLA_MAX_T0)) (nZ 0))
          (replicate (Z.to_nat PSOLA_MAX_OUT_BUFFER_LENGTH) (nZ 0))
          0 PSOLA_MAX_T0 [] PSOLA_MAX_T0 (nZ 0)).

Definition create_default : Res (t F) :=
  create (nOfMGCs - 1) defaultAlpha defaultFrameRate defaultInterpFrameRate
    defaultGamma defaultPadeOrder false.

(** ** Excitation *)

(** [if ( i >= v.size() ) i = 0]: the comparison is unsigned *)
Definition wrapped {A} (l : list A) (i : Z) : Z :=
  if zlen l <=? i mod 2 ^ 64 then 0 else i.

(** [for( k = lo; k < hi; k++ ) { source[ind++] = f k source[ind]; wrap }] *)
Definition sweep (lo hi : Z) (f : Z -> F -> Res F) (st : Z * list F) : Res (Z * list F) :=
  for_up lo hi (fun k '(ind, src) =>
    src ← upd src ind (f k);
    Ok (wrapped src (ind + 1), src)) st.

(** the virtual [makepulse( length )]: the window it leaves in [pulse]; a
    negative length is a huge unsigned one, which [resize] refuses *)
Definition makepulse (length : Z) : Res (list F) :=
  if length <? 0 then Exit 134 else
  let mid := length / 2 in
  wr (replicate (Z.to_nat length) (nZ 0)) mid (nsqrt (nZ mid)).

(** the window of [2 * ct0] samples is added before [p_s] and stored after it *)
Definition overlap (pulse source : list F) (p_s ct0 : Z) : Res (Z * list F) :=
  let ind := p_s - ct0 in
  let ind := if ind <? 0 then ind + zlen source else ind in
  '(ind, source) ← sweep 0 ct0 (fun k x => y ← rd pulse k; Ok (x + y)%num) (ind, source);
  '(ind, source) ← sweep ct0 (2 * ct0) (fun k _ => rd pulse k) (ind, source);
  Ok (wrapped source (ind + 1), source).

(** a noise sample ends what is left of the period *)
Definition unvoice (noise : F) (source : list F) (p_s count : Z) : Res (Z * list F) :=
  let p_s := p_s - count in
  '(_, source) ← sweep 0 (count + 1) (fun _ _ => Ok (nZ 0)) (p_s, source);
  let p_s := if p_s <? 0 then p_s + zlen source else p_s in
  source ← wr source p_s noise;
  Ok (wrapped source (p_s + 1), source).

(** [(int) (this->t0 + 0.5)], at most [PSOLA_MAX_T0] *)
Definition rounded_period (v : Vocoder.t F) : Res Z :=
  ct0 ← to_int (Vocoder.t0 v + ndec 5 (-1))%num;
  Ok (if PSOLA_MAX_T0 <? ct0 then PSOLA_MAX_T0 else ct0).

(** [noise]: the value of [MAGE::Random( -1, 1 )] *)
Definition put_sample (noise : F) (v : t F) : Res (t F) :=
  ct0 ← rounded_period (base v);
  let count := Vocoder.count (base v) in
  if Vocoder.voiced (base v) then
    if count <=? 0 then
      window ← makepulse (2 * ct0);
      '(p, src) ← overlap window (source v) (p_s v) ct0;
      Ok (v <| errorT0 := (errorT0 v + (nZ ct0 - Vocoder.t0 (base v)))%num |>
            <| pulse := window |> <| source := src |> <| p_s := p |>
            <| base := (base v) <| Vocoder.count := ct0 |> |>)
    else Ok (v <| base := (base v) <| Vocoder.count := count - 1 |> |>)
  else
    '(p, src) ← unvoice noise (source v) (p_s v) count;
    Ok (v <| source := src |> <| p_s := p |> <| base := (base v) <| Vocoder.count := 0 |> |>).

(** the sample at [tail_s] is taken and cleared *)
Definition take_sample (v : t F) : Res (F * t F) :=
  sample ← rd (source v) (tail_s v);
  src ← wr (source v) (tail_s v) (nZ 0);
  Ok (sample, v <| source := src |> <| tail_s := wrapped src (tail_s v + 1) |>).

Definition excite (noise : F) (v : t F) : Res (F * t F) :=
  v ← put_sample noise v; take_sample v.

(** ** Frames *)

(** [cc] or a row of [c] at a new frame: the base class's conversion, in an
    array of its own *)
Definition load (v : t F) (mgc row : list F) : Res (list F) :=
  Vocoder.load (base v) mgc 0 row.

(** the array [cc] points to, for code that writes all of it *)
Definition writable (cc : option (list F)) (n : Z) : list F :=
  default (replicate (Z.to_nat n) (nZ 0)) cc.

(** the coefficients of a frame and the increments that lead to them *)
Definition set_target (v : t F) (mgc : list F) : Res (t F) :=
  let b := base v in
  let m := Vocoder.m b in
  row ← rd (c v) (head_c v);
  inc_row ← rd (inc v) (head_c v);
  if negb (Vocoder.flagFirstPush b) then
    old ← Vocoder.initialised (cc v);
    row ← memcpy row 0 old 0 (m + 1);
    new ← load v mgc old;
    inc_row ← for_up 0 (m + 1) (fun i inc_row =>
      x ← rd new i; y ← rd row i;
      wr inc_row i ((x - y) * nZ (Vocoder.iprd b) / nZ (Vocoder.fprd b))%num) inc_row;
    rows ← wr (c v) (head_c v) row;
    inc_rows ← wr (inc v) (head_c v) inc_row;
    Ok (v <| cc := Some new |> <| c := rows |> <| inc := inc_rows |>
          <| head_c := wrapped rows (head_c v + 1) |>
          <| hopLen := hopLen v
               ++ [match hopLen v with [] => 0 | _ => Vocoder.nOfPopSinceLastPush b end] |>)
  else
    row ← load v mgc row;
    new ← for_up 0 (m + 1) (fun i new => x ← rd row i; wr new i x) (writable (cc v) (m + 1));
    inc_row ← for_up 0 (m + 1) (fun i inc_row => wr inc_row i (nZ 0)) inc_row;
    rows ← wr (c v) (head_c v) row;
    inc_rows ← wr (inc v) (head_c v) inc_row;
    Ok (v <| cc := Some new |> <| c := rows |> <| inc := inc_rows |>
          <| head_c := wrapped rows (head_c v + 1) |>
          <| base := b <| Vocoder.flagFirstPush := false |> |>).

(** the pitch of a frame under the pitch action *)
Definition set_pitch (b : Vocoder.t F) (f : F) : Res (Vocoder.t F) :=
  f0 ← (if Vocoder.action b =? overwrite then Vocoder.initialised (Vocoder.actionValue b)
        else if Vocoder.action b =? shift then
          a ← Vocoder.initialised (Vocoder.actionValue b); Ok (f + a)%num
        else if Vocoder.action b =? scale then
          a ← Vocoder.initialised (Vocoder.actionValue b); Ok (f * a)%num
        else Ok f);
  Ok (Vocoder.update_period (b <| Vocoder.f0 := f0 |>)).

Definition prepare (v : t F) (fr : list (list F)) (fvoiced ignoreVoicing : bool) : Res (t F) :=
  mgc ← rd fr 0;
  lf0 ← rd fr 1;
  v ← set_target v mgc;
  f ← rd lf0 0;
  b ← set_pitch (base v) f;
  let b := if negb ignoreVoicing then b <| Vocoder.voiced := fvoiced |> else b in
  Ok (v <| base := b <| Vocoder.nOfPopSinceLastPush := 0 |> |>).

(** ** Samples *)

(** one pass of the filter of the row [row] over [x]; the filter routines take
    one allocation, here the row followed by the delay lines *)
Definition filter (v : t F) (row : list F) (x : F) : Res (F * list F) :=
  let b := base v in
  let n := zlen row in
  c0 ← rd row 0;
  let x := (x * (if negb (Vocoder.ngain b) then nexp c0 else c0))%num in
  '(x, mem) ← (if negb (Vocoder.stage b =? 0)
               then mglsadf x 0 (Vocoder.m b) (Vocoder.alpha b) (Vocoder.stage b) n (row ++ d v)
               else mlsadf (Vocoder.padesptk b) x 0 (Vocoder.m b) (Vocoder.alpha b)
                      (Vocoder.pd b) n (row ++ d v));
  Ok (x, drop (Z.to_nat n) mem).

(** [c[tail_c][i] += inc[tail_c][i]] *)
Definition interpolate (v : t F) : Res (list (list F)) :=
  inc_row ← rd (inc v) (tail_c v);
  upd (c v) (tail_c v) (fun row =>
    for_up 0 (Vocoder.m (base v) + 1) (fun i row =>
      x ← rd row i; y ← rd inc_row i; wr row i (x + y)%num) row).

(** the frame in use: after the initial delay, its hop is counted down and the
    next frame takes over *)
Definition hop (v : t F) : Res (t F) :=
  if 0 <? countInitPop v then Ok (v <| countInitPop := countInitPop v - 1 |>)
  else
    match hopLen v with
    | [] => Ok v
    | h :: rest =>
        h ← i32 (h - 1);
        if h <=? 0 then
          let v := v <| hopLen := rest |> <| tail_c := wrapped (c v) (tail_c v + 1) |> in
          match rest with
          | [] => Ok (v <| countInitPop := PSOLA_MAX_T0 |>
                        <| base := (base v) <| Vocoder.flagFirstPush := true |> |>)
          | _ => Ok v
          end
        else Ok (v <| hopLen := h :: rest |>)
    end.

Definition pop (noise : F) (v : t F) : Res (F * t F) :=
  '(x, v) ← excite noise v;
  row ← rd (c v) (tail_c v);
  '(x, delays) ← filter v row x;
  let v := v <| d := delays |> in
  let b := base v in
  check (negb (Vocoder.iprd b =? 0)) DivByZero ;;
  rows ← (if Vocoder.nOfPopSinceLastPush b <? Z.quot (Vocoder.fprd b) (Vocoder.iprd b)
          then interpolate v else Ok (c v));
  n ← i32 (Vocoder.nOfPopSinceLastPush b + 1);
  v ← hop (v <| c := rows |> <| base := b <| Vocoder.nOfPopSinceLastPush := n |> |>);
  Ok (if (nZ 0 <=? Vocoder.volume b)%num then (Vocoder.volume b * x)%num else x, v).

(** the first [m] coefficients of every row are cleared, not the last *)
Definition clear_row (m : Z) (row : list F) : Res (list F) :=
  for_up 0 m (fun i row => wr row i (nZ 0)) row.

Definition clear_rows (m : Z) (rows : list (list F)) : Res (list (list F)) :=
  for_up 0 (zlen rows) (fun f rows => upd rows f (clear_row m)) rows.

Definition reset (v : t F) : Res (t F) :=
  let b := base v in
  rows ← clear_rows (Vocoder.m b) (c v);
  incs ← clear_rows (Vocoder.m b) (inc v);
  delays ← for_up 0 (Vocoder.csize b) (fun i d => wr d i (nZ 0)) (d v);
  let f0 := nZ defaultPitch in
  Ok (v <| c := rows |> <| inc := incs |> <| d := delays |>
        <| base := b <| Vocoder.f0 := f0 |> <| Vocoder.t0 := (nZ defaultSamplingRate / f0)%num |>
             <| Vocoder.action := noaction |> <| Vocoder.alpha := defaultAlpha |>
             <| Vocoder.gamma := Some (nZ defaultGamma) |> <| Vocoder.stage := defaultGamma |>
             <| Vocoder.pd := defaultPadeOrder |> <| Vocoder.volume := nZ defaultVolume |>
             <| Vocoder.flagFirstPush := true |> |>
        <| countInitPop := PSOLA_MAX_T0 |>).

(** ** The ring *)

(** a sample of a ring, at an index modulo its length *)
Definition cell (src : list F) (i : Z) : F :=
  default (nZ 0) (src !! Z.to_nat (i mod zlen src)).

Lemma cell_rd src i : 0 <= i < zlen src -> rd src i = Ok (cell src i).
Proof.
  intros Hi. destruct (yields_rd src i Hi) as (x & E & Hx).
  unfold cell. rewrite Z.mod_small by lia. by rewrite Hx.
Qed.

Lemma cell_insert src i j x :
  0 <= i < zlen src ->
  cell (<[Z.to_nat i := x]> src) j = if bool_decide (j mod zlen src = i) then x else cell src j.
Proof.
  intros Hi. unfold cell. rewrite zlen_insert. pose proof (Z.mod_pos_bound j (zlen src)).
  case_bool_decide as Hj.
  - rewrite Hj, list_lookup_insert_eq; [done|unfold zlen in *; lia].
  - rewrite list_lookup_insert_ne; [done|lia].
Qed.

Lemma cell_mod src i : cell src (i mod zlen src) = cell src i.
Proof. unfold cell. by rewrite Zmod_mod. Qed.

Lemma wrapped_next {A} (src : list A) i :
  0 <= i < zlen src -> zlen src < 2 ^ 63 -> wrapped src (i + 1) = (i + 1) mod zlen src.
Proof.
  intros Hi Hl. unfold wrapped. rewrite (Z.mod_small (i + 1)) by lia. case Z.leb_spec; intros.
  - replace (i + 1) with (zlen src) by lia. symmetry. apply Z.mod_same. lia.
  - rewrite Z.mod_small by lia. done.
Qed.

(** positions of a ring *)
Lemma add_mod_l a b n : (a mod n + b) mod n = (a + b) mod n.
Proof. apply Zplus_mod_idemp_l. Qed.

Lemma ring_inj a j k n :
  0 <= j < n -> 0 <= k < n -> (a + j) mod n = (a + k) mod n -> j = k.
Proof.
  intros Hj Hk E. assert (D : (j - k) mod n = 0).
  { replace (j - k) with ((a + j) - (a + k)) by lia.
    by rewrite Zminus_mod, E, Z.sub_diag, Zmod_0_l. }
  apply Z.mod_divide in D as [c D]; [|lia].
  destruct (Z.lt_trichotomy c 0) as [?|[->|?]]; nia.
Qed.

(** the samples the loop has passed are new, the others are as they were *)
Definition swept (src : list F) (ind k : Z) (g : Z -> F -> F) (st : Z * list F) : Prop :=
  st.1 = (ind + k) mod zlen src /\ zlen st.2 = zlen src /\
  forall j, 0 <= j < zlen src -> cell st.2 (ind + j)
    = if bool_decide (j < k) then g j (cell src (ind + j)) else cell src (ind + j).

Lemma sweep_swept lo hi f g ind src :
  0 <= ind < zlen src -> zlen src < 2 ^ 63 -> lo <= hi -> hi - lo <= zlen src ->
  (forall k, 0 <= k < hi - lo -> f (lo + k) (cell src (ind + k)) = Ok (g k (cell src (ind + k)))) ->
  yields (sweep lo hi f (ind, src)) (swept src ind (hi - lo) g).
Proof.
  intros Hi Hn Hle Hlen Hf. unfold sweep.
  apply (for_up_yields (fun k => swept src ind (k - lo) g)); [done| |].
  - split; [cbn; rewrite Z.mod_small; lia|]. split; [done|]. intros j Hj.
    by rewrite bool_decide_eq_false_2 by lia.
  - intros k [i s1] Hk (Ei & Hl & Hs). cbn [fst snd] in Ei, Hl, Hs.
    assert (Hii : 0 <= i < zlen s1) by (rewrite Ei, Hl; apply Z.mod_pos_bound; lia).
    assert (Ec : cell s1 i = cell src (ind + (k - lo))).
    { rewrite Ei. rewrite <-Hl at 1. rewrite cell_mod, Hs by lia.
      by rewrite bool_decide_eq_false_2 by lia. }
    unfold upd. rewrite cell_rd, bind_Ok by done. rewrite Ec.
    replace k with (lo + (k - lo)) at 1 by lia. rewrite Hf, bind_Ok by lia.
    rewrite wr_ok, bind_Ok by done. apply yields_ok.
    split; [|split]; cbn [fst snd].
    + rewrite wrapped_next; rewrite zlen_insert, ?Hl; [|lia..].
      rewrite Ei, add_mod_l. f_equal. lia.
    + by rewrite zlen_insert.
    + intros j Hj. rewrite cell_insert, Hl, Hs by done.
      assert (X : (ind + j) mod zlen src = i <-> j = k - lo).
      { rewrite Ei. split; [|by intros ->]. apply ring_inj; lia. }
      destruct (decide (j = k - lo)) as [Ej|Ej].
      * rewrite (bool_decide_eq_true_2 _ (proj2 X Ej)), bool_decide_eq_true_2 by lia.
        by rewrite Ej.
      * rewrite bool_decide_eq_false_2 by tauto. repeat case_bool_decide; done || lia.
Qed.

(** ** The excitation stays in the ring *)

Definition ring_len (src : list F) : Prop := zlen src = PSOLA_MAX_OUT_BUFFER_LENGTH.

Lemma makepulse_window ct0 :
  0 < ct0 -> exists w, makepulse (2 * ct0) = Ok w /\ zlen w = 2 * ct0 /\
  forall k, 0 <= k < 2 * ct0 -> cell w k = if bool_decide (k = ct0) then nsqrt (nZ ct0) else nZ 0.
Proof.
  intros Hc. unfold makepulse. zbool. replace (2 * ct0 / 2) with ct0 by (symmetry; rewrite Z.mul_comm; apply Z.div_mul; lia).
  set (z := replicate _ _). assert (L : zlen z = 2 * ct0) by (subst z; rewrite zlen_replicate; lia).
  rewrite wr_ok by lia. eexists. split; [done|]. rewrite zlen_insert. split; [done|].
  intros k Hk. rewrite cell_insert by lia. rewrite L, Z.mod_small by lia.
  repeat case_bool_decide; try done. unfold cell. rewrite L, Z.mod_small by lia.
  by destruct (z !! Z.to_nat k) as [x|] eqn:E; [apply lookup_replicate in E as [-> _]|].
Qed.

Lemma overlap_swept w src p ct0 :
  ring_len src -> 0 <= p < zlen src -> 0 < ct0 <= PSOLA_MAX_T0 -> zlen w = 2 * ct0 ->
  yields (overlap w src p ct0) (fun r => r.1 = (p + ct0 + 1) mod zlen src /\
    exists i1 i2 s1, swept src ((p - ct0) mod zlen src) ct0 (fun k x => x + cell w k)%num (i1, s1) /\
      swept s1 p ct0 (fun k _ => cell w (ct0 + k)) (i2, r.2)).
Proof.
  unfold ring_len. intros L Hp Hc Hw. assert (Hn : PSOLA_MAX_OUT_BUFFER_LENGTH = 16 * PSOLA_MAX_T0) by done.
  assert (Hm : PSOLA_MAX_T0 = 2048) by done. unfold overlap.
  assert (Ei : (if p - ct0 <? 0 then p - ct0 + zlen src else p - ct0) = (p - ct0) mod zlen src).
  { case Z.ltb_spec; intros; [|by rewrite Z.mod_small by lia].
    apply (Z.mod_unique_pos _ _ (-1)); lia. }
  rewrite Ei. cbn zeta. eapply yields_bind.
  { apply (sweep_swept 0 ct0 _ (fun k x => x + cell w k)%num); try lia.
    - apply Z.mod_pos_bound. lia.
    - intros k Hk. rewrite cell_rd by lia. done. }
  intros [i1 s1] S1. rewrite Z.sub_0_r in S1. pose proof S1 as (E1 & L1 & _). cbn [fst snd] in E1, L1.
  rewrite add_mod_l in E1. replace (p - ct0 + ct0) with p in E1 by lia.
  rewrite Z.mod_small in E1 by lia. subst i1. eapply yields_bind.
  { apply (sweep_swept ct0 (2 * ct0) _ (fun k _ => cell w (ct0 + k))); try lia.
    intros k Hk. by rewrite cell_rd by lia. }
  intros [i2 s2] S2. replace (2 * ct0 - ct0) with ct0 in S2 by lia.
  pose proof S2 as (E2 & L2 & _). cbn [fst snd] in E2, L2. apply yields_ok. cbn [fst snd]. split.
  - rewrite wrapped_next; rewrite L2, L1; [|rewrite E2, L1; apply Z.mod_pos_bound; lia|lia].
    rewrite E2, L1. apply add_mod_l.
  - by exists p, i2, s1.
Qed.

Lemma unvoice_swept noise src p count :
  ring_len src -> 0 <= p < zlen src -> 0 <= count <= p -> count <= PSOLA_MAX_T0 ->
  yields (unvoice noise src p count) (fun r => r.1 = (p - count + 1) mod zlen src /\
    exists i s1, swept src (p - count) (count + 1) (fun _ _ => nZ 0) (i, s1) /\
      r.2 = <[Z.to_nat (p - count) := noise]> s1).
Proof.
  unfold ring_len. intros L Hp Hc Hm. assert (PSOLA_MAX_OUT_BUFFER_LENGTH = 16 * PSOLA_MAX_T0) by done.
  assert (PSOLA_MAX_T0 = 2048) by done. unfold unvoice. cbn zeta. eapply yields_bind.
  { apply (sweep_swept 0 (count + 1) _ (fun _ _ => nZ 0)); try lia. by intros. }
  intros [i s1] S1. rewrite Z.sub_0_r in S1. pose proof S1 as (_ & L1 & _). cbn [snd] in L1.
  zbool. rewrite wr_ok, bind_Ok by lia. apply yields_ok. cbn [fst snd]. split.
  - rewrite wrapped_next; rewrite zlen_insert, L1; [done|lia|lia].
  - by exists i, s1.
Qed.

(** a negative index: the excitation turns unvoiced while the pulse of the
    running period lies behind the end of the ring *)
Lemma unvoice_overruns noise src p count :
  0 <= p < count -> unvoice noise src p count = Undef OutOfBounds.
Proof.
  intros Hc. unfold unvoice, sweep. cbn zeta.
  rewrite for_up_cons by lia. unfold upd. by rewrite rd_oob by lia.
Qed.

(** the place of the next pulse: always [PSOLA_MAX_T0] samples and the rest of
    the period ahead of the sample that is taken *)
Record placed (v : t F) : Prop := {
  placed_len : ring_len (source v);
  placed_tail : 0 <= tail_s v < PSOLA_MAX_OUT_BUFFER_LENGTH;
  placed_count : 0 <= Vocoder.count (base v) <= PSOLA_MAX_T0;
  placed_pulse : p_s v
    = (tail_s v + PSOLA_MAX_T0 + Vocoder.count (base v)) mod PSOLA_MAX_OUT_BUFFER_LENGTH
}.

(** the next sample stays in the ring *)
Definition in_ring (v : t F) (ct0 : Z) : Prop :=
  rounded_period (base v) = Ok ct0 /\
  (Vocoder.voiced (base v) = true -> Vocoder.count (base v) = 0 -> 0 < ct0) /\
  (Vocoder.voiced (base v) = false -> Vocoder.count (base v) <= p_s v).

(** what the excitation changes *)
Definition excited (n : Z) (v v' : t F) : Prop :=
  (c v', inc v', cc v', d v', head_c v', tail_c v', hopLen v', countInitPop v')
  = (c v, inc v, cc v, d v, head_c v, tail_c v, hopLen v, countInitPop v) /\
  base v' = (base v) <| Vocoder.count := n |>.

(** the samples of the plain excitation: the pulse or the noise, and the place
    it is put at *)
Definition sample_of (voiced : bool) (count ct0 : Z) (noise : F) : F :=
  if voiced then if count <=? 0 then nsqrt (nZ ct0) else nZ 0 else noise.
Definition count_of (voiced : bool) (count ct0 : Z) : Z :=
  if voiced then if count <=? 0 then ct0 else count - 1 else 0.
Definition position (voiced : bool) (ct0 count p : Z) : Res Z :=
  if voiced then
    if count <=? 0 then
      if ct0 <? 0 then Exit 134
      else check (0 <? ct0) OutOfBounds ;; Ok ((p + ct0 + 1) mod PSOLA_MAX_OUT_BUFFER_LENGTH)
    else Ok p
  else check (count <=? p) OutOfBounds ;; Ok ((p - count + 1) mod PSOLA_MAX_OUT_BUFFER_LENGTH).

Lemma rounded_le b ct0 : rounded_period b = Ok ct0 -> ct0 <= PSOLA_MAX_T0.
Proof.
  unfold rounded_period. intros E. apply bind_inv_Ok in E as (n & _ & E).
  apply Ok_inj in E as <-. case Z.ltb_spec; lia.
Qed.

(** the ring after the sample is put: [PSOLA_MAX_T0] ahead of the tail *)
Definition ring_after (v : t F) (e : F) (src : list F) : Prop :=
  ring_len src /\ forall j, 0 <= j < PSOLA_MAX_OUT_BUFFER_LENGTH ->
    j = PSOLA_MAX_T0 /\ cell src (tail_s v + j) = e \/
    (j <> PSOLA_MAX_T0 \/ e = nZ 0) /\
      (cell src (tail_s v + j) = cell (source v) (tail_s v + j) \/
       cell src (tail_s v + j) = (cell (source v) (tail_s v + j) + nZ 0)%num \/
       PSOLA_MAX_T0 < j /\ cell src (tail_s v + j) = nZ 0).

Lemma cell_eq src i j : i mod zlen src = j mod zlen src -> cell src i = cell src j.
Proof. unfold cell. by intros ->. Qed.

(** every position of a swept ring *)
Lemma swept_at src ind k g i s x :
  0 < zlen src -> swept src ind k g (i, s) ->
  cell s x = if bool_decide ((x - ind) mod zlen src < k)
             then g ((x - ind) mod zlen src) (cell src x) else cell src x.
Proof.
  intros Hn (_ & L & S). cbn [snd] in L, S.
  pose proof (Z.mod_pos_bound (x - ind) (zlen src) Hn) as Hj.
  assert (E : (ind + (x - ind) mod zlen src) mod zlen src = x mod zlen src).
  { rewrite Zplus_mod_idemp_r. f_equal. lia. }
  specialize (S _ Hj). rewrite (cell_eq src _ x E) in S.
  rewrite <-S. apply cell_eq. by rewrite L.
Qed.

Lemma offset_mod a b j n : (a + j - (a + b) mod n) mod n = (j - b) mod n.
Proof. rewrite Zminus_mod_idemp_r. f_equal. lia. Qed.

(** a place of the ring, counted from the one [b] ahead *)
Lemma offset_cases j b n : 0 <= b < n -> 0 <= j < n + b ->
  (j - b) mod n = if bool_decide (b <= j) then j - b else j - b + n.
Proof.
  intros Hb Hj. case_bool_decide; [by rewrite Z.mod_small by lia|].
  symmetry. apply (Z.mod_unique_pos _ _ (-1)); lia.
Qed.

Ltac ring_case :=
  first [ lia | left; split; [lia|done]
        | right; split; [by left; lia|]; first [by left | by right; left | right; right; split; [lia|done]] ].

(** the voiced excitation at the start of a period *)
Lemma pulse_ring v ct0 w :
  placed v -> Vocoder.count (base v) = 0 -> 0 < ct0 <= PSOLA_MAX_T0 ->
  makepulse (2 * ct0) = Ok w ->
  yields (overlap w (source v) (p_s v) ct0) (fun r =>
    r.1 = (p_s v + ct0 + 1) mod PSOLA_MAX_OUT_BUFFER_LENGTH /\
    ring_after v (nsqrt (nZ ct0)) r.2).
Proof.
  intros [L T C P] E0 Hc Ew. ring_consts. unfold ring_len in *.
  destruct (makepulse_window ct0) as (w' & Ew' & Lw & Hw); [lia|].
  rewrite Ew in Ew'. apply Ok_inj in Ew' as <-. rewrite E0, Z.add_0_r in P.
  eapply yields_mono; [apply overlap_swept|]; try done; try lia.
  { rewrite P, L. apply Z.mod_pos_bound. lia. }
  intros [p s2] (Ep & i1 & i2 & s1 & S1 & S2). cbn [fst snd] in *. rewrite L in Ep.
  split; [done|]. pose proof S1 as (_ & L1 & _). pose proof S2 as (_ & L2 & _). cbn [snd] in L1, L2.
  split; [unfold ring_len; lia|]. intros j Hj.
  assert (0 < zlen s1 /\ 0 < zlen (source v)) as [N1 N0] by lia.
  rewrite (swept_at _ _ _ _ _ _ _ N1 S2), (swept_at _ _ _ _ _ _ _ N0 S1).
  rewrite L1, L, P, offset_mod, Zminus_mod_idemp_r.
  replace (tail_s v + j - ((tail_s v + PSOLA_MAX_T0) mod PSOLA_MAX_OUT_BUFFER_LENGTH - ct0))
    with (tail_s v + (j + ct0) - (tail_s v + PSOLA_MAX_T0) mod PSOLA_MAX_OUT_BUFFER_LENGTH) by lia.
  rewrite offset_mod, !offset_cases by lia.
  repeat case_bool_decide; rewrite ?Hw by lia; repeat case_bool_decide; ring_case.
Qed.

(** the unvoiced excitation *)
Lemma noise_ring v noise :
  placed v -> Vocoder.count (base v) <= p_s v ->
  yields (unvoice noise (source v) (p_s v) (Vocoder.count (base v))) (fun r =>
    r.1 = (p_s v - Vocoder.count (base v) + 1) mod PSOLA_MAX_OUT_BUFFER_LENGTH /\
    ring_after v noise r.2).
Proof.
  intros [L T C P] Hc. ring_consts. unfold ring_len in *.
  assert (Hp : 0 <= p_s v < zlen (source v)) by (rewrite P, L; apply Z.mod_pos_bound; lia).
  set (n := Vocoder.count (base v)) in *.
  eapply yields_mono; [apply unvoice_swept|]; try done; try lia.
  intros [p s2] (Ep & i & s1 & S1 & Es). cbn [fst snd] in *. subst s2. rewrite L in Ep.
  split; [done|]. pose proof S1 as (_ & L1 & _). cbn [snd] in L1.
  split; [unfold ring_len; rewrite zlen_insert; lia|]. intros j Hj.
  assert (0 < zlen (source v)) as N0 by lia.
  assert (Eo : (tail_s v + j - (p_s v - n)) mod PSOLA_MAX_OUT_BUFFER_LENGTH
               = (j - PSOLA_MAX_T0) mod PSOLA_MAX_OUT_BUFFER_LENGTH).
  { replace (tail_s v + j - (p_s v - n)) with (tail_s v + (j + n) - p_s v) by lia.
    rewrite P, <-Z.add_assoc, offset_mod. f_equal. lia. }
  assert (Ei : (tail_s v + j) mod PSOLA_MAX_OUT_BUFFER_LENGTH = p_s v - n <-> j = PSOLA_MAX_T0).
  { rewrite <-(Z.mod_small (p_s v - n) PSOLA_MAX_OUT_BUFFER_LENGTH) by lia. split.
    - intros E. assert ((tail_s v + j - (p_s v - n)) mod PSOLA_MAX_OUT_BUFFER_LENGTH = 0) as Z0
        by (by rewrite Zminus_mod, E, Z.sub_diag, Zmod_0_l).
      rewrite Eo, offset_cases in Z0 by lia. case_bool_decide; lia.
    - intros ->. rewrite Z.sub_diag, Zmod_0_l in Eo.
      apply Z.mod_divide in Eo as [k Ek]; [|lia].
      replace (tail_s v + PSOLA_MAX_T0) with (p_s v - n + k * PSOLA_MAX_OUT_BUFFER_LENGTH) by lia.
      apply Z.mod_add. lia. }
  rewrite cell_insert, L1, L by lia.
  rewrite (swept_at _ _ _ _ _ _ _ N0 S1), L, Eo, offset_cases by lia.
  destruct (decide (j = PSOLA_MAX_T0)) as [Ej|Ej].
  - rewrite bool_decide_eq_true_2 by tauto. by left.
  - rewrite (bool_decide_eq_false_2 (_ = p_s v - n)) by tauto. repeat case_bool_decide; ring_case.
Qed.

(** a sample that is put: the ring, the place and the state after it *)
Lemma put_yields noise v ct0 :
  placed v -> in_ring v ct0 ->
  let b := base v in
  let n := Vocoder.count b in
  yields (put_sample noise v) (fun v' =>
    excited (count_of (Vocoder.voiced b) n ct0) v v' /\ tail_s v' = tail_s v /\
    position (Vocoder.voiced b) ct0 n (p_s v) = Ok (p_s v') /\
    ring_after v (sample_of (Vocoder.voiced b) n ct0 noise) (source v')).
Proof.
  intros W (Er & Hv & Hu). cbn zeta. pose proof (rounded_le _ _ Er) as Hle.
  pose proof (placed_count _ W) as C.
  unfold put_sample, excited, count_of, sample_of, position. rewrite Er, bind_Ok. cbn zeta.
  destruct (Vocoder.voiced (base v)) eqn:Ev; [case Z.leb_spec; intros Hc|].
  - assert (Vocoder.count (base v) = 0) as E0 by lia. specialize (Hv eq_refl E0).
    destruct (makepulse_window ct0 Hv) as (w & Ew & _). rewrite Ew, bind_Ok.
    eapply yields_bind; [by apply (pulse_ring v ct0 w)|]. intros [p src] [Ep R].
    apply yields_ok. cbn [fst snd] in *. zbool. cbn. by rewrite Ep.
  - apply yields_ok. cbn. split_and!; try done. split; [apply W|]. intros j Hj. right.
    split; [by right|by left].
  - specialize (Hu eq_refl). eapply yields_bind; [by apply noise_ring|]. intros [p src] [Ep R].
    apply yields_ok. cbn [fst snd] in *. zbool. cbn. by rewrite Ep.
Qed.


(** when a sample is put in the ring, and what happens otherwise *)
Lemma position_decides noise v ct0 :
  placed v -> rounded_period (base v) = Ok ct0 ->
  match position (Vocoder.voiced (base v)) ct0 (Vocoder.count (base v)) (p_s v) with
  | Ok _ => in_ring v ct0
  | Undef e => excite noise v = Undef e
  | Exit s => excite noise v = Exit s
  | Timeout => False
  end.
Proof.
  intros W Er. unfold excite, put_sample, in_ring, position. rewrite Er, bind_Ok. cbn zeta.
  pose proof (placed_count _ W) as C. pose proof (placed_len _ W) as L. unfold ring_len in L. ring_consts.
  assert (Hp : 0 <= p_s v < zlen (source v)).
  { rewrite L, (placed_pulse _ W). apply Z.mod_pos_bound. lia. }
  destruct (Vocoder.voiced (base v)); [case Z.leb_spec; intros|].
  - unfold makepulse, check. case Z.ltb_spec; intros; [zbool; done|].
    case Z.ltb_spec; intros; cbn [mbind Res_bind].
    + by split_and!.
    + assert (ct0 = 0) as -> by lia. done.
  - by split_and!; auto with lia.
  - unfold check. case Z.leb_spec; intros; cbn [mbind Res_bind]; [by split_and!|].
    by rewrite unvoice_overruns by lia.
Qed.

Lemma position_placed v ct0 p :
  placed v -> in_ring v ct0 ->
  position (Vocoder.voiced (base v)) ct0 (Vocoder.count (base v)) (p_s v) = Ok p ->
  0 <= count_of (Vocoder.voiced (base v)) (Vocoder.count (base v)) ct0 <= PSOLA_MAX_T0 /\
  p = (tail_s v + 1 + PSOLA_MAX_T0 + count_of (Vocoder.voiced (base v)) (Vocoder.count (base v)) ct0)
      mod PSOLA_MAX_OUT_BUFFER_LENGTH.
Proof.
  intros W (Er & Hv & Hu) E. pose proof (rounded_le _ _ Er). pose proof (placed_count _ W).
  unfold position, count_of in *. rewrite (placed_pulse _ W) in E. ring_consts.
  destruct (Vocoder.voiced (base v)); [destruct (_ <=? 0) eqn:Ec|].
  - apply Z.leb_le in Ec. destruct (ct0 <? 0); [done|]. unfold check in E.
    specialize (Hv eq_refl ltac:(lia)). destruct (0 <? ct0); [|done].
    rewrite bind_Ok in E. apply Ok_inj in E as <-. split; [lia|].
    rewrite <-Z.add_assoc, Zplus_mod_idemp_l. f_equal. lia.
  - apply Z.leb_gt in Ec. apply Ok_inj in E as <-. split; [lia|]. f_equal. lia.
  - unfold check in E. destruct (_ <=? _); [|done]. rewrite bind_Ok in E. apply Ok_inj in E as <-.
    split; [lia|]. set (n := Vocoder.count (base v)) in *.
    match goal with |- (?x mod ?m - n + 1) mod _ = _ =>
      replace (x mod m - n + 1) with (x mod m - (n - 1)) by lia end.
    rewrite Zminus_mod_idemp_l. f_equal. lia.
Qed.

(** a sample of the excitation, when it stays in the ring *)
Lemma excite_yields noise v ct0 :
  placed v -> in_ring v ct0 ->
  let b := base v in
  let n := Vocoder.count b in
  yields (excite noise v) (fun r =>
    placed r.2 /\ excited (count_of (Vocoder.voiced b) n ct0) v r.2 /\
    position (Vocoder.voiced b) ct0 n (p_s v) = Ok (p_s r.2) /\
    tail_s r.2 = (tail_s v + 1) mod PSOLA_MAX_OUT_BUFFER_LENGTH /\
    exists src, ring_after v (sample_of (Vocoder.voiced b) n ct0 noise) src /\
      r.1 = cell src (tail_s v) /\ source r.2 = <[Z.to_nat (tail_s v) := nZ 0]> src).
Proof.
  intros W R. cbn zeta. unfold excite. ring_consts. pose proof (placed_tail _ W) as T.
  eapply yields_bind; [by apply put_yields|]. intros v1 (X & Et & Ep & A). pose proof A as (L & _).
  unfold ring_len in L.
  unfold take_sample. rewrite cell_rd, bind_Ok by (rewrite Et; lia).
  rewrite wr_ok, bind_Ok by (rewrite Et; lia). apply yields_ok. cbn [fst snd].
  assert (Ew : wrapped (<[Z.to_nat (tail_s v1) := nZ 0]> (source v1)) (tail_s v1 + 1)
    = (tail_s v + 1) mod PSOLA_MAX_OUT_BUFFER_LENGTH).
  { rewrite wrapped_next; rewrite zlen_insert, L, ?Et; [done|lia|lia]. }
  destruct (position_placed v ct0 _ W R Ep) as [Hc Hp]. destruct X as [X Eb].
  split_and!.
  - split; cbn; unfold ring_len; rewrite ?zlen_insert, ?Ew, ?Eb; cbn; try done.
    + apply Z.mod_pos_bound. lia.
    + rewrite Hp, <-!Z.add_assoc, Zplus_mod_idemp_l. f_equal. lia.
  - by split.
  - done.
  - done.
  - exists (source v1). cbn. split; [done|]. by rewrite <-Et.
Qed.

(** ** Runs of the excitation *)

(** voicing, period and noise of a sample *)
Definition event : Type := bool * F * F.
Definition set_event (vc : bool) (period : F) (b : Vocoder.t F) : Vocoder.t F :=
  b <| Vocoder.voiced := vc |> <| Vocoder.t0 := period |>.

Fixpoint drive (es : list event) (v : t F) : Res (list F) :=
  match es with
  | [] => Ok []
  | (vc, period, x) :: es =>
      '(s, v) ← excite x (v <| base := set_event vc period (base v) |>);
      ss ← drive es v;
      Ok (s :: ss)
  end.

(** the excitation of the base class at the rounded periods, while the place
    [p] of the next pulse stays where it can be reached *)
Fixpoint plain (es : list event) (b : Vocoder.t F) (p : Z) : Res (list F) :=
  match es with
  | [] => Ok []
  | (vc, period, x) :: es =>
      ct0 ← rounded_period (set_event vc period b);
      p ← position vc ct0 (Vocoder.count b) p;
      '(s, b) ← Vocoder.excite x (set_event vc (nZ ct0) b);
      ss ← plain es b p;
      Ok (s :: ss)
  end.

(** the ring holds the samples to come, and nothing else *)
Definition holds (v : t F) (sig : list F) : Prop :=
  placed v /\ zlen sig = PSOLA_MAX_T0 /\
  forall j, 0 <= j < PSOLA_MAX_OUT_BUFFER_LENGTH ->
    cell (source v) (tail_s v + j) = default (nZ 0) (sig !! Z.to_nat j).

Lemma create_holds am aalpha afprd aiprd astage apd angain v :
  create am aalpha afprd aiprd astage apd angain = Ok v ->
  holds v (replicate (Z.to_nat PSOLA_MAX_T0) (nZ 0)) /\ p_s v = PSOLA_MAX_T0 /\
  Vocoder.count (base v) = 0.
Proof.
  unfold create. intros E. apply bind_inv_Ok in E as (b & Eb & E).
  apply bind_inv_Ok in E as (n & _ & E). destruct (n <? 0); [done|].
  assert (Ec : Vocoder.count b = 0).
  { unfold Vocoder.create in Eb. apply bind_inv_Ok in Eb as (? & _ & Eb).
    destruct (_ <? 0); [done|]. by apply Ok_inj in Eb as <-. }
  apply Ok_inj in E as <-. ring_consts. cbn [p_s base source tail_s]. split; [|done].
  split; [|split].
  - split; cbn [p_s base source tail_s]; rewrite ?Ec; [|lia|lia|done].
    unfold ring_len. rewrite zlen_replicate. lia.
  - rewrite zlen_replicate. lia.
  - cbn [source tail_s]. intros j Hj.
    assert (R : forall n k, default (nZ 0) (replicate n (nZ 0 : F) !! k) = nZ 0).
    { intros k i. by destruct (replicate _ _ !! _) as [x|] eqn:E; [apply lookup_replicate in E as [-> _]|]. }
    unfold cell. by rewrite !R.
Qed.

(** ** The arrays are large enough *)

Ltac keep_placed := match goal with H : placed _ |- placed _ => destruct H; by split end.
Ltac keep_psola W := keep_inv W; try keep_placed.

(** the rows of the frame queue *)
Definition rows_ok (n : Z) (rows : list (list F)) : Prop :=
  zlen rows = PSOLA_FRAMEQUEUE_LENGTH /\ Forall (fun row => zlen row = n) rows.

Record wf (v : t F) : Prop := {
  wf_base : Vocoder.wf (base v);
  wf_order : 0 <= Vocoder.pd (base v) <= 5;
  wf_placed : placed v;
  wf_c : rows_ok (Vocoder.m (base v) + 1) (c v);
  wf_inc : rows_ok (Vocoder.m (base v) + 1) (inc v);
  wf_cc : match cc v with
          | Some l => zlen l = Vocoder.m (base v) + 1
          | None => Vocoder.flagFirstPush (base v) = true
          end;
  wf_d : zlen (d v) = Vocoder.csize (base v);
  wf_head : 0 <= head_c v < PSOLA_FRAMEQUEUE_LENGTH;
  wf_tail : 0 <= tail_c v < PSOLA_FRAMEQUEUE_LENGTH;
  wf_hops : Forall (fun h => 0 <= h < 2 ^ 31) (hopLen v)
}.

Lemma rows_rd n rows i :
  rows_ok n rows -> 0 <= i < PSOLA_FRAMEQUEUE_LENGTH -> yields (rd rows i) (fun row => zlen row = n).
Proof.
  intros [L R] Hi. eapply yields_mono; [apply yields_rd; lia|].
  intros row E. rewrite Forall_lookup in R. exact (R _ _ E).
Qed.

Lemma rows_wr n rows i row :
  rows_ok n rows -> 0 <= i < PSOLA_FRAMEQUEUE_LENGTH -> zlen row = n ->
  yields (wr rows i row) (rows_ok n).
Proof.
  intros [L R] Hi Hr. rewrite wr_ok by lia. apply yields_ok. split; [by rewrite zlen_insert|].
  by apply Forall_insert.
Qed.

Lemma wrapped_row n (rows : list (list F)) i :
  rows_ok n rows -> 0 <= i < PSOLA_FRAMEQUEUE_LENGTH -> 0 <= wrapped rows (i + 1) < PSOLA_FRAMEQUEUE_LENGTH.
Proof.
  intros [L _] Hi. assert (PSOLA_FRAMEQUEUE_LENGTH = 64) by done.
  rewrite wrapped_next, L by lia. apply Z.mod_pos_bound. lia.
Qed.

(** a loop that writes the elements of one row *)
Lemma row_loop (n k : Z) (body : Z -> list F -> Res (list F)) row :
  0 <= k <= n -> zlen row = n ->
  (forall i r, 0 <= i < k -> zlen r = n -> yields (body i r) (fun r' => zlen r' = n)) ->
  yields (for_up 0 k body row) (fun r => zlen r = n).
Proof. intros Hk Hr Hb. by apply (for_up_yields (fun _ r => zlen r = n)); [lia|..]. Qed.

Lemma load_yields v mgc row :
  wf v -> zlen row = Vocoder.m (base v) + 1 -> Vocoder.m (base v) < zlen mgc ->
  yields (load v mgc row) (fun r => zlen r = Vocoder.m (base v) + 1).
Proof.
  intros W Hr Hm. eapply yields_mono.
  - apply (Vocoder.load_foot (base v) mgc row row 0 0 (zlen row)); try done; try lia. apply W.
  - intros r E. by rewrite (footprint_len _ _ _ _ E).
Qed.

Lemma flag_wf (b : Vocoder.t F) f : Vocoder.wf b -> Vocoder.wf (b <| Vocoder.flagFirstPush := f |>).
Proof. intros W. apply (Vocoder.wf_update _ _ W); try done. apply W. Qed.

Lemma set_target_yields v mgc :
  wf v -> Vocoder.m (base v) < zlen mgc -> 
  yields (set_target v mgc) (fun v' => wf v' /\ base v' = (base v) <| Vocoder.flagFirstPush := false |>).
Proof.
  intros W Hm. pose proof (wf_head _ W) as Hh. pose proof (wf_cc _ W) as Hcc.
  pose proof (Vocoder.wf_m _ (wf_base _ W)) as M. unfold set_target. cbn zeta.
  eapply yields_bind; [apply (rows_rd _ _ _ (wf_c _ W) Hh)|]. intros row Lr; cbn beta in Lr.
  eapply yields_bind; [apply (rows_rd _ _ _ (wf_inc _ W) Hh)|]. intros irow Li; cbn beta in Li.
  destruct (Vocoder.flagFirstPush (base v)) eqn:Ef; cbn [negb].
  - eapply yields_bind; [by apply load_yields|]. intros row1 L1; cbn beta in L1.
    eapply yields_bind.
    { apply (row_loop (Vocoder.m (base v) + 1)); [lia| |].
      - unfold writable. destruct (cc v); cbn; [done|]. rewrite zlen_replicate. lia.
      - intros i r Hi Hr. eapply yields_bind; [apply yields_rd; lia|]. intros x _.
        rewrite wr_ok by lia. apply yields_ok. by rewrite zlen_insert. }
    intros new Ln; cbn beta in Ln. eapply yields_bind.
    { apply (row_loop (Vocoder.m (base v) + 1)); [lia|done|].
      intros i r Hi Hr. rewrite wr_ok by lia. apply yields_ok. by rewrite zlen_insert. }
    intros irow1 Li1; cbn beta in Li1. eapply yields_bind; [by apply (rows_wr _ _ _ _ (wf_c _ W))|]. intros rows R.
    eapply yields_bind; [by apply (rows_wr _ _ _ _ (wf_inc _ W))|]. intros irows Ri.
    apply yields_ok. split; [|done]. destruct W. split; cbn; try done.
    + by apply flag_wf.
    + by keep_placed.
    + by apply (wrapped_row _ _ _ R).
  - destruct (cc v) as [old|] eqn:Ecc; [|done]. cbn [Vocoder.initialised]. rewrite bind_Ok.
    rewrite memcpy_ok, bind_Ok by lia. set (copy := _ ++ _ ++ _).
    assert (Lc : zlen copy = Vocoder.m (base v) + 1) by (subst copy; zlen_lia).
    eapply yields_bind; [by apply load_yields|]. intros new Ln; cbn beta in Ln.
    eapply yields_bind.
    { apply (row_loop (Vocoder.m (base v) + 1)); [lia|done|].
      intros i r Hi Hr. eapply yields_bind; [apply yields_rd; lia|]. intros x _.
      eapply yields_bind; [apply yields_rd; lia|]. intros y _.
      rewrite wr_ok by lia. apply yields_ok. by rewrite zlen_insert. }
    intros irow1 Li1; cbn beta in Li1. eapply yields_bind; [by apply (rows_wr _ _ _ _ (wf_c _ W))|]. intros rows R.
    eapply yields_bind; [by apply (rows_wr _ _ _ _ (wf_inc _ W))|]. intros irows Ri.
    apply yields_ok. split; [|cbn; destruct (base v); cbn in *; by subst].
    destruct W. split; cbn; try done.
    + by keep_placed.
    + by apply (wrapped_row _ _ _ R).
    + apply Forall_app. split; [done|]. apply Forall_singleton.
      pose proof (Vocoder.wf_pops _ wf_base0). by destruct (hopLen v).
Qed.
(** the base class's part after a frame *)
Lemma set_pitch_wf (b : Vocoder.t F) f :
  Vocoder.wf b -> yields (set_pitch b f) (fun b' => Vocoder.wf b' /\
    (Vocoder.m b', Vocoder.csize b', Vocoder.count b', Vocoder.flagFirstPush b', Vocoder.pd b')
    = (Vocoder.m b, Vocoder.csize b, Vocoder.count b, Vocoder.flagFirstPush b, Vocoder.pd b)).
Proof.
  intros W. unfold set_pitch. eapply (yields_bind _ _ (fun _ => True)).
  - pose proof (Vocoder.wf_action _ W) as A.
    destruct (Vocoder.actionValue b); cbn; repeat case Z.eqb_spec; intros;
      try (by eexists); by destruct A; auto.
  - intros f0 _. apply yields_ok. split.
    + apply Vocoder.update_period_wf. apply (Vocoder.wf_update _ _ W); try done. apply W.
    + unfold Vocoder.update_period. by destruct (_ <? _)%num.
Qed.

(** the invariant reads the base class through these members *)
Lemma base_wf v b :
  wf v -> Vocoder.wf b -> 0 <= Vocoder.pd b <= 5 ->
  (Vocoder.m b, Vocoder.csize b, Vocoder.count b, Vocoder.flagFirstPush b)
    = (Vocoder.m (base v), Vocoder.csize (base v), Vocoder.count (base v),
       Vocoder.flagFirstPush (base v)) ->
  wf (v <| base := b |>).
Proof.
  intros [] Wb Hp [= Em Es Ec Ef]. split; cbn; rewrite ?Em, ?Es, ?Ef; try done.
  destruct wf_placed0. by split; cbn; rewrite ?Ec.
Qed.

Lemma psola_prepare_yields v fr fvoiced ignoreVoicing :
  wf v -> Vocoder.frame_ok (base v) fr -> yields (prepare v fr fvoiced ignoreVoicing) wf.
Proof.
  intros W (mgc & lf0 & f & Eg & El & Hg & Ef). unfold prepare.
  eapply yields_bind_eq; [by apply rd_ok|]. eapply yields_bind_eq; [by apply rd_ok|].
  eapply yields_bind; [by apply set_target_yields|]. intros v1 [W1 Eb].
  eapply yields_bind_eq; [by apply rd_ok|].
  eapply yields_bind; [apply set_pitch_wf, W1|]. intros b [Wb Ebb]. apply yields_ok.
  apply pair_equal_spec in Ebb as [Ebb Ep].
  assert (Eb' : Vocoder.pd b = Vocoder.pd (base v1)) by exact Ep.
  pose proof (wf_order _ W1) as Hp. rewrite <-Eb' in Hp.
  apply base_wf; [done| |by destruct (negb ignoreVoicing)|by destruct (negb ignoreVoicing)].
  assert (W2 : Vocoder.wf (if negb ignoreVoicing then b <| Vocoder.voiced := fvoiced |> else b)).
  { destruct (negb ignoreVoicing); [|done]. apply (Vocoder.wf_update _ _ Wb); try done. apply Wb. }
  by apply (Vocoder.wf_update _ _ W2).
Qed.

Lemma excited_wf v v' n :
  wf v -> placed v' -> excited n v v' -> wf v'.
Proof.
  intros W P [[= E1 E2 E3 E4 E5 E6 E7 E8] Eb]. destruct W.
  split; rewrite ?Eb, ?E1, ?E2, ?E3, ?E4, ?E5, ?E6, ?E7; try done.
  apply (Vocoder.wf_update _ _ wf_base0); try done. apply wf_base0.
Qed.

Lemma filter_yields v row x :
  wf v -> zlen row = Vocoder.m (base v) + 1 ->
  yields (filter v row x) (fun r => zlen r.2 = Vocoder.csize (base v)).
Proof.
  intros W Hr. pose proof (wf_d _ W) as Hd. destruct (wf_base _ W) as []. unfold filter. cbn zeta.
  assert (0 <= mlsadf_size (Vocoder.m (base v)) defaultPadeOrder)
    by (unfold mlsadf_size; change defaultPadeOrder with 5; lia).
  eapply yields_bind; [apply yields_rd; lia|]. intros c0 _.
  eapply (yields_bind _ _ (fun r => zlen r.2 = zlen (row ++ d v))).
  - assert (L : zlen (row ++ d v) = Vocoder.m (base v) + 1 + Vocoder.csize (base v)) by zlen_lia.
    destruct (Z.eqb_spec (Vocoder.stage (base v)) 0) as [E|E]; cbn [negb].
    + destruct (wf_mlsa E) as [Hp Hs]. eapply yields_mono.
      { apply (mlsadf_foot (row ++ d v) 0 (Vocoder.m (base v)) _ 0 (zlen (row ++ d v))); try lia; [|done].
        rewrite wf_table. by apply Vocoder.mlsa_table. }
      intros [y mem] Ef. by rewrite (footprint_len _ _ _ _ Ef).
    + destruct (wf_mglsa E) as (Hp & Hs & _). eapply yields_mono.
      { apply (mglsadf_foot (row ++ d v) 0 (Vocoder.m (base v)) _ 0 (zlen (row ++ d v))); try lia; done. }
      intros [y mem] Ef. by rewrite (footprint_len _ _ _ _ Ef).
  - intros [y mem] L. apply yields_ok. cbn [snd] in *. rewrite zlen_drop, L, zlen_app.
    pose proof (zlen_nonneg (d v)). lia.
Qed.

Lemma interpolate_yields v :
  wf v -> yields (interpolate v) (rows_ok (Vocoder.m (base v) + 1)).
Proof.
  intros W. pose proof (wf_tail _ W) as T. pose proof (Vocoder.wf_m _ (wf_base _ W)).
  unfold interpolate, upd.
  eapply yields_bind; [apply (rows_rd _ _ _ (wf_inc _ W) T)|]. intros irow Li; cbn beta in Li.
  eapply yields_bind; [apply (rows_rd _ _ _ (wf_c _ W) T)|]. intros row Lr; cbn beta in Lr.
  eapply yields_bind.
  { apply (row_loop (Vocoder.m (base v) + 1)); [lia|done|].
    intros i r Hi Hr. eapply yields_bind; [apply yields_rd; lia|]. intros x _.
    eapply yields_bind; [apply yields_rd; lia|]. intros y _.
    rewrite wr_ok by lia. apply yields_ok. by rewrite zlen_insert. }
  intros row1 L1. by apply (rows_wr _ _ _ _ (wf_c _ W)).
Qed.

Lemma hop_yields v : wf v -> yields (hop v) wf.
Proof.
  intros W. unfold hop. destruct (0 <? countInitPop v).
  { apply yields_ok. by keep_psola W. }
  pose proof (wf_hops _ W) as Hh. destruct (hopLen v) as [|h rest] eqn:Eh; [by apply yields_ok|].
  apply Forall_cons in Hh as [Hh Hr]. rewrite i32_ok, bind_Ok by lia. cbn zeta.
  case Z.leb_spec; intros.
  - assert (W1 : wf (v <| hopLen := rest |> <| tail_c := wrapped (c v) (tail_c v + 1) |>)).
    { keep_psola W. by apply (wrapped_row _ _ _ wf_c0). }
    destruct rest as [|r rest]; [|by apply yields_ok]. apply yields_ok.
    assert (wf (v <| hopLen := [] |> <| tail_c := wrapped (c v) (tail_c v + 1) |>
                  <| base := (base v) <| Vocoder.flagFirstPush := true |> |>)) as []; [|split; try done; keep_placed].
    destruct W1. split; cbn in *; try done; [by apply flag_wf|by keep_placed|].
    by destruct (cc v).
  - apply yields_ok. keep_psola W. constructor; [lia|done].
Qed.

(** a sample stays in the arrays when its excitation stays in the ring *)
Lemma pop_yields noise v ct0 :
  wf v -> in_ring v ct0 -> Vocoder.nOfPopSinceLastPush (base v) < 2 ^ 31 - 1 ->
  yields (pop noise v) (fun r => wf r.2).
Proof.
  intros W R Hn. unfold pop.
  eapply yields_bind; [by apply (excite_yields noise v ct0), R; apply W|].
  intros [x v1] (P1 & X & _). cbn [snd] in *.
  assert (W1 : wf v1) by by eapply excited_wf. destruct X as [_ Eb].
  eapply yields_bind; [apply (rows_rd _ _ _ (wf_c _ W1) (wf_tail _ W1))|]. intros row Lr; cbn beta in Lr.
  eapply yields_bind; [by apply filter_yields|]. intros [y delays] Ld. cbn [snd] in Ld. cbn zeta.
  assert (W2 : wf (v1 <| d := delays |>)) by by keep_psola W1.
  eapply (yields_bind _ _ (fun _ => True)).
  { apply yields_check; [|done]. apply negb_true_iff, Z.eqb_neq, (wf_base _ W1). }
  intros _ _. eapply (yields_bind _ _ (rows_ok (Vocoder.m (base v1) + 1))).
  { destruct (_ <? _); [apply (interpolate_yields _ W2)|apply yields_ok, W1]. }
  intros rows Hr. pose proof (Vocoder.wf_pops _ (wf_base _ W1)) as Hp.
  change (base (v1 <| d := delays |>)) with (base v1).
  rewrite i32_ok, bind_Ok by (rewrite Eb in *; cbn in *; lia).
  eapply yields_bind; [apply hop_yields|].
  - assert (W3 : wf (v1 <| d := delays |> <| c := rows |>)) by by keep_psola W2.
    apply (base_wf _ _ W3); [|exact (wf_order _ W1)|done].
    apply (Vocoder.wf_update _ _ (wf_base _ W1)); try done. cbn. rewrite Eb in *. cbn in *. lia.
  - intros v3 W3. by apply yields_ok.
Qed.

(** a row or the delay lines being cleared *)
Lemma clear_yields (n k : Z) (row : list F) :
  0 <= k <= n -> zlen row = n -> yields (clear_row k row) (fun r => zlen r = n).
Proof.
  intros Hk Hr. apply (row_loop n); [lia|done|]. intros i r Hi Hl.
  rewrite wr_ok by lia. apply yields_ok. by rewrite zlen_insert.
Qed.

Lemma clear_rows_yields n k rows :
  0 <= k <= n -> rows_ok n rows -> yields (clear_rows k rows) (rows_ok n).
Proof.
  intros Hk R. unfold clear_rows. apply (for_up_yields (fun _ => rows_ok n)); [apply zlen_nonneg|done|].
  intros i rs Hi Rs. rewrite (proj1 R) in Hi. unfold upd.
  eapply yields_bind; [apply (rows_rd _ _ _ Rs Hi)|]. intros row Lr; cbn beta in Lr.
  eapply yields_bind; [by apply (clear_yields n k)|]. intros row' Lr'. by apply rows_wr.
Qed.

Lemma reset_yields v : wf v -> yields (reset v) wf.
Proof.
  intros W. pose proof (wf_base _ W) as []. unfold reset. cbn zeta.
  assert (M : 0 <= Vocoder.m (base v) <= Vocoder.m (base v) + 1) by lia.
  eapply yields_bind; [by apply (clear_rows_yields _ _ _ M), W|]. intros rows R.
  eapply yields_bind; [by apply (clear_rows_yields _ _ _ M), W|].
  intros incs Ri. unfold mlsadf_size in *. change defaultPadeOrder with 5 in *.
  eapply yields_bind; [apply (clear_yields (Vocoder.csize (base v))); [lia|apply W]|].
  intros delays Ld; cbn beta in Ld. apply yields_ok. destruct W.
  split; cbn; try done; [|by keep_placed|by destruct (cc v)].
  split; cbn; unfold mlsadf_size; change defaultPadeOrder with 5; try done; try lia.
  by intros [|[|]].
Qed.

(** ** Reachable states *)

(** the states of a client that constructs an MLSA vocoder of the default Pade
    order and calls the public operations, its own and those it inherits, with
    frames of the dimensions of Frame.h and settings in the ranges of
    [Vocoder.session_in_bounds]; the getters but [getGamma] change nothing *)
Inductive reachable : t F -> Prop :=
  | Created am aalpha afprd aiprd angain v :
      1 <= am < maxStreamLen -> aiprd <> 0 ->
      create am aalpha afprd aiprd 0 defaultPadeOrder angain = Ok v -> reachable v
  | Pushed v fr fvoiced ign v' :
      reachable v -> Vocoder.frame_dims fr -> prepare v fr fvoiced ign = Ok v' -> reachable v'
  | Popped v noise x v' : reachable v -> pop noise v = Ok (x, v') -> reachable v'
  | Reset v v' : reachable v -> reset v = Ok v' -> reachable v'
  | SetPitch v pitch act force :
      reachable v -> reachable (v <| base := Vocoder.setPitch (base v) pitch act force |>)
  | SetVoiced v b :
      reachable v -> reachable (v <| base := Vocoder.setVoiced (base v) b |>)
  | SetAlpha v x : reachable v -> reachable (v <| base := Vocoder.setAlpha (base v) x |>)
  | SetVolume v x : reachable v -> reachable (v <| base := Vocoder.setVolume (base v) x |>)
  | SetPadeOrder v x b :
      reachable v -> Vocoder.order_ok x -> Vocoder.setPadeOrder (base v) x = Ok b ->
      reachable (v <| base := b |>)
  | SetGamma v x b w :
      reachable v -> (w = true -> Vocoder.gamma (base v) <> None) -> Vocoder.gamma_ok w x ->
      Vocoder.setGamma (base v) x = Ok b -> reachable (v <| base := b |>)
  | GetGamma v : reachable v -> reachable (v <| base := (Vocoder.getGamma (base v)).2 |>)
  | Excited v noise x v' : reachable v -> excite noise v = Ok (x, v') -> reachable v'
  | Pulsed v length window :
      reachable v -> makepulse length = Ok window -> reachable (v <| pulse := window |>).

Lemma psola_create_wf am aalpha afprd aiprd angain v :
  1 <= am < maxStreamLen -> aiprd <> 0 ->
  create am aalpha afprd aiprd 0 defaultPadeOrder angain = Ok v -> wf v.
Proof.
  intros Hm Hi E. destruct (create_holds _ _ _ _ _ _ _ _ E) as ((P & _) & _).
  unfold create in E. apply bind_inv_Ok in E as (b & Eb & E).
  assert (Wb : Vocoder.wf b) by by eapply Vocoder.vocoder_create_wf.
  apply bind_inv_Ok in E as (n & En & E). apply i32_inv in En as [-> _].
  pose proof (Vocoder.wf_m _ Wb). assert (Vocoder.flagFirstPush b = true /\ Vocoder.pd b = 5) as [Ef Ep].
  { unfold Vocoder.create in Eb. apply bind_inv_Ok in Eb as (? & _ & Eb).
    destruct (_ <? 0); [done|]. by apply Ok_inj in Eb as <-. }
  destruct (_ <? 0); [done|]. apply Ok_inj in E as <-.
  assert (R : rows_ok (Vocoder.m b + 1) (replicate (Z.to_nat PSOLA_FRAMEQUEUE_LENGTH)
      (replicate (Z.to_nat (Vocoder.m b + 1)) (nZ 0 : F)))).
  { split; [by rewrite zlen_replicate|]. apply Forall_replicate. rewrite zlen_replicate. lia. }
  pose proof (Vocoder.wf_c _ Wb). pose proof (zlen_nonneg (Vocoder.c b)).
  split; cbn; try done; [by rewrite Ep|]. rewrite zlen_replicate. lia.
Qed.

Lemma excited_in_ring noise v r :
  placed v -> excite noise v = Ok r -> exists ct0, in_ring v ct0.
Proof.
  intros P E1. destruct (excite noise v) as [r1| | |] eqn:E; try done. pose proof E as E2.
  unfold excite in E2. apply bind_inv_Ok in E2 as (v1 & E2 & _). unfold put_sample in E2.
  apply bind_inv_Ok in E2 as (ct0 & Er & _). pose proof (position_decides noise v ct0 P Er) as D.
  exists ct0. destruct (position _ _ _ _); [done|by rewrite D in E..|done].
Qed.

Lemma popped_in_ring noise v r :
  placed v -> pop noise v = Ok r -> exists ct0, in_ring v ct0.
Proof.
  intros P E. unfold pop in E. apply bind_inv_Ok in E as (r1 & E1 & _). by eapply excited_in_ring.
Qed.

Lemma pop_room noise v r :
  placed v -> Vocoder.wf (base v) -> pop noise v = Ok r ->
  Vocoder.nOfPopSinceLastPush (base v) < 2 ^ 31 - 1.
Proof.
  intros P Wb E. destruct (popped_in_ring _ _ _ P E) as [ct0 R]. unfold pop in E.
  apply bind_inv_Ok in E as ([x v1] & E1 & E).
  destruct (excite_yields noise v ct0 P R) as ([x' v1'] & E1' & _ & [_ Eb] & _).
  rewrite E1 in E1'. apply Ok_inj in E1'. injection E1' as <- <-. cbn [snd] in Eb.
  apply bind_inv_Ok in E as (row & _ & E). apply bind_inv_Ok in E as ([y delays] & _ & E).
  cbn zeta in E. apply bind_inv_Ok in E as (_ & _ & E). apply bind_inv_Ok in E as (rows & _ & E).
  apply bind_inv_Ok in E as (n & En & _). apply i32_inv in En as [_ Hn]. cbn in Hn.
  rewrite Eb in Hn. cbn in Hn. lia.
Qed.

Lemma reachable_wf v : reachable v -> wf v.
Proof.
  induction 1 as [am aalpha afprd aiprd angain v Hm Hi E|v fr fvoiced ign v' _ W Hd E
    |v noise x v' _ W E|v v' _ W E|v pitch act force _ W|v b _ W|v x _ W|v x _ W
    |v x b _ W Hx E|v x b w _ W Hg Hx E|v _ W|v noise x v' _ W E|v n window _ W _].
  - by eapply psola_create_wf.
  - destruct (psola_prepare_yields v fr fvoiced ign W) as (v2 & E2 & W2).
    + apply Vocoder.frame_dims_ok; [apply W|done].
    + rewrite E in E2. by apply Ok_inj in E2 as <-.
  - destruct (popped_in_ring _ _ _ (wf_placed _ W) E) as [ct0 R].
    destruct (pop_yields noise v ct0 W R) as (r & E2 & W2).
    + eapply pop_room; [apply W|apply W|done].
    + rewrite E in E2. by apply Ok_inj in E2 as <-.
  - destruct (reset_yields v W) as (v2 & E2 & W2). rewrite E in E2. by apply Ok_inj in E2 as <-.
  - destruct (Vocoder.setPitch_settings (base v) pitch act force) as (Ep & _).
    apply base_wf; [done|by apply Vocoder.setPitch_wf, W|rewrite Ep; exact (wf_order _ W)|].
    clear Ep. unfold Vocoder.setPitch, Vocoder.update_period. cbn zeta.
    by destruct force; repeat (destruct (_ =? _)); cbn; destruct (_ <? _)%num.
  - apply base_wf; [done| |exact (wf_order _ W)|done]. apply (Vocoder.wf_update _ _ (wf_base _ W)); try done. apply W.
  - apply base_wf; [done| |exact (wf_order _ W)|done]. apply (Vocoder.wf_update _ _ (wf_base _ W)); try done. apply W.
  - apply base_wf; [done| |exact (wf_order _ W)|done]. apply (Vocoder.wf_update _ _ (wf_base _ W)); try done. apply W.
  - destruct (Vocoder.setPadeOrder_wf _ _ (wf_base _ W) Hx) as (b' & E' & Wb & p & Eb & Hp).
    rewrite E in E'. apply Ok_inj in E' as <-. subst b. by apply base_wf.
  - destruct (Vocoder.setGamma_wf w _ _ (wf_base _ W) (wf_order _ W) Hg Hx) as (b' & E' & Wb & s & Eb).
    rewrite E in E'. apply Ok_inj in E' as <-. subst b. apply base_wf; [done|done|exact (wf_order _ W)|done].
  - apply base_wf; [done|apply Vocoder.getGamma_wf, W|exact (wf_order _ W)|done].
  - destruct (excited_in_ring _ _ _ (wf_placed _ W) E) as [ct0 R].
    destruct (excite_yields noise v ct0 (wf_placed _ W) R) as (r & E' & P & X & _).
    rewrite E in E'. apply Ok_inj in E' as <-. by eapply excited_wf.
  - by keep_psola W.
Qed.

(** C19: in every state a client reaches through the public operations, its own
    and the inherited ones (the setters with a Pade order of 0 to 5 and 0 to 5
    MGLSA stages, more than 0 once [gamma] was written, on a vocoder constructed
    as an MLSA filter of the default order; not the base class's own pop, excite
    and reset, which are not virtual), a sample is produced without leaving an array, or its excitation leaves the ring: the period is no [int], it is
    shorter than half a sample, or the voice turns unvoiced while the pulse of
    the running period lies behind the end of the ring. *)
Theorem reachable_samples v noise ct0 :
  reachable v -> rounded_period (base v) = Ok ct0 ->
  Vocoder.nOfPopSinceLastPush (base v) < 2 ^ 31 - 1 ->
  match position (Vocoder.voiced (base v)) ct0 (Vocoder.count (base v)) (p_s v) with
  | Ok _ => yields (pop noise v) (fun r => reachable r.2)
  | Undef e => pop noise v = Undef e
  | Exit s => pop noise v = Exit s
  | Timeout => False
  end.
Proof.
  intros R Er Hn. pose proof (reachable_wf _ R) as W.
  pose proof (position_decides noise v ct0 (wf_placed _ W) Er) as D.
  destruct (position _ _ _ _) as [p| | |]; [|by unfold pop; rewrite D..|done].
  destruct (pop_yields noise v ct0 W D Hn) as ([x v'] & E & _). exists (x, v').
  split; [done|]. by eapply Popped.
Qed.

End PsolaVocoder.

(** ** The same excitation, one window later *)

Section Exact.
Context {F : Type} `{NumField F}.
Add Field psola_field : num_field.

Lemma plain_excite (b : Vocoder.t F) vc period ct0 x :
  rounded_period (set_event vc period b) = Ok ct0 ->
  Vocoder.excite x (set_event vc (nZ ct0) b)
  = Ok (sample_of vc (Vocoder.count b) ct0 x,
        (set_event vc (nZ ct0) b) <| Vocoder.count := count_of vc (Vocoder.count b) ct0 |>).
Proof.
  intros E. assert (Ei : to_int (nZ ct0 : F) = Ok ct0).
  { unfold rounded_period in E. apply bind_inv_Ok in E as (n & En & E). apply to_int_inv in En as [_ Hn].
    apply Ok_inj in E as <-. apply to_int_inv. split; [apply ntrunc_nZ|].
    case Z.ltb_spec; intros; [done|lia]. }
  unfold Vocoder.excite, sample_of, count_of. cbn. rewrite Ei.
  destruct vc; [by destruct (_ <=? 0)|done].
Qed.

(** the ring after a sample is put, on exact numbers *)
Lemma ring_after_cell (v : t F) sig e src j :
  holds v sig -> ring_after v e src -> 0 <= j < PSOLA_MAX_OUT_BUFFER_LENGTH ->
  cell src (tail_s v + j)
  = if bool_decide (j = PSOLA_MAX_T0) then e else default (nZ 0) (sig !! Z.to_nat j).
Proof.
  intros (_ & L & S) (_ & A) Hj. specialize (S _ Hj). ring_consts.
  assert (Z0 : PSOLA_MAX_T0 <= j -> default (nZ 0) (sig !! Z.to_nat j) = nZ 0).
  { intros. rewrite lookup_ge_None_2; [done|]. unfold zlen in L. lia. }
  rewrite <-S. destruct (A j Hj) as [[-> ->]|[He C]]; [by rewrite bool_decide_eq_true_2|].
  assert (E : cell src (tail_s v + j) = cell (source v) (tail_s v + j)).
  { destruct C as [->|[->|[Hl ->]]]; [done|ring|]. by rewrite S, Z0 by lia. }
  case_bool_decide as Ej; [|done]. destruct He as [?|Ee]; [done|]. by rewrite E, S, Z0, Ee by lia.
Qed.

Lemma holds_step (v v1 : t F) s sig e src n :
  holds v (s :: sig) -> placed v1 -> excited n v v1 -> ring_after v e src ->
  tail_s v1 = (tail_s v + 1) mod PSOLA_MAX_OUT_BUFFER_LENGTH ->
  source v1 = <[Z.to_nat (tail_s v) := nZ 0]> src ->
  cell src (tail_s v) = s /\ holds v1 (sig ++ [e]).
Proof.
  intros Hh W1 X A Et Es. pose proof Hh as (W & L & S). pose proof A as (Ls & _). ring_consts.
  pose proof (placed_tail _ W) as T. unfold ring_len in Ls.
  assert (Lg : zlen sig + 1 = PSOLA_MAX_T0) by (rewrite <-L; unfold zlen; cbn [length]; lia).
  split.
  { replace (tail_s v) with (tail_s v + 0) by lia.
    rewrite (ring_after_cell v _ e src 0 Hh A) by lia. by rewrite bool_decide_eq_false_2 by lia. }
  split; [done|]. split; [by rewrite zlen_snoc|]. intros j Hj.
  rewrite Es. rewrite (cell_eq _ _ (tail_s v + (j + 1))).
  2: { rewrite zlen_insert, Ls, Et, Zplus_mod_idemp_l. f_equal. lia. }
  rewrite cell_insert, Ls by lia.
  destruct (decide (j + 1 = PSOLA_MAX_OUT_BUFFER_LENGTH)) as [Ej|Ej].
  - rewrite bool_decide_eq_true_2.
    + rewrite lookup_ge_None_2; [done|]. rewrite length_app. unfold zlen in Lg. cbn [length]. lia.
    + rewrite Ej. replace (tail_s v + _) with (tail_s v + 1 * PSOLA_MAX_OUT_BUFFER_LENGTH) by lia.
      rewrite Z.mod_add, Z.mod_small by lia. done.
  - rewrite bool_decide_eq_false_2.
    2: { intros E. assert (j + 1 = 0); [|lia].
         apply (ring_inj (tail_s v) _ _ PSOLA_MAX_OUT_BUFFER_LENGTH); [lia|lia|].
         rewrite E, Z.add_0_r. symmetry. by apply Z.mod_small. }
    rewrite (ring_after_cell v _ e src (j + 1) Hh A) by lia.
    case_bool_decide as Em.
    + rewrite lookup_app_r by (unfold zlen in Lg; lia).
      replace (Z.to_nat j - length sig)%nat with O by (unfold zlen in Lg; lia). done.
    + replace (Z.to_nat (j + 1)) with (Datatypes.S (Z.to_nat j)) by lia.
      change ((s :: sig) !! Datatypes.S (Z.to_nat j)) with (sig !! Z.to_nat j).
      destruct (decide (j + 1 < PSOLA_MAX_T0)).
      * by rewrite lookup_app_l by (unfold zlen in Lg; lia).
      * rewrite !lookup_ge_None_2; [done| |]; rewrite ?length_app; unfold zlen in Lg;
          cbn [length]; lia.
Qed.

Lemma drive_holds es (v : t F) (b : Vocoder.t F) sig :
  holds v sig -> Vocoder.count b = Vocoder.count (base v) ->
  drive es v = (xs ← plain es b (p_s v); Ok (take (length es) (sig ++ xs))).
Proof.
  revert v b sig. induction es as [|[[vc period] x] es IH]; intros v b sig Hh Hb.
  { done. }
  cbn [drive plain]. set (v0 := v <| base := set_event vc period (base v) |>).
  assert (Hh0 : holds v0 sig) by (destruct Hh as ([] & ?); split; [by split|done]).
  assert (Eb : rounded_period (base v0) = rounded_period (set_event vc period b)) by done.
  destruct (rounded_period (set_event vc period b)) as [ct0| | |] eqn:Er;
    try (unfold excite, put_sample; by rewrite Eb).
  rewrite bind_Ok, Hb. pose proof (position_decides x v0 ct0 (proj1 Hh0) Eb) as D.
  change (Vocoder.voiced (base v0)) with vc in D.
  change (Vocoder.count (base v0)) with (Vocoder.count (base v)) in D.
  change (p_s v0) with (p_s v) in D.
  destruct (position _ _ _ _) as [p| | |] eqn:Ep; [|by rewrite D..|done].
  rewrite bind_Ok, (plain_excite b vc period ct0 x Er), bind_Ok.
  destruct (excite_yields x v0 ct0 (proj1 Hh0) D)
    as ([y v1] & -> & W1 & X & Ep1 & Et1 & src & A & Ey & Es).
  cbn [fst snd] in *. rewrite bind_Ok.
  change (Vocoder.voiced (base v0)) with vc in *.
  change (Vocoder.count (base v0)) with (Vocoder.count (base v)) in *.
  destruct sig as [|s sig]; [by destruct Hh as (_ & L & _)|].
  destruct (holds_step v0 v1 s sig _ src _ Hh0 W1 X A Et1 Es) as [Hs Hh1].
  rewrite (IH v1 ((set_event vc (nZ ct0) b)
      <| Vocoder.count := count_of vc (Vocoder.count b) ct0 |>) _ Hh1).
  2: { destruct X as [_ ->]. cbn. by rewrite Hb. }
  assert (Ep2 : p_s v1 = p).
  { change (p_s v0) with (p_s v) in Ep1. rewrite Ep in Ep1. by apply Ok_inj in Ep1. }
  rewrite Ep2, Ey, Hs, Hb. destruct (plain _ _ _) as [xs| | |]; try done.
  cbn. by rewrite <-app_assoc.
Qed.

(** C18: on exact numbers the ring of overlapped windows is a delay line: the
    excitation is the one of the base class at the rounded periods,
    [PSOLA_MAX_T0] samples later and silent before, and it fails where a period
    rounds to nothing or an unvoiced sample would be put at a negative index. *)
Theorem delayed_excitation am aalpha afprd aiprd astage apd angain (v : t F) es :
  create am aalpha afprd aiprd astage apd angain = Ok v ->
  drive es v = (xs ← plain es (base v) PSOLA_MAX_T0;
                Ok (take (length es) (replicate (Z.to_nat PSOLA_MAX_T0) (nZ 0) ++ xs))).
Proof.
  intros E. destruct (create_holds _ _ _ _ _ _ _ _ E) as (Hh & Ep & _).
  by rewrite (drive_holds es v (base v) _ Hh eq_refl), Ep.
Qed.

(** the events of one period *)
Lemma plain_pulse es (b : Vocoder.t F) p n period x f :
  rounded_period (set_event true period b) = Ok n -> 0 < n -> Vocoder.count b = 0 ->
  (forall b', Vocoder.count b' = n ->
     plain es b' ((p + n + 1) mod PSOLA_MAX_OUT_BUFFER_LENGTH) = Undef f) ->
  plain ((true, period, x) :: es) b p = Undef f.
Proof.
  intros Er Hn Hc Hb. cbn [plain]. rewrite Er, bind_Ok, Hc. unfold position. cbn [Z.leb Z.compare].
  zbool. unfold check. zbool. cbn [mbind Res_bind].
  rewrite (plain_excite b true period n x Er), bind_Ok.
  rewrite Hb; [done|]. cbn. by rewrite Hc.
Qed.

Lemma plain_silence (c : nat) es (b : Vocoder.t F) p n period x f :
  rounded_period (set_event true period b) = Ok n -> Vocoder.count b = Z.of_nat c ->
  (forall b', Vocoder.count b' = 0 -> plain es b' p = Undef f) ->
  plain (replicate c (true, period, x) ++ es) b p = Undef f.
Proof.
  revert b. induction c as [|c IH]; intros b Er Hc Hb; [by apply Hb|].
  cbn [replicate app plain]. rewrite Er, bind_Ok, Hc. unfold position. zbool.
  rewrite (plain_excite b true period n x Er), bind_Ok.
  rewrite IH; [done|done| |done]. cbn. rewrite Hc. zbool. lia.
Qed.

Lemma plain_periods (k c : nat) es (b : Vocoder.t F) p period x f :
  rounded_period (set_event true period b) = Ok (Z.of_nat c) -> (0 < c)%nat ->
  Vocoder.count b = 0 ->
  (forall b', Vocoder.count b' = 0 ->
    plain es b' ((p + Z.of_nat k * Z.of_nat (S c)) mod PSOLA_MAX_OUT_BUFFER_LENGTH) = Undef f) ->
  0 <= p < PSOLA_MAX_OUT_BUFFER_LENGTH ->
  plain (replicate (k * S c) (true, period, x) ++ es) b p = Undef f.
Proof.
  ring_consts. revert b p. induction k as [|k IH]; intros b p Er Hc0 Hc Hb Hp.
  { specialize (Hb b Hc). replace ((_ + _) mod _) with p in Hb; [done|].
    rewrite Z.mod_small by lia. lia. }
  replace (S k * S c)%nat with (S (c + k * S c)) by lia. cbn [replicate app].
  eapply plain_pulse; [done|lia|done|]. intros b1 E1.
  rewrite replicate_add, <-app_assoc. eapply plain_silence; [done|done|]. intros b2 E2.
  apply IH; [done|done|done| |apply Z.mod_pos_bound; lia].
  intros b3 E3. rewrite Zplus_mod_idemp_l. rewrite <-(Hb b3 E3). do 2 f_equal. lia.
Qed.

(** C39: a voice of constant period [c] that turns unvoiced just after its pulses
    went round the ring makes the vocoder write in front of the ring: the place
    of the next pulse is wrapped when it is set, the step back is not. *)
Theorem late_unvoicing_overruns am aalpha afprd aiprd astage apd angain (v : t F)
    (k c : nat) period x noise :
  create am aalpha afprd aiprd astage apd angain = Ok v ->
  rounded_period (set_event true period (base v)) = Ok (Z.of_nat c) -> (0 < c)%nat ->
  (PSOLA_MAX_T0 + Z.of_nat (S k) * Z.of_nat (S c)) mod PSOLA_MAX_OUT_BUFFER_LENGTH < Z.of_nat c ->
  drive (replicate (k * S c) (true, period, x) ++ [(true, period, x); (false, period, noise)]) v
  = Undef OutOfBounds.
Proof.
  intros E Er Hc Hw. destruct (create_holds _ _ _ _ _ _ _ _ E) as (Hh & Ep & E0). ring_consts.
  rewrite (drive_holds _ v (base v) _ Hh eq_refl), Ep.
  rewrite (plain_periods k c _ _ _ _ _ OutOfBounds Er Hc E0); [done| |lia].
  intros b Eb. eapply plain_pulse; [done|lia|done|]. intros b1 E1. cbn [plain].
  assert (Er1 : rounded_period (set_event false period b1) = Ok (Z.of_nat c)) by done.
  rewrite Er1, bind_Ok, E1. unfold position, check. rewrite <-Z.add_assoc, Zplus_mod_idemp_l.
  replace (PSOLA_MAX_T0 + _ + _) with (PSOLA_MAX_T0 + Z.of_nat (S k) * Z.of_nat (S c)) by lia.
  by rewrite (proj2 (Z.leb_gt _ _) Hw).
Qed.

End Exact.
(** ** Concrete runs *)

Section Runs.
#[local] Existing Instance no_qlibm.

(** a period of 435 samples: 110 Hz at 48 kHz *)
Definition ex_events : list (event (F := Qc)) :=
  replicate 3 (true, nZ 435, nZ 0) ++ [(false, nZ 435, ndec 5 (-1))].

Lemma ex_created : is_ok (create (F := Qc) 1 (ndec 55 (-2)) 240 1 0 5 false) = true.
Proof. reflexivity. Qed.

Lemma delayed_excitation_witness :
  exists v : t Qc, create 1 (ndec 55 (-2)) 240 1 0 5 false = Ok v /\
    drive ex_events v = (xs ← plain ex_events (base v) PSOLA_MAX_T0;
      Ok (take (length ex_events) (replicate (Z.to_nat PSOLA_MAX_T0) (nZ 0) ++ xs))).
Proof.
  destruct (is_ok_inv _ ex_created) as [v E]. exists v. split; [exact E|].
  exact (delayed_excitation _ _ _ _ _ _ _ v ex_events E).
Defined.

(** the 71st pulse of a 110 Hz voice, 0.64 seconds after its start *)
Lemma late_unvoicing_overruns_witness :
  exists v : t Qc, create 1 (ndec 55 (-2)) 240 1 0 5 false = Ok v /\
    drive (replicate (70 * 436) (true, nZ 435, nZ 0)
             ++ [(true, nZ 435, nZ 0); (false, nZ 435, nZ 1)]) v = Undef OutOfBounds.
Proof.
  destruct (is_ok_inv _ ex_created) as [v E]. exists v. split; [exact E|].
  refine (late_unvoicing_overruns _ _ _ _ _ _ _ v 70 435 (nZ 435) (nZ 0) (nZ 1) E _ _ _).
  - vm_compute. reflexivity.
  - lia.
  - vm_compute. reflexivity.
Defined.

Lemma reachable_samples_witness :
  exists v : t Qc, reachable v /\ rounded_period (base v) = Ok 436 /\
    yields (pop (nZ 0) v) (fun r => reachable r.2).
Proof.
  destruct (create (F := Qc) 1 (ndec 55 (-2)) 240 1 0 5 false) as [v| | |] eqn:E;
    [|pose proof ex_created as X; rewrite E in X; discriminate X..].
  assert (R : reachable v) by (refine (Created _ _ _ _ _ v _ _ E); done).
  assert (Er : rounded_period (base v) = Ok 436).
  { apply Ok_inj in E as <-. vm_compute. reflexivity. }
  exists v. split; [exact R|]. split; [exact Er|].
  pose proof (reachable_samples v (nZ 0) 436 R Er) as P. apply Ok_inj in E as <-.
  exact (P ltac:(vm_compute; reflexivity)).
Defined.
End Runs.
End PsolaVocoder.
