(* ===== verification/Label.v ===== *)
(** * Labels (mage/src/Label.cpp, Label.h; isdigit_string of mage/src/hts.cpp)

    A label line is split at spaces into a begin time, an end time and a query.
    The three pieces go through static strings, which keep their value when a
    line has fewer pieces, and through fixed buffers of [maxStrLen] bytes. *)

From Stdlib Require Import Ascii String.
From S2P Require Import Prelude Num Constants CString.
#[local] Open Scope Z_scope.

Module Label.

(** ** State *)

Record t (F : Type) := mk {
  query : string;
  isDurationForcedFlag : bool;
  speed : F;
  begin_ : Z;
  end_ : Z
}.
Arguments mk {F}. Arguments query {F}. Arguments isDurationForcedFlag {F}.
Arguments speed {F}. Arguments begin_ {F}. Arguments end_ {F}.

#[global] Instance eta_label F : Settable (t F) := fun l =>
  mk (query l) (isDurationForcedFlag l) (speed l) (begin_ l) (end_ l).

(** the static strings [first], [middle] and [last] of parseQuery *)
Record statics := mkStatics { first : string; middle : string; last : string }.

Section Label.
Context {F : Type} `{NumOps F}.
Variable strtod_special : string -> F.

(** ** Operations *)

Definition create : t F := mk EmptyString false (nZ 1) (-1) (-1).

Definition getQuery (l : t F) : string := query l.
Definition getSpeed (l : t F) : F := speed l.
Definition getBegin (l : t F) : Z := begin_ l.
Definition getEnd (l : t F) : Z := end_ l.
Definition isDurationForced (l : t F) : bool := isDurationForcedFlag l.
Definition setBegin (l : t F) (b : Z) : t F := l <| begin_ := b |>.
Definition setEnd (l : t F) (e : Z) : t F := l <| end_ := e |>.
Definition setSpeed (l : t F) (s : F) : t F := l <| speed := s |>.
Definition setDurationForced (l : t F) (f : bool) : t F := l <| isDurationForcedFlag := f |>.

Definition parseQuery (st : statics) (q : string) : Res (t F * statics) :=
  let liness := Some q in
  let '(first, liness) := getline liness (first st) space in
  let '(middle, liness) := getline liness (middle st) space in
  let '(last, liness) := getline liness (last st) space in
  strBegin ← strcpy maxStrLen first;
  strEnd ← strcpy maxStrLen middle;
  strQuery ← strcpy maxStrLen last;
  let st := mkStatics first middle last in
  if isdigit_string strBegin && isdigit_string strEnd then
    b ← to_int (atof strtod_special strBegin);
    e ← to_int (atof strtod_special strEnd);
    Ok (mk strQuery true (nZ 1) b e, st)
  else Ok (mk strBegin false (nZ 1) (-1) (-1), st).

Definition setQuery : statics -> string -> Res (t F * statics) := parseQuery.

(** [Label( string q )] *)
Definition of_string : statics -> string -> Res (t F * statics) := parseQuery.

End Label.

(** ** Decimal times *)

(** a string of one or more digits, and its value *)
Fixpoint all_digits (s : string) : bool :=
  match s with
  | EmptyString => true
  | String a s => match digit a with Some _ => all_digits s | None => false end
  end.
Definition numeral (s : string) : Prop := s <> EmptyString /\ all_digits s = true.
Definition value (s : string) : Z := (digits 0 0 s).1.1.

Lemma digits_all s acc n :
  all_digits s = true -> exists v, digits acc n s = (v, n + str_len s, EmptyString).
Proof.
  revert acc n. induction s as [|a s IH]; intros acc n E; simpl in *.
  - exists acc. f_equal. f_equal. unfold str_len. simpl. lia.
  - destruct (digit a) as [d|]; [|done]. destruct (IH (10 * acc + d) (n + 1) E) as [v ->].
    exists v. f_equal. f_equal. unfold str_len. simpl. lia.
Qed.

Lemma digit_not_special a d :
  digit a = Some d -> is_space a = false /\ Ascii.eqb a (chr 45) = false /\
  Ascii.eqb a (chr 43) = false /\ a <> space /\ a <> NUL /\
  Ascii.eqb a (chr 120) = false /\ Ascii.eqb a (chr 88) = false.
Proof.
  intros E. assert (R : 48 <= Z.of_nat (nat_of_ascii a) <= 57).
  { unfold digit in E. destruct (_ && _) eqn:B; [|done].
    rewrite andb_true_iff, !Z.leb_le in B. done. }
  assert (N : forall n, (n < 256)%nat -> ~ (48 <= n <= 57)%nat -> a <> chr n).
  { intros n Hn Hr ->. unfold chr in R. rewrite nat_ascii_embedding in R by done. lia. }
  split_and!; try (apply Ascii.eqb_neq, N; lia); try (apply N; lia).
  unfold is_space. apply orb_false_iff. rewrite Nat.eqb_neq, andb_false_iff, !Nat.leb_gt. lia.
Qed.

Lemma digit_not_letter a d :
  digit a = Some d -> existsb (fun n => Ascii.eqb a (chr n)) [73; 78; 105; 110]%nat = false.
Proof.
  intros E. apply not_true_is_false. intros X. apply existsb_exists in X as (n & Hn & Ea).
  apply Ascii.eqb_eq in Ea as ->.
  repeat destruct Hn as [<-|Hn]; try done; vm_compute in E; discriminate.
Qed.

Lemma numeral_head s : numeral s -> exists a t, s = String a t /\ is_Some (digit a) /\ all_digits t = true.
Proof.
  intros [Hn Ha]. destruct s as [|a t]; [done|]. simpl in Ha.
  exists a, t. destruct (digit a) eqn:E; [|done]. split_and!; eauto.
Qed.

Lemma numeral_free s : all_digits s = true -> free_of space s /\ free_of NUL s.
Proof.
  induction s as [|a s IH]; simpl; [done|]. destruct (digit a) as [d|] eqn:E; [|done].
  intros Hs. apply digit_not_special in E. destruct (IH Hs). tauto.
Qed.

Lemma numeral_scan s :
  numeral s -> sign (skip_spaces s) = (1, s) /\ is_special s = false /\
  digits 0 0 s = (value s, str_len s, EmptyString).
Proof.
  intros Hs. pose proof Hs as [_ Ha].
  destruct (numeral_head _ Hs) as (a & t & -> & [d Ed] & Ht).
  destruct (digit_not_special _ _ Ed) as (S1 & S2 & S3 & _).
  split; [cbn [skip_spaces]; rewrite S1; cbn [sign]; by rewrite S2, S3|]. split.
  - pose proof (digit_not_letter _ _ Ed) as X. cbn [is_special]. rewrite X.
    destruct t as [|b t]; [done|]. simpl in Ht. destruct (digit b) eqn:Eb; [|done].
    apply digit_not_special in Eb as (_ & _ & _ & _ & _ & X1 & X2).
    by rewrite X1, X2, andb_false_r.
  - destruct (digits_all (String a t) 0 0 Ha) as [v E]. unfold value. by rewrite E.
Qed.

Lemma isdigit_numeral s : numeral s -> isdigit_string s = true.
Proof.
  intros Hs. unfold isdigit_string. destruct (numeral_scan s Hs) as (-> & _ & ->).
  apply Z.ltb_lt. destruct (numeral_head _ Hs) as (a & t & -> & _). unfold str_len. simpl. lia.
Qed.

Lemma digits_nonneg s acc n : 0 <= acc -> 0 <= (digits acc n s).1.1.
Proof.
  revert acc n. induction s as [|a s IH]; intros acc n Ha; simpl; [done|].
  destruct (digit a) as [d|] eqn:E; [|done]. apply IH.
  unfold digit in E. destruct (_ && _) eqn:B; [|done]. injection E as <-.
  rewrite andb_true_iff, !Z.leb_le in B. lia.
Qed.

Lemma value_nonneg s : 0 <= value s.
Proof. by apply digits_nonneg. Qed.

Section Untimed.
Context {F : Type} `{NumOps F}.
Variable strtod_special : string -> F.

Lemma atof_numeral s : numeral s -> atof strtod_special s = ndec (value s) 0.
Proof.
  intros Hs. unfold atof. destruct (numeral_scan s Hs) as (-> & -> & ->).
  cbn [exponent]. f_equal; lia.
Qed.

(** ** Lines without times *)

(** A line whose first piece is not a number gives an untimed label with
    that piece as its query; a first piece of [maxStrLen] bytes or more
    overruns the buffer. *)
Theorem untimed_line st s :
  free_of space s -> free_of NUL s -> isdigit_string s = false ->
  free_of NUL (middle st) -> str_len (middle st) < maxStrLen ->
  free_of NUL (last st) -> str_len (last st) < maxStrLen ->
  parseQuery strtod_special st s =
    if str_len s <? maxStrLen
    then Ok (mk s false (nZ 1) (-1) (-1), mkStatics s (middle st) (last st))
    else Undef OutOfBounds.
Proof.
  intros Hs Hn Hd Hm Hml Hl Hll. unfold parseQuery, getline. rewrite split_at_end by done.
  case Z.ltb_spec; intros Hlen.
  - rewrite !strcpy_ok, !bind_Ok by done. by rewrite Hd.
  - assert (E : strcpy maxStrLen s = Undef OutOfBounds).
    { unfold strcpy. rewrite cstr_free by done.
      by rewrite (proj2 (Z.ltb_ge (str_len s) maxStrLen) Hlen). }
    by rewrite E.
Qed.

End Untimed.

Section Timed.
Context {F : Type} `{NumInt F}.
Variable strtod_special : string -> F.

(** a decimal time that fits an [int] and the buffer *)
Definition time (s : string) : Prop :=
  numeral s /\ str_len s < maxStrLen /\ value s < 2 ^ 31.

Definition text (s : string) : Prop :=
  free_of space s /\ free_of NUL s /\ str_len s < maxStrLen.

Lemma time_text s : time s -> text s.
Proof. intros (Hn & Hl & _). destruct (numeral_free s) as [? ?]; [apply Hn|]. done. Qed.

Lemma strcpy_text s : text s -> strcpy maxStrLen s = Ok s.
Proof. intros (_ & ? & ?). by apply strcpy_ok. Qed.

Lemma to_int_time s : time s -> to_int (atof strtod_special s) = Ok (value s).
Proof.
  intros (Hn & _ & Hv). rewrite atof_numeral by done. apply to_int_lit.
  pose proof (value_nonneg s). lia.
Qed.

(** C32: a line "begin end query" with decimal times gives a label with the two
    times and the query, and a forced duration. *)
Theorem timed_line st b e q :
  time b -> time e -> text q ->
  parseQuery strtod_special st (b ++ String space (e ++ String space q))
  = Ok (mk q true (nZ 1) (value b) (value e), mkStatics b e q).
Proof.
  intros Hb He Hq. pose proof (time_text _ Hb) as Tb. pose proof (time_text _ He) as Te.
  unfold parseQuery, getline.
  rewrite (split_at_app space b) by apply Tb. rewrite (split_at_app space e) by apply Te.
  rewrite split_at_end by apply Hq. rewrite !strcpy_text, !bind_Ok by done.
  rewrite !isdigit_numeral by (apply Hb || apply He). cbn [andb].
  by rewrite !to_int_time.
Qed.

(** A line with a single number takes its end time and its query from the
    line parsed before it, because the pieces it lacks keep their value in the
    static strings. *)
Theorem stale_pieces st b :
  time b -> time (middle st) -> text (last st) ->
  parseQuery strtod_special st b
  = Ok (mk (last st) true (nZ 1) (value b) (value (middle st)),
        mkStatics b (middle st) (last st)).
Proof.
  intros Hb He Hq. pose proof (time_text _ Hb) as Tb. pose proof (time_text _ He) as Te.
  unfold parseQuery, getline. rewrite split_at_end by apply Tb.
  rewrite !strcpy_text, !bind_Ok by done.
  rewrite !isdigit_numeral by (apply Hb || apply He). cbn [andb].
  by rewrite !to_int_time.
Qed.
End Timed.

(** ** Concrete lines *)

Section Runs.
#[local] Existing Instance no_libm.
#[local] Open Scope string_scope.
Definition no_hex (_ : string) : double := nZ 0.

Definition ex_statics : statics := mkStatics "0" "250" "pau".

Example timed_example :
  fst <$> parseQuery no_hex ex_statics "100 200 x^x-pau+h=e" = Ok (mk "x^x-pau+h=e" true (nZ 1) 100 200).
Proof. vm_compute. reflexivity. Qed.

Lemma timed_line_witness :
  parseQuery no_hex ex_statics ("100" ++ String space ("200" ++ String space "a-b+c"))
  = Ok (mk "a-b+c" true (nZ 1) 100 200, mkStatics "100" "200" "a-b+c").
Proof. refine (timed_line no_hex ex_statics "100" "200" "a-b+c" _ _ _); by_run. Defined.

Lemma stale_pieces_witness :
  parseQuery no_hex ex_statics "100" = Ok (mk "pau" true (nZ 1) 100 250, mkStatics "100" "250" "pau").
Proof. refine (stale_pieces no_hex ex_statics "100" _ _ _); by_run. Defined.

Lemma untimed_line_witness :
  parseQuery no_hex ex_statics "x^x-pau"
  = Ok (mk "x^x-pau" false (nZ 1) (-1) (-1), mkStatics "x^x-pau" "250" "pau").
Proof. refine (untimed_line no_hex ex_statics "x^x-pau" _ _ _ _ _ _ _); by_run. Defined.
End Runs.
End Label.
