(* ===== verification/Voice.v ===== *)
(** * Voices: what MAGE reads from hts_engine

    A loaded voice is a set of models ([HTS_ModelSet]) and the settings of the
    engine ([HTS_Global]).  The selection of distributions by decision trees is
    hts_engine's: it is the interface [Voice] here, one operation per function
    MAGE calls, and [VoiceLaws] is what MAGE relies on. *)

From Stdlib Require Import String.
From S2P Require Import Prelude Num Constants CString.

(** [HTS_Global]: the settings and the interpolation weights *)
Record Global (F : Type) := mkGlobal {
  sampling_rate : Z;
  fperiod : Z;
  msd_threshold : list F;
  duration_iw : list F;
  parameter_iw : list (list F);
  gv_iw : list (list F)
}.
Arguments mkGlobal {F}. Arguments sampling_rate {F}. Arguments fperiod {F}.
Arguments msd_threshold {F}. Arguments duration_iw {F}. Arguments parameter_iw {F}.
Arguments gv_iw {F}.

#[global] Instance eta_global F : Settable (Global F) := fun g =>
  mkGlobal (sampling_rate g) (fperiod g) (msd_threshold g) (duration_iw g)
    (parameter_iw g) (gv_iw g).

(** the functions of hts_engine on a model set: the results are mean, variance
    (and MSD value).  The switch of the global variance is asked for a label
    without anything being done with the answer, so its outcome is kept: the
    program ends when no tree of the switch takes the label *)
Record Voice (F : Type) := mkVoice {
  get_duration : string -> list F -> list F * list F;
  get_parameter : string -> Z -> Z -> list F -> list F * list F * F;
  get_gv : string -> Z -> list F -> list F * list F;
  msd_flag : Z -> bool;
  use_gv : Z -> bool;
  vector_length : Z -> Z;
  duration_interpolation_size : Z;
  parameter_interpolation_size : Z -> Z;
  gv_interpolation_size : Z -> Z;
  window_size : Z -> Z;
  l_width : Z -> Z -> Z;
  r_width : Z -> Z -> Z;
  coefficient : Z -> Z -> Z -> F;
  max_width : Z -> Z;
  have_gv_switch : bool;
  get_gv_switch : string -> Res bool
}.
Arguments mkVoice {F}. Arguments get_duration {F}. Arguments get_parameter {F}.
Arguments get_gv {F}. Arguments msd_flag {F}. Arguments use_gv {F}.
Arguments vector_length {F}. Arguments duration_interpolation_size {F}.
Arguments parameter_interpolation_size {F}. Arguments gv_interpolation_size {F}.
Arguments window_size {F}. Arguments l_width {F}. Arguments r_width {F}.
Arguments coefficient {F}. Arguments max_width {F}. Arguments have_gv_switch {F}.
Arguments get_gv_switch {F}.

(** an engine of MAGE (mage/src/hts.h): [global] and [ms] *)
Record Engine (F : Type) := mkEngine { global : Global F; ms : Voice F }.
Arguments mkEngine {F}. Arguments global {F}. Arguments ms {F}.

(** the dimensions of a voice that MAGE's buffers are made for *)
Class VoiceLaws {F : Type} (v : Voice F) : Prop := {
  voice_duration : forall q iw, zlen (get_duration v q iw).1 = nOfStates /\
    zlen (get_duration v q iw).2 = nOfStates;
  voice_vector : forall k, 0 <= k < nOfStreams -> 0 < vector_length v k <= maxStreamLen;
  voice_parameter : forall q k i iw, 0 <= k < nOfStreams ->
    zlen (get_parameter v q k i iw).1.1 = vector_length v k /\
    zlen (get_parameter v q k i iw).1.2 = vector_length v k;
  (* the global variance may be of the static features only *)
  voice_gv : forall q k iw, 0 <= k < nOfStreams ->
    zlen (get_gv v q k iw).1 <= maxStreamLen /\ zlen (get_gv v q k iw).2 <= maxStreamLen;
  voice_window : forall k, 0 <= k < nOfStreams ->
    0 < window_size v k /\ window_size v k <= vector_length v k;
  (* windows of odd lengths, as wide as the band matrix allows *)
  voice_widths : forall k, 0 <= k < nOfStreams ->
    0 <= max_width v k /\ max_width v k * 2 + 1 <= maxWindowWidth;
  voice_symmetric : forall k i, 0 <= k < nOfStreams -> 0 <= i < window_size v k ->
    l_width v k i = - r_width v k i /\ 0 <= r_width v k i <= max_width v k;
  (* the switch, where there is one, answers every label that fits its buffer *)
  voice_switch : forall q, have_gv_switch v = true -> str_len (cstr q) < maxStrLen ->
    yields (get_gv_switch v (cstr q)) (fun _ => True)
}.
