(* ===== verification/HtsPattern.v ===== *)
(** * Patterns of questions (HTS_dp_match and HTS_pattern_match of
    mage/libs/hts_engine-1.06/HTS_model.c)

    A pattern is matched by a search that carries how many characters the stars
    have taken ([pos]) and how many they may take ([max]), or, for a string
    between two stars, by [strstr].  Both are the language of the pattern
    ([glob]), and no character is read past the end of either string. *)

From Stdlib Require Import Ascii String.
From S2P Require Import Prelude Num Constants CString.
#[local] Open Scope Z_scope.

Module HtsPattern.

Definition HTS_MAXBUFLEN : Z := 1024.

Definition star : ascii := chr 42.
Definition question : ascii := chr 63.

(** the array behind a [char *]: the characters and the NUL *)
Definition bytes (s : list ascii) : list ascii := s ++ [NUL].

(** ** Operations *)

(** the recursion on [string] and [pattern], which are [str + s] and [pat + p] *)
Fixpoint HTS_dp_match (fuel : nat) (str pat : list ascii) (s p pos max : Z) : Res bool :=
  match fuel with
  | O => Timeout
  | S fuel =>
      if max <? pos then Ok false
      else
        c ← rd str s; d ← rd pat p;
        if Ascii.eqb c NUL && Ascii.eqb d NUL then Ok true
        else if Ascii.eqb d star then
          pos1 ← i32 (pos + 1);
          found ← HTS_dp_match fuel str pat (s + 1) p pos1 max;
          if found : bool then Ok true else HTS_dp_match fuel str pat s (p + 1) pos max
        else if Ascii.eqb c d || Ascii.eqb d question then
          pos1 ← i32 (pos + 1); max1 ← i32 (max + 1);
          HTS_dp_match fuel str pat (s + 1) (p + 1) pos1 max1
        else Ok false
  end.

(** [max], [nstar] and [nquestion] after the loop over the pattern *)
Definition count_char (n : Z * Z * Z) (c : ascii) : Z * Z * Z :=
  let '(max, nstar, nquestion) := n in
  if Ascii.eqb c star then (max, nstar + 1, nquestion)
  else if Ascii.eqb c question then (max + 1, nstar, nquestion + 1)
  else (max + 1, nstar, nquestion).

(** [strstr( string, buff ) != NULL] *)
Fixpoint strstr (str buff : list ascii) : bool :=
  bool_decide (take (length buff) str = buff) ||
  match str with [] => false | _ :: str => strstr str buff end.

(** the copy of what is between the two stars *)
Definition inner (pattern : list ascii) : Res (list ascii) :=
  let buff_length := zlen pattern - 2 in
  check (buff_length <? HTS_MAXBUFLEN) OutOfBounds ;;
  Ok (take (Z.to_nat buff_length) (drop 1 pattern)).

Definition HTS_pattern_match (string pattern : list ascii) : Res bool :=
  let '(max, nstar, nquestion) := foldl count_char (0, 0, 0) pattern in
  let i := zlen pattern in
  if (nstar =? 2) && (nquestion =? 0) && bool_decide (pattern !! O = Some star) &&
     bool_decide (pattern !! Z.to_nat (i - 1) = Some star)
  then buff ← inner pattern; Ok (strstr string buff)
  else
    HTS_dp_match (S (length string + length pattern)) (bytes string) (bytes pattern) 0 0 0
      (to_i32 (zlen string - max)).

(** ** The language of a pattern *)

Inductive glob : list ascii -> list ascii -> Prop :=
  | glob_nil : glob [] []
  | glob_star p u t : glob p t -> glob (star :: p) (u ++ t)
  | glob_any p c t : glob p t -> glob (question :: p) (c :: t)
  | glob_char p c t : c <> star -> glob p t -> glob (c :: p) (c :: t).

(** characters that take one character of the text *)
Definition takes_one (c : ascii) : bool := negb (Ascii.eqb c star).
Definition width (p : list ascii) : Z := zlen (List.filter takes_one p).

(** ** The search decides the language *)

Lemma bytes_hd u s : rd (bytes (u ++ s)) (zlen u) = Ok (hd NUL s).
Proof.
  unfold bytes. rewrite <-app_assoc. apply rd_ok; [apply zlen_nonneg|].
  unfold zlen. rewrite Nat2Z.id, lookup_app_r, Nat.sub_diag by lia. by destruct s.
Qed.

Lemma width_star p : width (star :: p) = width p.
Proof. done. Qed.
Lemma width_one c p : c <> star -> width (c :: p) = width p + 1.
Proof.
  intros Hc. unfold width. cbn [List.filter]. unfold takes_one at 1.
  rewrite (proj2 (Ascii.eqb_neq c star)) by done. apply zlen_cons.
Qed.

Lemma width_nonneg p : 0 <= width p.
Proof. apply zlen_nonneg. Qed.

Lemma glob_width p t : glob p t -> width p <= zlen t.
Proof.
  induction 1 as [|p u t _ IH|p c t _ IH|p c t Hc _ IH]; [done|..].
  - rewrite width_star, zlen_app. pose proof (zlen_nonneg u). lia.
  - rewrite width_one, zlen_cons by done. lia.
  - rewrite width_one, zlen_cons by done. lia.
Qed.

Lemma glob_star_step p t :
  glob (star :: p) t <-> glob p t \/ exists c t', t = c :: t' /\ glob (star :: p) t'.
Proof.
  split.
  - intros G. inversion G as [|q u t' G' E1 E2| |q c t' Hc G' E1 E2]; subst; [|done].
    destruct u as [|c u]; [by left|]. right. exists c, (u ++ t'). split; [done|]. by constructor.
  - intros [G|(c & t' & -> & G)]; [by apply (glob_star p [] t)|].
    inversion G as [|q u t1 G' E1 E2| |q c' t1 Hc G' E1 E2]; subst; [|done].
    by apply (glob_star p (c :: u) t1).
Qed.

Lemma glob_one_step c p x t : c <> star -> glob (c :: p) (x :: t) <-> (x = c \/ c = question) /\ glob p t.
Proof.
  intros Hc. split.
  - intros G. inversion G; subst; try done; auto.
  - intros [[->| ->] G]; [by apply glob_char|by apply glob_any].
Qed.

Lemma glob_nil_l t : glob [] t <-> t = [].
Proof. split; [by inversion 1|]. intros ->. constructor. Qed.

Lemma glob_nil_one c p : c <> star -> ~ glob (c :: p) [].
Proof. intros Hc G. inversion G; subst; done. Qed.

Lemma dp_match_short fuel str pat s p pos max :
  max < pos -> HTS_dp_match (S fuel) str pat s p pos max = Ok false.
Proof. intros Hlt. cbn. by rewrite (proj2 (Z.ltb_lt _ _)). Qed.

Lemma dp_match_spec fuel u s v p pos max :
  (length s + length p < fuel)%nat -> NUL ∉ s -> NUL ∉ p ->
  max - pos = zlen s - width p -> 0 <= pos -> pos + zlen s < 2 ^ 31 - 1 ->
  yields (HTS_dp_match fuel (bytes (u ++ s)) (bytes (v ++ p)) (zlen u) (zlen v) pos max)
    (fun b => b = true <-> glob p s).
Proof.
  revert u s v p pos max. induction fuel as [|fuel IH]; [lia|].
  intros u s v p pos max Hf Hs Hp Hm H0 H1. pose proof (width_nonneg p).
  cbn [HTS_dp_match]. case Z.ltb_spec; intros Hlt.
  { apply yields_ok. split; [done|]. intros G%glob_width. lia. }
  rewrite !bytes_hd, !bind_Ok. destruct p as [|d p].
  - destruct s as [|c s]; cbn [hd].
    + apply yields_ok. by rewrite glob_nil_l.
    + apply not_elem_of_cons in Hs as [Hc Hs]. rewrite (proj2 (Ascii.eqb_neq c NUL)) by done.
      cbn. apply yields_ok. by rewrite glob_nil_l.
  - apply not_elem_of_cons in Hp as [Hd Hp]. cbn [hd]. rewrite (proj2 (Ascii.eqb_neq d NUL)), andb_false_r by done.
    assert (Ev : forall q, bytes (v ++ d :: q) = bytes ((v ++ [d]) ++ q)) by (intros q; by rewrite <-app_assoc).
    pose proof (width_nonneg p). cbn [length] in Hf.
    destruct (Ascii.eqb_spec d star) as [->|Hst].
    + rewrite width_star in Hm. rewrite i32_ok, bind_Ok by lia. destruct s as [|c s].
      * destruct fuel as [|fuel]; [lia|].
        rewrite (dp_match_short _ _ _ _ _ (pos + 1)), bind_Ok by (change (zlen []) with 0 in Hm; lia).
        rewrite Ev, <-(zlen_snoc v star). eapply yields_mono; [apply IH; (done || cbn [length]; lia)|].
        intros b ->. rewrite glob_star_step. split; [by left|]. by intros [?|(? & ? & ? & ?)].
      * assert (Eu : bytes (u ++ c :: s) = bytes ((u ++ [c]) ++ s)) by by rewrite <-app_assoc.
        assert (Zs : zlen (c :: s) = zlen s + 1) by apply zlen_cons.
        apply not_elem_of_cons in Hs as [Hc Hs]. cbn [length] in Hf.
        destruct (IH (u ++ [c]) s v (star :: p) (pos + 1) max) as (b & Eb & Hb); cbn [length];
          [lia|done|by apply not_elem_of_cons|rewrite width_star; lia|lia|lia|].
        rewrite Eu, <-(zlen_snoc u c), Eb, bind_Ok. destruct b.
        { apply yields_ok. split; [|done]. intros _. rewrite glob_star_step. right.
          exists c, s. split; [done|]. by apply Hb. }
        rewrite <-Eu, Ev, <-(zlen_snoc v star).
        eapply yields_mono; [apply IH; cbn [length]; try lia; [by apply not_elem_of_cons|done]|].
        intros b ->. rewrite (glob_star_step p (c :: s)). split; [by left|].
        intros [?|(c' & s' & [= <- <-] & G)]; [done|]. apply Hb in G. done.
    + rewrite width_one in Hm by done. destruct s as [|c s]; [change (zlen []) with 0 in Hm; lia|].
      assert (Eu : bytes (u ++ c :: s) = bytes ((u ++ [c]) ++ s)) by by rewrite <-app_assoc.
      assert (Zs : zlen (c :: s) = zlen s + 1) by apply zlen_cons.
      apply not_elem_of_cons in Hs as [Hc Hs]. cbn [hd]. cbn [length] in Hf.
      destruct (Ascii.eqb c d || Ascii.eqb d question) eqn:Em.
      * rewrite !i32_ok, !bind_Ok by lia. rewrite Eu, Ev, <-(zlen_snoc u c), <-(zlen_snoc v d).
        eapply yields_mono; [apply IH; try done; lia|]. intros b ->. rewrite glob_one_step by done.
        apply orb_true_iff in Em as [E%Ascii.eqb_eq|E%Ascii.eqb_eq]; tauto.
      * apply yields_ok. split; [done|]. rewrite glob_one_step by done.
        apply orb_false_iff in Em as [E1%Ascii.eqb_neq E2%Ascii.eqb_neq]. tauto.
Qed.

(** ** The string between two stars *)

Lemma strstr_spec t b : strstr t b = true <-> exists u v, t = u ++ b ++ v.
Proof.
  assert (Hd : forall s, take (length b) s = b -> s = b ++ drop (length b) s).
  { intros s E. rewrite <-E at 1. by rewrite take_drop. }
  split.
  - induction t as [|c t IH]; cbn [strstr]; intros [E%bool_decide_eq_true|E]%orb_true_iff; try done.
    + exists [], (drop (length b) []). by apply Hd.
    + exists [], (drop (length b) (c :: t)). by apply Hd.
    + destruct (IH E) as (u & v & ->). by exists (c :: u), v.
  - intros (u & v & ->). induction u as [|c u IH].
    + cbn [app]. destruct (b ++ v) eqn:E; cbn [strstr]; rewrite <-E, take_app_length;
        by rewrite bool_decide_eq_true_2.
    + cbn [app strstr]. rewrite IH. apply orb_true_r.
Qed.

Lemma glob_app p q t : glob (p ++ q) t <-> exists t1 t2, t = t1 ++ t2 /\ glob p t1 /\ glob q t2.
Proof.
  split.
  - revert t. induction p as [|c p IH]; intros t G; cbn in G.
    { exists [], t. split; [done|]. split; [constructor|done]. }
    inversion G as [|q' u t' G' E1 E2|q' x t' G' E1 E2|q' x t' Hc G' E1 E2]; subst;
      destruct (IH _ G') as (t1 & t2 & -> & G1 & G2).
    + exists (u ++ t1), t2. rewrite app_assoc. split; [done|]. by split; [constructor|].
    + exists (x :: t1), t2. split; [done|]. by split; [constructor|].
    + exists (c :: t1), t2. split; [done|]. by split; [constructor|].
  - intros (t1 & t2 & -> & G1 & G2). induction G1; cbn; try (by constructor); [done|].
    rewrite <-app_assoc. by constructor.
Qed.

(** a pattern without stars and question marks stands for itself *)
Definition literal (p : list ascii) : Prop := Forall (fun c => c <> star /\ c <> question) p.

Lemma glob_literal p t : literal p -> glob p t <-> t = p.
Proof.
  intros L. split.
  - intros G. induction G as [|p u t _ _|p c t _ _|p c t _ G IH]; [done|..];
      apply Forall_cons in L as [[L1 L2] L]; try done. by rewrite IH.
  - intros ->. induction L as [|c p [Hc _] _ IH]; by constructor.
Qed.

Lemma glob_stars m t : literal m -> glob (star :: m ++ [star]) t <-> exists u v, t = u ++ m ++ v.
Proof.
  intros L. assert (All : forall v, glob [star] v) by (intros v; rewrite <-(app_nil_r v); repeat constructor).
  change (star :: m ++ [star]) with ([star] ++ (m ++ [star])). rewrite glob_app. split.
  - intros (u & w & -> & _ & G). apply glob_app in G as (t1 & v & -> & G & _).
    apply glob_literal in G as ->; [|done]. by exists u, v.
  - intros (u & v & ->). exists u, (m ++ v). split; [done|]. split; [done|]. apply glob_app.
    exists m, v. split; [done|]. split; [by apply glob_literal|done].
Qed.

(** ** The counts *)

Definition is_star (c : ascii) : bool := Ascii.eqb c star.
Definition is_question (c : ascii) : bool := Ascii.eqb c question.

Lemma counts p w a b :
  foldl count_char (w, a, b) p =
    (w + width p, a + zlen (List.filter is_star p), b + zlen (List.filter is_question p)).
Proof.
  revert w a b. induction p as [|c p IH]; intros w a b; cbn [foldl].
  { change (width []) with 0. change (zlen (List.filter _ [])) with 0. by rewrite !Z.add_0_r. }
  unfold count_char at 2. cbn [List.filter]. unfold is_star at 1, is_question at 1.
  destruct (Ascii.eqb_spec c star) as [->|Hc].
  - rewrite IH, width_star. change (Ascii.eqb star question) with false. rewrite zlen_cons.
    rewrite !pair_equal_spec. lia.
  - rewrite width_one by done. destruct (Ascii.eqb c question); rewrite IH, ?zlen_cons, !pair_equal_spec; lia.
Qed.

Lemma filter_nil_literal p :
  zlen (List.filter is_star p) = 0 -> zlen (List.filter is_question p) = 0 -> literal p.
Proof.
  induction p as [|c p IH]; [constructor|]. cbn [List.filter]. unfold is_star at 1, is_question at 1.
  pose proof (zlen_nonneg (List.filter is_star p)). pose proof (zlen_nonneg (List.filter is_question p)).
  destruct (Ascii.eqb_spec c star); [rewrite zlen_cons; lia|].
  destruct (Ascii.eqb_spec c question); [rewrite zlen_cons; lia|].
  intros. constructor; [done|]. by apply IH.
Qed.

(** the patterns that are given to [strstr] *)
Lemma two_stars p :
  zlen (List.filter is_star p) = 2 -> zlen (List.filter is_question p) = 0 ->
  p !! O = Some star -> p !! Z.to_nat (zlen p - 1) = Some star ->
  exists m, p = star :: m ++ [star] /\ literal m.
Proof.
  intros Hs Hq H0 H1. destruct p as [|c p]; [done|]. injection H0 as ->.
  destruct p as [|c' p _] using rev_ind; [done|].
  assert (c' = star) as ->.
  { rewrite zlen_cons, zlen_app in H1. change (zlen [c']) with 1 in H1.
    replace (Z.to_nat (zlen p + 1 + 1 - 1)) with (S (length p)) in H1 by (unfold zlen; lia).
    change ((p ++ [c']) !! length p = Some star) in H1. rewrite list_lookup_middle in H1 by done. by injection H1. }
  exists p. split; [done|]. change (star :: p ++ [star]) with ([star] ++ p ++ [star]) in Hs, Hq.
  rewrite !List.filter_app, !zlen_app in Hs, Hq.
  change (zlen (List.filter is_star [star])) with 1 in Hs.
  change (zlen (List.filter is_question [star])) with 0 in Hq.
  apply filter_nil_literal; lia.
Qed.

Lemma pattern_match_yields text pattern :
  NUL ∉ text -> NUL ∉ pattern -> zlen text < 2 ^ 31 - 1 -> zlen pattern < HTS_MAXBUFLEN + 2 ->
  yields (HTS_pattern_match text pattern) (fun b => b = true <-> glob pattern text).
Proof.
  intros Ht Hp Lt Lp. unfold HTS_pattern_match. rewrite counts, !Z.add_0_l.
  assert (Dp : yields (HTS_dp_match (S (length text + length pattern)) (bytes text) (bytes pattern)
    0 0 0 (to_i32 (zlen text - width pattern))) (fun b => b = true <-> glob pattern text)).
  { assert (width pattern <= zlen pattern).
    { unfold width, zlen. pose proof (List.filter_length_le takes_one pattern). lia. }
    pose proof (width_nonneg pattern). pose proof (zlen_nonneg text).
    change HTS_MAXBUFLEN with 1024 in Lp. rewrite to_i32_id by lia.
    apply (dp_match_spec _ [] text [] pattern); try done; lia. }
  destruct (_ && _) eqn:E; [|exact Dp].
  apply andb_true_iff in E as [E E4]. apply andb_true_iff in E as [E E3].
  apply andb_true_iff in E as [E1 E2]. apply Z.eqb_eq in E1, E2.
  apply bool_decide_eq_true in E3, E4. destruct (two_stars pattern) as (m & -> & L); try done.
  assert (Lm : zlen (star :: m ++ [star]) = zlen m + 2).
  { rewrite zlen_cons, zlen_app. change (zlen [star]) with 1. lia. }
  unfold inner, check. rewrite Lm in *. rewrite (proj2 (Z.ltb_lt _ _)) by lia. rewrite !bind_Ok.
  apply yields_ok. change (drop 1 (star :: m ++ [star])) with (m ++ [star]).
  rewrite take_app_length' by (unfold zlen; lia).
  by rewrite strstr_spec, glob_stars.
Qed.

(** C14: the match of a pattern is its language: for every text and every pattern
    that a line of a model file can hold, the matching returns, without reading
    past the end of either string or filling its buffer, and the answer is
    whether the text is in the language of the pattern, a star standing for any
    characters and a question mark for one. *)
Theorem pattern_match_glob text pattern :
  NUL ∉ text -> NUL ∉ pattern -> zlen text < 2 ^ 31 - 1 -> zlen pattern < HTS_MAXBUFLEN + 2 ->
  yields (HTS_pattern_match text pattern) (fun b => b = true <-> glob pattern text).
Proof. apply pattern_match_yields. Qed.

(** a question of a voice *)
Definition ex_text : list ascii := list_ascii_of_string "x^sil-ao+th=er@1_2".
Definition ex_pattern : list ascii := list_ascii_of_string "*-a?+*".

Lemma pattern_match_glob_witness :
  HTS_pattern_match ex_text ex_pattern = Ok true /\ glob ex_pattern ex_text.
Proof.
  assert (E : HTS_pattern_match ex_text ex_pattern = Ok true) by reflexivity.
  split; [exact E|].
  destruct (pattern_match_glob ex_text ex_pattern) as (b & Eb & Hb); [| |reflexivity..|].
  - exact (bool_decide_eq_true_1 (NUL ∉ ex_text) eq_refl).
  - exact (bool_decide_eq_true_1 (NUL ∉ ex_pattern) eq_refl).
  - rewrite E in Eb. apply Ok_inj in Eb. apply Hb. by symmetry.
Defined.
End HtsPattern.
