(* ===== verification/HtsTree.v ===== *)
(** * Questions and decision trees of a model file (HTS_model.c and HTS_misc.c
    of mage/libs/hts_engine-1.06)

    A tree file is read token by token into questions (lists of patterns) and
    trees.  The nodes of a tree are cells of a heap; a node is found again by
    its number through the chain of the nodes made so far.  The file shows that
    whatever is read, the nodes of a tree only point to later nodes, so that the
    search in a tree ends with a decision. *)

From Stdlib Require Import Ascii String.
From S2P Require Import Prelude Num Constants CString HtsPattern.
#[local] Open Scope Z_scope.

Module HtsTree.
Import HtsPattern.

(** ** Files and tokens *)

(** an open file: the rest of it, and whether its end was hit *)
Record file := mkFile { rest : list ascii; eof : bool }.

(** what [fgetc] gives at the end, as a [char] *)
Definition EOF_char : ascii := chr 255.

Definition HTS_feof (fp : file) : bool := eof fp.
Definition HTS_fgetc (fp : file) : ascii * file :=
  match rest fp with
  | a :: l => (a, mkFile l (eof fp))
  | [] => (EOF_char, mkFile [] true)
  end.

Definition squote_char : ascii := chr 39.
Definition dquote_char : ascii := chr 34.
Definition comma : ascii := chr 44.
Definition tab : ascii := chr 9.

(** [while( sep( c ) )]: the next character that is no separator, None when the
    file ended before *)
Fixpoint skip_separators (sep : ascii -> bool) (c : ascii) (l : list ascii) (e : bool)
    : option (ascii * file) :=
  if sep c then
    if e then None
    else match l with
         | a :: l => skip_separators sep a l e
         | [] => Some (EOF_char, mkFile [] true)
         end
  else Some (c, mkFile l e).

Definition pattern_separator (c : ascii) : bool := Ascii.eqb c space || Ascii.eqb c newline.
Definition token_separator (c : ascii) : bool := pattern_separator c || Ascii.eqb c tab.

(** [while( 1 )] of HTS_get_pattern_token: [buff] holds what was written; the
    array ends at HTS_MAXBUFLEN *)
Fixpoint pattern_chars (fuel : nat) (squote dquote : bool) (c : ascii) (fp : file)
    (buff : list ascii) : Res (list ascii * file) :=
  match fuel with
  | O => Timeout
  | S fuel =>
      check (zlen buff <? HTS_MAXBUFLEN) OutOfBounds ;;
      let buff := buff ++ [c] in
      let '(c, fp) := HTS_fgetc fp in
      if (squote && Ascii.eqb c squote_char) || (dquote && Ascii.eqb c dquote_char) ||
         (negb squote && negb dquote && (pattern_separator c || HTS_feof fp))
      then check (zlen buff <? HTS_MAXBUFLEN) OutOfBounds ;; Ok (buff, fp)
      else pattern_chars fuel squote dquote c fp buff
  end.

(** the C string of a buffer *)
Definition text_of (buff : list ascii) : string := cstr (string_of_list_ascii buff).

(** a quote character at the start opens a quoted token *)
Definition open_quote (q c : ascii) (fp : file) : option (bool * ascii * file) :=
  if Ascii.eqb c q then
    if HTS_feof fp then None else let '(c, fp) := HTS_fgetc fp in Some (true, c, fp)
  else Some (false, c, fp).

(** the result is the token, None for FALSE *)
Definition HTS_get_pattern_token (fp : file) : Res (option string * file) :=
  if HTS_feof fp then Ok (None, fp)
  else
    let '(c, fp) := HTS_fgetc fp in
    match skip_separators pattern_separator c (rest fp) (eof fp) with
    | None => Ok (None, mkFile [] true)
    | Some (c, fp) =>
        match open_quote squote_char c fp with
        | None => Ok (None, fp)
        | Some (squote, c, fp) =>
            match open_quote dquote_char c fp with
            | None => Ok (None, fp)
            | Some (dquote, c, fp) =>
                if Ascii.eqb c comma then Ok (Some ","%string, fp)
                else
                  '(buff, fp) ← pattern_chars (S (Z.to_nat HTS_MAXBUFLEN)) squote dquote c fp [];
                  Ok (Some (text_of buff), fp)
            end
        end
    end.

(** ** Numbers in tokens *)

Definition is_digit (c : ascii) : bool := match digit c with Some _ => true | None => false end.
Definition minus : ascii := chr 45.

Definition HTS_is_num (buff : string) : bool :=
  forallb (fun c => is_digit c || Ascii.eqb c minus) (list_ascii_of_string buff).

(** the number at the end of a name; the loop reads [buff[i]] before it tests
    [i >= 0], so a name of digits only (or an empty one) is read before its start *)
Fixpoint trailing (rev : list ascii) (acc : list ascii) : Res (list ascii) :=
  match rev with
  | [] => Undef OutOfBounds
  | c :: rev => if is_digit c then trailing rev (c :: acc) else Ok acc
  end.
Definition HTS_name2num (buff : string) : Res Z :=
  d ← trailing (List.rev (list_ascii_of_string buff)) []; atoi (string_of_list_ascii d).

(** [strchr] and [strrchr]: the index of a character *)
Fixpoint strchr (l : list ascii) (c : ascii) : option nat :=
  match l with
  | [] => None
  | a :: l => if Ascii.eqb a c then Some O else S <$> strchr l c
  end.
Definition strrchr (l : list ascii) (c : ascii) : option nat :=
  (fun k => (length l - 1 - k)%nat) <$> strchr (List.rev l) c.

Definition bracket_open : ascii := chr 91.
Definition bracket_close : ascii := chr 93.
Definition brace_open : ascii := chr 123.
Definition brace_close : ascii := chr 125.
Definition paren_open : ascii := chr 40.
Definition paren_close : ascii := chr 41.

(** the state, and the string, which is cut at the last bracket *)
Definition HTS_get_state_num (s : string) : Res (Z * string) :=
  let l := list_ascii_of_string s in
  match strchr l bracket_open, strrchr l bracket_close with
  | Some i, Some j =>
      let number := if (i <? j)%nat then take (j - i - 1) (drop (S i) l) else drop (S i) l in
      n ← atoi (string_of_list_ascii number);
      Ok (n, string_of_list_ascii (take j l))
  | _, _ => Ok (0, s)
  end.

(** ** Questions *)

Record Question := mkQuestion { qname : string; patterns : list string }.

(** the patterns between the braces; every second token is taken for a comma *)
Fixpoint load_patterns (fuel : nat) (fp : file) (acc : list string)
    : Res (option (list string) * file) :=
  match fuel with
  | O => Timeout
  | S fuel =>
      '(tok, fp) ← HTS_get_pattern_token fp;
      match tok with
      | None => Ok (None, fp)
      | Some pattern =>
          '(tok, fp) ← HTS_get_pattern_token fp;
          match tok with
          | None => Ok (None, fp)
          | Some buff =>
              if String.eqb buff "}" then Ok (Some (acc ++ [pattern]), fp)
              else load_patterns fuel fp (acc ++ [pattern])
          end
      end
  end.

(** the number of tokens a file can still give *)
Definition tokens (fp : file) : nat := length (rest fp) + if eof fp then 0 else 1.

Definition HTS_Question_load (fp : file) : Res (option Question * file) :=
  '(tok, fp) ← HTS_get_pattern_token fp;
  match tok with
  | None => Ok (None, fp)
  | Some name =>
      '(tok, fp) ← HTS_get_pattern_token fp;
      match tok with
      | None => Ok (None, fp)
      | Some buff =>
          if String.eqb buff "{" then
            '(ps, fp) ← load_patterns (S (tokens fp)) fp [];
            Ok (option_map (mkQuestion name) ps, fp)
          else Ok (Some (mkQuestion name []), fp)
      end
  end.

(** a string against a list of patterns *)
Fixpoint match_any (s : string) (ps : list string) : Res bool :=
  match ps with
  | [] => Ok false
  | p :: ps =>
      found ← HTS_pattern_match (list_ascii_of_string s) (list_ascii_of_string p);
      if found : bool then Ok true else match_any s ps
  end.

Definition HTS_Question_match (q : Question) (s : string) : Res bool := match_any s (patterns q).

(** an unknown question ends the program *)
Fixpoint HTS_Question_find_question (qs : list Question) (buff : string) : Res Question :=
  match qs with
  | [] => Exit 1
  | q :: qs => if String.eqb buff (qname q) then Ok q else HTS_Question_find_question qs buff
  end.

(** ** Nodes *)

(** pointers are addresses of the heap of the tree's nodes, which are given in
    the order of the chain *)
Record Node := mkNode {
  index : Z;
  pdf : Z;
  yes : option Z;
  no : option Z;
  next : option Z;
  quest : option Question
}.
#[global] Instance eta_node : Settable Node := fun n =>
  mkNode (index n) (pdf n) (yes n) (no n) (next n) (quest n).

(** a cell is None when it was freed *)
Abbreviation heap := (list (option Node)).
Definition calloc_node : Node := mkNode 0 0 None None None None.

Definition deref (h : heap) (p : option Z) : Res Node :=
  match p with
  | None => Undef NullPointer
  | Some a => c ← rd h a; match c with Some n => Ok n | None => Undef UseAfterFree end
  end.

Definition set_node (h : heap) (a : Z) (f : Node -> Node) : Res heap :=
  n ← deref h (Some a); wr h a (Some (f n)).

(** the first node of the chain with the number; none ends the program *)
Fixpoint HTS_Node_find (fuel : nat) (h : heap) (node : option Z) (num : Z) : Res Z :=
  match fuel with
  | O => Timeout
  | S fuel =>
      match node with
      | None => Exit 1
      | Some a =>
          n ← deref h node; if index n =? num then Ok a else HTS_Node_find fuel h (next n) num
      end
  end.

Definition free_node (h : heap) (p : option Z) : Res heap :=
  match p with
  | None => Ok h
  | Some a => _ ← deref h p; wr h a None
  end.

Fixpoint HTS_Node_clear (fuel : nat) (h : heap) (node : option Z) : Res heap :=
  match fuel with
  | O => Timeout
  | S fuel =>
      n ← deref h node;
      h ← match yes n with Some _ => HTS_Node_clear fuel h (yes n) | None => Ok h end;
      h ← match no n with Some _ => HTS_Node_clear fuel h (no n) | None => Ok h end;
      free_node h node
  end.

(** ** Trees *)

Record Tree := mkTree { head : list string; root : option Z; state : Z; nodes : heap }.

(** the strings before the commas *)
Fixpoint split_commas (cur l : list ascii) : list string :=
  match l with
  | [] => []
  | c :: l =>
      if Ascii.eqb c comma then string_of_list_ascii (List.rev cur) :: split_commas [] l
      else split_commas (c :: cur) l
  end.

(** the patterns of a tree: what is between the first opening and the last
    closing brace, and the parentheses inside them *)
Definition HTS_Tree_parse_pattern (s : string) : Res (list string) :=
  let l := list_ascii_of_string s in
  match strchr l brace_open with
  | None => Ok []
  | Some i =>
      let l := drop (S i) l in
      let l := match l with c :: l' => if Ascii.eqb c paren_open then l' else l | [] => l end in
      match strrchr l brace_close with
      | None => Undef NullPointer
      | Some j =>
          let j := match j with
                   | S k => if bool_decide (l !! k = Some paren_close) then k else j
                   | O => j
                   end in
          Ok (split_commas [] (<[j := comma]> l))
      end
  end.

(** a failure while the children of a node are read: they are freed, then the
    whole tree from its root *)
Definition abandon_node (h : heap) (p a b : Z) : Res heap :=
  h ← set_node h p (fun n => n <| quest := None |>);
  h ← free_node h (Some a);
  h ← free_node h (Some b);
  HTS_Node_clear (S (length h)) h (Some 0).

(** what a token says of a child: the number of a node, or a leaf *)
Definition child_of (buff : string) (last : Z) (n : Node) : Res Node :=
  if HTS_is_num buff then i ← atoi buff; Ok (n <| index := i |> <| next := Some last |>)
  else d ← HTS_name2num buff; Ok (n <| pdf := d |> <| next := Some last |>).

Definition set_child (h : heap) (a : Z) (buff : string) (last : Z) : Res heap :=
  n ← deref h (Some a); n ← child_of buff last n; wr h a (Some n).

(** the lines between the braces of a tree; the address of the root is 0 *)
Fixpoint load_nodes (fuel : nat) (qs : list Question) (fp : file) (h : heap) (last_node : Z)
    : Res (bool * heap * file) :=
  match fuel with
  | O => Timeout
  | S fuel =>
      '(tok, fp) ← HTS_get_pattern_token fp;
      match tok with
      | None => Ok (true, h, fp)
      | Some buff =>
          if String.eqb buff "}" then Ok (true, h, fp)
          else
            num ← atoi buff;
            p ← HTS_Node_find (S (length h)) h (Some last_node) num;
            '(tok, fp) ← HTS_get_pattern_token fp;
            match tok with
            | None => h ← HTS_Node_clear (S (length h)) h (Some 0); Ok (false, h, fp)
            | Some buff =>
                q ← HTS_Question_find_question qs buff;
                let b := zlen h in let a := zlen h + 1 in
                h ← set_node (h ++ [Some calloc_node; Some calloc_node]) p (fun n =>
                  n <| quest := Some q |> <| yes := Some a |> <| no := Some b |>);
                '(tok, fp) ← HTS_get_pattern_token fp;
                match tok with
                | None => h ← abandon_node h p a b; Ok (false, h, fp)
                | Some buff =>
                    h ← set_child h b buff last_node;
                    '(tok, fp) ← HTS_get_pattern_token fp;
                    match tok with
                    | None => h ← abandon_node h p a b; Ok (false, h, fp)
                    | Some buff =>
                        h ← set_child h a buff b;
                        load_nodes fuel qs fp h a
                    end
                end
            end
      end
  end.

(** a tree from a file, for the patterns and the state of its line *)
Definition HTS_Tree_load (head : list string) (state : Z) (qs : list Question) (fp : file)
    : Res (option Tree * file) :=
  '(tok, fp) ← HTS_get_pattern_token fp;
  match tok with
  | None => _ ← HTS_Node_clear 1 [] None; Ok (None, fp)
  | Some buff =>
      if String.eqb buff "{" then
        '(loaded, h, fp) ← load_nodes (S (tokens fp)) qs fp [Some calloc_node] 0;
        Ok (if loaded : bool then Some (mkTree head (Some 0) state h) else None, fp)
      else
        d ← HTS_name2num buff;
        Ok (Some (mkTree head (Some 0) state [Some (calloc_node <| pdf := d |>)]), fp)
  end.

(** ** The search *)

Fixpoint search (fuel : nat) (h : heap) (node : option Z) (s : string) : Res Z :=
  match fuel with
  | O => Timeout
  | S fuel =>
      match node with
      | None => Exit 1
      | Some _ =>
          n ← deref h node;
          match quest n with
          | None => Ok (pdf n)
          | Some q =>
              found ← HTS_Question_match q s;
              let child := if found : bool then yes n else no n in
              c ← deref h child;
              if 0 <? pdf c then Ok (pdf c) else search fuel h child s
          end
      end
  end.

Definition HTS_Tree_search_node (tree : Tree) (s : string) : Res Z :=
  search (S (length (nodes tree))) (nodes tree) (root tree) s.

(** ** The decision tree of a heap *)

Inductive dtree :=
  | Leaf (pdf : Z)
  | Ask (q : Question) (yes no : dtree).

(** the text satisfies the question *)
Definition asks (q : Question) (s : string) : Prop :=
  Exists (fun p => glob (list_ascii_of_string p) (list_ascii_of_string s)) (patterns q).

Inductive decides (s : string) : dtree -> Z -> Prop :=
  | decides_leaf d : decides s (Leaf d) d
  | decides_yes q y n d : asks q s -> decides s y d -> decides s (Ask q y n) d
  | decides_no q y n d : ~ asks q s -> decides s n d -> decides s (Ask q y n) d.

(** the tree below a node; a child with a pdf is a leaf whatever it asks *)
Fixpoint tree_of (fuel : nat) (h : heap) (p : option Z) : Res dtree :=
  match fuel with
  | O => Timeout
  | S fuel =>
      let branch c :=
        n ← deref h c; if 0 <? pdf n then Ok (Leaf (pdf n)) else tree_of fuel h c in
      n ← deref h p;
      match quest n with
      | None => Ok (Leaf (pdf n))
      | Some q => y ← branch (yes n); n ← branch (no n); Ok (Ask q y n)
      end
  end.

(** a question whose patterns can be matched against any label *)
Definition question_ok (q : Question) : Prop :=
  Forall (fun p => (NUL ∉ list_ascii_of_string p) /\
                   str_len p < HTS_MAXBUFLEN + 2) (patterns q).

(** nodes point to later nodes, those that ask have both children, and the
    chain goes backwards *)
Definition node_ok (size i : Z) (n : Node) : Prop :=
  (forall q, quest n = Some q -> question_ok q /\ is_Some (yes n) /\ is_Some (no n)) /\
  (forall c, yes n = Some c \/ no n = Some c -> i < c < size) /\
  (forall j, next n = Some j -> 0 <= j < i).

Definition heap_ok (h : heap) : Prop :=
  0 < zlen h /\ forall i c, h !! i = Some c -> exists n, c = Some n /\ node_ok (zlen h) (Z.of_nat i) n.

Lemma heap_deref h a : heap_ok h -> 0 <= a < zlen h ->
  exists n, deref h (Some a) = Ok n /\ node_ok (zlen h) a n.
Proof.
  intros [_ A] Ha. destruct (yields_rd h a Ha) as (c & E & X).
  destruct (A _ _ X) as (n & -> & N). exists n. cbn [deref]. rewrite E, bind_Ok.
  by rewrite Z2Nat.id in N by lia.
Qed.

(** ** The search terminates with the decision *)

Lemma match_any_spec s ps :
  NUL ∉ list_ascii_of_string s -> str_len s < 2 ^ 31 - 1 ->
  Forall (fun p => (NUL ∉ list_ascii_of_string p) /\ str_len p < HTS_MAXBUFLEN + 2) ps ->
  yields (match_any s ps) (fun b => b = true <->
    Exists (fun p => glob (list_ascii_of_string p) (list_ascii_of_string s)) ps).
Proof.
  intros Hs Ls. assert (Len : forall t, zlen (list_ascii_of_string t) = str_len t).
  { intros t. unfold zlen, str_len. f_equal. induction t; cbn; by f_equal. }
  induction 1 as [|p ps [Hp Lp] _ IH]; cbn [match_any].
  { apply yields_ok. split; [done|]. by intros ?%Exists_nil. }
  destruct (pattern_match_yields (list_ascii_of_string s) (list_ascii_of_string p))
    as (b & -> & Hb); [done|done|by rewrite Len..|].
  rewrite bind_Ok. destruct b.
  - apply yields_ok. rewrite Exists_cons. split; [|done]. intros _. left. by apply Hb.
  - eapply yields_mono; [exact IH|]. intros b ->. rewrite Exists_cons. split; [by right|].
    intros [G|G]; [|done]. by apply Hb in G.
Qed.

Lemma search_decides h s : heap_ok h ->
  NUL ∉ list_ascii_of_string s -> str_len s < 2 ^ 31 - 1 ->
  forall fuel a, 0 <= a < zlen h -> zlen h - a < Z.of_nat fuel ->
  exists d, tree_of fuel h (Some a) = Ok d /\ yields (search fuel h (Some a) s) (decides s d).
Proof.
  intros Hh Hs Ls. induction fuel as [|fuel IH]; intros a Ha Hf; [lia|].
  destruct (heap_deref h a Hh Ha) as (n & E & N & P & _). cbn [tree_of search]. rewrite E, !bind_Ok.
  destruct (quest n) as [q|] eqn:Eq.
  2:{ exists (Leaf (pdf n)). split; [done|]. apply yields_ok. constructor. }
  destruct (N q eq_refl) as (Hq & [y Ey] & [z Ez]). pose proof (P y (or_introl Ey)) as Hy.
  pose proof (P z (or_intror Ez)) as Hz. rewrite Ey, Ez. clear Ey Ez.
  assert (B : forall c, a < c < zlen h -> exists d m, deref h (Some c) = Ok m /\
    (if 0 <? pdf m then Ok (Leaf (pdf m)) else tree_of fuel h (Some c)) = Ok d /\
    yields (if 0 <? pdf m then Ok (pdf m) else search fuel h (Some c) s) (decides s d)).
  { intros c Hc. destruct (heap_deref h c Hh ltac:(lia)) as (m & -> & _).
    destruct (0 <? pdf m) eqn:Ep.
    - exists (Leaf (pdf m)), m. rewrite Ep. do 2 (split; [done|]). apply yields_ok. constructor.
    - destruct (IH c) as (d & Ed & Y); [lia|lia|]. exists d, m. by rewrite Ep. }
  destruct (B y Hy) as (dy & my & Ey & Dy & Yy). destruct (B z Hz) as (dz & mz & Ez & Dz & Yz).
  exists (Ask q dy dz). rewrite Ey, Ez, !bind_Ok, Dy, bind_Ok, Dz, bind_Ok. split; [done|].
  destruct (match_any_spec s (patterns q) Hs Ls Hq) as (b & Eb & Hb).
  unfold HTS_Question_match. rewrite Eb, bind_Ok. destruct b.
  - rewrite Ey, bind_Ok. eapply yields_mono; [exact Yy|]. intros x. apply decides_yes. by apply Hb.
  - rewrite Ez, bind_Ok. eapply yields_mono; [exact Yz|]. intros x. apply decides_no.
    intros A. by apply Hb in A.
Qed.

(** ** Tokens: they are short strings, and every one takes some of the file *)

Definition token_ok (t : string) : Prop :=
  (NUL ∉ list_ascii_of_string t) /\ str_len t < HTS_MAXBUFLEN.

Lemma cstr_no_NUL s : NUL ∉ list_ascii_of_string (cstr s).
Proof.
  induction s as [|a s IH]; cbn; [apply not_elem_of_nil|].
  destruct (Ascii.eqb_spec a NUL); [apply not_elem_of_nil|]. by apply not_elem_of_cons.
Qed.

Lemma cstr_len s : str_len (cstr s) <= str_len s.
Proof.
  unfold str_len. induction s as [|a s IH]; cbn; [done|]. destruct (Ascii.eqb a NUL); cbn; lia.
Qed.

Lemma str_len_list l : str_len (string_of_list_ascii l) = zlen l.
Proof. unfold str_len, zlen. f_equal. induction l; cbn; by f_equal. Qed.

Lemma fgetc_tokens fp : (tokens (HTS_fgetc fp).2 <= tokens fp)%nat.
Proof. unfold tokens, HTS_fgetc. destruct fp as [[|a l] [|]]; cbn; lia. Qed.

Lemma skip_tokens sep c l e c' fp :
  skip_separators sep c l e = Some (c', fp) -> (tokens fp <= tokens (mkFile l e))%nat.
Proof.
  revert c e. induction l as [|a l IH]; intros c e; cbn [skip_separators]; unfold tokens; cbn.
  - destruct (sep c), e; try done; intros [= <- <-]; cbn; lia.
  - destruct (sep c), e; try done; [|intros [= <- <-]; cbn; lia..].
    intros E%IH. unfold tokens in E. cbn in *. lia.
Qed.

Lemma open_quote_tokens q c fp b c' fp' :
  open_quote q c fp = Some (b, c', fp') -> (tokens fp' <= tokens fp)%nat.
Proof.
  unfold open_quote. destruct (Ascii.eqb c q); [|by intros [= <- <- <-]].
  destruct (HTS_feof fp); [done|]. pose proof (fgetc_tokens fp) as T.
  destruct (HTS_fgetc fp). by intros [= <- <- <-].
Qed.

Lemma pattern_chars_ends fuel sq dq c fp buff :
  zlen buff <= HTS_MAXBUFLEN < zlen buff + Z.of_nat fuel ->
  ends (pattern_chars fuel sq dq c fp buff) (fun r =>
    zlen r.1 < HTS_MAXBUFLEN /\ (tokens r.2 <= tokens fp)%nat).
Proof.
  revert c fp buff. induction fuel as [|fuel IH]; intros c fp buff Hf; [|cbn [pattern_chars]].
  { lia. }
  eapply ends_bind; [by apply (ends_check _ _ (fun _ => zlen buff < HTS_MAXBUFLEN)), Z.ltb_lt|].
  intros [] Hl. pose proof (fgetc_tokens fp) as T.
  destruct (HTS_fgetc fp) as [c' fp']. cbn [snd] in T. destruct (_ || _).
  - eapply ends_bind; [by apply (ends_check _ _ (fun _ => zlen (buff ++ [c]) < HTS_MAXBUFLEN)), Z.ltb_lt|].
    by intros [] Hl'.
  - eapply ends_mono; [apply IH; rewrite (zlen_snoc buff c); lia|]. intros r [? ?]. split; [done|lia].
Qed.

Lemma get_pattern_token_ends fp :
  ends (HTS_get_pattern_token fp) (fun r => (tokens r.2 <= tokens fp)%nat /\
    (eof fp = false -> (tokens r.2 < tokens fp)%nat) /\
    forall t, r.1 = Some t -> token_ok t /\ eof fp = false).
Proof.
  unfold HTS_get_pattern_token, HTS_feof. destruct (eof fp) eqn:Ee; [done|].
  destruct (HTS_fgetc fp) as [c fp1] eqn:Ec.
  assert (T : (tokens fp1 < tokens fp)%nat).
  { unfold HTS_fgetc, tokens in *. destruct fp as [[|a l] e]; cbn in *; subst e;
      injection Ec as <- <-; cbn; lia. }
  assert (Less : forall tok fp', (tokens fp' < tokens fp)%nat ->
    (forall t, tok = Some t -> token_ok t) ->
    ends (Ok (tok, fp')) (fun r => (tokens r.2 <= tokens fp)%nat /\
      (false = false -> (tokens r.2 < tokens fp)%nat) /\
      forall t, r.1 = Some t -> token_ok t /\ false = false)).
  { intros tok fp' L Ht. cbn [ends fst snd]. split; [lia|]. split; [done|]. intros t E.
    split; [by apply Ht|done]. }
  destruct (skip_separators _ _ _ _) as [[c2 fp2]|] eqn:Es; [|apply Less; [cbn; lia|done]].
  apply skip_tokens in Es. assert (Efp : mkFile (rest fp1) (eof fp1) = fp1) by by destruct fp1.
  rewrite Efp in Es.
  destruct (open_quote squote_char _ _) as [[[sq c3] fp3]|] eqn:E3; [|apply Less; [cbn; lia|done]].
  apply open_quote_tokens in E3.
  destruct (open_quote dquote_char _ _) as [[[dq c4] fp4]|] eqn:E4; [|apply Less; [cbn; lia|done]].
  apply open_quote_tokens in E4. destruct (Ascii.eqb c4 comma).
  { apply Less; [cbn; lia|]. intros t [= <-]. split; [|done].
    exact (bool_decide_eq_true_1 (NUL ∉ list_ascii_of_string ",") eq_refl). }
  eapply ends_bind; [apply (pattern_chars_ends _ sq dq c4 fp4 []); done|].
  intros [buff fp5] [Hl Ht]. cbn [fst snd] in *. apply Less; [lia|]. intros t [= <-].
  split; [apply cstr_no_NUL|]. unfold text_of.
  pose proof (cstr_len (string_of_list_ascii buff)) as L. rewrite str_len_list in L. lia.
Qed.

(** the next token, in a function that goes on with it *)
Lemma token_bind {B} fp (f : option string * file -> Res B) Q :
  (forall fp', (tokens fp' <= tokens fp)%nat -> ends (f (None, fp')) Q) ->
  (forall t fp', token_ok t -> (tokens fp' < tokens fp)%nat -> ends (f (Some t, fp')) Q) ->
  ends (HTS_get_pattern_token fp ≫= f) Q.
Proof.
  intros Hn Hs. eapply ends_bind; [apply get_pattern_token_ends|].
  intros [[t|] fp'] (Hle & Hlt & Ht); [|by apply Hn]. destruct (Ht t eq_refl).
  apply Hs; [done|]. by apply Hlt.
Qed.

Lemma token_pattern t : token_ok t ->
  (NUL ∉ list_ascii_of_string t) /\ str_len t < HTS_MAXBUFLEN + 2.
Proof. intros []. split; [done|lia]. Qed.

Lemma load_patterns_ends fuel fp acc :
  (tokens fp < fuel)%nat -> question_ok (mkQuestion "" acc) ->
  ends (load_patterns fuel fp acc) (fun r => (tokens r.2 <= tokens fp)%nat /\
    forall ps, r.1 = Some ps -> question_ok (mkQuestion "" ps)).
Proof.
  revert fp acc. induction fuel as [|fuel IH]; intros fp acc Hf Ha; [lia|]. cbn [load_patterns].
  apply token_bind; [intros fp1 L1; split; [done|by intros ps [=]]|]. intros t fp1 Ht L1.
  apply token_bind; [intros fp2 L2; split; [cbn; lia|by intros ps [=]]|]. intros u fp2 _ L2.
  assert (Ha' : question_ok (mkQuestion "" (acc ++ [t]))).
  { apply Forall_app. split; [done|]. apply Forall_singleton. by apply token_pattern. }
  destruct (String.eqb u "}"); [split; [cbn; lia|by intros ps [= <-]]|].
  eapply ends_mono; [apply IH; [lia|done]|]. intros r [L Hr]. split; [lia|done].
Qed.

Lemma question_load_ends fp :
  ends (HTS_Question_load fp) (fun r => (tokens r.2 <= tokens fp)%nat /\
    forall q, r.1 = Some q -> question_ok q).
Proof.
  unfold HTS_Question_load.
  apply token_bind; [intros fp1 L1; split; [done|by intros q [=]]|]. intros t fp1 Ht L1.
  apply token_bind; [intros fp2 L2; split; [cbn; lia|by intros q [=]]|]. intros u fp2 _ L2.
  destruct (String.eqb u "{").
  - eapply ends_bind; [apply load_patterns_ends; [lia|constructor]|].
    intros [ps fp3] [L3 Hps]. cbn [fst snd] in *. split; [cbn; lia|]. intros q E.
    destruct ps as [ps|]; [|done]. injection E as <-. exact (Hps ps eq_refl).
  - split; [cbn; lia|]. intros q [= <-]. constructor.
Qed.

(** ** A tree that is loaded is a decision tree *)

Lemma deref_ends h p : ends (deref h p) (fun n => exists a, p = Some a /\ 0 <= a < zlen h /\
  h !! Z.to_nat a = Some (Some n)).
Proof.
  destruct p as [a|]; [|done]. unfold deref. destruct (rd h a) as [c| | |] eqn:E; try done.
  - apply rd_inv in E as [Hr X]. rewrite bind_Ok. destruct c; [|done]. by exists a.
  - pose proof (ends_rd h a) as R. by rewrite E in R.
Qed.

(** the node at an address that can be reached *)
Lemma deref_ok h p (Q : Node -> Prop) : heap_ok h ->
  (forall a n, p = Some a -> 0 <= a < zlen h -> node_ok (zlen h) a n -> Q n) -> ends (deref h p) Q.
Proof.
  intros [_ A] HQ. eapply ends_mono; [apply deref_ends|]. intros n (a & -> & Ha & X).
  destruct (A _ _ X) as (n' & [= <-] & N). rewrite Z2Nat.id in N by lia. by eapply HQ.
Qed.

Definition grown (h h' : heap) : Prop := heap_ok h' /\ zlen h' = zlen h.

Lemma heap_ok_wr h a n : heap_ok h -> node_ok (zlen h) a n -> ends (wr h a (Some n)) (grown h).
Proof.
  intros [L A] N. eapply ends_mono; [apply ends_wr_inv|]. intros h' [-> Hr].
  unfold grown, heap_ok. rewrite zlen_insert. split; [|done]. split; [done|]. intros i c X.
  destruct (decide (i = Z.to_nat a)) as [->|Hne].
  - rewrite list_lookup_insert_eq in X by (unfold zlen in Hr; lia). injection X as <-.
    exists n. rewrite Z2Nat.id by lia. done.
  - rewrite list_lookup_insert_ne in X by done. by apply A.
Qed.

Lemma node_ok_mono s s' i n : node_ok s i n -> s <= s' -> node_ok s' i n.
Proof. intros (Q & C & X) Hs. split; [done|]. split; [|done]. intros c Hc. specialize (C c Hc). lia. Qed.

Lemma calloc_ok s i : node_ok s i calloc_node.
Proof. split; [done|]. split; [|done]. by intros c [|]. Qed.

Lemma heap_ok_grow h : heap_ok h -> heap_ok (h ++ [Some calloc_node; Some calloc_node]).
Proof.
  intros [L A]. unfold heap_ok. rewrite zlen_app. change (zlen [_; _]) with 2. split; [lia|].
  intros i c X. apply lookup_app_Some in X as [X|[Hi X]].
  - destruct (A _ _ X) as (n & -> & N). exists n. split; [done|]. eapply node_ok_mono; [done|lia].
  - exists calloc_node. split; [|apply calloc_ok].
    by destruct (i - length h)%nat as [|[|[|k]]]; try injection X as <-.
Qed.

Lemma set_node_ok h p f : heap_ok h ->
  (forall n, 0 <= p < zlen h -> node_ok (zlen h) p n -> node_ok (zlen h) p (f n)) ->
  ends (set_node h p f) (grown h).
Proof.
  intros Hh Hf. unfold set_node. eapply ends_bind; [apply (deref_ok _ _ (fun n =>
    0 <= p < zlen h /\ node_ok (zlen h) p n) Hh); by intros a n [= <-]|].
  intros n [Hp N]. apply heap_ok_wr; [done|]. by apply Hf.
Qed.

Lemma ends_digits rev acc : ends (trailing rev acc) (fun _ => True).
Proof. revert acc. induction rev as [|c rev IH]; intros acc; cbn; [done|]. by destruct (is_digit c). Qed.

Lemma name2num_ends s : ends (HTS_name2num s) (fun _ => True).
Proof.
  eapply ends_bind; [apply ends_digits|]. intros d _. apply ends_atoi.
Qed.

Lemma set_child_ok h a buff last : heap_ok h -> 0 <= last < a ->
  ends (set_child h a buff last) (grown h).
Proof.
  intros Hh Hl. unfold set_child. eapply ends_bind; [apply (deref_ok _ _ (fun n =>
    node_ok (zlen h) a n) Hh); by intros a' n [= <-]|]. intros n (Q & C & X).
  apply (ends_bind _ _ (fun n' => node_ok (zlen h) a n')); [|intros n' N'; by apply heap_ok_wr].
  assert (N : forall m, quest m = quest n -> yes m = yes n -> no m = no n -> next m = Some last ->
    node_ok (zlen h) a m).
  { intros m E1 E2 E3 E4. unfold node_ok. rewrite E1, E2, E3, E4.
    split; [done|]. split; [done|]. by intros j [= <-]. }
  unfold child_of. destruct (HTS_is_num buff).
  - eapply ends_bind; [apply ends_atoi|]. intros i _. by apply N.
  - eapply ends_bind; [apply name2num_ends|]. intros d _. by apply N.
Qed.

Lemma node_find_ends fuel h a num : heap_ok h -> a + 1 < Z.of_nat fuel -> 0 <= a ->
  ends (HTS_Node_find fuel h (Some a) num) (fun p => 0 <= p < zlen h).
Proof.
  intros Hh. revert a. induction fuel as [|fuel IH]; intros a Hf Ha; [lia|]. cbn [HTS_Node_find].
  eapply ends_bind; [apply (deref_ok _ _ (fun n => 0 <= a < zlen h /\ node_ok (zlen h) a n) Hh);
    by intros a' n [= <-]|].
  intros n (Hr & _ & _ & Hn). destruct (index n =? num); [exact Hr|].
  destruct (next n) as [j|]; [|by destruct fuel as [|fuel]; [lia|]].
  destruct (Hn j eq_refl). apply IH; lia.
Qed.

(** children are later than their node, also while nodes are freed *)
Definition downward (h : heap) : Prop :=
  forall i n, h !! i = Some (Some n) -> forall c, yes n = Some c \/ no n = Some c -> Z.of_nat i < c.

Lemma heap_ok_downward h : heap_ok h -> downward h.
Proof.
  intros [_ A] i n X c Hc. destruct (A _ _ X) as (n' & [= <-] & _ & C & _).
  specialize (C c Hc). lia.
Qed.

Lemma downward_wr h a c : downward h ->
  (forall n, c = Some n -> forall d, yes n = Some d \/ no n = Some d -> a < d) ->
  ends (wr h a c) (fun h' => downward h' /\ zlen h' = zlen h).
Proof.
  intros D Hc. eapply ends_mono; [apply ends_wr_inv|]. intros h' [-> Hr].
  split; [|apply zlen_insert]. intros i n X d Hd.
  destruct (decide (i = Z.to_nat a)) as [->|Hne].
  - rewrite list_lookup_insert_eq in X by (unfold zlen in Hr; lia). injection X as ->.
    specialize (Hc n eq_refl d Hd). lia.
  - rewrite list_lookup_insert_ne in X by done. by eapply D.
Qed.

Lemma free_node_ends h p : downward h ->
  ends (free_node h p) (fun h' => downward h' /\ zlen h' = zlen h).
Proof.
  intros D. destruct p as [a|]; [|done]. eapply ends_bind; [apply deref_ends|]. intros _ _.
  by apply downward_wr.
Qed.

Lemma node_clear_ends fuel h a :
  downward h -> zlen h - a < Z.of_nat fuel -> (0 < fuel)%nat -> 0 <= a ->
  ends (HTS_Node_clear fuel h (Some a)) (fun h' => downward h' /\ zlen h' = zlen h).
Proof.
  revert h a. induction fuel as [|fuel IH]; intros h a D Hf Hp Ha; [lia|]. cbn [HTS_Node_clear].
  eapply ends_bind; [apply deref_ends|]. intros n (a' & [= <-] & Hr & X).
  assert (Hb : forall c, yes n = Some c \/ no n = Some c -> a < c).
    { intros c Hc. pose proof (D _ _ X c Hc). lia. }
    apply (ends_bind _ _ (fun h' => downward h' /\ zlen h' = zlen h)).
    { destruct (yes n) as [c|] eqn:Ey; [|done]. specialize (Hb c (or_introl eq_refl)).
      apply IH; [done|lia..]. }
    intros h1 [D1 L1]. apply (ends_bind _ _ (fun h' => downward h' /\ zlen h' = zlen h)).
    { destruct (no n) as [c|] eqn:En; [|done]. specialize (Hb c (or_intror eq_refl)).
      rewrite <-L1. apply IH; [done|lia..]. }
    intros h2 [D2 L2]. eapply ends_mono; [by apply free_node_ends|]. intros h3 [D3 L3].
    split; [done|]. lia.
Qed.

Lemma abandon_ends h p a b : heap_ok h -> ends (abandon_node h p a b) (fun _ => True).
Proof.
  intros Hh. pose proof Hh as [L _]. apply heap_ok_downward in Hh as D. unfold abandon_node.
  apply (ends_bind _ _ (fun h' => downward h' /\ zlen h' = zlen h)).
  { unfold set_node. eapply ends_bind; [apply deref_ends|]. intros n (p' & [= <-] & Hr & X).
    apply downward_wr; [done|]. intros n' [= <-] d Hd. pose proof (D _ _ X d Hd). lia. }
  intros h1 [D1 L1]. eapply ends_bind; [by apply free_node_ends|]. intros h2 [D2 L2].
  eapply ends_bind; [by apply free_node_ends|]. intros h3 [D3 L3].
  eapply ends_mono; [apply node_clear_ends; [done|unfold zlen; lia|lia..]|done].
Qed.

Lemma find_question_ends qs buff : Forall question_ok qs ->
  ends (HTS_Question_find_question qs buff) question_ok.
Proof.
  induction 1 as [|q qs Hq _ IH]; [done|]. cbn. by destruct (String.eqb buff (qname q)).
Qed.

(** a new node's children are linked *)
Lemma ask_node_ok h p q : heap_ok h -> question_ok q -> 0 <= p < zlen h ->
  ends (set_node (h ++ [Some calloc_node; Some calloc_node]) p (fun n =>
    n <| quest := Some q |> <| yes := Some (zlen h + 1) |> <| no := Some (zlen h) |>))
    (fun h' => heap_ok h' /\ zlen h' = zlen h + 2).
Proof.
  intros Hh Hq Hp. pose proof (zlen_app h [Some calloc_node; Some calloc_node]) as L.
  change (zlen [_; _]) with 2 in L. eapply ends_mono.
  - apply set_node_ok; [by apply heap_ok_grow|]. intros n Hp' (Q & C & X).
    split; [intros q' [= <-]; split; [done|split; by eexists]|]. split; [|exact X].
    intros c [[= <-]|[= <-]]; lia.
  - intros h' [H1 H2]. split; [done|]. lia.
Qed.

Lemma load_nodes_ends fuel qs fp h last :
  (tokens fp < fuel)%nat -> Forall question_ok qs -> heap_ok h -> 0 <= last < zlen h ->
  ends (load_nodes fuel qs fp h last) (fun r => (tokens r.2 <= tokens fp)%nat /\
    (r.1.1 = true -> heap_ok r.1.2)).
Proof.
  intros Hf Hqs. revert fp h last Hf. induction fuel as [|fuel IH]; intros fp h last Hf Hh Hl; [lia|].
  cbn [load_nodes]. apply token_bind; [intros fp1 L1; by split|]. intros t fp1 _ L1.
  destruct (String.eqb t "}"); [split; [cbn; lia|done]|].
  eapply ends_bind; [apply ends_atoi|]. intros num _.
  eapply ends_bind; [apply node_find_ends; [done|unfold zlen in Hl; lia|lia]|]. intros p Hp.
  apply token_bind.
  { intros fp2 L2. pose proof (heap_ok_downward h Hh) as D.
    eapply ends_bind; [apply node_clear_ends; [done|unfold zlen; lia|lia..]|].
    intros h' _. split; [cbn; lia|done]. }
  intros u fp2 _ L2. eapply ends_bind; [by apply find_question_ends|]. intros q Hq.
  cbn zeta. eapply ends_bind; [by apply ask_node_ok|]. intros h1 [H1 Z1].
  apply token_bind; [intros fp3 L3; eapply ends_bind; [by apply abandon_ends|];
    intros h' _; split; [cbn; lia|done]|].
  intros v fp3 _ L3. eapply ends_bind; [by apply set_child_ok; [|lia]|]. intros h2 [H2 Z2].
  apply token_bind; [intros fp4 L4; eapply ends_bind; [by apply abandon_ends|];
    intros h' _; split; [cbn; lia|done]|].
  intros w fp4 _ L4. eapply ends_bind; [by apply set_child_ok; [|lia]|]. intros h3 [H3 Z3].
  eapply ends_mono; [apply IH; [lia|done|lia]|]. intros r [Lr Hr]. split; [lia|done].
Qed.

(** a tree that was loaded *)
Definition tree_ok (tree : Tree) : Prop := root tree = Some 0 /\ heap_ok (nodes tree).

Lemma one_node_ok n : quest n = None -> yes n = None -> no n = None -> next n = None -> heap_ok [Some n].
Proof.
  intros E1 E2 E3 E4. split; [done|]. intros i c X. exists n.
  destruct i as [|i]; [|by destruct i]. injection X as <-. split; [done|].
  unfold node_ok. rewrite E1, E2, E3, E4. split; [done|]. split; [by intros c [|]|done].
Qed.

Lemma tree_load_ends hd st qs fp : Forall question_ok qs ->
  ends (HTS_Tree_load hd st qs fp) (fun r => (tokens r.2 <= tokens fp)%nat /\
    forall tree, r.1 = Some tree -> tree_ok tree /\ head tree = hd /\ state tree = st).
Proof.
  intros Hqs. unfold HTS_Tree_load. apply token_bind; [done|]. intros t fp1 _ L1.
  destruct (String.eqb t "{").
  - eapply ends_bind; [by apply load_nodes_ends; [lia|done|by apply one_node_ok|done]|].
    intros [[ok h] fp2] [L2 Hh]. cbn [fst snd] in *. split; [cbn; lia|].
    destruct ok; [|done]. intros tree [= <-]. split; [split; [done|by apply Hh]|done].
  - eapply ends_bind; [apply name2num_ends|]. intros d _. split; [cbn; lia|].
    intros tree [= <-]. split; [split; [done|by apply one_node_ok]|done].
Qed.

Lemma search_node_yields tree s : tree_ok tree ->
  NUL ∉ list_ascii_of_string s -> str_len s < 2 ^ 31 - 1 ->
  exists d, tree_of (S (length (nodes tree))) (nodes tree) (root tree) = Ok d /\
    yields (HTS_Tree_search_node tree s) (decides s d).
Proof.
  intros [Hr Hh] Hs Ls. unfold HTS_Tree_search_node. rewrite Hr. pose proof Hh as [L _].
  apply search_decides; try done. unfold zlen. lia.
Qed.

End HtsTree.
