(* ===== verification/HtsModel.v ===== *)
(** * Model sets (HTS_model.c of mage/libs/hts_engine-1.06)

    A model has the decision trees of a tree file and the distributions of a pdf
    file; a stream has one model per voice that is mixed, and its dynamic
    windows; a model set has the streams of the parameters, of the durations and
    of the global variances.  The file models the reading of tree files and
    windows and the selection of distributions for a label, and shows that a
    complete model set is a voice as MAGE needs it. *)

From Stdlib Require Import Ascii String.
From S2P Require Import Prelude Num Constants CString HtsPattern HtsTree Voice.
#[local] Open Scope Z_scope.

Module HtsModel.
Import HtsPattern HtsTree.

(** ** State *)

(** [npdf] and [pdf] are indexed from 2, and the distributions of a tree from
    1, by pointers moved before the start of their arrays *)
Record Model (F : Type) := mkModel {
  vector_length : Z;
  ntree : Z;
  npdf : list Z;
  pdf : list (list (list F));
  tree : list Tree;
  questions : list Question
}.
Arguments mkModel {F}. Arguments vector_length {F}. Arguments ntree {F}. Arguments npdf {F}.
Arguments pdf {F}. Arguments tree {F}. Arguments questions {F}.
#[global] Instance eta_htsmodel F : Settable (Model F) := fun m =>
  mkModel (vector_length m) (ntree m) (npdf m) (pdf m) (tree m) (questions m).

(** [coefficient] holds the rows as they are read; [coefficient[i]] points to
    the element of index [- l_width[i]] *)
Record Window (F : Type) := mkWindow {
  size : Z;
  l_width : list Z;
  r_width : list Z;
  coefficient : list (list F);
  max_width : Z
}.
Arguments mkWindow {F}. Arguments size {F}. Arguments l_width {F}. Arguments r_width {F}.
Arguments coefficient {F}. Arguments max_width {F}.

Record Stream (F : Type) := mkStream {
  svector_length : Z;
  model : list (Model F);
  window : Window F;
  msd_flag : bool;
  interpolation_size : Z
}.
Arguments mkStream {F}. Arguments svector_length {F}. Arguments model {F}. Arguments window {F}.
Arguments msd_flag {F}. Arguments interpolation_size {F}.

(** [gv] is None for the null pointer *)
Record ModelSet (F : Type) := mkModelSet {
  duration : Stream F;
  stream : list (Stream F);
  gv : option (list (Stream F));
  gv_switch : Model F;
  nstate : Z;
  nstream : Z
}.
Arguments mkModelSet {F}. Arguments duration {F}. Arguments stream {F}. Arguments gv {F}.
Arguments gv_switch {F}. Arguments nstate {F}. Arguments nstream {F}.

Section HtsModel.
Context {F : Type} `{NumOps F}.

Definition HTS_Model_initialize : Model F := mkModel 0 0 [] [] [] [].
Definition HTS_Window_initialize : Window F := mkWindow 0 [] [] [] 0.
Definition HTS_Stream_initialize : Stream F := mkStream 0 [] HTS_Window_initialize false 0.
Definition HTS_ModelSet_initialize (n : Z) : ModelSet F :=
  mkModelSet HTS_Stream_initialize [] None HTS_Model_initialize (-1) n.

(** ** Tree files *)

(** a question after the token QS; None when it cannot be read *)
Definition question_line (fp : file) (buff : string) (m : Model F)
    : Res (option (Model F) * file) :=
  if String.eqb buff "QS" then
    '(q, fp) ← HTS_Question_load fp;
    match q with
    | None => Ok (None, fp)
    | Some q => Ok (Some (m <| questions := questions m ++ [q] |>), fp)
    end
  else Ok (Some m, fp).

(** a tree after its patterns and its state; the buffer is cut at the state *)
Definition tree_line (fp : file) (buff : string) (m : Model F)
    : Res (option (Model F) * string * file) :=
  '(state, buff) ← HTS_get_state_num buff;
  if negb (state =? 0) then
    head ← HTS_Tree_parse_pattern buff;
    '(t, fp) ← HTS_Tree_load head state (questions m) fp;
    match t with
    | None => Ok (None, buff, fp)
    | Some t =>
        n ← i32 (ntree m + 1);
        Ok (Some (m <| tree := tree m ++ [t] |> <| ntree := n |>), buff, fp)
    end
  else Ok (Some m, buff, fp).

(** the loop over the tokens of a tree file; [buff] keeps the last token when
    there is none *)
Fixpoint load_trees (fuel : nat) (fp : file) (buff : string) (m : Model F)
    : Res (option (Model F)) :=
  match fuel with
  | O => Timeout
  | S fuel =>
      if HTS_feof fp then Ok (Some m)
      else
        '(tok, fp) ← HTS_get_pattern_token fp;
        '(r, fp) ← question_line fp (match tok with Some t => t | None => buff end) m;
        match r with
        | None => Ok None
        | Some m =>
            '(r, buff, fp) ← tree_line fp (match tok with Some t => t | None => buff end) m;
            match r with None => Ok None | Some m => load_trees fuel fp buff m end
        end
  end.

(** the load into a model without trees; FALSE clears it, a file without trees
    ends the program *)
Definition HTS_Model_load_tree (fp : file) (buff : string) (m : Model F)
    : Res (Model F * bool) :=
  r ← load_trees (S (tokens fp)) fp buff (m <| ntree := 0 |>);
  match r with
  | None => Ok (HTS_Model_initialize, false)
  | Some m => match tree m with [] => Exit 1 | _ => Ok (m, true) end
  end.

(** ** Window files *)

Variable strtod_special : string -> F.

(** the loop over the characters of a token; the array ends at HTS_MAXBUFLEN *)
Fixpoint token_chars (fuel : nat) (c : ascii) (fp : file) (buff : list ascii)
    : Res (list ascii * file) :=
  match fuel with
  | O => Timeout
  | S fuel =>
      check (zlen buff <? HTS_MAXBUFLEN) OutOfBounds ;;
      if token_separator c then Ok (buff, fp)
      else
        let buff := buff ++ [c] in
        if HTS_feof fp then check (zlen buff <? HTS_MAXBUFLEN) OutOfBounds ;; Ok (buff, fp)
        else let '(c, fp) := HTS_fgetc fp in token_chars fuel c fp buff
  end.

(** the result is the token, None for FALSE *)
Definition HTS_get_token (fp : file) : Res (option string * file) :=
  if HTS_feof fp then Ok (None, fp)
  else
    let '(c, fp) := HTS_fgetc fp in
    match skip_separators token_separator c (rest fp) (eof fp) with
    | None => Ok (None, mkFile [] true)
    | Some (c, fp) =>
        '(buff, fp) ← token_chars (S (Z.to_nat HTS_MAXBUFLEN)) c fp [];
        Ok (Some (text_of buff), fp)
    end.

(** the number of coefficients of a window, 1 when it is missing or not positive *)
Definition window_length (tok : option string) : Res (bool * Z) :=
  match tok with
  | None => Ok (false, 1)
  | Some buff => fsize ← atoi buff; Ok (if fsize <=? 0 then (false, 1) else (true, fsize))
  end.

Definition load_coefficients (fsize : Z) (result : bool) (fp : file) : Res (bool * list F) :=
  '(result, row, _) ← for_up 0 fsize (fun j '(result, row, fp) =>
    '(tok, fp) ← HTS_get_token fp;
    match tok with
    | None => row ← wr row j (nZ 0); Ok (false, row, fp)
    | Some buff => row ← wr row j (atof strtod_special buff); Ok (result, row, fp)
    end) (result, replicate (Z.to_nat fsize) (nZ 0), fp);
  Ok (result, row).

(** one window: whether it was read, its coefficients and its widths *)
Definition load_window (fp : file) : Res (bool * list F * Z * Z) :=
  '(tok, fp) ← HTS_get_token fp;
  '(result, fsize) ← window_length tok;
  '(result, row) ← load_coefficients fsize result fp;
  let length := Z.quot fsize 2 in
  Ok (result, row, - length, if Z.rem fsize 2 =? 0 then length - 1 else length).

Definition widest (ls rs : list Z) : Z :=
  foldl (fun w '(l, r) =>
    let w := if w <? Z.abs l then Z.abs l else w in
    if w <? Z.abs r then Z.abs r else w) 0 (zip ls rs).

(** the windows of [size] files; FALSE clears the window *)
Definition HTS_Window_load (fps : list file) (size : Z) : Res (Window F * bool) :=
  if size <=? 0 then Ok (HTS_Window_initialize, false)
  else
    '(result, win) ← for_up 0 size (fun i '(result, win) =>
      fp ← rd fps i;
      '(ok, row, l, r) ← load_window fp;
      Ok (result && ok, mkWindow size (l_width win ++ [l]) (r_width win ++ [r])
                          (coefficient win ++ [row]) 0)) (true, mkWindow size [] [] [] 0);
    let win := mkWindow size (l_width win) (r_width win) (coefficient win)
                 (widest (l_width win) (r_width win)) in
    Ok (if result : bool then (win, true) else (HTS_Window_initialize, false)).

(** ** Selection *)

(** a label against the patterns of a tree; a tree without patterns takes any *)
Definition tree_takes (s : string) (t : Tree) : Res bool :=
  match head t with [] => Ok true | ps => match_any s ps end.

(** the first tree that takes the label, of the trees that [fit]; none ends the
    program *)
Fixpoint select_tree (fit : Tree -> bool) (s : string) (ts : list Tree) (tree_index : Z)
    : Res (Tree * Z) :=
  match ts with
  | [] => Exit 1
  | t :: ts =>
      find ← (if fit t then tree_takes s t else Ok false);
      if find : bool then Ok (t, tree_index) else select_tree fit s ts (tree_index + 1)
  end.

(** the indices of the tree and of its distribution *)
Definition tree_and_pdf (fit : Tree -> bool) (s : string) (ts : list Tree) : Res (Z * Z) :=
  '(t, tree_index) ← select_tree fit s ts 2;
  pdf_index ← HTS_Tree_search_node t s;
  Ok (tree_index, pdf_index).

Definition HTS_ModelSet_get_duration_index (ms : ModelSet F) (s : string) (i : Z) : Res (Z * Z) :=
  m ← rd (model (duration ms)) i; tree_and_pdf (fun _ => true) s (tree m).

Definition HTS_ModelSet_get_parameter_index (ms : ModelSet F) (s : string)
    (stream_index state_index i : Z) : Res (Z * Z) :=
  st ← rd (stream ms) stream_index;
  m ← rd (model st) i; tree_and_pdf (fun t => state t =? state_index) s (tree m).

Definition gv_stream (ms : ModelSet F) (stream_index : Z) : Res (Stream F) :=
  match gv ms with None => Undef NullPointer | Some l => rd l stream_index end.

Definition HTS_ModelSet_have_gv_tree (ms : ModelSet F) (stream_index : Z) : Res bool :=
  st ← gv_stream ms stream_index;
  for_up 0 (interpolation_size st) (fun i found =>
    if found : bool then
      m ← rd (model st) i; Ok (match tree m with [] => false | _ => true end)
    else Ok false) true.

Definition HTS_ModelSet_get_gv_index (ms : ModelSet F) (s : string) (stream_index i : Z)
    : Res (Z * Z) :=
  have ← HTS_ModelSet_have_gv_tree ms stream_index;
  if have : bool then
    st ← gv_stream ms stream_index;
    m ← rd (model st) i; tree_and_pdf (fun _ => true) s (tree m)
  else Ok (2, 1).

(** [pdf[tree_index][pdf_index]] of a model *)
Definition distribution (m : Model F) (tree_index pdf_index : Z) : Res (list F) :=
  t ← rd (pdf m) (tree_index - 2); rd t (pdf_index - 1).

(** the [n] means and variances of the distribution [d], weighted and added *)
Definition add_pdf (iw : F) (d : list F) (n vector_length : Z) (r : list F * list F)
    : Res (list F * list F) :=
  for_up 0 n (fun j '(mean, vari) =>
    mean ← upd mean j (fun a => x ← rd d j; Ok (a + iw * x)%num);
    vari ← upd vari j (fun a => x ← rd d (j + vector_length); Ok (a + iw * iw * x)%num);
    Ok (mean, vari)) r.

Definition zero_pdf (n : Z) : list F * list F :=
  (replicate (Z.to_nat n) (nZ 0), replicate (Z.to_nat n) (nZ 0)).

Definition HTS_ModelSet_get_duration (ms : ModelSet F) (s : string) (iw : list F)
    : Res (list F * list F) :=
  for_up 0 (interpolation_size (duration ms)) (fun i r =>
    '(tree_index, pdf_index) ← HTS_ModelSet_get_duration_index ms s i;
    m ← rd (model (duration ms)) i;
    d ← distribution m tree_index pdf_index;
    w ← rd iw i;
    add_pdf w d (nstate ms) (svector_length (duration ms)) r) (zero_pdf (nstate ms)).

(** [msd] is the third component *)
Definition HTS_ModelSet_get_parameter (ms : ModelSet F) (s : string)
    (stream_index state_index : Z) (iw : list F) : Res (list F * list F * F) :=
  st ← rd (stream ms) stream_index;
  for_up 0 (interpolation_size st) (fun i '(r, msd) =>
    '(tree_index, pdf_index) ← HTS_ModelSet_get_parameter_index ms s stream_index state_index i;
    m ← rd (model st) i;
    d ← distribution m tree_index pdf_index;
    w ← rd iw i;
    r ← add_pdf w d (svector_length st) (svector_length st) r;
    msd ← (if msd_flag st then x ← rd d (2 * svector_length st); Ok (msd + w * x)%num else Ok msd);
    Ok (r, msd)) (zero_pdf (svector_length st), nZ 0).

Definition HTS_ModelSet_get_gv (ms : ModelSet F) (s : string) (stream_index : Z) (iw : list F)
    : Res (list F * list F) :=
  st ← gv_stream ms stream_index;
  for_up 0 (interpolation_size st) (fun i r =>
    '(tree_index, pdf_index) ← HTS_ModelSet_get_gv_index ms s stream_index i;
    m ← rd (model st) i;
    d ← distribution m tree_index pdf_index;
    w ← rd iw i;
    add_pdf w d (svector_length st) (svector_length st) r) (zero_pdf (svector_length st)).

Definition HTS_ModelSet_use_gv (ms : ModelSet F) (stream_index : Z) : Res bool :=
  match gv ms with
  | None => Ok false
  | Some l => st ← rd l stream_index; Ok (0 <? svector_length st)
  end.

Definition HTS_ModelSet_have_gv_switch (ms : ModelSet F) : bool :=
  match tree (gv_switch ms) with [] => false | _ => true end.

Definition HTS_ModelSet_get_gv_switch (ms : ModelSet F) (s : string) : Res bool :=
  match tree (gv_switch ms) with
  | [] => Ok true
  | ts => '(_, pdf_index) ← tree_and_pdf (fun _ => true) s ts; Ok (negb (pdf_index =? 1))
  end.

(** the getters of a stream *)
Definition HTS_ModelSet_get_window_left_width (ms : ModelSet F) (k i : Z) : Res Z :=
  st ← rd (stream ms) k; rd (l_width (window st)) i.
Definition HTS_ModelSet_get_window_right_width (ms : ModelSet F) (k i : Z) : Res Z :=
  st ← rd (stream ms) k; rd (r_width (window st)) i.
Definition HTS_ModelSet_get_window_coefficient (ms : ModelSet F) (k i c : Z) : Res F :=
  st ← rd (stream ms) k;
  l ← rd (l_width (window st)) i;
  row ← rd (coefficient (window st)) i; rd row (c - l).

(** ** What is selected *)

(** a string that can be matched *)
Definition text (s : string) : Prop :=
  (NUL ∉ list_ascii_of_string s) /\ str_len s < 2 ^ 31 - 1.

Definition takes (s : string) (t : Tree) : Prop :=
  head t = [] \/ Exists (fun p => glob (list_ascii_of_string p) (list_ascii_of_string s)) (head t).

(** the first of the trees that fit and take the label *)
Definition selected (fit : Tree -> bool) (s : string) (ts : list Tree) (n : nat) (t : Tree) : Prop :=
  ts !! n = Some t /\ fit t = true /\ takes s t /\
  forall j t', (j < n)%nat -> ts !! j = Some t' -> ~ (fit t' = true /\ takes s t').

(** a tree whose search and whose patterns can be trusted *)
Definition sound_tree (t : Tree) : Prop := tree_ok t /\ question_ok (mkQuestion "" (head t)).

Lemma tree_takes_yields s t : text s -> sound_tree t ->
  yields (tree_takes s t) (fun b => b = true <-> takes s t).
Proof.
  intros [Hs Ls] [_ Hh]. unfold tree_takes, takes.
  assert (Y : yields (match_any s (head t)) (fun b => b = true <->
    Exists (fun p => glob (list_ascii_of_string p) (list_ascii_of_string s)) (head t)))
    by by apply match_any_spec.
  destruct (head t) as [|p ps]; [apply yields_ok; split; [by left|done]|].
  eapply yields_mono; [exact Y|]. intros b ->. split; [by right|]. by intros [|].
Qed.

Lemma select_tree_yields fit s ts k : text s -> Forall sound_tree ts ->
  Exists (fun t => fit t = true /\ takes s t) ts ->
  yields (select_tree fit s ts k) (fun r => exists n, r.2 = k + Z.of_nat n /\ selected fit s ts n r.1).
Proof.
  intros Hs. revert k. induction ts as [|t ts IH]; intros k Ht He; [by apply Exists_nil in He|].
  apply Forall_cons in Ht as [Ht Hts]. cbn [select_tree].
  assert (Y : yields (if fit t then tree_takes s t else Ok false)
    (fun b => b = true <-> fit t = true /\ takes s t)).
  { destruct (fit t); [|by apply yields_ok; split; [|intros []]].
    eapply yields_mono; [by apply tree_takes_yields|]. intros b ->. split; [done|by intros []]. }
  destruct Y as (b & -> & Hb). rewrite bind_Ok. destruct b.
  - apply yields_ok. exists O. split; [cbn; lia|]. destruct (proj1 Hb eq_refl). split; [done|].
    split; [done|]. split; [done|]. lia.
  - apply Exists_cons in He as [He|He]; [by apply Hb in He|].
    eapply yields_mono; [by apply IH|]. intros r (n & E & X & Hf & Hk & Hn). exists (S n).
    split; [lia|]. split; [done|]. split; [done|]. split; [done|].
    intros [|j] t' Hj E'; [injection E' as <-; intros A; by apply Hb in A|].
    apply (Hn j); [lia|done].
Qed.

(** ** Complete models *)

Fixpoint leaves (d : dtree) : list Z :=
  match d with Leaf v => [v] | Ask _ y n => leaves y ++ leaves n end.

Lemma decides_leaf_of s d v : decides s d v -> v ∈ leaves d.
Proof.
  induction 1; cbn; [by apply list_elem_of_singleton|apply elem_of_app; by left|apply elem_of_app; by right].
Qed.

(** a model that answers every label: a tree takes it, and the leaves of its
    trees are distributions of [len] numbers *)
Record complete (fit : Tree -> bool) (len : Z) (m : Model F) : Prop := {
  c_trees : Forall sound_tree (tree m);
  c_covers : forall s, text s -> Exists (fun t => fit t = true /\ takes s t) (tree m);
  c_pdfs : forall n t, tree m !! n = Some t -> fit t = true -> exists rows, pdf m !! n = Some rows /\
    forall d v, tree_of (S (length (nodes t))) (nodes t) (root t) = Ok d -> v ∈ leaves d ->
      1 <= v /\ exists row, rows !! Z.to_nat (v - 1) = Some row /\ len <= zlen row
}.

(** the distribution of a label in a model: the leaf of the tree selected *)
Definition chosen (fit : Tree -> bool) (s : string) (m : Model F) (row : list F) : Prop :=
  exists n t d v rows, selected fit s (tree m) n t /\
    tree_of (S (length (nodes t))) (nodes t) (root t) = Ok d /\ decides s d v /\
    pdf m !! n = Some rows /\ rows !! Z.to_nat (v - 1) = Some row.

Lemma chosen_yields fit len m s : complete fit len m -> text s ->
  yields (tree_and_pdf fit s (tree m)) (fun r =>
    yields (distribution m r.1 r.2) (fun row => chosen fit s m row /\ len <= zlen row)).
Proof.
  intros [T C P] Hs. unfold tree_and_pdf.
  eapply yields_bind; [by apply select_tree_yields; [..|by apply C]|].
  intros [t i] (n & Ei & Sel). cbn [fst snd] in *. pose proof Sel as (Xt & Ft & _ & _).
  rewrite Forall_lookup in T. destruct (T _ _ Xt) as [Tt _].
  destruct Hs as [Hs Ls]. destruct (search_node_yields t s Tt Hs Ls) as (d & Ed & Y).
  eapply yields_bind; [exact Y|]. intros v Dv. apply yields_ok. cbn [fst snd]. subst i.
  destruct (P n t Xt Ft) as (rows & Xr & Hr).
  destruct (Hr d v Ed (decides_leaf_of _ _ _ Dv)) as (Hv & row & Erow & Hl).
  unfold distribution. pose proof (lookup_lt_Some _ _ _ Xr). pose proof (lookup_lt_Some _ _ _ Erow).
  rewrite (rd_ok _ _ rows), bind_Ok; [|lia|by replace (Z.to_nat (2 + Z.of_nat n - 2)) with n by lia].
  rewrite (rd_ok _ _ row) by (done || lia). apply yields_ok. split; [|done].
  by exists n, t, d, v, rows.
Qed.

(** ** Mixtures *)

(** the distribution [d] with weight [w], added to means and variances *)
Definition weighted (len : Z) (r : list F * list F) (wd : F * list F) : list F * list F :=
  (zip_with (fun a x => a + wd.1 * x)%num r.1 wd.2,
   zip_with (fun a x => a + wd.1 * wd.1 * x)%num r.2 (drop (Z.to_nat len) wd.2)).

Definition mixture (n len : Z) (iw : list F) (ds : list (list F)) : list F * list F :=
  foldl (weighted len) (zero_pdf n) (zip iw ds).

(** the first [i] elements of [l0] are combined with those of [k] *)
Definition mapped (f : F -> F -> F) (k l0 : list F) (i : Z) (l : list F) : Prop :=
  zlen l = zlen l0 /\ forall j : nat, l !! j =
    if bool_decide (Z.of_nat j < i) then a ← l0 !! j; x ← k !! j; Some (f a x) else l0 !! j.

Lemma mapped_start f k l : mapped f k l 0 l.
Proof. split; [done|]. intros j. by rewrite bool_decide_eq_false_2 by lia. Qed.

Lemma mapped_step f k l0 i l d p :
  mapped f k l0 i l -> 0 <= i < zlen l0 -> 0 <= p < zlen d -> k !! Z.to_nat i = d !! Z.to_nat p ->
  yields (upd l i (fun a => x ← rd d p; Ok (f a x))) (mapped f k l0 (i + 1)).
Proof.
  intros [L A] Hi Hp Ek. destruct (yields_rd l i) as (a & Ea & Xa); [lia|].
  destruct (yields_rd d p Hp) as (x & Ex & Xx). unfold upd.
  rewrite Ea, bind_Ok, Ex, !bind_Ok, wr_ok by lia. apply yields_ok. split; [by rewrite zlen_insert|].
  intros j. destruct (decide (j = Z.to_nat i)) as [->|Hne].
  - rewrite list_lookup_insert_eq by (unfold zlen in *; lia). rewrite bool_decide_eq_true_2 by lia.
    rewrite A, bool_decide_eq_false_2 in Xa by lia. by rewrite Xa, Ek, Xx.
  - rewrite list_lookup_insert_ne, A by done. destruct (decide (Z.of_nat j < i)).
    + by rewrite !bool_decide_eq_true_2 by lia.
    + by rewrite !bool_decide_eq_false_2 by lia.
Qed.

Lemma mapped_all f k l0 l : mapped f k l0 (zlen l0) l -> l = zip_with f l0 k.
Proof.
  intros [L A]. apply list_eq. intros j. rewrite A, lookup_zip_with.
  case_bool_decide as C; [done|]. by rewrite lookup_ge_None_2 by (unfold zlen in C; lia).
Qed.

Lemma add_pdf_weighted iw d n len mean vari :
  zlen mean = n -> zlen vari = n -> 0 <= len -> n <= len -> len + n <= zlen d ->
  add_pdf iw d n len (mean, vari) = Ok (weighted len (mean, vari) (iw, d)).
Proof.
  intros Lm Lv Hl Hn Hd. pose proof (zlen_nonneg mean). unfold weighted. cbn [fst snd].
  set (fm := fun a x => (a + iw * x)%num). set (fv := fun a x => (a + iw * iw * x)%num).
  set (d2 := drop (Z.to_nat len) d).
  destruct (for_up_yields (fun i r => mapped fm d mean i r.1 /\ mapped fv d2 vari i r.2) 0 n
    (fun j '(mean, vari) =>
      mean ← upd mean j (fun a => x ← rd d j; Ok (fm a x));
      vari ← upd vari j (fun a => x ← rd d (j + len); Ok (fv a x));
      Ok (mean, vari)) (mean, vari)) as ([a b] & E & A & B); [lia|split; apply mapped_start| |].
  - intros i [a b] Hi [A B]. cbn [fst snd] in A, B.
    eapply yields_bind; [eapply mapped_step; [exact A|lia|lia|done]|]. intros a' A'.
    eapply yields_bind; [eapply mapped_step; [exact B|lia|lia|]|].
    { unfold d2. rewrite lookup_drop. f_equal. lia. }
    intros b' B'. by apply yields_ok.
  - cbn [fst snd] in A, B. rewrite <-Lm in A at 1. rewrite <-Lv in B at 1.
    apply mapped_all in A, B. subst a b. exact E.
Qed.

(** the distributions of the first [i] models, mixed *)
Definition mixed (Ch : Model F -> list F -> Prop) (n len : Z) (models : list (Model F))
    (iw : list F) (i : Z) (ds : list (list F)) (r : list F * list F) : Prop :=
  Forall2 Ch (take (Z.to_nat i) models) ds /\ r = mixture n len iw ds /\
  zlen r.1 = n /\ zlen r.2 = n.

Lemma mixed_start Ch n len models iw :
  0 <= n -> mixed Ch n len models iw 0 [] (zero_pdf n).
Proof.
  intros Hn. split; [constructor|]. split; [unfold mixture; by rewrite zip_with_nil_r|].
  unfold zero_pdf. cbn [fst snd]. rewrite zlen_replicate. lia.
Qed.

Lemma zip_snoc {A B} (l : list A) (k : list B) x y :
  l !! length k = Some x -> zip l (k ++ [y]) = zip l k ++ [(x, y)].
Proof.
  revert l. induction k as [|z k IH]; intros [|a l] E; try done; cbn in *.
  - injection E as ->. by rewrite zip_with_nil_r.
  - by rewrite IH.
Qed.

Lemma mixed_step Ch n len models iw i ds r m w d :
  mixed Ch n len models iw i ds r -> 0 <= i -> models !! Z.to_nat i = Some m ->
  iw !! Z.to_nat i = Some w -> Ch m d -> n <= len -> len + n <= zlen d ->
  yields (add_pdf w d n len r) (mixed Ch n len models iw (i + 1) (ds ++ [d])).
Proof.
  intros (Fa & -> & L1 & L2) Hi Em Ew Hd Hn Hl. pose proof (zlen_nonneg (mixture n len iw ds).1).
  destruct (mixture n len iw ds) as [a b] eqn:Emix. cbn [fst snd] in *.
  rewrite add_pdf_weighted by lia. apply yields_ok. unfold mixed.
  replace (Z.to_nat (i + 1)) with (S (Z.to_nat i)) by lia. rewrite (take_S_r _ _ _ Em).
  pose proof (Forall2_length _ _ _ Fa) as Lds. rewrite length_take in Lds.
  apply lookup_lt_Some in Em.
  split; [apply Forall2_app; [done|by constructor]|]. split.
  - unfold mixture. rewrite (zip_snoc _ _ w) by (by replace (length ds) with (Z.to_nat i) by lia).
    rewrite foldl_app. unfold mixture in Emix. by rewrite Emix.
  - unfold weighted. cbn [fst snd]. unfold zlen in *.
    rewrite !length_zip_with, length_drop. lia.
Qed.

Lemma mixed_all Ch n len models iw ds r :
  mixed Ch n len models iw (zlen models) ds r ->
  Forall2 Ch models ds /\ r = mixture n len iw ds /\ zlen r.1 = n /\ zlen r.2 = n.
Proof.
  intros (Fa & X). split; [|done]. rewrite take_ge in Fa by (unfold zlen; lia). exact Fa.
Qed.

(** what one round of the loops reads: the distribution selected and its weight *)
Definition selects (Ch : Model F -> list F -> Prop) (need : Z) (models : list (Model F))
    (idx : Z -> Res (Z * Z)) : Prop :=
  forall i m, models !! Z.to_nat i = Some m -> 0 <= i -> yields (idx i) (fun r =>
    yields (distribution m r.1 r.2) (fun row => Ch m row /\ need <= zlen row)).

Lemma selection_yields {B} Ch need models idx iw i (f : list F -> F -> Res B) (P : B -> Prop) :
  selects Ch need models idx -> 0 <= i < zlen models -> zlen models <= zlen iw ->
  (forall m d w, models !! Z.to_nat i = Some m -> iw !! Z.to_nat i = Some w -> Ch m d ->
    need <= zlen d -> yields (f d w) P) ->
  yields ('(t, p) ← idx i; m ← rd models i; d ← distribution m t p; w ← rd iw i; f d w) P.
Proof.
  intros Sel Hi Hw Hf. destruct (yields_rd models i Hi) as (m & Em & X).
  eapply yields_bind; [apply (Sel i m X); lia|]. intros [t p] Y. cbn [fst snd] in Y. rewrite Em, bind_Ok.
  eapply yields_bind; [exact Y|]. intros d [Hd Hl].
  destruct (yields_rd iw i) as (w & -> & Xw); [lia|]. rewrite bind_Ok. by eapply Hf.
Qed.

Lemma mixture_loop Ch n len need models idx iw :
  selects Ch need models idx -> 0 <= n <= len -> len + n <= need -> zlen models <= zlen iw ->
  yields (for_up 0 (zlen models) (fun i r =>
    '(t, p) ← idx i; m ← rd models i; d ← distribution m t p; w ← rd iw i; add_pdf w d n len r)
    (zero_pdf n)) (fun r => exists ds, Forall2 Ch models ds /\ r = mixture n len iw ds /\
                             zlen r.1 = n /\ zlen r.2 = n).
Proof.
  intros Sel Hn Hl Hw. eapply yields_mono.
  { apply (for_up_yields (fun i r => exists ds, mixed Ch n len models iw i ds r)); [apply zlen_nonneg| |].
    - exists []. apply mixed_start. lia.
    - intros i r Hi (ds & M). eapply selection_yields; [done..|]. intros m d w Xm Xw Hd Ld.
      eapply yields_mono; [eapply mixed_step; try done; lia|]. intros r' M'. by exists (ds ++ [d]). }
  intros r (ds & M). exists ds. by apply mixed_all.
Qed.

Lemma complete_selects fit need models s :
  Forall (complete fit need) models -> text s ->
  selects (chosen fit s) need models (fun i => m ← rd models i; tree_and_pdf fit s (tree m)).
Proof.
  intros C Hs i m X Hi. rewrite Forall_lookup in C. pose proof (lookup_lt_Some _ _ _ X).
  rewrite (rd_ok _ _ m), bind_Ok by done. by eapply chosen_yields; [apply (C _ _ X)|].
Qed.

(** ** Complete model sets *)

(** a stream of complete models, for [n] means and [n] variances of each *)
Record complete_stream (fit : Tree -> bool) (n need : Z) (st : Stream F) : Prop := {
  s_size : interpolation_size st = zlen (model st);
  s_length : 0 <= n <= svector_length st;
  s_need : svector_length st + n <= need;
  s_models : Forall (complete fit need) (model st)
}.

Definition all_trees (t : Tree) : bool := true.
Definition of_state (i : Z) (t : Tree) : bool := state t =? i.

Lemma duration_mixture ms s iw :
  complete_stream all_trees (nstate ms) (svector_length (duration ms) + nstate ms) (duration ms) ->
  text s -> zlen (model (duration ms)) <= zlen iw ->
  yields (HTS_ModelSet_get_duration ms s iw) (fun r => exists ds,
    Forall2 (chosen all_trees s) (model (duration ms)) ds /\
    r = mixture (nstate ms) (svector_length (duration ms)) iw ds /\
    zlen r.1 = nstate ms /\ zlen r.2 = nstate ms).
Proof.
  intros [Es Hn Hl C] Hs Hw. unfold HTS_ModelSet_get_duration. rewrite Es.
  eapply mixture_loop; [by apply complete_selects|lia..].
Qed.

(** the weight of the multi-space distribution *)
Definition msd_mixture (len : Z) (iw : list F) (ds : list (list F)) : F :=
  foldl (fun a wd => match wd.2 !! Z.to_nat (2 * len) with
                     | Some x => (a + wd.1 * x)%num | None => a end) (nZ 0) (zip iw ds).

Lemma parameter_mixture ms s k j iw st :
  stream ms !! Z.to_nat k = Some st -> 0 <= k ->
  complete_stream (of_state j) (svector_length st)
    (2 * svector_length st + if msd_flag st then 1 else 0) st ->
  text s -> zlen (model st) <= zlen iw ->
  yields (HTS_ModelSet_get_parameter ms s k j iw) (fun r => exists ds,
    Forall2 (chosen (of_state j) s) (model st) ds /\
    r.1 = mixture (svector_length st) (svector_length st) iw ds /\
    zlen r.1.1 = svector_length st /\ zlen r.1.2 = svector_length st /\
    r.2 = if msd_flag st then msd_mixture (svector_length st) iw ds else nZ 0).
Proof.
  intros Est Hk [Es Hn Hl C] Hs Hw.
  unfold HTS_ModelSet_get_parameter, HTS_ModelSet_get_parameter_index.
  rewrite (rd_ok _ _ st), bind_Ok, Es by done. set (len := svector_length st) in *.
  eapply yields_mono.
  { apply (for_up_yields (fun i r => exists ds, mixed (chosen (of_state j) s) len len (model st) iw i ds r.1 /\
      r.2 = if msd_flag st then msd_mixture len iw ds else nZ 0)); [apply zlen_nonneg| |].
    - exists []. split; [apply mixed_start; lia|]. unfold msd_mixture. rewrite zip_with_nil_r.
      by destruct (msd_flag st).
    - intros i [r msd] Hi (ds & M & Em). cbn [fst snd] in M, Em. rewrite bind_Ok.
      pose proof (complete_selects _ _ _ _ C Hs) as Sel.
      eapply (selection_yields _ _ _ _ _ _ _ _ Sel Hi Hw). intros m d w Xm Xw Hd Ld.
      assert (Lds : length ds = Z.to_nat i).
      { destruct M as (Fa & _). apply Forall2_length in Fa. rewrite length_take in Fa.
        apply lookup_lt_Some in Xm. lia. }
      eapply yields_bind; [eapply mixed_step; try done; destruct (msd_flag st); lia|].
      intros r' M'. destruct (msd_flag st).
      + destruct (yields_rd d (2 * len)) as (x & -> & Xx); [lia|]. rewrite !bind_Ok. apply yields_ok.
        exists (ds ++ [d]). split; [exact M'|]. cbn [snd]. unfold msd_mixture.
        rewrite (zip_snoc _ _ w) by (by rewrite Lds). rewrite foldl_app. cbn [foldl fst snd].
        rewrite Xx. unfold msd_mixture in Em. by rewrite <-Em.
      + rewrite bind_Ok. apply yields_ok. by exists (ds ++ [d]). }
  intros [r msd] (ds & M & Em). cbn [fst snd] in *. exists ds.
  apply mixed_all in M as (Fa & E & L1 & L2). done.
Qed.

(** the distribution of a label in a model of global variances: without trees
    in every model it is the first one *)
Definition gv_chosen (have : bool) (s : string) (m : Model F) (row : list F) : Prop :=
  if have then chosen all_trees s m row
  else exists rows, pdf m !! O = Some rows /\ rows !! O = Some row.

Definition have_trees (models : list (Model F)) : bool :=
  forallb (fun m => match tree m with [] => false | _ => true end) models.

(** a stream of global variances *)
Record complete_gv (st : Stream F) : Prop := {
  g_size : interpolation_size st = zlen (model st);
  g_length : 0 <= svector_length st <= maxStreamLen;
  g_models : if have_trees (model st)
    then Forall (complete all_trees (2 * svector_length st)) (model st)
    else Forall (fun m => exists rows row, pdf m !! O = Some rows /\ rows !! O = Some row /\
                          2 * svector_length st <= zlen row) (model st)
}.

Lemma have_gv_tree_spec ms k st :
  gv_stream ms k = Ok st -> interpolation_size st = zlen (model st) ->
  HTS_ModelSet_have_gv_tree ms k = Ok (have_trees (model st)).
Proof.
  intros E Es. unfold HTS_ModelSet_have_gv_tree. rewrite E, bind_Ok, Es.
  destruct (for_up_yields (fun i b => b = have_trees (take (Z.to_nat i) (model st))) 0 (zlen (model st))
    (fun i found => if found : bool then
      m ← rd (model st) i; Ok (match tree m with [] => false | _ => true end) else Ok false) true)
    as (b & -> & Hb); [apply zlen_nonneg|done| |].
  - intros i b Hi ->. destruct (yields_rd (model st) i Hi) as (m & Em & X).
    replace (Z.to_nat (i + 1)) with (S (Z.to_nat i)) by lia. rewrite (take_S_r _ _ _ X).
    unfold have_trees. rewrite forallb_app. destruct (forallb _ _); [|by apply yields_ok].
    rewrite Em, bind_Ok. apply yields_ok. cbn. by destruct (tree m).
  - rewrite Hb. by rewrite take_ge by (unfold zlen; lia).
Qed.

Lemma gv_mixture ms s k iw st :
  gv_stream ms k = Ok st -> complete_gv st -> text s -> zlen (model st) <= zlen iw ->
  yields (HTS_ModelSet_get_gv ms s k iw) (fun r => exists ds,
    Forall2 (gv_chosen (have_trees (model st)) s) (model st) ds /\
    r = mixture (svector_length st) (svector_length st) iw ds /\
    zlen r.1 = svector_length st /\ zlen r.2 = svector_length st).
Proof.
  intros E [Es Hl C] Hs Hw. unfold HTS_ModelSet_get_gv. rewrite E, bind_Ok, Es.
  apply (mixture_loop _ _ _ (2 * svector_length st)); [|lia..].
  intros i m X Hi. unfold HTS_ModelSet_get_gv_index. rewrite (have_gv_tree_spec ms k st), bind_Ok by done.
  destruct (have_trees (model st)).
  - rewrite E, bind_Ok. by apply (complete_selects _ _ _ _ C Hs).
  - apply yields_ok. rewrite Forall_lookup in C. destruct (C _ _ X) as (rows & row & Xr & Xo & L).
    unfold distribution. cbn [fst snd]. pose proof (lookup_lt_Some _ _ _ Xr).
    pose proof (lookup_lt_Some _ _ _ Xo).
    rewrite (rd_ok _ _ rows), bind_Ok by (unfold zlen; done || lia).
    rewrite (rd_ok _ _ row) by (unfold zlen; done || lia). apply yields_ok. split; [|done].
    by exists rows.
Qed.

(** ** Loaded trees *)

Lemma token_take t n : token_ok t -> token_ok (string_of_list_ascii (take n (list_ascii_of_string t))).
Proof.
  intros [N L]. assert (El : zlen (list_ascii_of_string t) = str_len t).
  { by rewrite <-str_len_list, string_of_list_ascii_of_string. }
  pose proof (zlen_nonneg (list_ascii_of_string t)). split.
  - rewrite list_ascii_of_string_of_list_ascii. intros Hi. apply N.
    rewrite <-(take_drop n (list_ascii_of_string t)). apply elem_of_app. by left.
  - rewrite str_len_list, zlen_take. lia.
Qed.

Lemma state_num_ends s : token_ok s -> ends (HTS_get_state_num s) (fun r => token_ok r.2).
Proof.
  intros Hs. unfold HTS_get_state_num. destruct (strchr _ _); [|done].
  destruct (strrchr _ _) as [j|]; [|done].
  eapply ends_bind; [apply ends_atoi|]. intros num _. by apply token_take.
Qed.

(** the names of a tree line are short strings *)
Definition short (s : string) : Prop :=
  (NUL ∉ list_ascii_of_string s) /\ str_len s < HTS_MAXBUFLEN + 2.

Lemma short_list l : NUL ∉ l -> zlen l < HTS_MAXBUFLEN + 2 -> short (string_of_list_ascii l).
Proof.
  intros Hl L. split; [by rewrite list_ascii_of_string_of_list_ascii|]. by rewrite str_len_list.
Qed.

Lemma split_commas_short cur l : NUL ∉ cur -> NUL ∉ l -> zlen cur + zlen l < HTS_MAXBUFLEN + 2 ->
  Forall short (split_commas cur l).
Proof.
  revert cur. induction l as [|c l IH]; intros cur Hc Hl L; cbn [split_commas]; [constructor|].
  apply not_elem_of_cons in Hl as [Hn Hl]. rewrite zlen_cons in L.
  pose proof (zlen_nonneg cur). pose proof (zlen_nonneg l). destruct (Ascii.eqb c comma).
  - constructor; [apply short_list|apply IH; [apply not_elem_of_nil|done|change (zlen (@nil ascii)) with 0; lia]].
    + intros Hi. apply Hc. by apply list_elem_of_In, in_rev, list_elem_of_In in Hi.
    + unfold zlen. rewrite length_rev. unfold zlen in *. lia.
  - apply IH; [by apply not_elem_of_cons|done|]. rewrite zlen_cons. lia.
Qed.

Lemma parse_pattern_ends s : (NUL ∉ list_ascii_of_string s) -> str_len s < HTS_MAXBUFLEN ->
  ends (HTS_Tree_parse_pattern s) (fun ps => question_ok (mkQuestion "" ps)).
Proof.
  intros Hs Ls. unfold HTS_Tree_parse_pattern. set (l := list_ascii_of_string s) in *.
  assert (L : zlen l < HTS_MAXBUFLEN).
  { unfold l. by rewrite <-str_len_list, string_of_list_ascii_of_string. }
  destruct (strchr l brace_open) as [i|]; [|constructor]. cbn zeta.
  set (l2 := match drop (S i) l with c :: l' => _ | [] => _ end).
  assert (H2 : (NUL ∉ l2) /\ zlen l2 <= zlen l).
  { assert (D : (NUL ∉ drop (S i) l) /\ zlen (drop (S i) l) <= zlen l).
    { split; [intros Hd; apply Hs; rewrite <-(take_drop (S i) l); by apply elem_of_app; right|pose proof (zlen_nonneg l); rewrite zlen_drop; lia]. }
    unfold l2. destruct (drop (S i) l) as [|c l']; [done|]. destruct (Ascii.eqb c paren_open); [|done].
    rewrite not_elem_of_cons, zlen_cons in D. destruct D as [[_ D] LD]. split; [done|lia]. }
  destruct H2 as [N2 L2]. destruct (strrchr l2 brace_close) as [j|]; [|done].
  set (j' := match j with O => _ | S k => _ end). cbn [ends].
  apply split_commas_short; [apply not_elem_of_nil| |
    change (zlen (@nil ascii)) with 0; rewrite zlen_insert; lia].
  intros Hi. apply list_elem_of_lookup in Hi as [k E]. destruct (decide (k = j')) as [->|Hne].
  - apply list_lookup_insert_Some in E as [(_ & E & _)|(? & _)]; [by discriminate E|done].
  - rewrite list_lookup_insert_ne in E by done. apply N2. by eapply list_elem_of_lookup_2.
Qed.

(** what loading keeps: sound trees, as many as are counted, and questions that
    can be matched *)
Definition loaded (m : Model F) : Prop :=
  Forall sound_tree (tree m) /\ Forall question_ok (questions m) /\ ntree m = zlen (tree m).

Lemma question_line_ends fp buff m : loaded m ->
  ends (question_line fp buff m) (fun r => (tokens r.2 <= tokens fp)%nat /\
    forall m', r.1 = Some m' -> loaded m').
Proof.
  intros (Ht & Hq & Hn). unfold question_line. destruct (String.eqb _ _); [|by split; [|intros m' [= <-]]].
  eapply ends_bind; [apply question_load_ends|]. intros [[q|] fp1] [L Q]; (split; [done|]); [|done].
  intros m' [= <-]. split; [done|]. split; [|done]. apply Forall_app. split; [done|].
  apply Forall_singleton. by apply Q.
Qed.

Lemma tree_line_ends fp buff m : loaded m -> token_ok buff ->
  ends (tree_line fp buff m) (fun r => (tokens r.2 <= tokens fp)%nat /\ token_ok r.1.2 /\
    forall m', r.1.1 = Some m' -> loaded m').
Proof.
  intros (Ht & Hq & Hn) Hb. unfold tree_line.
  eapply ends_bind; [by apply state_num_ends|]. intros [st buff1] B. cbn [snd] in B.
  destruct (negb (st =? 0)); [|by split; [|split; [|intros m' [= <-]]]].
  eapply ends_bind; [apply parse_pattern_ends; apply B|]. intros hd Hhd.
  eapply ends_bind; [by apply tree_load_ends|]. intros [[t|] fp1] [L T]; [|done].
  destruct (T t eq_refl) as (Tt & Eh & _).
  eapply (ends_bind _ _ (fun n => n = ntree m + 1)); [unfold i32; by destruct (in_i32 _)|].
  intros num ->. split; [done|]. split; [done|]. intros m' [= <-].
  split; [|split; [done|cbn; rewrite zlen_app, Hn; done]].
  apply Forall_app. split; [done|]. apply Forall_singleton. split; [done|]. by rewrite Eh.
Qed.

Lemma load_trees_ends fuel fp buff m :
  (tokens fp < fuel)%nat -> token_ok buff -> loaded m ->
  ends (load_trees fuel fp buff m) (fun r => forall m', r = Some m' -> loaded m').
Proof.
  revert fp buff m. induction fuel as [|fuel IH]; intros fp buff m Hf Hb Hm; [lia|].
  cbn [load_trees]. destruct (HTS_feof fp) eqn:Ee; [by intros m' [= <-]|].
  eapply ends_bind; [apply get_pattern_token_ends|]. intros [tok fp1] (_ & L1 & T1).
  specialize (L1 Ee). cbn [fst snd] in *.
  assert (B : token_ok (match tok with Some t => t | None => buff end)).
  { destruct tok as [t|]; [|done]. by apply T1. }
  eapply ends_bind; [by apply question_line_ends|]. intros [[m1|] fp2] [L2 Q2]; [|done].
  eapply ends_bind; [apply tree_line_ends; [by apply Q2|done]|].
  intros [[[m2|] buff2] fp3] (L3 & B3 & Q3); [|done]. cbn [fst snd] in *.
  apply IH; [lia|done|by apply Q3].
Qed.

Lemma load_tree_ends fp buff : token_ok buff ->
  ends (HTS_Model_load_tree fp buff HTS_Model_initialize) (fun r => r.2 = true ->
    tree r.1 <> [] /\ loaded r.1).
Proof.
  intros Hb. unfold HTS_Model_load_tree.
  eapply ends_bind; [apply load_trees_ends; [lia|done|by repeat split; constructor]|].
  intros [m|] Hm; [|done]. pose proof (Hm m eq_refl) as Ht.
  destruct (tree m) eqn:E; [done|]. intros _. cbn [fst]. by rewrite E.
Qed.

(** whether it succeeds or not, the trees are sound: a failure clears them *)
Lemma load_tree_sound fp buff : token_ok buff ->
  ends (HTS_Model_load_tree fp buff HTS_Model_initialize) (fun r => Forall sound_tree (tree r.1)).
Proof.
  intros Hb. unfold HTS_Model_load_tree.
  eapply ends_bind; [apply load_trees_ends; [lia|done|by repeat split; constructor]|].
  intros [m|] Hm; [|cbn; by apply Forall_nil]. destruct (Hm m eq_refl) as [T _].
  destruct (tree m) eqn:E; [done|]. cbn [ends fst]. by rewrite E.
Qed.

(** what a sound tree answers *)
Definition answers (t : Tree) : Prop := exists d,
  tree_of (S (length (nodes t))) (nodes t) (root t) = Ok d /\
  forall s, text s -> yields (tree_takes s t) (fun b => b = true <-> takes s t) /\
                      yields (HTS_Tree_search_node t s) (decides s d).

Lemma sound_answers t : sound_tree t -> answers t.
Proof.
  intros Ht. pose proof Ht as [Hn _].
  assert (T : text "") by by split; [apply not_elem_of_nil|].
  destruct (search_node_yields t "" Hn (proj1 T) (proj2 T)) as (d & E & _). exists d. split; [done|].
  intros s Hs. split; [by apply tree_takes_yields|]. destruct Hs as [Hs Ls].
  destruct (search_node_yields t s Hn Hs Ls) as (d' & E' & Y). rewrite E in E'.
  apply Ok_inj in E' as <-. exact Y.
Qed.

(** C13: whatever a tree file holds, reading it ends, and the trees of a model
    that is loaded are decision trees: matching a label against their patterns
    and searching them always answers, as the patterns and the questions of the
    file say. *)
Theorem loaded_trees_answer fp buff : token_ok buff ->
  ends (HTS_Model_load_tree fp buff HTS_Model_initialize) (fun r => r.2 = true ->
    tree r.1 <> [] /\ Forall answers (tree r.1)).
Proof.
  intros Hb. eapply ends_mono; [by apply load_tree_ends|]. intros r Hr E.
  destruct (Hr E) as (Hn & Ht & _). split; [done|]. eapply Forall_impl; [exact Ht|]. apply sound_answers.
Qed.

End HtsModel.

(** ** A tree file *)

(** the file gv-switch.inf of the voices, with its double quotes *)
Definition ex_switch : file :=
  mkFile (map (fun c => if Ascii.eqb c (chr 96) then dquote_char else c) (list_ascii_of_string
"QS gv-switch { `*-pau+*`,`*-h#+*`,`*-brth+*` }
{*}[2]
{
   0 gv-switch `gv-switch_2` `gv-switch_1`
}
")) false.

#[local] Existing Instance no_libm.

Example ex_switch_loads :
  ('(m, ok) ← HTS_Model_load_tree ex_switch "" (HTS_Model_initialize (F := double));
   Ok (ok, map (fun t => (head t, state t)) (tree m))) = Ok (true, [(["*"], 2)]).
Proof. vm_compute. reflexivity. Qed.

Lemma loaded_trees_answer_witness : exists m,
  HTS_Model_load_tree ex_switch "" (HTS_Model_initialize (F := double)) = Ok (m, true) /\
  tree m <> [] /\ Forall answers (tree m).
Proof.
  assert (Hb : token_ok "") by (split; [apply not_elem_of_nil|done]).
  eexists. split; [vm_compute; reflexivity|].
  refine (ends_inv _ _ (_, true) (loaded_trees_answer ex_switch "" Hb) _ (eq_refl true)).
  vm_compute. reflexivity.
Defined.

End HtsModel.
