(* ===== verification/HtsVoice.v ===== *)
(** * A complete model set is a voice

    The operations MAGE calls on a loaded model set ([HtsModel]) as the interface
    [Voice]: the models for which they all return, what they return, and the
    laws of the interface. *)

From Stdlib Require Import Ascii String.
From S2P Require Import Prelude Num Constants CString HtsPattern HtsTree HtsModel Voice.
#[local] Open Scope Z_scope.

Module HtsVoice.
Import HtsPattern HtsTree HtsModel.

Section HtsVoice.
Context {F : Type} `{NumOps F}.

(** what a function gives, or [d] where the program would stop *)
Definition given {A} (d : A) (m : Res A) : A := match m with Ok a => a | _ => d end.

(** the vector length, windows and flags of a stream; the getters read them as
    they are *)
Definition stream_get {A} (d : A) (ms : ModelSet F) (f : Stream F -> A) (k : Z) : A :=
  given d (st ← rd (stream ms) k; Ok (f st)).

Definition voice_of (ms : ModelSet F) : Voice F := mkVoice
  (fun s iw => given (zero_pdf (nstate ms)) (HTS_ModelSet_get_duration ms s iw))
  (fun s k j iw => given (zero_pdf (stream_get 0 ms svector_length k), nZ 0)
                     (HTS_ModelSet_get_parameter ms s k j iw))
  (fun s k iw => given ([], []) (HTS_ModelSet_get_gv ms s k iw))
  (stream_get false ms msd_flag)
  (fun k => given false (HTS_ModelSet_use_gv ms k))
  (stream_get 0 ms svector_length)
  (interpolation_size (duration ms))
  (stream_get 0 ms interpolation_size)
  (fun k => given 0 (st ← gv_stream ms k; Ok (interpolation_size st)))
  (stream_get 0 ms (fun st => size (window st)))
  (fun k i => given 0 (HTS_ModelSet_get_window_left_width ms k i))
  (fun k i => given 0 (HTS_ModelSet_get_window_right_width ms k i))
  (fun k i c => given (nZ 0) (HTS_ModelSet_get_window_coefficient ms k i c))
  (stream_get 0 ms (fun st => max_width (window st)))
  (HTS_ModelSet_have_gv_switch ms)
  (HTS_ModelSet_get_gv_switch ms).

(** ** Complete model sets *)

(** the windows of a stream: of odd lengths, no wider than MAGE's matrices *)
Record complete_window (len : Z) (w : Window F) : Prop := {
  w_size : 0 < size w <= len;
  w_rows : zlen (l_width w) = size w /\ zlen (r_width w) = size w /\ zlen (coefficient w) = size w;
  w_widths : forall i l r row, l_width w !! i = Some l -> r_width w !! i = Some r ->
    coefficient w !! i = Some row -> l = - r /\ 0 <= r /\ zlen row = 2 * r + 1;
  w_reach : forall i l r, l_width w !! i = Some l -> r_width w !! i = Some r -> r <= max_width w;
  w_max : 0 <= max_width w /\ max_width w * 2 + 1 <= maxWindowWidth
}.

(** a stream of parameters: a model for every state of the label *)
Record complete_parameters (st : Stream F) : Prop := {
  p_length : 0 < svector_length st <= maxStreamLen;
  p_models : forall j, 2 <= j < nOfStates + 2 -> complete_stream (of_state j) (svector_length st)
    (2 * svector_length st + if msd_flag st then 1 else 0) st;
  p_window : complete_window (svector_length st) (window st)
}.

(** the trees of the switch of the global variance, when there are any: one of
    them takes every label *)
Definition complete_switch (ts : list Tree) : Prop :=
  Forall sound_tree ts /\ (ts <> [] -> forall s, text s -> Exists (takes s) ts).

Record complete_set (ms : ModelSet F) : Prop := {
  m_states : nstate ms = nOfStates;
  m_duration : complete_stream all_trees (nstate ms)
    (svector_length (duration ms) + nstate ms) (duration ms);
  m_streams : zlen (stream ms) = nOfStreams;
  m_parameters : Forall complete_parameters (stream ms);
  m_gv : forall l, gv ms = Some l -> zlen l = nOfStreams /\ Forall complete_gv l;
  m_switch : complete_switch (tree (gv_switch ms))
}.

(** ** The lengths of what is given, whatever the label and the weights *)

(** the vectors keep the lengths [n1] and [n2] *)
Definition sized (n1 n2 : Z) (r : list F * list F) : Prop := zlen r.1 = n1 /\ zlen r.2 = n2.

Lemma for_up_keeps {S} (P : S -> Prop) lo hi body (s s' : S) :
  for_up lo hi body s = Ok s' -> P s -> (forall i s s', body i s = Ok s' -> P s -> P s') -> P s'.
Proof.
  intros E Hs Hb. destruct (decide (lo <= hi)) as [Hle|Hgt].
  - apply (for_up_inv (fun _ => P) _ _ _ _ _ E); [done..|]. intros. by eapply Hb.
  - rewrite for_up_nil in E by lia. by apply Ok_inj in E as <-.
Qed.

Lemma add_pdf_sized n1 n2 w d n len r r' :
  add_pdf w d n len r = Ok r' -> sized n1 n2 r -> sized n1 n2 r'.
Proof.
  intros E Hr. apply (for_up_keeps _ _ _ _ _ _ E Hr). clear. intros i [a b] [a' b'] E [L1 L2].
  apply bind_inv_Ok in E as (x & Ex & E). apply bind_inv_Ok in E as (y & Ey & E).
  apply Ok_inj in E. injection E as <- <-.
  apply upd_inv in Ex as (? & ? & _ & _ & _ & ->). apply upd_inv in Ey as (? & ? & _ & _ & _ & ->).
  unfold sized. cbn [fst snd] in *. by rewrite !zlen_insert.
Qed.

Lemma zero_pdf_sized n : 0 <= n -> sized n n (zero_pdf (F := F) n).
Proof. intros. unfold sized, zero_pdf. cbn [fst snd]. rewrite !zlen_replicate. lia. Qed.

Lemma get_duration_sized ms s iw r :
  HTS_ModelSet_get_duration ms s iw = Ok r -> 0 <= nstate ms -> sized (nstate ms) (nstate ms) r.
Proof.
  intros E Hn. apply (for_up_keeps _ _ _ _ _ _ E (zero_pdf_sized _ Hn)). clear E.
  intros i x x' E Hx. apply bind_inv_Ok in E as ([t p] & _ & E). apply bind_inv_Ok in E as (m & _ & E).
  apply bind_inv_Ok in E as (d & _ & E). apply bind_inv_Ok in E as (w & _ & E).
  by eapply add_pdf_sized.
Qed.

Lemma get_parameter_sized ms s k j iw r st :
  rd (stream ms) k = Ok st -> 0 <= svector_length st ->
  HTS_ModelSet_get_parameter ms s k j iw = Ok r ->
  sized (svector_length st) (svector_length st) r.1.
Proof.
  intros Est Hn E. unfold HTS_ModelSet_get_parameter in E. rewrite Est, bind_Ok in E.
  apply (for_up_keeps (fun r => sized (svector_length st) (svector_length st) r.1) _ _ _ _ _ E);
    [by apply zero_pdf_sized|]. clear E.
  intros i [x m0] [x' m1] E Hx. apply bind_inv_Ok in E as ([t p] & _ & E).
  apply bind_inv_Ok in E as (m & _ & E).
  apply bind_inv_Ok in E as (d & _ & E). apply bind_inv_Ok in E as (w & _ & E).
  apply bind_inv_Ok in E as (r' & A & E). apply bind_inv_Ok in E as (msd & _ & E).
  apply Ok_inj, pair_equal_spec in E as [<- _]. by eapply add_pdf_sized.
Qed.

Lemma get_gv_sized ms s k iw r st :
  gv_stream ms k = Ok st -> 0 <= svector_length st ->
  HTS_ModelSet_get_gv ms s k iw = Ok r -> sized (svector_length st) (svector_length st) r.
Proof.
  intros Est Hn E. unfold HTS_ModelSet_get_gv in E. rewrite Est, bind_Ok in E.
  apply (for_up_keeps _ _ _ _ _ _ E (zero_pdf_sized _ Hn)). clear E.
  intros i x x' E Hx. apply bind_inv_Ok in E as ([t p] & _ & E). apply bind_inv_Ok in E as (m & _ & E).
  apply bind_inv_Ok in E as (d & _ & E). apply bind_inv_Ok in E as (w & _ & E).
  by eapply add_pdf_sized.
Qed.

(** ** The laws *)

Lemma stream_at ms k : complete_set ms -> 0 <= k < nOfStreams -> exists st,
  stream ms !! Z.to_nat k = Some st /\ rd (stream ms) k = Ok st /\ complete_parameters st /\
  forall A (d : A) f, stream_get d ms f k = f st.
Proof.
  intros C Hk. destruct (yields_rd (stream ms) k) as (st & E & X); [rewrite (m_streams _ C); done|].
  pose proof (m_parameters _ C) as Hp. rewrite Forall_lookup in Hp. exists st.
  split; [done|]. split; [done|]. split; [by eapply Hp|].
  intros A d f. unfold stream_get. by rewrite E.
Qed.

Lemma window_at st i : complete_parameters st -> 0 <= i < size (window st) -> exists r row,
  rd (l_width (window st)) i = Ok (- r) /\ rd (r_width (window st)) i = Ok r /\
  rd (coefficient (window st)) i = Ok row /\ 0 <= r <= max_width (window st) /\ zlen row = 2 * r + 1.
Proof.
  intros [_ _ [_ (L1 & L2 & L3) W Re _]] Hi.
  destruct (yields_rd (l_width (window st)) i) as (l & -> & Xl); [lia|].
  destruct (yields_rd (r_width (window st)) i) as (r & -> & Xr); [lia|].
  destruct (yields_rd (coefficient (window st)) i) as (row & -> & Xc); [lia|].
  destruct (W _ _ _ _ Xl Xr Xc) as (-> & ? & ?). pose proof (Re _ _ _ Xl Xr). by exists r, row.
Qed.

Lemma voice_of_windows ms k i c : complete_set ms -> 0 <= k < nOfStreams ->
  0 <= i < window_size (voice_of ms) k ->
  Voice.l_width (voice_of ms) k i = - Voice.r_width (voice_of ms) k i /\
  0 <= Voice.r_width (voice_of ms) k i <= Voice.max_width (voice_of ms) k /\
  (Voice.l_width (voice_of ms) k i <= c <= Voice.r_width (voice_of ms) k i ->
   HTS_ModelSet_get_window_coefficient ms k i c = Ok (Voice.coefficient (voice_of ms) k i c)).
Proof.
  intros C Hk Hi. destruct (stream_at ms k C Hk) as (st & X & E & P & G).
  cbn [voice_of Voice.l_width Voice.r_width Voice.coefficient Voice.max_width window_size] in *.
  rewrite G in Hi. destruct (window_at st i P Hi) as (r & row & E1 & E2 & E3 & Hr & L).
  unfold HTS_ModelSet_get_window_left_width, HTS_ModelSet_get_window_right_width,
    HTS_ModelSet_get_window_coefficient.
  rewrite !E, !bind_Ok, E1, E2, E3, !bind_Ok, G. cbn [given]. split; [done|]. split; [done|].
  intros Hc. destruct (yields_rd row (c - - r)) as (x & -> & _); [lia|]. done.
Qed.

Lemma cstr_text q : str_len (cstr q) < maxStrLen -> text (cstr q).
Proof. intros Hq. split; [apply cstr_no_NUL|]. change maxStrLen with 1024 in Hq. lia. Qed.

(** the switch of a label: whether the leaf that its questions lead to, in the
    first tree that takes it, is not the leaf 1 *)
Definition switched (ts : list Tree) (s : string) (b : bool) : Prop :=
  match ts with
  | [] => b = true
  | _ => exists n t d v, selected all_trees s ts n t /\
      tree_of (S (length (nodes t))) (nodes t) (root t) = Ok d /\ decides s d v /\
      b = negb (v =? 1)
  end.

Lemma voice_of_switch ms s : complete_set ms -> text s ->
  yields (Voice.get_gv_switch (voice_of ms) s) (switched (tree (gv_switch ms)) s).
Proof.
  intros C Hs. destruct (m_switch _ C) as [T Cv]. cbn [voice_of Voice.get_gv_switch].
  unfold HTS_ModelSet_get_gv_switch, tree_and_pdf, switched.
  destruct (tree (gv_switch ms)) as [|t0 ts] eqn:Et; [by apply yields_ok|]. rewrite <-Et in *.
  rewrite bind_assoc. eapply yields_bind.
  { apply (select_tree_yields all_trees); [done|done|].
    eapply Exists_impl; [apply Cv; [by rewrite Et|done]|]. done. }
  intros [t i] (n & _ & Sel). cbn [fst] in Sel. pose proof Sel as (Xt & _).
  rewrite Forall_lookup in T. destruct (T _ _ Xt) as [Tt _]. destruct Hs as [Hs Ls].
  destruct (search_node_yields t s Tt Hs Ls) as (d & Ed & Y). rewrite bind_assoc.
  eapply yields_bind; [exact Y|]. intros v Dv. rewrite bind_Ok. apply yields_ok.
  by exists n, t, d, v.
Qed.

Lemma voice_of_laws ms : complete_set ms -> VoiceLaws (voice_of ms).
Proof.
  intros C. assert (N : 0 <= nstate ms) by by rewrite (m_states _ C).
  constructor; cbn [voice_of get_duration get_parameter get_gv Voice.vector_length Voice.max_width window_size].
  - intros q iw. rewrite <-(m_states _ C).
    destruct (HTS_ModelSet_get_duration ms q iw) eqn:E; try by apply zero_pdf_sized.
    by apply get_duration_sized in E.
  - intros k Hk. destruct (stream_at ms k C Hk) as (st & X & E & P & ->). apply P.
  - intros q k j iw Hk. destruct (stream_at ms k C Hk) as (st & X & E & P & ->).
    destruct (p_length _ P) as [Hp _].
    destruct (HTS_ModelSet_get_parameter ms q k j iw) eqn:Eg;
      try by (apply zero_pdf_sized; lia).
    eapply get_parameter_sized in Eg; [exact Eg|done|lia].
  - intros q k iw Hk. destruct (HTS_ModelSet_get_gv ms q k iw) as [r| | |] eqn:E; try done.
    assert (Y : exists st, gv_stream ms k = Ok st).
    { unfold HTS_ModelSet_get_gv in E. apply bind_inv_Ok in E as (st & Est & _). by exists st. }
    destruct Y as [st Est].
    assert (L : 0 <= svector_length st <= maxStreamLen).
    { pose proof (m_gv _ C) as G. unfold gv_stream in Est. destruct (gv ms) as [l|]; [|done].
      apply rd_inv in Est as [_ X]. destruct (G l eq_refl) as [_ Fa].
      rewrite Forall_lookup in Fa. by destruct (Fa _ _ X). }
    destruct (get_gv_sized _ _ _ _ _ _ Est ltac:(lia) E) as [L1 L2]. cbn [given]. lia.
  - intros k Hk. destruct (stream_at ms k C Hk) as (st & X & E & P & G). rewrite !G.
    destruct P as [_ _ [W _ _ _ _]]. lia.
  - intros k Hk. destruct (stream_at ms k C Hk) as (st & X & E & P & ->).
    apply (w_max _ _ (p_window _ P)).
  - intros k i Hk Hi. by destruct (voice_of_windows ms k i 0 C Hk Hi) as (? & ? & _).
  - intros q _ Hq. eapply yields_mono; [by apply voice_of_switch; [|apply cstr_text]|done].
Qed.

(** ** What a complete model set gives *)

Lemma voice_of_duration ms s iw : complete_set ms -> text s ->
  zlen (model (duration ms)) <= zlen iw -> exists ds,
  Forall2 (chosen all_trees s) (model (duration ms)) ds /\
  HTS_ModelSet_get_duration ms s iw = Ok (get_duration (voice_of ms) s iw) /\
  get_duration (voice_of ms) s iw = mixture nOfStates (svector_length (duration ms)) iw ds.
Proof.
  intros C Hs Hw. destruct (duration_mixture ms s iw (m_duration _ C) Hs Hw) as (r & E & ds & Fa & Er & _).
  exists ds. split; [done|]. cbn [voice_of get_duration]. rewrite E. split; [done|].
  by rewrite <-(m_states _ C).
Qed.

Lemma voice_of_parameter ms s k j iw st : complete_set ms -> text s ->
  stream ms !! Z.to_nat k = Some st -> 0 <= k -> 2 <= j < nOfStates + 2 ->
  zlen (model st) <= zlen iw -> exists ds,
  Forall2 (chosen (of_state j) s) (model st) ds /\
  HTS_ModelSet_get_parameter ms s k j iw = Ok (get_parameter (voice_of ms) s k j iw) /\
  get_parameter (voice_of ms) s k j iw =
    (mixture (svector_length st) (svector_length st) iw ds,
     if msd_flag st then msd_mixture (svector_length st) iw ds else nZ 0).
Proof.
  intros C Hs X Hk Hj Hw. pose proof (m_parameters _ C) as P. rewrite Forall_lookup in P.
  pose proof (p_models _ (P _ _ X) j Hj) as Cs.
  destruct (parameter_mixture ms s k j iw st X Hk Cs Hs Hw) as (r & E & ds & Fa & E1 & _ & _ & E2).
  exists ds. split; [done|]. cbn [voice_of get_parameter]. rewrite E. split; [done|].
  cbn [given]. rewrite <-E1, <-E2. apply surjective_pairing.
Qed.

Lemma voice_of_gv ms s k iw st : complete_set ms -> text s ->
  gv_stream ms k = Ok st -> zlen (model st) <= zlen iw -> exists ds,
  Forall2 (gv_chosen (have_trees (model st)) s) (model st) ds /\
  HTS_ModelSet_get_gv ms s k iw = Ok (get_gv (voice_of ms) s k iw) /\
  get_gv (voice_of ms) s k iw = mixture (svector_length st) (svector_length st) iw ds.
Proof.
  intros C Hs E Hw. assert (G : complete_gv st).
  { pose proof (m_gv _ C) as G. unfold gv_stream in E. destruct (gv ms) as [l|]; [|done].
    apply rd_inv in E as [_ X]. destruct (G l eq_refl) as [_ Fa].
    rewrite Forall_lookup in Fa. by eapply Fa. }
  destruct (gv_mixture ms s k iw st E G Hs Hw) as (r & Er & ds & Fa & Em & _).
  exists ds. split; [done|]. cbn [voice_of get_gv]. by rewrite Er.
Qed.

(** C11: a complete model set is a voice as MAGE needs it: the functions MAGE
    calls return the means and variances of the distributions that the decision
    trees choose for the label, mixed with the weights of the voices, the switch
    of the global variance answers as its trees say, and the lengths and windows
    keep the laws of the interface. *)
Theorem model_set_is_voice ms : complete_set ms ->
  VoiceLaws (voice_of ms) /\
  (forall s iw, text s -> zlen (model (duration ms)) <= zlen iw -> exists ds,
    Forall2 (chosen all_trees s) (model (duration ms)) ds /\
    HTS_ModelSet_get_duration ms s iw = Ok (get_duration (voice_of ms) s iw) /\
    get_duration (voice_of ms) s iw = mixture nOfStates (svector_length (duration ms)) iw ds) /\
  (forall s k j iw st, text s -> stream ms !! Z.to_nat k = Some st -> 0 <= k ->
    2 <= j < nOfStates + 2 -> zlen (model st) <= zlen iw -> exists ds,
    Forall2 (chosen (of_state j) s) (model st) ds /\
    HTS_ModelSet_get_parameter ms s k j iw = Ok (get_parameter (voice_of ms) s k j iw) /\
    get_parameter (voice_of ms) s k j iw =
      (mixture (svector_length st) (svector_length st) iw ds,
       if msd_flag st then msd_mixture (svector_length st) iw ds else nZ 0)) /\
  (forall s k iw st, text s -> gv_stream ms k = Ok st -> zlen (model st) <= zlen iw -> exists ds,
    Forall2 (gv_chosen (have_trees (model st)) s) (model st) ds /\
    HTS_ModelSet_get_gv ms s k iw = Ok (get_gv (voice_of ms) s k iw) /\
    get_gv (voice_of ms) s k iw = mixture (svector_length st) (svector_length st) iw ds) /\
  (forall k i c, 0 <= k < nOfStreams -> 0 <= i < window_size (voice_of ms) k ->
    Voice.l_width (voice_of ms) k i <= c <= Voice.r_width (voice_of ms) k i ->
    HTS_ModelSet_get_window_coefficient ms k i c = Ok (Voice.coefficient (voice_of ms) k i c)) /\
  (forall s, text s ->
    yields (HTS_ModelSet_get_gv_switch ms s) (switched (tree (gv_switch ms)) s)).
Proof.
  intros C. split; [by apply voice_of_laws|]. split; [intros; by apply voice_of_duration|].
  split; [intros; by apply voice_of_parameter|]. split; [intros; by apply voice_of_gv|].
  split; [|intros; by apply voice_of_switch].
  intros k i c Hk Hi. by destruct (voice_of_windows ms k i c C Hk Hi) as (_ & _ & ?).
Qed.

End HtsVoice.
(** ** A model set *)

#[local] Existing Instance no_libm.

(** a tree with one leaf for a state, and a model with the distribution [row]
    for every state *)
Definition ex_tree (j : Z) : Tree := mkTree [] (Some 0) j [Some (mkNode 0 1 None None None None)].
Definition ex_model (len : Z) (row : list double) : Model double :=
  mkModel len 5 (replicate 5 1) (replicate 5 [row]) (map ex_tree [2; 3; 4; 5; 6]) [].

Definition ex_window : Window double := mkWindow 1 [0] [0] [[nZ 1]] 0.
Definition ex_stream (msd : bool) (len : Z) (row : list double) : Stream double :=
  mkStream len [ex_model len row] ex_window msd 1.

Definition ex_set : ModelSet double := mkModelSet
  (ex_stream false 5 (map nZ [3; 4; 5; 4; 3; 1; 1; 1; 1; 1]))
  [ex_stream false 2 (map nZ [7; 8; 1; 2]);
   ex_stream true 1 (map nZ [5; 1; 1]);
   ex_stream false 1 (map nZ [9; 1])]
  (Some [ex_stream false 1 (map nZ [2; 1]); HTS_Stream_initialize; HTS_Stream_initialize])
  HTS_Model_initialize 5 3.

Lemma ex_model_complete fit len need row :
  Exists (fun j => fit (ex_tree j) = true) [2; 3; 4; 5; 6] -> need <= zlen row ->
  complete fit need (ex_model len row).
Proof.
  intros Hf L. constructor; cbn [tree pdf ex_model].
  - apply Forall_map, Forall_forall. intros j _. split; [|constructor].
    split; [done|]. by apply one_node_ok.
  - intros s Hs. apply Exists_exists in Hf as (j & Hj & Hf). apply Exists_exists.
    exists (ex_tree j). split; [by apply list_elem_of_fmap_2|]. split; [done|]. by left.
  - intros n t X _. apply list_lookup_fmap_Some in X as (j & -> & X). exists [row].
    split; [apply lookup_replicate; split; [done|]; by apply lookup_lt_Some in X|].
    intros d v E Hv. vm_compute in E. apply Ok_inj in E as <-. cbn in Hv.
    apply list_elem_of_singleton in Hv as ->. split; [done|]. by exists row.
Qed.

Lemma ex_stream_complete fit n msd len need row :
  Exists (fun j => fit (ex_tree j) = true) [2; 3; 4; 5; 6] -> need <= zlen row ->
  0 <= n <= len -> len + n <= need -> complete_stream fit n need (ex_stream msd len row).
Proof.
  intros Hf L Hn Hl. constructor; [done|done|done|].
  apply Forall_singleton. by apply ex_model_complete.
Qed.

Lemma ex_parameters msd len row : 0 < len <= maxStreamLen ->
  2 * len + (if msd : bool then 1 else 0) <= zlen row ->
  complete_parameters (ex_stream msd len row).
Proof.
  intros Hl L. constructor; [done| |].
  - intros j Hj. apply ex_stream_complete; cbn [svector_length HtsModel.msd_flag ex_stream];
      [|done|lia|destruct msd; lia].
    apply Exists_exists. exists j. unfold nOfStates in Hj. split; [|by apply Z.eqb_refl].
    rewrite !elem_of_cons. lia.
  - constructor; cbn; [lia|done| | |done]; intros [|i] l r; [|done| |done].
    + by intros w [= <-] [= <-] [= <-].
    + by intros [= <-] [= <-].
Qed.

Lemma ex_set_complete : complete_set ex_set.
Proof.
  constructor; [done| |done| | |by split].
  - apply ex_stream_complete; [by left|done..].
  - repeat apply Forall_cons_2; [by apply ex_parameters..|constructor].
  - intros l [= <-]. split; [done|]. apply Forall_cons_2; [|repeat constructor; done].
    constructor; [done|done|]. apply Forall_singleton. apply ex_model_complete; [by left|done].
Qed.

Lemma model_set_is_voice_witness :
  VoiceLaws (voice_of ex_set) /\
  HTS_ModelSet_get_duration ex_set "a" [nZ 1] = Ok (get_duration (voice_of ex_set) "a" [nZ 1]) /\
  (get_duration (voice_of ex_set) "a" [nZ 1]).1 = map nZ [3; 4; 5; 4; 3].
Proof.
  destruct (model_set_is_voice ex_set ex_set_complete) as (Laws & Dur & _).
  assert (Hs : text "a").
  { split; [|done]. exact (bool_decide_eq_true_1 (NUL ∉ list_ascii_of_string "a") eq_refl). }
  destruct (Dur "a"%string [nZ 1] Hs) as (ds & _ & E & _); [done|].
  split; [exact Laws|]. split; [exact E|]. vm_compute. reflexivity.
Defined.

End HtsVoice.
