(* ===== verification/HtsPdf.v ===== *)
(** * Distribution files (HTS_Model_load_pdf of HTS_model.c and
    HTS_fread_big_endian of HTS_misc.c, mage/libs/hts_engine-1.06)

    A file of distributions has a header and, for every tree, rows of means and
    variances as big-endian IEEE binary32 words.  The file models the reading and
    shows that what a writer of the format wrote is read back, and the lengths of
    the rows of a model that is read. *)

From Stdlib Require Import Ascii String.
From S2P Require Import Prelude Num Constants CString HtsPattern HtsTree HtsModel.
#[local] Open Scope Z_scope.

Module HtsPdf.
Import HtsPattern HtsTree HtsModel.

(** ** Words of four bytes *)

Definition byte (a : ascii) : Z := Z.of_nat (nat_of_ascii a).

Definition word (a b c d : ascii) : Z :=
  byte a * 2 ^ 24 + byte b * 2 ^ 16 + byte c * 2 ^ 8 + byte d.

(** what [HTS_fread_big_endian] does to an object of four bytes: it is read, it
    is read in part (then its value is indeterminate), or the file had ended and
    it is kept *)
Inductive item := Whole (w : Z) | Part | Nothing.

Definition HTS_fread_big_endian (fp : file) : item * file :=
  match rest fp with
  | a :: b :: c :: d :: l => (Whole (word a b c d), mkFile l (eof fp))
  | [] => (Nothing, mkFile [] true)
  | _ => (Part, mkFile [] true)
  end.

(** an object after a read; None when its value is indeterminate *)
Definition filled {A} (of_word : Z -> A) (x : option A) (i : item) : option A :=
  match i with Whole w => Some (of_word w) | Part => None | Nothing => x end.
Definition assigned {A} (x : option A) : Res A :=
  match x with Some a => Ok a | None => Undef Uninitialised end.
Definition is_whole (i : item) : bool := match i with Whole _ => true | _ => false end.

Definition read_int (fp : file) (x : option Z) : Res (Z * file) :=
  let '(i, fp) := HTS_fread_big_endian fp in x ← assigned (filled to_i32 x i); Ok (x, fp).

(** [ntree] integers into an array of zeros: the items, and how many are whole *)
Fixpoint read_counts (n : nat) (fp : file) : list (option Z) * Z * file :=
  match n with
  | O => ([], 0, fp)
  | S n =>
      let '(i, fp) := HTS_fread_big_endian fp in
      let '(l, k, fp) := read_counts n fp in
      (filled to_i32 (Some 0) i :: l, if is_whole i then k + 1 else k, fp)
  end.

(** every number must be positive, or the program ends *)
Fixpoint check_counts (l : list (option Z)) : Res (list Z) :=
  match l with
  | [] => Ok []
  | x :: l => x ← assigned x; if x <=? 0 then Exit 1 else l ← check_counts l; Ok (x :: l)
  end.

Section HtsPdf.
Context {F : Type} `{NumOps F}.

(** the [float] of a word, as a [double]: all of them are exact there *)
Definition power2 (m k : Z) : F :=
  if 0 <=? k then (nZ m * nZ (2 ^ k))%num else (nZ m / nZ (2 ^ (- k)))%num.
Definition float_of_word (w : Z) : F :=
  let e := Z.land (Z.shiftr w 23) 255 in
  let m := Z.land w (2 ^ 23 - 1) in
  let x := if e =? 255 then if m =? 0 then (nZ 1 / nZ 0)%num else (nZ 0 / nZ 0)%num
           else if e =? 0 then power2 m (- 149) else power2 (m + 2 ^ 23) (e - 150) in
  if Z.testbit w 31 then (- x)%num else x.

(** [temp], [result] and the file *)
Definition reader : Type := option F * bool * file.

Definition read_temp (st : reader) : reader :=
  let '(temp, result, fp) := st in
  let '(i, fp) := HTS_fread_big_endian fp in
  (filled float_of_word temp i, result && is_whole i, fp).

Definition store_temp (row : list F) (i : Z) (st : reader) : Res (list F) :=
  x ← assigned st.1.1; wr row i x.

(** [n] means and variances from the index [o] *)
Definition load_pairs (o n vector_length : Z) (row : list F) (st : reader)
    : Res (list F * reader) :=
  for_up 0 n (fun m '(row, st) =>
    let st := read_temp st in
    row ← store_temp row (o + m) st;
    let st := read_temp st in
    row ← store_temp row (o + m + vector_length) st;
    Ok (row, st)) (row, st).

(** a row of a stream without MSD *)
Definition load_row (vector_length : Z) (st : reader) : Res (list F * reader) :=
  n ← i32 (2 * vector_length);
  load_pairs 0 vector_length vector_length (replicate (Z.to_nat n) (nZ 0)) st.

(** the weights after the pairs of a stream; that of the first is kept *)
Definition load_weight (l vector_length : Z) (row : list F) (st : reader)
    : Res (list F * reader) :=
  let st := read_temp st in
  row ← (if l =? 0 then
           t ← assigned st.1.1;
           if ((t <? nZ 0) || (nZ 1 <? t))%num then Exit 1
           else store_temp row (2 * vector_length) st
         else Ok row);
  Ok (row, read_temp st).

(** a row with MSD, of [ssize] streams *)
Definition load_row_msd (ssize vector_length : Z) (st : reader) : Res (list F * reader) :=
  n ← i32 (2 * vector_length + 1);
  for_up 0 ssize (fun l '(row, st) =>
    p ← i32 (l * vector_length);
    '(row, st) ← load_pairs (Z.quot p ssize) (Z.quot vector_length ssize) vector_length row st;
    load_weight l vector_length row st) (replicate (Z.to_nat n) (nZ 0), st).

(** [n] times [read], with the results in a list *)
Definition load_list {X} (n : Z) (read : Z -> reader -> Res (X * reader)) (st : reader)
    : Res (list X * reader) :=
  for_up 0 n (fun i '(l, st) => '(x, st) ← read i st; Ok (l ++ [x], st)) ([], st).

(** the rows of the trees *)
Definition load_rows (row : reader -> Res (list F * reader)) (npdf : list Z) (st : reader)
    : Res (list (list (list F)) * reader) :=
  load_list (zlen npdf) (fun j st => n ← rd npdf j; load_list n (fun _ => row) st) st.

(** an error message ends the program; FALSE clears the model *)
Definition HTS_Model_load_pdf (m : Model F) (fp : file) (nt : Z) (msd : bool)
    : Res (Model F * bool) :=
  if nt <=? 0 then Exit 1
  else
    let m := m <| ntree := nt |> in
    '(i, fp) ← read_int fp None;
    if (negb (i =? 0) || msd) && (negb (i =? 1) || negb msd) then Exit 1
    else
      '(ssize, fp) ← read_int fp None;
      if ssize <? 1 then Exit 1
      else
        '(vl, fp) ← read_int fp (Some (vector_length m));
        if vl <=? 0 then Exit 1
        else
          let '(counts, n, fp) := read_counts (Z.to_nat nt) fp in
          npdf' ← check_counts counts;
          if negb (n =? nt) then Ok (HTS_Model_initialize, false)
          else
            '(pdf', (_, result, _)) ← load_rows (if msd then load_row_msd ssize vl
                                                 else load_row vl) npdf' (None, true, fp);
            Ok (if result : bool
                then (m <| vector_length := vl |> <| npdf := npdf' |> <| pdf := pdf' |>, true)
                else (HTS_Model_initialize, false)).

End HtsPdf.
(** ** Writing the format *)

Definition byte_of (z : Z) : ascii := chr (Z.to_nat (z mod 2 ^ 8)).
Definition be32 (w : Z) : list ascii :=
  [byte_of (w / 2 ^ 24); byte_of (w / 2 ^ 16); byte_of (w / 2 ^ 8); byte_of w].
Definition word_ok (w : Z) : Prop := 0 <= w < 2 ^ 32.

Lemma byte_byte_of z : byte (byte_of z) = z mod 2 ^ 8.
Proof.
  unfold byte, byte_of, chr. pose proof (Z.mod_pos_bound z (2 ^ 8) ltac:(lia)).
  rewrite nat_ascii_embedding by lia. lia.
Qed.

Lemma word_be32 w : word_ok w ->
  word (byte_of (w / 2 ^ 24)) (byte_of (w / 2 ^ 16)) (byte_of (w / 2 ^ 8)) (byte_of w) = w.
Proof. unfold word_ok, word. intros Hw. rewrite !byte_byte_of. Z.div_mod_to_equations. lia. Qed.

Lemma fread_be32 w l e : word_ok w ->
  HTS_fread_big_endian (mkFile (be32 w ++ l) e) = (Whole w, mkFile l e).
Proof. intros Hw. cbn. by rewrite word_be32. Qed.

Lemma read_int_be32 w l e x : 0 <= w < 2 ^ 31 ->
  read_int (mkFile (be32 w ++ l) e) x = Ok (w, mkFile l e).
Proof.
  intros Hw. unfold read_int. rewrite fread_be32 by (unfold word_ok; lia). cbn.
  by rewrite to_i32_id by lia.
Qed.
Section Rows.
Context {F : Type} `{NumOps F}.
#[local] Abbreviation fw := float_of_word.

(** a mean and a variance, and the bytes of a list of them *)
Definition encode_pair (p : Z * Z) : list ascii := be32 p.1 ++ be32 p.2.
Definition pair_ok (p : Z * Z) : Prop := word_ok p.1 /\ word_ok p.2.

(** the row after pairs were stored from [o] *)
Fixpoint place (o vl : nat) (ps : list (Z * Z)) (row : list F) : list F :=
  match ps with
  | [] => row
  | p :: ps => place (S o) vl ps (<[(o + vl)%nat := fw p.2]> (<[o := fw p.1]> row))
  end.

Lemma place_app o vl ps qs row :
  place o vl (ps ++ qs) row = place (o + length ps) vl qs (place o vl ps row).
Proof.
  revert o row. induction ps as [|p ps IH]; intros o row; cbn [place app length].
  - by rewrite Nat.add_0_r.
  - rewrite IH. by rewrite Nat.add_succ_r.
Qed.

Lemma place_length o vl ps row : length (place o vl ps row) = length row.
Proof.
  revert o row. induction ps as [|p ps IH]; intros o row; [done|]. cbn [place].
  by rewrite IH, !length_insert.
Qed.

Lemma place_insert o vl ps row i x : (o + vl + length ps <= i)%nat ->
  place o vl ps (<[i := x]> row) = <[i := x]> (place o vl ps row).
Proof.
  revert o row. induction ps as [|p ps IH]; intros o row Hi; [done|]. cbn [place length] in *.
  rewrite <-IH by lia. f_equal.
  rewrite (list_insert_insert_ne _ o i) by lia. by rewrite (list_insert_insert_ne _ (o + vl) i) by lia.
Qed.

Lemma insert_at {A} (l k : list A) x y : <[length l := x]> (l ++ y :: k) = l ++ x :: k.
Proof. induction l; cbn; [done|]. by f_equal. Qed.

(** all the pairs: first the means, then the variances *)
Lemma place_all A B Z1 Z2 ps : length Z1 = length ps -> length B = length A ->
  (length ps <= length Z2)%nat ->
  place (length A) (length A + length ps) ps (A ++ Z1 ++ B ++ Z2) =
    A ++ map (fw ∘ fst) ps ++ B ++ map (fw ∘ snd) ps ++ drop (length ps) Z2.
Proof.
  revert A B Z1 Z2. induction ps as [|p ps IH]; intros A B Z1 Z2 L1 LB L2.
  { by destruct Z1. }
  destruct Z1 as [|z Z1]; [done|]. destruct Z2 as [|y Z2]; [cbn in L2; lia|]. cbn in L1, L2.
  cbn [place map].
  assert (E : <[(length A + (length A + length (p :: ps)))%nat := fw p.2]>
    (<[length A := fw p.1]> (A ++ (z :: Z1) ++ B ++ y :: Z2)) =
    (A ++ [fw p.1]) ++ Z1 ++ (B ++ [fw p.2]) ++ Z2).
  { cbn [app]. rewrite insert_at.
    replace (A ++ fw p.1 :: Z1 ++ B ++ y :: Z2) with ((A ++ fw p.1 :: Z1 ++ B) ++ y :: Z2)
      by (by rewrite <-!app_assoc; cbn; rewrite <-!app_assoc).
    replace (length A + (length A + length (p :: ps)))%nat with (length (A ++ fw p.1 :: Z1 ++ B))
      by (rewrite !length_app; cbn [length]; rewrite length_app; lia).
    rewrite insert_at. rewrite <-!app_assoc. cbn. by rewrite <-!app_assoc. }
  rewrite E. pose proof (IH (A ++ [fw p.1]) (B ++ [fw p.2]) Z1 Z2) as IH'.
  rewrite !length_app in IH'. cbn [length] in *.
  replace (length A + 1 + length ps)%nat with (length A + S (length ps))%nat in IH' by lia.
  replace (S (length A)) with (length A + 1)%nat by lia. rewrite IH' by lia.
  by rewrite <-!app_assoc.
Qed.

Lemma read_temp_be32 t r w l e : word_ok w ->
  read_temp (t, r, mkFile (be32 w ++ l) e) = (Some (fw w : F), r, mkFile l e).
Proof. intros Hw. unfold read_temp. rewrite fread_be32 by done. cbn. by rewrite andb_true_r. Qed.

(** a reader that is at [l], with no failure so far *)
Definition at_rest (l : list ascii) (st : reader (F := F)) : Prop := exists t, st = (t, true, mkFile l false).

Lemma load_pairs_yields (o vl : nat) ps (row : list F) l st : Forall pair_ok ps ->
  (o + vl + length ps <= length row)%nat -> at_rest (concat (map encode_pair ps) ++ l) st ->
  yields (load_pairs (Z.of_nat o) (zlen ps) (Z.of_nat vl) row st)
    (fun r => r.1 = place o vl ps row /\ at_rest l r.2).
Proof.
  intros Hps Hl Hst. unfold load_pairs. eapply yields_mono.
  { apply (for_up_yields (fun m r => r.1 = place o vl (take (Z.to_nat m) ps) row /\
      at_rest (concat (map encode_pair (drop (Z.to_nat m) ps)) ++ l) r.2)); [apply zlen_nonneg|done|].
    intros m [row' st'] Hm [E (t & Et)]. cbn [fst snd] in E, Et. subst row' st'.
    destruct (lookup_lt_is_Some_2 ps (Z.to_nat m)) as [p Xp]; [unfold zlen in Hm; lia|].
    rewrite (drop_S _ _ _ Xp). cbn [map concat]. rewrite Forall_lookup in Hps.
    destruct (Hps _ _ Xp) as [P1 P2]. rewrite <-app_assoc.
    change (encode_pair p) with (be32 p.1 ++ be32 p.2). rewrite <-app_assoc.
    cbn zeta. rewrite !read_temp_be32 by done. unfold store_temp. cbn [fst assigned]. rewrite bind_Ok.
    assert (Lm : length (place o vl (take (Z.to_nat m) ps) row) = length row) by apply place_length.
    rewrite wr_ok by (unfold zlen in *; lia). rewrite bind_Ok.
    cbn [fst assigned]. rewrite bind_Ok, wr_ok by (rewrite zlen_insert; unfold zlen in *; lia).
    rewrite bind_Ok. apply yields_ok. cbn [fst snd].
    replace (Z.to_nat (m + 1)) with (S (Z.to_nat m)) by lia. split; [|by eexists].
    rewrite (take_S_r _ _ _ Xp), place_app, length_take. cbn [place].
    replace (o + Z.to_nat m `min` length ps)%nat with (o + Z.to_nat m)%nat
      by (unfold zlen in Hm; lia).
    f_equal; [lia|f_equal; lia]. }
  intros r [E S]. rewrite drop_ge in S by (unfold zlen; lia). rewrite take_ge in E by (unfold zlen; lia).
  done.
Qed.

(** the rows of a stream without MSD *)
Definition row_ok (vl : Z) (ps : list (Z * Z)) : Prop := zlen ps = vl /\ Forall pair_ok ps.
Definition encode_row (ps : list (Z * Z)) : list ascii := concat (map encode_pair ps).
Definition decode_row (ps : list (Z * Z)) : list F := map (fw ∘ fst) ps ++ map (fw ∘ snd) ps.

(** a loader that reads what was written of the [x] that are [ok] *)
Definition reads {X} (row : reader (F := F) -> Res (list F * reader (F := F))) (ok : X -> Prop)
    (enc : X -> list ascii) (dec : X -> list F) : Prop :=
  forall x l st, ok x -> at_rest (enc x ++ l) st ->
  yields (row st) (fun r => r.1 = dec x /\ at_rest l r.2).

Lemma load_row_reads vl : 0 < vl -> 2 * vl < 2 ^ 31 ->
  reads (load_row vl) (row_ok vl) encode_row decode_row.
Proof.
  intros Hv Hb ps l st [L Hps] Hst. unfold load_row. rewrite i32_ok, bind_Ok by lia.
  pose proof (load_pairs_yields 0 (Z.to_nat vl) ps (replicate (Z.to_nat (2 * vl)) (nZ 0)) l st Hps) as Y.
  rewrite L, Z2Nat.id in Y by lia. eapply yields_mono; [apply Y; [rewrite length_replicate; unfold zlen in L; lia|done]|].
  intros [row st'] [-> R]. split; [|done]. cbn [fst].
  pose proof (place_all [] [] (replicate (length ps) (nZ 0 : F)) (replicate (length ps) (nZ 0)) ps) as P.
  cbn [length app Nat.add] in P. rewrite <-replicate_add in P.
  rewrite length_replicate, drop_ge, app_nil_r in P by (rewrite length_replicate; lia).
  replace (Z.to_nat (2 * vl)) with (length ps + length ps)%nat by (unfold zlen in L; lia).
  replace (Z.to_nat vl) with (length ps) by (unfold zlen in L; lia). by apply P.
Qed.

(** the rows of a stream with MSD: of every part the pairs, the weight and
    another word *)
Definition part_ok (q : Z) (x : list (Z * Z) * (Z * Z)) : Prop :=
  row_ok q x.1 /\ pair_ok x.2.
Definition weight_ok (w : Z) : Prop := ((fw w <? nZ 0) || (nZ 1 <? (fw w : F)))%num = false.
Definition msd_ok (ssize q : Z) (xs : list (list (Z * Z) * (Z * Z))) : Prop :=
  zlen xs = ssize /\ Forall (part_ok q) xs /\ (forall x, xs !! 0%nat = Some x -> weight_ok x.2.1).
Definition encode_part (x : list (Z * Z) * (Z * Z)) : list ascii := encode_row x.1 ++ encode_pair x.2.
Definition encode_msd (xs : list (list (Z * Z) * (Z * Z))) : list ascii := concat (map encode_part xs).
Definition decode_msd (xs : list (list (Z * Z) * (Z * Z))) : list F :=
  decode_row (concat (map fst xs)) ++ match xs with x :: _ => [fw x.2.1] | [] => [] end.

Lemma load_weight_yields i vl (row : list F) w w' l st :
  word_ok w -> word_ok w' -> (i = 0 -> weight_ok w) -> 0 <= 2 * vl < zlen row ->
  at_rest (be32 w ++ be32 w' ++ l) st ->
  yields (load_weight i vl row st) (fun r =>
    r.1 = (if i =? 0 then <[Z.to_nat (2 * vl) := fw w]> row else row) /\ at_rest l r.2).
Proof.
  intros H1 H2 Hi Hv (t & ->). unfold load_weight. cbn zeta. rewrite !read_temp_be32 by done.
  destruct (Z.eqb_spec i 0) as [Ei|_].
  - cbn [fst assigned]. rewrite bind_Ok. pose proof (Hi Ei) as Hw. unfold weight_ok in Hw. rewrite Hw.
    unfold store_temp. cbn [fst assigned]. rewrite bind_Ok, wr_ok, bind_Ok by lia.
    apply yields_ok. split; [done|by eexists].
  - rewrite bind_Ok. apply yields_ok. split; [done|by eexists].
Qed.

Lemma concat_parts_length q xs : Forall (part_ok q) xs ->
  zlen (concat (map fst xs)) = q * zlen xs.
Proof.
  induction 1 as [|x xs [[Hx _] _] _ IH]; cbn; [change (zlen (@nil (Z * Z))) with 0; change (zlen (@nil (list (Z * Z) * (Z * Z)))) with 0; lia|].
  rewrite zlen_app, zlen_cons, IH, Hx. lia.
Qed.

Lemma parts_place vl q (xs : list (list (Z * Z) * (Z * Z))) i x (row : list F) :
  Forall (part_ok q) xs -> xs !! i = Some x ->
  place 0 vl (concat (map fst (take (S i) xs))) row =
  place (Z.to_nat (q * Z.of_nat i)) vl x.1 (place 0 vl (concat (map fst (take i xs))) row).
Proof.
  intros Hxs X. rewrite (take_S_r _ _ _ X), map_app, concat_app. cbn [map concat].
  rewrite app_nil_r, place_app. f_equal. cbn [Nat.add].
  pose proof (concat_parts_length q (take i xs)) as L. rewrite zlen_take in L.
  pose proof (lookup_lt_Some _ _ _ X). unfold zlen in *. rewrite <-(Nat2Z.id (length (concat _))), L.
  - f_equal. lia.
  - by apply Forall_take.
Qed.

Lemma load_part_yields i (o : nat) q vl x (row : list F) l st :
  part_ok q x -> (i = 0 -> weight_ok x.2.1) -> 0 < vl -> Z.of_nat o + q <= vl ->
  2 * vl < zlen row -> at_rest (encode_part x ++ l) st ->
  yields ('(row, st) ← load_pairs (Z.of_nat o) q vl row st; load_weight i vl row st) (fun r =>
    r.1 = (if i =? 0 then <[Z.to_nat (2 * vl) := fw x.2.1]> (place o (Z.to_nat vl) x.1 row)
           else place o (Z.to_nat vl) x.1 row) /\ at_rest l r.2).
Proof.
  intros [[Lx Px] [W1 W2]] Hw Hv Ho Hr Hst. unfold encode_part in Hst. rewrite <-!app_assoc in Hst.
  pose proof (load_pairs_yields o (Z.to_nat vl) x.1 row (encode_pair x.2 ++ l) st Px) as Y.
  rewrite Lx, Z2Nat.id in Y by lia. eapply yields_bind; [apply Y; [|exact Hst]|].
  { unfold zlen in *. lia. }
  intros [row' st'] [E R]. cbn [fst snd] in E, R. subst row'. unfold encode_pair in R.
  rewrite <-app_assoc in R. eapply load_weight_yields; [done..| |exact R].
  unfold zlen. rewrite place_length. unfold zlen in Hr. lia.
Qed.

(** the row after [i] parts *)
Definition after_parts (vl : Z) (xs : list (list (Z * Z) * (Z * Z))) (zeros row1 : list F) (i : Z)
    : list F :=
  place 0 (Z.to_nat vl) (concat (map fst (take (Z.to_nat i) xs))) (if i =? 0 then zeros else row1).

Lemma after_parts_step vl q xs (zeros : list F) w i x : Forall (part_ok q) xs ->
  xs !! Z.to_nat i = Some x -> 0 <= i -> q <= vl -> (i = 0 -> w = fw x.2.1) ->
  let row := after_parts vl xs zeros (<[Z.to_nat (2 * vl) := w]> zeros) i in
  let row' := place (Z.to_nat (q * i)) (Z.to_nat vl) x.1 row in
  after_parts vl xs zeros (<[Z.to_nat (2 * vl) := w]> zeros) (i + 1) =
  (if i =? 0 then <[Z.to_nat (2 * vl) := fw x.2.1]> row' else row').
Proof.
  intros Hxs X Hi Hq Hw row row'. unfold row', row, after_parts.
  replace (Z.to_nat (i + 1)) with (S (Z.to_nat i)) by lia.
  rewrite (parts_place _ q _ _ x) by done. rewrite Z2Nat.id by lia.
  rewrite (proj2 (Z.eqb_neq (i + 1) 0)) by lia. destruct (Z.eqb_spec i 0) as [->|]; [|done].
  rewrite <-Hw by done. cbn [take map concat place Z.to_nat]. rewrite Z.mul_0_r.
  apply place_insert. rewrite Forall_lookup in Hxs. destruct (Hxs _ _ X) as [[L _] _].
  unfold zlen in L. lia.
Qed.

(** all the pairs and the weight, in a row of zeros *)
Lemma place_row vl ps (w : F) : zlen ps = vl ->
  place 0 (Z.to_nat vl) ps (<[Z.to_nat (2 * vl) := w]> (replicate (Z.to_nat (2 * vl + 1)) (nZ 0))) =
  decode_row ps ++ [w].
Proof.
  intros L. pose proof (place_all [] [] (replicate (length ps) (nZ 0 : F))
    (replicate (length ps) (nZ 0) ++ [w]) ps) as P.
  cbn [length app Nat.add] in P. rewrite app_assoc, <-replicate_add in P.
  rewrite drop_app_length' in P by (by rewrite length_replicate). unfold decode_row.
  replace (Z.to_nat (2 * vl + 1)) with (length ps + length ps + 1)%nat by (unfold zlen in L; lia).
  rewrite replicate_add. cbn [replicate].
  replace (Z.to_nat (2 * vl)) with (length (replicate (length ps + length ps) (nZ 0 : F)))
    by (rewrite length_replicate; unfold zlen in L; lia).
  rewrite insert_at. replace (Z.to_nat vl) with (length ps) by (unfold zlen in L; lia).
  rewrite <-app_assoc. apply P; [apply length_replicate|done|].
  rewrite length_app, length_replicate. lia.
Qed.

Lemma load_row_msd_reads ssize q : 0 < ssize -> 0 < q -> 2 * (ssize * q) + 1 < 2 ^ 31 ->
  ssize * (ssize * q) < 2 ^ 31 ->
  reads (load_row_msd ssize (ssize * q)) (msd_ok ssize q) encode_msd decode_msd.
Proof.
  intros Hs Hq Hb Hc xs l st (L & Hxs & Hw) Hst. unfold load_row_msd.
  set (vl := ssize * q) in *. assert (Hvl : 0 < vl /\ q <= vl) by (unfold vl; nia).
  rewrite i32_ok, bind_Ok by lia. set (zeros := replicate (Z.to_nat (2 * vl + 1)) (nZ 0)).
  destruct xs as [|x0 xs0] eqn:Exs; [change (zlen (@nil (list (Z * Z) * (Z * Z)))) with 0 in L; lia|].
  rewrite <-Exs in *. assert (X0 : xs !! 0%nat = Some x0) by by rewrite Exs.
  set (row1 := <[Z.to_nat (2 * vl) := fw x0.2.1]> zeros).
  eapply yields_mono.
  { apply (for_up_yields (fun i r => r.1 = after_parts vl xs zeros row1 i /\
      at_rest (encode_msd (drop (Z.to_nat i) xs) ++ l) r.2)); [lia|done|].
    intros i [row st'] Hi [E R]. cbn [fst snd] in E, R. subst row. rewrite i32_ok, bind_Ok by nia.
    destruct (lookup_lt_is_Some_2 xs (Z.to_nat i)) as [x X]; [unfold zlen in L; lia|].
    rewrite (drop_S _ _ _ X) in R. unfold encode_msd in R. cbn [map concat] in R.
    rewrite <-app_assoc in R. pose proof Hxs as Fa. rewrite Forall_lookup in Fa.
    assert (Ei : i = 0 -> x = x0) by (intros ->; change (Z.to_nat 0) with 0%nat in X; rewrite X0 in X; by injection X).
    replace (Z.quot (i * vl) ssize) with (Z.of_nat (Z.to_nat (q * i)))
      by (unfold vl; replace (i * (ssize * q)) with (q * i * ssize) by lia;
          rewrite Z.quot_mul by lia; nia).
    replace (Z.quot vl ssize) with q by (unfold vl; rewrite Z.mul_comm, Z.quot_mul; lia).
    eapply yields_mono; [eapply (load_part_yields _ _ q _ x _ _ _ (Fa _ _ X)); [|lia|unfold vl; nia| |exact R]|].
    - intros E0. rewrite (Ei E0). by apply Hw.
    - unfold after_parts, zlen. rewrite place_length.
      destruct (i =? 0); unfold row1, zeros; rewrite ?length_insert, length_replicate; lia.
    - intros r [-> R']. replace (Z.to_nat (i + 1)) with (S (Z.to_nat i)) by lia. split; [|exact R'].
      unfold row1. rewrite (after_parts_step vl q _ _ _ _ x); [done|done|done|lia|lia|].
      by intros ->%Ei. }
  intros r [-> R]. rewrite drop_ge in R by (unfold zlen in L; lia). split; [|exact R].
  unfold after_parts. rewrite (proj2 (Z.eqb_neq ssize 0)), take_ge by (unfold zlen in L; lia).
  unfold row1, zeros, decode_msd. rewrite place_row; [by rewrite Exs|].
  rewrite (concat_parts_length q) by done. unfold vl. lia.
Qed.

(** ** Files of distributions *)

Definition encode_all {X} (enc : X -> list ascii) (xs : list X) : list ascii := concat (map enc xs).

Lemma load_list_yields {X Y} (xs : list X) (enc : X -> list ascii) (dec : X -> Y)
    (read : Z -> reader (F := F) -> Res (Y * reader (F := F))) l st :
  (forall i x l st, xs !! Z.to_nat i = Some x -> 0 <= i -> at_rest (enc x ++ l) st ->
    yields (read i st) (fun r => r.1 = dec x /\ at_rest l r.2)) ->
  at_rest (concat (map enc xs) ++ l) st ->
  yields (load_list (zlen xs) read st) (fun r => r.1 = map dec xs /\ at_rest l r.2).
Proof.
  intros Hread Hst. eapply yields_mono.
  { apply (for_up_yields (fun i r => r.1 = map dec (take (Z.to_nat i) xs) /\
      at_rest (concat (map enc (drop (Z.to_nat i) xs)) ++ l) r.2)); [apply zlen_nonneg|done|].
    intros i [ys st'] Hi [E R]. cbn [fst snd] in E, R. subst ys.
    destruct (lookup_lt_is_Some_2 xs (Z.to_nat i)) as [x X']; [unfold zlen in Hi; lia|].
    rewrite (drop_S _ _ _ X') in R. cbn [map concat] in R. rewrite <-app_assoc in R.
    eapply yields_bind; [apply (Hread i x); [done|lia|exact R]|].
    intros [y st2] [E2 R2]. cbn [fst snd] in E2, R2. subst y. apply yields_ok. cbn [fst snd].
    replace (Z.to_nat (i + 1)) with (S (Z.to_nat i)) by lia. split; [|exact R2].
    by rewrite (take_S_r _ _ _ X'), map_app. }
  intros r [E R]. rewrite drop_ge in R by (unfold zlen; lia). rewrite take_ge in E by (unfold zlen; lia).
  done.
Qed.

Lemma load_rows_yields {X} row ok (enc : X -> list ascii) dec trees l st :
  reads row ok enc dec -> Forall (Forall ok) trees ->
  at_rest (concat (map (encode_all enc) trees) ++ l) st ->
  yields (load_rows row (map zlen trees) st) (fun r => r.1 = map (map dec) trees /\ at_rest l r.2).
Proof.
  intros Hr Hok Hst. unfold load_rows.
  replace (zlen (map zlen trees)) with (zlen trees) by (unfold zlen; by rewrite length_map).
  apply load_list_yields with (enc := encode_all enc); [|exact Hst].
  intros i rows l' st' E Hi R. rewrite (rd_ok _ _ (zlen rows)), bind_Ok; [|done|].
  2:{ apply list_lookup_fmap_Some. by exists rows. }
  apply load_list_yields with (enc := enc); [|exact R]. intros j x l2 st2 E2 _ R2. apply Hr; [|exact R2].
  rewrite Forall_lookup in Hok. pose proof (Hok _ _ E) as Hrows. rewrite Forall_lookup in Hrows.
  by eapply Hrows.
Qed.

Lemma read_counts_be32 ns l e : Forall (fun n => 0 <= n < 2 ^ 31) ns ->
  read_counts (length ns) (mkFile (concat (map be32 ns) ++ l) e) = (map Some ns, zlen ns, mkFile l e).
Proof.
  induction 1 as [|n ns Hn _ IH]; [done|]. cbn [length read_counts map concat].
  rewrite <-app_assoc, fread_be32 by (unfold word_ok; lia). rewrite IH. cbn [filled is_whole].
  rewrite to_i32_id, zlen_cons by lia. done.
Qed.

Lemma check_counts_ok ns : Forall (fun n => 0 < n) ns -> check_counts (map Some ns) = Ok ns.
Proof.
  induction 1 as [|n ns Hn _ IH]; [done|]. cbn [map check_counts assigned]. rewrite bind_Ok.
  rewrite (proj2 (Z.leb_gt n 0)) by done. by rewrite IH.
Qed.

(** what a file holds: for every tree its rows *)
Inductive content :=
  | Plain (ssize vl : Z) (trees : list (list (list (Z * Z))))
  | Multi (ssize q : Z) (trees : list (list (list (list (Z * Z) * (Z * Z))))).

Definition multi (c : content) : bool := match c with Plain _ _ _ => false | Multi _ _ _ => true end.
Definition width (c : content) : Z := match c with Plain _ vl _ => vl | Multi ssize q _ => ssize * q end.
Definition counts (c : content) : list Z :=
  match c with Plain _ _ trees => map zlen trees | Multi _ _ trees => map zlen trees end.
Definition decode (c : content) : list (list (list F)) :=
  match c with
  | Plain _ _ trees => map (map decode_row) trees
  | Multi _ _ trees => map (map decode_msd) trees
  end.

Definition header (c : content) : list ascii :=
  be32 (if multi c then 1 else 0) ++
  be32 (match c with Plain ssize _ _ => ssize | Multi ssize _ _ => ssize end) ++
  be32 (width c) ++ concat (map be32 (counts c)).
Definition write_pdf (c : content) : list ascii :=
  header c ++
  match c with
  | Plain _ _ trees => concat (map (encode_all encode_row) trees)
  | Multi _ _ trees => concat (map (encode_all encode_msd) trees)
  end.

Definition content_ok (c : content) : Prop :=
  counts c <> [] /\ Forall (fun n => 0 < n < 2 ^ 31) (counts c) /\ 2 * width c + 1 < 2 ^ 31 /\
  match c with
  | Plain ssize vl trees => 0 < ssize < 2 ^ 31 /\ 0 < vl /\ Forall (Forall (row_ok vl)) trees
  | Multi ssize q trees => 0 < ssize < 2 ^ 31 /\ 0 < q /\ ssize * (ssize * q) < 2 ^ 31 /\
      Forall (Forall (msd_ok ssize q)) trees
  end.

(** the header and the counts are read *)
Lemma load_pdf_header c m l : content_ok c ->
  HTS_Model_load_pdf m (mkFile (header c ++ l) false) (zlen (counts c)) (multi c) =
  ('(pdf', (_, result, _)) ← load_rows (match c with Plain _ vl _ => load_row vl
                                        | Multi ssize q _ => load_row_msd ssize (ssize * q) end)
                             (counts c) (None, true, mkFile l false);
   Ok (if result : bool
       then (m <| ntree := zlen (counts c) |> <| vector_length := width c |> <| npdf := counts c |>
               <| pdf := pdf' |>, true)
       else (HTS_Model_initialize, false))).
Proof.
  intros (Hne & Hn & Hw & Hc). unfold HTS_Model_load_pdf, header. pose proof (zlen_nonneg (counts c)).
  assert (Hp : 0 < zlen (counts c)) by (destruct (counts c); [done|]; rewrite zlen_cons; pose proof (zlen_nonneg l0); lia).
  assert (Hs : 0 < match c with Plain s _ _ => s | Multi s _ _ => s end < 2 ^ 31) by (destruct c; tauto).
  assert (Hv : 0 < width c) by (destruct c; cbn in *; nia).
  rewrite (proj2 (Z.leb_gt _ _)) by done. rewrite <-!app_assoc.
  rewrite read_int_be32, bind_Ok by (destruct (multi c); lia).
  replace ((negb ((if multi c then 1 else 0) =? 0) || multi c) && (negb ((if multi c then 1 else 0) =? 1) || negb (multi c)))
    with false by by destruct (multi c).
  rewrite read_int_be32, bind_Ok by lia. rewrite (proj2 (Z.ltb_ge _ 1)) by lia.
  rewrite read_int_be32, bind_Ok by lia. rewrite (proj2 (Z.leb_gt _ 0)) by lia.
  replace (Z.to_nat (zlen (counts c))) with (length (counts c)) by (unfold zlen; lia).
  rewrite read_counts_be32 by (eapply Forall_impl; [exact Hn|]; cbn; lia).
  rewrite check_counts_ok, bind_Ok by (eapply Forall_impl; [exact Hn|]; cbn; lia).
  rewrite Z.eqb_refl. cbn [negb]. by destruct c.
Qed.

(** C12: what is written in the format of the distribution files is read back:
    the trees get their rows, every row its means, variances and, with MSD, the
    weight of its first part, whatever follows in the file. *)
Theorem pdf_file_round_trip c m l : content_ok c ->
  HTS_Model_load_pdf m (mkFile (write_pdf c ++ l) false) (zlen (counts c)) (multi c) =
  Ok (m <| ntree := zlen (counts c) |> <| vector_length := width c |> <| npdf := counts c |>
        <| pdf := decode c |>, true).
Proof.
  intros Hc. unfold write_pdf. rewrite <-app_assoc, load_pdf_header by done.
  pose proof Hc as (_ & _ & Hw & Hk). destruct c as [ssize vl trees|ssize q trees]; cbn [counts decode width] in *.
  - destruct Hk as (_ & Hv & Hr).
    destruct (load_rows_yields (load_row vl) (row_ok vl) encode_row decode_row trees l
      (None, true, mkFile (concat (map (encode_all encode_row) trees) ++ l) false))
      as ([rows st] & -> & Er & t & Et); [apply load_row_reads; lia|done|by eexists|].
    cbn [fst snd] in *. by subst.
  - destruct Hk as (Hs & Hq & Hb & Hr).
    destruct (load_rows_yields (load_row_msd ssize (ssize * q)) (msd_ok ssize q) encode_msd decode_msd
      trees l (None, true, mkFile (concat (map (encode_all encode_msd) trees) ++ l) false))
      as ([rows st] & -> & Er & t & Et); [apply load_row_msd_reads; lia|done|by eexists|].
    cbn [fst snd] in *. by subst.
Qed.

(** ** The lengths of what is read, whatever the file holds *)

Lemma assigned_ends {A} (x : option A) : ends (assigned x) (fun _ => True).
Proof. by destruct x. Qed.

Lemma store_temp_ends (row : list F) i st : ends (store_temp row i st) (fun r => zlen r = zlen row).
Proof. eapply ends_bind; [apply assigned_ends|]. intros x _. apply ends_wr_len. Qed.

Lemma load_pairs_ends o n vl (row : list F) st : 0 <= n ->
  ends (load_pairs o n vl row st) (fun r => zlen r.1 = zlen row).
Proof.
  intros Hn. apply (for_up_ends (fun _ r => zlen r.1 = zlen row)); [done|done|].
  intros i [a s] _ L. cbn [fst] in L. eapply ends_bind; [apply store_temp_ends|]. intros r1 L1.
  eapply ends_bind; [apply store_temp_ends|]. intros r2 L2. cbn. congruence.
Qed.

Lemma load_row_ends vl (st : reader (F := F)) : 0 < vl ->
  ends (load_row vl st) (fun r => zlen r.1 = 2 * vl).
Proof.
  intros Hv. eapply ends_bind; [apply ends_i32|]. intros n ->.
  eapply ends_mono; [apply load_pairs_ends; lia|]. intros r ->. rewrite zlen_replicate. lia.
Qed.

Lemma load_weight_ends l vl (row : list F) st :
  ends (load_weight l vl row st) (fun r => zlen r.1 = zlen row).
Proof.
  apply (ends_bind _ _ (fun r => zlen r = zlen row)); [|by intros r].
  destruct (l =? 0); [|done]. eapply ends_bind; [apply assigned_ends|]. intros t _.
  destruct (_ || _); [done|]. apply store_temp_ends.
Qed.

Lemma load_row_msd_ends ssize vl (st : reader (F := F)) : 0 < ssize -> 0 < vl ->
  ends (load_row_msd ssize vl st) (fun r => zlen r.1 = 2 * vl + 1).
Proof.
  intros Hs Hv. eapply ends_bind; [apply ends_i32|]. intros n ->.
  apply (for_up_ends (fun _ r => zlen r.1 = 2 * vl + 1)); [lia|cbn; rewrite zlen_replicate; lia|].
  intros i [a s] _ L. cbn [fst] in L. eapply ends_bind; [apply ends_i32|]. intros p _.
  eapply ends_bind; [apply load_pairs_ends, Z.quot_pos; lia|]. intros [c s2] L2.
  eapply ends_mono; [apply load_weight_ends|]. intros r L3. cbn [fst] in *. congruence.
Qed.

Lemma load_list_ends {X} n (read : Z -> reader (F := F) -> Res (X * reader (F := F))) st (P : X -> Prop) :
  0 <= n -> (forall i st, ends (read i st) (fun x => P x.1)) ->
  ends (load_list n read st) (fun r => zlen r.1 = n /\ Forall P r.1).
Proof.
  intros Hn Hr. apply (for_up_ends (fun i r => zlen r.1 = i /\ Forall P r.1)); [done|done|].
  intros i [l s] _ [L Fa]. cbn [fst] in *. eapply ends_bind; [apply Hr|]. intros [x s2] Px.
  cbn [ends fst] in *. rewrite zlen_snoc. split; [lia|]. apply Forall_app. split; [done|].
  by apply Forall_singleton.
Qed.

(** the rows of a model have the same length *)
Definition sized_pdf (nt len : Z) (rows : list (list (list F))) : Prop :=
  zlen rows = nt /\ Forall (Forall (fun row => zlen row = len)) rows.

Lemma check_counts_ends l :
  ends (check_counts l) (fun ns => Forall (fun n => 0 < n) ns /\ length ns = length l).
Proof.
  induction l as [|x l IH]; [done|]. cbn [check_counts].
  eapply ends_bind; [apply assigned_ends|]. intros n _. destruct (Z.leb_spec n 0); [done|].
  eapply ends_bind; [apply IH|]. intros ns [Fa L]. split; [by constructor|cbn; lia].
Qed.

Lemma read_counts_length n fp : length (read_counts n fp).1.1 = n.
Proof.
  revert fp. induction n as [|n IH]; intros fp; cbn; [done|]. destruct (HTS_fread_big_endian fp) as [i fp1].
  specialize (IH fp1). destruct (read_counts n fp1) as [[l k] fp2]. cbn in *. lia.
Qed.

Lemma read_int_ends fp x : ends (read_int fp x) (fun _ => True).
Proof.
  unfold read_int. destruct (HTS_fread_big_endian fp). eapply ends_bind; [apply assigned_ends|]. done.
Qed.

Lemma load_pdf_ends m fp nt msd : ends (HTS_Model_load_pdf m fp nt msd) (fun r => r.2 = true ->
  tree r.1 = tree m /\ 0 < vector_length r.1 /\
  sized_pdf nt (2 * vector_length r.1 + if msd then 1 else 0) (pdf r.1) /\
  Forall (fun rows => 0 < zlen rows) (pdf r.1)).
Proof.
  unfold HTS_Model_load_pdf. destruct (Z.leb_spec nt 0) as [|Hnt]; [done|].
  eapply ends_bind; [apply read_int_ends|]. intros [i fp1] _. destruct (_ && _); [done|].
  eapply ends_bind; [apply read_int_ends|]. intros [ssize fp2] _. destruct (Z.ltb_spec ssize 1) as [|Hs]; [done|].
  eapply ends_bind; [apply read_int_ends|]. intros [vl fp3] _. destruct (Z.leb_spec vl 0) as [|Hv]; [done|].
  pose proof (read_counts_length (Z.to_nat nt) fp3) as Lc.
  destruct (read_counts _ fp3) as [[cs n] fp4]. cbn [fst] in Lc.
  eapply ends_bind; [apply check_counts_ends|]. intros ns [Hns Ln]. destruct (negb _); [done|].
  set (len := 2 * vl + if msd then 1 else 0).
  assert (Hrow : forall st, ends ((if msd then load_row_msd ssize vl else load_row vl) st)
    (fun r => zlen (A := F) r.1 = len)).
  { intros st. unfold len. destruct msd; [apply load_row_msd_ends; lia|].
    rewrite Z.add_0_r. by apply load_row_ends. }
  eapply ends_bind.
  { apply (load_list_ends _ _ _ (fun rows => 0 < zlen rows /\ Forall (fun row => zlen row = len) rows));
      [apply zlen_nonneg|].
    intros j st. eapply ends_bind; [apply (ends_rd_in (fun k => 0 < k)), Hns|].
    cbn beta. intros k Hk.
    eapply ends_mono; [apply (load_list_ends _ _ _ (fun row => zlen row = len)); [lia|intros _ st'; apply Hrow]|].
    intros r [L Fa]. split; [lia|done]. }
  intros [rows [[t b] fp5]] [L Fa]. cbn [ends fst snd] in *. destruct b; [|done]. intros _. cbn.
  apply Forall_and in Fa as [F1 F2]. split; [done|]. split; [lia|]. split; [|done]. split; [|done].
  rewrite L. unfold zlen. lia.
Qed.

End Rows.

(** ** A file of distributions *)

(** gv-lf0.pdf of the voice bdl: three rows of a mean and a variance *)
Definition ex_content : content := Plain 1 1
  [[[(1025355504, 966040250)]; [(1028255632, 979559875)]; [(1026701407, 972555825)]]].

#[local] Existing Instance no_libm.

Example ex_bytes : map byte (write_pdf ex_content) =
  [0; 0; 0; 0; 0; 0; 0; 1; 0; 0; 0; 1; 0; 0; 0; 3;
   61; 29; 174; 240; 57; 148; 154; 186; 61; 73; 239; 144; 58; 98; 229; 195;
   61; 50; 56; 95; 57; 248; 6; 49].
Proof. reflexivity. Qed.

(** 1, -2, 0.15625, the smallest float, infinity and -0 *)
Example ex_floats : map float_of_word
    [1065353216; 3221225472; 1042284544; 1; 2139095040; 2147483648] =
  [nZ 1; nZ (-2); (nZ 5 / nZ 32)%num; (nZ 1 / nZ (2 ^ 149))%num; (nZ 1 / nZ 0)%num;
   (- nZ 0)%num : double].
Proof. vm_compute. reflexivity. Qed.

Lemma ex_content_ok : content_ok (F := double) ex_content.
Proof.
  split; [done|]. split; [by repeat constructor|]. split; [done|].
  split; [done|]. split; [done|]. repeat constructor; done.
Qed.

Lemma pdf_file_round_trip_witness :
  HTS_Model_load_pdf HTS_Model_initialize (mkFile (write_pdf ex_content) false) 1 false =
  Ok (mkModel 1 1 [3] (decode (F := double) ex_content) [] [], true).
Proof.
  pose proof (pdf_file_round_trip (F := double) ex_content HTS_Model_initialize [] ex_content_ok) as E.
  rewrite app_nil_r in E. exact E.
Defined.

End HtsPdf.
