(* ===== verification/Model.v ===== *)
(** * Models (mage/src/Model.cpp)

    A model is the five states of the label being synthesised: their durations
    and, per stream, their distributions.  The distributions and durations of
    several voices are added up with interpolation weights. *)

From Stdlib Require Import String Field Qcanon.
From S2P Require Import Prelude Num Constants CString Matrix Duration Label Voice.
Import Duration.
#[local] Open Scope Z_scope.

Module Model.

(** ** State *)

(** struct Distribution *)
Record dist (F : Type) := mkDist { mean : F; vari : F; msdFlag : F }.
Arguments mkDist {F}. Arguments mean {F}. Arguments vari {F}. Arguments msdFlag {F}.
#[global] Instance eta_dist F : Settable (dist F) := fun d => mkDist (mean d) (vari d) (msdFlag d).

(** struct State *)
Record state (F : Type) := mkState {
  sduration : Z;
  gv_switch_streams : list bool;
  streams : list (list (dist F));
  gv_streams : list (list (dist F))
}.
Arguments mkState {F}. Arguments sduration {F}. Arguments gv_switch_streams {F}.
Arguments streams {F}. Arguments gv_streams {F}.
#[global] Instance eta_state F : Settable (state F) := fun s =>
  mkState (sduration s) (gv_switch_streams s) (streams s) (gv_streams s).

(** class Model, with what is read of its ModelMemory before it is written: the
    durations, and the arrays hts_engine writes means and variances to, whose
    rows may be longer than what it writes *)
Record t (F : Type) := mk {
  duration : Z;
  states : list (state F);
  weightsChecked : bool;
  duration_array : list Z;
  stream_mean : list (list F);
  stream_vari : list (list F)
}.
Arguments mk {F}. Arguments duration {F}. Arguments states {F}.
Arguments weightsChecked {F}. Arguments duration_array {F}.
Arguments stream_mean {F}. Arguments stream_vari {F}.
#[global] Instance eta_model F : Settable (t F) := fun m =>
  mk (duration m) (states m) (weightsChecked m) (duration_array m) (stream_mean m) (stream_vari m).

Section Model.
Context {F : Type} `{NumOps F}.
#[local] Open Scope num_scope.
#[local] Open Scope Z_scope.

(** the memory for the results of hts_engine *)
Definition stream_memory : list (list F) :=
  replicate (Z.to_nat nOfStreams) (replicate (Z.to_nat maxStreamLen) (nZ 0)).

(** the members [Model()] does not write are the arguments: a fresh state *)
Definition create (s : list (state F)) : t F :=
  mk 0 s false (replicate (Z.to_nat nOfStates) 0) stream_memory stream_memory.

Definition getState (m : t F) (index : Z) : Res (state F) := rd (states m) index.
Definition getDuration (m : t F) : Z := duration m.
Definition setState (m : t F) (s : state F) (index : Z) : Res (t F) :=
  l ← wr (states m) index s; Ok (m <| states := l |>).
Definition setDuration (m : t F) (d : Z) : t F := m <| duration := d |>.

(** [for( i = 0; i < nOfStates; i++ )] on [this->state[i]] *)
Definition each_state (f : Z -> state F -> Res (state F)) (m : t F) : Res (t F) :=
  l ← for_up 0 nOfStates (fun i l => upd l i (f i)) (states m);
  Ok (m <| states := l |>).

(** ** Interpolation weights of the engine *)

(** divide the weights by their sum, unless it is zero *)
Definition normalise (iw : list F) (size : Z) : Res (list F) :=
  temp ← for_up 0 size (fun i temp => w ← rd iw i; Ok (temp + w)%num) (nZ 0);
  if negb (temp =? nZ 0)%num then
    for_up 0 size (fun i iw => upd iw i (fun w =>
      Ok (if negb (w =? nZ 0)%num then (w / temp)%num else w))) iw
  else Ok iw.

Definition checkInterpolationWeights (m : t F) (engine : Engine F) (forced : bool)
    : Res (t F * Engine F) :=
  let ms := ms engine in
  let global := global engine in
  if negb (weightsChecked m) || forced then
    d ← normalise (duration_iw global) (duration_interpolation_size ms);
    let global := global <| duration_iw := d |> in
    global ← for_up 0 nOfStreams (fun i global =>
      p ← upd (parameter_iw global) i (fun w => normalise w (parameter_interpolation_size ms i));
      let global := global <| parameter_iw := p |> in
      if use_gv ms i then
        g ← upd (gv_iw global) i (fun w => normalise w (gv_interpolation_size ms i));
        Ok (global <| gv_iw := g |>)
      else Ok global) global;
    Ok (m <| weightsChecked := true |>, mkEngine global ms)
  else Ok (m, engine).

(** ** Durations *)

(** [MAGE::Round] *)
Definition Round (x : F) : F := nfloor (x + ndec 5 (-1))%num.

(** the weight of a stream: 1 when no weights are passed *)
Definition weight (iw : option (list F)) (k : Z) : Res F :=
  match iw with Some w => rd w k | None => Ok (nZ 1) end.

Definition set_duration (m : t F) (means varis : list F) (frame_length : F) : Res (t F) :=
  '(a, d) ← mHTS_set_duration (duration_array m) means varis nOfStates frame_length;
  d ← to_int d;
  Ok (m <| duration_array := a |> <| duration := d |>).

Definition computeDuration (m : t F) (engine : Engine F) (label : Label.t F)
    (iw : option (list F)) : Res (t F) :=
  let global := global engine in
  let rate := (nZ (sampling_rate global) / (nZ (fperiod global) * ndec 1 7))%num in
  query ← strcpy maxStrLen (Label.getQuery label);
  iw ← weight iw durStreamIndex;
  let '(means, varis) := get_duration (ms engine) query (duration_iw global) in
  m ← (if Label.isDurationForced label then
         span ← i32 (Label.getEnd label - Label.getBegin label);
         let frame_length := (nZ span * rate)%num in
         if 0 <? Label.getEnd label then set_duration m means varis frame_length
         else Ok m (* a warning is printed *)
       else
         frame_length ←
           (if negb (Label.getSpeed label =? nZ 1)%num then
              temp ← total means nOfStates; Ok (temp / Label.getSpeed label)%num
            else Ok (nZ 0));
         set_duration m means varis frame_length);
  each_state (fun i s =>
    a ← rd (duration_array m) i;
    d ← to_int (nZ (sduration s) + Round (iw * nZ a))%num;
    Ok (s <| sduration := d |>)) m.

(** the change of one duration by the user's value [u] *)
Definition change_duration (action : Z) (d : Z) (u : F) : Res Z :=
  d ← (if action =? overwrite then to_int u
       else if action =? shift then to_int (nZ d + u)%num
       else if action =? scale then to_int (nZ d * u)%num
       else Ok d);
  Ok (if d <? 0 then 1 else d).

(** one pass over the durations that also adds them up *)
Definition accumulate (f : Z -> Z -> Res Z) (m : t F) : Res (t F * Z) :=
  for_up 0 nOfStates (fun i '(m, acc) =>
    l ← upd (states m) i (fun s =>
      d ← f i (sduration s); Ok (s <| sduration := d |>));
    let m := m <| states := l |> in
    s ← getState m i;
    acc ← i32 (acc + sduration s);
    Ok (m, acc)) (m, 0).

(** [updateFunction] is None for NULL *)
Definition updateDuration (m : t F) (updateFunction : option (list F)) (action : Z) : Res (t F) :=
  match updateFunction with
  | None => Ok m
  | Some uf =>
      '(m, d) ← accumulate (fun i sd => u ← rd uf i; change_duration action sd u) m;
      '(m, d) ←
        (if maxDuration <? d then
           accumulate (fun _ sd => p ← i32 (sd * maxDuration); Ok (Z.quot p d)) m
         else Ok (m, d));
      Ok (m <| duration := d |>)
  end.

Definition initDuration (m : t F) : Res (t F) :=
  each_state (fun _ s => Ok (s <| sduration := 0 |>)) m.

(** ** Distributions *)

(** [iw * mean] and [iw * iw * vari] are added to a row of distributions *)
Definition add_row (iw : F) (means varis : list F) (lf0_msd : F) (size : Z)
    (row : list (dist F)) : Res (list (dist F)) :=
  for_up 0 size (fun j row => upd row j (fun d =>
    mu ← rd means j;
    va ← rd varis j;
    Ok (mkDist (mean d + iw * mu) (vari d + iw * iw * va) lf0_msd)%num)) row.

(** hts_engine writes its results to the rows [k] of the memory *)
Definition write_row (mem : list (list F)) (k : Z) (new : list F) : Res (list (list F)) :=
  upd mem k (fun row => memcpy row 0 new 0 (zlen new)).
Definition store_results (k : Z) (means varis : list F) (m : t F) : Res (t F) :=
  mu ← write_row (stream_mean m) k means;
  va ← write_row (stream_vari m) k varis;
  Ok (m <| stream_mean := mu |> <| stream_vari := va |>).

(** one state: the result of hts_engine, and the row it is added to *)
Definition computeParameters_state (ms : Voice F) (query : string) (k : Z) (iw : F)
    (piw : list F) (i : Z) (m : t F) : Res (t F) :=
  let '(means, varis, msd) := get_parameter ms query k (i + 2) piw in
  m ← store_results k means varis m;
  let lf0_msd := if msd_flag ms k then msd else defaultMSDflag in
  means ← rd (stream_mean m) k;
  varis ← rd (stream_vari m) k;
  l ← upd (states m) i (fun s =>
    rows ← upd (streams s) k (add_row iw means varis lf0_msd (vector_length ms k));
    Ok (s <| streams := rows |>));
  Ok (m <| states := l |>).

Definition computeParameters (m : t F) (engine : Engine F) (label : Label.t F)
    (iws : option (list F)) : Res (t F) :=
  let ms := ms engine in
  query ← strcpy maxStrLen (Label.getQuery label);
  for_up 0 nOfStreams (fun k m =>
    iw ← weight iws k;
    piw ← rd (parameter_iw (global engine)) k;
    for_up 0 nOfStates (computeParameters_state ms query k iw piw) m) m.

(** the distributions of the global variance *)
Definition set_row (means varis : list F) (size : Z) (row : list (dist F))
    : Res (list (dist F)) :=
  for_up 0 size (fun j row => upd row j (fun d =>
    mu ← rd means j;
    va ← rd varis j;
    Ok (d <| mean := mu |> <| vari := va |>))) row.

(** the switch of the label is looked up, which ends the program when no tree
    takes it; the answer is not used, the switches of the states are cleared *)
Definition computeGlobalVariances (m : t F) (engine : Engine F) (label : Label.t F)
    : Res (t F) :=
  let ms := ms engine in
  query ← strcpy maxStrLen (Label.getQuery label);
  m ← for_up 0 nOfStreams (fun k m =>
    if use_gv ms k then
      giw ← rd (gv_iw (global engine)) k;
      let '(means, varis) := get_gv ms query k giw in
      m ← store_results k means varis m;
      means ← rd (stream_mean m) k;
      varis ← rd (stream_vari m) k;
      each_state (fun _ s =>
        rows ← upd (gv_streams s) k (set_row means varis (vector_length ms k));
        Ok (s <| gv_streams := rows |>)) m
    else Ok m) m;
  _ ← (if have_gv_switch ms then get_gv_switch ms query else Ok true);
  each_state (fun _ s =>
    sw ← for_up 0 nOfStreams (fun j sw => wr sw j false) (gv_switch_streams s);
    Ok (s <| gv_switch_streams := sw |>)) m.

Definition initParameters (m : t F) : Res (t F) :=
  for_up 0 nOfStreams (fun k m =>
    each_state (fun _ s =>
      rows ← upd (streams s) k (fun row =>
        for_up 0 maxStreamLen (fun j row => upd row j (fun d =>
          Ok (d <| mean := nZ 0 |> <| vari := nZ 0 |>))) row);
      Ok (s <| streams := rows |>)) m) m.

(** ** Durations: the bound of the frame memory *)

Definition durations (m : t F) : list Z := sduration <$> states m.

(** the durations of a model fit a third of the frame memory *)
Definition fits (m : t F) : Prop :=
  zlen (states m) = nOfStates /\ Forall (fun d => 0 <= d) (durations m) /\
  zsum (durations m) = duration m /\ duration m <= maxDuration.

(** the distributions of a state fill the memory of the constructor *)
Definition shaped (s : state F) : Prop :=
  dims nOfStreams maxStreamLen (streams s) /\ dims nOfStreams maxStreamLen (gv_streams s) /\
  nOfStreams <= zlen (gv_switch_streams s).

Lemma zsum_take_S l (i : nat) d :
  l !! i = Some d -> zsum (take (S i) l) = zsum (take i l) + d.
Proof. intros E. rewrite (take_S_r _ _ _ E), zsum_app. simpl. lia. Qed.

Lemma durations_insert (l : list (state F)) (i : nat) s :
  sduration <$> <[i := s]> l = <[i := sduration s]> (sduration <$> l).
Proof. apply list_fmap_insert. Qed.

(** what [accumulate] leaves: every duration changed by [f], and their sum *)
Definition accumulated (R : Z -> Z -> Z -> Prop) (m0 : t F) (i : Z) (r : t F * Z) : Prop :=
  let '(m, acc) := r in
  zlen (states m) = nOfStates /\ acc = zsum (take (Z.to_nat i) (durations m)) /\
  - 2 ^ 31 <= acc < 2 ^ 31 /\
  forall k : nat, Z.of_nat k < nOfStates -> exists a b, durations m0 !! k = Some a /\
    durations m !! k = Some b /\ if bool_decide (Z.of_nat k < i) then R (Z.of_nat k) a b else b = a.

Lemma accumulate_may bad R f m :
  bad IntOverflow -> zlen (states m) = nOfStates ->
  (forall i d, 0 <= i < nOfStates -> durations m !! Z.to_nat i = Some d -> may bad (f i d) (R i d)) ->
  may bad (accumulate f m) (accumulated R m nOfStates).
Proof.
  intros Hb Hm Hf. unfold accumulate. apply for_up_may; [done| |].
  { split; [done|]. split; [done|]. split; [done|]. intros k Hk.
    destruct (lookup_lt_is_Some_2 (durations m) k) as [a Ea];
      [unfold durations; rewrite length_fmap; unfold zlen in Hm; lia|].
    exists a, a. by rewrite bool_decide_eq_false_2 by lia. }
  intros i [m1 acc] Hi (L & -> & Hr & Hk).
  destruct (Hk (Z.to_nat i)) as (a & b & Ea & Eb & Eab); [lia|].
  rewrite bool_decide_eq_false_2 in Eab by lia. subst b.
  pose proof Eb as Es. unfold durations in Es. apply list_lookup_fmap_Some in Es as (s & -> & Es).
  unfold upd. rewrite (rd_ok _ _ s), bind_Ok by (done || lia). rewrite !bind_assoc.
  eapply may_bind; [by apply Hf; [lia|exact Ea]|]. intros b HR. rewrite bind_Ok.
  rewrite wr_ok, bind_Ok by lia. unfold getState.
  rewrite (rd_ok _ _ (s <| sduration := b |>)), bind_Ok;
    [|lia|cbn; apply list_lookup_insert_eq; unfold zlen in L; lia].
  cbn [sduration set_field eta_state].
  unfold i32, check. destruct (in_i32 _) eqn:Ei; [|done]. apply in_i32_true in Ei.
  cbn [may mbind Res_bind].
  assert (Ed : durations (m1 <| states := <[Z.to_nat i:=s <| sduration := b |>]> (states m1) |>)
               = <[Z.to_nat i := b]> (durations m1)).
  { unfold durations. cbn. by rewrite list_fmap_insert. }
  assert (Ll : (Z.to_nat i < length (durations m1))%nat).
  { unfold durations. rewrite length_fmap. unfold zlen in L. lia. }
  split; [cbn; by rewrite zlen_insert|]. rewrite Ed. split; [|split; [done|]].
  - replace (Z.to_nat (i + 1)) with (S (Z.to_nat i)) by lia.
    rewrite (zsum_take_S _ _ b) by by apply list_lookup_insert_eq.
    by rewrite take_insert_ge by lia.
  - intros k Hkn. destruct (decide (k = Z.to_nat i)) as [->|].
    + exists (sduration s), b. rewrite list_lookup_insert_eq by done.
      rewrite bool_decide_eq_true_2 by lia. rewrite Z2Nat.id by lia. done.
    + destruct (Hk k Hkn) as (a1 & b1 & ? & ? & Hab). exists a1, b1.
      rewrite list_lookup_insert_ne by done. split; [done|]. split; [done|].
      destruct (decide (Z.of_nat k < i)).
      * rewrite bool_decide_eq_true_2 in Hab |- * by lia. done.
      * rewrite bool_decide_eq_false_2 in Hab |- * by lia. done.
Qed.

Lemma to_int_may (bad : fault -> Prop) (x : F) :
  bad BadConversion -> may bad (to_int x) (fun _ => True).
Proof.
  intros Hb. unfold to_int, check. destruct (ntrunc x); [|done]. by destruct (in_i32 z).
Qed.

Lemma change_duration_may bad action d u :
  bad BadConversion ->
  may bad (change_duration action d u) (fun b => 0 <= b /\ change_duration action d u = Ok b).
Proof.
  intros Hb. unfold change_duration.
  assert (may bad (if action =? overwrite then to_int u
       else if action =? shift then to_int (nZ d + u)%num
       else if action =? scale then to_int (nZ d * u)%num
       else Ok d) (fun _ => True)) as M
    by (repeat destruct (_ =? _); by apply to_int_may || done).
  destruct (if action =? overwrite then _ else _) as [b| | |]; try done.
  simpl. split; [|done]. case Z.ltb_spec; lia.
Qed.

Lemma maxDuration_eq : maxDuration = 170.
Proof. done. Qed.

(** scaling down by [maxDuration / total] keeps the sum below [maxDuration] *)
Lemma zsum_scaled l t :
  0 < t -> Forall (fun d => 0 <= d) l -> t * zsum ((fun d => d * maxDuration / t) <$> l) <= zsum l * maxDuration.
Proof.
  intros Ht. induction 1 as [|d l Hd Hl IH]; [simpl; lia|].
  rewrite fmap_cons. cbn [zsum foldr] in *. fold (zsum l) in *.
  fold (zsum ((fun d => d * maxDuration / t) <$> l)) in *.
  pose proof (Z.mul_div_le (d * maxDuration) t Ht). lia.
Qed.

Lemma list_of_accumulated R (m0 : t F) m' d :
  accumulated R m0 nOfStates (m', d) -> zlen (states m0) = nOfStates ->
  d = zsum (durations m') /\ zlen (durations m') = nOfStates /\
  forall k a, durations m0 !! k = Some a -> exists b, durations m' !! k = Some b /\ R (Z.of_nat k) a b.
Proof.
  intros (L & -> & _ & Hk) L0.
  assert (Ll : zlen (durations m') = nOfStates)
    by (unfold durations, zlen; rewrite length_fmap; exact L).
  split; [by rewrite take_ge by (unfold zlen in Ll; lia)|]. split; [done|].
  intros k a Ea. assert (Hkn : Z.of_nat k < nOfStates).
  { apply lookup_lt_Some in Ea. unfold durations in Ea. rewrite length_fmap in Ea.
    unfold zlen in L0. lia. }
  destruct (Hk k Hkn) as (a' & b & Ea' & Eb & HR).
  rewrite bool_decide_eq_true_2 in HR by done. exists b. rewrite Ea in Ea'. by injection Ea' as <-.
Qed.

(** the durations the user's action asks for *)
Definition requested (action : Z) (ds : list Z) (uf : list F) (req : list Z) : Prop :=
  zlen req = nOfStates /\ forall k a u, ds !! k = Some a -> uf !! k = Some u ->
    exists b, change_duration action a u = Ok b /\ req !! k = Some b.

Lemma updateDuration_spec (m : t F) uf action :
  zlen (states m) = nOfStates -> zlen uf = nOfStates ->
  may (fun e => e = BadConversion \/ e = IntOverflow) (updateDuration m (Some uf) action)
    (fun m' => fits m' /\ exists req, requested action (durations m) uf req /\
       durations m' = if zsum req <=? maxDuration then req
                      else (fun d => d * maxDuration / zsum req) <$> req).
Proof.
  intros Hm Hu. set (bad := fun e => e = BadConversion \/ e = IntOverflow).
  unfold updateDuration. eapply (may_bind bad).
  { apply accumulate_may with (R := fun i a b => 0 <= b /\ exists u, uf !! Z.to_nat i = Some u /\
      change_duration action a u = Ok b); [by right|done|].
    intros i d Hi Ed. eapply may_bind; [apply may_yields, yields_rd; lia|]. intros u Hu'.
    eapply may_mono; [apply change_duration_may; by left|].
    intros b [? ?]. split; [done|]. by exists u. }
  intros [m1 d1] A1. pose proof A1 as (L1 & _ & R1 & _).
  destruct (list_of_accumulated _ _ _ _ A1 Hm) as (-> & Ll1 & Hk1).
  assert (N1 : Forall (fun d => 0 <= d) (durations m1)).
  { apply Forall_lookup_2. intros k b Eb.
    destruct (lookup_lt_is_Some_2 (durations m) k) as [a Ea].
    { apply lookup_lt_Some in Eb. unfold durations in *. rewrite length_fmap in *.
      unfold zlen in *. lia. }
    destruct (Hk1 k a Ea) as (b' & Eb' & ? & _). rewrite Eb in Eb'. by injection Eb' as <-. }
  assert (Hreq : requested action (durations m) uf (durations m1)).
  { split; [done|]. intros k a u Ea Eu. destruct (Hk1 k a Ea) as (b & Eb & _ & u' & Eu' & E).
    rewrite Nat2Z.id, Eu in Eu'. injection Eu' as <-. eauto. }
  case Z.ltb_spec; intros Hmax.
  - eapply may_bind.
    { apply accumulate_may with (R := fun i a b => b = a * maxDuration / zsum (durations m1));
        [by right|done|].
      intros i d Hi Ed. unfold i32, check. destruct (in_i32 _); [|by right].
      simpl. rewrite Forall_lookup in N1. pose proof (N1 _ _ Ed).
      cbn beta in *. pose proof maxDuration_eq. apply Z.quot_div_nonneg; lia. }
    intros [m2 d2] A2. pose proof A2 as (L2 & _ & R2 & _).
    destruct (list_of_accumulated _ _ _ _ A2 L1) as (-> & Ll2 & Hk2).
    assert (E2 : durations m2 = (fun d => d * maxDuration / zsum (durations m1)) <$> durations m1).
    { apply list_eq. intros k. rewrite list_lookup_fmap.
      destruct (durations m1 !! k) as [a|] eqn:Ea.
      - destruct (Hk2 k a Ea) as (b & -> & ->). done.
      - apply lookup_ge_None in Ea. apply lookup_ge_None. unfold zlen in *. lia. }
    assert (0 < zsum (durations m1)) by (pose proof maxDuration_eq; lia).
    pose proof (zsum_scaled (durations m1) (zsum (durations m1)) ltac:(done) N1) as Z1.
    rewrite <-E2 in Z1.
    split; [split; [done|split; [|split; [done|]]]|].
    + change (durations (m2 <| duration := _ |>)) with (durations m2). rewrite E2.
      apply Forall_fmap, (Forall_impl _ _ _ N1). intros d Hd. cbn.
      pose proof maxDuration_eq. apply Z.div_pos; [lia|done].
    + cbn. nia.
    + exists (durations m1). split; [done|].
      rewrite (proj2 (Z.leb_gt _ _)) by done. exact E2.
  - rewrite bind_Ok. cbn [may]. split; [split; [done|split; [done|split; [done|exact Hmax]]]|].
    exists (durations m1). split; [done|]. by rewrite (proj2 (Z.leb_le _ _)) by done.
Qed.

(** C27: whatever the user asks for, a model ends up with nonnegative durations
    that add up to its [duration] and fit a third of the frame memory: the
    requested ones when they fit, and otherwise these scaled down in
    proportion. *)
Theorem updated_durations_fit (m : t F) uf action :
  zlen (states m) = nOfStates -> zlen uf = nOfStates ->
  may (fun e => e = BadConversion \/ e = IntOverflow) (updateDuration m (Some uf) action)
    (fun m' => fits m' /\ exists req, requested action (durations m) uf req /\
       durations m' = if zsum req <=? maxDuration then req
                      else (fun d => d * maxDuration / zsum req) <$> req).
Proof. apply updateDuration_spec. Qed.

(** ** What the passes over the states keep *)

Lemma each_state_keeps f (m m' : t F) :
  each_state f m = Ok m' ->
  (forall i s s', f i s = Ok s' -> sduration s' = sduration s) ->
  durations m' = durations m /\ duration m' = duration m.
Proof.
  intros E Hf. unfold each_state in E. apply bind_inv_Ok in E as (l & E & E').
  injection E' as <-. split; [|done].
  eapply (for_upd_inv (fun _ s s' => sduration s' = sduration s)) in E as (L & _ & Hk);
    [|done|intros; by eapply Hf].
  unfold durations. cbn. apply list_eq. intros k. rewrite !list_lookup_fmap.
  specialize (Hk k). case_bool_decide; [|by rewrite Hk].
  destruct Hk as (x & y & -> & -> & E). cbn. by rewrite E.
Qed.

Lemma each_state_len f (m m' : t F) :
  each_state f m = Ok m' -> zlen (states m') = zlen (states m).
Proof.
  intros E. unfold each_state in E. apply bind_inv_Ok in E as (l & E & E').
  injection E' as <-. by eapply (for_upd_inv (fun _ _ _ => True)) in E as (L & _ & _).
Qed.

(** the passes that change one state at a time, and the memory *)
Lemma state_pass (R : Z -> state F -> state F -> Prop) body (m m' : t F) :
  for_up 0 nOfStates body m = Ok m' ->
  (forall i m1 m2, 0 <= i < nOfStates -> body i m1 = Ok m2 -> duration m2 = duration m1 /\
     exists s s', states m1 !! Z.to_nat i = Some s /\
       states m2 = <[Z.to_nat i := s']> (states m1) /\ R i s s') ->
  duration m' = duration m /\ zlen (states m') = zlen (states m) /\
  forall k : nat, if bool_decide (Z.of_nat k < nOfStates)
    then exists s s', states m !! k = Some s /\ states m' !! k = Some s' /\ R (Z.of_nat k) s s'
    else states m' !! k = states m !! k.
Proof.
  intros E HB. apply (for_up_inv (fun i m1 => duration m1 = duration m /\
      zlen (states m1) = zlen (states m) /\
      forall k : nat, if bool_decide (Z.of_nat k < i)
        then exists s s', states m !! k = Some s /\ states m1 !! k = Some s' /\ R (Z.of_nat k) s s'
        else states m1 !! k = states m !! k)) in E; [done|done| |].
  - split; [done|]. split; [done|]. intros k. by rewrite bool_decide_eq_false_2 by lia.
  - intros i m1 m2 Hi (D & L & A) B. destruct (HB i m1 m2 Hi B) as (D2 & s & s' & Es & E2 & HR).
    rewrite E2, zlen_insert. split; [congruence|]. split; [done|]. intros k.
    pose proof (lookup_lt_Some _ _ _ Es) as Hl. specialize (A k).
    destruct (decide (k = Z.to_nat i)) as [->|Hne].
    + rewrite bool_decide_eq_false_2 in A by lia. rewrite bool_decide_eq_true_2 by lia.
      exists s, s'. rewrite <-A, list_lookup_insert_eq, Z2Nat.id by lia. done.
    + rewrite list_lookup_insert_ne by done. destruct (decide (Z.of_nat k < i)).
      * rewrite bool_decide_eq_true_2 in A |- * by lia. exact A.
      * rewrite bool_decide_eq_false_2 in A |- * by lia. exact A.
Qed.

Definition keeps_durations (m m' : t F) : Prop :=
  durations m' = durations m /\ duration m' = duration m.

Lemma keeps_fits m m' : keeps_durations m m' -> fits m -> fits m'.
Proof.
  intros [E1 E2] (L & P & S & B). unfold fits. rewrite E1, E2. split; [|done].
  pose proof (f_equal length E1) as E. unfold durations in E. rewrite !length_fmap in E.
  unfold zlen in *. by rewrite E.
Qed.

(** a row of the memory after hts_engine wrote [new] to it *)
Definition results (new row : list F) : Prop :=
  forall j : nat, (j < length new)%nat -> row !! j = new !! j.

Lemma write_row_inv mem k new mem' row :
  write_row mem k new = Ok mem' -> rd mem' k = Ok row -> results new row.
Proof.
  intros E Er. apply upd_inv in E as (old & row' & Hk & _ & E & ->).
  apply rd_inv in Er as [Hk' Er]. rewrite list_lookup_insert_eq in Er by (unfold zlen in Hk; lia).
  injection Er as <-. apply memcpy_lookup in E as [_ E]. intros j Hj. rewrite E.
  rewrite bool_decide_eq_true_2 by (unfold zlen; lia). f_equal. lia.
Qed.

Lemma store_results_inv k means varis m m' :
  store_results k means varis m = Ok m' ->
  states m' = states m /\ duration m' = duration m /\
  (forall row, rd (stream_mean m') k = Ok row -> results means row) /\
  (forall row, rd (stream_vari m') k = Ok row -> results varis row).
Proof.
  unfold store_results. intros E. apply bind_inv_Ok in E as (mu & E1 & E).
  apply bind_inv_Ok in E as (va & E2 & E). injection E as <-.
  split; [done|]. split; [done|]. split; intros row Er; by eapply write_row_inv.
Qed.

Lemma computeParameters_state_inv ms q k iw piw i (m m' : t F) :
  computeParameters_state ms q k iw piw i m = Ok m' ->
  duration m' = duration m /\ exists s s', states m !! Z.to_nat i = Some s /\
    states m' = <[Z.to_nat i := s']> (states m) /\ exists means varis rows,
    let '(mu, va, msd) := get_parameter ms q k (i + 2) piw in
    results mu means /\ results va varis /\
    upd (streams s) k (add_row iw means varis (if msd_flag ms k then msd else defaultMSDflag)
      (vector_length ms k)) = Ok rows /\ s' = s <| streams := rows |>.
Proof.
  unfold computeParameters_state. destruct (get_parameter _ _ _ _ _) as [[mu va] msd].
  intros E. apply bind_inv_Ok in E as (m1 & E1 & E).
  apply store_results_inv in E1 as (Es & Ed & Hm & Hv).
  apply bind_inv_Ok in E as (means & Em & E). apply bind_inv_Ok in E as (varis & Ev & E).
  apply bind_inv_Ok in E as (l & El & E). injection E as <-. split; [exact Ed|].
  apply upd_inv in El as (s & s' & _ & Xs & B & ->). apply bind_inv_Ok in B as (rows & Er & B).
  injection B as <-. rewrite Es in Xs |- *. exists s. eexists. split; [exact Xs|].
  split; [done|]. exists means, varis, rows. auto.
Qed.

Lemma state_pass_keeps (R : Z -> state F -> state F -> Prop) body (m m' : t F) :
  for_up 0 nOfStates body m = Ok m' ->
  (forall i m1 m2, 0 <= i < nOfStates -> body i m1 = Ok m2 -> duration m2 = duration m1 /\
     exists s s', states m1 !! Z.to_nat i = Some s /\
       states m2 = <[Z.to_nat i := s']> (states m1) /\ R i s s') ->
  (forall i s s', R i s s' -> sduration s' = sduration s) -> keeps_durations m m'.
Proof.
  intros E HB HR. destruct (state_pass R body m m' E HB) as (D & _ & A). split; [|done].
  apply list_eq. intros k. unfold durations. rewrite !list_lookup_fmap. specialize (A k).
  case_bool_decide; [|by rewrite A]. destruct A as (s & s' & -> & -> & A). cbn. f_equal. by eapply HR.
Qed.

Lemma computeParameters_keeps m e l iws m' :
  computeParameters m e l iws = Ok m' -> keeps_durations m m'.
Proof.
  unfold computeParameters. intros E. apply bind_inv_Ok in E as (q & _ & E).
  apply (for_up_inv (fun _ m' => keeps_durations m m')) in E; [done|done|done|].
  intros k m1 m2 _ [K1 K2] B. apply bind_inv_Ok in B as (iw & _ & B).
  apply bind_inv_Ok in B as (piw & _ & B).
  apply (state_pass_keeps (fun _ s s' => sduration s' = sduration s)) in B as [B1 B2]; [|clear..|done].
  - split; congruence.
  - intros i m1 m2 _ E. apply computeParameters_state_inv in E as (D & s & s' & Es & Es' & E).
    split; [done|]. exists s, s'. split; [done|]. split; [done|]. destruct E as (mu & va & rows & E).
    destruct (get_parameter _ _ _ _ _) as [[? ?] ?]. by destruct E as (_ & _ & _ & ->).
Qed.

Lemma computeGlobalVariances_keeps m e l m' :
  computeGlobalVariances m e l = Ok m' -> keeps_durations m m'.
Proof.
  unfold computeGlobalVariances. intros E. apply bind_inv_Ok in E as (q & _ & E).
  apply bind_inv_Ok in E as (m1 & E1 & E). apply bind_inv_Ok in E as (gvs & _ & E).
  apply (for_up_inv (fun _ m' => keeps_durations m m')) in E1; [|done|done|].
  - apply each_state_keeps in E as [B1 B2]; [destruct E1; split; congruence|].
    intros i s s' Es. apply bind_inv_Ok in Es as (sw & _ & Es). by injection Es as <-.
  - intros k m2 m3 _ [K1 K2] B. destruct (use_gv _ _); [|injection B as <-; done].
    apply bind_inv_Ok in B as (giw & _ & B). destruct (get_gv _ _ _ _) as [mu va].
    apply bind_inv_Ok in B as (m4 & Em4 & B). apply store_results_inv in Em4 as (Es & Ed & _).
    apply bind_inv_Ok in B as (means & _ & B). apply bind_inv_Ok in B as (varis & _ & B).
    assert (durations m4 = durations m2) by (unfold durations; by rewrite Es).
    apply each_state_keeps in B as [B1 B2]; [split; congruence|].
    intros i s s' E'. apply bind_inv_Ok in E' as (rows & _ & E'). by injection E' as <-.
Qed.

Lemma initParameters_keeps m m' : initParameters m = Ok m' -> keeps_durations m m'.
Proof.
  unfold initParameters. intros E.
  apply (for_up_inv (fun _ m' => keeps_durations m m')) in E; [done|done|done|].
  intros k m1 m2 _ [K1 K2] B. apply each_state_keeps in B as [B1 B2]; [split; congruence|].
  intros i s s' Es. apply bind_inv_Ok in Es as (rows & _ & Es). by injection Es as <-.
Qed.

Lemma set_duration_states m means varis fl m' :
  set_duration m means varis fl = Ok m' -> states m' = states m.
Proof.
  unfold set_duration. intros E. apply bind_inv_Ok in E as ([a d] & _ & E).
  apply bind_inv_Ok in E as (z & _ & E). by injection E as <-.
Qed.

(** the parameters of every stream need its weights *)
Lemma computeParameters_streams m e l iws m' :
  computeParameters m e l iws = Ok m' -> nOfStreams <= zlen (parameter_iw (global e)).
Proof.
  unfold computeParameters. intros E. apply bind_inv_Ok in E as (q & _ & E).
  apply (for_up_inv (fun k _ => k <= zlen (parameter_iw (global e)))) in E; [done|done| |].
  - apply zlen_nonneg.
  - intros k m1 m2 _ _ B. apply bind_inv_Ok in B as (iw & _ & B).
    apply bind_inv_Ok in B as (piw & Ep & _). apply rd_inv in Ep as [? _]. lia.
Qed.

(** a check of the weights changes the weights only *)
Lemma checkInterpolationWeights_len m e b m' e' :
  checkInterpolationWeights m e b = Ok (m', e') ->
  zlen (parameter_iw (global e')) = zlen (parameter_iw (global e)).
Proof.
  unfold checkInterpolationWeights. destruct (_ || _); [|intros E; by injection E as _ <-].
  intros E. apply bind_inv_Ok in E as (d & _ & E). apply bind_inv_Ok in E as (g & E & E').
  injection E' as _ <-. cbn [global].
  apply (for_up_inv (fun _ g => zlen (parameter_iw g) = zlen (parameter_iw (global e)))) in E;
    [done|done|done|].
  intros i g1 g2 _ L B. apply bind_inv_Ok in B as (p & Ep & B).
  apply upd_inv in Ep as (x & y & _ & _ & _ & ->).
  destruct (use_gv _ _); [apply bind_inv_Ok in B as (gv & _ & B)|]; injection B as <-;
    cbn; by rewrite zlen_insert.
Qed.

Lemma computeDuration_len m e l iw m' :
  computeDuration m e l iw = Ok m' -> zlen (states m') = zlen (states m).
Proof.
  unfold computeDuration. intros E. apply bind_inv_Ok in E as (q & _ & E).
  apply bind_inv_Ok in E as (w & _ & E). destruct (get_duration _ _ _) as [means varis].
  apply bind_inv_Ok in E as (m1 & E1 & E). apply each_state_len in E. rewrite E. f_equal.
  destruct (Label.isDurationForced l).
  - apply bind_inv_Ok in E1 as (span & _ & E1).
    destruct (_ <? _); [by eapply set_duration_states|by injection E1 as <-].
  - apply bind_inv_Ok in E1 as (fl & _ & E1). by eapply set_duration_states.
Qed.

(** ** Distributions *)

Definition sget (s : state F) (k j : nat) : option (dist F) := r ← streams s !! k; r !! j.
Definition dist_at (m : t F) (i k j : nat) : option (dist F) := s ← states m !! i; sget s k j.

Lemma each_state_inv (R : Z -> state F -> state F -> Prop) f (m m' : t F) :
  each_state f m = Ok m' ->
  (forall i s s', 0 <= i < nOfStates -> f i s = Ok s' -> R i s s') ->
  forall i : nat, Z.of_nat i < nOfStates -> exists s s', states m !! i = Some s /\
    states m' !! i = Some s' /\ R (Z.of_nat i) s s'.
Proof.
  intros E HR i Hi. unfold each_state in E. apply bind_inv_Ok in E as (l & E & E').
  injection E' as <-. eapply (for_upd_inv R) in E as (_ & _ & Hk); [|done|done].
  specialize (Hk i). by rewrite bool_decide_eq_true_2 in Hk by done.
Qed.

(** a row updated element by element up to [size] *)
Lemma row_inv (g : Z -> dist F -> Res (dist F)) size row row' :
  0 <= size -> for_up 0 size (fun j row => upd row j (g j)) row = Ok row' ->
  forall j : nat, if bool_decide (Z.of_nat j < size)
    then exists d d', row !! j = Some d /\ row' !! j = Some d' /\ g (Z.of_nat j) d = Ok d'
    else row' !! j = row !! j.
Proof.
  intros Hs E. eapply (for_upd_inv (fun j d d' => g j d = Ok d')) in E as (_ & _ & Hk); auto.
Qed.

(** the stream [k] of a state with its row changed, the other streams as they were *)
Lemma sget_upd (s : state F) k (f : list (dist F) -> Res (list (dist F))) rows k' j :
  upd (streams s) k f = Ok rows ->
  exists row row', streams s !! Z.to_nat k = Some row /\ f row = Ok row' /\
  sget (s <| streams := rows |>) k' j = if decide (k' = Z.to_nat k) then row' !! j else sget s k' j.
Proof.
  intros E. apply upd_inv in E as (row & row' & Hk & Er & Ef & ->).
  exists row, row'. split; [done|]. split; [done|]. unfold sget. cbn [streams set_field eta_state].
  destruct (decide (k' = Z.to_nat k)) as [->|].
  - by rewrite list_lookup_insert_eq by (unfold zlen in Hk; lia).
  - by rewrite list_lookup_insert_ne by done.
Qed.

(** the distribution [d'] is [d] plus the weighted distribution of an engine *)
Definition adds (e : Engine F) (query : string) (iws : option (list F)) (k i j : nat)
    (d d' : dist F) : Prop :=
  exists iw piw mu va, weight iws (Z.of_nat k) = Ok iw /\
    parameter_iw (global e) !! k = Some piw /\
    let '(means, varis, msd) := get_parameter (ms e) query (Z.of_nat k) (Z.of_nat i + 2) piw in
    means !! j = Some mu /\ varis !! j = Some va /\
    d' = mkDist (mean d + iw * mu)%num (vari d + iw * iw * va)%num
           (if msd_flag (ms e) (Z.of_nat k) then msd else defaultMSDflag).

Lemma computeParameters_adds (m m' : t F) e label iws (V : VoiceLaws (ms e)) :
  computeParameters m e label iws = Ok m' ->
  forall i k j : nat, Z.of_nat i < nOfStates -> Z.of_nat k < nOfStreams ->
  Z.of_nat j < vector_length (ms e) (Z.of_nat k) ->
  exists d d', dist_at m i k j = Some d /\ dist_at m' i k j = Some d' /\
    adds e (cstr (Label.getQuery label)) iws k i j d d'.
Proof.
  intros E i k j Hi Hk Hj. unfold computeParameters in E.
  apply bind_inv_Ok in E as (query & Eq & E).
  assert (query = cstr (Label.getQuery label)) as ->.
  { unfold strcpy, check in Eq. destruct (_ <? _); [|done]. by injection Eq. }
  set (query := cstr (Label.getQuery label)) in *.
  apply (for_up_inv (fun k0 m1 => if bool_decide (Z.of_nat k < k0)
    then exists d d', dist_at m i k j = Some d /\ dist_at m1 i k j = Some d' /\
      adds e query iws k i j d d'
    else dist_at m1 i k j = dist_at m i k j)) in E; [|done| |].
  - by rewrite bool_decide_eq_true_2 in E by done.
  - by rewrite bool_decide_eq_false_2 by lia.
  - intros k0 m1 m2 Hk0 IH B. apply bind_inv_Ok in B as (iw & Ew & B).
    apply bind_inv_Ok in B as (piw & Ep & B).
    apply (state_pass (fun i s s' => exists means varis rows,
      let '(mu, va, msd) := get_parameter (ms e) query k0 (i + 2) piw in
      results mu means /\ results va varis /\
      upd (streams s) k0 (add_row iw means varis (if msd_flag (ms e) k0 then msd else defaultMSDflag)
        (vector_length (ms e) k0)) = Ok rows /\ s' = s <| streams := rows |>)) in B
      as (_ & _ & B); [|intros i0 ma mb _ E0; by apply computeParameters_state_inv].
    specialize (B i). rewrite bool_decide_eq_true_2 in B by done.
    destruct B as (s & s' & Es & Es' & means & varis & rows & B).
    destruct (get_parameter (ms e) query k0 (Z.of_nat i + 2) piw) as [[mu va] msd] eqn:Eg'.
    destruct B as (Rm & Rv & Er & ->).
    eapply sget_upd with (k' := k) (j := j) in Er as (row & row' & Erow & Ef & Eg).
    assert (D1 : dist_at m1 i k j = sget s k j) by (unfold dist_at; by rewrite Es).
    assert (D2 : dist_at m2 i k j = sget (s <| streams := rows |>) k j)
      by (unfold dist_at; by rewrite Es').
    destruct (decide (k = Z.to_nat k0)) as [Ek|Ek].
    + subst k. rewrite bool_decide_eq_true_2 by lia.
      rewrite bool_decide_eq_false_2 in IH by lia. rewrite Z2Nat.id in * by lia.
      destruct (voice_parameter query k0 (Z.of_nat i + 2) piw) as [Lm Lv]; [lia|].
      rewrite Eg' in Lm, Lv. cbn [fst snd] in Lm, Lv.
      apply row_inv with (j := j) in Ef; [|lia]. rewrite bool_decide_eq_true_2 in Ef by done.
      destruct Ef as (d & d' & Ed & Ed' & G). apply bind_inv_Ok in G as (x & Emu & G).
      apply bind_inv_Ok in G as (y & Eva & G). injection G as <-.
      apply rd_inv in Emu as [_ Emu]. apply rd_inv in Eva as [_ Eva]. rewrite Nat2Z.id in *.
      rewrite Rm in Emu by (unfold zlen in Lm; lia). rewrite Rv in Eva by (unfold zlen in Lv; lia).
      exists d. eexists. split; [rewrite <-IH, D1; unfold sget; by rewrite Erow|].
      split; [by rewrite D2, Eg, Ed'|].
      exists iw, piw, x, y. rewrite Z2Nat.id by lia. rewrite Eg'.
      apply rd_inv in Ep as [_ Ep]. done.
    + rewrite D2, Eg, <-D1. destruct (decide (Z.of_nat k < k0)).
      * rewrite bool_decide_eq_true_2 in IH |- * by lia. done.
      * rewrite bool_decide_eq_false_2 in IH |- * by lia. done.
Qed.

Lemma initParameters_zero (m m' : t F) :
  initParameters m = Ok m' -> forall i k j : nat, Z.of_nat i < nOfStates ->
  Z.of_nat k < nOfStreams -> Z.of_nat j < maxStreamLen ->
  exists d, dist_at m' i k j = Some d /\ mean d = nZ 0 /\ vari d = nZ 0.
Proof.
  intros E i k j Hi Hk Hj. unfold initParameters in E.
  apply (for_up_inv (fun k0 m1 => Z.of_nat k < k0 ->
    exists d, dist_at m1 i k j = Some d /\ mean d = nZ 0 /\ vari d = nZ 0)) in E;
    [exact E|done|lia| |done].
  intros k0 m1 m2 Hk0 IH B Hlt.
  apply (each_state_inv (fun _ s s' => exists rows,
      upd (streams s) k0 (fun row => for_up 0 maxStreamLen (fun j row => upd row j (fun d =>
          Ok (d <| mean := nZ 0 |> <| vari := nZ 0 |>))) row) = Ok rows /\
      s' = s <| streams := rows |>))
    with (i := i) in B as (s & s' & Es & Es' & rows & Er & ->); [| |done].
  2:{ intros i0 s0 s0' _ B0. apply bind_inv_Ok in B0 as (rows & Er & B0).
      injection B0 as <-. by exists rows. }
  eapply sget_upd with (k' := k) (j := j) in Er as (row & row' & Erow & Ef & Eg).
  assert (D2 : dist_at m2 i k j = sget (s <| streams := rows |>) k j)
    by (unfold dist_at; by rewrite Es').
  destruct (decide (k = Z.to_nat k0)) as [Ek|Ek].
  - apply (row_inv (fun _ d => Ok (d <| mean := nZ 0 |> <| vari := nZ 0 |>))) with (j := j) in Ef;
      [|done].
    rewrite bool_decide_eq_true_2 in Ef by done. destruct Ef as (d & d' & _ & Ed' & G).
    injection G as <-. eexists. split; [by rewrite D2, Eg, Ed'|]. done.
  - destruct IH as (d & Ed & ?); [lia|]. exists d. split; [|done].
    rewrite D2, Eg. unfold dist_at in Ed. by rewrite Es in Ed.
Qed.

(** the engines of an interpolation, one after the other, with their weights *)
Fixpoint computeEngines (m : t F) (es : list (Engine F * list F)) (label : Label.t F)
    : Res (t F) :=
  match es with
  | [] => Ok m
  | (e, iw) :: es => m ← computeParameters m e label (Some iw); computeEngines m es label
  end.

(** the weight, mean and variance an engine contributes *)
Definition contributes (query : string) (k i j : nat) (e : Engine F * list F)
    (r : F * F * F) : Prop :=
  let '(iw, mu, va) := r in
  e.2 !! k = Some iw /\ exists piw, parameter_iw (global e.1) !! k = Some piw /\
    (get_parameter (ms e.1) query (Z.of_nat k) (Z.of_nat i + 2) piw).1.1 !! j = Some mu /\
    (get_parameter (ms e.1) query (Z.of_nat k) (Z.of_nat i + 2) piw).1.2 !! j = Some va.

Lemma adds_contributes e iw query k i j (d d' : dist F) :
  adds e query (Some iw) k i j d d' ->
  exists w mu va, contributes query k i j (e, iw) (w, mu, va) /\
    mean d' = (mean d + w * mu)%num /\ vari d' = (vari d + w * w * va)%num.
Proof.
  intros (w & piw & mu & va & Ew & Ep & E). unfold weight in Ew.
  apply rd_inv in Ew as [_ Ew]. rewrite Nat2Z.id in Ew.
  destruct (get_parameter _ _ _ _ _) as [[means varis] msd] eqn:Eg.
  destruct E as (Emu & Eva & ->). exists w, mu, va. split; [|done].
  split; [done|]. exists piw. cbn [fst snd]. by rewrite Eg.
Qed.

End Model.

(** ** Exact arithmetic *)

Section Exact.
Context {F : Type} `{NumField F}.
Add Field model_field : num_field.

Definition nsum (l : list F) : F := foldr nadd (nZ 0) l.
Lemma nsum_cons x (l : list F) : nsum (x :: l) = (x + nsum l)%num.
Proof. done. Qed.

Lemma computeEngines_sum (m m' : t F) es label (i k j : nat) :
  computeEngines m es label = Ok m' ->
  Z.of_nat i < nOfStates -> Z.of_nat k < nOfStreams ->
  Forall (fun e => VoiceLaws (ms e.1) /\ Z.of_nat j < vector_length (ms e.1) (Z.of_nat k)) es ->
  forall d, dist_at m i k j = Some d ->
  exists d' parts, dist_at m' i k j = Some d' /\
    Forall2 (contributes (cstr (Label.getQuery label)) k i j) es parts /\
    mean d' = (mean d + nsum ((fun '(w, mu, _) => w * mu)%num <$> parts))%num /\
    vari d' = (vari d + nsum ((fun '(w, _, va) => w * w * va)%num <$> parts))%num.
Proof.
  revert m. induction es as [|[e iw] es IH]; intros m E Hi Hk Hj d Ed; cbn [computeEngines] in E.
  { injection E as <-. exists d, []. split; [done|]. split; [constructor|].
    cbn. split; ring. }
  apply bind_inv_Ok in E as (m1 & E1 & E). apply Forall_cons in Hj as [[V Hj1] Hj2].
  destruct (computeParameters_adds _ _ _ _ _ V E1 i k j Hi Hk Hj1) as (d0 & d1 & Ed0 & Ed1 & A).
  rewrite Ed in Ed0. injection Ed0 as <-.
  destruct (adds_contributes _ _ _ _ _ _ _ _ A) as (w & mu & va & C & Em & Ev).
  destruct (IH m1 E Hi Hk Hj2 d1 Ed1) as (d' & parts & Ed' & Hp & Em' & Ev').
  exists d', ((w, mu, va) :: parts). split; [done|]. split; [by constructor|].
  rewrite Em', Ev', Em, Ev, !fmap_cons, !nsum_cons. split; ring.
Qed.

(** C28: the interpolation of voices: after initParameters, the engines (whose
    results have the lengths of their vectors) add up to distributions whose mean is the sum of the engines' means weighted by
    [w], and whose variance is the sum of their variances weighted by [w * w],
    in every state, stream and dimension (on exact numbers). *)
Theorem interpolated_distributions (m m0 m' : t F) es label (i k j : nat) :
  initParameters m = Ok m0 -> computeEngines m0 es label = Ok m' ->
  Z.of_nat i < nOfStates -> Z.of_nat k < nOfStreams -> Z.of_nat j < maxStreamLen ->
  Forall (fun e => VoiceLaws (ms e.1) /\ Z.of_nat j < vector_length (ms e.1) (Z.of_nat k)) es ->
  exists d parts, dist_at m' i k j = Some d /\
    Forall2 (contributes (cstr (Label.getQuery label)) k i j) es parts /\
    mean d = nsum ((fun '(w, mu, _) => w * mu)%num <$> parts) /\
    vari d = nsum ((fun '(w, _, va) => w * w * va)%num <$> parts).
Proof.
  intros E0 E Hi Hk Hj Hes.
  destruct (initParameters_zero _ _ E0 i k j Hi Hk Hj) as (d0 & Ed0 & Em0 & Ev0).
  destruct (computeEngines_sum _ _ _ _ i k j E Hi Hk Hes d0 Ed0) as (d & parts & Ed & Hp & Em & Ev).
  exists d, parts. split; [done|]. split; [done|]. rewrite Em, Ev, Em0, Ev0. split; ring.
Qed.

(** ** Interpolation weights *)

Lemma nsum_snoc (l : list F) w : nsum (l ++ [w]) = (nsum l + w)%num.
Proof. induction l as [|a l IH]; simpl; [ring|]. rewrite IH. ring. Qed.

Lemma nsum_insert (l : list F) (i : nat) x y :
  l !! i = Some x -> nsum (<[i := y]> l) = (nsum l - x + y)%num.
Proof.
  revert i. induction l as [|a l IH]; intros [|i] E; simpl in *; try done.
  - injection E as ->. ring.
  - rewrite (IH _ E). ring.
Qed.

Lemma nsum_div (l : list F) t :
  t <> nZ 0 -> nsum ((fun w => w / t)%num <$> l) = (nsum l / t)%num.
Proof.
  intros Ht. induction l as [|a l IH]; [simpl; field; done|].
  rewrite fmap_cons, !nsum_cons, IH. field. done.
Qed.

(** checkInterpolationWeights makes the weights of the engine's models add
    up to 1, unless they add up to 0, in which case it leaves them. *)
Theorem normalised_weights (iw iw' : list F) :
  normalise iw (zlen iw) = Ok iw' ->
  if neqb (nsum iw) (nZ 0) then iw' = iw
  else nsum iw' = nZ 1 /\ iw' = (fun w => w / nsum iw)%num <$> iw.
Proof.
  intros E. unfold normalise in E. apply bind_inv_Ok in E as (temp & Et & E).
  assert (temp = nsum iw) as ->.
  { apply (for_up_inv (fun i t => t = nsum (take (Z.to_nat i) iw))) in Et.
    - rewrite Et, take_ge; [done|unfold zlen; lia].
    - apply zlen_nonneg.
    - done.
    - intros i t t' Hi -> B. apply bind_inv_Ok in B as (w & Ew & B). injection B as <-.
      apply rd_inv in Ew as [_ Ew].
      replace (Z.to_nat (i + 1)) with (S (Z.to_nat i)) by lia.
      by rewrite (take_S_r _ _ _ Ew), nsum_snoc. }
  destruct (neqb (nsum iw) (nZ 0)) eqn:En; cbn [negb] in E; [by injection E|].
  assert (Hn : nsum iw <> nZ 0) by (intros E'; apply neqb_eq in E'; congruence).
  assert (Z0 : forall w, (if negb (neqb w (nZ 0)) then w / nsum iw else w)%num = (w / nsum iw)%num).
  { intros w. destruct (neqb w (nZ 0)) eqn:Ew; [|done]. apply neqb_eq in Ew. subst w.
    cbn [negb]. field. done. }
  apply (for_upd_inv (fun _ x y => y = (x / nsum iw)%num)) in E as (L & _ & Hk).
  - assert (Ei : iw' = (fun w => w / nsum iw)%num <$> iw).
    { apply list_eq. intros k. rewrite list_lookup_fmap. specialize (Hk k).
      case_bool_decide as Hlt.
      - destruct Hk as (x & y & -> & -> & ->). done.
      - rewrite Hk. rewrite lookup_ge_None_2; [done|unfold zlen in Hlt; lia]. }
    split; [|done]. rewrite Ei, nsum_div by done. field. done.
  - apply zlen_nonneg.
  - intros i x y _ B. injection B as <-. apply Z0.
Qed.
End Exact.

(** ** Concrete runs *)

(** a model whose distributions are all the same *)
Definition uniform {F} `{NumOps F} (x : dist F) (durs : list Z) : t F :=
  create ((fun d => mkState d (replicate 3 false)
    (replicate 3 (replicate 105 x)) (replicate 3 (replicate 105 x))) <$> durs).

Definition blank {F} `{NumOps F} : list Z -> t F := uniform (mkDist (nZ 0) (nZ 0) (nZ 0)).

Lemma uniform_shaped {F} `{NumOps F} (x : dist F) (durs : list Z) : Forall shaped (states (uniform x durs)).
Proof.
  apply Forall_fmap, Forall_true. intros d. split; [|split; [|done]].
  all: split; [done|]; intros i row _ [-> _]%lookup_replicate; done.
Qed.

Lemma blank_shaped {F} `{NumOps F} (durs : list Z) : Forall shaped (states (blank durs)).
Proof. apply uniform_shaped. Qed.

Lemma stream_memory_dims {F} `{NumOps F} : dims nOfStreams maxStreamLen (stream_memory (F:=F)).
Proof. split; [done|]. by intros i row _ [-> _]%lookup_replicate. Qed.

Section Runs.
#[local] Existing Instance no_libm.

(** 60 + 60 + 60 + 20 + 0 frames, 10 more asked for each state: 250 frames are
    scaled down to 167 *)
Example scaled_down :
  (fun m : t double => (duration m, durations m)) <$>
    updateDuration (blank [60; 60; 60; 20; 0]) (Some (replicate 5 (nZ 10))) shift
  = Ok (167, [47; 47; 47; 20; 6]).
Proof. vm_compute. reflexivity. Qed.

Lemma updated_durations_fit_witness :
  may (fun e => e = BadConversion \/ e = IntOverflow)
    (updateDuration (blank [60; 60; 60; 20; 0]) (Some (replicate 5 (nZ 10 : double))) shift)
    (fun m' => fits m' /\ exists req,
       requested shift [60; 60; 60; 20; 0] (replicate 5 (nZ 10 : double)) req /\
       durations m' = if zsum req <=? maxDuration then req
                      else (fun d => d * maxDuration / zsum req) <$> req).
Proof.
  exact (updated_durations_fit (blank [60; 60; 60; 20; 0]) (replicate 5 (nZ 10)) shift
           eq_refl eq_refl).
Defined.
End Runs.

Section ExactRuns.
#[local] Existing Instance no_qlibm.

(** a voice whose distributions are constant *)
Definition flat_voice (x : Qc) : Engine Qc :=
  mkEngine (mkGlobal 48000 240 [nZ 0; nZ 0; nZ 0] [nZ 1] [[nZ 1]; [nZ 1]; [nZ 1]]
              [[nZ 1]; [nZ 1]; [nZ 1]])
    (mkVoice (fun _ _ => (replicate 5 x, replicate 5 x))
       (fun _ _ _ _ => ([x], [x], x)) (fun _ _ _ => ([x], [x]))
       (fun _ => false) (fun _ => false) (fun _ => 1) 1 (fun _ => 1) (fun _ => 1)
       (fun _ => 1) (fun _ _ => 0) (fun _ _ => 0) (fun _ _ _ => nZ 1) (fun _ => 0) false (fun _ => Ok true)).

Lemma flat_voice_laws x : VoiceLaws (ms (flat_voice x)).
Proof. by split. Qed.

Definition two_voices : list (Engine Qc * list Qc) :=
  [(flat_voice (nZ 2), replicate 4 (ndec 5 (-1)));
   (flat_voice (nZ 4), replicate 4 (ndec 5 (-1)))].

Definition ex_model : t Qc := blank [1; 1; 1; 1; 1].

Lemma interpolated_distributions_witness :
  exists m0 m', initParameters ex_model = Ok m0 /\
  computeEngines m0 two_voices Label.create = Ok m' /\
  exists d parts, dist_at m' 2 1 0 = Some d /\
    Forall2 (contributes (cstr (Label.getQuery (F:=Qc) Label.create)) 1 2 0) two_voices parts /\
    mean d = nsum ((fun '(w, mu, _) => w * mu)%num <$> parts) /\
    vari d = nsum ((fun '(w, _, va) => w * w * va)%num <$> parts).
Proof.
  destruct (is_ok_inv (m0 ← initParameters ex_model;
                       computeEngines m0 two_voices Label.create)) as [m' E'];
    [vm_compute; reflexivity|].
  apply bind_inv_Ok in E' as (m0 & E0 & E).
  exists m0, m'. split; [exact E0|]. split; [exact E|].
  refine (interpolated_distributions ex_model m0 m' two_voices Label.create 2 1 0
            E0 E eq_refl eq_refl eq_refl _).
  constructor; [|constructor; [|constructor]]; (split; [apply flat_voice_laws|reflexivity]).
Defined.

Lemma normalised_weights_witness :
  exists iw' : list Qc, normalise [nZ 1; nZ 3] 2 = Ok iw' /\
  if neqb (nsum [nZ 1; nZ 3]) (nZ 0) then iw' = [nZ 1; nZ 3]
  else nsum iw' = nZ 1 /\ iw' = (fun w => w / nsum [nZ 1; nZ 3])%num <$> [nZ 1; nZ 3].
Proof.
  destruct (is_ok_inv (normalise (F:=Qc) [nZ 1; nZ 3] 2)) as [iw' E]; [vm_compute; reflexivity|].
  exists iw'. split; [done|]. exact (normalised_weights [nZ 1; nZ 3] iw' E).
Defined.
End ExactRuns.
End Model.
