(* ===== verification/ModelQueue.v ===== *)
(** * The model queue (mage/src/ModelQueue.cpp)

    A queue of models with the memory of the parameter generation.
    [optimizeParameters] lays the distributions of a window of models out frame
    by frame and generates the trajectories; [generate] turns the frames of one
    model into frames of the frame queue. *)

From S2P Require Import Prelude Num Constants Fifo MemQueue Duration Vocoder Label Voice Model Matrix Mlpg.
#[local] Open Scope Z_scope.

Module ModelQueue.
Import Model Duration.

(** ** State *)

(** [ModelQueueMemory]: per stream (and per frame) *)
Record memory (F : Type) := mkMemory {
  mmean : list (list (list F));
  mivar : list (list (list F));
  mpar : list (list (list F));
  mgv_mean : list (list F);
  mgv_vari : list (list F);
  mgv_switch : list (list bool);
  voiced_unvoiced : list bool;
  mg : list (list F);
  mwum : list (list F);
  mwuw : list (list (list F))
}.
Arguments mkMemory {F}. Arguments mmean {F}. Arguments mivar {F}. Arguments mpar {F}.
Arguments mgv_mean {F}. Arguments mgv_vari {F}. Arguments mgv_switch {F}.
Arguments voiced_unvoiced {F}. Arguments mg {F}. Arguments mwum {F}. Arguments mwuw {F}.
#[global] Instance eta_memory F : Settable (memory F) := fun m =>
  mkMemory (mmean m) (mivar m) (mpar m) (mgv_mean m) (mgv_vari m) (mgv_switch m)
    (voiced_unvoiced m) (mg m) (mwum m) (mwuw m).

Record t (F : Type) := mk { queue : MemQueue.t (Model.t F); modelQueueMemory : memory F }.
Arguments mk {F}. Arguments queue {F}. Arguments modelQueueMemory {F}.
#[global] Instance eta_modelqueue F : Settable (t F) := fun q => mk (queue q) (modelQueueMemory q).

Section ModelQueue.
Context {F : Type} `{NumOps F}.
#[local] Open Scope num_scope.
#[local] Open Scope Z_scope.
(** [mlsacheck] of SPTK, in place on the spectral row of a frame: the function
    [MlsaCheck.checked] *)
Variable mlsacheck : list F -> list F.

(** ** Construction *)

Definition zeros (n : Z) : list F := replicate (Z.to_nat n) (nZ 0).
Definition rows (n m : Z) : list (list F) := replicate (Z.to_nat n) (zeros m).
Definition per_stream {A} (x : A) : list A := replicate (Z.to_nat nOfStreams) x.

Definition create_memory : memory F :=
  mkMemory (per_stream (rows maxNumOfFrames maxStreamLen))
    (per_stream (rows maxNumOfFrames maxStreamLen))
    (per_stream (rows maxNumOfFrames maxStreamLen))
    (per_stream (zeros (maxNumOfFrames * maxStreamLen)))
    (per_stream (zeros (maxNumOfFrames * maxStreamLen)))
    (per_stream (replicate (Z.to_nat (maxNumOfFrames * maxStreamLen)) false))
    (replicate (Z.to_nat maxNumOfFrames) false)
    (per_stream (zeros maxNumOfFrames)) (per_stream (zeros maxNumOfFrames))
    (per_stream (rows maxNumOfFrames maxWindowWidth)).

(** the models of the pool are what [new Model[queueLen]] leaves *)
Definition create (d : Model.t F) (queueLen : Z) : t F :=
  mk (MemQueue.create d queueLen) create_memory.

(** ** Generation of frames *)

(** [rawData[( read + w ) % length]] *)
Definition model_at (q : t F) (w : Z) : Res (Model.t F) :=
  ind ← MemQueue.u_mod (wrap_u32 (MemQueue.qread (queue q) + w)) (MemQueue.qlength (queue q));
  rd (MemQueue.rawData (queue q)) ind.

(** the MSD flag of the state's pitch is above the threshold *)
Definition is_voiced (e : Engine F) (i : Z) (s : state F) : Res bool :=
  row ← rd (streams s) i;
  d ← rd row 0;
  th ← rd (msd_threshold (global e)) i;
  Ok (th <? msdFlag d)%num.

(** the frames the backup models have already used, per stream *)
Definition skip_state (e : Engine F) (s : state F) (qStream : list Z) : Res (list Z) :=
  for_up 0 nOfStreams (fun i qs =>
    let advance qs := upd qs i (fun n => Ok (wrap_u32 (n + sduration s))) in
    if negb (i =? lf0StreamIndex) then advance qs
    else v ← is_voiced e i s; if v : bool then advance qs else Ok qs) qStream.

Definition skip_models (e : Engine F) (q : t F) (backup : Z) : Res (list Z) :=
  for_up 0 backup (fun w qs =>
    m ← model_at q w;
    for_up 0 nOfStates (fun s qs => st ← getState m s; skip_state e st qs) qs)
    (replicate (Z.to_nat nOfStreams) 0).

(** the row [i] of a frame *)
Definition fill_stream (e : Engine F) (mem : memory F) (st : state F) (i : Z)
    (r : Vocoder.frame F * list Z) : Res (Vocoder.frame F * list Z) :=
  let '(fr, qs) := r in
  index ← rd qs i;
  trajectory ← rd (mpar mem) i;
  if i =? lf0StreamIndex then
    v ← is_voiced e i st;
    if v : bool then
      x ← rd2 trajectory index 0;
      let f0 := if useMELF0 then (nZ 700 * (nexp (x / nZ 1127) - nZ 1))%num else nexp x in
      l ← wr2 (Vocoder.streams fr) i 0 f0;
      qs ← wr qs i (wrap_u32 (index + 1));
      Ok (Vocoder.mkFrame l true, qs)
    else
      l ← wr2 (Vocoder.streams fr) i 0 (nZ 0);
      Ok (Vocoder.mkFrame l false, qs)
  else
    l ← upd (Vocoder.streams fr) i (fun row =>
      for_up 0 (vector_length (ms e) i) (fun k row =>
        x ← rd2 trajectory index k; wr row k x) row);
    qs ← wr qs i (wrap_u32 (index + 1));
    l ← (if enableMLSAcheck && (i =? mgcStreamIndex)
         then upd l mgcStreamIndex (fun row => Ok (mlsacheck row)) else Ok l);
    Ok (Vocoder.mkFrame l (Vocoder.fvoiced fr), qs).

Definition fqueue : Type := MemQueue.t (Vocoder.frame F).

(** one frame; while the queue is full the code waits *)
Definition generate_frame (e : Engine F) (mem : memory F) (st : state F)
    (r : fqueue * list Z) : Res (fqueue * list Z) :=
  let '(fq, qs) := r in
  if MemQueue.isFull fq then Timeout
  else
    fr ← rd (MemQueue.rawData fq) (MemQueue.next fq);
    '(fr, qs) ← for_up 0 nOfStreams (fill_stream e mem st) (fr, qs);
    fq ← MemQueue.push_next fq fr;
    Ok (fq, qs).

Definition generate (e : Engine F) (q : t F) (fq : fqueue) (backup : Z) : Res fqueue :=
  m ← model_at q backup;
  qs ← skip_models e q backup;
  '(fq, _) ← for_up 0 nOfStates (fun s r =>
    st ← getState m s;
    for_up 0 (wrap_u32 (sduration st)) (fun _ => generate_frame e (modelQueueMemory q) st) r)
    (fq, qs);
  Ok fq.

(** ** Layout of the distributions *)

(** [for every model, for every state, for every frame]: [body] gets the model,
    the state and the number of the frame *)
Definition over_frames {S} (q : t F) (window : Z)
    (body : Model.t F -> state F -> Z -> S -> Res S) (x : S) : Res (Z * S) :=
  for_up 0 window (fun w r =>
    m ← model_at q w;
    for_up 0 nOfStates (fun s r =>
      st ← getState m s;
      for_up 0 (sduration st) (fun _ '(frame, x) =>
        x ← body m st frame x; Ok (frame + 1, x)) r) r) (0, x).

(** the voicing of every frame of the window *)
Definition lay_voicing (e : Engine F) (q : t F) (window : Z) : Res (list bool) :=
  '(_, vu) ← over_frames q window (fun _ st frame vu =>
    v ← is_voiced e lf0StreamIndex st; wr vu frame v)
    (voiced_unvoiced (modelQueueMemory q));
  Ok vu.

Definition total_duration (q : t F) (window : Z) : Res Z :=
  for_up 0 window (fun w acc => m ← model_at q w; i32 (acc + getDuration m)) 0.

(** the frames the window [k] of stream [i] covers around [frame] are all there
    ([voiced]: and voiced) *)
Fixpoint covered (fuel : nat) (vu : option (list bool)) (total frame l r : Z) : Res bool :=
  match fuel with
  | O => Ok true
  | S fuel =>
      if l <=? r then
        if (frame + l <? 0) || (total <=? frame + l) then Ok false
        else
          v ← match vu with Some vu => rd vu (frame + l) | None => Ok true end;
          if v : bool then covered fuel vu total frame (l + 1) r else Ok false
      else Ok true
  end.
Definition not_bound (e : Engine F) (vu : option (list bool)) (total frame i k : Z) : Res bool :=
  let l := l_width (ms e) i k in
  let r := r_width (ms e) i k in
  covered (Z.to_nat (r - l + 1)) vu total frame l r.

(** the entries of one frame, for one window; [row] is the frame's row *)
Definition lay_window (e : Engine F) (m : Model.t F) (st : state F) (i row k : Z) (nb : bool)
    (mem : memory F) : Res (memory F) :=
  check (negb (window_size (ms e) i =? 0)) DivByZero ;;
  let static_length := Z.quot (vector_length (ms e) i) (window_size (ms e) i) in
  st0 ← getState m 0;
  for_up 0 static_length (fun l mem =>
    let j := static_length * k + l in
    d ← rd2 (streams st) i j;
    gv ← rd2 (gv_streams st0) i j;
    mu ← upd (mmean mem) i (fun a => wr2 a row j (mean d));
    iv ← upd (mivar mem) i (fun a =>
      wr2 a row j (if nb || (k =? 0) then Mlpg.HTS_finv (vari d) else nZ 0));
    gm ← wr2 (mgv_mean mem) i j (mean gv);
    gvv ← wr2 (mgv_vari mem) i j (vari gv);
    sw ← (if msd_flag (ms e) i then Ok (mgv_switch mem)
          else s ← rd (gv_switch_streams st0) i; wr2 (mgv_switch mem) i j s);
    Ok (mem <| mmean := mu |> <| mivar := iv |> <| mgv_mean := gm |> <| mgv_vari := gvv |>
            <| mgv_switch := sw |>)) mem.

Definition lay_frame (e : Engine F) (vu : option (list bool)) (total : Z)
    (m : Model.t F) (st : state F) (i row frame : Z) (mem : memory F) : Res (memory F) :=
  for_up 0 (window_size (ms e) i) (fun k mem =>
    nb ← not_bound e vu total frame i k;
    lay_window e m st i row k nb mem) mem.

(** the distributions of stream [i], and the number of its frames; an MSD
    stream has the voiced frames only *)
Definition lay_stream (e : Engine F) (q : t F) (window total i : Z) (mem : memory F)
    : Res (Z * memory F) :=
  if msd_flag (ms e) i then
    let vu := voiced_unvoiced mem in
    '(_, r) ← over_frames q window (fun m st frame '(msd_frame, mem) =>
      v ← rd vu frame;
      if v : bool then
        mem ← lay_frame e (Some vu) total m st i msd_frame frame mem;
        s ← rd (gv_switch_streams st) i;
        sw ← wr2 (mgv_switch mem) i msd_frame s;
        Ok (msd_frame + 1, mem <| mgv_switch := sw |>)
      else Ok (msd_frame, mem)) (0, mem);
    Ok r
  else
    over_frames q window (fun m st frame mem =>
      lay_frame e None total m st i frame frame mem) mem.

(** the stream handed to HTS_PStream_mlpg, and what it leaves *)
Definition pstream (e : Engine F) (mem : memory F) (i n : Z) : Res (Mlpg.t F) :=
  let v := ms e in
  let widths w := (fun k => w i (Z.of_nat k)) <$> seq 0 (Z.to_nat (window_size v i)) in
  check (negb (window_size v i =? 0)) DivByZero ;;
  par ← rd (mpar mem) i; mu ← rd (mmean mem) i; iv ← rd (mivar mem) i;
  g ← rd (mg mem) i; wuw ← rd (mwuw mem) i; wum ← rd (mwum mem) i;
  gm ← rd (mgv_mean mem) i; gvv ← rd (mgv_vari mem) i; sw ← rd (mgv_switch mem) i;
  Ok (Mlpg.mk (Z.quot (vector_length v i) (window_size v i)) n (max_width v i * 2 + 1)
        par mu iv g wuw wum (window_size v i) (widths (l_width v)) (widths (r_width v))
        (coefficient v i) gm gvv sw (if use_gv v i then n else 0)).

Definition store_pstream (p : Mlpg.t F) (i : Z) (mem : memory F) : Res (memory F) :=
  par ← wr (mpar mem) i (Mlpg.par p); g ← wr (mg mem) i (Mlpg.g p);
  wuw ← wr (mwuw mem) i (Mlpg.wuw p); wum ← wr (mwum mem) i (Mlpg.wum p);
  Ok (mem <| mpar := par |> <| mg := g |> <| mwuw := wuw |> <| mwum := wum |>).

Definition optimizeParameters (e : Engine F) (q : t F) (backup lookup : Z) : Res (t F) :=
  let window := backup + lookup + 1 in
  vu ← lay_voicing e q window;
  total ← total_duration q window;
  mem ← for_up 0 nOfStreams (fun i mem =>
    '(n, mem) ← lay_stream e q window total i mem;
    p ← pstream e mem i n;
    p ← Mlpg.HTS_PStream_mlpg p;
    store_pstream p i mem) ((modelQueueMemory q) <| voiced_unvoiced := vu |>);
  Ok (q <| modelQueueMemory := mem |>).

(** ** Frames of a model *)

Context (e : Engine F).
Hypothesis voice_ok : VoiceLaws (ms e).
Hypothesis threshold_ok : zlen (msd_threshold (global e)) = nOfStreams.
Hypothesis mlsacheck_len : forall row, zlen (mlsacheck row) = zlen row.

(** whether a state is voiced *)
Definition voicing (st : state F) : bool :=
  match is_voiced e lf0StreamIndex st with Ok v => v | _ => false end.

Definition state_ok (st : state F) : Prop :=
  0 <= sduration st /\ exists row d, streams st !! Z.to_nat lf0StreamIndex = Some row /\
    row !! O = Some d.

Lemma is_voiced_ok st : state_ok st -> is_voiced e lf0StreamIndex st = Ok (voicing st).
Proof.
  intros (_ & row & d & Er & Ed). unfold voicing, is_voiced.
  rewrite (rd_ok _ _ row), bind_Ok by done. rewrite (rd_ok row 0 d), bind_Ok by done.
  destruct (yields_rd (msd_threshold (global e)) lf0StreamIndex) as (th & -> & _);
    [by rewrite threshold_ok|done].
Qed.

(** the frame counters of the streams, at most [n] *)
Definition counters (n : Z) (qs : list Z) : Prop :=
  zlen qs = nOfStreams /\ Forall (fun c => 0 <= c <= n) qs.

Lemma counters_insert n n' qs (i : nat) c :
  counters n qs -> n <= n' -> 0 <= c <= n' -> counters n' (<[i := c]> qs).
Proof.
  intros [L A] Hn Hc. split; [by rewrite zlen_insert|].
  apply Forall_insert; [|done]. eapply Forall_impl; [done|]. intros. cbn in *. lia.
Qed.

Lemma counters_mono n n' qs : counters n qs -> n <= n' -> counters n' qs.
Proof. intros [L A] ?. split; [done|]. eapply Forall_impl; [done|]. intros. cbn in *. lia. Qed.

(** stream [i] counts at most [n], the streams before it at most [n + d] *)
Definition counting (n d i : Z) (qs : list Z) : Prop :=
  zlen qs = nOfStreams /\ forall (k : nat) c, qs !! k = Some c ->
    0 <= c <= (if Z.of_nat k <? i then n + d else n).

Lemma counting_start n d qs : counters n qs -> counting n d 0 qs.
Proof.
  intros [L A]. split; [done|]. intros k c E. rewrite Forall_lookup in A.
  rewrite (proj2 (Z.ltb_ge _ _)) by lia. by eapply A.
Qed.

Lemma counting_end n d qs : 0 <= d -> counting n d nOfStreams qs -> counters (n + d) qs.
Proof.
  intros Hd [L A]. split; [done|]. apply Forall_lookup_2. intros k c E.
  specialize (A k c E). destruct (Z.of_nat k <? nOfStreams); lia.
Qed.

Lemma counting_keep n d i qs : 0 <= d -> counting n d i qs -> counting n d (i + 1) qs.
Proof.
  intros Hd [L A]. split; [done|]. intros k c E. specialize (A k c E).
  destruct (Z.ltb_spec (Z.of_nat k) i), (Z.ltb_spec (Z.of_nat k) (i + 1)); lia.
Qed.

Lemma counting_rd n d i qs :
  counting n d i qs -> 0 <= i < nOfStreams ->
  exists c, rd qs i = Ok c /\ qs !! Z.to_nat i = Some c /\ 0 <= c <= n.
Proof.
  intros [L A] Hi. destruct (yields_rd qs i) as (c & E & Ec); [lia|].
  exists c. split; [done|]. split; [done|]. specialize (A _ _ Ec).
  by rewrite (proj2 (Z.ltb_ge _ _)) in A by lia.
Qed.

Lemma counting_wr n d i qs c :
  counting n d i qs -> 0 <= i < nOfStreams -> 0 <= d -> 0 <= c <= n + d ->
  yields (wr qs i c) (counting n d (i + 1)).
Proof.
  intros [L A] Hi Hd Hc. rewrite wr_ok by lia. apply yields_ok.
  split; [by rewrite zlen_insert|]. intros k x E.
  destruct (decide (k = Z.to_nat i)) as [->|Hne].
  - rewrite list_lookup_insert_eq in E by (unfold zlen in L; lia). injection E as <-.
    rewrite (proj2 (Z.ltb_lt _ _)) by lia. done.
  - rewrite list_lookup_insert_ne in E by done. specialize (A k x E).
    destruct (Z.ltb_spec (Z.of_nat k) i), (Z.ltb_spec (Z.of_nat k) (i + 1)); lia.
Qed.

Lemma skip_state_counters st n qs :
  state_ok st -> counters n qs -> 0 <= n -> n + sduration st < 2 ^ 32 ->
  yields (skip_state e st qs) (counters (n + sduration st)).
Proof.
  intros Hs Hq Hn Hb. pose proof Hs as [Hd _]. unfold skip_state.
  eapply yields_mono; [|intros qs'; by apply counting_end].
  apply (for_up_yields (counting n (sduration st))); [done|by apply counting_start|].
  intros i qs1 Hi C.
  assert (Adv : yields (upd qs1 i (fun c => Ok (wrap_u32 (c + sduration st))))
                  (counting n (sduration st) (i + 1))).
  { destruct (counting_rd _ _ _ _ C Hi) as (c & E & _ & Hc). unfold upd.
    rewrite E, !bind_Ok. apply counting_wr; try done. rewrite wrap_u32_small; lia. }
  destruct (Z.eqb_spec i lf0StreamIndex) as [->|]; cbn [negb]; [|done].
  rewrite is_voiced_ok, bind_Ok by done. destruct (voicing st); [done|].
  apply yields_ok. by apply counting_keep.
Qed.

(** the memory of the trajectories *)
Definition trajectories (mem : memory F) : Prop :=
  zlen (mpar mem) = nOfStreams /\
  Forall (dims maxNumOfFrames maxStreamLen) (mpar mem).

(** filling the streams of a frame, up to stream [i] *)
Definition filling (v : bool) (n i : Z) (r : Vocoder.frame F * list Z) : Prop :=
  Vocoder.frame_dims (Vocoder.streams r.1) /\ counting n 1 i r.2 /\
  (lf0StreamIndex < i -> Vocoder.fvoiced r.1 = v).

Lemma frame_row (l : list (list F)) i :
  Vocoder.frame_dims l -> 0 <= i < nOfStreams ->
  exists row, rd l i = Ok row /\ (zlen row = maxStreamLen) /\
    forall row' : list F, zlen row' = maxStreamLen ->
      yields (wr l i row') Vocoder.frame_dims.
Proof.
  intros [L R] Hi. destruct (yields_rd l i) as (row & E & Er); [lia|].
  exists row. split; [done|]. rewrite Forall_lookup in R. split; [by eapply R|].
  intros row' L'. rewrite wr_ok by lia. apply yields_ok. split; [by rewrite zlen_insert|].
  apply Forall_insert; [|done]. by apply Forall_lookup.
Qed.

Lemma frame_wr2 (l : list (list F)) i j x :
  Vocoder.frame_dims l -> 0 <= i < nOfStreams -> 0 <= j < maxStreamLen ->
  yields (wr2 l i j x) Vocoder.frame_dims.
Proof.
  intros Hl Hi Hj. destruct (frame_row _ _ Hl Hi) as (row & E & L & W).
  unfold wr2, upd2. unfold upd at 1. rewrite E, bind_Ok. unfold upd.
  destruct (yields_rd row j) as (y & -> & _); [lia|]. rewrite !bind_Ok, wr_ok, bind_Ok by lia.
  apply W. by rewrite zlen_insert.
Qed.

Lemma fill_stream_spec mem st i n r :
  trajectories mem -> state_ok st -> 0 <= i < nOfStreams -> 0 <= n < maxNumOfFrames ->
  filling (voicing st) n i r ->
  yields (fill_stream e mem st i r) (filling (voicing st) n (i + 1)).
Proof.
  intros [Lm Dm] Hs Hi Hn (Hf & Hc & Hv). destruct r as [fr qs]. cbn [fst snd] in *.
  unfold fill_stream. destruct (counting_rd _ _ _ _ Hc Hi) as (c & E & _ & Hcn).
  rewrite E, bind_Ok.
  destruct (yields_rd (mpar mem) i) as (tr & Et & Etr); [lia|]. rewrite Et, bind_Ok.
  assert (Dt : dims maxNumOfFrames maxStreamLen tr)
    by (rewrite Forall_lookup in Dm; by eapply Dm).
  assert (Hw : wrap_u32 (c + 1) = c + 1)
    by (apply wrap_u32_small; change maxNumOfFrames with 512 in Hn; lia).
  destruct (Z.eqb_spec i lf0StreamIndex) as [->|Hne].
  - rewrite is_voiced_ok, bind_Ok by done. destruct (voicing st) eqn:Ev.
    + rewrite (Mlpg.rd2_ent maxNumOfFrames maxStreamLen), bind_Ok by (done || lia).
      eapply yields_bind; [by apply frame_wr2|]. intros l Hl. rewrite Hw.
      eapply yields_bind; [by apply (counting_wr n 1); try done; lia|].
      intros qs' Hq. by apply yields_ok.
    + eapply yields_bind; [by apply frame_wr2|]. intros l Hl. apply yields_ok.
      split; [done|]. split; [by apply counting_keep|done].
  - destruct (frame_row _ _ Hf Hi) as (row & Er & Lr & W).
    destruct (voice_vector i Hi) as [Hv0 Hvl].
    assert (Loop : yields (for_up 0 (vector_length (ms e) i) (fun k row =>
        x ← rd2 tr c k; wr row k x) row) (fun row => zlen row = maxStreamLen)).
    { apply (for_up_yields (fun _ row => zlen row = maxStreamLen)); [lia|done|].
      intros k row1 Hk L1. rewrite (Mlpg.rd2_ent maxNumOfFrames maxStreamLen), bind_Ok by (done || lia).
      rewrite wr_ok by lia. apply yields_ok. by rewrite zlen_insert. }
    destruct Loop as (row' & El & L').
    eapply yields_bind; [unfold upd; rewrite Er, bind_Ok, El, bind_Ok; by apply W|].
    intros l Hl. rewrite Hw. eapply yields_bind; [by apply (counting_wr n 1); try done; lia|].
    intros qs' Hq. eapply (yields_bind _ _ Vocoder.frame_dims).
    { destruct (_ && _); [|by apply yields_ok].
      destruct (frame_row l mgcStreamIndex Hl) as (row2 & E2 & L2 & W2); [done|].
      unfold upd. rewrite E2, !bind_Ok. apply W2. by rewrite mlsacheck_len. }
    intros l' Hl'. apply yields_ok. split; [done|]. split; [done|].
    intros Hlt. apply Hv. lia.
Qed.

(** the frame queue: well formed, with frames of the right dimensions *)
Definition fq_ok (fq : fqueue) : Prop :=
  MemQueue.wf fq /\
  Forall (fun fr => Vocoder.frame_dims (Vocoder.streams fr)) (MemQueue.rawData fq).

Lemma fq_push fq fr :
  fq_ok fq -> MemQueue.nOfItems fq < MemQueue.qlength fq ->
  Vocoder.frame_dims (Vocoder.streams fr) ->
  yields (MemQueue.push_next fq fr) (fun fq' => fq_ok fq' /\
    MemQueue.qlength fq' = MemQueue.qlength fq /\
    MemQueue.contents fq' = MemQueue.contents fq ++ [fr]).
Proof.
  intros [W A] Hroom Hfr. unfold MemQueue.push_next.
  eapply yields_bind; [by apply MemQueue.set_next_spec|].
  intros q1 (-> & W1 & C1 & R1). set (q1 := fq <| MemQueue.rawData := _ |>) in *.
  eapply yields_mono; [by apply (MemQueue.push_filled q1 fr)|].
  intros q2 (W2 & L2 & _ & _ & R2 & C2). rewrite C2, C1.
  split; [|done]. split; [done|]. rewrite R2. by apply Forall_insert.
Qed.

(** what [generate] adds to a queue: frames with the voicing [vs] *)
Definition extends (fq : fqueue) (n : Z) (vs : list bool) (r : fqueue * list Z) : Prop :=
  fq_ok r.1 /\ MemQueue.qlength r.1 = MemQueue.qlength fq /\
  counters (n + zlen vs) r.2 /\
  exists frs, MemQueue.contents r.1 = MemQueue.contents fq ++ frs /\
    Vocoder.fvoiced <$> frs = vs.

Lemma generate_frame_spec mem st fq n vs r :
  trajectories mem -> state_ok st -> 0 <= n -> n + zlen vs < maxNumOfFrames ->
  extends fq n vs r -> zlen (MemQueue.contents fq) + zlen vs < MemQueue.qlength fq ->
  yields (generate_frame e mem st r) (extends fq n (vs ++ [voicing st])).
Proof.
  intros Hm Hs Hn Hb (Q & L & C & frs & Ec & Ev) Hroom. destruct r as [fq1 qs]. cbn [fst snd] in *.
  pose proof (zlen_nonneg vs) as Hvs.
  pose proof Q as [W A]. pose proof (MemQueue.zlen_contents fq1 W) as N.
  rewrite Ec, zlen_app in N.
  assert (zlen frs = zlen vs) as Lf by (unfold zlen; by rewrite <-Ev, length_fmap).
  unfold generate_frame. destruct (MemQueue.isFull fq1) eqn:F1.
  { apply (MemQueue.isFull_spec fq1 W) in F1. rewrite Ec, zlen_app in F1. lia. }
  destruct (yields_rd (MemQueue.rawData fq1) (MemQueue.next fq1)) as (fr & E & Efr).
  { pose proof (MemQueue.wf_write_lt _ W). destruct W. unfold MemQueue.next. lia. }
  rewrite E, bind_Ok.
  eapply yields_bind.
  { apply (for_up_yields (filling (voicing st) (n + zlen vs))); [done| |].
    - split; [|split; [by apply counting_start|done]]. rewrite Forall_lookup in A. by eapply A.
    - intros. apply fill_stream_spec; (done || lia). }
  intros [fr' qs'] (Hf & Hc & Hv). cbn [fst snd] in *.
  eapply yields_bind; [apply (fq_push fq1 fr'); [done|lia|done]|].
  intros fq2 (Q2 & L2 & C2). apply yields_ok. split; [done|]. split; [cbn; lia|].
  split; [rewrite zlen_app; cbn; rewrite Z.add_assoc; by apply counting_end|].
  exists (frs ++ [fr']). cbn. rewrite C2, Ec, app_assoc, fmap_app, Ev. split; [done|].
  cbn. by rewrite Hv.
Qed.

(** the models the queue may hold *)
Definition model_ok (m : Model.t F) : Prop := fits m /\ Forall state_ok (states m).

Lemma model_at_contents q w m :
  MemQueue.wf (queue q) -> 0 <= w ->
  MemQueue.contents (queue q) !! Z.to_nat w = Some m -> model_at q w = Ok m.
Proof.
  intros W Hw E. rewrite MemQueue.contents_lookup in E by done.
  case_bool_decide as Hb; [|done]. rewrite Z2Nat.id in E, Hb by done.
  pose proof W as [Hl _ Hr Hc _]. unfold model_at.
  rewrite wrap_u32_small, MemQueue.u_mod_ok, bind_Ok by lia.
  apply rd_ok; [|done]. apply Z.mod_pos_bound. lia.
Qed.

Lemma getState_ok m s : model_ok m -> 0 <= s < nOfStates ->
  exists st, getState m s = Ok st /\ states m !! Z.to_nat s = Some st /\ state_ok st.
Proof.
  intros [(L & _) A] Hs. destruct (yields_rd (states m) s) as (st & E & Est); [lia|].
  exists st. split; [done|]. split; [done|]. rewrite Forall_lookup in A. by eapply A.
Qed.

(** the durations of the states before [s] *)
Definition before (m : Model.t F) (s : Z) : Z := zsum (take (Z.to_nat s) (durations m)).

Lemma before_S m s st :
  0 <= s -> states m !! Z.to_nat s = Some st -> before m (s + 1) = before m s + sduration st.
Proof.
  intros Hs E. unfold before. replace (Z.to_nat (s + 1)) with (S (Z.to_nat s)) by lia.
  apply zsum_take_S. unfold durations. by rewrite list_lookup_fmap, E.
Qed.

Lemma before_all m : model_ok m -> before m nOfStates = duration m.
Proof.
  intros [(L & _ & E & _) _]. unfold before. rewrite take_ge; [done|].
  unfold durations. rewrite length_fmap. unfold zlen in L. lia.
Qed.

Lemma before_bounds m s : model_ok m -> 0 <= before m s <= duration m.
Proof.
  intros [(L & P & E & _) _]. unfold before. rewrite <-E.
  rewrite <-(take_drop (Z.to_nat s) (durations m)) at 3. rewrite zsum_app.
  pose proof (zsum_nonneg _ (Forall_take _ (Z.to_nat s) _ P)).
  pose proof (zsum_nonneg _ (Forall_drop _ (Z.to_nat s) _ P)). lia.
Qed.

Lemma skip_models_counters q backup :
  MemQueue.wf (queue q) -> 0 <= backup <= nOfBackup ->
  backup < MemQueue.nOfItems (queue q) ->
  Forall model_ok (MemQueue.contents (queue q)) ->
  yields (skip_models e q backup) (counters (backup * maxDuration)).
Proof.
  intros W Hb Hn A. unfold skip_models.
  apply (for_up_yields (fun w => counters (w * maxDuration))); [lia| |].
  { split; [done|]. apply Forall_replicate. lia. }
  intros w qs Hw Hq. destruct (lookup_lt_is_Some_2 (MemQueue.contents (queue q)) (Z.to_nat w))
    as [m Em].
  { pose proof (MemQueue.zlen_contents _ W). unfold zlen in *. lia. }
  rewrite (model_at_contents _ _ m), bind_Ok by (done || lia).
  assert (Hm : model_ok m) by (rewrite Forall_lookup in A; by eapply A).
  rewrite Model.maxDuration_eq in *. change nOfBackup with 2 in Hb.
  eapply yields_mono.
  { apply (for_up_yields (fun s => counters (w * 170 + before m s))); [done| |].
    - by rewrite Z.add_0_r.
    - intros s qs1 Hs C. destruct (getState_ok m s Hm Hs) as (st & -> & Es & Hst).
      rewrite bind_Ok, (before_S _ _ st), Z.add_assoc by (done || lia).
      pose proof (before_bounds m s Hm). pose proof (before_bounds m (s + 1) Hm) as B.
      rewrite (before_S _ _ st) in B by (done || lia).
      destruct Hm as [(_ & _ & _ & D) _]. rewrite Model.maxDuration_eq in D.
      apply skip_state_counters; (done || lia). }
  intros qs1 C. rewrite before_all in C by done. eapply counters_mono; [done|].
  destruct Hm as [(_ & _ & _ & D) _]. rewrite Model.maxDuration_eq in D. lia.
Qed.

(** the voicing of the frames of a model: every state as long as its duration *)
Definition voicings (sts : list (state F)) : list bool :=
  concat ((fun st => replicate (Z.to_nat (sduration st)) (voicing st)) <$> sts).

Lemma voicings_length m s : model_ok m -> 0 <= s <= nOfStates ->
  zlen (voicings (take (Z.to_nat s) (states m))) = before m s.
Proof.
  intros [(L & P & _) _] Hs. unfold before, durations, voicings.
  rewrite <-fmap_take. unfold durations in P.
  rewrite Forall_fmap in P. pose proof (Forall_take _ (Z.to_nat s) _ P) as Pt.
  induction Pt as [|st l Hst _ IH]; [done|].
  rewrite !fmap_cons. cbn [concat]. rewrite zlen_app, zlen_replicate, IH.
  change (zsum (sduration st :: (sduration <$> l)))
    with (sduration st + zsum (sduration <$> l)). cbn in Hst. lia.
Qed.

Lemma generate_state_spec mem st fq n vs r :
  trajectories mem -> state_ok st -> 0 <= n ->
  n + zlen vs + sduration st < maxNumOfFrames -> extends fq n vs r ->
  zlen (MemQueue.contents fq) + zlen vs + sduration st <= MemQueue.qlength fq ->
  yields (for_up 0 (wrap_u32 (sduration st)) (fun _ => generate_frame e mem st) r)
    (extends fq n (vs ++ replicate (Z.to_nat (sduration st)) (voicing st))).
Proof.
  intros Hm Hs Hn Hb X Hroom. pose proof Hs as [Hd _]. pose proof (zlen_nonneg vs).
  rewrite wrap_u32_small by (change maxNumOfFrames with 512 in Hb; lia).
  apply (for_up_yields (fun k => extends fq n (vs ++ replicate (Z.to_nat k) (voicing st))));
    [done|by rewrite app_nil_r|].
  intros k r1 Hk X1. replace (Z.to_nat (k + 1)) with (S (Z.to_nat k)) by lia.
  rewrite replicate_S_end, app_assoc.
  apply generate_frame_spec; try done; rewrite zlen_app, zlen_replicate; lia.
Qed.

(** what [generate] does to the frame queue, when it returns, whatever is in the
    memory *)
Definition grew (fq : fqueue) (n : Z) (fq' : fqueue) : Prop :=
  MemQueue.wf fq' /\ MemQueue.qlength fq' = MemQueue.qlength fq /\
  exists frs, MemQueue.contents fq' = MemQueue.contents fq ++ frs /\ zlen frs = n.

Lemma generate_frame_inv mem st r r' :
  generate_frame e mem st r = Ok r' -> MemQueue.wf r.1 -> grew r.1 1 r'.1.
Proof.
  destruct r as [fq qs], r' as [fq' qs']. unfold generate_frame. intros E W. cbn [fst] in *.
  destruct (MemQueue.isFull fq) eqn:Ef; [done|]. apply bind_inv_Ok in E as (fr & _ & E).
  apply bind_inv_Ok in E as ([fr' qs1] & _ & E). apply bind_inv_Ok in E as (fq1 & E1 & E).
  injection E as -> _.
  pose proof (push_inv (Q:=MemQueue.t (Vocoder.frame F)) fq fr' fq') as P.
  destruct (P W Ef E1) as (W' & L & C). cbn in W', L, C.
  split; [done|]. split; [done|]. by exists [fr'].
Qed.

Lemma grew_trans fq n1 fq1 n2 fq2 : grew fq n1 fq1 -> grew fq1 n2 fq2 -> grew fq (n1 + n2) fq2.
Proof.
  intros (W1 & L1 & f1 & C1 & N1) (W2 & L2 & f2 & C2 & N2). split; [done|].
  split; [congruence|]. exists (f1 ++ f2). rewrite C2, C1, app_assoc, zlen_app. split; [done|lia].
Qed.

Lemma generate_state_inv mem st n r r' :
  for_up 0 n (fun _ => generate_frame e mem st) r = Ok r' -> 0 <= n ->
  MemQueue.wf r.1 -> grew r.1 n r'.1.
Proof.
  intros E Hn W. apply (for_up_inv (fun k x => grew r.1 k x.1)) in E; [done|done| |].
  - split; [done|]. split; [done|]. exists []. by rewrite app_nil_r.
  - intros k x y Hk G B. pose proof G as [W1 _]. apply generate_frame_inv in B; [|done].
    by eapply grew_trans.
Qed.

Lemma generate_inv q fq backup m fq' :
  generate e q fq backup = Ok fq' -> model_at q backup = Ok m -> MemQueue.wf fq ->
  fits m -> grew fq (duration m) fq'.
Proof.
  unfold generate. intros E Em W (L & P & S & D). rewrite Em, bind_Ok in E.
  apply bind_inv_Ok in E as (qs & _ & E). apply bind_inv_Ok in E as ([fq1 qs1] & E & E').
  injection E' as <-.
  apply (for_up_inv (fun s x => grew fq (zsum (take (Z.to_nat s) (durations m))) x.1)) in E.
  - rewrite take_ge in E; [by rewrite S in E|].
    unfold durations. rewrite length_fmap. unfold zlen in L. lia.
  - done.
  - split; [done|]. split; [done|]. exists []. by rewrite app_nil_r.
  - intros s x y Hs G B. apply bind_inv_Ok in B as (st & Est & B).
    apply rd_inv in Est as [_ Est].
    assert (Ed : durations m !! Z.to_nat s = Some (sduration st))
      by (unfold durations; by rewrite list_lookup_fmap, Est).
    replace (Z.to_nat (s + 1)) with (Datatypes.S (Z.to_nat s)) by lia.
    rewrite (zsum_take_S _ _ (sduration st)) by done.
    assert (0 <= sduration st <= duration m).
    { rewrite <-S. by eapply zsum_elem. }
    rewrite wrap_u32_small in B by (rewrite Model.maxDuration_eq in D; lia).
    pose proof G as [W1 _]. apply generate_state_inv in B; [|lia|done].
    by eapply grew_trans.
Qed.

(** whatever the models last, the queue stays in order *)
Lemma generate_wf q fq backup fq' :
  generate e q fq backup = Ok fq' -> MemQueue.wf fq ->
  MemQueue.wf fq' /\ MemQueue.qlength fq' = MemQueue.qlength fq.
Proof.
  unfold generate. intros E W. apply bind_inv_Ok in E as (m & _ & E).
  apply bind_inv_Ok in E as (qs & _ & E). apply bind_inv_Ok in E as ([fq1 qs1] & E & E').
  injection E' as <-.
  apply (for_up_inv (fun _ x => MemQueue.wf x.1 /\ MemQueue.qlength x.1 = MemQueue.qlength fq)) in E;
    [done|done|done|].
  intros s x y _ [W1 L1] B. apply bind_inv_Ok in B as (st & _ & B).
  apply generate_state_inv in B as (W2 & L2 & _); [|apply Z.mod_pos_bound; lia|done].
  split; [exact W2|]. cbn beta in *. rewrite <-L1. exact L2.
Qed.

Lemma generate_yields q fq backup m :
  MemQueue.wf (queue q) -> trajectories (modelQueueMemory q) ->
  Forall model_ok (MemQueue.contents (queue q)) -> 0 <= backup <= nOfBackup ->
  MemQueue.contents (queue q) !! Z.to_nat backup = Some m ->
  fq_ok fq -> zlen (MemQueue.contents fq) + duration m <= MemQueue.qlength fq ->
  yields (generate e q fq backup) (fun fq' => fq_ok fq' /\
    MemQueue.qlength fq' = MemQueue.qlength fq /\
    exists frs, MemQueue.contents fq' = MemQueue.contents fq ++ frs /\
      zlen frs = duration m /\ Vocoder.fvoiced <$> frs = voicings (states m)).
Proof.
  intros W Ht A Hb Em Hq Hroom. unfold generate.
  rewrite (model_at_contents _ _ m), bind_Ok by (done || lia).
  assert (Hn : backup < MemQueue.nOfItems (queue q)).
  { rewrite <-(MemQueue.zlen_contents _ W). apply lookup_lt_Some in Em. unfold zlen. lia. }
  assert (Hm : model_ok m) by (rewrite Forall_lookup in A; by eapply A).
  eapply yields_bind; [by apply skip_models_counters|]. intros qs Hqs.
  eapply yields_bind.
  { apply (for_up_yields (fun s => extends fq (backup * maxDuration)
      (voicings (take (Z.to_nat s) (states m))))); [done| |].
    - split; [done|]. split; [done|]. split; [by rewrite Z.add_0_r|].
      exists []. by rewrite app_nil_r.
    - intros s r Hs X. destruct (getState_ok m s Hm Hs) as (st & -> & Es & Hst).
      rewrite bind_Ok. replace (Z.to_nat (s + 1)) with (S (Z.to_nat s)) by lia.
      rewrite (take_S_r _ _ _ Es). unfold voicings. rewrite fmap_app, concat_app.
      cbn [fmap list_fmap concat]. rewrite app_nil_r.
      pose proof (before_bounds m (s + 1) Hm) as B. rewrite (before_S _ _ st) in B by (done || lia).
      pose proof (voicings_length m s Hm ltac:(lia)) as Lv. unfold voicings in Lv.
      destruct Hm as [(_ & _ & _ & D) _]. rewrite Model.maxDuration_eq in *.
      change nOfBackup with 2 in Hb. change maxNumOfFrames with 512.
      apply generate_state_spec; try done; rewrite ?Lv; change maxNumOfFrames with 512; lia. }
  intros [fq' qs'] (Q & L & _ & frs & Ec & Ev). cbn [fst snd] in *. apply yields_ok.
  split; [done|]. split; [done|]. exists frs. split; [done|].
  assert (Et : take (Z.to_nat nOfStates) (states m) = states m).
  { apply take_ge. destruct Hm as [(Lm & _) _]. unfold zlen in Lm. lia. }
  rewrite Et in Ev. split; [|done].
  rewrite <-before_all, <-voicings_length, Et, <-Ev by done. unfold zlen. by rewrite length_fmap.
Qed.

(** C15: generation.  When the model queue holds models whose durations are
    bounded and the frame queue has room for the head model, [generate]
    returns without leaving any array, and appends to the frame queue exactly
    one frame per frame of the model, in the order of its states, each with the
    voicing of its state. *)
Theorem generate_frames q fq backup m :
  MemQueue.wf (queue q) -> trajectories (modelQueueMemory q) ->
  Forall model_ok (MemQueue.contents (queue q)) -> 0 <= backup <= nOfBackup ->
  MemQueue.contents (queue q) !! Z.to_nat backup = Some m ->
  fq_ok fq -> zlen (MemQueue.contents fq) + duration m <= MemQueue.qlength fq ->
  yields (generate e q fq backup) (fun fq' => fq_ok fq' /\
    MemQueue.qlength fq' = MemQueue.qlength fq /\
    exists frs, MemQueue.contents fq' = MemQueue.contents fq ++ frs /\
      zlen frs = duration m /\ Vocoder.fvoiced <$> frs = voicings (states m)).
Proof. apply generate_yields. Qed.

(** ** The memories of the constructors *)

Lemma create_trajectories : trajectories create_memory.
Proof.
  split; [done|]. apply Forall_replicate. split; [done|]. intros i row _ E.
  apply lookup_replicate in E as [-> _]. unfold zeros. by rewrite zlen_replicate.
Qed.

Lemma create_fq_ok (fr : Vocoder.frame F) n :
  Vocoder.frame_dims (Vocoder.streams fr) -> 0 < n < 2 ^ 31 -> fq_ok (MemQueue.create fr n).
Proof. intros. split; [by apply MemQueue.create_wf|]. by apply Forall_replicate. Qed.
End ModelQueue.

(** ** Concrete runs *)

Section Runs.
#[local] Existing Instance no_libm.

Definition ex_voice : Engine double :=
  mkEngine (mkGlobal 48000 240 [nZ 0; nZ (-1); nZ 0] [nZ 1] [[nZ 1]; [nZ 1]; [nZ 1]]
              [[nZ 1]; [nZ 1]; [nZ 1]])
    (mkVoice (fun _ _ => (replicate 5 (nZ 1), replicate 5 (nZ 1)))
       (fun _ _ _ _ => ([nZ 1], [nZ 1], nZ 1)) (fun _ _ _ => ([nZ 1], [nZ 1]))
       (fun _ => false) (fun _ => false) (fun _ => 1) 1 (fun _ => 1) (fun _ => 1)
       (fun _ => 1) (fun _ _ => 0) (fun _ _ => 0) (fun _ _ _ => nZ 1) (fun _ => 0) false (fun _ => Ok true)).

Lemma ex_voice_laws : VoiceLaws (ms ex_voice).
Proof. by split. Qed.

Definition ex_model (durs : list Z) : Model.t double := setDuration (blank durs) (zsum durs).

Lemma uniform_ok {F} `{NumOps F} (x : dist F) durs :
  zlen durs = nOfStates -> forallb (Z.leb 0) durs = true -> zsum durs <= maxDuration ->
  model_ok (setDuration (uniform x durs) (zsum durs)).
Proof.
  intros L P D. apply Is_true_true in P. apply forallb_True in P.
  assert (Forall (fun d => 0 <= d) durs) as P'.
  { eapply Forall_impl; [done|]. intros d Hd. by apply Is_true_true, Z.leb_le in Hd. }
  assert (E : durations (setDuration (uniform x durs) (zsum durs)) = durs).
  { unfold durations, setDuration, uniform, create. cbn.
    rewrite <-list_fmap_compose. apply list_fmap_id. }
  split.
  - split; [cbn; unfold zlen; by rewrite length_fmap|]. by rewrite E.
  - cbn. apply Forall_fmap. eapply Forall_impl; [exact P'|]. intros d Hd. split; [done|].
    by do 2 eexists.
Qed.

Lemma ex_model_ok durs :
  zlen durs = nOfStates -> forallb (Z.leb 0) durs = true -> zsum durs <= maxDuration ->
  model_ok (ex_model durs).
Proof. apply uniform_ok. Qed.

Definition ex_queue : t double :=
  mk (MemQueue.mk 2 4 None 3 1 [ex_model [1; 0; 2; 0; 1]; blank []; blank []; ex_model [3; 1; 1; 1; 1]])
    create_memory.
Definition ex_frame : Vocoder.frame double :=
  Vocoder.mkFrame (replicate 3 (replicate 105 (nZ 0))) false.

Lemma generate_frames_witness :
  yields (generate (fun row => row) ex_voice ex_queue (MemQueue.create ex_frame 200) 1)
    (fun fq' => fq_ok fq' /\ MemQueue.qlength fq' = 200 /\
      exists frs, MemQueue.contents fq' = [] ++ frs /\ zlen frs = 4 /\
        Vocoder.fvoiced <$> frs = voicings ex_voice (states (ex_model [1; 0; 2; 0; 1]))).
Proof.
  apply (generate_frames (fun row => row) ex_voice ex_voice_laws eq_refl (fun _ => eq_refl)
           ex_queue (MemQueue.create ex_frame 200) 1 (ex_model [1; 0; 2; 0; 1])).
  - by split.
  - apply create_trajectories.
  - apply Forall_cons. split; [by apply ex_model_ok|]. apply Forall_singleton.
    by apply ex_model_ok.
  - by split.
  - reflexivity.
  - by apply create_fq_ok; repeat constructor.
  - done.
Defined.
End Runs.
End ModelQueue.
