(* ===== verification/Layout.v ===== *)
(** * The layout of the distributions (ModelQueue::optimizeParameters)

    What [ModelQueue.optimizeParameters] computes: the models of the window make
    a timeline of frames; the rows of the matrices of a stream are the frames of
    the timeline (the voiced ones, for an MSD stream), and the trajectories are
    what the parameter generation makes of these matrices.  The file also shows
    that none of it leaves an array. *)

From S2P Require Import Prelude Num Constants Fifo MemQueue Duration Voice Matrix Model Mlpg.
From S2P Require Import ModelQueue.
#[local] Open Scope Z_scope.

Module Layout.
Import Model ModelQueue Duration.

(** ** The timeline *)

Section Timeline.
Context {F : Type} `{NumOps F}.

(** every state of a model, as often as it has frames *)
Definition frames_of (m : Model.t F) : list (Model.t F * state F) :=
  concat ((fun st => replicate (Z.to_nat (sduration st)) (m, st)) <$> states m).

(** the frames of the first [window] models of the queue *)
Definition timeline (q : ModelQueue.t F) (window : Z) : list (Model.t F * state F) :=
  concat (frames_of <$> take (Z.to_nat window) (MemQueue.contents (queue q))).

(** a model as the synthesiser builds it *)
Definition built (m : Model.t F) : Prop := fits m /\ Forall shaped (states m).

Lemma built_model_ok m : built m -> model_ok m.
Proof.
  intros [Hf Hs]. split; [done|]. rewrite Forall_lookup in Hs |- *. intros i st E.
  destruct (Hs i st E) as (D & _ & _). destruct Hf as (_ & P & _).
  rewrite Forall_lookup in P. split.
  - apply (P i). unfold durations. by rewrite list_lookup_fmap, E.
  - destruct (yields_row _ _ _ lf0StreamIndex D) as (row & _ & Er & L); [done|].
    destruct (yields_rd row 0) as (d & _ & Ed); [change maxStreamLen with 105 in L; lia|].
    by exists row, d.
Qed.

Lemma frames_of_length m : fits m -> zlen (frames_of m) = duration m.
Proof.
  intros (_ & P & <- & _). unfold frames_of, durations in *. rewrite Forall_fmap in P.
  induction P as [|st l Hst _ IH]; [done|]. rewrite !fmap_cons. cbn [concat].
  rewrite zlen_app, zlen_replicate, IH. cbn in Hst.
  change (zsum (sduration st :: (sduration <$> l))) with (sduration st + zsum (sduration <$> l)).
  lia.
Qed.

Lemma lookup_run {A} (l1 l2 : list A) d x (c : nat) :
  (c < d)%nat -> (l1 ++ replicate d x ++ l2) !! (List.length l1 + c)%nat = Some x.
Proof.
  intros Hc. rewrite lookup_app_r, Nat.add_comm, Nat.add_sub by lia.
  rewrite lookup_app_l by by rewrite length_replicate. by apply lookup_replicate_2.
Qed.

(** the queue a window is taken from *)
Definition window_ok (q : ModelQueue.t F) (window : Z) : Prop :=
  MemQueue.wf (queue q) /\ 0 <= window <= MemQueue.nOfItems (queue q) /\
  Forall built (MemQueue.contents (queue q)).

Lemma window_model q window w :
  window_ok q window -> 0 <= w < window ->
  exists m rest, model_at q w = Ok m /\ built m /\
    timeline q (w + 1) = timeline q w ++ frames_of m /\
    timeline q window = timeline q w ++ frames_of m ++ rest.
Proof.
  intros (W & Hn & A) Hw.
  destruct (lookup_lt_is_Some_2 (MemQueue.contents (queue q)) (Z.to_nat w)) as [m Em].
  { pose proof (MemQueue.zlen_contents _ W). unfold zlen in *. lia. }
  assert (ES : timeline q (w + 1) = timeline q w ++ frames_of m).
  { unfold timeline. replace (Z.to_nat (w + 1)) with (S (Z.to_nat w)) by lia.
    rewrite (take_S_r _ _ _ Em), fmap_app, concat_app. cbn. by rewrite app_nil_r. }
  assert (Er : exists rest, timeline q window = timeline q (w + 1) ++ rest).
  { unfold timeline. exists (concat (frames_of <$>
      drop (Z.to_nat (w + 1)) (take (Z.to_nat window) (MemQueue.contents (queue q))))).
    rewrite <-concat_app, <-fmap_app. do 2 f_equal.
    replace (take (Z.to_nat (w + 1)) (MemQueue.contents (queue q))) with
      (take (Z.to_nat (w + 1)) (take (Z.to_nat window) (MemQueue.contents (queue q))))
      by (rewrite take_take; f_equal; lia).
    by rewrite take_drop. }
  destruct Er as [rest Er]. exists m, rest.
  split; [apply model_at_contents; (done || lia)|].
  split; [rewrite Forall_lookup in A; exact (A _ _ Em)|]. split; [done|].
  by rewrite Er, ES, app_assoc.
Qed.

Lemma timeline_length q window w :
  window_ok q window -> 0 <= w <= window -> zlen (timeline q w) <= w * maxDuration.
Proof.
  intros Hq Hw. rewrite <-(Z2Nat.id w) in * by lia.
  induction (Z.to_nat w) as [|n IH]; [done|].
  destruct (window_model q window (Z.of_nat n) Hq ltac:(lia)) as (m & rest & _ & [Hf _] & E & _).
  replace (Z.of_nat (S n)) with (Z.of_nat n + 1) by lia.
  rewrite E, zlen_app, frames_of_length by done. destruct Hf as (_ & _ & _ & B).
  specialize (IH ltac:(lia)). lia.
Qed.

Lemma timeline_bound q window :
  window_ok q window -> window <= nOfBackup + nOfLookup + 1 ->
  zlen (timeline q window) < maxNumOfFrames.
Proof.
  intros Hq Hw. pose proof Hq as (_ & H0 & _).
  pose proof (timeline_length q window window Hq ltac:(lia)) as L.
  change (nOfBackup + nOfLookup + 1) with 3 in Hw. change maxDuration with 170 in L.
  change maxNumOfFrames with 512. lia.
Qed.

(** the frames of the states of [m] before [s] *)
Definition upto (m : Model.t F) (s : Z) : list (Model.t F * state F) :=
  concat ((fun st => replicate (Z.to_nat (sduration st)) (m, st)) <$>
    take (Z.to_nat s) (states m)).

Lemma upto_all m : fits m -> upto m nOfStates = frames_of m.
Proof.
  intros (L & _). unfold upto, frames_of. rewrite take_ge; [done|]. unfold zlen in L. lia.
Qed.

Lemma model_state m s :
  fits m -> 0 <= s < nOfStates -> exists (st : state F) (rest : list (Model.t F * state F)),
    getState m s = Ok st /\ 0 <= sduration st /\
    upto m (s + 1) = upto m s ++ replicate (Z.to_nat (sduration st)) (m, st) /\
    frames_of m = upto m s ++ replicate (Z.to_nat (sduration st)) (m, st) ++ rest.
Proof.
  intros (L & P & _) Hs. destruct (yields_rd (states m) s) as (st & Est & Xst); [lia|].
  exists st. eexists. split; [exact Est|]. split; [|split].
  - rewrite Forall_lookup in P. apply (P (Z.to_nat s)). unfold durations.
    by rewrite list_lookup_fmap, Xst.
  - unfold upto. replace (Z.to_nat (s + 1)) with (Datatypes.S (Z.to_nat s)) by lia.
    rewrite (take_S_r _ _ _ Xst), fmap_app, concat_app. cbn. by rewrite app_nil_r.
  - unfold frames_of. rewrite <-(take_drop_middle _ _ _ Xst) at 1.
    rewrite fmap_app, fmap_cons, concat_app. cbn [concat]. reflexivity.
Qed.

(** after [pre], the loop over the frames of a state *)
Lemma over_state {S} (all pre rest : list (Model.t F * state F)) m st
    (body : Model.t F -> state F -> Z -> S -> Res S) (I : Z -> S -> Prop) r :
  all = pre ++ replicate (Z.to_nat (sduration st)) (m, st) ++ rest -> 0 <= sduration st ->
  r.1 = zlen pre /\ I r.1 r.2 ->
  (forall f x, all !! Z.to_nat f = Some (m, st) -> 0 <= f -> I f x ->
     yields (body m st f x) (I (f + 1))) ->
  yields (for_up 0 (sduration st) (fun _ '(frame, x) =>
      x ← body m st frame x; Ok (frame + 1, x)) r)
    (fun r => r.1 = zlen (pre ++ replicate (Z.to_nat (sduration st)) (m, st)) /\ I r.1 r.2).
Proof.
  intros E Hd [E0 I0] Hb. pose proof (zlen_nonneg pre). eapply yields_mono.
  - apply (for_up_yields (fun c r => r.1 = zlen pre + c /\ I r.1 r.2)); [done|split; [lia|done]|].
    intros c [f x] Hc [E2 I2]. cbn [fst snd] in E2, I2.
    eapply yields_bind; [apply Hb; [|lia|exact I2]|].
    + rewrite E, E2. unfold zlen.
      replace (Z.to_nat (Z.of_nat (length pre) + c)) with (length pre + Z.to_nat c)%nat by lia.
      apply lookup_run. lia.
    + intros x3 I3. apply yields_ok. cbn. split; [lia|done].
  - cbn. intros [f2 x2] [E2 I2]. split; [|done]. rewrite zlen_app, zlen_replicate.
    cbn [fst] in E2. cbn [fst]. lia.
Qed.

(** the loops over the frames visit the timeline in order *)
Lemma over_frames_yields {S} q window (body : Model.t F -> state F -> Z -> S -> Res S)
    (I : Z -> S -> Prop) x :
  window_ok q window -> I 0 x ->
  (forall f m st x, timeline q window !! Z.to_nat f = Some (m, st) -> 0 <= f -> I f x ->
     yields (body m st f x) (I (f + 1))) ->
  yields (over_frames q window body x)
    (fun r => r.1 = zlen (timeline q window) /\ I r.1 r.2).
Proof.
  intros Hq Hx Hb. unfold over_frames. pose proof Hq as (_ & Hn & _).
  apply (for_up_yields (fun w r => r.1 = zlen (timeline q w) /\ I r.1 r.2)); [lia|done|].
  intros w r Hw R0. destruct (window_model q window w Hq Hw) as (m & rest & -> & [Hf _] & ES & Er).
  rewrite bind_Ok, ES, <-upto_all by done.
  apply (for_up_yields (fun s r => r.1 = zlen (timeline q w ++ upto m s) /\ I r.1 r.2));
    [done|by rewrite app_nil_r|].
  intros s r1 Hs R1. destruct (model_state m s Hf Hs) as (st & rest' & -> & Hd & Eu & Ef).
  rewrite bind_Ok, Eu, app_assoc.
  apply (over_state (timeline q window) _ (rest' ++ rest)); [|done|done|].
  - by rewrite Er, Ef, <-!app_assoc.
  - intros f x1. apply Hb.
Qed.

End Timeline.
(** ** The memory *)

Section Memory.
Context {F : Type} `{NumOps F}.

(** the arrays are as large as the constructor made them *)
Record memory_ok (mem : memory F) : Prop := {
  mem_mean : sized3 nOfStreams maxNumOfFrames maxStreamLen (mmean mem);
  mem_ivar : sized3 nOfStreams maxNumOfFrames maxStreamLen (mivar mem);
  mem_par : sized3 nOfStreams maxNumOfFrames maxStreamLen (mpar mem);
  mem_wuw : sized3 nOfStreams maxNumOfFrames maxWindowWidth (mwuw mem);
  mem_gv_mean : dims nOfStreams maxNumOfFrames (mgv_mean mem);
  mem_gv_vari : dims nOfStreams maxNumOfFrames (mgv_vari mem);
  mem_gv_switch : dims nOfStreams maxNumOfFrames (mgv_switch mem);
  mem_voicing : maxNumOfFrames <= zlen (voiced_unvoiced mem);
  mem_g : dims nOfStreams maxNumOfFrames (mg mem);
  mem_wum : dims nOfStreams maxNumOfFrames (mwum mem)
}.

Lemma dims_replicate {A} n (m : nat) w (row : list A) :
  n <= Z.of_nat m -> w <= zlen row -> dims n w (replicate m row).
Proof.
  intros Hn Hw. split; [by rewrite zlen_replicate|]. intros i r _ E.
  by apply lookup_replicate in E as [-> _].
Qed.

Lemma create_memory_ok : memory_ok create_memory.
Proof.
  assert (S : forall w, (0 <=? w) = true -> sized3 nOfStreams maxNumOfFrames w
    (per_stream (rows (F:=F) maxNumOfFrames w))).
  { intros w Hw%Z.leb_le. split; [done|]. apply Forall_replicate. apply dims_replicate; [done|].
    unfold zeros. rewrite zlen_replicate. lia. }
  assert (D : forall {A} n (x : A), maxNumOfFrames <= n ->
    dims nOfStreams maxNumOfFrames (per_stream (replicate (Z.to_nat n) x))).
  { intros A n x Hn. apply dims_replicate; [done|]. rewrite zlen_replicate. lia. }
  unfold create_memory.
  split; cbn [mmean mivar mpar mwuw mgv_mean mgv_vari mgv_switch mg mwum voiced_unvoiced];
    [by apply S..| | | | | |]; try (by apply D).
  rewrite zlen_replicate. lia.
Qed.

(** the parts the layout of a stream leaves alone *)
Definition kept (mem mem' : memory F) : Prop :=
  mpar mem' = mpar mem /\ voiced_unvoiced mem' = voiced_unvoiced mem /\ mg mem' = mg mem /\
  mwum mem' = mwum mem /\ mwuw mem' = mwuw mem.

Lemma kept_trans m1 m2 m3 : kept m1 m2 -> kept m2 m3 -> kept m1 m3.
Proof.
  intros (A1 & A2 & A3 & A4 & A5) (B1 & B2 & B3 & B4 & B5). unfold kept. by rewrite B1, B2, B3, B4, B5.
Qed.

(** the entries [lo <= j < hi] of row [row] of stream [i] come from state [st] *)
Definition laid (st : state F) (ivf : Z -> dist F -> F) (i row lo hi : Z)
    (mem mem' : memory F) : Prop :=
  forall i' r' j, 0 <= i' -> 0 <= r' -> 0 <= j ->
    let here := bool_decide (i' = i /\ r' = row /\ lo <= j < hi) in
    cell3 (mmean mem') i' r' j =
      (if here then mean <$> cell (streams st) i j else cell3 (mmean mem) i' r' j) /\
    cell3 (mivar mem') i' r' j =
      (if here then ivf j <$> cell (streams st) i j else cell3 (mivar mem) i' r' j).

Definition step_ok (st : state F) ivf i row lo hi (mem mem' : memory F) : Prop :=
  memory_ok mem' /\ kept mem mem' /\ laid st ivf i row lo hi mem mem'.

Lemma step_ok_nil st ivf i row lo mem : memory_ok mem -> step_ok st ivf i row lo lo mem mem.
Proof.
  intros M. split; [done|]. split; [done|]. intros i' r' j _ _ _. cbn zeta.
  rewrite bool_decide_eq_false_2 by lia. done.
Qed.

Lemma step_ok_app st ivf i row lo mid hi m1 m2 m3 :
  lo <= mid <= hi -> step_ok st ivf i row lo mid m1 m2 -> step_ok st ivf i row mid hi m2 m3 ->
  step_ok st ivf i row lo hi m1 m3.
Proof.
  intros Hm (_ & K1 & L1) (M2 & K2 & L2). split; [done|]. split; [by eapply kept_trans|].
  intros i' r' j Hi Hr Hj. cbn zeta. destruct (L1 i' r' j Hi Hr Hj) as [A1 B1].
  destruct (L2 i' r' j Hi Hr Hj) as [-> ->]. rewrite A1, B1.
  destruct (decide (i' = i /\ r' = row /\ lo <= j < hi)) as [Y|N].
  - rewrite !(bool_decide_eq_true_2 (i' = i /\ r' = row /\ lo <= j < hi)) by done.
    destruct (decide (mid <= j)); [rewrite bool_decide_eq_true_2 by lia; done|].
    rewrite (bool_decide_eq_false_2 (_ /\ _ /\ mid <= j < hi)) by lia.
    by rewrite !bool_decide_eq_true_2 by lia.
  - by rewrite !bool_decide_eq_false_2 by lia.
Qed.

(** one entry *)
Lemma lay_entry (v : Voice F) st st0 i row j mem (x : dist F -> F) ivf :
  memory_ok mem -> shaped st -> shaped st0 -> 0 <= i < nOfStreams ->
  0 <= row < maxNumOfFrames -> 0 <= j < maxStreamLen -> (forall d, x d = ivf j d) ->
  yields (
    d ← rd2 (streams st) i j;
    gv ← rd2 (gv_streams st0) i j;
    mu ← upd (mmean mem) i (fun a => wr2 a row j (mean d));
    iv ← upd (mivar mem) i (fun a => wr2 a row j (x d));
    gm ← wr2 (mgv_mean mem) i j (mean gv);
    gvv ← wr2 (mgv_vari mem) i j (vari gv);
    sw ← (if msd_flag v i then Ok (mgv_switch mem)
          else s ← rd (gv_switch_streams st0) i; wr2 (mgv_switch mem) i j s);
    Ok (mem <| mmean := mu |> <| mivar := iv |> <| mgv_mean := gm |> <| mgv_vari := gvv |>
            <| mgv_switch := sw |>)) (step_ok st ivf i row j (j + 1) mem).
Proof.
  intros M (Ds & _ & _) (_ & Dg & Ls) Hi Hr Hj Hx. pose proof M as [].
  assert (Hj2 : 0 <= j < maxNumOfFrames)
    by (change maxNumOfFrames with 512; change maxStreamLen with 105 in Hj; lia).
  eapply yields_bind; [by eapply rd2_cell|]. intros d Ed.
  eapply yields_bind; [by eapply rd2_cell|]. intros gv _.
  eapply yields_bind; [by eapply upd_wr2_cell3|]. intros mu [Smu Cmu].
  eapply yields_bind; [by eapply upd_wr2_cell3|]. intros iv [Siv Civ].
  eapply yields_bind; [by eapply wr2_shape|]. intros gm Sgm.
  eapply yields_bind; [by eapply wr2_shape|]. intros gvv Sgv.
  eapply (yields_bind _ _ (fun sw => shape sw = shape (mgv_switch mem))).
  { destruct (msd_flag v i); [by apply yields_ok|].
    eapply yields_bind; [apply yields_rd; lia|]. intros s _. by eapply wr2_shape. }
  intros sw Ssw. apply yields_ok. split; [|split; [done|]].
  - cbn beta in Sgm, Sgv. split; cbn; try done; eapply dims_shape; eassumption.
  - intros i' r' j' Hi' Hr' Hj'. cbn. rewrite Cmu, Civ by done. rewrite Hx.
    destruct (decide (i' = i /\ r' = row /\ j' = j)) as [(-> & -> & ->)|N].
    + rewrite !(bool_decide_eq_true_2 (i = i /\ row = row /\ j = j)) by done.
      rewrite bool_decide_eq_true_2 by lia. by rewrite Ed.
    + rewrite !(bool_decide_eq_false_2 (i' = i /\ r' = row /\ j' = j)) by done.
      rewrite bool_decide_eq_false_2 by lia. done.
Qed.
End Memory.

(** ** The switches of the global variance *)

Section Switches.
Context {F : Type} `{NumOps F}.

(** no stream of a state, or of a model, is switched on *)
Definition state_off (st : state F) : Prop :=
  forall i s, 0 <= i < nOfStreams -> gv_switch_streams st !! Z.to_nat i = Some s -> s = false.
Definition model_off (m : Model.t F) : Prop := Forall state_off (states m).

Definition switches_off (mem : memory F) : Prop := Forall (Forall (fun s => s = false)) (mgv_switch mem).

Lemma state_off_rd st i :
  state_off st -> 0 <= i < nOfStreams -> after (rd (gv_switch_streams st) i) (fun s => s = false).
Proof. intros Hs Hi s E. apply rd_inv in E as [_ E]. by eapply Hs. Qed.

Lemma model_off_state m i : model_off m -> after (getState m i) state_off.
Proof.
  intros Hm st E. unfold getState in E. apply rd_inv in E as [_ E]. by eapply Forall_lookup_1.
Qed.

Lemma lay_window_off e m st i row k nb mem :
  model_off m -> 0 <= i < nOfStreams -> switches_off mem ->
  after (lay_window e m st i row k nb mem) switches_off.
Proof.
  intros Hm Hi Hs. unfold lay_window. eapply after_bind; [apply after_any|]. intros _ _. cbn zeta.
  eapply after_bind; [by apply model_off_state|]. intros st0 H0. apply for_up_after; [done|].
  intros l mem1 _ H1. do 6 (eapply after_bind; [apply after_any|]; intros ? _).
  apply (after_bind _ _ (Forall (Forall (fun s => s = false)))).
  - destruct (msd_flag _ _); [by apply after_ok|].
    eapply after_bind; [by apply state_off_rd|]. intros s ->. by apply wr2_after.
  - intros sw Hw. by apply after_ok.
Qed.

Lemma lay_frame_off e vu total m st i row f mem :
  model_off m -> 0 <= i < nOfStreams -> switches_off mem ->
  after (lay_frame e vu total m st i row f mem) switches_off.
Proof.
  intros Hm Hi Hs. apply for_up_after; [done|]. intros k mem1 _ H1.
  eapply after_bind; [apply after_any|]. intros nb _. by apply lay_window_off.
Qed.

(** the switches of a model are off once its global variances are computed, and so
    are those of the memory that the constructor makes *)
Lemma cleared_switches (sw sw' : list bool) :
  for_up 0 nOfStreams (fun j sw => wr sw j false) sw = Ok sw' ->
  forall i s, 0 <= i < nOfStreams -> sw' !! Z.to_nat i = Some s -> s = false.
Proof.
  intros E. refine (for_up_inv (fun n sw => forall i s, 0 <= i < n ->
    sw !! Z.to_nat i = Some s -> s = false) 0 nOfStreams _ _ _ E _ _ _); [done|lia|].
  intros n l l' Hn Hl Ew i s Hi Es. apply wr_inv in Ew as [Hr ->].
  rewrite lookup_insert_Z in Es by lia. case_bool_decide as C.
  - by injection Es.
  - apply (Hl i); [lia|done].
Qed.

Lemma computeGlobalVariances_off m e l :
  fits m -> after (computeGlobalVariances m e l) model_off.
Proof.
  intros Hf m' E. pose proof (computeGlobalVariances_keeps _ _ _ _ E) as K.
  pose proof (keeps_fits _ _ K Hf) as (L & _). unfold computeGlobalVariances in E.
  apply bind_inv_Ok in E as (q & _ & E). apply bind_inv_Ok in E as (m1 & _ & E).
  apply bind_inv_Ok in E as (gvs & _ & E). apply Forall_lookup. intros i st Est.
  destruct (each_state_inv (fun _ _ s' => state_off s') _ _ _ E) with (i := i) as (s & s' & _ & Es & Off).
  - intros j s s' _ B. apply bind_inv_Ok in B as (sw & Ew & B). injection B as <-.
    exact (cleared_switches _ _ Ew).
  - apply lookup_lt_Some in Est. unfold zlen in L. lia.
  - rewrite Est in Es. by injection Es as <-.
Qed.

Lemma create_memory_off : switches_off create_memory.
Proof. apply Forall_replicate, Forall_replicate. done. Qed.
End Switches.

(** ** Rows and streams *)

Section Streams.
Context {F : Type} `{NumOps F}.
Context (e : Engine F).
Hypothesis voice_ok : VoiceLaws (ms e).
Hypothesis threshold_ok : zlen (msd_threshold (global e)) = nOfStreams.

(** the static features of a stream, and the columns in use *)
Definition statics (i : Z) : Z := Z.quot (vector_length (ms e) i) (window_size (ms e) i).
Definition columns (i : Z) : Z := statics i * window_size (ms e) i.

Lemma statics_bounds i :
  0 <= i < nOfStreams -> 0 < window_size (ms e) i /\ 0 < statics i /\ columns i <= maxStreamLen.
Proof.
  intros Hi. destruct (voice_window i Hi) as [Hw Hl]. destruct (voice_vector i Hi) as [Hv Hm].
  unfold columns, statics. rewrite Z.quot_div_nonneg by lia. split; [done|].
  split; [apply Z.div_str_pos; lia|].
  pose proof (Z.mul_div_le (vector_length (ms e) i) (window_size (ms e) i) Hw). lia.
Qed.

(** frame [f] of the timeline exists, and is voiced if that matters *)
Definition present (T : list (Model.t F * state F)) (msd : bool) (f : Z) : bool :=
  (0 <=? f) && match T !! Z.to_nat f with
               | Some (_, st) => negb msd || voicing e st
               | None => false
               end.

(** all the frames window [k] of stream [i] covers around [f] are there *)
Definition surrounded (T : list (Model.t F * state F)) (i k f : Z) : bool :=
  forallb (fun d => present T (msd_flag (ms e) i) (f + d))
    (seqZ (l_width (ms e) i k) (r_width (ms e) i k - l_width (ms e) i k + 1)).

(** the inverse variance of column [j] *)
Definition ivar_of (T : list (Model.t F * state F)) (i f j : Z) (d : dist F) : F :=
  let k := j / statics i in
  if surrounded T i k f || (k =? 0) then Mlpg.HTS_finv (vari d) else nZ 0.

(** [vu] holds the voicing of the first [n] frames *)
Definition voiced_upto (T : list (Model.t F * state F)) (n : Z) (vu : list bool) : Prop :=
  maxNumOfFrames <= zlen vu /\ forall f m st, 0 <= f < n ->
    T !! Z.to_nat f = Some (m, st) -> vu !! Z.to_nat f = Some (voicing e st).

Lemma timeline_built q window f (m : Model.t F) (st : state F) :
  window_ok q window -> timeline q window !! f = Some (m, st) -> built m /\ shaped st /\ ModelQueue.state_ok st.
Proof.
  intros (W & Hn & A) E. apply list_elem_of_lookup_2 in E. unfold timeline in E.
  apply list_elem_of_In, in_concat in E as (l & Hl & E). apply list_elem_of_In in Hl.
  apply list_elem_of_fmap in Hl as (m' & -> & Hm). apply list_elem_of_In in E.
  assert (Bm : built m').
  { rewrite Forall_forall in A. apply A. apply elem_of_take in Hm as (i & Hi & _).
    by eapply list_elem_of_lookup_2. }
  unfold frames_of in E. apply list_elem_of_In, in_concat in E as (l & Hl & E).
  apply list_elem_of_In in Hl. apply list_elem_of_fmap in Hl as (st' & -> & Hst).
  apply list_elem_of_In, elem_of_replicate in E as [[= -> ->] _].
  split; [done|]. split.
  - destruct Bm as [_ B]. rewrite Forall_forall in B. by apply B.
  - destruct (built_model_ok _ Bm) as [_ B]. rewrite Forall_forall in B. by apply B.
Qed.

Lemma timeline_index (q : ModelQueue.t F) window f x :
  window_ok q window -> window <= nOfBackup + nOfLookup + 1 -> 0 <= f ->
  timeline q window !! Z.to_nat f = Some x -> f < zlen (timeline q window) < maxNumOfFrames.
Proof.
  intros Hq Hw Hf E. split; [|by apply timeline_bound].
  apply lookup_lt_Some in E. unfold zlen. lia.
Qed.

Lemma lay_voicing_spec q window :
  window_ok q window -> window <= nOfBackup + nOfLookup + 1 ->
  memory_ok (modelQueueMemory q) ->
  yields (lay_voicing e q window)
    (voiced_upto (timeline q window) (zlen (timeline q window))).
Proof.
  intros Hq Hw M. unfold lay_voicing. eapply yields_bind.
  - apply (over_frames_yields _ _ _ (voiced_upto (timeline q window))); [done| |].
    + split; [apply M|]. lia.
    + intros f m st vu E Hf [L V]. destruct (timeline_built _ _ _ _ _ Hq E) as (_ & _ & Hst).
      rewrite is_voiced_ok, bind_Ok by done.
      pose proof (timeline_index _ _ _ _ Hq Hw Hf E). rewrite wr_ok by lia. apply yields_ok.
      split; [by rewrite zlen_insert|]. intros g m' st' Hg E'. rewrite lookup_insert_Z by lia.
      case_bool_decide as C; [subst g; rewrite E in E'; by injection E' as _ <-|].
      apply (V g m' st'); [lia|done].
  - intros [n vu] [-> V]. by apply yields_ok.
Qed.

(** the voicing a stream looks at *)
Definition looks_at (T : list (Model.t F * state F)) (i : Z) (vu : option (list bool)) : Prop :=
  match vu with
  | Some vu => msd_flag (ms e) i = true /\ voiced_upto T (zlen T) vu
  | None => msd_flag (ms e) i = false
  end.

Lemma covered_spec T i vu f l n :
  looks_at T i vu -> zlen T < maxNumOfFrames ->
  covered (Z.to_nat n) vu (zlen T) f l (l + n - 1) =
  Ok (forallb (fun d => present T (msd_flag (ms e) i) (f + d)) (seqZ l n)).
Proof.
  intros V HT. remember (Z.to_nat n) as c eqn:Ec. revert l n Ec.
  induction c as [|c IH]; intros l n Ec; cbn [covered].
  { by rewrite seqZ_nil by lia. }
  rewrite seqZ_cons by lia. cbn [forallb]. rewrite (proj2 (Z.leb_le l _)) by lia.
  assert (Hp : present T (msd_flag (ms e) i) (f + l) =
    if (f + l <? 0) || (zlen T <=? f + l) then false
    else match T !! Z.to_nat (f + l) with
         | Some (_, st) => negb (msd_flag (ms e) i) || voicing e st | None => false end).
  { unfold present. destruct (Z.ltb_spec (f + l) 0), (Z.leb_spec 0 (f + l)); try lia; [done|].
    cbn [orb andb]. destruct (Z.leb_spec (zlen T) (f + l)); [|done].
    rewrite lookup_ge_None_2; [done|unfold zlen in *; lia]. }
  rewrite Hp. destruct (Z.ltb_spec (f + l) 0), (Z.leb_spec (zlen T) (f + l)); try done.
  cbn [orb]. destruct (lookup_lt_is_Some_2 T (Z.to_nat (f + l))) as [[m st] E];
    [unfold zlen in *; lia|].
  replace (l + n - 1) with ((l + 1) + (n - 1) - 1) by lia. rewrite E.
  assert (Hv : match vu with Some vu => rd vu (f + l) | None => Ok true end =
    Ok (negb (msd_flag (ms e) i) || voicing e st)).
  { destruct vu as [vu|]; cbn in V.
    - destruct V as [-> [L V]]. cbn. apply rd_ok; [done|]. apply (V _ m); [lia|done].
    - by rewrite V. }
  rewrite Hv, bind_Ok. destruct (negb _ || _); cbn [andb]; [|done].
  rewrite (IH (l + 1) (n - 1)) by lia. by rewrite <-Z.add_1_r, <-Z.sub_1_r.
Qed.

Lemma not_bound_spec T i vu f k :
  looks_at T i vu -> zlen T < maxNumOfFrames ->
  not_bound e vu (zlen T) f i k = Ok (surrounded T i k f).
Proof.
  intros V HT. unfold not_bound, surrounded.
  rewrite <-(covered_spec T i vu f _ _ V HT). do 2 f_equal; lia.
Qed.

Lemma lay_window_spec T m st i row f k mem :
  memory_ok mem -> built m -> shaped st -> 0 <= i < nOfStreams -> 0 <= row < maxNumOfFrames ->
  0 <= k < window_size (ms e) i ->
  yields (lay_window e m st i row k (surrounded T i k f) mem)
    (step_ok st (ivar_of T i f) i row (statics i * k) (statics i * (k + 1)) mem).
Proof.
  intros M [(Lm & _) Bm] Hst Hi Hr Hk. destruct (statics_bounds i Hi) as (Hw & Hs & Hc).
  unfold lay_window. unfold check. rewrite (proj2 (Z.eqb_neq (window_size (ms e) i) 0)) by lia.
  cbn [negb]. rewrite bind_Ok. fold (statics i). cbn zeta.
  destruct (yields_rd (states m) 0) as (st0 & E0 & X0); [change nOfStates with 5 in Lm; lia|].
  unfold getState. rewrite E0, bind_Ok.
  assert (H0 : shaped st0) by (rewrite Forall_lookup in Bm; by eapply Bm).
  replace (statics i * (k + 1)) with (statics i * k + statics i) by lia.
  apply (for_up_yields (fun l => step_ok st (ivar_of T i f) i row (statics i * k)
    (statics i * k + l) mem)); [lia|rewrite Z.add_0_r; by apply step_ok_nil|].
  intros l mem1 Hl St. pose proof St as (M1 & _). unfold columns in Hc.
  rewrite Z.add_assoc. eapply yields_mono;
    [|intros mem2 St2; apply (step_ok_app _ _ _ _ _ (statics i * k + l) _ _ mem1); [nia|done|exact St2]].
  apply lay_entry; try done; [nia|]. intros d. unfold ivar_of. cbn zeta.
  replace ((statics i * k + l) / statics i) with k; [done|].
  rewrite Z.mul_comm, Z.div_add_l, Z.div_small by lia. lia.
Qed.

Lemma lay_frame_spec T vu m st i row f mem :
  looks_at T i vu -> zlen T < maxNumOfFrames -> memory_ok mem -> built m -> shaped st ->
  0 <= i < nOfStreams -> 0 <= row < maxNumOfFrames ->
  yields (lay_frame e vu (zlen T) m st i row f mem)
    (step_ok st (ivar_of T i f) i row 0 (columns i) mem).
Proof.
  intros V HT M Bm Hst Hi Hr. destruct (statics_bounds i Hi) as (Hw & Hs & Hc). unfold lay_frame.
  apply (for_up_yields (fun k => step_ok st (ivar_of T i f) i row 0 (statics i * k) mem));
    [lia|rewrite Z.mul_0_r; by apply step_ok_nil|].
  intros k mem1 Hk St. pose proof St as (M1 & _).
  rewrite (not_bound_spec T), bind_Ok by done.
  eapply yields_mono; [by apply lay_window_spec|].
  intros mem2 St2. by eapply step_ok_app; [|exact St|exact St2]; nia.
Qed.
(** *** The rows of a stream *)

(** the frames a stream has rows for, with their numbers *)
Definition selects (i : Z) (x : Z * state F) : bool := negb (msd_flag (ms e) i) || voicing e x.2.
Definition selected (i : Z) (T : list (Model.t F * state F)) : list (Z * state F) :=
  List.filter (selects i) (imap (fun f x => (Z.of_nat f, x.2)) T).

Lemma selected_snoc i T m st :
  selected i (T ++ [(m, st)]) =
  selected i T ++ (if selects i (zlen T, st) then [(zlen T, st)] else []).
Proof.
  unfold selected. rewrite imap_app, List.filter_app. cbn [imap List.filter].
  unfold zlen. rewrite Nat.add_0_r. by destruct (selects _ _).
Qed.

Lemma selected_length i T : zlen (selected i T) <= zlen T.
Proof.
  unfold selected, zlen. pose proof (List.filter_length_le (selects i)
    (imap (fun f x => (Z.of_nat f, x.2)) T)) as L. rewrite length_imap in L. lia.
Qed.

Lemma selected_all i T :
  msd_flag (ms e) i = false -> zlen (selected i T) = zlen T.
Proof.
  intros Hm. unfold selected, zlen. rewrite (List.filter_ext_in _ (fun _ => true)).
  - by rewrite List.filter_true, length_imap.
  - intros x _. unfold selects. by rewrite Hm.
Qed.

(** row [r] of the matrices is frame [f], which is in state [st] *)
Definition row_ok (T : list (Model.t F * state F)) (i f : Z) (st : state F) (r : Z)
    (mu iv : Z -> Z -> option F) : Prop :=
  forall j, 0 <= j < columns i -> exists d, cell (streams st) i j = Some d /\
    mu r j = Some (mean d) /\ iv r j = Some (ivar_of T i f j d).

Definition rows_ok (T : list (Model.t F * state F)) (i : Z) (l : list (Z * state F))
    (mem : memory F) : Prop :=
  forall r f st, l !! Z.to_nat r = Some (f, st) -> 0 <= r ->
    row_ok T i f st r (cell3 (mmean mem) i) (cell3 (mivar mem) i).

Lemma rows_ok_snoc T i l f st mem mem' :
  0 <= i < nOfStreams -> rows_ok T i l mem -> shaped st ->
  step_ok st (ivar_of T i f) i (zlen l) 0 (columns i) mem mem' ->
  rows_ok T i (l ++ [(f, st)]) mem'.
Proof.
  intros Hi R (Ds & _ & _) (_ & _ & L) r f' st' E Hr j Hj.
  destruct (statics_bounds i Hi) as (_ & _ & Hc).
  destruct (L i r j ltac:(lia) Hr ltac:(lia)) as [Em Ev]. cbn zeta in Em, Ev.
  destruct (decide (r = zlen l)) as [->|Hne].
  - unfold zlen in E. rewrite Nat2Z.id, list_lookup_middle in E by done. injection E as <- <-.
    rewrite bool_decide_eq_true_2 in Em, Ev by done.
    destruct (rd2_cell _ _ _ i j Ds Hi ltac:(lia)) as (d & _ & Ed). rewrite Ed in Em, Ev.
    by exists d.
  - rewrite bool_decide_eq_false_2 in Em, Ev by lia. rewrite Em, Ev.
    apply lookup_app_Some in E as [E|[Hlen E]]; [by apply (R r f' st')|].
    apply list_lookup_singleton_Some in E as [E _]. unfold zlen in Hne. lia.
Qed.

(** the frames of a timeline are switched off *)
Definition quiet (T : list (Model.t F * state F)) : Prop :=
  Forall (fun x => model_off x.1 /\ state_off x.2) T.

(** the state of the layout after the frames in [T'] *)
Definition laying (T T' : list (Model.t F * state F)) (i : Z) (mem0 mem : memory F) : Prop :=
  memory_ok mem /\ kept mem0 mem /\ rows_ok T i (selected i T') mem /\
  (quiet T' -> switches_off mem0 -> switches_off mem).

Lemma quiet_snoc T m st : quiet (T ++ [(m, st)]) -> quiet T /\ model_off m /\ state_off st.
Proof. intros Q. apply Forall_app in Q as [Q L]. split; [done|]. by inversion L. Qed.

Lemma laying_step T T' m st i vu mem0 mem f :
  looks_at T i vu -> zlen T < maxNumOfFrames -> zlen T' < zlen T -> f = zlen T' ->
  built m -> shaped st -> 0 <= i < nOfStreams ->
  laying T T' i mem0 mem -> selects i (f, st) = true ->
  yields (lay_frame e vu (zlen T) m st i (zlen (selected i T')) f mem)
    (laying T (T' ++ [(m, st)]) i mem0).
Proof.
  intros V HT HT' -> Bm Hst Hi (M & K & R & O) Hsel. pose proof (selected_length i T').
  pose proof (zlen_nonneg (selected i T')).
  assert (Off : after (lay_frame e vu (zlen T) m st i (zlen (selected i T')) (zlen T') mem)
    (fun mem' => model_off m -> switches_off mem -> switches_off mem')).
  { intros mem' E Hm Ho. by eapply lay_frame_off. }
  eapply yields_mono; [eapply yields_after; [apply lay_frame_spec; try done; lia|exact Off]|].
  intros mem' [St Of]. pose proof St as (M' & K' & _). split; [done|]. split; [by eapply kept_trans|].
  split; [rewrite selected_snoc, Hsel; by eapply rows_ok_snoc|].
  intros Q O0. apply quiet_snoc in Q as (Q & Qm & _). by apply Of; [|apply O].
Qed.

Lemma laying_skip T T' m st i mem0 mem :
  laying T T' i mem0 mem -> selects i (zlen T', st) = false ->
  laying T (T' ++ [(m, st)]) i mem0 mem.
Proof.
  intros (M & K & R & O) Hs. split; [done|]. split; [done|].
  split; [by rewrite selected_snoc, Hs, app_nil_r|]. intros Q. apply O. apply (quiet_snoc _ _ _ Q).
Qed.

Lemma laying_switch T T' i mem0 mem sw :
  laying T T' i mem0 mem -> dims nOfStreams maxNumOfFrames sw ->
  (quiet T' -> switches_off mem -> Forall (Forall (fun s => s = false)) sw) ->
  laying T T' i mem0 (mem <| mgv_switch := sw |>).
Proof.
  intros ([] & K & R & O) Hs Ho. split; [by split|]. split; [done|]. split; [done|].
  intros Q O0. by apply Ho; [|apply O].
Qed.

Lemma lay_stream_spec q window i mem :
  window_ok q window -> window <= nOfBackup + nOfLookup + 1 -> 0 <= i < nOfStreams ->
  let T := timeline q window in
  memory_ok mem -> voiced_upto T (zlen T) (voiced_unvoiced mem) ->
  yields (lay_stream e q window (zlen T) i mem) (fun '(n, mem') =>
    n = zlen (selected i T) /\ laying T T i mem mem').
Proof.
  intros Hq Hw Hi T M V. pose proof (timeline_bound q window Hq Hw) as HT. fold T in HT.
  assert (Start : laying T [] i mem mem)
    by (split; [done|]; split; [done|]; split; [intros r f st E|]; done).
  assert (Take : forall f m st, T !! Z.to_nat f = Some (m, st) -> 0 <= f ->
    f = zlen (take (Z.to_nat f) T) /\ zlen (take (Z.to_nat f) T) < zlen T /\
    take (Z.to_nat (f + 1)) T = take (Z.to_nat f) T ++ [(m, st)]).
  { intros f m st E Hf. pose proof (timeline_index _ _ _ _ Hq Hw Hf E). fold T in H0.
    rewrite zlen_take. split; [lia|]. split; [lia|].
    replace (Z.to_nat (f + 1)) with (S (Z.to_nat f)) by lia. by apply take_S_r. }
  assert (All : forall n, n = zlen T -> take (Z.to_nat n) T = T)
    by (intros n ->; rewrite take_ge; [done|unfold zlen; lia]).
  unfold lay_stream. destruct (msd_flag (ms e) i) eqn:Em.
  - eapply yields_bind.
    + apply (over_frames_yields _ _ _ (fun f r => let T' := take (Z.to_nat f) T in
        r.1 = zlen (selected i T') /\ laying T T' i mem r.2)); [done|by split|].
      intros f m st [n mem1] E Hf R. cbn [fst snd] in R. destruct R as [-> Lay]. fold T in E.
      destruct (Take f m st E Hf) as (Ef & Hlt & ES). rewrite ES.
      destruct (timeline_built q window _ m st Hq E) as (Bm & Hst & _).
      destruct V as [Lv V]. rewrite (rd_ok (voiced_unvoiced mem) f (voicing e st)), bind_Ok; [|done|].
      2:{ apply (V f m); [lia|done]. }
      assert (Hsel : selects i (f, st) = voicing e st) by (unfold selects; by rewrite Em).
      destruct (voicing e st) eqn:Ev.
      * eapply yields_bind.
        { eapply (laying_step T (take (Z.to_nat f) T) m st i (Some (voiced_unvoiced mem)));
            done. }
        intros mem2 Lay2. pose proof Lay2 as (M2 & _). pose proof Hst as (_ & _ & Ls).
        eapply yields_bind; [apply yields_rd; lia|]. intros s Es.
        pose proof (selected_length i (take (Z.to_nat f) T)).
        pose proof (zlen_nonneg (selected i (take (Z.to_nat f) T))).
        set (sw0 := wr2 _ _ _ s).
        assert (Off : after sw0 (fun sw => state_off st -> switches_off mem2 ->
          Forall (Forall (fun s => s = false)) sw)).
        { intros sw Esw Ho Hm2. eapply wr2_after; [exact Hm2| |exact Esw]. by eapply Ho. }
        eapply yields_bind; [eapply yields_after; [eapply wr2_shape; [apply M2|done|lia]|exact Off]|].
        intros sw [Ssw Osw]. apply yields_ok.
        cbn [fst snd]. split.
        -- rewrite selected_snoc, <-Ef, Hsel. by rewrite zlen_app.
        -- apply laying_switch; [done|eapply dims_shape; [exact Ssw|apply M2]|].
           intros Q. apply quiet_snoc in Q as (_ & _ & Q). by apply Osw.
      * apply yields_ok. cbn [fst snd]. rewrite Ef in Hsel. split; [|by apply laying_skip].
        by rewrite selected_snoc, Hsel, app_nil_r.
    + intros [n [n' mem1]] (En & E' & Lay). cbn [fst snd] in *. apply yields_ok.
      by rewrite (All n En) in E', Lay.
  - eapply yields_mono.
    + apply (over_frames_yields _ _ _ (fun f => laying T (take (Z.to_nat f) T) i mem)); [done|done|].
      intros f m st mem1 E Hf Lay. fold T in E. destruct (Take f m st E Hf) as (Ef & Hlt & ES).
      rewrite ES. destruct (timeline_built q window _ m st Hq E) as (Bm & Hst & _).
      pose proof (laying_step T (take (Z.to_nat f) T) m st i None mem mem1 f) as Step.
      rewrite selected_all, <-Ef in Step by done. apply Step; try done; [by rewrite Ef|].
      unfold selects. by rewrite Em.
    + intros [n mem1] [En Lay]. cbn [fst snd] in En, Lay. rewrite (All n En) in Lay.
      split; [by rewrite selected_all|done].
Qed.
(** *** The generation of the trajectories *)

(** the stream handed to the parameter generation: its rows are the selected
    frames of the timeline *)
Record presents (T : list (Model.t F * state F)) (i : Z) (p : Mlpg.t F) : Prop := {
  pr_length : Mlpg.length p = zlen (selected i T);
  pr_static : Mlpg.static_length p = statics i;
  pr_width : Mlpg.width p = max_width (ms e) i * 2 + 1;
  pr_windows : Mlpg.win_size p = window_size (ms e) i /\
    Mlpg.win_coefficient p = coefficient (ms e) i;
  pr_widths : forall k, 0 <= k < window_size (ms e) i ->
    Mlpg.win_l_width p !! Z.to_nat k = Some (l_width (ms e) i k) /\
    Mlpg.win_r_width p !! Z.to_nat k = Some (r_width (ms e) i k);
  pr_gv : Mlpg.gv_length p = if use_gv (ms e) i then zlen (selected i T) else 0;
  pr_rows : forall r f st, selected i T !! Z.to_nat r = Some (f, st) -> 0 <= r ->
    row_ok T i f st r (cell (Mlpg.mean p)) (cell (Mlpg.ivar p))
}.

Lemma widths_lookup (w : Z -> Z) n (k : nat) x :
  ((fun k => w (Z.of_nat k)) <$> seq 0 n) !! k = Some x -> (k < n)%nat /\ x = w (Z.of_nat k).
Proof.
  intros E. apply list_lookup_fmap_Some in E as (y & -> & E).
  apply lookup_seq in E as [-> ?]. done.
Qed.

Lemma lookup_widths (w : Z -> Z) n k :
  0 <= k < Z.of_nat n -> ((fun k => w (Z.of_nat k)) <$> seq 0 n) !! Z.to_nat k = Some (w k).
Proof.
  intros Hk. rewrite list_lookup_fmap, (proj2 (lookup_seq 0 n (Z.to_nat k) (Z.to_nat k))) by lia.
  cbn. f_equal. f_equal. lia.
Qed.

Lemma pstream_spec T i mem :
  zlen T < maxNumOfFrames -> 0 <= i < nOfStreams -> memory_ok mem ->
  rows_ok T i (selected i T) mem ->
  yields (pstream e mem i (zlen (selected i T))) (fun p => presents T i p /\ Mlpg.fit p /\
    mpar mem !! Z.to_nat i = Some (Mlpg.par p) /\ mg mem !! Z.to_nat i = Some (Mlpg.g p) /\
    mwuw mem !! Z.to_nat i = Some (Mlpg.wuw p) /\ mwum mem !! Z.to_nat i = Some (Mlpg.wum p) /\
    (switches_off mem -> Forall (fun s => s = false) (Mlpg.gv_switch p))).
Proof.
  intros HT Hi M R. destruct (statics_bounds i Hi) as (Hw & Hs & Hc). pose proof M as [].
  destruct (voice_widths i Hi) as [W0 W1]. pose proof (selected_length i T) as Ls.
  pose proof (zlen_nonneg (selected i T)) as L0. set (n := zlen (selected i T)) in *.
  change maxNumOfFrames with 512 in *. change maxStreamLen with 105 in *.
  change maxWindowWidth with 50 in *.
  unfold pstream, check. rewrite (proj2 (Z.eqb_neq (window_size (ms e) i) 0)) by lia.
  cbn [negb]. rewrite bind_Ok.
  eapply yields_bind; [by eapply sized3_row|]. intros par [Epar Dpar].
  eapply yields_bind; [by eapply sized3_row|]. intros mu [Emu Dmu].
  eapply yields_bind; [by eapply sized3_row|]. intros iv [Eiv Div].
  eapply yields_bind; [by eapply yields_row|]. intros g [Eg Lg].
  eapply yields_bind; [by eapply sized3_row|]. intros wuw [Ewuw Dwuw].
  eapply yields_bind; [by eapply yields_row|]. intros wum [Ewum Lwum].
  eapply yields_bind; [by eapply yields_row|]. intros gm [_ Lgm].
  eapply yields_bind; [by eapply yields_row|]. intros gvv [_ Lgv].
  eapply yields_bind; [by eapply yields_row|]. intros sw [Esw Lsw].
  apply yields_ok. fold (statics i). unfold columns in Hc.
  assert (Hst : statics i <= 105 /\ window_size (ms e) i <= 105) by nia.
  split; [|split; [|repeat (split; [done|]); intros Ho; by eapply Forall_lookup_1]].
  - split; try done.
    { intros k Hk. split; apply lookup_widths; lia. }
    intros r f st E Hr. pose proof (R r f st E Hr) as Rj.
    intros j Hj. destruct (Rj j Hj) as (d & Ed & Em & Ev). exists d. split; [done|].
    unfold cell3 in Em, Ev. by rewrite Emu in Em; rewrite Eiv in Ev.
  - split; cbn [Mlpg.static_length Mlpg.length Mlpg.width Mlpg.par Mlpg.mean Mlpg.ivar Mlpg.g
      Mlpg.wuw Mlpg.wum Mlpg.win_size Mlpg.win_l_width Mlpg.win_r_width Mlpg.gv_mean
      Mlpg.gv_vari Mlpg.gv_switch]; try (eapply dims_le; [eassumption|lia|nia]); try lia; try nia.
    split; [|split].
    + unfold zlen. rewrite length_fmap, length_seq. lia.
    + unfold zlen. rewrite length_fmap, length_seq. lia.
    + intros k l r El Er. apply widths_lookup in El as [Hk ->]. apply widths_lookup in Er as [_ ->].
      destruct (voice_symmetric i (Z.of_nat k)) as (-> & ? & _); [done|lia|done].
Qed.

Lemma store_pstream_spec (p p' : Mlpg.t F) i mem :
  memory_ok mem -> 0 <= i < nOfStreams -> Mlpg.like p p' ->
  mpar mem !! Z.to_nat i = Some (Mlpg.par p) -> mg mem !! Z.to_nat i = Some (Mlpg.g p) ->
  mwuw mem !! Z.to_nat i = Some (Mlpg.wuw p) -> mwum mem !! Z.to_nat i = Some (Mlpg.wum p) ->
  yields (store_pstream p' i mem) (fun mem' => memory_ok mem' /\
    voiced_unvoiced mem' = voiced_unvoiced mem /\ mgv_switch mem' = mgv_switch mem /\
    mpar mem' = <[Z.to_nat i := Mlpg.par p']> (mpar mem)).
Proof.
  intros M Hi (x & gg & a & b & -> & Sx & Lg & Sa & Lb) Ex Eg Ea Eb. pose proof M as [].
  destruct mem_par0 as [Lp Dp], mem_wuw0 as [Lw Dw].
  pose proof (proj1 mem_g0). pose proof (proj1 mem_wum0).
  unfold store_pstream. rewrite !wr_ok by lia. rewrite !bind_Ok.
  apply yields_ok. split; [|done].
  rewrite Forall_lookup in Dp, Dw. pose proof (Dp _ _ Ex). pose proof (Dw _ _ Ea).
  split; cbn; try done.
  - apply sized3_insert; [split; [done|by apply Forall_lookup]|]. by eapply dims_shape.
  - apply sized3_insert; [split; [done|by apply Forall_lookup]|]. by eapply dims_shape.
  - eapply dims_shape; [by eapply shape_insert|done].
  - eapply dims_shape; [by eapply shape_insert|done].
Qed.

Lemma total_duration_spec (q : ModelQueue.t F) window :
  window_ok q window -> window <= nOfBackup + nOfLookup + 1 ->
  total_duration q window = Ok (zlen (timeline q window)).
Proof.
  intros Hq Hw. pose proof Hq as (_ & Hn & _). unfold total_duration.
  destruct (for_up_yields (fun w acc => acc = zlen (timeline q w)) 0 window
    (fun w acc => m ← model_at q w; i32 (acc + getDuration m)) 0) as (acc & -> & ->);
    [lia|done| |done].
  intros w acc Hw' ->. destruct (window_model q window w Hq Hw') as (m & rest & -> & [Hf _] & ES & _).
  rewrite bind_Ok, ES, zlen_app, frames_of_length by done.
  pose proof (timeline_length q window w Hq ltac:(lia)) as L. pose proof (zlen_nonneg (timeline q w)).
  pose proof (zlen_nonneg (frames_of m)). rewrite frames_of_length in * by done.
  destruct Hf as (_ & _ & _ & B). unfold getDuration.
  change (nOfBackup + nOfLookup + 1) with 3 in Hw. change maxDuration with 170 in *.
  rewrite i32_ok by lia. by apply yields_ok.
Qed.

(** what a run of optimizeParameters with memory [mem0] leaves of stream [i] *)
Definition generated (mem0 : memory F) (T : list (Model.t F * state F)) (i : Z)
    (par : list (list (list F))) : Prop :=
  exists p p', presents T i p /\ Mlpg.fit p /\
    (quiet T -> switches_off mem0 -> Forall (fun s => s = false) (Mlpg.gv_switch p)) /\
    Mlpg.HTS_PStream_mlpg p = Ok p' /\
    par !! Z.to_nat i = Some (Mlpg.par p').

Lemma window_yields q backup lookup :
  let window := backup + lookup + 1 in
  window_ok q window -> window <= nOfBackup + nOfLookup + 1 -> memory_ok (modelQueueMemory q) ->
  yields (optimizeParameters e q backup lookup) (fun q' => queue q' = queue q /\
    memory_ok (modelQueueMemory q') /\ forall i, 0 <= i < nOfStreams ->
      generated (modelQueueMemory q) (timeline q window) i (mpar (modelQueueMemory q'))).
Proof.
  intros window Hq Hw M. set (T := timeline q window). set (mem0 := modelQueueMemory q) in *.
  pose proof (timeline_bound q window Hq Hw) as HT. fold T in HT. unfold optimizeParameters.
  fold window. cbn zeta. eapply yields_bind; [by apply lay_voicing_spec|]. intros vu V.
  rewrite total_duration_spec, bind_Ok by done. fold T in V |- *.
  eapply yields_bind.
  { apply (for_up_yields (fun i mem => memory_ok mem /\ voiced_unvoiced mem = vu /\
      (quiet T -> switches_off mem0 -> switches_off mem) /\
      forall k, 0 <= k < i -> generated mem0 T k (mpar mem))); [done| |].
    - split; [destruct M, V; by split|]. split; [done|]. split; [done|]. lia.
    - intros i mem Hi (M1 & Ev & O & G). rewrite <-Ev in V.
      eapply yields_bind; [by apply lay_stream_spec|]. fold T. intros [n mem1] (-> & M2 & K & R & O1).
      destruct K as (Kp & Kv & _).
      eapply yields_bind; [by apply pstream_spec|]. intros p (Pp & Fp & E1 & E2 & E3 & E4 & Op).
      destruct (Mlpg.mlpg_like p Fp) as (p' & Ep & Lp). rewrite Ep, bind_Ok.
      eapply yields_mono; [by eapply store_pstream_spec|]. intros mem3 (M3 & Ev3 & Es3 & Epar).
      split; [done|]. split; [congruence|].
      split; [unfold switches_off in *; rewrite Es3; intros; by apply O1; [|apply O]|].
      intros k Hk. unfold generated. rewrite Epar.
      pose proof (proj1 (mem_par _ M2)) as Lpar. rewrite lookup_insert_Z by lia.
      destruct (decide (k = i)) as [->|Hne].
      + rewrite bool_decide_eq_true_2 by done. exists p, p'. split; [done|]. split; [done|].
        split; [|done]. intros. by apply Op, O1; [|apply O].
      + rewrite bool_decide_eq_false_2, Kp by done. apply G. lia. }
  intros mem (M' & _ & _ & G). by apply yields_ok.
Qed.

(** C9: the trajectories.  For models as the synthesiser builds them, the
    optimisation of a window of the model queue returns without leaving any array
    and keeps the queue; the trajectory of every stream is the result of the
    parameter generation on the matrices that hold, row by row, the frames of the
    window's timeline (the voiced ones, in an MSD stream): the means of the
    distributions, and their inverse variances, which are 0 where a window
    reaches beyond its run of frames. *)
Theorem trajectories_generated q backup lookup :
  let window := backup + lookup + 1 in
  window_ok q window -> window <= nOfBackup + nOfLookup + 1 -> memory_ok (modelQueueMemory q) ->
  yields (optimizeParameters e q backup lookup) (fun q' => queue q' = queue q /\
    memory_ok (modelQueueMemory q') /\ forall i, 0 <= i < nOfStreams ->
      generated (modelQueueMemory q) (timeline q window) i (mpar (modelQueueMemory q'))).
Proof. apply window_yields. Qed.
End Streams.

(** ** A concrete window *)

Section Runs.
#[local] Existing Instance no_libm.

Lemma trajectories_generated_witness :
  window_ok ex_queue 2 /\ zlen (timeline ex_queue 2) = 11 /\
  yields (optimizeParameters ex_voice ex_queue 1 0) (fun q' => queue q' = queue ex_queue /\
    memory_ok (modelQueueMemory q') /\ forall i, 0 <= i < nOfStreams ->
      generated ex_voice (modelQueueMemory ex_queue) (timeline ex_queue 2) i (mpar (modelQueueMemory q'))).
Proof.
  assert (W : window_ok ex_queue 2).
  { split; [by split|]. split; [done|].
    apply Forall_cons. split; [split; [by apply ex_model_ok|apply blank_shaped]|].
    apply Forall_singleton. split; [by apply ex_model_ok|apply blank_shaped]. }
  split; [exact W|]. split; [reflexivity|].
  apply (trajectories_generated ex_voice ex_voice_laws eq_refl ex_queue 1 0 W); [done|].
  apply create_memory_ok.
Defined.
End Runs.

End Layout.
