(* ===== verification/Trajectory.v ===== *)
(** * The trajectories of a window (ModelQueue::optimizeParameters)

    The composition of [Layout] and [Likelihood]: what the optimisation of a
    window of models leaves in the stream memory, told by the distributions of
    the models' states. *)

From Stdlib Require Import Field QArith Qcanon.
From S2P Require Import Prelude Num Constants Sums Fifo MemQueue Duration Voice Matrix Model.
From S2P Require Import Mlpg Likelihood Generation ModelQueue Layout.
#[local] Open Scope Z_scope.

Module Trajectory.
Import Model ModelQueue Duration Layout Likelihood.

Section Trajectory.
Context {F : Type} `{NumOrdered F}.
Context (e : Engine F).
Hypothesis voice_ok : VoiceLaws (ms e).
Hypothesis threshold_ok : zlen (msd_threshold (global e)) = nOfStreams.

(** the first window of every stream is the static one *)
Definition windowed : Prop :=
  forall i, 0 <= i < nOfStreams -> r_width (ms e) i 0 = 0 /\ coefficient (ms e) i 0 0 <> nZ 0.
Hypothesis windows_ok : windowed.

(** ** The likelihood of a trajectory *)

(** frame [r] of a stream, and its distribution in column [j] *)
Definition frame_at (T : list (Model.t F * state F)) (i r : Z) : option (Z * state F) :=
  selected e i T !! Z.to_nat r.
Definition observed (T : list (Model.t F * state F)) (i r j : Z) : option (Z * dist F) :=
  '(f, st) ← frame_at T i r; d ← cell (streams st) i j; Some (f, d).

(** column of feature [m] under window [k] *)
Definition column_of (i k m : Z) : Z := k * statics e i + m.

Definition mean_at (T : list (Model.t F * state F)) (i m k r : Z) : F :=
  from_option (fun x => mean x.2) (nZ 0) (observed T i r (column_of i k m)).
Definition precision_at (T : list (Model.t F * state F)) (i m k r : Z) : F :=
  from_option (fun x => ivar_of e T i x.1 (column_of i k m) x.2) (nZ 0)
    (observed T i r (column_of i k m)).
Definition counts_for (i k r t : Z) : F :=
  if (l_width (ms e) i k <=? t - r) && (t - r <=? r_width (ms e) i k)
  then coefficient (ms e) i k (t - r) else nZ 0.

(** the weighted squared distance of trajectory [c] from the means of the
    timeline *)
Definition deviation (T : list (Model.t F * state F)) (i m : Z) (c : Z -> F) : F :=
  squares (zlen (selected e i T)) (window_size (ms e) i) (counts_for i) (precision_at T i m)
    (mean_at T i m) c.

(** the variances of the frames of a stream are in the range of [HTS_finv] *)
Definition proper_frames (T : list (Model.t F * state F)) (i : Z) : Prop :=
  forall r f st j d, frame_at T i r = Some (f, st) -> 0 <= j < columns e i ->
    cell (streams st) i j = Some d -> proper (vari d).

(** ** The stream of the parameter generation *)

Section Stream.
Context (T : list (Model.t F * state F)) (i : Z) (p : Mlpg.t F).
Hypothesis stream : 0 <= i < nOfStreams.
Hypothesis fits : Mlpg.fit p.
Hypothesis presented : presents e T i p.

Lemma column_in k m :
  0 <= k < window_size (ms e) i -> 0 <= m < statics e i -> 0 <= column_of i k m < columns e i.
Proof. intros. unfold column_of, columns. nia. Qed.

Lemma presented_entry r k m :
  0 <= r < zlen (selected e i T) -> 0 <= k < window_size (ms e) i -> 0 <= m < statics e i ->
  exists f st d, frame_at T i r = Some (f, st) /\ cell (streams st) i (column_of i k m) = Some d /\
    observed T i r (column_of i k m) = Some (f, d) /\
    mean_of p m k r = mean d /\ weight_of p m k r = ivar_of e T i f (column_of i k m) d.
Proof.
  intros Hr Hk Hm. destruct (lookup_lt_is_Some_2 (selected e i T) (Z.to_nat r)) as [[f st] E];
    [unfold zlen in Hr; lia|].
  destruct (pr_rows _ _ _ _ presented r f st E ltac:(lia) (column_of i k m)) as (d & Ed & Em & Ev);
    [by apply column_in|].
  exists f, st, d. split; [done|]. split; [done|].
  unfold observed, frame_at. rewrite E. cbn. rewrite Ed. cbn. split; [done|].
  unfold mean_of, weight_of, Mlpg.ent. rewrite (pr_static _ _ _ _ presented).
  fold (column_of i k m). unfold cell in Em, Ev. by rewrite Em, Ev.
Qed.

Lemma presented_mean r k m :
  0 <= r < zlen (selected e i T) -> 0 <= k < window_size (ms e) i -> 0 <= m < statics e i ->
  mean_of p m k r = mean_at T i m k r /\ weight_of p m k r = precision_at T i m k r.
Proof.
  intros Hr Hk Hm. destruct (presented_entry r k m Hr Hk Hm) as (f & st & d & _ & _ & E & -> & ->).
  unfold mean_at, precision_at. by rewrite E.
Qed.

Lemma presented_window k r t :
  0 <= k < window_size (ms e) i -> offsets p k r t = counts_for i k r t.
Proof.
  intros Hk. destruct (pr_widths _ _ _ _ presented k Hk) as [El Er].
  destruct (pr_windows _ _ _ _ presented) as [_ Ec].
  unfold offsets, window, counts_for. by rewrite El, Er, Ec.
Qed.

Lemma presented_distance m c : 0 <= m < statics e i -> distance p m c = deviation T i m c.
Proof.
  intros Hm. unfold distance, deviation.
  rewrite (pr_length _ _ _ _ presented), (proj1 (pr_windows _ _ _ _ presented)).
  apply over_ext. intros k r Hk Hr. destruct (presented_mean r k m Hr Hk Hm) as [-> ->].
  assert (E : feature (zlen (selected e i T)) (offsets p) c k r
              = feature (zlen (selected e i T)) (counts_for i) c k r).
  { apply sum_ext. intros t _. by rewrite presented_window. }
  by rewrite E.
Qed.

(** the first [statics] columns are those of the static window *)
Lemma static_column m : 0 <= m < statics e i -> column_of i 0 m / statics e i = 0.
Proof. intros Hm. unfold column_of. apply Z.div_small. lia. Qed.

Lemma presented_regular : proper_frames T i -> regular p.
Proof.
  intros V. destruct (windows_ok i stream) as (Wr & Wc).
  destruct (pr_windows _ _ _ _ presented) as [Ew Ec].
  destruct (voice_window i stream) as [W0 _].
  assert (W1 : 0 <= 0 < window_size (ms e) i) by lia.
  destruct (pr_widths _ _ _ _ presented 0 W1) as [El Er]. change (Z.to_nat 0) with 0%nat in *.
  split.
  - destruct (voice_symmetric i 0 stream W1) as [Wl _]. rewrite El, Er, Wl, Wr, Ec. done.
  - intros k r E. assert (Hk : 0 <= Z.of_nat k < window_size (ms e) i).
    { apply lookup_lt_Some in E. destruct (Mlpg.fit_windows _ fits) as (_ & Nr & _).
      rewrite <-Ew, <-Nr. unfold zlen. lia. }
    destruct (pr_widths _ _ _ _ presented _ Hk) as [_ Er']. rewrite Nat2Z.id, E in Er'.
    injection Er' as ->. rewrite (pr_width _ _ _ _ presented).
    destruct (voice_symmetric i _ stream Hk) as [_ ?]. lia.
  - intros m k r Hm Hk Hr. rewrite (pr_static _ _ _ _ presented) in Hm. rewrite Ew in Hk.
    rewrite (pr_length _ _ _ _ presented) in Hr.
    destruct (presented_entry r k m Hr Hk Hm) as (f & st & d & Ef & Ed & _ & _ & ->).
    unfold ivar_of. destruct (_ || _); [|apply nonneg_zero].
    apply HTS_finv_positive. eapply V; [done| |done]. by apply column_in.
  - intros m r Hm Hr. rewrite (pr_static _ _ _ _ presented) in Hm.
    rewrite (pr_length _ _ _ _ presented) in Hr.
    destruct (presented_entry r 0 m Hr ltac:(lia) Hm) as (f & st & d & Ef & Ed & _ & _ & ->).
    unfold ivar_of. rewrite static_column, orb_true_r by done.
    apply HTS_finv_positive. eapply V; [done| |done]. by apply column_in; [lia|].
Qed.
End Stream.

(** trajectory [x] is the one of least deviation *)
Definition likeliest (T : list (Model.t F * state F)) (i m : Z) (x : Z -> F) : Prop :=
  forall c, nleb (deviation T i m x) (deviation T i m c) = true /\
    (deviation T i m c = deviation T i m x ->
     forall t, 0 <= t < zlen (selected e i T) -> c t = x t).

(** no frame takes part in the global variance of a stream: the voice has none, or
    all switches are off *)
Definition plain (mem0 : memory F) (T : list (Model.t F * state F)) (i : Z) : Prop :=
  use_gv (ms e) i = false \/ quiet T /\ switches_off mem0.

Lemma generated_likeliest mem0 T i par :
  0 <= i < nOfStreams -> plain mem0 T i -> proper_frames T i ->
  generated e mem0 T i par ->
  exists rows, par !! Z.to_nat i = Some rows /\
    forall m, 0 <= m < statics e i -> likeliest T i m (fun t => Mlpg.ent rows t m).
Proof.
  intros Hi Hg V (p & p' & P & W & Off & E & Ep). exists (Mlpg.par p'). split; [done|]. intros m Hm c.
  assert (G : Mlpg.gv_length p = 0 \/ Generation.unswitched p).
  { destruct Hg as [Hg|[Q O]]; [left; by rewrite (pr_gv _ _ _ _ P), Hg|right].
    intros t s _ Es. by eapply (proj1 (Forall_lookup _ _) (Off Q O)). }
  destruct (Generation.mlpg_nearest p W (presented_regular T i p Hi W P V) G) as (p2 & E2 & _ & N).
  rewrite E in E2. injection E2 as <-. rewrite <-(pr_static _ _ _ _ P) in Hm.
  destruct (N m Hm c) as [Le Un]. rewrite (pr_static _ _ _ _ P) in Hm.
  rewrite <-!(presented_distance T i p P) by done. rewrite <-(pr_length _ _ _ _ P). by split.
Qed.

(** C6: speech parameters.  For a window of models as the synthesiser builds
    them, and a voice whose first windows are static, the optimisation returns, on
    exact numbers, and leaves in the memory of every stream, for every dimension,
    the most likely trajectory: the only one whose squared distance from the means
    of the frames' distributions, over all windows, weighted by their inverse
    variances (0 where a window reaches beyond its run of frames), is least.  The
    variances are positive and below 1e19, and the stream has no global variance,
    or no frame is switched on for it, as none ever is in MAGE's models. *)
Theorem optimizes_likelihood q backup lookup :
  let w := backup + lookup + 1 in
  window_ok q w -> w <= nOfBackup + nOfLookup + 1 -> memory_ok (modelQueueMemory q) ->
  yields (optimizeParameters e q backup lookup) (fun q' => queue q' = queue q /\
    forall i, 0 <= i < nOfStreams -> plain (modelQueueMemory q) (timeline q w) i ->
      proper_frames (timeline q w) i -> exists rows, mpar (modelQueueMemory q') !! Z.to_nat i = Some rows /\
        forall m, 0 <= m < statics e i ->
          likeliest (timeline q w) i m (fun t => Mlpg.ent rows t m)).
Proof.
  intros w Hq Hw M. eapply yields_mono; [by apply window_yields|]. intros q' (Eq & _ & G).
  split; [done|]. intros i Hi Hg V. by eapply generated_likeliest; [..|by apply G].
Qed.
End Trajectory.

(** ** A concrete window *)

Section ExactRuns.
#[local] Existing Instance no_qlibm.

Definition ex_dist : dist Qc := mkDist (nZ 1) (nZ 1) (nZ 0).
Definition ex_steady (durs : list Z) : Model.t Qc := setDuration (uniform ex_dist durs) (zsum durs).
Definition ex_moment : ModelQueue.t Qc :=
  mk (MemQueue.mk 2 4 None 3 1
        [ex_steady [1; 0; 2; 0; 1]; blank []; blank []; ex_steady [3; 1; 1; 1; 1]])
    create_memory.
Definition ex_flat : Engine Qc := flat_voice (nZ 1).

Lemma frame_in {F} `{NumOps F} (e : Engine F) T i r f st :
  frame_at e T i r = Some (f, st) -> exists m, (m, st) ∈ T.
Proof.
  intros E. apply list_elem_of_lookup_2 in E. unfold selected in E.
  apply list_elem_of_In, filter_In in E as [E _].
  apply list_elem_of_In, list_elem_of_lookup in E as (n & E).
  apply list_lookup_imap_Some in E as ([m st'] & E & [= _ ->]).
  exists m. by eapply list_elem_of_lookup_2.
Qed.

Lemma ex_moment_proper i : proper_frames ex_flat (timeline ex_moment 2) i.
Proof.
  assert (A : Forall (fun x => streams x.2 = replicate 3 (replicate 105 ex_dist)) (timeline ex_moment 2))
    by by repeat constructor.
  intros r f st j d E _ Ed. apply frame_in in E as (m & Em).
  rewrite Forall_forall in A. specialize (A _ Em). cbn [snd] in A. rewrite A in Ed.
  unfold cell in Ed. apply bind_Some in Ed as (row & Er & Ed).
  apply lookup_replicate in Er as [-> _]. apply lookup_replicate in Ed as [-> _].
  split; [done|]. split; [|done]. by apply nZ_0_neq.
Qed.

Lemma optimizes_likelihood_witness :
  yields (optimizeParameters ex_flat ex_moment 1 0) (fun q' => queue q' = queue ex_moment /\
    forall i, 0 <= i < 3 -> exists rows, mpar (modelQueueMemory q') !! Z.to_nat i = Some rows /\
      forall m, 0 <= m < 1 ->
        likeliest ex_flat (timeline ex_moment 2) i m (fun t => Mlpg.ent rows t m)).
Proof.
  assert (W : window_ok ex_moment 2).
  { split; [by split|]. split; [done|].
    apply Forall_cons. split; [split; [by apply uniform_ok|apply uniform_shaped]|].
    apply Forall_singleton. split; [by apply uniform_ok|apply uniform_shaped]. }
  eapply yields_mono.
  - apply (optimizes_likelihood ex_flat (flat_voice_laws _) eq_refl) with (backup := 1) (lookup := 0);
      [|exact W|done|apply create_memory_ok].
    intros i Hi. split; [done|]. by apply nZ_0_neq.
  - intros q' [Eq G]. split; [exact Eq|]. intros i Hi. apply G; [done|by left|apply ex_moment_proper].
Defined.
End ExactRuns.
End Trajectory.
