(* ===== verification/Building.v ===== *)
(** * The building of a model from a label: it returns

    [Model] shows what the passes over a model compute when they return; this
    file shows that they do return, for engines whose weights have the sizes
    their model sets say ([engine_ok]) and models in the memory of the
    constructor ([slot_ok]): the check of the weights and the distributions for
    any arithmetic, the durations of unforced labels on binary64. *)

From Stdlib Require Import String.
From S2P Require Import Prelude Num Constants CString Matrix Duration Label Voice Model.
#[local] Open Scope Z_scope.

Module Building.
Import Model Duration.

Section Building.
Context {F : Type} `{NumOps F}.
#[local] Open Scope num_scope.
#[local] Open Scope Z_scope.

(** ** Engines and slots *)

(** [n] weights can be read *)
Definition weights_for (ws : list (list F)) (k n : Z) : Prop :=
  exists w, ws !! Z.to_nat k = Some w /\ 0 <= n <= zlen w.

(** the weights have the sizes of the model set [v] *)
Record weights_ok (g : Global F) (v : Voice F) : Prop := {
  w_duration : 0 <= duration_interpolation_size v <= zlen (duration_iw g);
  w_parameter : forall k, 0 <= k < nOfStreams ->
    weights_for (parameter_iw g) k (parameter_interpolation_size v k);
  w_gv : forall k, 0 <= k < nOfStreams -> use_gv v k = true ->
    weights_for (gv_iw g) k (gv_interpolation_size v k)
}.

Record engine_ok (e : Engine F) : Prop := {
  e_laws : VoiceLaws (ms e);
  e_threshold : zlen (msd_threshold (global e)) = nOfStreams;
  e_weights : weights_ok (global e) (ms e)
}.

(** a model as the constructor allocates it *)
Definition slot_ok (m : Model.t F) : Prop :=
  zlen (states m) = nOfStates /\ Forall shaped (states m) /\
  zlen (duration_array m) = nOfStates /\
  dims nOfStreams maxStreamLen (stream_mean m) /\ dims nOfStreams maxStreamLen (stream_vari m).

(** ** Passes over the states *)

Lemma each_state_yields (f : Z -> state F -> Res (state F)) (R : state F -> state F -> Prop) m :
  slot_ok m ->
  (forall i s, 0 <= i < nOfStates -> shaped s ->
     yields (f i s) (fun s' => shaped s' /\ sduration s' = sduration s)) ->
  yields (each_state f m) (fun m' => slot_ok m' /\ keeps_durations m m').
Proof.
  intros (L & A & D & M) Hf.
  assert (Y : yields (for_up 0 nOfStates (fun i l => upd l i (f i)) (states m))
    (fun l => zlen l = nOfStates /\ Forall shaped l /\
              sduration <$> l = sduration <$> states m)).
  { apply (for_up_yields (fun _ l => zlen l = nOfStates /\ Forall shaped l /\
      sduration <$> l = sduration <$> states m)); [done|done|].
    intros i l Hi (Ll & Al & El). destruct (yields_rd l i) as (s & Es & Xs); [lia|].
    unfold upd. rewrite Es, bind_Ok.
    destruct (Hf i s Hi) as (s' & -> & Hs' & Ed); [rewrite Forall_lookup in Al; by eapply Al|].
    rewrite bind_Ok, wr_ok by lia. apply yields_ok. split; [by rewrite zlen_insert|].
    split; [by apply Forall_insert|]. rewrite list_fmap_insert, <-El, Ed. apply list_insert_id.
    by rewrite list_lookup_fmap, Xs. }
  destruct Y as (l & E & Ll & Al & El). unfold each_state. rewrite E, bind_Ok. by apply yields_ok.
Qed.

Lemma keeps_refl (m : Model.t F) : keeps_durations m m.
Proof. done. Qed.
Lemma keeps_trans (m1 m2 m3 : Model.t F) :
  keeps_durations m1 m2 -> keeps_durations m2 m3 -> keeps_durations m1 m3.
Proof. intros [A1 A2] [B1 B2]. split; congruence. Qed.

Lemma row_yields (g : Z -> dist F -> Res (dist F)) size row :
  0 <= size <= zlen row -> (forall j d, 0 <= j < size -> yields (g j d) (fun _ => True)) ->
  yields (for_up 0 size (fun j row => upd row j (g j)) row) (fun row' => zlen row' = zlen row).
Proof.
  intros Hs Hg. apply len_loop; [lia|]. intros j r Hj L. apply upd_len; [lia|]. intros d. by apply Hg.
Qed.

(** a change of the distributions of stream [k], in every state *)
Lemma streams_pass (g : Z -> list (dist F) -> Res (list (dist F))) k m :
  slot_ok m -> 0 <= k < nOfStreams ->
  (forall i row, 0 <= i < nOfStates -> maxStreamLen <= zlen row ->
     yields (g i row) (fun row' => zlen row' = zlen row)) ->
  yields (each_state (fun i s => rows ← upd (streams s) k (g i);
                                 Ok (s <| streams := rows |>)) m)
    (fun m' => slot_ok m' /\ keeps_durations m m').
Proof.
  intros M Hk Hg. apply (each_state_yields _ (fun _ _ => True)); [done|].
  intros i s Hi (D & Dg & Ls).
  eapply yields_bind; [by eapply upd_shape; [exact D|done|intros; by apply Hg]|]. intros rows Sh. apply yields_ok.
  split; [|done]. split; [exact (dims_shape _ _ _ _ Sh D)|]. done.
Qed.

Lemma initParameters_yields m :
  slot_ok m -> yields (initParameters m) (fun m' => slot_ok m' /\ keeps_durations m m').
Proof.
  intros M. unfold initParameters.
  apply (for_up_yields (fun _ m' => slot_ok m' /\ keeps_durations m m')); [done|done|].
  intros k m1 Hk [M1 K1]. eapply yields_mono.
  - apply (streams_pass (fun _ row => _) k m1 M1 Hk). intros i row _ L.
    apply (row_yields (fun j d => Ok (d <| mean := nZ 0 |> <| vari := nZ 0 |>)));
      [change maxStreamLen with 105 in *; lia|].
    intros. by apply yields_ok.
  - intros m' [M' K']. split; [done|]. by eapply keeps_trans.
Qed.

Lemma strcpy_fits n s :
  Z.of_nat (String.length (cstr s)) < n -> strcpy n s = Ok (cstr s).
Proof.
  intros L. unfold strcpy, check. by rewrite (proj2 (Z.ltb_lt _ _)) by done.
Qed.

(** the query of a label fits the buffer it is copied into *)
Definition query_fits (l : Label.t F) : Prop :=
  Z.of_nat (String.length (cstr (Label.getQuery l))) < maxStrLen.

(** the memory of hts_engine's results takes them *)
Lemma write_row_yields (mem : list (list F)) k new :
  dims nOfStreams maxStreamLen mem -> 0 <= k < nOfStreams -> zlen new <= maxStreamLen ->
  yields (write_row mem k new) (dims nOfStreams maxStreamLen).
Proof.
  intros D Hk Hn. eapply yields_mono.
  - eapply upd_shape; [exact D|done|]. intros row L. pose proof (zlen_nonneg new).
    rewrite memcpy_ok by lia. apply yields_ok. rewrite !zlen_app, !zlen_take, !zlen_drop. lia.
  - intros mem' Sh. exact (dims_shape _ _ _ _ Sh D).
Qed.

Lemma store_results_yields k means varis m :
  slot_ok m -> 0 <= k < nOfStreams -> zlen means <= maxStreamLen -> zlen varis <= maxStreamLen ->
  yields (store_results k means varis m) (fun m' => slot_ok m' /\ states m' = states m /\
    duration m' = duration m /\
    (exists row, rd (stream_mean m') k = Ok row /\ maxStreamLen <= zlen row) /\
    (exists row, rd (stream_vari m') k = Ok row /\ maxStreamLen <= zlen row)).
Proof.
  intros (L & A & D & Dm & Dv) Hk Hm Hv. unfold store_results.
  eapply yields_bind; [by apply write_row_yields|]. intros mu Dm'.
  eapply yields_bind; [by apply write_row_yields|]. intros va Dv'. apply yields_ok.
  split; [by repeat (split; [done|])|]. split; [done|]. split; [done|]. split.
  - destruct (yields_row _ _ _ k Dm' Hk) as (row & E & _ & Lr). by exists row.
  - destruct (yields_row _ _ _ k Dv' Hk) as (row & E & _ & Lr). by exists row.
Qed.

Lemma parameters_state_yields e q k iw piw i m :
  engine_ok e -> 0 <= k < nOfStreams -> 0 <= i < nOfStates -> slot_ok m ->
  yields (computeParameters_state (ms e) q k iw piw i m)
    (fun m' => slot_ok m' /\ keeps_durations m m').
Proof.
  intros [V _ _] Hk Hi M. unfold computeParameters_state.
  destruct (voice_vector k Hk) as [Hv0 Hv]. destruct (voice_parameter q k (i + 2) piw Hk) as [Lm Lv].
  destruct (get_parameter _ _ _ _ _) as [[mu va] msd]. cbn [fst snd] in Lm, Lv.
  eapply yields_bind; [by apply (store_results_yields k mu va); [..|lia|lia]|].
  intros m1 (M1 & Es & Ed & (means & Er & Lr) & (varis & Ev & Lw)). cbn zeta.
  rewrite Er, bind_Ok, Ev, bind_Ok. set (msd' := if msd_flag _ _ then _ else _). destruct M1 as (L & A & D & Dm & Dv).
  destruct (yields_rd (states m1) i) as (s & Xs & Xl); [lia|]. pose proof A as A'.
  rewrite Forall_lookup in A. destruct (A _ _ Xl) as (Ds & Dg & Ls).
  unfold upd at 1. rewrite Xs, bind_Ok.
  destruct (upd_shape _ _ _ _ (add_row iw means varis msd' (vector_length (ms e) k))
    Ds Hk) as (rows & Erows & Sh).
  { intros row L'. unfold add_row. apply row_yields; [lia|]. intros j d Hj.
    eapply yields_bind; [apply yields_rd; lia|]. intros x _.
    eapply yields_bind; [apply yields_rd; lia|]. intros y _. by apply yields_ok. }
  rewrite Erows, !bind_Ok, wr_ok, bind_Ok by lia. apply yields_ok. split.
  - split; [cbn; by rewrite zlen_insert|]. split; [|done]. apply Forall_insert; [done|].
    split; [exact (dims_shape _ _ _ _ Sh Ds)|]. done.
  - split; [|exact Ed]. unfold durations. cbn [states set_field eta_model].
    rewrite durations_insert. cbn [sduration set_field eta_state]. rewrite <-Es.
    apply list_insert_id. by rewrite list_lookup_fmap, Xl.
Qed.

Lemma parameters_yields m e l :
  engine_ok e -> query_fits l -> slot_ok m ->
  yields (computeParameters m e l None) (fun m' => slot_ok m' /\ keeps_durations m m').
Proof.
  intros He Hq M. pose proof He as [V _ [_ Wp _]]. unfold computeParameters.
  rewrite strcpy_fits, bind_Ok by done.
  apply (for_up_yields (fun _ m' => slot_ok m' /\ keeps_durations m m')); [done|done|].
  intros k m1 Hk [M1 K1]. cbn [weight]. rewrite bind_Ok.
  destruct (Wp k Hk) as (w & Ew & _). rewrite (rd_ok _ _ w), bind_Ok by (done || lia).
  apply (for_up_yields (fun _ m' => slot_ok m' /\ keeps_durations m m')); [done|done|].
  intros i m2 Hi [M2 K2]. eapply yields_mono; [by apply parameters_state_yields|].
  intros m' [M' K']. split; [done|]. by eapply keeps_trans.
Qed.

Lemma computeGlobalVariances_yields m e l :
  engine_ok e -> query_fits l -> slot_ok m ->
  yields (computeGlobalVariances m e l) (fun m' => slot_ok m' /\ keeps_durations m m').
Proof.
  intros [V _ [_ _ Wg]] Hq M. unfold computeGlobalVariances. rewrite strcpy_fits, bind_Ok by done.
  eapply yields_bind.
  { apply (for_up_yields (fun _ m' => slot_ok m' /\ keeps_durations m m')); [done|done|].
    intros k m1 Hk [M1 K1]. destruct (use_gv (ms e) k) eqn:Eg; [|by apply yields_ok].
    destruct (Wg k Hk Eg) as (w & Ew & _). rewrite (rd_ok _ _ w), bind_Ok by (done || lia).
    destruct (voice_vector k Hk) as [Hv0 Hv].
    destruct (voice_gv (cstr (Label.getQuery l)) k w Hk) as [Lm Lv].
    destruct (get_gv _ _ _ _) as [mu va]. cbn [fst snd] in Lm, Lv.
    eapply yields_bind; [by apply (store_results_yields k mu va)|].
    intros m2 (M2 & Es & Ed & (means & -> & Lr) & (varis & -> & Lw)). rewrite !bind_Ok.
    eapply yields_mono.
    - eapply (each_state_yields _ (fun _ _ => True)); [done|]. intros i s Hi (D & Dg & Ls).
      eapply yields_bind.
      { eapply upd_shape; [exact Dg|done|]. intros row L. unfold set_row. apply row_yields; [lia|].
        intros j d Hj. eapply yields_bind; [apply yields_rd; lia|]. intros x _.
        eapply yields_bind; [apply yields_rd; lia|]. intros y _. by apply yields_ok. }
      intros rows Sh. apply yields_ok. split; [|done]. split; [done|].
      split; [exact (dims_shape _ _ _ _ Sh Dg)|done].
    - intros m' [M' K']. split; [done|]. eapply keeps_trans; [exact K1|].
      destruct K' as [K' K'']. split; [|congruence]. rewrite K'. unfold durations. by rewrite Es. }
  intros m1 [M1 K1]. eapply (yields_bind _ _ (fun _ => True)).
  { destruct (have_gv_switch (ms e)) eqn:Es; [by apply voice_switch|by apply yields_ok]. }
  intros gvs _. eapply yields_mono.
  - eapply (each_state_yields _ (fun _ _ => True)); [done|]. intros i s Hi (D & Dg & Ls).
    eapply yields_bind.
    { apply (len_loop 0 nOfStreams (fun j sw => wr sw j false)); [done|].
      intros j sw Hj L. rewrite wr_ok by lia. apply yields_ok. by rewrite zlen_insert. }
    intros sw Lsw. cbn beta in Lsw. apply yields_ok. split; [|done]. split; [done|]. split; [done|].
    cbn. lia.
  - intros m' [M' K']. split; [done|]. by eapply keeps_trans.
Qed.

(** ** The check of the weights *)

Lemma normalise_yields (iw : list F) size :
  0 <= size <= zlen iw -> yields (normalise iw size) (fun iw' => zlen iw' = zlen iw).
Proof.
  intros Hs. unfold normalise. eapply yields_bind.
  { apply (any_loop 0 size); [lia|]. intros i temp Hi.
    eapply yields_bind; [apply yields_rd; lia|]. intros w _. by apply yields_ok. }
  intros temp _. destruct (negb _); [|by apply yields_ok].
  apply len_loop; [lia|]. intros i l Hi L. apply upd_len; [lia|]. intros. by apply yields_ok.
Qed.

Lemma weights_for_upd (ws : list (list F)) k n :
  0 <= k -> weights_for ws k n ->
  yields (upd ws k (fun w => normalise w n)) (fun ws' => forall k' n', 0 <= k' ->
    weights_for ws k' n' -> weights_for ws' k' n').
Proof.
  intros Hk (w & Ew & Hn). pose proof (lookup_lt_Some _ _ _ Ew) as Hl.
  destruct (normalise_yields w n Hn) as (w' & En & L). unfold upd.
  rewrite (rd_ok _ _ w), bind_Ok, En, bind_Ok, wr_ok by (unfold zlen; (done || lia)).
  apply yields_ok. intros k' n' Hk' (x & Ex & Hx). unfold weights_for.
  rewrite lookup_insert_Z by (unfold zlen; lia). case_bool_decide as C.
  - subst k'. exists w'. split; [done|]. rewrite Ew in Ex. injection Ex as <-. lia.
  - by exists x.
Qed.

(** the weights of the durations an engine uses: its own, checked or not *)
Definition used (e : Engine F) (iw : list F) : Prop :=
  iw = duration_iw (global e) \/
  normalise (duration_iw (global e)) (duration_interpolation_size (ms e)) = Ok iw.

Lemma checkInterpolationWeights_yields m e b :
  engine_ok e -> slot_ok m ->
  yields (checkInterpolationWeights m e b) (fun r => slot_ok r.1 /\ keeps_durations m r.1 /\
    engine_ok r.2 /\ ms r.2 = ms e /\ used e (duration_iw (global r.2))).
Proof.
  intros [V T [Wd Wp Wg]] M. unfold checkInterpolationWeights.
  destruct (_ || _).
  2:{ apply yields_ok. split; [done|]. split; [done|]. split; [by split|]. split; [done|]. by left. }
  cbn zeta.
  destruct (normalise_yields _ _ Wd) as (d & En & Ld). rewrite En, bind_Ok.
  eapply yields_bind.
  { apply (for_up_yields (fun _ g => weights_ok g (ms e) /\
      zlen (msd_threshold g) = nOfStreams /\ duration_iw g = d)); [done| |].
    - split; [|done]. split; [cbn; lia|done|done].
    - intros i g Hi [[Gd Gp Gg] [Gt Gi]].
      eapply yields_bind; [by apply weights_for_upd; [lia|apply Gp]|]. intros p Hp.
      destruct (use_gv (ms e) i) eqn:Eg.
      + eapply yields_bind; [by apply (weights_for_upd (gv_iw g)); [lia|apply Gg]|]. intros gv Hg.
        apply yields_ok. split; [|done]. split; [done| |].
        * intros k Hk. apply Hp; [lia|by apply Gp].
        * intros k Hk Ek. apply Hg; [lia|by apply Gg].
      + apply yields_ok. split; [|done]. split; [done| |done].
        intros k Hk. apply Hp; [lia|by apply Gp]. }
  intros g (Gw & Gt & Gi). apply yields_ok. cbn [fst snd global ms].
  split; [done|]. split; [done|]. split; [by split|]. split; [done|]. right. by rewrite Gi.
Qed.
(** ** Durations *)

(** a model is [slot_ok] as long as its states keep their distributions *)
Definition same_memory (m m' : Model.t F) : Prop :=
  (zlen (duration_array m'), stream_mean m', stream_vari m') =
  (zlen (duration_array m), stream_mean m, stream_vari m) /\
  (fun s => (streams s, gv_streams s, gv_switch_streams s)) <$> states m' =
  (fun s => (streams s, gv_streams s, gv_switch_streams s)) <$> states m.

Lemma same_memory_slot m m' : same_memory m m' -> slot_ok m -> slot_ok m'.
Proof.
  intros [[= Ed Em Ev] E] (L & A & D & Dm & Dv).
  pose proof (f_equal List.length E) as El. rewrite !length_fmap in El.
  split; [unfold zlen in *; lia|]. split; [|by rewrite Ed, Em, Ev]. rewrite Forall_lookup in A |- *. intros i s' Es'.
  destruct (lookup_lt_is_Some_2 (states m) i) as [s Es].
  { apply lookup_lt_Some in Es'. lia. }
  pose proof (f_equal (fun l => l !! i) E) as Ei. cbn beta in Ei.
  rewrite !list_lookup_fmap, Es, Es' in Ei. injection Ei as E1 E2 E3.
  unfold shaped. rewrite E1, E2, E3. by apply (A i).
Qed.

Lemma same_memory_trans m1 m2 m3 : same_memory m1 m2 -> same_memory m2 m3 -> same_memory m1 m3.
Proof. intros [A1 A2] [B1 B2]. split; congruence. Qed.

Lemma same_memory_insert (i : nat) s d (l : list (state F)) :
  l !! i = Some s ->
  (fun s => (streams s, gv_streams s, gv_switch_streams s)) <$> <[i := s <| sduration := d |>]> l =
  (fun s => (streams s, gv_streams s, gv_switch_streams s)) <$> l.
Proof.
  intros E. rewrite list_fmap_insert. apply list_insert_id. by rewrite list_lookup_fmap, E.
Qed.

(** the durations of a model set one by one *)
Lemma durations_set (l : list (state F)) (ds : list Z) (i : nat) s d :
  l !! i = Some s -> ds !! i = Some d ->
  sduration <$> l = take i ds ++ drop i (sduration <$> l) ->
  sduration <$> <[i := s <| sduration := d |>]> l
  = take (S i) ds ++ drop (S i) (sduration <$> <[i := s <| sduration := d |>]> l).
Proof.
  intros Es Ed E. rewrite durations_insert. cbn [sduration set_field eta_state].
  assert (Li : (i < length (sduration <$> l))%nat)
    by (rewrite length_fmap; by eapply lookup_lt_Some).
  rewrite <-(take_drop (S i) (<[i:=d]> (sduration <$> l))) at 1. f_equal.
  rewrite (take_S_r _ _ d) by by apply list_lookup_insert_eq.
  rewrite take_insert_ge by lia. rewrite (take_S_r _ _ _ Ed). f_equal.
  apply lookup_lt_Some in Ed. rewrite E, take_app_le by (rewrite length_take; lia).
  rewrite take_take. f_equal. lia.
Qed.

(** the first [i] states of [l0] have got their durations *)
Definition progress (ds : list Z) (l0 : list (state F)) (i : Z) (l : list (state F)) : Prop :=
  (fun s => (streams s, gv_streams s, gv_switch_streams s)) <$> l =
  (fun s => (streams s, gv_streams s, gv_switch_streams s)) <$> l0 /\
  sduration <$> l = take (Z.to_nat i) ds ++ drop (Z.to_nat i) (sduration <$> l) /\
  drop (Z.to_nat i) l = drop (Z.to_nat i) l0.

Lemma progress_step ds l0 i l :
  progress ds l0 i l -> zlen l0 = nOfStates -> zlen ds = nOfStates -> 0 <= i < nOfStates ->
  exists s d, l0 !! Z.to_nat i = Some s /\ ds !! Z.to_nat i = Some d /\ rd l i = Ok s /\
    wr l i (s <| sduration := d |>) = Ok (<[Z.to_nat i := s <| sduration := d |>]> l) /\
    progress ds l0 (i + 1) (<[Z.to_nat i := s <| sduration := d |>]> l).
Proof.
  intros (El & Ed & Er) L Ld Hi.
  destruct (yields_rd l0 i) as (s & _ & Xs); [lia|].
  destruct (yields_rd ds i) as (d & _ & Xd); [lia|].
  assert (Xl : l !! Z.to_nat i = Some s).
  { pose proof (f_equal (fun l => l !! O) Er) as E0. cbn beta in E0.
    rewrite !lookup_drop, Nat.add_0_r in E0. congruence. }
  pose proof (lookup_lt_Some _ _ _ Xl). exists s, d. split; [done|]. split; [done|].
  split; [apply rd_ok; (done || lia)|]. split; [apply wr_ok; unfold zlen; lia|].
  unfold progress. replace (Z.to_nat (i + 1)) with (S (Z.to_nat i)) by lia.
  split; [by rewrite same_memory_insert|]. split; [by apply durations_set|].
  rewrite drop_insert_lt by lia.
  replace (S (Z.to_nat i)) with (Z.to_nat i + 1)%nat by lia. by rewrite <-!drop_drop, Er.
Qed.

Lemma progress_end ds l0 l :
  progress ds l0 nOfStates l -> zlen l0 = nOfStates -> zlen ds = nOfStates -> sduration <$> l = ds.
Proof.
  intros (El & Ed & _) L Ld. pose proof (f_equal List.length El) as Ll. rewrite !length_fmap in Ll.
  rewrite Ed, drop_ge, app_nil_r, take_ge; [done|unfold zlen in Ld; lia|].
  rewrite length_fmap. unfold zlen in L. lia.
Qed.

Lemma each_duration (f : Z -> state F -> Res (state F)) (ds : list Z) m :
  zlen (states m) = nOfStates -> zlen ds = nOfStates ->
  (forall i s d, 0 <= i < nOfStates -> states m !! Z.to_nat i = Some s ->
     ds !! Z.to_nat i = Some d -> f i s = Ok (s <| sduration := d |>)) ->
  yields (each_state f m) (fun m' => same_memory m m' /\ durations m' = ds).
Proof.
  intros L Ld Hf. unfold each_state.
  destruct (for_up_yields (progress ds (states m)) 0 nOfStates (fun i l => upd l i (f i)) (states m))
    as (l & E & P); [done|done| |].
  - intros i l Hi P. destruct (progress_step _ _ _ _ P L Ld Hi) as (s & d & Xs & Xd & Er & Ew & P').
    unfold upd. rewrite Er, bind_Ok, (Hf i s d), bind_Ok, Ew by done. by apply yields_ok.
  - rewrite E, bind_Ok. apply yields_ok. pose proof (progress_end _ _ _ P L Ld).
    destruct P as (El & _). by split.
Qed.

Lemma initDuration_yields m :
  zlen (states m) = nOfStates ->
  yields (initDuration m) (fun m' => same_memory m m' /\
    durations m' = replicate (Z.to_nat nOfStates) 0).
Proof.
  intros L. apply each_duration; [done|done|]. intros i s d _ _ E.
  by apply lookup_replicate in E as [-> _].
Qed.

Lemma accumulate_yields f (ds : list Z) m :
  zlen (states m) = nOfStates -> zlen ds = nOfStates -> Forall (fun d => 0 <= d) ds ->
  zsum ds < 2 ^ 31 ->
  (forall i s d, 0 <= i < nOfStates -> states m !! Z.to_nat i = Some s ->
     ds !! Z.to_nat i = Some d -> f i (sduration s) = Ok d) ->
  yields (accumulate f m) (fun r => r.2 = zsum ds /\ durations r.1 = ds /\ same_memory m r.1).
Proof.
  intros L Ld P Hsum Hf. unfold accumulate. eapply yields_mono.
  { apply (for_up_yields (fun i r => progress ds (states m) i (states r.1) /\
      r.2 = zsum (take (Z.to_nat i) ds) /\ (duration_array r.1, stream_mean r.1, stream_vari r.1) =
        (duration_array m, stream_mean m, stream_vari m))); [done|done|].
    intros i [m1 acc] Hi R. cbn [fst snd] in R. destruct R as (Pr & -> & Ea).
    destruct (progress_step _ _ _ _ Pr L Ld Hi) as (s & d & Xs & Xd & Er & Ew & P').
    unfold upd. rewrite Er, bind_Ok, (Hf i s d), !bind_Ok, Ew, bind_Ok by done.
    unfold getState. cbn [states set_field eta_model].
    pose proof Ew as Ew'. apply wr_inv in Ew' as [Hr _].
    rewrite (rd_ok _ _ (s <| sduration := d |>)), bind_Ok;
      [|lia|apply list_lookup_insert_eq; unfold zlen in Hr; lia].
    cbn [sduration set_field eta_state].
    assert (Es : zsum (take (Z.to_nat i) ds) + d = zsum (take (Z.to_nat (i + 1)) ds)).
    { replace (Z.to_nat (i + 1)) with (S (Z.to_nat i)) by lia. by rewrite (zsum_take_S _ _ _ Xd). }
    assert (B : 0 <= zsum (take (Z.to_nat (i + 1)) ds) <= zsum ds).
    { rewrite <-(take_drop (Z.to_nat (i + 1)) ds) at 3. rewrite zsum_app.
      pose proof (zsum_nonneg _ (Forall_take _ (Z.to_nat (i + 1)) _ P)).
      pose proof (zsum_nonneg _ (Forall_drop _ (Z.to_nat (i + 1)) _ P)). lia. }
    rewrite Es, i32_ok, bind_Ok by lia. apply yields_ok. cbn. by split. }
  intros [m' acc] R. cbn [fst snd] in *. destruct R as (Pr & -> & Ea).
  pose proof (progress_end _ _ _ Pr L Ld) as E. split; [|split; [exact E|]].
  - f_equal. apply take_ge. unfold zlen in Ld. lia.
  - destruct Pr as (El & _). injection Ea as E1 E2 E3. split; [by rewrite E1, E2, E3|exact El].
Qed.

(** the durations of a model: those asked for, scaled down when they do not fit *)
Definition fitted (ds : list Z) : list Z :=
  if zsum ds <=? maxDuration then ds else (fun d => d * maxDuration / zsum ds) <$> ds.

Lemma updateDuration_noaction m uf :
  zlen (states m) = nOfStates -> zlen uf = nOfStates ->
  Forall (fun d => 0 <= d) (durations m) -> zsum (durations m) * maxDuration < 2 ^ 31 ->
  yields (updateDuration m (Some uf) noaction) (fun m' => fits m' /\ same_memory m m' /\
    durations m' = fitted (durations m)).
Proof.
  intros L Lu P Hsum. pose proof Model.maxDuration_eq as Hmax. rewrite Hmax in Hsum.
  assert (Ld : zlen (durations m) = nOfStates)
    by (unfold durations, zlen; rewrite length_fmap; exact L).
  assert (Hd : forall (i : Z) (s : state F) d, states m !! Z.to_nat i = Some s ->
    durations m !! Z.to_nat i = Some d -> sduration s = d).
  { intros i s d Es E. unfold durations in E. rewrite list_lookup_fmap, Es in E. by injection E. }
  assert (Hpos : forall i d, durations m !! i = Some d -> 0 <= d <= zsum (durations m)).
  { intros i d E. by eapply zsum_elem. }
  pose proof (updateDuration_spec m uf noaction L Lu) as Spec.
  unfold updateDuration in *.
  destruct (accumulate_yields (fun i sd => u ← rd uf i; change_duration noaction sd u)
    (durations m) m) as ([m1 d1] & E1 & R1); [done|done|done|lia| |].
  { intros i s d Hi Es E. destruct (yields_rd uf i) as (u & -> & _); [lia|]. rewrite bind_Ok.
    unfold change_duration. cbn [noaction overwrite shift scale Z.eqb]. rewrite bind_Ok.
    rewrite (Hd i s d Es E). pose proof (Hpos _ _ E). by rewrite (proj2 (Z.ltb_ge d 0)) by lia. }
  cbn [fst snd] in R1. destruct R1 as (-> & Ed1 & Sm1). rewrite E1, bind_Ok in Spec |- *.
  assert (L1 : zlen (states m1) = nOfStates).
  { destruct Sm1 as [_ E]. pose proof (f_equal List.length E) as El. rewrite !length_fmap in El.
    unfold zlen in *. lia. }
  unfold fitted. destruct (Z.leb_spec (zsum (durations m)) maxDuration) as [Hle|Hgt].
  - rewrite (proj2 (Z.ltb_ge _ _)), bind_Ok in Spec |- * by done. apply yields_ok.
    destruct Spec as [Hf _]. split; [exact Hf|]. split; [exact Sm1|exact Ed1].
  - rewrite (proj2 (Z.ltb_lt _ _)) in Spec |- * by done.
    set (ds := (fun d => d * maxDuration / zsum (durations m)) <$> durations m).
    destruct (accumulate_yields (fun _ sd => p ← i32 (sd * maxDuration);
      Ok (Z.quot p (zsum (durations m)))) ds m1) as ([m2 d2] & E2 & R2); [done| | | | |].
    + unfold ds, zlen. by rewrite length_fmap.
    + unfold ds. apply Forall_fmap. eapply Forall_impl; [exact P|]. intros d Hd0. cbn in *.
      apply Z.div_pos; lia.
    + pose proof (zsum_scaled (durations m) (zsum (durations m)) ltac:(lia) P) as Sc. fold ds in Sc.
      nia.
    + intros i s d Hi Es E. unfold ds in E. apply list_lookup_fmap_Some in E as (d0 & -> & E).
      rewrite <-Ed1 in E. unfold durations in E. rewrite list_lookup_fmap, Es in E.
      injection E as <-. pose proof (Hpos (Z.to_nat i) (sduration s)) as Hb.
      rewrite <-Ed1 in Hb at 1. unfold durations in Hb at 1. rewrite list_lookup_fmap, Es in Hb.
      specialize (Hb eq_refl). rewrite Hmax, i32_ok, bind_Ok by nia. f_equal.
      apply Z.quot_div_nonneg; lia.
    + cbn [fst snd] in R2. destruct R2 as (-> & Ed2 & Sm2). rewrite E2, bind_Ok in Spec |- *.
      apply yields_ok. destruct Spec as [Hf _]. split; [exact Hf|].
      split; [exact (same_memory_trans _ _ _ Sm1 Sm2)|exact Ed2].
Qed.
End Building.

(** ** Durations on binary64 *)

Section Binary64.
Context `{Libm double}.

(** what computeDuration makes of a frame count, when there is one voice *)
Lemma state_frames_exact (a : Z) :
  0 <= a <= 1000 -> to_int (nZ 0 + Round (nZ 1 * nZ a))%num = Ok a.
Proof.
  intros Ha.
  assert (A : forallb (fun n : nat => bool_decide
    (to_int (nZ 0 + Round (nZ 1 * nZ (Z.of_nat n)))%num = Ok (Z.of_nat n))) (seq 0 1001) = true)
    by (vm_compute; reflexivity).
  rewrite forallb_forall in A. specialize (A (Z.to_nat a)). rewrite Z2Nat.id in A by lia.
  eapply bool_decide_eq_true_1. apply A. apply in_seq. lia.
Qed.

Lemma to_int_nZ (z : Z) : - 2 ^ 31 <= z < 2 ^ 31 -> to_int (nZ z : double) = Ok z.
Proof. intros Hz. apply to_int_inv. split; [|done]. apply SF_trunc_ofZ. lia. Qed.

(** the frames of the voice for a label: [ds], at most 1000 per state *)
Definition frames_for (v : Voice double) (q : string) (iw : list double) (ds : list Z) : Prop :=
  rounded (get_duration v q iw).1 nOfStates ds /\ Forall (fun d => d <= 1000) ds.

Lemma frames_for_sum v q iw ds :
  frames_for v q iw ds -> zlen ds = nOfStates /\ Forall (fun d => 0 <= d) ds /\ 0 <= zsum ds <= 5000.
Proof.
  intros [R B]. pose proof (rounded_pos _ _ _ R) as P. destruct R as [L _].
  split; [done|]. split; [eapply Forall_impl; [exact P|]; cbn; lia|].
  change nOfStates with 5 in L. unfold zlen in L.
  destruct ds as [|a [|b [|c [|d [|f [|]]]]]]; cbn in L; try lia.
  rewrite !Forall_cons in P, B. cbn. lia.
Qed.

(** a label whose durations come from the voice alone *)
Definition plain (l : Label.t double) : Prop :=
  Label.isDurationForced l = false /\ (Label.getSpeed l =? nZ 1)%num = true /\ query_fits l.

Lemma durations_yields m e l ds :
  slot_ok m -> durations m = replicate (Z.to_nat nOfStates) 0 -> plain l ->
  frames_for (ms e) (cstr (Label.getQuery l)) (duration_iw (global e)) ds ->
  yields (computeDuration m e l None) (fun m' => slot_ok m' /\ durations m' = ds).
Proof.
  intros M E0 (Hf & Hs & Hq) R. pose proof M as (L & A & D).
  destruct (frames_for_sum _ _ _ _ R) as (Lds & P & Hsum). destruct R as [R B].
  unfold computeDuration. rewrite strcpy_fits, bind_Ok by done. cbn [weight]. rewrite bind_Ok.
  destruct (get_duration _ _ _) as [means varis]. cbn [fst] in R.
  rewrite Hf, Hs. cbn [negb]. rewrite bind_Ok. unfold set_duration at 1.
  rewrite (set_duration_means _ _ _ _ _ ds) by (done || lia). rewrite bind_Ok.
  rewrite to_int_nZ, bind_Ok by lia. rewrite bind_Ok.
  eapply yields_mono; [apply (each_duration _ ds); [done|done|]|].
  - intros i s d Hi Es Ed. change (states m !! Z.to_nat i = Some s) in Es.
    cbn [duration_array set_field eta_model].
    rewrite (rd_ok _ _ d), bind_Ok by (done || lia).
    assert (sduration s = 0) as ->.
    { pose proof (f_equal (fun l => l !! Z.to_nat i) E0) as Ei. cbn beta in Ei. unfold durations in Ei.
      rewrite list_lookup_fmap, Es, lookup_replicate_2 in Ei by lia. by injection Ei. }
    rewrite Forall_lookup in P, B. pose proof (P _ _ Ed). pose proof (B _ _ Ed). cbn beta in *.
    rewrite state_frames_exact by done. done.
  - intros m' [Sm Ed]. split; [|done]. eapply same_memory_slot; [exact Sm|].
    split; [done|]. split; [done|]. split; [done|apply D].
Qed.
End Binary64.
End Building.
