(* ===== verification/Engine.v ===== *)
(** * Engines (mage/src/hts.cpp: Engine::load, GetNumInterp)

    An engine is loaded from the arguments of a configuration file.  The
    options are parsed into the file names and settings of hts_engine, which
    reads the files: that part is the interface [ModelFiles]. *)

From Stdlib Require Import Ascii String.
From S2P Require Import Prelude Num Constants CString Label Voice.
#[local] Open Scope Z_scope.

(** ** Interface: the model files of hts_engine *)

(** the calls of [HTS_ModelSet_load_*] that [Engine::load] makes, for [n] voices,
    with the names of the files that are opened for them *)
Inductive request :=
  | LoadDuration (n : Z) (pdf tree : list string)
  | LoadParameter (n stream : Z) (msd : bool) (pdf tree win : list string)
  | LoadGv (n stream : Z) (pdf : list string) (tree : option (list string))
  | LoadGvSwitch (fn : string).

(** model sets: the empty set for a number of streams, a load (with its result;
    it may end the program) and what MAGE reads of the loaded set *)
Class ModelFiles (F : Type) := {
  model_set : Type;
  ms_initialize : Z -> model_set;
  ms_load : model_set -> request -> Res (model_set * bool);
  ms_voice : model_set -> Voice F
}.

Module Engine.

Section Engine.
Context {F : Type} `{NumOps F} `{ModelFiles F}.
#[local] Open Scope num_scope.
#[local] Open Scope Z_scope.
Variable strtod_special : string -> F.

(** ** Arguments *)

(** the lists of file names: trees, models, windows, and trees and models of
    the global variance *)
Inductive slot :=
  | ts_dur | ts_mgc | ts_lf0 | ts_lpf
  | ms_dur | ms_mgc | ms_lf0 | ms_lpf
  | ws_mgc | ws_lf0 | ws_lpf
  | ts_gvm | ts_gvl | ts_gvf
  | ms_gvm | ms_gvl | ms_gvf.

#[local] Instance slot_eq_dec : EqDecision slot.
Proof. solve_decision. Defined.

(** the local variables of [load] *)
Record options := mkOptions {
  files : slot -> list string;     (* fn_* and num_* *)
  fn_gv_switch : option string;
  sampling_rate_ : Z;
  fperiod_ : Z;
  alpha : F;
  stage : Z;
  beta : F;
  audio_buff_size : Z;
  uv_threshold : F;
  gv_weight_mgc : F;
  gv_weight_lf0 : F;
  gv_weight_lpf : F;
  half_tone : F;
  phoneme_alignment : bool;
  speech_speed : F;
  use_log_gain : bool;
  outputs : list (ascii * string); (* files opened for writing *)
  labfn : option string;
  rate_interp : list F
}.
#[local] Instance eta_options : Settable options := fun o =>
  mkOptions (files o) (fn_gv_switch o) (sampling_rate_ o) (fperiod_ o) (alpha o) (stage o)
    (beta o) (audio_buff_size o) (uv_threshold o) (gv_weight_mgc o) (gv_weight_lf0 o)
    (gv_weight_lpf o) (half_tone o) (phoneme_alignment o) (speech_speed o) (use_log_gain o)
    (outputs o) (labfn o) (rate_interp o).

Definition default_options (num_interp : Z) : options :=
  mkOptions (fun _ => []) None 16000 80 (ndec 42 (-2)) 0 (nZ 0) 1600 (ndec 5 (-1))
    (nZ 1) (nZ 1) (nZ 1) (nZ 0) false (nZ 1) false [] None
    (replicate (Z.to_nat num_interp) (nZ 1)).

(** the byte [i] of an argument, its terminator included *)
Definition char_at (s : string) (i : nat) : ascii :=
  match String.get i s with Some a => a | None => NUL end.

Definition atof := CString.atof strtod_special.

(** GetNumInterp: the loop [while( --argc )]; [p] is the index of argv_search *)
Fixpoint num_interp_loop (fuel : nat) (argv : list string) (p argc num_interp : Z) : Res Z :=
  match fuel with
  | O => Timeout
  | S fuel =>
      let argc := argc - 1 in
      if argc =? 0 then Ok num_interp
      else
        let p := p + 1 in
        s ← rd argv p;
        if Ascii.eqb (char_at s 0) "-" && Ascii.eqb (char_at s 1) "i" then
          let p := p + 1 in
          v ← rd argv p;
          n ← atoi v;
          num_interp_loop fuel argv p (argc - 1) (if n <? 1 then 1 else n)
        else num_interp_loop fuel argv p argc num_interp
  end.
Definition GetNumInterp (argc : Z) (argv : list string) : Res Z :=
  num_interp_loop (S (length argv)) argv 0 argc 1.

(** the room of the arrays of file names *)
Definition capacity (argc num_interp : Z) (s : slot) : Z :=
  match s with ws_mgc | ws_lf0 | ws_lpf => argc | _ => num_interp end.

(** [fn[num++] = fn] *)
Definition add_file (cap : slot -> Z) (s : slot) (fn : string) (o : options) : Res options :=
  check (zlen (files o s) <? cap s) OutOfBounds ;;
  Ok (o <| files := fun s' => if decide (s' = s) then files o s ++ [fn] else files o s' |>).

(** the list an option adds to: -t? -m? -d? -e? -c? *)
Definition file_option (c d : ascii) : option slot :=
  let lf0 := (Ascii.eqb d "f" || Ascii.eqb d "p")%bool in
  if Ascii.eqb c "t" then
    if Ascii.eqb d "d" then Some ts_dur else if Ascii.eqb d "m" then Some ts_mgc
    else if lf0 then Some ts_lf0 else if Ascii.eqb d "l" then Some ts_lpf else None
  else if Ascii.eqb c "m" then
    if Ascii.eqb d "d" then Some ms_dur else if Ascii.eqb d "m" then Some ms_mgc
    else if lf0 then Some ms_lf0 else if Ascii.eqb d "l" then Some ms_lpf else None
  else if Ascii.eqb c "d" then
    if Ascii.eqb d "m" then Some ws_mgc else if lf0 then Some ws_lf0
    else if Ascii.eqb d "l" then Some ws_lpf else None
  else if Ascii.eqb c "e" then
    if Ascii.eqb d "m" then Some ts_gvm else if lf0 then Some ts_gvl
    else if Ascii.eqb d "l" then Some ts_gvf else None
  else if Ascii.eqb c "c" then
    if Ascii.eqb d "m" then Some ms_gvm else if lf0 then Some ms_gvl
    else if Ascii.eqb d "l" then Some ms_gvf else None
  else None.

(** the clamp of -fm *)
Definition clamp_half_tone (f : F) : F :=
  let f := if (f <? nZ (-24))%num then nZ (-24) else f in
  if (nZ 24 <? f)%num then nZ 24 else f.

(** an option with one argument [v] *)
Definition value_option (cap : slot -> Z) (c d : ascii) (v : string) (o : options)
    : Res options :=
  if existsb (Ascii.eqb c) ["t"; "m"; "d"; "e"; "c"]%char then
    match file_option c d with Some s => add_file cap s v o | None => Exit 1 end
  else if Ascii.eqb c "o" then Ok (o <| outputs := outputs o ++ [(d, v)] |>)
  else if Ascii.eqb c "s" then n ← atoi v; Ok (o <| sampling_rate_ := n |>)
  else if Ascii.eqb c "p" then n ← atoi v; Ok (o <| fperiod_ := n |>)
  else if Ascii.eqb c "a" then Ok (o <| alpha := atof v |>)
  else if Ascii.eqb c "g" then n ← atoi v; Ok (o <| stage := n |>)
  else if Ascii.eqb c "b" then Ok (o <| beta := atof v |>)
  else if Ascii.eqb c "r" then Ok (o <| speech_speed := atof v |>)
  else if Ascii.eqb c "f" then Ok (o <| half_tone := clamp_half_tone (atof v) |>)
  else if Ascii.eqb c "u" then Ok (o <| uv_threshold := atof v |>)
  else if Ascii.eqb c "j" then
    Ok (if Ascii.eqb d "m" then o <| gv_weight_mgc := atof v |>
        else if Ascii.eqb d "l" then o <| gv_weight_lpf := atof v |>
        else o <| gv_weight_lf0 := atof v |>)
  else if Ascii.eqb c "k" then Ok (o <| fn_gv_switch := Some v |>)
  else n ← atoi v; Ok (o <| audio_buff_size := n |>).

(** what the two switches say of an option: it takes an argument, it is a flag
    without one, or it is an error *)
Inductive arity := TakesValue | Flag | Interpolation | Help | Invalid.
Definition option_arity (c d : ascii) : arity :=
  if Ascii.eqb c "v" then if Ascii.eqb d "p" then Flag else Invalid
  else if existsb (Ascii.eqb c) ["t"; "m"; "d"; "e"; "c"]%char then
    match file_option c d with Some _ => TakesValue | None => Invalid end
  else if Ascii.eqb c "o" then
    if existsb (Ascii.eqb d) ["w"; "r"; "d"; "m"; "f"; "p"; "l"; "t"]%char
    then TakesValue else Invalid
  else if Ascii.eqb c "h" then Help
  else if Ascii.eqb c "l" then Flag
  else if Ascii.eqb c "f" then if Ascii.eqb d "m" then TakesValue else Invalid
  else if Ascii.eqb c "i" then Interpolation
  else if Ascii.eqb c "j" then
    if existsb (Ascii.eqb d) ["m"; "f"; "p"; "l"]%char then TakesValue else Invalid
  else if existsb (Ascii.eqb c) ["s"; "p"; "a"; "g"; "b"; "r"; "u"; "k"; "z"]%char
  then TakesValue else Invalid.

Definition flag_option (c : ascii) (o : options) : options :=
  if Ascii.eqb c "v" then o <| phoneme_alignment := true |> else o <| use_log_gain := true |>.

(** one argument that is not the value of an option; [p] is its index, and
    the results are the index of the last argument used and the count left *)
Definition argument (cap : slot -> Z) (num_interp : Z) (argv : list string)
    (p argc : Z) (o : options) : Res (Z * Z * options) :=
  s ← rd argv p;
  let c := char_at s 1 in
  let d := char_at s 2 in
  if Ascii.eqb (char_at s 0) "-" then
    match option_arity c d with
    | TakesValue =>
        v ← rd argv (p + 1); o ← value_option cap c d v o; Ok (p + 1, argc - 1, o)
    | Flag => Ok (p, argc, flag_option c o)
    | Interpolation =>
        '(p, argc, rates) ← for_up 0 num_interp (fun i '(p, argc, rates) =>
          v ← rd argv (p + 1); rates ← wr rates i (atof v); Ok (p + 1, argc - 1, rates))
          (p + 1, argc - 1, rate_interp o);
        Ok (p, argc, o <| rate_interp := rates |>)
    | Help => Exit 0
    | Invalid => Exit 1
    end
  else Ok (p, argc, o <| labfn := Some s |>).

(** [while( --argc )]: argv is advanced at the end of the body, and the first
    argument read is [argv[0]] *)
Fixpoint arguments (fuel : nat) (cap : slot -> Z) (num_interp : Z) (argv : list string)
    (p argc : Z) (o : options) : Res options :=
  match fuel with
  | O => Timeout
  | S fuel =>
      let argc := argc - 1 in
      if argc =? 0 then Ok o
      else
        '(p, argc, o) ← argument cap num_interp argv p argc o;
        arguments fuel cap num_interp argv (p + 1) argc o
  end.

Definition parse (num_interp argc : Z) (argv : list string) : Res options :=
  arguments (S (length argv)) (capacity argc num_interp) num_interp argv 0 argc
    (default_options num_interp).
(** ** The engine of hts_engine *)

(** [HTS_Engine]: the settings, of which MAGE reads [Global], and the models *)
Record engine := mkEngine {
  settings : Global F;
  g_alpha : F;
  g_stage : Z;
  g_use_log_gain : bool;
  g_beta : F;
  g_audio_buff_size : Z;
  gv_weight : list F;
  models : model_set
}.
#[local] Instance eta_engine : Settable engine := fun e =>
  mkEngine (settings e) (g_alpha e) (g_stage e) (g_use_log_gain e) (g_beta e)
    (g_audio_buff_size e) (gv_weight e) (models e).

(** the pointers of the weights are NULL ([] here) until their models are loaded *)
Definition HTS_Engine_initialize (nstream : Z) : engine :=
  let per {A} (x : A) := replicate (Z.to_nat nstream) x in
  mkEngine (mkGlobal 16000 80 (per (ndec 5 (-1))) [] (per []) (per []))
    (ndec 42 (-2)) 0 false (nZ 0) 0 (per (nZ 1)) (ms_initialize nstream).

(** the weights of [n] interpolated models *)
Definition equal_weights (n : Z) : list F := replicate (Z.to_nat n) (nZ 1 / nZ n)%num.

Definition HTS_Engine_load_duration_from_fn (pdf tree : list string) (n : Z) (e : engine)
    : Res engine :=
  '(m, ok) ← ms_load (models e) (LoadDuration n pdf tree);
  let e := e <| models := m |> in
  Ok (if ok : bool then e <| settings := (settings e) <| duration_iw := equal_weights n |> |> else e).

Definition HTS_Engine_load_parameter_from_fn (pdf tree win : list string) (stream : Z)
    (msd : bool) (n : Z) (e : engine) : Res engine :=
  '(m, ok) ← ms_load (models e) (LoadParameter n stream msd pdf tree win);
  let e := e <| models := m |> in
  if ok : bool then
    l ← wr (parameter_iw (settings e)) stream (equal_weights n);
    Ok (e <| settings := (settings e) <| parameter_iw := l |> |>)
  else Ok e.

Definition HTS_Engine_load_gv_from_fn (pdf : list string) (tree : option (list string))
    (stream : Z) (n : Z) (e : engine) : Res engine :=
  '(m, ok) ← ms_load (models e) (LoadGv n stream pdf tree);
  let e := e <| models := m |> in
  if ok : bool then
    l ← wr (gv_iw (settings e)) stream (equal_weights n);
    Ok (e <| settings := (settings e) <| gv_iw := l |> |>)
  else Ok e.

Definition HTS_Engine_load_gv_switch_from_fn (fn : string) (e : engine) : Res engine :=
  '(m, _) ← ms_load (models e) (LoadGvSwitch fn); Ok (e <| models := m |>).

(** the bounds of the settings *)
Definition clampZ (lo hi i : Z) : Z :=
  let i := if i <? lo then lo else i in if hi <? i then hi else i.
Definition clampF (lo hi f : F) : F :=
  let f := if (f <? lo)%num then lo else f in if (hi <? f)%num then hi else f.

Definition HTS_Engine_set_sampling_rate (i : Z) (e : engine) : engine :=
  e <| settings := (settings e) <| sampling_rate := clampZ 1 48000 i |> |>.
Definition HTS_Engine_set_fperiod (i : Z) (e : engine) : engine :=
  e <| settings := (settings e) <| fperiod := clampZ 1 48000 i |> |>.
Definition HTS_Engine_set_alpha (f : F) (e : engine) : engine :=
  e <| g_alpha := clampF (nZ 0) (nZ 1) f |>.
Definition HTS_Engine_set_gamma (i : Z) (e : engine) : engine :=
  e <| g_stage := if i <? 0 then 0 else i |>.
Definition HTS_Engine_set_log_gain (b : bool) (e : engine) : engine := e <| g_use_log_gain := b |>.
Definition HTS_Engine_set_beta (f : F) (e : engine) : engine :=
  e <| g_beta := clampF (ndec (-8) (-1)) (ndec 8 (-1)) f |>.
Definition HTS_Engine_set_audio_buff_size (i : Z) (e : engine) : engine :=
  e <| g_audio_buff_size := clampZ 0 48000 i |>.
Definition HTS_Engine_set_msd_threshold (stream : Z) (f : F) (e : engine) : Res engine :=
  l ← wr (msd_threshold (settings e)) stream (clampF (nZ 0) (nZ 1) f);
  Ok (e <| settings := (settings e) <| msd_threshold := l |> |>).
Definition HTS_Engine_set_gv_weight (stream : Z) (f : F) (e : engine) : Res engine :=
  l ← wr (gv_weight e) stream (clampF (nZ 0) (nZ 2) f); Ok (e <| gv_weight := l |>).

(** a store into the array of weights a pointer designates *)
Definition set_weight (l : list F) (i : Z) (f : F) : Res (list F) :=
  match l with [] => Undef NullPointer | _ => wr l i f end.

Definition HTS_Engine_set_duration_interpolation_weight (i : Z) (f : F) (e : engine) : Res engine :=
  l ← set_weight (duration_iw (settings e)) i f;
  Ok (e <| settings := (settings e) <| duration_iw := l |> |>).
Definition HTS_Engine_set_parameter_interpolation_weight (stream i : Z) (f : F) (e : engine)
    : Res engine :=
  l ← upd (parameter_iw (settings e)) stream (fun l => set_weight l i f);
  Ok (e <| settings := (settings e) <| parameter_iw := l |> |>).
Definition HTS_Engine_set_gv_interpolation_weight (stream i : Z) (f : F) (e : engine)
    : Res engine :=
  l ← upd (gv_iw (settings e)) stream (fun l => set_weight l i f);
  Ok (e <| settings := (settings e) <| gv_iw := l |> |>).

(** ** load *)

Definition count (o : options) (s : slot) : Z := zlen (files o s).

(** low-pass filter models are given *)
Definition has_lpf (o : options) : bool := (0 <? count o ms_lpf) || (0 <? count o ts_lpf).

(** "number of models,trees check" *)
Definition counts_ok (num_interp : Z) (o : options) : bool :=
  forallb (fun s => count o s =? num_interp) [ts_dur; ts_mgc; ts_lf0; ms_dur; ms_mgc; ms_lf0] &&
  (negb (has_lpf o) ||
   forallb (fun s => count o s =? num_interp) [ms_lpf; ts_lpf]).

(** the global variances of the three streams; with trees, those of the
    low-pass filter are loaded into stream 0 *)
Definition load_gv (n : Z) (o : options) (e : engine) : Res engine :=
  e ← (if n =? count o ms_gvm then
         HTS_Engine_load_gv_from_fn (files o ms_gvm)
           (if count o ms_gvm =? count o ts_gvm then Some (files o ts_gvm) else None) 0 n e
       else Ok e);
  e ← (if n =? count o ms_gvl then
         HTS_Engine_load_gv_from_fn (files o ms_gvl)
           (if count o ms_gvl =? count o ts_gvl then Some (files o ts_gvl) else None) 1 n e
       else Ok e);
  if (n =? count o ms_gvf) && has_lpf o then
    if count o ms_gvf =? count o ts_gvf
    then HTS_Engine_load_gv_from_fn (files o ms_gvf) (Some (files o ts_gvf)) 0 n e
    else HTS_Engine_load_gv_from_fn (files o ms_gvf) None 2 n e
  else Ok e.

Definition load_models (n : Z) (o : options) (e : engine) : Res engine :=
  e ← HTS_Engine_load_duration_from_fn (files o ms_dur) (files o ts_dur) n e;
  e ← HTS_Engine_load_parameter_from_fn (files o ms_mgc) (files o ts_mgc) (files o ws_mgc)
        0 false n e;
  e ← HTS_Engine_load_parameter_from_fn (files o ms_lf0) (files o ts_lf0) (files o ws_lf0)
        1 true n e;
  e ← (if has_lpf o then
         HTS_Engine_load_parameter_from_fn (files o ms_lpf) (files o ts_lpf) (files o ws_lpf)
           2 false n e
       else Ok e);
  e ← load_gv n o e;
  match fn_gv_switch o with
  | Some fn => HTS_Engine_load_gv_switch_from_fn fn e
  | None => Ok e
  end.

Definition set_parameters (o : options) (e : engine) : Res engine :=
  let e := HTS_Engine_set_sampling_rate (sampling_rate_ o) e in
  let e := HTS_Engine_set_fperiod (fperiod_ o) e in
  let e := HTS_Engine_set_alpha (alpha o) e in
  let e := HTS_Engine_set_gamma (stage o) e in
  let e := HTS_Engine_set_log_gain (use_log_gain o) e in
  let e := HTS_Engine_set_beta (beta o) e in
  let e := HTS_Engine_set_audio_buff_size (audio_buff_size o) e in
  e ← HTS_Engine_set_msd_threshold 1 (uv_threshold o) e;
  e ← HTS_Engine_set_gv_weight 0 (gv_weight_mgc o) e;
  e ← HTS_Engine_set_gv_weight 1 (gv_weight_lf0 o) e;
  if has_lpf o then HTS_Engine_set_gv_weight 2 (gv_weight_lpf o) e else Ok e.

Definition set_weights (n : Z) (o : options) (e : engine) : Res engine :=
  let each (f : Z -> F -> engine -> Res engine) :=
    for_up 0 n (fun i e => r ← rd (rate_interp o) i; f i r e) in
  e ← each (fun i r e =>
    e ← HTS_Engine_set_duration_interpolation_weight i r e;
    e ← HTS_Engine_set_parameter_interpolation_weight 0 i r e;
    e ← HTS_Engine_set_parameter_interpolation_weight 1 i r e;
    if has_lpf o then HTS_Engine_set_parameter_interpolation_weight 2 i r e else Ok e) e;
  e ← (if n =? count o ms_gvm
       then each (HTS_Engine_set_gv_interpolation_weight 0) e else Ok e);
  e ← (if n =? count o ms_gvl
       then each (HTS_Engine_set_gv_interpolation_weight 1) e else Ok e);
  if (n =? count o ms_gvf) && has_lpf o
  then each (HTS_Engine_set_gv_interpolation_weight 2) e else Ok e.

(** the engine of hts_engine that a configuration makes *)
Definition load_engine (argc : Z) (argv : list string) : Res engine :=
  if argc =? 1 then Exit 0 (* Usage *)
  else
    n ← GetNumInterp argc argv;
    o ← parse n argc argv;
    if negb (counts_ok n o) then Exit 1
    else
      let e := HTS_Engine_initialize (if has_lpf o then 3 else 2) in
      e ← load_models n o e;
      e ← set_parameters o e;
      set_weights n o e.

(** [this->global = engine.global; this->ms = engine.ms;] *)
Definition handed (e : engine) : Engine F := Voice.mkEngine (settings e) (ms_voice (models e)).

Definition load (argc : Z) (argv : list string) : Res (Engine F) :=
  e ← load_engine argc argv; Ok (handed e).

(** ** Argument lists *)

(** the arguments as the user means them: a word, an option with its value, a
    flag, and the interpolation weights *)
Inductive arg :=
  | AWord (w : string)
  | AValue (opt v : string)
  | AFlag (opt : string)
  | ARates (opt cnt : string) (rates : list string).

Definition print (a : arg) : list string :=
  match a with
  | AWord w => [w]
  | AValue opt v => [opt; v]
  | AFlag opt => [opt]
  | ARates opt cnt rates => opt :: cnt :: rates
  end.

Definition is_option (s : string) (k : arity) : Prop :=
  char_at s 0 = "-"%char /\ option_arity (char_at s 1) (char_at s 2) = k.

Definition arg_ok (num_interp : Z) (a : arg) : Prop :=
  match a with
  | AWord w => char_at w 0 <> "-"%char
  | AValue opt _ => is_option opt TakesValue
  | AFlag opt => is_option opt Flag
  | ARates opt _ rates => is_option opt Interpolation /\ zlen rates = num_interp
  end.

(** what one argument means *)
Definition apply_arg (cap : slot -> Z) (num_interp : Z) (a : arg) (o : options) : Res options :=
  match a with
  | AWord w => Ok (o <| labfn := Some w |>)
  | AValue opt v => value_option cap (char_at opt 1) (char_at opt 2) v o
  | AFlag opt => Ok (flag_option (char_at opt 1) o)
  | ARates _ _ vs =>
      rates ← for_up 0 num_interp (fun i rates =>
        v ← rd vs i; wr rates i (atof v)) (rate_interp o);
      Ok (o <| rate_interp := rates |>)
  end.

Fixpoint apply_args (cap : slot -> Z) (num_interp : Z) (l : list arg) (o : options) : Res options :=
  match l with
  | [] => Ok o
  | a :: l => o ← apply_arg cap num_interp a o; apply_args cap num_interp l o
  end.

(** the weights of -i, read one by one *)
Lemma rates_loop (argv vs : list string) (p0 argc0 lo hi : Z) (rates : list F) :
  0 <= p0 -> 0 <= lo <= hi -> hi <= zlen vs ->
  (forall k : nat, (k < length vs)%nat -> argv !! (Z.to_nat (p0 + 1) + k)%nat = vs !! k) ->
  for_up lo hi (fun i '(p, argc, rates) =>
    v ← rd argv (p + 1); rates ← wr rates i (atof v); Ok (p + 1, argc - 1, rates))
    (p0 + lo, argc0 - lo, rates)
  = (rates ← for_up lo hi (fun i rates => v ← rd vs i; wr rates i (atof v)) rates;
     Ok (p0 + hi, argc0 - hi, rates)).
Proof.
  intros Hp Hlo Hhi Hv. remember (Z.to_nat (hi - lo)) as n eqn:En.
  revert lo rates Hlo En. induction n as [|n IH]; intros lo rates Hlo En.
  { replace lo with hi by lia. rewrite !for_up_nil by lia. done. }
  rewrite !for_up_cons by lia. unfold zlen in Hhi.
  destruct (lookup_lt_is_Some_2 vs (Z.to_nat lo)) as [v Ev]; [lia|].
  rewrite (rd_ok vs lo v), (rd_ok argv (p0 + lo + 1) v); [|lia| |lia|done].
  2: { rewrite <-Ev, <-Hv by lia. f_equal. lia. }
  rewrite !bind_Ok, !bind_assoc. destruct (wr rates lo (atof v)) as [r| | |]; try done.
  rewrite !bind_Ok. replace (p0 + lo + 1) with (p0 + (lo + 1)) by lia.
  replace (argc0 - lo - 1) with (argc0 - (lo + 1)) by lia. apply IH; lia.
Qed.

Lemma Ok_triple {A B C} (a a' : A) (b b' : B) (c : C) :
  a = a' -> b = b' -> Ok (a, b, c) = Ok (a', b', c).
Proof. by intros -> ->. Qed.

Lemma argument_print cap n argv a p argc o :
  arg_ok n a -> 0 <= n -> 0 <= p ->
  (forall k x, print a !! k = Some x -> argv !! (Z.to_nat p + k)%nat = Some x) ->
  argument cap n argv p argc o =
    (o ← apply_arg cap n a o;
     Ok (p + zlen (print a) - 1, argc + 1 - zlen (print a), o)).
Proof.
  intros Hok Hn Hp Hr. unfold argument.
  assert (E0 : forall x, print a !! O = Some x -> rd argv p = Ok x).
  { intros x E. apply rd_ok; [lia|]. rewrite <-(Hr O x E). f_equal. lia. }
  destruct a as [w|opt v|opt|opt cnt rates]; cbn [print arg_ok apply_arg] in *.
  - rewrite (E0 _ eq_refl), bind_Ok. apply Ascii.eqb_neq in Hok. rewrite Hok.
    rewrite bind_Ok. apply Ok_triple; unfold zlen; cbn; lia.
  - destruct Hok as [Hc Ha]. rewrite (E0 _ eq_refl), bind_Ok, Hc, Ha. cbn [Ascii.eqb Bool.eqb].
    rewrite (rd_ok argv (p + 1) v); [|lia|rewrite <-(Hr 1%nat v eq_refl); f_equal; lia].
    rewrite bind_Ok. destruct (value_option _ _ _ _ _); try done.
    rewrite !bind_Ok. apply Ok_triple; unfold zlen; cbn; lia.
  - destruct Hok as [Hc Ha]. rewrite (E0 _ eq_refl), bind_Ok, Hc, Ha. cbn [Ascii.eqb Bool.eqb].
    rewrite bind_Ok. apply Ok_triple; unfold zlen; cbn; lia.
  - destruct Hok as [[Hc Ha] L]. rewrite (E0 _ eq_refl), bind_Ok, Hc, Ha. cbn [Ascii.eqb Bool.eqb].
    pose proof (rates_loop argv rates (p + 1) (argc - 1) 0 n (rate_interp o)) as R.
    rewrite Z.add_0_r, Z.sub_0_r in R. rewrite R; [|lia|lia|lia|].
    + rewrite !bind_assoc. destruct (for_up 0 n _ (rate_interp o)) as [r| | |]; try done.
      rewrite !bind_Ok. apply Ok_triple; unfold zlen in *; cbn; lia.
    + intros k Hk. destruct (lookup_lt_is_Some_2 rates k Hk) as [x Ex]. rewrite Ex.
      rewrite <-(Hr (S (S k)) x Ex). f_equal. lia.
Qed.

Lemma print_length a : (1 <= length (print a))%nat.
Proof. destruct a; cbn; lia. Qed.

(** the loop over printed arguments, up to what follows them *)
Lemma arguments_print cap n pre l rest o fuel :
  Forall (arg_ok n) l -> 0 <= n ->
  (forall l1 a, l = l1 ++ [a] -> 2 <= zlen (print a) + zlen rest) ->
  let argv := pre ++ concat (print <$> l) ++ rest in
  arguments (length l + fuel) cap n argv (zlen pre) (zlen (concat (print <$> l)) + zlen rest) o =
    (o ← apply_args cap n l o;
     arguments fuel cap n argv (zlen pre + zlen (concat (print <$> l))) (zlen rest) o).
Proof.
  intros Hl Hn. revert pre o. induction Hl as [|a l Ha Hl IH]; intros pre o Hend; cbn zeta.
  { cbn. by rewrite Z.add_0_r. }
  rewrite fmap_cons. cbn [length Nat.add arguments concat apply_args].
  pose proof (print_length a) as La.
  assert (H2 : 2 <= zlen (print a) + zlen (concat (print <$> l)) + zlen rest).
  { destruct l as [|b l].
    - pose proof (Hend [] a eq_refl). unfold zlen in *. cbn. lia.
    - pose proof (print_length b). rewrite fmap_cons. cbn [concat].
      rewrite zlen_app. unfold zlen in *. lia. }
  rewrite (proj2 (Z.eqb_neq _ 0)) by (rewrite zlen_app; lia).
  rewrite (argument_print _ _ _ a) by
    (try done; try apply zlen_nonneg;
     intros k x E; unfold zlen; rewrite Nat2Z.id, <-app_assoc, lookup_app_r by lia;
     replace (length pre + k - length pre)%nat with k by lia; by apply lookup_app_l_Some).
  rewrite !bind_assoc. destruct (apply_arg cap n a o) as [o1| | |]; try done.
  rewrite !bind_Ok.
  specialize (IH (pre ++ print a) o1). cbn zeta in IH.
  rewrite <-!app_assoc in IH |- *. rewrite !zlen_app in *.
  replace (zlen pre + zlen (print a) - 1 + 1) with (zlen pre + zlen (print a)) by lia.
  replace (zlen (print a) + zlen (concat (print <$> l)) + zlen rest - 1 + 1 - zlen (print a))
    with (zlen (concat (print <$> l)) + zlen rest) by lia.
  rewrite IH; [|intros l1 b ->; by apply (Hend (a :: l1))].
  by replace (zlen pre + (zlen (print a) + zlen (concat (print <$> l))))
    with (zlen pre + zlen (print a) + zlen (concat (print <$> l))) by lia.
Qed.

Lemma apply_args_app cap n l k o :
  apply_args cap n (l ++ k) o = (o ← apply_args cap n l o; apply_args cap n k o).
Proof.
  revert o. induction l as [|a l IH]; intros o; [done|]. cbn [app apply_args].
  rewrite bind_assoc. destruct (apply_arg cap n a o); try done. apply IH.
Qed.

Lemma concat_print_length l : (length l <= length (concat (print <$> l)))%nat.
Proof.
  induction l as [|a l IH]; [done|]. rewrite fmap_cons. cbn [concat length].
  rewrite length_app. pose proof (print_length a). lia.
Qed.
Lemma parse_print n l rest :
  Forall (arg_ok n) l -> 0 <= n ->
  (forall l1 a, l = l1 ++ [a] -> 2 <= zlen (print a) + zlen rest) ->
  let argv := concat (print <$> l) ++ rest in
  exists fuel, parse n (zlen argv) argv =
    (o ← apply_args (capacity (zlen argv) n) n l (default_options n);
     arguments (S fuel) (capacity (zlen argv) n) n argv (zlen (concat (print <$> l)))
       (zlen rest) o).
Proof.
  intros Hl Hn Hend argv. pose proof (concat_print_length l) as Hlen.
  exists (length argv - length l)%nat. unfold parse.
  pose proof (arguments_print (capacity (zlen argv) n) n [] l rest (default_options n)
    (S (length argv - length l)) Hl Hn Hend) as E. cbn zeta in E. cbn [app] in E.
  fold argv in E. replace (zlen (concat (print <$> l)) + zlen rest) with (zlen argv) in E
    by (unfold argv; by rewrite zlen_app).
  replace (length l + S (length argv - length l))%nat with (S (length argv)) in E
    by (unfold argv in *; rewrite length_app in *; lia).
  exact E.
Qed.

(** ** Termination *)

Lemma num_interp_loop_total fuel argv p argc n :
  1 <= n -> (Z.to_nat (zlen argv - p) <= fuel)%nat -> (0 < fuel)%nat ->
  ends (num_interp_loop fuel argv p argc n) (fun n => 1 <= n).
Proof.
  revert p argc n. induction fuel as [|fuel IH]; intros p argc n Hn Hf H1; [lia|].
  cbn [num_interp_loop]. destruct (_ =? 0); [done|].
  eapply ends_bind; [apply ends_rd|]. intros s [Hs1 Hs2].
  destruct (_ && _); [|apply IH; lia].
  eapply ends_bind; [apply ends_rd|]. intros v [Hv1 Hv2].
  eapply ends_bind; [apply ends_atoi|]. intros m _.
  apply IH; [|lia|lia]. case Z.ltb_spec; lia.
Qed.

Lemma ends_value_option cap c d v o : ends (value_option cap c d v o) (fun _ => True).
Proof.
  unfold value_option. destruct (existsb _ _).
  { destruct (file_option c d); [|done]. unfold add_file, check. by destruct (_ <? _). }
  repeat match goal with |- context [if Ascii.eqb c ?x then _ else _] => destruct (Ascii.eqb c x) end;
    try done; by apply (ends_bind _ _ _ _ (ends_atoi v)).
Qed.

Lemma argument_ends cap n argv p argc o :
  0 <= n -> ends (argument cap n argv p argc o) (fun r => p <= r.1.1 /\ p < zlen argv).
Proof.
  intros Hn. unfold argument. eapply ends_bind; [apply ends_rd|]. intros s [Hp Hl].
  destruct (Ascii.eqb _ _); [|by split; cbn; lia].
  destruct (option_arity _ _); try done.
  - eapply ends_bind; [apply ends_rd|]. intros v [Hv1 Hv2].
    eapply ends_bind; [apply ends_value_option|]. intros o' _. cbn. lia.
  - eapply (ends_bind _ _ (fun r => p <= r.1.1)); [|intros [[p' a'] r'] H1; cbn in *; lia].
    assert (G : forall r, p <= r.1.1 -> forall m i,
      ends (loop_up m i (fun i '(p, argc, rates) =>
        v ← rd argv (p + 1); rates ← wr rates i (atof v); Ok (p + 1, argc - 1, rates)) r)
        (fun r => p <= r.1.1)).
    { intros r Hr m. revert r Hr. induction m as [|m IH]; intros r Hr i; [done|].
      cbn [loop_up]. destruct r as [[p1 a1] r1].
      eapply (ends_bind _ _ (fun r => p <= r.1.1)); [|intros r' Hr'; by apply IH].
      eapply ends_bind; [apply ends_rd|]. intros v [Hv1 Hv2].
      eapply ends_bind; [apply ends_wr|]. intros r' _. cbn in *. lia. }
    apply G. cbn. lia.
Qed.

Lemma arguments_total fuel cap n argv p argc o :
  0 <= n -> (Z.to_nat (zlen argv - p) < fuel)%nat ->
  ends (arguments fuel cap n argv p argc o) (fun _ => True).
Proof.
  intros Hn. revert p argc o. induction fuel as [|fuel IH]; intros p argc o Hf; [lia|].
  cbn [arguments]. destruct (_ =? 0); [done|].
  eapply ends_bind; [by apply argument_ends|]. intros [[p' a'] o'] [Hp Hl]. cbn in *.
  apply IH. lia.
Qed.
(** ** What a loaded engine has *)

Lemma set_weight_inv l i f l' :
  set_weight l i f = Ok l' -> 0 <= i < zlen l /\ l' = <[Z.to_nat i := f]> l.
Proof. unfold set_weight. destruct l; [done|]. apply wr_inv. Qed.

(** the weights below [i] are the rates *)
Definition weighted (rates : list F) (i : Z) (l : list F) : Prop :=
  forall k : nat, Z.of_nat k < i -> l !! k = rates !! k /\ is_Some (rates !! k).

Lemma weighted_step rates i l l' r :
  weighted rates i l -> 0 <= i -> rates !! Z.to_nat i = Some r ->
  set_weight l i r = Ok l' -> weighted rates (i + 1) l'.
Proof.
  intros W Hi Er E. apply set_weight_inv in E as [Hl ->]. intros k Hk. unfold zlen in Hl.
  destruct (decide (k = Z.to_nat i)) as [->|].
  - rewrite list_lookup_insert_eq by lia. by rewrite Er.
  - rewrite list_lookup_insert_ne by done. apply W. lia.
Qed.

(** the settings MAGE reads, when the weights of the models below [i] are set *)
Definition set_up (o : options) (e0 : engine) (i : Z) (e : engine) : Prop :=
  sampling_rate (settings e) = sampling_rate (settings e0) /\
  fperiod (settings e) = fperiod (settings e0) /\
  msd_threshold (settings e) = msd_threshold (settings e0) /\
  models e = models e0 /\
  weighted (rate_interp o) i (duration_iw (settings e)) /\
  forall s, 0 <= s < (if has_lpf o then 3 else 2) ->
    exists l, parameter_iw (settings e) !! Z.to_nat s = Some l /\
      weighted (rate_interp o) i l.

Lemma upd_weight_inv ll s i r ll' :
  upd ll s (fun l => set_weight l i r) = Ok ll' ->
  exists l l', ll !! Z.to_nat s = Some l /\ set_weight l i r = Ok l' /\ 0 <= s < zlen ll /\
    ll' = <[Z.to_nat s := l']> ll.
Proof. intros E. apply upd_inv in E as (x & y & Hs & Ex & Ey & ->). by exists x, y. Qed.

(** weights of stream [s] set, streams below [s] already *)
Definition streams_up (o : options) (i s : Z) (ll : list (list F)) : Prop :=
  forall s', 0 <= s' < (if has_lpf o then 3 else 2) -> exists l, ll !! Z.to_nat s' = Some l /\
    weighted (rate_interp o) (if s' <? s then i + 1 else i) l.

Lemma streams_up_step o i s ll ll' r :
  streams_up o i s ll -> 0 <= i -> 0 <= s -> rate_interp o !! Z.to_nat i = Some r ->
  upd ll s (fun l => set_weight l i r) = Ok ll' -> streams_up o i (s + 1) ll'.
Proof.
  intros S Hi Hs Er E. apply upd_weight_inv in E as (l & l' & El & Ew & Hl & ->).
  intros s' Hs'. destruct (S s' Hs') as (l1 & E1 & W1). destruct (decide (s' = s)) as [->|Hne].
  - exists l'. rewrite list_lookup_insert_eq by (unfold zlen in Hl; lia). split; [done|].
    rewrite (proj2 (Z.ltb_lt _ _)) by lia. rewrite El in E1. injection E1 as <-.
    rewrite Z.ltb_irrefl in W1. by eapply weighted_step.
  - exists l1. rewrite list_lookup_insert_ne by lia. split; [done|].
    destruct (Z.ltb_spec s' s), (Z.ltb_spec s' (s + 1)); try lia; done.
Qed.

Lemma streams_up_all o i ll :
  streams_up o i (if has_lpf o then 3 else 2) ll ->
  forall s, 0 <= s < (if has_lpf o then 3 else 2) -> exists l, ll !! Z.to_nat s = Some l /\
    weighted (rate_interp o) (i + 1) l.
Proof.
  intros S s Hs. destruct (S s Hs) as (l & E & W). exists l. split; [done|].
  by rewrite (proj2 (Z.ltb_lt _ _)) in W by lia.
Qed.

Definition same_but_gv (e e' : engine) : Prop :=
  sampling_rate (settings e') = sampling_rate (settings e) /\
  fperiod (settings e') = fperiod (settings e) /\
  msd_threshold (settings e') = msd_threshold (settings e) /\
  models e' = models e /\ duration_iw (settings e') = duration_iw (settings e) /\
  parameter_iw (settings e') = parameter_iw (settings e).

Lemma set_up_same o e0 i e e' : set_up o e0 i e -> same_but_gv e e' -> set_up o e0 i e'.
Proof.
  intros (A1 & A2 & A3 & A4 & A5 & A6) (B1 & B2 & B3 & B4 & B5 & B6).
  unfold set_up. by rewrite B1, B2, B3, B4, B5, B6.
Qed.

Lemma gv_weights_same o n s e e' :
  for_up 0 n (fun i e => r ← rd (rate_interp o) i;
    HTS_Engine_set_gv_interpolation_weight s i r e) e = Ok e' -> 0 <= n -> same_but_gv e e'.
Proof.
  intros E Hn. apply (for_up_inv (fun _ e' => same_but_gv e e')) in E; [done|done|done|].
  intros i e1 e2 _ S B. apply bind_inv_Ok in B as (r & _ & B).
  unfold HTS_Engine_set_gv_interpolation_weight in B. apply bind_inv_Ok in B as (l & _ & B).
  injection B as <-. exact S.
Qed.

Lemma set_weights_up n o e e' :
  set_weights n o e = Ok e' -> 0 <= n ->
  zlen (parameter_iw (settings e)) = (if has_lpf o then 3 else 2) -> set_up o e n e'.
Proof.
  unfold set_weights. intros E Hn Hp. apply bind_inv_Ok in E as (e1 & E1 & E).
  assert (S1 : set_up o e n e1).
  { apply (for_up_inv (set_up o e)) in E1; [done|done| |].
    - do 4 (split; [done|]). split; [intros k Hk; lia|]. intros s Hs.
      destruct (yields_rd (parameter_iw (settings e)) s) as (l & _ & El); [lia|].
      exists l. split; [done|]. intros k Hk. lia.
    - intros i a b Hi (A1 & A2 & A3 & A4 & A5 & A6) B.
      apply bind_inv_Ok in B as (r & Er & B). apply rd_inv in Er as [_ Er].
      apply bind_inv_Ok in B as (a1 & B1 & B).
      apply bind_inv_Ok in B as (a2 & B2 & B). apply bind_inv_Ok in B as (a3 & B3 & B).
      apply bind_inv_Ok in B1 as (d & Ed & B1). injection B1 as <-.
      apply bind_inv_Ok in B2 as (p0 & Ep0 & B2). injection B2 as <-.
      apply bind_inv_Ok in B3 as (p1 & Ep1 & B3). injection B3 as <-.
      cbn in Ep0, Ep1, B.
      assert (S0 : streams_up o i 0 (parameter_iw (settings a))).
      { intros s Hs. rewrite (proj2 (Z.ltb_ge _ _)) by lia. by apply A6. }
      eapply streams_up_step in Ep0; [|done|lia|lia|done].
      eapply streams_up_step in Ep1; [|done|lia|lia|done].
      pose proof (weighted_step _ _ _ _ _ A5 ltac:(lia) Er Ed) as W.
      pose proof (streams_up_all o i) as All.
      destruct (has_lpf o) eqn:Hl.
      + apply bind_inv_Ok in B as (p2 & Ep2 & B). injection B as <-. cbn in Ep2.
        eapply streams_up_step in Ep2; [|done|lia|lia|done].
        unfold set_up. rewrite Hl. cbn. do 5 (split; [done|]). by apply All.
      + injection B as <-. unfold set_up. rewrite Hl. cbn. do 5 (split; [done|]). by apply All. }
  apply bind_inv_Ok in E as (e2 & E2 & E). apply bind_inv_Ok in E as (e3 & E3 & E).
  assert (S2 : set_up o e n e2).
  { destruct (n =? count o ms_gvm); [|by injection E2 as <-]. apply gv_weights_same in E2; [|done].
    by eapply set_up_same. }
  assert (S3 : set_up o e n e3).
  { destruct (n =? count o ms_gvl); [|by injection E3 as <-]. apply gv_weights_same in E3; [|done].
    by eapply set_up_same. }
  destruct (_ && _); [|by injection E as <-]. apply gv_weights_same in E; [|done].
  by eapply set_up_same.
Qed.
(** the arrays of the settings have one entry per stream *)
Definition shape (k : Z) (e : engine) : Prop :=
  zlen (parameter_iw (settings e)) = k /\ zlen (msd_threshold (settings e)) = k.

(** no global variance of stream 2 is loaded *)
Definition no_gv2 (e : engine) : Prop := gv_iw (settings e) !! 2%nat = Some [].

Lemma load_parameter_shape pdf tree win s msd n k e e' :
  HTS_Engine_load_parameter_from_fn pdf tree win s msd n e = Ok e' ->
  (shape k e -> shape k e') /\ (no_gv2 e -> no_gv2 e').
Proof.
  unfold HTS_Engine_load_parameter_from_fn. intros E. apply bind_inv_Ok in E as ([m [|]] & _ & E).
  - apply bind_inv_Ok in E as (l & El & E). injection E as <-. apply wr_inv in El as [_ ->].
    split; [|done]. intros [S1 S2]. split; cbn; [|done]. by rewrite zlen_insert.
  - by injection E as <-.
Qed.

Lemma load_gv_shape pdf tree s n k e e' :
  HTS_Engine_load_gv_from_fn pdf tree s n e = Ok e' ->
  (shape k e -> shape k e') /\ (s <> 2 -> no_gv2 e -> no_gv2 e').
Proof.
  unfold HTS_Engine_load_gv_from_fn. intros E. apply bind_inv_Ok in E as ([m [|]] & _ & E).
  - apply bind_inv_Ok in E as (l & El & E). injection E as <-. apply wr_inv in El as [Hs ->].
    split; [done|]. intros Hs2 G. unfold no_gv2 in *. cbn.
    rewrite list_lookup_insert_ne by lia. done.
  - by injection E as <-.
Qed.

(** the loads of the global variances *)
Lemma load_gvs_shape n o k e e' :
  load_gv n o e = Ok e' ->
  (shape k e -> shape k e') /\
  (count o ms_gvf = count o ts_gvf -> no_gv2 e -> no_gv2 e').
Proof.
  unfold load_gv. intros E. apply bind_inv_Ok in E as (e1 & E1 & E).
  apply bind_inv_Ok in E as (e2 & E2 & E).
  assert (G1 : (shape k e -> shape k e1) /\ (no_gv2 e -> no_gv2 e1)).
  { destruct (n =? count o ms_gvm); [|by injection E1 as <-].
    apply (load_gv_shape _ _ _ _ k) in E1 as [? G]. split; [done|by apply G]. }
  assert (G2 : (shape k e1 -> shape k e2) /\ (no_gv2 e1 -> no_gv2 e2)).
  { destruct (n =? count o ms_gvl); [|by injection E2 as <-].
    apply (load_gv_shape _ _ _ _ k) in E2 as [? G]. split; [done|by apply G]. }
  destruct (_ && has_lpf o); [|injection E as <-; tauto].
  destruct (Z.eqb_spec (count o ms_gvf) (count o ts_gvf)) as [Ec|Ec];
    apply (load_gv_shape _ _ _ _ k) in E as [? G]; [|tauto].
  split; [tauto|]. intros _ Hg. apply G; [lia|tauto].
Qed.

Lemma load_models_shape n o k e e' :
  load_models n o e = Ok e' ->
  (shape k e -> shape k e') /\
  (count o ms_gvf = count o ts_gvf -> no_gv2 e -> no_gv2 e').
Proof.
  unfold load_models. intros E. apply bind_inv_Ok in E as (e0 & E0 & E).
  assert (G0 : (shape k e -> shape k e0) /\ (no_gv2 e -> no_gv2 e0)).
  { apply bind_inv_Ok in E0 as ([m ok] & _ & E0). apply Ok_inj in E0 as <-. by destruct ok. }
  apply bind_inv_Ok in E as (e1 & E1 & E). apply bind_inv_Ok in E as (e2 & E2 & E).
  apply bind_inv_Ok in E as (e3 & E3 & E). apply bind_inv_Ok in E as (e4 & E4 & E).
  apply (load_parameter_shape _ _ _ _ _ _ k) in E1, E2.
  apply (load_gvs_shape _ _ k) in E4.
  assert (G3 : (shape k e2 -> shape k e3) /\ (no_gv2 e2 -> no_gv2 e3)).
  { destruct (has_lpf o); [|by injection E3 as <-].
    by apply (load_parameter_shape _ _ _ _ _ _ k) in E3. }
  assert (G5 : (shape k e4 -> shape k e') /\ (no_gv2 e4 -> no_gv2 e')).
  { destruct (fn_gv_switch o); [|by injection E as <-].
    apply bind_inv_Ok in E as ([m ok] & _ & E). by injection E as <-. }
  tauto.
Qed.

Lemma clampZ_range i : 1 <= clampZ 1 48000 i <= 48000.
Proof. unfold clampZ. case Z.ltb_spec; case Z.ltb_spec; lia. Qed.

Lemma set_parameters_shape o e e' :
  set_parameters o e = Ok e' ->
  (forall k, shape k e -> shape k e') /\ (no_gv2 e -> no_gv2 e') /\
  sampling_rate (settings e') = clampZ 1 48000 (sampling_rate_ o) /\
  fperiod (settings e') = clampZ 1 48000 (fperiod_ o) /\
  msd_threshold (settings e') !! 1%nat = Some (clampF (nZ 0) (nZ 1) (uv_threshold o)).
Proof.
  unfold set_parameters. intros E. apply bind_inv_Ok in E as (e1 & E1 & E).
  apply bind_inv_Ok in E as (e2 & E2 & E). apply bind_inv_Ok in E as (e3 & E3 & E).
  assert (G : forall s f a b, HTS_Engine_set_gv_weight s f a = Ok b -> settings b = settings a).
  { intros s f a b B. apply bind_inv_Ok in B as (l & _ & B). by injection B as <-. }
  apply bind_inv_Ok in E1 as (l & El & E1). injection E1 as <-. apply wr_inv in El as [Hl ->].
  apply G in E2, E3.
  assert (E4 : settings e' = settings e3).
  { destruct (has_lpf o); [by eapply G|by injection E as ->]. }
  unfold shape, no_gv2. rewrite E4, E3, E2. cbn in Hl |- *.
  split; [intros k; by rewrite zlen_insert|]. split; [done|]. split; [done|]. split; [done|].
  apply list_lookup_insert_eq. unfold zlen in Hl. lia.
Qed.

Lemma gv_weights_gv2 o n s e e' :
  for_up 0 n (fun i e => r ← rd (rate_interp o) i;
    HTS_Engine_set_gv_interpolation_weight s i r e) e = Ok e' -> 0 <= n ->
  no_gv2 e -> s <> 2 -> no_gv2 e'.
Proof.
  intros E Hn Hg Hs. apply (for_up_inv (fun _ e' => no_gv2 e')) in E; [done|done|done|].
  intros i e1 e2 _ S B. apply bind_inv_Ok in B as (r & _ & B).
  apply bind_inv_Ok in B as (l & El & B). injection B as <-.
  apply upd_weight_inv in El as (l1 & l2 & _ & _ & Hl & ->). unfold no_gv2. cbn.
  rewrite list_lookup_insert_ne by lia. exact S.
Qed.

Lemma model_weights_gv2 o n (e e' : engine) :
  for_up 0 n (fun i e => r ← rd (rate_interp o) i;
    e ← HTS_Engine_set_duration_interpolation_weight i r e;
    e ← HTS_Engine_set_parameter_interpolation_weight 0 i r e;
    e ← HTS_Engine_set_parameter_interpolation_weight 1 i r e;
    if has_lpf o then HTS_Engine_set_parameter_interpolation_weight 2 i r e else Ok e) e = Ok e' ->
  0 <= n -> gv_iw (settings e') = gv_iw (settings e) /\
    zlen (parameter_iw (settings e')) = zlen (parameter_iw (settings e)).
Proof.
  intros E Hn. apply (for_up_inv (fun _ e' => gv_iw (settings e') = gv_iw (settings e) /\
    zlen (parameter_iw (settings e')) = zlen (parameter_iw (settings e)))) in E;
    [done|done|done|].
  intros i a b _ [S1 S2] B. apply bind_inv_Ok in B as (r & _ & B).
  apply bind_inv_Ok in B as (a1 & B1 & B). apply bind_inv_Ok in B as (a2 & B2 & B).
  apply bind_inv_Ok in B as (a3 & B3 & B).
  apply bind_inv_Ok in B1 as (d & _ & B1). injection B1 as <-.
  apply bind_inv_Ok in B2 as (p0 & P0 & B2). injection B2 as <-.
  apply upd_weight_inv in P0 as (? & ? & _ & _ & _ & ->).
  apply bind_inv_Ok in B3 as (p1 & P1 & B3). injection B3 as <-.
  apply upd_weight_inv in P1 as (? & ? & _ & _ & _ & ->).
  destruct (has_lpf o); [|injection B as <-; cbn; by rewrite !zlen_insert].
  apply bind_inv_Ok in B as (p2 & P2 & B). injection B as <-.
  apply upd_weight_inv in P2 as (? & ? & _ & _ & _ & ->). cbn. by rewrite !zlen_insert.
Qed.

Lemma GetNumInterp_pos argc argv n : GetNumInterp argc argv = Ok n -> 1 <= n.
Proof.
  intros E. pose proof (num_interp_loop_total (S (length argv)) argv 0 argc 1) as T.
  unfold GetNumInterp in E. rewrite E in T. apply T; unfold zlen; lia.
Qed.

(** the parts of a load that returned *)
Lemma load_inv argc argv r :
  load argc argv = Ok r -> exists n o e e1 e2 e3,
    GetNumInterp argc argv = Ok n /\ parse n argc argv = Ok o /\ counts_ok n o = true /\
    e = HTS_Engine_initialize (if has_lpf o then 3 else 2) /\
    load_models n o e = Ok e1 /\ set_parameters o e1 = Ok e2 /\ set_weights n o e2 = Ok e3 /\
    r = Voice.mkEngine (settings e3) (ms_voice (models e3)).
Proof.
  unfold load, load_engine. intros E. apply bind_inv_Ok in E as (e3 & E & Er).
  apply Ok_inj in Er as <-. destruct (argc =? 1); [done|].
  apply bind_inv_Ok in E as (n & En & E). apply bind_inv_Ok in E as (o & Eo & E).
  destruct (counts_ok n o) eqn:Ec; [|done]. cbn [negb] in E.
  apply bind_inv_Ok in E as (e1 & E1 & E). apply bind_inv_Ok in E as (e2 & E2 & E3).
  exists n, o, (HTS_Engine_initialize (if has_lpf o then 3 else 2)), e1, e2, e3.
  done.
Qed.
(** without low-pass filter models there are weights for two streams only *)
Lemma load_two_streams argc argv e n o :
  load argc argv = Ok e -> GetNumInterp argc argv = Ok n -> parse n argc argv = Ok o ->
  has_lpf o = false -> zlen (parameter_iw (global e)) = 2.
Proof.
  intros E En Eo Hl.
  apply load_inv in E as (n' & o' & e0 & e1 & e2 & e3 & En' & Eo' & _ & -> & E1 & E2 & E3 & ->).
  rewrite En in En'. injection En' as <-. rewrite Eo in Eo'. injection Eo' as <-.
  pose proof (GetNumInterp_pos _ _ _ En) as Hn. rewrite Hl in E1.
  apply (load_models_shape _ _ 2) in E1 as [S1 _].
  destruct (set_parameters_shape _ _ _ E2) as (S2 & _).
  assert (S : shape 2 e2) by by apply S2, S1.
  unfold set_weights in E3. apply bind_inv_Ok in E3 as (a1 & B1 & E3).
  apply bind_inv_Ok in E3 as (a2 & B2 & E3). apply bind_inv_Ok in E3 as (a3 & B3 & E3).
  apply model_weights_gv2 in B1 as [_ L1]; [|lia].
  assert (L2 : parameter_iw (settings a2) = parameter_iw (settings a1)).
  { destruct (n =? count o ms_gvm); [|by injection B2 as <-]. eapply gv_weights_same; [exact B2|lia]. }
  assert (L3 : parameter_iw (settings a3) = parameter_iw (settings a2)).
  { destruct (n =? count o ms_gvl); [|by injection B3 as <-]. eapply gv_weights_same; [exact B3|lia]. }
  rewrite Hl, andb_false_r in E3. injection E3 as <-. cbn [global].
  rewrite L3, L2, L1. apply S.
Qed.

(** ** The model set of an engine *)

(** global variances without trees are of two voices at most: of more, only two
    are compared *)
Definition compared (r : request) : Prop :=
  match r with LoadGv n _ _ None => n <= 2 | _ => True end.
Definition gv_compared (n : Z) (o : options) : Prop :=
  n <= 2 \/ count o ms_gvm = count o ts_gvm /\ count o ms_gvl = count o ts_gvl /\
            count o ms_gvf = count o ts_gvf.

(** settings of the same sizes *)
Record alike (g g' : Global F) : Prop := {
  al_duration : zlen (duration_iw g') = zlen (duration_iw g);
  al_parameter : zlen <$> parameter_iw g' = zlen <$> parameter_iw g;
  al_gv : zlen <$> gv_iw g' = zlen <$> gv_iw g;
  al_threshold : zlen (msd_threshold g') = zlen (msd_threshold g)
}.

(** an invariant of the settings and the model set, that loads keep together
    with the weights they make, and that does not depend on the settings but for
    their sizes *)
Section Invariant.
Variable I : Global F -> model_set -> Prop.
Hypothesis I_duration : forall g m n pdf tree, I g m ->
  ends (ms_load m (LoadDuration n pdf tree)) (fun x =>
    I (if x.2 then g <| duration_iw := equal_weights n |> else g) x.1).
Hypothesis I_parameter : forall g m n s msd pdf tree win, I g m ->
  ends (ms_load m (LoadParameter n s msd pdf tree win)) (fun x =>
    if x.2 then forall l, wr (parameter_iw g) s (equal_weights n) = Ok l -> I (g <| parameter_iw := l |>) x.1
    else I g x.1).
Hypothesis I_gv : forall g m n s pdf tree, I g m -> compared (LoadGv n s pdf tree) ->
  ends (ms_load m (LoadGv n s pdf tree)) (fun x =>
    if x.2 then forall l, wr (gv_iw g) s (equal_weights n) = Ok l -> I (g <| gv_iw := l |>) x.1
    else I g x.1).
Hypothesis I_switch : forall g m fn, I g m -> ends (ms_load m (LoadGvSwitch fn)) (fun x => I g x.1).
Hypothesis I_alike : forall g g' m, I g m -> alike g g' -> I g' m.

(** it holds of an engine *)
Definition holds (e : engine) : Prop := I (settings e) (models e).

Lemma ends_wr_eq (A : Type) (l : list A) i x : ends (wr l i x) (fun l' => wr l i x = Ok l').
Proof. eapply ends_mono; [apply ends_wr_inv|]. intros l' [-> Hi]. by apply wr_ok. Qed.

Lemma load_duration_keeps pdf tree n e : holds e ->
  ends (HTS_Engine_load_duration_from_fn pdf tree n e) holds.
Proof. intros Hi. eapply ends_bind; [by apply I_duration|]. intros [m [|]] Hm; exact Hm. Qed.

Lemma load_parameter_keeps pdf tree win s msd n e : holds e ->
  ends (HTS_Engine_load_parameter_from_fn pdf tree win s msd n e) holds.
Proof.
  intros Hi. eapply ends_bind; [by apply I_parameter|]. intros [m [|]] Hm; [|exact Hm].
  eapply ends_bind; [apply ends_wr_eq|]. intros l E. exact (Hm l E).
Qed.

Lemma load_gv_keeps pdf tree s n e : holds e -> (tree = None -> n <= 2) ->
  ends (HTS_Engine_load_gv_from_fn pdf tree s n e) holds.
Proof.
  intros Hi Hn. eapply ends_bind; [apply I_gv; [exact Hi|by destruct tree; [|apply Hn]]|].
  intros [m [|]] Hm; [|exact Hm]. eapply ends_bind; [apply ends_wr_eq|]. intros l E. exact (Hm l E).
Qed.

Lemma load_gvs_keeps n o e : holds e -> gv_compared n o -> ends (load_gv n o e) holds.
Proof.
  intros Hi G. unfold load_gv.
  assert (K : forall a b (pdf : list string) tree, (n <= 2 \/ a = b) ->
    (if a =? b then Some tree else @None (list string)) = None -> n <= 2).
  { intros a b _ tree [G1|G1]; [done|]. by rewrite G1, Z.eqb_refl. }
  apply (ends_bind _ _ holds).
  { destruct (n =? _); [|exact Hi]. apply load_gv_keeps; [exact Hi|]. apply K; [exact []|].
    destruct G as [G1|(G1 & _)]; auto. }
  intros e1 H1. apply (ends_bind _ _ holds).
  { destruct (n =? _); [|exact H1]. apply load_gv_keeps; [exact H1|]. apply K; [exact []|].
    destruct G as [G1|(_ & G1 & _)]; auto. }
  intros e2 H2. destruct (_ && _); [|exact H2]. destruct (Z.eqb_spec (count o ms_gvf) (count o ts_gvf)).
  - by apply load_gv_keeps.
  - apply load_gv_keeps; [exact H2|]. intros _. destruct G as [G1|(_ & _ & G1)]; [done|lia].
Qed.

Lemma load_models_keeps n o e : holds e -> gv_compared n o -> ends (load_models n o e) holds.
Proof.
  intros Hi G. unfold load_models. eapply ends_bind; [by apply load_duration_keeps|].
  intros e1 H1. eapply ends_bind; [by apply load_parameter_keeps|].
  intros e2 H2. eapply ends_bind; [by apply load_parameter_keeps|].
  intros e3 H3. apply (ends_bind _ _ holds).
  { destruct (has_lpf o); [by apply load_parameter_keeps|exact H3]. }
  intros e4 H4. eapply ends_bind; [by apply load_gvs_keeps|].
  intros e5 H5. destruct (fn_gv_switch o); [|exact H5].
  eapply ends_bind; [by apply I_switch|]. by intros [m ok].
Qed.

Lemma set_gv_weight_holds s f e : holds e -> ends (HTS_Engine_set_gv_weight s f e) holds.
Proof. intros Hi. eapply ends_bind; [apply ends_wr_len|]. by intros l _. Qed.

Lemma set_parameters_keeps o e : holds e -> ends (set_parameters o e) holds.
Proof.
  intros Hi. unfold set_parameters. apply (ends_bind _ _ holds).
  { eapply ends_bind; [apply ends_wr_len|]. intros l L. by apply (I_alike _ _ _ Hi). }
  intros e1 H1. eapply ends_bind; [by apply set_gv_weight_holds|]. intros e2 H2.
  eapply ends_bind; [by apply set_gv_weight_holds|].
  intros e3 H3. destruct (has_lpf o); [by apply set_gv_weight_holds|exact H3].
Qed.

Lemma set_weight_ends (l : list F) i f : ends (set_weight l i f) (fun l' => zlen l' = zlen l).
Proof. destruct l; [done|]. apply ends_wr_len. Qed.

Lemma upd_weight_ends (l : list (list F)) s i f :
  ends (upd l s (fun l => set_weight l i f)) (fun l' => zlen <$> l' = zlen <$> l).
Proof.
  unfold upd. apply (ends_bind _ _ (fun x => l !! Z.to_nat s = Some x)).
  { destruct (decide (0 <= s < zlen l)) as [Hs|Hs]; [|by rewrite rd_oob].
    by apply yields_ends, yields_rd. }
  intros x Ex. eapply ends_bind; [apply set_weight_ends|]. intros y Ly.
  eapply ends_mono; [apply ends_wr_inv|]. intros l' [-> _]. rewrite list_fmap_insert, Ly.
  apply list_insert_id. by rewrite list_lookup_fmap, Ex.
Qed.

Lemma set_duration_weight_keeps i f e : holds e ->
  ends (HTS_Engine_set_duration_interpolation_weight i f e) holds.
Proof.
  intros Hi. eapply ends_bind; [apply set_weight_ends|]. intros l L. by apply (I_alike _ _ _ Hi).
Qed.
Lemma set_parameter_weight_keeps s i f e : holds e ->
  ends (HTS_Engine_set_parameter_interpolation_weight s i f e) holds.
Proof.
  intros Hi. eapply ends_bind; [apply upd_weight_ends|]. intros l L. by apply (I_alike _ _ _ Hi).
Qed.
Lemma set_gv_weight_keeps s i f e : holds e ->
  ends (HTS_Engine_set_gv_interpolation_weight s i f e) holds.
Proof.
  intros Hi. eapply ends_bind; [apply upd_weight_ends|]. intros l L. by apply (I_alike _ _ _ Hi).
Qed.

Lemma each_weight_keeps n o (f : Z -> F -> engine -> Res engine) e : 0 <= n -> holds e ->
  (forall i r e, holds e -> ends (f i r e) holds) ->
  ends (for_up 0 n (fun i e => r ← rd (rate_interp o) i; f i r e) e) holds.
Proof.
  intros Hn Hi Hf. apply (for_up_ends (fun _ => holds)); [done|done|].
  intros i e' _ H'. eapply ends_bind; [apply ends_rd|]. intros r _. by apply Hf.
Qed.

Lemma set_weights_keeps n o e : 0 <= n -> holds e -> ends (set_weights n o e) holds.
Proof.
  intros Hn Hi. unfold set_weights. eapply ends_bind.
  { apply each_weight_keeps; [done|exact Hi|]. intros i r e' H'.
    eapply ends_bind; [by apply set_duration_weight_keeps|]. intros e1 H1.
    eapply ends_bind; [by apply set_parameter_weight_keeps|]. intros e2 H2.
    eapply ends_bind; [by apply set_parameter_weight_keeps|]. intros e3 H3.
    destruct (has_lpf o); [by apply set_parameter_weight_keeps|exact H3]. }
  assert (G : forall s e, holds e -> ends (for_up 0 n (fun i e => r ← rd (rate_interp o) i;
    HTS_Engine_set_gv_interpolation_weight s i r e) e) holds).
  { intros s e' H'. apply each_weight_keeps; [done|done|]. intros. by apply set_gv_weight_keeps. }
  intros e1 H1. apply (ends_bind _ _ holds).
  { destruct (n =? _); [by apply G|exact H1]. }
  intros e2 H2. apply (ends_bind _ _ holds).
  { destruct (n =? _); [by apply G|exact H2]. }
  intros e3 H3. destruct (_ && _); [by apply G|exact H3].
Qed.

(** a load ends, and what the loads of model sets keep holds of the voice *)
Lemma load_engine_keeps argc argv :
  holds (HTS_Engine_initialize 2) -> holds (HTS_Engine_initialize 3) ->
  (forall n o, GetNumInterp argc argv = Ok n -> parse n argc argv = Ok o -> gv_compared n o) ->
  ends (load_engine argc argv) holds.
Proof.
  intros I2 I3 G. unfold load_engine. destruct (argc =? 1); [done|].
  pose proof (num_interp_loop_total (S (length argv)) argv 0 argc 1) as T.
  fold (GetNumInterp argc argv) in T.
  destruct (GetNumInterp argc argv) as [n| | |] eqn:En; try done; [|by apply T; unfold zlen; lia].
  rewrite bind_Ok. assert (Hn : 1 <= n) by (apply T; unfold zlen; lia).
  assert (P : ends (parse n argc argv) (fun _ => True)) by (apply arguments_total; unfold zlen; lia).
  destruct (parse n argc argv) as [o| | |] eqn:Eo; try done. rewrite bind_Ok.
  destruct (counts_ok n o); [|done]. cbn [negb].
  eapply ends_bind; [apply load_models_keeps; [by destruct (has_lpf o)|by apply G]|]. intros e1 H1.
  eapply ends_bind; [by apply set_parameters_keeps|]. intros e2 H2.
  apply set_weights_keeps; [lia|done].
Qed.

End Invariant.

(** ** Properties *)

(** C25: a configuration is read as it is meant: for every list of arguments
    (words, options with values, flags, interpolation weights) followed by one
    last word, the parser has the effect of the arguments one by one, the last
    word being ignored; errors of an argument (a list of files that is full, a
    number that is no int) are the parser's. *)
Theorem parse_conf n (l : list arg) (last : string) :
  Forall (arg_ok n) l -> 0 <= n ->
  let argv := concat (print <$> l) ++ [last] in
  parse n (zlen argv) argv = apply_args (capacity (zlen argv) n) n l (default_options n).
Proof.
  intros Hl Hn argv. destruct (parse_print n l [last] Hl Hn) as (fuel & E).
  { intros l1 a _. pose proof (print_length a). unfold zlen. cbn. lia. }
  cbn zeta in E. fold argv in E. rewrite E. destruct (apply_args _ _ _ _); try done.
Qed.

(** The last word is required: a configuration that ends with the value of
    an option (or with the interpolation weights) makes the parser read past
    the arguments. *)
Theorem unterminated_conf n (l : list arg) (a : arg) o :
  Forall (arg_ok n) (l ++ [a]) -> 0 <= n -> 2 <= zlen (print a) ->
  let argv := concat (print <$> l ++ [a]) in
  apply_args (capacity (zlen argv) n) n (l ++ [a]) (default_options n) = Ok o ->
  parse n (zlen argv) argv = Undef OutOfBounds.
Proof.
  intros Hl Hn Ha argv Ho. destruct (parse_print n (l ++ [a]) [] Hl Hn) as (fuel & E).
  { intros l1 b Eb. apply app_inj_tail in Eb as [_ <-]. pose proof (zlen_nonneg ([] : list string)). lia. }
  cbn zeta in E. rewrite app_nil_r in E. fold argv in E. rewrite E, Ho, bind_Ok.
  cbn [arguments]. change (zlen ([] : list string)) with 0. cbn beta. unfold argument.
  rewrite (rd_oob argv (zlen argv)) by lia. reflexivity.
Qed.

(** Loading ends: neither scan of the arguments runs for ever, whatever
    the arguments are. *)
Theorem parse_ends argc argv :
  ends (n ← GetNumInterp argc argv; o ← parse n argc argv; Ok (n, o)) (fun r => 1 <= r.1).
Proof.
  eapply ends_bind.
  { apply num_interp_loop_total; unfold zlen; lia. }
  intros n Hn. cbn beta in Hn. eapply ends_bind.
  { apply arguments_total; unfold zlen; lia. }
  done.
Qed.

(** C34: an engine that loads has the number of models the configuration says
    for every parameter, a rate and a frame period within 1 and 48000, and the
    interpolation weights of the configuration for the durations and every
    stream. *)
Theorem loaded_engine argc argv e :
  load argc argv = Ok e ->
  exists n o, GetNumInterp argc argv = Ok n /\ parse n argc argv = Ok o /\
    counts_ok n o = true /\
    sampling_rate (global e) = clampZ 1 48000 (sampling_rate_ o) /\
    fperiod (global e) = clampZ 1 48000 (fperiod_ o) /\
    1 <= sampling_rate (global e) <= 48000 /\ 1 <= fperiod (global e) <= 48000 /\
    msd_threshold (global e) !! 1%nat = Some (clampF (nZ 0) (nZ 1) (uv_threshold o)) /\
    weighted (rate_interp o) n (duration_iw (global e)) /\
    forall s, 0 <= s < (if has_lpf o then 3 else 2) ->
      exists w, parameter_iw (global e) !! Z.to_nat s = Some w /\ weighted (rate_interp o) n w.
Proof.
  intros E. apply load_inv in E as (n & o & e0 & e1 & e2 & e3 & En & Eo & Ec & -> & E1 & E2 & E3 & ->).
  exists n, o. pose proof (GetNumInterp_pos _ _ _ En) as Hn.
  apply (load_models_shape _ _ (if has_lpf o then 3 else 2)) in E1 as [S1 _].
  destruct (set_parameters_shape _ _ _ E2) as (S2 & _ & Er & Ep & Em).
  assert (Hp : zlen (parameter_iw (settings e2)) = (if has_lpf o then 3 else 2)).
  { apply (S2 _), S1. by destruct (has_lpf o). }
  apply set_weights_up in E3 as (A1 & A2 & A3 & _ & A5 & A6); [|lia|done].
  cbn [global]. rewrite A1, A2, A3, Er, Ep.
  pose proof (clampZ_range (sampling_rate_ o)). pose proof (clampZ_range (fperiod_ o)).
  by do 9 (split; [done|]).
Qed.

(** The global variance of the low-pass filter cannot be used: a
    configuration that gives models and trees for it never loads, because they
    are loaded into stream 0 while the weights of stream 2 are written. *)
Theorem lpf_gv_unusable argc argv n o :
  GetNumInterp argc argv = Ok n -> parse n argc argv = Ok o -> has_lpf o = true ->
  count o ms_gvf = n -> count o ts_gvf = n -> is_ok (load argc argv) = false.
Proof.
  intros En Eo Hl Hm Ht. destruct (load argc argv) as [r| | |] eqn:E; try done. exfalso.
  apply load_inv in E as (n' & o' & e0 & e1 & e2 & e3 & En' & Eo' & Ec & -> & E1 & E2 & E3 & _).
  rewrite En in En'. injection En' as <-. rewrite Eo in Eo'. injection Eo' as <-.
  pose proof (GetNumInterp_pos _ _ _ En) as Hn.
  apply (load_models_shape _ _ 3) in E1 as [_ G1].
  destruct (set_parameters_shape _ _ _ E2) as (_ & G2 & _).
  assert (G : no_gv2 e2) by (apply G2, G1; [lia|by rewrite Hl]).
  unfold set_weights in E3. rewrite (proj2 (Z.eqb_eq n (count o ms_gvf))), Hl in E3 by done.
  apply bind_inv_Ok in E3 as (a1 & B1 & E3). apply bind_inv_Ok in E3 as (a2 & B2 & E3).
  apply bind_inv_Ok in E3 as (a3 & B3 & E3). cbn [andb] in E3.
  assert (Ga1 : no_gv2 a1).
  { unfold no_gv2. destruct (model_weights_gv2 o n e2 a1) as [-> _]; [by rewrite Hl|lia|done]. }
  assert (Ga2 : no_gv2 a2).
  { destruct (n =? count o ms_gvm); [|by injection B2 as <-].
    eapply gv_weights_gv2; [exact B2|lia|done|done]. }
  assert (Ga3 : no_gv2 a3).
  { destruct (n =? count o ms_gvl); [|by injection B3 as <-].
    eapply gv_weights_gv2; [exact B3|lia|done|done]. }
  rewrite for_up_cons in E3 by lia. apply bind_inv_Ok in E3 as (b & Eb & _).
  apply bind_inv_Ok in Eb as (x & _ & Eb). apply bind_inv_Ok in Eb as (l & El & _).
  apply upd_weight_inv in El as (l1 & l2 & E1 & Ew & _). unfold no_gv2 in Ga3.
  change (Z.to_nat 2) with 2%nat in E1. rewrite Ga3 in E1. injection E1 as <-. done.
Qed.
End Engine.

(** ** Concrete configurations *)

Section Runs.
#[local] Existing Instance no_libm.

Definition any_voice : Voice double :=
  mkVoice (fun _ _ => (replicate 5 (nZ 1), replicate 5 (nZ 1)))
    (fun _ _ _ _ => ([nZ 1], [nZ 1], nZ 0)) (fun _ _ _ => ([nZ 1], [nZ 1]))
    (fun _ => false) (fun _ => false) (fun _ => 1) 1 (fun _ => 1) (fun _ => 1)
    (fun _ => 1) (fun _ _ => 0) (fun _ _ => 0) (fun _ _ _ => nZ 0) (fun _ => 0) false (fun _ => Ok true).

(** model files that always load *)
#[local] Instance any_files : ModelFiles double :=
  {| model_set := unit; ms_initialize := fun _ => tt; ms_load := fun _ _ => Ok (tt, true);
     ms_voice := fun _ => any_voice |}.
Definition no_special (_ : string) : double := nZ 0.

(** the options of data/cmu-arctic/config, with short names *)
Definition ex_args : list arg :=
  [AValue "-s" "48000"; AValue "-p" "240"; AValue "-a" "0.55";
   AValue "-td" "td"; AValue "-tm" "tm"; AValue "-tf" "tf"; AValue "-tl" "tl";
   AValue "-md" "md"; AValue "-mm" "mm"; AValue "-mf" "mf"; AValue "-ml" "ml";
   AValue "-dm" "w1"; AValue "-dm" "w2"; AValue "-df" "w1"; AFlag "-l"].
Definition ex_conf : list string := concat (print <$> ex_args) ++ ["alice01.lab"].

Lemma ex_args_ok : Forall (arg_ok 1) ex_args.
Proof. repeat constructor. Qed.

Lemma parse_conf_witness :
  parse no_special 1 (zlen ex_conf) ex_conf =
    apply_args no_special (capacity (zlen ex_conf) 1) 1 ex_args (default_options 1) /\
  (fun o : options (F:=double) => (sampling_rate_ o, files o ws_mgc)) <$>
    parse no_special 1 (zlen ex_conf) ex_conf = Ok (48000, ["w1"; "w2"]).
Proof.
  split; [|vm_compute; reflexivity].
  exact (parse_conf no_special 1 ex_args "alice01.lab" ex_args_ok ltac:(lia)).
Defined.

Lemma unterminated_conf_witness :
  parse no_special 1 4 ["-s"; "48000"; "-p"; "240"] = Undef OutOfBounds.
Proof.
  destruct (is_ok_inv (apply_args (F:=double) no_special (capacity 4 1) 1
    ([AValue "-s" "48000"] ++ [AValue "-p" "240"]) (default_options 1))) as [o E];
    [vm_compute; reflexivity|].
  exact (unterminated_conf no_special 1 [AValue "-s" "48000"] (AValue "-p" "240") o
    ltac:(repeat constructor) ltac:(lia) ltac:(done) E).
Defined.

Lemma loaded_engine_witness :
  exists e, load no_special (zlen ex_conf) ex_conf = Ok e /\
  exists n (o : options (F:=double)), GetNumInterp (zlen ex_conf) ex_conf = Ok n /\
    parse no_special n (zlen ex_conf) ex_conf = Ok o /\ counts_ok n o = true /\
    sampling_rate (global e) = clampZ 1 48000 (sampling_rate_ o) /\
    fperiod (global e) = clampZ 1 48000 (fperiod_ o) /\
    1 <= sampling_rate (global e) <= 48000 /\ 1 <= fperiod (global e) <= 48000 /\
    msd_threshold (global e) !! 1%nat = Some (clampF (nZ 0) (nZ 1) (uv_threshold o)) /\
    weighted (rate_interp o) n (duration_iw (global e)) /\
    forall s, 0 <= s < (if has_lpf o then 3 else 2) ->
      exists w, parameter_iw (global e) !! Z.to_nat s = Some w /\ weighted (rate_interp o) n w.
Proof.
  destruct (is_ok_inv (load no_special (zlen ex_conf) ex_conf)) as [e E];
    [vm_compute; reflexivity|].
  exists e. split; [exact E|]. exact (loaded_engine no_special _ _ e E).
Defined.

(** the same with the global variance of the low-pass filter *)
Definition ex_lpf_gv : list string :=
  concat (print <$> ex_args ++ [AValue "-cl" "cl"; AValue "-el" "el"]) ++ ["alice01.lab"].

Lemma lpf_gv_unusable_witness :
  is_ok (load no_special (zlen ex_lpf_gv) ex_lpf_gv) = false.
Proof.
  destruct (is_ok_inv (parse (F:=double) no_special 1 (zlen ex_lpf_gv) ex_lpf_gv)) as [o E];
    [vm_compute; reflexivity|].
  assert (C : (fun o => (has_lpf o, count o ms_gvf, count o ts_gvf)) <$>
    parse (F:=double) no_special 1 (zlen ex_lpf_gv) ex_lpf_gv = Ok (true, 1, 1))
    by (vm_compute; reflexivity).
  rewrite E in C. injection C as C1 C2 C3.
  exact (lpf_gv_unusable no_special (zlen ex_lpf_gv) ex_lpf_gv 1 o eq_refl E C1 C2 C3).
Defined.
End Runs.
End Engine.
