(* ===== verification/HtsLoad.v ===== *)
(** * Loading model sets (HTS_model.c of mage/libs/hts_engine-1.06)

    The functions that load the durations, the parameters, the global variances
    and their switch of a model set, for several voices, from open files and from
    named files: the implementation of the interface [ModelFiles] of MAGE's
    engines.  A load that succeeds leaves a model set whose trees answer and whose
    distributions have the lengths of their streams, which is all a complete set
    ([HtsVoice.complete_set]) needs beyond the choice of labels, leaves and
    windows that the files make. *)

From Stdlib Require Import Ascii String.
From S2P Require Import Prelude Num Constants CString HtsPattern HtsTree HtsModel Voice HtsVoice HtsPdf Label Engine.
#[local] Open Scope Z_scope.

Module HtsLoad.
Import HtsPattern HtsTree HtsModel HtsVoice HtsPdf.

Section HtsLoad.
Context {F : Type} `{NumOps F}.
Variable strtod_special : string -> F.

(** ** Streams *)

(** an array of [n] models of zeros *)
Definition calloc_models (n : Z) : list (Model F) := replicate (Z.to_nat n) HTS_Model_initialize.

(** the distributions of [n] voices, for [nt] trees; every message ends the
    program, so that a failed file is the only FALSE.  [None] is FALSE, with the
    stream cleared *)
Definition HTS_Stream_load_pdf (st : Stream F) (fps : list file) (nt : Z) (msd : bool) (n : Z)
    : Res (option (Stream F)) :=
  '(models, result) ← for_up 0 n (fun i '(models, result) =>
    fp ← rd fps i;
    '(m, ok) ← HTS_Model_load_pdf HTS_Model_initialize fp nt msd;
    models ← wr models i m;
    Ok (models, result && ok)) (calloc_models n, true);
  if negb result then Ok None
  else
    _ ← for_up 1 n (fun _ _ =>
      a ← rd models 0; b ← rd models 1;
      if negb (vector_length a =? vector_length b) then Exit 1 else Ok tt) tt;
    a ← rd models 0;
    Ok (Some (mkStream (vector_length a) models (window st) msd n)).

(** one voice of [HTS_Stream_load_pdf_and_tree]; None for FALSE *)
Definition load_voice (pdf_fps tree_fps : list file) (msd : bool) (buff : string) (i : Z)
    (models : list (Model F)) : Res (option (list (Model F))) :=
  tree_fp ← rd tree_fps i; pdf_fp ← rd pdf_fps i;
  '(m, ok) ← HTS_Model_load_tree tree_fp buff HTS_Model_initialize;
  if negb ok then Ok None
  else
    '(m, ok) ← HTS_Model_load_pdf m pdf_fp (ntree m) msd;
    if negb ok then Ok None else models ← wr models i m; Ok (Some models).

(** trees and distributions of [n] voices; the window of the stream is kept *)
Definition HTS_Stream_load_pdf_and_tree (st : Stream F) (pdf_fps tree_fps : list file) (msd : bool)
    (n : Z) (buff : string) : Res (option (Stream F)) :=
  r ← for_up 0 n (fun i r =>
    match r with
    | None => Ok None
    | Some models => load_voice pdf_fps tree_fps msd buff i models
    end) (Some (calloc_models n));
  match r with
  | None => Ok None
  | Some models =>
      _ ← for_up 1 n (fun i _ =>
        a ← rd models 0; b ← rd models i;
        if negb (vector_length a =? vector_length b) then Exit 1 else Ok tt) tt;
      a ← rd models 0;
      Ok (Some (mkStream (vector_length a) models (window st) msd n))
  end.

(** ** Model sets: FALSE clears the set *)

Definition cleared : ModelSet F := HTS_ModelSet_initialize (-1).

Definition HTS_ModelSet_load_duration (ms : ModelSet F) (pdf_fps tree_fps : list file) (n : Z)
    (buff : string) : Res (ModelSet F * bool) :=
  if n <=? 0 then Ok (cleared, false)
  else
    r ← HTS_Stream_load_pdf_and_tree (duration ms) pdf_fps tree_fps false n buff;
    match r with
    | None => Ok (cleared, false)
    | Some st => Ok (mkModelSet st (stream ms) (gv ms) (gv_switch ms) (svector_length st) (nstream ms), true)
    end.

(** the array of streams is made by the first load *)
Definition streams_of (ms : ModelSet F) : list (Stream F) :=
  match stream ms with [] => replicate (Z.to_nat (nstream ms)) HTS_Stream_initialize | l => l end.

Definition HTS_ModelSet_load_parameter (ms : ModelSet F) (pdf_fps tree_fps win_fps : list file)
    (k : Z) (msd : bool) (window_size n : Z) (buff : string) : Res (ModelSet F * bool) :=
  if (k <? 0) || (nstream ms <=? k) || (window_size <=? 0) || (n <=? 0) then Ok (cleared, false)
  else
    let streams := streams_of ms in
    st ← rd streams k;
    r ← HTS_Stream_load_pdf_and_tree st pdf_fps tree_fps msd n buff;
    match r with
    | None => Ok (cleared, false)
    | Some st =>
        '(w, ok) ← HTS_Window_load strtod_special win_fps window_size;
        if negb ok then Ok (cleared, false)
        else
          streams ← wr streams k (mkStream (svector_length st) (model st) w (msd_flag st) (interpolation_size st));
          Ok (mkModelSet (duration ms) streams (gv ms) (gv_switch ms) (nstate ms) (nstream ms), true)
    end.

Definition gv_of (ms : ModelSet F) : list (Stream F) :=
  match gv ms with None => replicate (Z.to_nat (nstream ms)) HTS_Stream_initialize | Some l => l end.

(** [tree_fps] is None for the null pointer *)
Definition HTS_ModelSet_load_gv (ms : ModelSet F) (pdf_fps : list file) (tree_fps : option (list file))
    (k n : Z) (buff : string) : Res (ModelSet F * bool) :=
  if (k <? 0) || (nstream ms <=? k) || (n <=? 0) then Ok (cleared, false)
  else
    let gvs := gv_of ms in
    st ← rd gvs k;
    r ← match tree_fps with
        | Some fps => HTS_Stream_load_pdf_and_tree st pdf_fps fps false n buff
        | None => HTS_Stream_load_pdf st pdf_fps 1 false n
        end;
    match r with
    | None => Ok (cleared, false)
    | Some st =>
        gvs ← wr gvs k st;
        Ok (mkModelSet (duration ms) (stream ms) (Some gvs) (gv_switch ms) (nstate ms) (nstream ms), true)
    end.

(** a second switch would be linked to the first through a null pointer *)
Definition HTS_ModelSet_load_gv_switch (ms : ModelSet F) (fp : file) (buff : string)
    : Res (ModelSet F * bool) :=
  match tree (gv_switch ms) with
  | _ :: _ => Undef NullPointer
  | [] =>
      '(m, ok) ← HTS_Model_load_tree fp buff HTS_Model_initialize;
      Ok (mkModelSet (duration ms) (stream ms) (gv ms) m (nstate ms) (nstream ms), ok)
  end.

(** ** Named files *)

Variable disk : string -> option (list ascii).
(* what a buffer of the stack holds before the first token *)
Variable buff : string.

(** a file that cannot be opened ends the program *)
Definition HTS_fopen (name : string) : Res file :=
  match disk name with Some l => Ok (mkFile l false) | None => Exit 1 end.

(** the files of [n] names *)
Definition open_all (names : list string) (n : Z) : Res (list file) :=
  for_up 0 n (fun i fps => s ← rd names i; fp ← HTS_fopen s; Ok (fps ++ [fp])) [].

Definition load_request (ms : ModelSet F) (r : request) : Res (ModelSet F * bool) :=
  match r with
  | LoadDuration n pdf tree =>
      pdf_fps ← open_all pdf n; tree_fps ← open_all tree n;
      HTS_ModelSet_load_duration ms pdf_fps tree_fps n buff
  | LoadParameter n k msd pdf tree win =>
      pdf_fps ← open_all pdf n; tree_fps ← open_all tree n; win_fps ← open_all win (zlen win);
      HTS_ModelSet_load_parameter ms pdf_fps tree_fps win_fps k msd (zlen win) n buff
  | LoadGv n k pdf tree =>
      pdf_fps ← open_all pdf n;
      tree_fps ← match tree with
                 | Some names => fps ← open_all names n; Ok (Some fps)
                 | None => Ok None
                 end;
      HTS_ModelSet_load_gv ms pdf_fps tree_fps k n buff
  | LoadGvSwitch fn => fp ← HTS_fopen fn; HTS_ModelSet_load_gv_switch ms fp buff
  end.

#[local] Instance disk_files : ModelFiles F := {|
  model_set := ModelSet F;
  ms_initialize := HTS_ModelSet_initialize;
  ms_load := load_request;
  ms_voice := voice_of
|}.


(** the buffer is a C string *)
Hypothesis buff_ok : token_ok buff.

(** ** What a load leaves *)

(** the trees of a model answer, and its distributions have [need] numbers *)
Record sound_model (need : Z) (m : Model F) : Prop := {
  sm_trees : Forall sound_tree (tree m);
  sm_pdfs : zlen (tree m) <= zlen (pdf m);
  sm_rows : Forall (Forall (fun row => zlen row = need)) (pdf m);
  sm_first : Forall (fun rows => 0 < zlen rows) (pdf m)
}.

(** a window has as many coefficients as its widths say *)
Record sound_window (w : Window F) : Prop := {
  sw_rows : zlen (l_width w) = size w /\ zlen (r_width w) = size w /\ zlen (coefficient w) = size w;
  sw_widths : forall i l r row, l_width w !! i = Some l -> r_width w !! i = Some r ->
    coefficient w !! i = Some row -> zlen row = r - l + 1 /\ 0 < zlen row /\ l <= 0;
  sw_reach : forall i l r, l_width w !! i = Some l -> r_width w !! i = Some r -> r <= max_width w;
  sw_max : 0 <= max_width w
}.

Record sound_stream (st : Stream F) : Prop := {
  ss_size : interpolation_size st = zlen (model st);
  ss_length : 0 <= svector_length st;
  ss_models : Forall (sound_model (2 * svector_length st + if msd_flag st then 1 else 0)) (model st);
  ss_window : sound_window (window st)
}.

Record sound_set (ms : ModelSet F) : Prop := {
  st_duration : sound_stream (duration ms);
  st_msd : msd_flag (duration ms) = false;
  st_nstate : 0 < nstate ms -> nstate ms = svector_length (duration ms);
  st_streams : Forall sound_stream (stream ms);
  st_gv : forall l, gv ms = Some l -> Forall (fun st => sound_stream st /\ msd_flag st = false) l;
  st_switch : Forall sound_tree (tree (gv_switch ms))
}.

Lemma empty_window : sound_window HTS_Window_initialize.
Proof. constructor; [done| | |done]; by intros [|i]. Qed.
Lemma empty_stream : sound_stream HTS_Stream_initialize.
Proof. constructor; [done|done|constructor|apply empty_window]. Qed.
Lemma empty_set n : sound_set (HTS_ModelSet_initialize n).
Proof. constructor; [apply empty_stream|done|cbn; lia|constructor|done|constructor]. Qed.

(** *** Windows *)

Lemma token_chars_ends fuel c fp l : zlen l <= HTS_MAXBUFLEN < zlen l + Z.of_nat fuel ->
  ends (token_chars fuel c fp l) (fun _ => True).
Proof.
  revert c fp l. induction fuel as [|fuel IH]; intros c fp l Hf; [lia|]. cbn [token_chars].
  eapply ends_bind; [by apply (ends_check _ _ (fun _ => zlen l < HTS_MAXBUFLEN)), Z.ltb_lt|].
  intros [] Hl. destruct (token_separator c); [done|]. destruct (HTS_feof fp).
  - eapply ends_bind; [by apply (ends_check _ _ (fun _ => True))|]. done.
  - destruct (HTS_fgetc fp). apply IH. rewrite (zlen_snoc l c). lia.
Qed.

Lemma get_token_ends fp : ends (HTS_get_token fp) (fun _ => True).
Proof.
  unfold HTS_get_token. destruct (HTS_feof fp); [done|]. destruct (HTS_fgetc fp) as [c fp1].
  destruct (skip_separators _ _ _ _) as [[c' fp2]|]; [|done].
  eapply ends_bind; [by apply token_chars_ends|]. by intros [l fp3] _.
Qed.

Lemma load_coefficients_ends fsize res fp : 0 <= fsize ->
  ends (load_coefficients strtod_special fsize res fp) (fun r => zlen r.2 = fsize).
Proof.
  intros Hf. eapply ends_bind.
  { apply (for_up_ends (fun _ s => zlen s.1.2 = fsize)); [done|cbn; rewrite zlen_replicate; lia|].
    intros j [[b row] f1] _ L. cbn [fst snd] in L. eapply ends_bind; [apply get_token_ends|].
    intros [[t|] f2] _; (eapply ends_bind; [apply ends_wr_len|]); intros row' L'; cbn in *; congruence. }
  by intros [[b row] f1] L.
Qed.

Lemma load_window_ends fp : ends (load_window strtod_special fp) (fun r =>
  zlen r.1.1.2 = r.2 - r.1.2 + 1 /\ 0 < zlen r.1.1.2 /\ r.1.2 <= 0).
Proof.
  eapply ends_bind; [apply get_token_ends|]. intros [tok f1] _.
  apply (ends_bind _ _ (fun r => 0 < r.2)).
  { destruct tok; [|done]. eapply ends_bind; [apply ends_atoi|]. intros n _. cbn.
    destruct (Z.leb_spec n 0); cbn; lia. }
  intros [b fsize] Hf. cbn [snd] in Hf. eapply ends_bind; [apply load_coefficients_ends; lia|].
  intros [b2 row] L. cbn [ends fst snd] in *. rewrite L. pose proof (Z.quot_rem' fsize 2).
  pose proof (Z.rem_bound_pos fsize 2). destruct (Z.eqb_spec (Z.rem fsize 2) 0); lia.
Qed.

(** the largest width *)
Lemma widest_bound ls rs :
  0 <= widest ls rs /\ forall i l r, ls !! i = Some l -> rs !! i = Some r -> r <= widest ls rs.
Proof.
  unfold widest. set (step := fun (w : Z) '(l, r) => _).
  assert (G : forall ps w, w <= foldl step w ps /\ forall l r, (l, r) ∈ ps -> r <= foldl step w ps).
  { induction ps as [|[l r] ps IH]; intros w; cbn [foldl]; [by split; [|intros l r ?%elem_of_nil]|].
    destruct (IH (step w (l, r))) as [Hw Hp].
    assert (Hs : w <= step w (l, r) /\ r <= step w (l, r)).
    { unfold step. case (Z.ltb_spec w (Z.abs l)); intros; case Z.ltb_spec; lia. }
    split; [lia|]. intros l' r' [[= -> ->]|Hin]%elem_of_cons; [lia|by apply (Hp l')]. }
  destruct (G (zip ls rs) 0) as [G0 G1]. split; [done|]. intros i l r El Er. apply (G1 l).
  apply (list_elem_of_lookup_2 _ i). by apply lookup_zip_with_Some; exists l, r.
Qed.

(** the windows read so far *)
Definition windows_read (i : Z) (w : Window F) : Prop :=
  zlen (l_width w) = i /\ zlen (r_width w) = i /\ zlen (coefficient w) = i /\
  forall k l r row, l_width w !! k = Some l -> r_width w !! k = Some r -> coefficient w !! k = Some row ->
    zlen row = r - l + 1 /\ 0 < zlen row /\ l <= 0.

Lemma windows_read_snoc i w s l r row m : windows_read i w ->
  zlen row = r - l + 1 /\ 0 < zlen row /\ l <= 0 ->
  windows_read (i + 1) (mkWindow s (l_width w ++ [l]) (r_width w ++ [r]) (coefficient w ++ [row]) m).
Proof.
  intros (L1 & L2 & L3 & W) Ew. unfold windows_read. cbn. rewrite !zlen_snoc.
  do 3 (split; [lia|]). intros k l' r' row' X1 X2 X3. destruct (decide (k = Z.to_nat i)) as [->|Hne].
  - rewrite lookup_app_r in X1 by (unfold zlen in *; lia).
    rewrite lookup_app_r in X2 by (unfold zlen in *; lia).
    rewrite lookup_app_r in X3 by (unfold zlen in *; lia).
    replace (Z.to_nat i - length (l_width w))%nat with 0%nat in X1 by (unfold zlen in *; lia).
    replace (Z.to_nat i - length (r_width w))%nat with 0%nat in X2 by (unfold zlen in *; lia).
    replace (Z.to_nat i - length (coefficient w))%nat with 0%nat in X3 by (unfold zlen in *; lia).
    injection X1 as <-. injection X2 as <-. injection X3 as <-. exact Ew.
  - apply lookup_app_Some in X1 as [X1|[? X1]];
      [|apply lookup_lt_Some in X1; cbn in X1; unfold zlen in *; lia].
    apply lookup_lt_Some in X1 as L0.
    rewrite lookup_app_l in X2 by (unfold zlen in *; lia).
    rewrite lookup_app_l in X3 by (unfold zlen in *; lia). by apply (W k).
Qed.

Lemma window_load_ends fps n : ends (HTS_Window_load strtod_special fps n) (fun r => sound_window r.1).
Proof.
  unfold HTS_Window_load. destruct (Z.leb_spec n 0) as [|Hn]; [apply empty_window|].
  eapply ends_bind.
  { apply (for_up_ends (fun i s => windows_read i s.2)); [lia|repeat split; done|].
    intros i [b w] _ W. cbn [snd] in W. eapply ends_bind; [apply ends_rd|]. intros fp _.
    eapply ends_bind; [apply load_window_ends|]. intros [[[ok row] l] r] Ew. cbn [ends fst snd] in *.
    by apply windows_read_snoc. }
  intros [b w] (L1 & L2 & L3 & W). cbn [ends snd] in *. destruct b; [|apply empty_window].
  constructor; [done|exact W| |]; apply (widest_bound (l_width w) (r_width w)).
Qed.

(** *** Streams *)

(** what holds of the models of the voices that were loaded *)
Definition voices_loaded (msd : bool) (n i : Z) (models : list (Model F)) : Prop :=
  zlen models = n /\ forall k m, models !! k = Some m -> Z.of_nat k < i ->
    0 < vector_length m /\ sound_model (2 * vector_length m + if msd then 1 else 0) m.

Lemma voices_none msd n : 0 <= n -> voices_loaded msd n 0 (calloc_models n).
Proof. intros Hn. split; [unfold calloc_models; rewrite zlen_replicate; lia|]. intros. lia. Qed.

Lemma voices_loaded_wr msd n i models m : voices_loaded msd n i models -> 0 <= i ->
  0 < vector_length m -> sound_model (2 * vector_length m + if msd then 1 else 0) m ->
  ends (wr models i m) (voices_loaded msd n (i + 1)).
Proof.
  intros [L A] Hi Hv Sm. eapply ends_mono; [apply ends_wr_inv|]. intros models' [-> Hr].
  split; [by rewrite zlen_insert|]. intros k m' X Hk. destruct (decide (k = Z.to_nat i)) as [->|Hne].
  - rewrite list_lookup_insert_eq in X by (unfold zlen in Hr; lia). by injection X as <-.
  - rewrite list_lookup_insert_ne in X by done. apply (A k); [done|lia].
Qed.

Lemma sized_sound nt need m (t : list Tree) : Forall sound_tree t -> zlen t <= nt -> tree m = t ->
  sized_pdf nt need (pdf m) -> Forall (fun rows => 0 < zlen rows) (pdf m) -> sound_model need m.
Proof. intros Ht Hn <- [L R] Hf. constructor; [done|lia|done|done]. Qed.

(** one voice *)
Lemma load_voice_ends pdf_fps tree_fps msd n i models :
  0 <= i -> voices_loaded msd n i models ->
  ends (load_voice pdf_fps tree_fps msd buff i models)
    (fun r => forall models', r = Some models' -> voices_loaded msd n (i + 1) models').
Proof.
  intros Hi V. unfold load_voice. eapply ends_bind; [apply ends_rd|]. intros tree_fp _.
  eapply ends_bind; [apply ends_rd|]. intros pdf_fp _.
  eapply ends_bind; [by apply load_tree_ends|]. intros [m [|]] Hm; [|done].
  destruct (Hm eq_refl) as (_ & Ht & _ & Hc). cbn [fst negb] in *.
  eapply ends_bind; [apply load_pdf_ends|]. intros [m2 [|]] Hm2; [|done].
  destruct (Hm2 eq_refl) as (Et & Hv & Sz & Ff). cbn [fst negb] in *.
  eapply ends_bind; [|intros ms2 V2 models' [= <-]; exact V2]. apply voices_loaded_wr; [done|done|done|].
  eapply sized_sound; [exact Ht| |exact Et|exact Sz|exact Ff]. lia.
Qed.

Lemma ends_bind2 {A B C} (m : Res A) (f : A -> Res B) (g : B -> Res C) P Q :
  ends (m ≫= f) P -> (forall b, P b -> ends (g b) Q) -> ends (m ≫= fun a => f a ≫= g) Q.
Proof. intros E Hg. rewrite <-bind_assoc. by eapply ends_bind. Qed.

(** the models of a stream have its vector length *)
Lemma same_length_ends (models : list (Model F)) n : 0 < n -> zlen models = n ->
  ends (_ ← for_up 1 n (fun i _ =>
          a ← rd models 0; b ← rd models i;
          if negb (vector_length a =? vector_length b) then Exit 1 else Ok tt) tt;
        rd models 0)
    (fun a => Forall (fun m => vector_length m = vector_length a) models).
Proof.
  intros Hn L. destruct (yields_rd models 0) as (a & Ea & Xa); [lia|]. rewrite Ea.
  apply (ends_bind _ _ (fun _ => forall k m, models !! k = Some m -> Z.of_nat k < n ->
    vector_length m = vector_length a)).
  - apply (for_up_ends (fun i _ => forall k m, models !! k = Some m -> Z.of_nat k < i ->
      vector_length m = vector_length a)); [lia| |].
    + intros k m X Hk. replace k with (Z.to_nat 0) in X by lia. by simplify_eq.
    + intros i [] Hi A. rewrite bind_Ok. destruct (yields_rd models i) as (b & Eb & Xb); [lia|].
      rewrite Eb, bind_Ok. destruct (Z.eqb_spec (vector_length a) (vector_length b)) as [E|]; [|done].
      intros k m X Hk. destruct (decide (k = Z.to_nat i)) as [->|Hne]; [by simplify_eq|].
      apply (A k); [done|lia].
  - intros [] A. cbn [ends]. apply Forall_lookup. intros k m X. apply (A k); [done|].
    apply lookup_lt_Some in X. unfold zlen in L. lia.
Qed.

Lemma voices_sound msd n (models : list (Model F)) len : voices_loaded msd n n models ->
  Forall (fun m => vector_length m = len) models -> 0 < n ->
  0 <= len /\ Forall (sound_model (2 * len + if msd then 1 else 0)) models.
Proof.
  intros [L A] E Hn. rewrite Forall_lookup in E.
  assert (G : forall k m, models !! k = Some m -> 0 < len /\ sound_model (2 * len + if msd then 1 else 0) m).
  { intros k m X. rewrite <-(E _ _ X). apply (A k); [done|]. apply lookup_lt_Some in X.
    unfold zlen in L. lia. }
  split.
  - destruct (yields_rd models 0) as (a & _ & Xa); [lia|]. destruct (G _ _ Xa). lia.
  - apply Forall_lookup. intros k m X. by eapply G.
Qed.

Lemma load_pdf_and_tree_ends st pdf_fps tree_fps msd n : 0 < n -> sound_stream st ->
  ends (HTS_Stream_load_pdf_and_tree st pdf_fps tree_fps msd n buff)
    (fun r => forall st', r = Some st' -> sound_stream st' /\ msd_flag st' = msd).
Proof.
  intros Hn S. unfold HTS_Stream_load_pdf_and_tree.
  apply (ends_bind _ _ (fun r => forall models, r = Some models -> voices_loaded msd n n models)).
  { apply (for_up_ends (fun i r => forall models, r = Some models -> voices_loaded msd n i models)); [lia| |].
    - intros models [= <-]. apply voices_none. lia.
    - intros i [models|] Hi V; [|done]. apply load_voice_ends; [lia|by apply V]. }
  intros [models|] V; [|done]. specialize (V models eq_refl).
  pose proof (same_length_ends models n Hn (proj1 V)) as Y.
  eapply ends_bind2; [exact Y|]. intros a E. cbn [ends]. intros st' [= <-]. split; [|done].
  destruct (voices_sound _ _ _ _ V E Hn) as [Hl Sm].
  constructor; cbn; [symmetry; apply V|done|done|apply S].
Qed.

(** without trees only the first two voices are compared *)
Lemma load_stream_pdf_ends st fps nt msd n : 0 < n <= 2 -> sound_stream st ->
  ends (HTS_Stream_load_pdf st fps nt msd n)
    (fun r => forall st', r = Some st' -> sound_stream st' /\ msd_flag st' = msd).
Proof.
  intros Hn S. unfold HTS_Stream_load_pdf.
  apply (ends_bind _ _ (fun r => r.2 = true -> voices_loaded msd n n r.1)).
  { apply (for_up_ends (fun i r => r.2 = true -> voices_loaded msd n i r.1)); [lia| |].
    - intros _. apply voices_none. lia.
    - intros i [models res] Hi V. cbn [fst snd] in V. eapply ends_bind; [apply ends_rd|]. intros fp _.
      eapply ends_bind; [apply load_pdf_ends|]. intros [m ok] Hm. cbn [fst snd] in Hm.
      destruct res; [|eapply ends_bind; [apply ends_wr_len|]; intros ? _; done].
      destruct ok; [|eapply ends_bind; [apply ends_wr_len|]; intros ? _; done].
      destruct (Hm eq_refl) as (Et & Hv & Sz & Ff).
      eapply ends_bind; [|intros ms2 V2 _; exact V2]. apply voices_loaded_wr; [by apply V|lia|done|].
      apply (sized_sound nt _ _ []); [constructor| |done|done|done]. destruct Sz as [<- _]. apply zlen_nonneg. }
  intros [models [|]] V; [|done]. specialize (V eq_refl). cbn [fst snd negb] in *.
  pose proof (same_length_ends models n ltac:(lia) (proj1 V)) as Y.
  assert (E2 : for_up 1 n (fun _ _ => a ← rd models 0; b ← rd models 1;
      if negb (vector_length a =? vector_length b) then Exit 1 else Ok tt) tt =
    for_up 1 n (fun i _ => a ← rd models 0; b ← rd models i;
      if negb (vector_length a =? vector_length b) then Exit 1 else Ok tt) tt).
  { destruct (decide (n = 2)) as [->|]; [done|]. by rewrite !for_up_nil by lia. }
  rewrite E2. eapply ends_bind2; [exact Y|]. intros a E. cbn [ends]. intros st' [= <-]. split; [|done].
  destruct (voices_sound _ _ _ _ V E ltac:(lia)) as [Hl Sm].
  constructor; cbn; [symmetry; apply V|done|done|apply S].
Qed.

(** *** Model sets *)

Lemma cleared_sound : sound_set cleared.
Proof. apply empty_set. Qed.

Lemma ends_wr_Forall {A} (P : A -> Prop) (l : list A) i x : Forall P l -> P x -> ends (wr l i x) (Forall P).
Proof. intros Hl Hx. eapply ends_mono; [apply ends_wr_inv|]. intros l' [-> _]. by apply Forall_insert. Qed.

Lemma load_duration_ends ms pdf_fps tree_fps n : sound_set ms ->
  ends (HTS_ModelSet_load_duration ms pdf_fps tree_fps n buff) (fun r => sound_set r.1).
Proof.
  intros S. unfold HTS_ModelSet_load_duration. destruct (Z.leb_spec n 0); [apply cleared_sound|].
  eapply ends_bind; [apply load_pdf_and_tree_ends; [lia|apply S]|].
  intros [st|] Hst; [|apply cleared_sound]. destruct (Hst st eq_refl). cbn [ends fst].
  constructor; [done|done|done|apply S|apply S|apply S].
Qed.

Lemma streams_of_sound ms : sound_set ms -> Forall sound_stream (streams_of ms).
Proof.
  intros S. unfold streams_of. pose proof (st_streams _ S) as A. destruct (stream ms); [|exact A].
  apply Forall_replicate, empty_stream.
Qed.

Lemma load_parameter_ends ms pdf_fps tree_fps win_fps k msd size n : sound_set ms ->
  ends (HTS_ModelSet_load_parameter ms pdf_fps tree_fps win_fps k msd size n buff)
    (fun r => sound_set r.1).
Proof.
  intros S. unfold HTS_ModelSet_load_parameter. pose proof (streams_of_sound ms S) as Ss.
  destruct (_ || _) eqn:E; [apply cleared_sound|]. apply orb_false_iff in E as [_ E]. apply Z.leb_gt in E.
  eapply ends_bind; [apply (ends_rd_in _ _ _ Ss)|]. intros st Hst.
  eapply ends_bind; [apply load_pdf_and_tree_ends; [lia|exact Hst]|].
  intros [st'|] Hst'; [|apply cleared_sound]. destruct (Hst' st' eq_refl) as [[]].
  eapply ends_bind; [apply window_load_ends|]. intros [w [|]] Hw; [|apply cleared_sound].
  cbn [negb fst] in *. eapply ends_bind; [apply ends_wr_Forall; [exact Ss|]|].
  - by constructor.
  - intros streams A. constructor; [apply S|apply S|apply S|exact A|apply S|apply S].
Qed.

Lemma gv_of_sound ms : sound_set ms ->
  Forall (fun st => sound_stream st /\ msd_flag st = false) (gv_of ms).
Proof.
  intros S. unfold gv_of. destruct (gv ms) as [l|] eqn:E; [by apply S|].
  apply Forall_replicate. split; [apply empty_stream|done].
Qed.

Lemma load_gv_ends ms pdf_fps tree_fps k n : sound_set ms -> (tree_fps = None -> n <= 2) ->
  ends (HTS_ModelSet_load_gv ms pdf_fps tree_fps k n buff) (fun r => sound_set r.1).
Proof.
  intros S Hn. unfold HTS_ModelSet_load_gv. pose proof (gv_of_sound ms S) as Ss.
  destruct (_ || _) eqn:E; [apply cleared_sound|]. apply orb_false_iff in E as [_ E]. apply Z.leb_gt in E.
  eapply ends_bind; [apply (ends_rd_in _ _ _ Ss)|]. intros st [Hst _].
  apply (ends_bind _ _ (fun r => forall st', r = Some st' -> sound_stream st' /\ msd_flag st' = false)).
  { destruct tree_fps as [fps|]; [apply load_pdf_and_tree_ends; [lia|exact Hst]|].
    apply load_stream_pdf_ends; [|exact Hst]. specialize (Hn eq_refl). lia. }
  intros [st'|] Hst'; [|apply cleared_sound].
  eapply ends_bind; [apply ends_wr_Forall; [exact Ss|by apply Hst']|].
  intros gvs A. constructor; [apply S|apply S|apply S|apply S| |apply S]. by intros l [= <-].
Qed.

Lemma load_gv_switch_ends ms fp : sound_set ms ->
  ends (HTS_ModelSet_load_gv_switch ms fp buff) (fun r => sound_set r.1).
Proof.
  intros S. unfold HTS_ModelSet_load_gv_switch. destruct (tree (gv_switch ms)); [|done].
  eapply ends_bind; [by apply load_tree_sound|]. intros [m ok] T.
  constructor; [apply S|apply S|apply S|apply S|apply S|exact T].
Qed.

Lemma open_all_ends names n : ends (open_all names n) (fun _ => True).
Proof.
  destruct (decide (0 <= n)); [|unfold open_all; by rewrite for_up_nil by lia].
  apply (for_up_ends (fun _ _ => True)); [done|done|]. intros i fps _ _.
  eapply ends_bind; [apply ends_rd|]. intros s _. unfold HTS_fopen. by destruct (disk s).
Qed.


(** ** Complete sets *)

(** what is left to the contents of the files: every label is taken by a tree,
    and the leaves are rows *)
Record usable (fit : Tree -> bool) (m : Model F) : Prop := {
  u_covers : forall s, text s -> Exists (fun t => fit t = true /\ takes s t) (tree m);
  u_leaves : forall n t rows d v, tree m !! n = Some t -> fit t = true -> pdf m !! n = Some rows ->
    tree_of (S (length (nodes t))) (nodes t) (root t) = Ok d -> v ∈ leaves d -> 1 <= v <= zlen rows
}.

Lemma usable_complete fit need m : sound_model need m -> usable fit m -> complete fit need m.
Proof.
  intros [T L R _] [C Lv]. constructor; [done|done|]. intros n t X Hf.
  destruct (lookup_lt_is_Some_2 (pdf m) n) as [rows Xr].
  { apply lookup_lt_Some in X. unfold zlen in L. lia. }
  exists rows. split; [done|]. intros d v E Hv. pose proof (Lv _ _ _ _ _ X Hf Xr E Hv) as Hb.
  split; [lia|]. destruct (lookup_lt_is_Some_2 rows (Z.to_nat (v - 1))) as [row Xrow]; [unfold zlen in Hb; lia|].
  exists row. split; [done|]. rewrite Forall_lookup in R. pose proof (R _ _ Xr) as Rr.
  rewrite Forall_lookup in Rr. by rewrite (Rr _ _ Xrow).
Qed.

Record mage_window (len : Z) (w : Window F) : Prop := {
  mw_size : 0 < size w <= len;
  mw_odd : forall i l r, l_width w !! i = Some l -> r_width w !! i = Some r -> l = - r;
  mw_max : max_width w * 2 + 1 <= maxWindowWidth
}.

Record mage_set (ms : ModelSet F) : Prop := {
  ma_states : nstate ms = nOfStates;
  ma_duration : Forall (usable all_trees) (model (duration ms));
  ma_streams : zlen (stream ms) = nOfStreams;
  ma_parameters : Forall (fun st => 0 < svector_length st <= maxStreamLen /\
    mage_window (svector_length st) (window st) /\
    forall j, 2 <= j < nOfStates + 2 -> Forall (usable (of_state j)) (model st)) (stream ms);
  ma_gv : forall l, gv ms = Some l -> zlen l = nOfStreams /\ Forall (fun st =>
    svector_length st <= maxStreamLen /\
    if have_trees (model st) then Forall (usable all_trees) (model st)
    else Forall (fun m => 0 < zlen (pdf m)) (model st)) l;
  ma_switch : tree (gv_switch ms) <> [] -> forall s, text s -> Exists (takes s) (tree (gv_switch ms))
}.

Lemma Forall_usable fit need models : Forall (sound_model need) models -> Forall (usable fit) models ->
  Forall (complete fit need) models.
Proof.
  rewrite !Forall_lookup. intros S U k m X. apply usable_complete; [by eapply S|by eapply U].
Qed.

Lemma sound_window_complete len w : sound_window w -> mage_window len w -> complete_window len w.
Proof.
  intros [R W Re M] [S O X]. constructor; [done|done| |done|done]. intros i l r row X1 X2 X3.
  destruct (W _ _ _ _ X1 X2 X3) as (E & P & Hl). pose proof (O _ _ _ X1 X2) as ->.
  split; [done|]. lia.
Qed.

Lemma sound_gv_complete st : sound_stream st -> msd_flag st = false -> svector_length st <= maxStreamLen ->
  (if have_trees (model st) then Forall (usable all_trees) (model st)
   else Forall (fun m => 0 < zlen (pdf m)) (model st)) -> complete_gv st.
Proof.
  intros [Es Hl Sm _] Em Hx U. rewrite Em, Z.add_0_r in Sm. constructor; [done|lia|].
  destruct (have_trees (model st)); [by apply Forall_usable|].
  rewrite Forall_lookup in *. intros k m X. pose proof (U _ _ X) as Hp. destruct (Sm _ _ X) as [_ _ R Ff].
  destruct (lookup_lt_is_Some_2 (pdf m) 0) as [rows Xr]; [unfold zlen in Hp; lia|].
  rewrite Forall_lookup in R, Ff. pose proof (R _ _ Xr) as Rr. pose proof (Ff _ _ Xr) as Fr.
  destruct (lookup_lt_is_Some_2 rows 0) as [row Xrow]; [cbn in Fr; unfold zlen in Fr; lia|].
  exists rows, row. do 2 (split; [done|]). rewrite Forall_lookup in Rr. rewrite (Rr _ _ Xrow). lia.
Qed.

Lemma sound_set_complete ms : sound_set ms -> mage_set ms -> complete_set ms.
Proof.
  intros S M. pose proof (st_nstate _ S) as Hn. rewrite (ma_states _ M) in Hn.
  specialize (Hn eq_refl). destruct (st_duration _ S) as [Es Hl Sm _]. rewrite (st_msd _ S) in Sm.
  constructor.
  - apply M.
  - rewrite (ma_states _ M), Hn. constructor; [done|lia|lia|].
    replace (svector_length (duration ms) + svector_length (duration ms))
      with (2 * svector_length (duration ms) + 0) by lia. apply Forall_usable; [done|apply M].
  - apply M.
  - pose proof (st_streams _ S) as A. pose proof (ma_parameters _ M) as B. rewrite Forall_lookup in *.
    intros k st X. destruct (A _ _ X) as [Es' Hl' Sm' W']. destruct (B _ _ X) as (Hv & Wm & U).
    constructor; [done| |by apply sound_window_complete].
    intros j Hj. constructor; [done|lia|destruct (msd_flag st); lia|]. apply Forall_usable; [done|by apply U].
  - intros l E. destruct (ma_gv _ M l E) as [L U]. split; [done|].
    pose proof (st_gv _ S l E) as A. rewrite Forall_lookup in *. intros k st X.
    destruct (A _ _ X) as [Ss Em]. destruct (U _ _ X). by apply sound_gv_complete.
  - split; [apply S|apply M].
Qed.

(** ** The weights of an engine fit its models *)

(** a stream has at most as many models as there are weights *)
Definition fits (n : Z) (w : option (list F)) : Prop := exists l, w = Some l /\ n <= zlen l.

Record weighed (g : Global F) (ms : ModelSet F) : Prop := {
  wd_sizes : zlen (msd_threshold g) = zlen (parameter_iw g) /\ zlen (gv_iw g) = zlen (parameter_iw g);
  wd_nstream : nstream ms <= zlen (parameter_iw g) <= 3;
  wd_duration : interpolation_size (duration ms) <= zlen (duration_iw g);
  wd_parameter : forall k st, stream ms !! k = Some st -> fits (interpolation_size st) (parameter_iw g !! k);
  wd_gv : forall l k st, gv ms = Some l -> l !! k = Some st -> fits (interpolation_size st) (gv_iw g !! k)
}.

Lemma equal_weights_fit n : n <= zlen (Engine.equal_weights (F := F) n).
Proof. unfold Engine.equal_weights. rewrite zlen_replicate. lia. Qed.

Lemma fits_alike n (a b : list (list F)) k :
  zlen <$> b = zlen <$> a -> fits n (a !! k) -> fits n (b !! k).
Proof.
  intros E (l & El & Hn). assert (X : (zlen <$> b) !! k = Some (zlen l)).
  { by rewrite E, list_lookup_fmap, El. }
  rewrite list_lookup_fmap in X. destruct (b !! k) as [l'|]; [|done]. injection X as X.
  exists l'. split; [done|lia].
Qed.

Lemma weighed_alike g g' ms : weighed g ms -> Engine.alike g g' -> weighed g' ms.
Proof.
  intros [[A B] C D E G] [L1 L2 L3 L4]. pose proof (f_equal length L2) as M2.
  pose proof (f_equal length L3) as M3. rewrite !length_fmap in M2, M3. unfold zlen in *.
  constructor; unfold zlen; try lia.
  - intros k st X. eapply fits_alike; [exact L2|by eapply E].
  - intros l k st X Y. eapply fits_alike; [exact L3|by eapply G].
Qed.

Lemma cleared_weighed g ms : weighed g ms -> weighed g cleared.
Proof.
  intros [A B C D E]. pose proof (zlen_nonneg (duration_iw g)). constructor; [done| | |done|done].
  - change (-1 <= zlen (parameter_iw g) <= 3). pose proof (zlen_nonneg (parameter_iw g)). lia.
  - by change (0 <= zlen (duration_iw g)).
Qed.

(** the array of streams is at most as long as the weights *)
Lemma padded_fits (g : list (list F)) (l : list (Stream F)) n :
  n <= zlen g -> (forall k st, l !! k = Some st -> fits (interpolation_size st) (g !! k)) ->
  forall k st, match l with [] => replicate (Z.to_nat n) HTS_Stream_initialize | l => l end !! k = Some st ->
  fits (interpolation_size st) (g !! k).
Proof.
  intros Hn Hl k st X. destruct l as [|st0 l]; [|by apply Hl].
  apply lookup_replicate in X as [-> Hk]. destruct (lookup_lt_is_Some_2 g k) as [w Ew]; [unfold zlen in Hn; lia|].
  exists w. split; [done|]. apply (zlen_nonneg w).
Qed.

Lemma load_pdf_and_tree_size st pdf_fps tree_fps msd n st' :
  HTS_Stream_load_pdf_and_tree st pdf_fps tree_fps msd n buff = Ok (Some st') ->
  interpolation_size st' = n.
Proof.
  unfold HTS_Stream_load_pdf_and_tree. intros E. apply bind_inv_Ok in E as ([models|] & _ & E); [|done].
  apply bind_inv_Ok in E as (? & _ & E). apply bind_inv_Ok in E as (a & _ & E). by injection E as <-.
Qed.
Lemma load_stream_pdf_size st fps nt msd n st' :
  HTS_Stream_load_pdf st fps nt msd n = Ok (Some st') -> interpolation_size st' = n.
Proof.
  unfold HTS_Stream_load_pdf. intros E. apply bind_inv_Ok in E as ([models r] & _ & E).
  destruct (negb r); [done|]. apply bind_inv_Ok in E as (? & _ & E). apply bind_inv_Ok in E as (a & _ & E).
  by injection E as <-.
Qed.

(** the new weights of stream [k] fit its new models *)
Lemma replaced_fits (g g' : list (list F)) (l l' : list (Stream F)) k st n :
  (forall k st, l !! k = Some st -> fits (interpolation_size st) (g !! k)) ->
  wr g k (Engine.equal_weights n) = Ok g' -> wr l k st = Ok l' -> interpolation_size st = n ->
  (forall k st, l' !! k = Some st -> fits (interpolation_size st) (g' !! k)) /\ zlen g' = zlen g.
Proof.
  intros Hl Eg El Es. apply wr_inv in Eg as [Hk ->]. apply wr_inv in El as [_ ->].
  split; [|by rewrite zlen_insert]. intros i st' X. destruct (decide (i = Z.to_nat k)) as [->|Hne].
  - rewrite list_lookup_insert_eq by (unfold zlen in Hk; lia).
    apply lookup_lt_Some in X as Hi. rewrite length_insert in Hi.
    rewrite list_lookup_insert_eq in X by done. injection X as <-.
    eexists. split; [done|]. rewrite Es. apply equal_weights_fit.
  - rewrite list_lookup_insert_ne in X by done. rewrite list_lookup_insert_ne by done. by apply Hl.
Qed.

Lemma load_duration_weighed g ms pdf_fps tree_fps n r : weighed g ms ->
  HTS_ModelSet_load_duration ms pdf_fps tree_fps n buff = Ok r ->
  weighed (if r.2 then g <| duration_iw := Engine.equal_weights n |> else g) r.1.
Proof.
  intros W E. unfold HTS_ModelSet_load_duration in E. pose proof (cleared_weighed g ms W) as C.
  destruct (n <=? 0); [by injection E as <-|]. apply bind_inv_Ok in E as ([st|] & Es & E); injection E as <-; [|done].
  apply load_pdf_and_tree_size in Es. destruct W. constructor; try done. cbn. rewrite Es. apply equal_weights_fit.
Qed.

Lemma load_parameter_weighed g ms pdf_fps tree_fps win_fps k msd ws n r : weighed g ms ->
  HTS_ModelSet_load_parameter ms pdf_fps tree_fps win_fps k msd ws n buff = Ok r ->
  if r.2 then forall l, wr (parameter_iw g) k (Engine.equal_weights n) = Ok l ->
    weighed (g <| parameter_iw := l |>) r.1
  else weighed g r.1.
Proof.
  intros W E. unfold HTS_ModelSet_load_parameter in E. pose proof (cleared_weighed g ms W) as C.
  destruct (_ || _); [by injection E as <-|]. apply bind_inv_Ok in E as (st & _ & E).
  apply bind_inv_Ok in E as ([st'|] & Es & E); [|by injection E as <-].
  apply load_pdf_and_tree_size in Es. apply bind_inv_Ok in E as ([w [|]] & _ & E); [|by injection E as <-].
  cbn [negb] in E. apply bind_inv_Ok in E as (l & El & E). injection E as <-. cbn [fst snd].
  intros g' Eg. destruct W as [[A B] D G P V].
  assert (Pad : forall k st, streams_of ms !! k = Some st -> fits (interpolation_size st) (parameter_iw g !! k)).
  { intros i st0 X. unfold streams_of in X. destruct (stream ms) as [|s0 l0]; [|by apply P].
    apply (padded_fits (parameter_iw g) [] (nstream ms)); [lia|done|done]. }
  destruct (replaced_fits _ _ _ _ _ _ _ Pad Eg El Es) as [P' L].
  constructor; [|by rewrite <-L in D|exact G|exact P'|exact V].
  by rewrite <-L in A, B.
Qed.

Lemma load_gv_weighed g ms pdf_fps tree_fps k n r : weighed g ms ->
  HTS_ModelSet_load_gv ms pdf_fps tree_fps k n buff = Ok r ->
  if r.2 then forall l, wr (gv_iw g) k (Engine.equal_weights n) = Ok l -> weighed (g <| gv_iw := l |>) r.1
  else weighed g r.1.
Proof.
  intros W E. unfold HTS_ModelSet_load_gv in E. pose proof (cleared_weighed g ms W) as C.
  destruct (_ || _); [by injection E as <-|]. apply bind_inv_Ok in E as (st & _ & E).
  apply bind_inv_Ok in E as ([st'|] & Es & E); [|by injection E as <-].
  assert (Es' : interpolation_size st' = n).
  { destruct tree_fps; [by eapply load_pdf_and_tree_size|by eapply load_stream_pdf_size]. }
  apply bind_inv_Ok in E as (l & El & E). injection E as <-. cbn [fst snd].
  intros g' Eg. destruct W as [[A B] D G P V].
  assert (Pad : forall k st, gv_of ms !! k = Some st -> fits (interpolation_size st) (gv_iw g !! k)).
  { unfold gv_of. destruct (gv ms) as [l0|]; [intros; by eapply V|].
    intros i st0 X. apply (padded_fits (gv_iw g) [] (nstream ms)); [lia|done|done]. }
  destruct (replaced_fits _ _ _ _ _ _ _ Pad Eg El Es') as [P' L].
  constructor; [by rewrite <-L in B|exact D|exact G|exact P|].
  intros l0 i st0 X. injection X as <-. apply P'.
Qed.

Lemma load_gv_switch_weighed g ms fp r : weighed g ms ->
  HTS_ModelSet_load_gv_switch ms fp buff = Ok r -> weighed g r.1.
Proof.
  intros W E. unfold HTS_ModelSet_load_gv_switch in E. destruct (tree (gv_switch ms)); [|done].
  apply bind_inv_Ok in E as ([m ok] & _ & E). injection E as <-. destruct W. by constructor.
Qed.

(** *** What is kept while an engine is loaded *)

Definition voiced (g : Global F) (ms : ModelSet F) : Prop := sound_set ms /\ weighed g ms.

Lemma ends_both {A} (m : Res A) (P Q : A -> Prop) :
  ends m P -> (forall a, m = Ok a -> Q a) -> ends m (fun a => P a /\ Q a).
Proof. intros Hp Hq. destruct m; [by split; [|apply Hq]|done..]. Qed.

Lemma request_duration g ms n pdf tree : voiced g ms ->
  ends (load_request ms (LoadDuration n pdf tree)) (fun x =>
    voiced (if x.2 then g <| duration_iw := Engine.equal_weights n |> else g) x.1).
Proof.
  intros [S W]. cbn [load_request]. do 2 (eapply ends_bind; [apply open_all_ends|]; intros ? _).
  eapply ends_mono; [apply ends_both; [by apply load_duration_ends|intros r; by apply load_duration_weighed]|].
  intros [ms' [|]] [S' W']; by split.
Qed.

Lemma request_parameter g ms n k msd pdf tree win : voiced g ms ->
  ends (load_request ms (LoadParameter n k msd pdf tree win)) (fun x =>
    if x.2 then forall l, wr (parameter_iw g) k (Engine.equal_weights n) = Ok l ->
      voiced (g <| parameter_iw := l |>) x.1
    else voiced g x.1).
Proof.
  intros [S W]. cbn [load_request]. do 3 (eapply ends_bind; [apply open_all_ends|]; intros ? _).
  eapply ends_mono; [apply ends_both; [by apply load_parameter_ends|intros r; by apply load_parameter_weighed]|].
  intros [ms' [|]] [S' W']; cbn [fst snd] in *; [|by split]. intros l El. split; [done|by apply W'].
Qed.

Lemma request_gv g ms n k pdf tree : voiced g ms -> Engine.compared (LoadGv n k pdf tree) ->
  ends (load_request ms (LoadGv n k pdf tree)) (fun x =>
    if x.2 then forall l, wr (gv_iw g) k (Engine.equal_weights n) = Ok l -> voiced (g <| gv_iw := l |>) x.1
    else voiced g x.1).
Proof.
  intros [S W] Hr. cbn [load_request]. eapply ends_bind; [apply open_all_ends|]. intros pf _.
  apply (ends_bind _ _ (fun tf => tf = None -> n <= 2)).
  { destruct tree as [names|]; [|by intros _]. eapply ends_bind; [apply open_all_ends|]. by intros fps _. }
  intros tf Htf.
  eapply ends_mono; [apply ends_both; [by apply load_gv_ends|intros r; by apply load_gv_weighed]|].
  intros [ms' [|]] [S' W']; cbn [fst snd] in *; [|by split]. intros l El. split; [done|by apply W'].
Qed.

Lemma request_switch g ms fn : voiced g ms ->
  ends (load_request ms (LoadGvSwitch fn)) (fun x => voiced g x.1).
Proof.
  intros [S W]. cbn [load_request]. unfold HTS_fopen. destruct (disk fn); [|done]. rewrite bind_Ok.
  apply ends_both; [by apply load_gv_switch_ends|intros r; by apply load_gv_switch_weighed].
Qed.

Lemma empty_voiced n : n = 2 \/ n = 3 -> Engine.holds voiced (Engine.HTS_Engine_initialize n).
Proof.
  intros Hn. split; [apply empty_set|].
  destruct Hn as [-> | ->]; constructor; unfold zlen; cbn; done || lia.
Qed.

(** loading ends, with sound models and weights that fit them *)
Lemma loading_ends argc argv :
  (forall n o, Engine.GetNumInterp argc argv = Ok n ->
    Engine.parse strtod_special n argc argv = Ok o -> Engine.gv_compared n o) ->
  ends (Engine.load_engine strtod_special argc argv) (Engine.holds voiced).
Proof.
  apply (@Engine.load_engine_keeps F _ disk_files strtod_special voiced).
  - intros. by apply request_duration.
  - intros. by apply request_parameter.
  - intros. by apply request_gv.
  - intros. by apply request_switch.
  - intros g g' ms [S W] A. split; [done|]. by eapply weighed_alike.
  - apply empty_voiced. by left.
  - apply empty_voiced. by right.
Qed.

(** C10: whatever the files of a configuration hold, loading it ends, and an
    engine that is loaded has models whose trees, the switch of the global
    variance included, can be searched for every label and whose distributions
    and windows have the lengths the streams say; when moreover its dimensions
    are MAGE's, its trees take every label (that of the switch too) and its
    leaves are rows of the distribution files, it is a voice as MAGE needs it.
    This holds for configurations whose global variances are of at most two
    voices or come with their trees ([gv_compared]): without trees the loader
    compares the vector lengths of the first two voices only. *)
Theorem loaded_voice argc argv :
  (forall n o, Engine.GetNumInterp argc argv = Ok n ->
    Engine.parse strtod_special n argc argv = Ok o -> Engine.gv_compared n o) ->
  ends (Engine.load_engine strtod_special argc argv) (fun e => sound_set (Engine.models e) /\
    (mage_set (Engine.models e) -> complete_set (Engine.models e) /\
                                   VoiceLaws (Voice.ms (Engine.handed e)))).
Proof.
  intros G. eapply ends_mono; [by apply loading_ends|].
  intros e [S _]. split; [exact S|]. intros M. pose proof (sound_set_complete _ S M) as C.
  split; [exact C|]. by apply voice_of_laws.
Qed.

End HtsLoad.

(** ** A voice of small files *)

#[local] Existing Instance no_libm.
Definition no_special (_ : string) : double := nZ 0.

(** the text of a file, with its double quotes *)
Definition quoted (s : string) : list ascii :=
  map (fun c => if Ascii.eqb c (chr 96) then dquote_char else c) (list_ascii_of_string s).

(** tree-lpf.inf of the voices, and a tree for the durations *)
Definition ex_trees : list ascii := quoted
"{*}[2]
   `lpf_s2_1`
{*}[3]
   `lpf_s3_1`
{*}[4]
   `lpf_s4_1`
{*}[5]
   `lpf_s5_1`
{*}[6]
   `lpf_s6_1`
".
Definition ex_dur_tree : list ascii := quoted
"{*}[2]
   `dur_s2_1`
".

(** words of the numbers 3 and 1 *)
Definition three : Z := 1077936128.
Definition one : Z := 1065353216.
Definition ex_dur : content := Plain 5 5 [[replicate 5 (three, one)]].
Definition ex_plain : content := Plain 1 1 (replicate 5 [[(three, one)]]).
Definition ex_multi : content := Multi 1 1 (replicate 5 [[([(three, one)], (one, 0))]]).

Definition ex_disk (name : string) : option (list ascii) :=
  if String.eqb name "tree-dur" then Some ex_dur_tree
  else if String.eqb name "trees" then Some ex_trees
  else if String.eqb name "dur" then Some (write_pdf ex_dur)
  else if String.eqb name "plain" then Some (write_pdf ex_plain)
  else if String.eqb name "multi" then Some (write_pdf ex_multi)
  else if String.eqb name "win1" then Some (list_ascii_of_string "1 1.0
")
  else None.

Definition ex_conf : list string :=
  ["-s"; "48000"; "-p"; "240"; "-td"; "tree-dur"; "-tm"; "trees"; "-tf"; "trees"; "-tl"; "trees";
   "-md"; "dur"; "-mm"; "plain"; "-mf"; "multi"; "-ml"; "plain"; "-dm"; "win1"; "-df"; "win1";
   "-dl"; "win1"; "alice01.lab"].

#[local] Instance ex_files : ModelFiles double := disk_files no_special ex_disk "".

Lemma glob_star_all s : glob [star] s.
Proof. rewrite <-(app_nil_r s). apply glob_star, glob_nil. Qed.

(** a tree that takes every label and has one leaf *)
Definition leaf_tree (t : Tree) : Prop :=
  head t = ["*"%string] /\ nodes t = [Some (mkNode 0 1 None None None None)] /\ root t = Some 0.

Lemma leaf_trees_usable fit (m : Model double) : Forall leaf_tree (tree m) ->
  Exists (fun t => fit t = true) (tree m) -> Forall (fun rows => 0 < zlen rows) (pdf m) -> usable fit m.
Proof.
  intros L Hf R. rewrite Forall_lookup in L. rewrite Forall_lookup in R. constructor.
  - intros s _. apply Exists_exists in Hf as (t & Ht & Hf). apply Exists_exists. exists t.
    split; [done|]. split; [done|]. apply list_elem_of_lookup in Ht as [k X].
    destruct (L _ _ X) as (Eh & _). right. rewrite Eh. left. apply glob_star_all.
  - intros n t rows d v X _ Xr E Hv. destruct (L _ _ X) as (_ & En & Er). rewrite En, Er in E.
    vm_compute in E. apply Ok_inj in E as <-. apply list_elem_of_singleton in Hv as ->.
    pose proof (R _ _ Xr) as Hr. cbn in Hr. lia.
Qed.

(** the engine that is loaded *)
Definition ex_models : ModelSet double := Eval vm_compute in
  match Engine.load_engine no_special (zlen ex_conf) ex_conf with
  | Ok e => Engine.models e | _ => cleared end.
Definition ex_settings : Global double := Eval vm_compute in
  match Engine.load_engine no_special (zlen ex_conf) ex_conf with
  | Ok e => Engine.settings e | _ => Engine.settings (Engine.HTS_Engine_initialize 3) end.
Definition ex_loaded : Engine.engine (F := double) :=
  Engine.mkEngine ex_settings (ndec 42 (-2)) 0 false (nZ 0) 1600 [nZ 1; nZ 1; nZ 1] ex_models.

Lemma ex_loads : Engine.load_engine no_special (zlen ex_conf) ex_conf = Ok ex_loaded.
Proof. exact_no_check (eq_refl (Ok ex_loaded)). Qed.

Lemma ex_mage_set : mage_set ex_models.
Proof.
  assert (W : forall (len : Z) (c : list (list double)), 1 <= len -> mage_window len (mkWindow 1 [0] [0] c 0)).
  { intros len c Hl. constructor; cbn; [lia| |done]. intros [|i] l r; [|done]. by intros [= <-] [= <-]. }
  assert (L : forall j, 2 <= j < nOfStates + 2 -> j = 2 \/ j = 3 \/ j = 4 \/ j = 5 \/ j = 6)
    by (unfold nOfStates; lia).
  constructor; [done| |done| |done|done].
  - apply Forall_singleton, leaf_trees_usable; [by repeat constructor| |by repeat constructor].
    by left.
  - repeat apply Forall_cons_2; [| | |constructor];
      (split; [done|]; split; [by apply W|]; intros j Hj; apply Forall_singleton;
       apply leaf_trees_usable; [by repeat constructor| |by repeat constructor];
       apply L in Hj; unfold ex_models; cbn; rewrite !Exists_cons; cbn;
       destruct Hj as [->|[->|[->|[->| ->]]]]; cbn; tauto).
Qed.

Lemma ex_token : token_ok "".
Proof. split; [apply not_elem_of_nil|done]. Qed.

Lemma ex_compared n o : Engine.GetNumInterp (zlen ex_conf) ex_conf = Ok n ->
  Engine.parse no_special n (zlen ex_conf) ex_conf = Ok o -> Engine.gv_compared n o.
Proof. intros En _. left. vm_compute in En. apply Ok_inj in En as <-. done. Qed.

Lemma loaded_voice_witness :
  Engine.load_engine no_special (zlen ex_conf) ex_conf = Ok ex_loaded /\
  mage_set (Engine.models ex_loaded) /\ VoiceLaws (Voice.ms (Engine.handed ex_loaded)).
Proof.
  destruct (ends_inv _ _ _ (loaded_voice no_special ex_disk "" ex_token (zlen ex_conf) ex_conf ex_compared) ex_loads)
    as [_ M].
  split; [exact ex_loads|]. split; [exact ex_mage_set|]. by destruct (M ex_mage_set).
Defined.

End HtsLoad.
