(* ===== verification/Mage.v ===== *)
(** * The synthesiser (mage/src/mage.cpp, mage.h)

    A [Mage] holds the three queues, the vocoder and the engines, and moves
    labels through models to frames ([run]) and frames through the vocoder to
    samples ([updateSamples], [popSamples]). *)

From Stdlib Require Import Ascii String.
From S2P Require Import Prelude Num Constants CString Fifo MemQueue LabelQueue Duration Vocoder Label.
From S2P Require Import Voice Model ModelQueue Engine.
#[local] Open Scope Z_scope.

Module Mage.

(** ** The map of engines

    [std::map< string, pair< double *, Engine * > >]: the entries in the order
    of their keys.  Every entry owns its weights and its engine. *)

Definition emap (F : Type) := list (string * (list F * Engine F)).

Section Map.
Context {V : Type}.
Implicit Types m : list (string * V).

Fixpoint map_find (k : string) m : option V :=
  match m with
  | [] => None
  | (k', v) :: m => if String.eqb k k' then Some v else map_find k m
  end.

Fixpoint map_insert (k : string) (v : V) m : list (string * V) :=
  match m with
  | [] => [(k, v)]
  | (k', v') :: m' =>
      match String.compare k k' with
      | Lt => (k, v) :: m
      | Eq => (k, v) :: m'
      | Gt => (k', v') :: map_insert k v m'
      end
  end.

Definition map_erase (k : string) m : list (string * V) :=
  List.filter (fun e => negb (String.eqb k e.1)) m.

(** a change of every value, in order *)
Fixpoint map_each (f : V -> Res V) m : Res (list (string * V)) :=
  match m with
  | [] => Ok []
  | (k, v) :: m => v ← f v; m ← map_each f m; Ok ((k, v) :: m)
  end.

Lemma map_find_insert k v k' m :
  map_find k' (map_insert k v m) = if String.eqb k' k then Some v else map_find k' m.
Proof.
  induction m as [|[k1 v1] m IH]; [done|]. cbn [map_insert].
  destruct (String.compare k k1) eqn:E; cbn [map_find].
  - apply String.compare_eq_iff in E as ->. by destruct (String.eqb k' k1).
  - done.
  - rewrite IH. destruct (String.eqb_spec k' k1) as [->|]; [|done].
    destruct (String.eqb_spec k1 k) as [->|]; [|done].
    pose proof (String.compare_antisym k k) as A. by rewrite E in A.
Qed.

Lemma map_find_erase k k' m : k' <> k -> map_find k' (map_erase k m) = map_find k' m.
Proof.
  intros Hne. induction m as [|[k1 v1] m IH]; [done|]. unfold map_erase in *. cbn [List.filter map_find fst].
  destruct (String.eqb_spec k k1) as [->|]; cbn [negb].
  - rewrite IH. by rewrite (proj2 (String.eqb_neq k' k1)).
  - cbn [map_find]. by rewrite IH.
Qed.

Lemma map_each_find f m m' k :
  map_each f m = Ok m' -> is_Some (map_find k m) <-> is_Some (map_find k m').
Proof.
  revert m'. induction m as [|[k1 v1] m IH]; intros m' E; cbn [map_each] in E.
  { by injection E as <-. }
  apply bind_inv_Ok in E as (v2 & _ & E). apply bind_inv_Ok in E as (m2 & E2 & E).
  injection E as <-. cbn [map_find]. destruct (String.eqb k k1); [|by apply IH].
  split; intros _; by eexists.
Qed.
End Map.

(** ** State *)

Record t (F : Type) := mk {
  labelQueue : LabelQueue.t (Label.t F);
  modelQueue : ModelQueue.t F;
  frameQueue : MemQueue.t (Vocoder.frame F);
  defaultEngine : string;
  interpolationFlag : bool;
  engine : emap F;
  model : option Z;              (* the slot of the model queue it points to *)
  hopLen : Z;                    (* int *)
  sampleCount : Z;               (* int *)
  vocoder : Vocoder.t F;
  frame : Vocoder.frame F;
  label : Label.t F;
  labelSpeed : F;
  flag : bool;
  action : Z;
  updateFunction : list F;
  interpolationWeights : option (list F);
  argc : Z;
  argv : list string;
  flagReady : bool
}.
Arguments mk {F}. Arguments labelQueue {F}. Arguments modelQueue {F}. Arguments frameQueue {F}.
Arguments defaultEngine {F}. Arguments interpolationFlag {F}. Arguments engine {F}.
Arguments model {F}. Arguments hopLen {F}. Arguments sampleCount {F}. Arguments vocoder {F}.
Arguments frame {F}. Arguments label {F}. Arguments labelSpeed {F}. Arguments flag {F}.
Arguments action {F}. Arguments updateFunction {F}. Arguments interpolationWeights {F}.
Arguments argc {F}. Arguments argv {F}. Arguments flagReady {F}.
#[global] Instance eta_mage F : Settable (t F) := fun s =>
  mk (labelQueue s) (modelQueue s) (frameQueue s) (defaultEngine s) (interpolationFlag s)
    (engine s) (model s) (hopLen s) (sampleCount s) (vocoder s) (frame s) (label s)
    (labelSpeed s) (flag s) (action s) (updateFunction s) (interpolationWeights s)
    (argc s) (argv s) (flagReady s).

(** ** The invariant *)

Section Invariant.
Context {F : Type}.
Implicit Types s : t F.

(** either there is no engine, and then the synthesiser is not ready, or the
    default engine is in the map *)
Definition engines_ok s : Prop :=
  (engine s = [] /\ flagReady s = false /\ defaultEngine s = "") \/
  is_Some (map_find (defaultEngine s) (engine s)).

Definition mqueue s : MemQueue.t (Model.t F) := ModelQueue.queue (modelQueue s).

(** the model queue holds at most [window] models *)
Record mage_at (window : Z) s : Prop := {
  ok_labels : LabelQueue.wf (labelQueue s);
  ok_labels_cap : zlen (LabelQueue.queue (labelQueue s)) = maxLabelQueueLen;
  ok_frames : MemQueue.wf (frameQueue s);
  ok_frames_cap : MemQueue.qlength (frameQueue s) = maxFrameQueueLen;
  ok_models : MemQueue.wf (mqueue s);
  ok_models_cap : MemQueue.qlength (mqueue s) = maxModelQueueLen;
  ok_window : MemQueue.nOfItems (mqueue s) <= window;
  (* the window is full once the first one is over *)
  ok_flag : flag s = true \/ MemQueue.nOfItems (mqueue s) = window;
  ok_states : Forall (fun m => zlen (Model.states m) = nOfStates) (MemQueue.rawData (mqueue s));
  ok_update : zlen (updateFunction s) = nOfStates;
  ok_hop : 1 <= hopLen s <= defaultFrameRate * 20;
  ok_count : 0 <= sampleCount s < defaultFrameRate * 20;
  ok_engines : engines_ok s
}.
End Invariant.
Arguments ok_labels {F window} s. Arguments ok_labels_cap {F window} s.
Arguments ok_frames {F window} s. Arguments ok_frames_cap {F window} s.
Arguments ok_models {F window} s. Arguments ok_models_cap {F window} s.
Arguments ok_window {F window} s. Arguments ok_flag {F window} s.
Arguments ok_states {F window} s. Arguments ok_update {F window} s.
Arguments ok_hop {F window} s. Arguments ok_count {F window} s.
Arguments ok_engines {F window} s.

(** between two labels: the backup models, and those of the lookup *)
Abbreviation mage_ok := (mage_at (nOfLookup + nOfBackup)).
(** with a computed model whose window is not synthesised *)
Abbreviation mage_full := (mage_at (nOfLookup + nOfBackup + 1)).

Section Mage.
Context {F : Type} `{NumOps F} `{ModelFiles F}.
#[local] Open Scope num_scope.
#[local] Open Scope Z_scope.
Variable strtod_special : string -> F.
(** [mlsacheck] of SPTK *)
Variable mlsacheck : list F -> list F.

(** ** Construction *)

(** [init()]; what the constructors do not write is an argument: the frames
    and models of the queues ([fr], [m]), the member [frame], the array
    [updateFunction], [argc] and [argv] *)
Definition init (fr : Vocoder.frame F) (m : Model.t F) (frame : Vocoder.frame F)
    (uf : list F) (argc : Z) (argv : list string) : Res (t F) :=
  let lq := LabelQueue.create Label.create maxLabelQueueLen in
  v ← Vocoder.create_default;
  l ← LabelQueue.get lq;
  Ok (mk lq (ModelQueue.create m maxModelQueueLen) (MemQueue.create fr maxFrameQueueLen)
        "" false [] None defaultFrameRate 0 v frame l (nZ 1) true noaction uf None argc argv false).

(** ** Getters and setters *)

Definition getPitch (s : t F) : F := Vocoder.getPitch (vocoder s).
Definition getAlpha (s : t F) : F := Vocoder.getAlpha (vocoder s).
Definition getGamma (s : t F) : F * t F :=
  let '(g, v) := Vocoder.getGamma (vocoder s) in (g, s <| vocoder := v |>).
Definition getPOrder (s : t F) : F := Vocoder.getPadeOrder (vocoder s).
Definition getVolume (s : t F) : F := Vocoder.getVolume (vocoder s).

(** an access through the pointer [model] *)
Definition get_model (s : t F) : Res (Model.t F) :=
  match model s with
  | Some i => rd (MemQueue.rawData (ModelQueue.queue (modelQueue s))) i
  | None => Undef Uninitialised
  end.
Definition on_model (f : Model.t F -> Res (Model.t F)) (s : t F) : Res (t F) :=
  match model s with
  | Some i =>
      raw ← upd (MemQueue.rawData (ModelQueue.queue (modelQueue s))) i f;
      let q := (ModelQueue.queue (modelQueue s)) <| MemQueue.rawData := raw |> in
      Ok (s <| modelQueue := (modelQueue s) <| ModelQueue.queue := q |> |>)
  | None => Undef Uninitialised
  end.

Definition getDuration (s : t F) : Res F := m ← get_model s; Ok (nZ (Model.getDuration m)).

Definition getFrame (s : t F) : Vocoder.frame F := frame s.
Definition getLabel (s : t F) : Label.t F := label s.
Definition getSampleCounter (s : t F) : Z := sampleCount s.
Definition getSpeed (s : t F) : F := nZ (hopLen s).
Definition getLabelSpeed (s : t F) : F := labelSpeed s.
Definition ready (s : t F) : bool := flagReady s.
Definition getDefaultEngine (s : t F) : string := defaultEngine s.

Definition setAlpha (s : t F) (x : F) : t F := s <| vocoder := Vocoder.setAlpha (vocoder s) x |>.
Definition setGamma (s : t F) (x : F) : Res (t F) :=
  v ← Vocoder.setGamma (vocoder s) x; Ok (s <| vocoder := v |>).
Definition setPOrder (s : t F) (x : F) : Res (t F) :=
  v ← Vocoder.setPadeOrder (vocoder s) x; Ok (s <| vocoder := v |>).
Definition setVolume (s : t F) (x : F) : t F := s <| vocoder := Vocoder.setVolume (vocoder s) x |>.
Definition setPitch (s : t F) (pitch : F) (act : Z) : t F :=
  s <| vocoder := Vocoder.setPitch (vocoder s) pitch act false |>.

Definition setFrame (s : t F) (f : Vocoder.frame F) : t F := s <| frame := f |>.
Definition setLabel (s : t F) (l : Label.t F) : t F := s <| label := l |>.
Definition setLabelSpeed (s : t F) (x : F) : t F := s <| labelSpeed := x |>.

(** the result of each action is converted to int *)
Definition setSpeed (s : t F) (speed : F) (act : Z) : Res (t F) :=
  h ← (if act =? overwrite then to_int speed
       else if act =? shift then to_int (nZ (hopLen s) + speed)%num
       else if act =? scale then to_int (nZ (hopLen s) * speed)%num
       else Ok defaultFrameRate);
  let h := if h <? 1 then 1 else h in
  Ok (s <| hopLen := if defaultFrameRate * 20 <? h then defaultFrameRate * 20 else h |>).

Definition setDuration (s : t F) (uf : list F) (act : Z) : Res (t F) :=
  let s := s <| action := act |> in
  l ← for_up 0 nOfStates (fun i l => x ← rd uf i; wr l i x) (updateFunction s);
  Ok (s <| updateFunction := l |>).

Definition setDefaultEngine (s : t F) (name : string) : t F :=
  match map_find name (engine s) with
  | Some _ => s <| defaultEngine := name |>
  | None => s
  end.

(** the weights of the engines that are in the set *)
Fixpoint setInterpolationFunctions (s : t F) (set : list (string * list F)) : Res (t F) :=
  match set with
  | [] => Ok s
  | (name, w) :: set =>
      s ← match map_find name (engine s) with
          | Some (iw, e) =>
              iw ← for_up 0 (nOfStreams + 1) (fun i iw => x ← rd w i; wr iw i x) iw;
              Ok (s <| engine := map_insert name (iw, e) (engine s) |>)
          | None => Ok s
          end;
      setInterpolationFunctions s set
  end.

(** ** Samples *)

(** [noise]: the random number the vocoder may use *)
Definition popSamples (noise : F) (s : t F) : Res (F * t F) :=
  if Vocoder.ready (vocoder s) then
    '(x, v) ← Vocoder.pop noise (vocoder s);
    let s := s <| vocoder := v |> in
    let sample := (ndec 5 (-1) * x / nZ 32768)%num in
    Ok (if (nZ 1 <? sample)%num then nZ 1
        else if (sample <? nZ (-1))%num then nZ (-1) else sample, s)
  else Ok (nZ 0, s).

Definition updateSamples (s : t F) : Res (t F) :=
  limit ← i32 (hopLen s - 1);
  if limit <=? sampleCount s then
    s ← (if negb (MemQueue.isEmpty (frameQueue s)) then
           fr ← MemQueue.get (frameQueue s);
           v ← Vocoder.push (vocoder s) fr false;
           q ← MemQueue.pop (frameQueue s) 1;
           Ok (s <| vocoder := v |> <| frameQueue := q |>)
         else Ok s);
    Ok (s <| sampleCount := 0 |>)
  else n ← i32 (sampleCount s + 1); Ok (s <| sampleCount := n |>).

Definition resetVocoder (s : t F) : t F := s <| vocoder := Vocoder.reset (vocoder s) |>.

(** ** Labels *)

Definition popLabel (s : t F) : Res (bool * t F) :=
  if negb (LabelQueue.isEmpty (labelQueue s)) then
    '(l, q) ← LabelQueue.pop_label (labelQueue s);
    Ok (true, s <| labelQueue := q |> <| label := Label.setSpeed l (labelSpeed s) |>)
  else Ok (false, s).

Definition clearLabels (s : t F) : Res (string * t F) :=
  '(q, lq) ← LabelQueue.clear Label.getQuery (labelQueue s);
  Ok (q, s <| labelQueue := lq |>).

(** a label is dropped, with a message, when the queue is full *)
Definition pushLabel (s : t F) (l : Label.t F) : Res (t F) :=
  if negb (LabelQueue.isFull (labelQueue s)) then
    q ← LabelQueue.push_label (labelQueue s) l; Ok (s <| labelQueue := q |>)
  else Ok s.

(** ** Models *)

(** [this->engine[this->defaultEngine].second]: the entry a missing key gets
    has a null pointer, which the callees dereference *)
Definition default_engine (s : t F) : Res (Engine F) :=
  match map_find (defaultEngine s) (engine s) with
  | Some (_, e) => Ok e
  | None => Undef NullPointer
  end.

(** the weights are checked in the engine itself *)
Definition prepareModel (s : t F) : Res (t F) :=
  let s := s <| model := Some (MemQueue.next (ModelQueue.queue (modelQueue s))) |> in
  match map_find (defaultEngine s) (engine s) with
  | Some (iw, e) =>
      m ← get_model s;
      '(m, e) ← Model.checkInterpolationWeights m e false;
      let s := s <| engine := map_insert (defaultEngine s) (iw, e) (engine s) |> in
      on_model (fun _ => Ok m) s
  | None => Undef NullPointer
  end.

(** the engines that take part, with their weights *)
Definition voices (s : t F) : Res (list (Engine F * option (list F))) :=
  if negb (interpolationFlag s) then e ← default_engine s; Ok [(e, None)]
  else Ok ((fun '(_, (iw, e)) => (e, Some iw)) <$> engine s).

Fixpoint each_voice (f : Engine F -> option (list F) -> Model.t F -> Res (Model.t F))
    (l : list (Engine F * option (list F))) (m : Model.t F) : Res (Model.t F) :=
  match l with
  | [] => Ok m
  | (e, iw) :: l => m ← f e iw m; each_voice f l m
  end.

Definition computeDuration (s : t F) : Res (t F) :=
  vs ← voices s;
  s ← on_model (fun m =>
    m ← Model.initDuration m;
    m ← each_voice (fun e iw m => Model.computeDuration m e (label s) iw) vs m;
    Model.updateDuration m (Some (updateFunction s)) (action s)) s;
  Ok (s <| action := noaction |>).

Definition computeParameters (s : t F) : Res (t F) :=
  vs ← voices s;
  s ← on_model (fun m =>
    m ← Model.initParameters m;
    each_voice (fun e iw m =>
      m ← Model.computeParameters m e (label s) iw;
      Model.computeGlobalVariances m e (label s)) vs m) s;
  q ← MemQueue.push (ModelQueue.queue (modelQueue s)) 1;
  Ok (s <| modelQueue := (modelQueue s) <| ModelQueue.queue := q |> |>).

(** the optimisation of the window and the generation of its model *)
Definition synthesise (e : Engine F) (backup : Z) (s : t F) : Res (t F) :=
  mq ← ModelQueue.optimizeParameters e (modelQueue s) backup nOfLookup;
  fq ← ModelQueue.generate mlsacheck e mq (frameQueue s) backup;
  Ok (s <| modelQueue := mq |> <| frameQueue := fq |>).

Definition optimizeParameters (s : t F) : Res (t F) :=
  let n := MemQueue.getNumOfItems (ModelQueue.queue (modelQueue s)) in
  if nOfLookup + nOfBackup <? n then
    e ← default_engine s;
    s ← synthesise e nOfBackup (s <| flag := false |>);
    q ← MemQueue.pop (ModelQueue.queue (modelQueue s)) 1;
    Ok (s <| modelQueue := (modelQueue s) <| ModelQueue.queue := q |> |>)
  else if (nOfLookup <? n) && flag s then
    e ← default_engine s; synthesise e (n - nOfLookup - 1) s
  else Ok s.

Definition run (s : t F) : Res (t F) :=
  '(popped, s) ← popLabel s;
  if popped : bool then
    s ← prepareModel s;
    s ← computeDuration s;
    s ← computeParameters s;
    optimizeParameters s
  else Ok s.
(** ** Engines *)

Definition enableInterpolation (s : t F) (b : bool) : t F := s <| interpolationFlag := b |>.

Definition resetInterpolationWeights (s : t F) : Res (t F) :=
  m ← map_each (fun '(iw, e) =>
    iw ← for_up 0 (nOfStreams + 1) (fun i iw => wr iw i (nZ 0)) iw; Ok (iw, e)) (engine s);
  Ok (s <| engine := m |>).

(** the sums of the weights, then their division *)
Definition checkInterpolationFunctions (s : t F) : Res (t F) :=
  sums ← foldl (fun r '(_, (iw, _)) =>
    r ← r; for_up 0 (nOfStreams + 1) (fun i sums =>
      w ← rd iw i; upd sums i (fun x => Ok (x + nabs w)%num)) r)
    (Ok (replicate (Z.to_nat (nOfStreams + 1)) (nZ 0))) (engine s);
  m ← map_each (fun '(iw, e) =>
    iw ← for_up 0 (nOfStreams + 1) (fun i iw =>
      x ← rd sums i;
      if negb (x =? nZ 0)%num then upd iw i (fun w => Ok (w / x)%num) else Ok iw) iw;
    Ok (iw, e)) (engine s);
  Ok (s <| interpolationWeights := Some sums |> <| engine := m |>).

(** what [reset] puts back *)
Definition reset_controls (s : t F) : t F :=
  mk (labelQueue s) (modelQueue s) (frameQueue s) (defaultEngine s) false (engine s) (model s)
    defaultFrameRate 0 (Vocoder.reset (vocoder s)) (frame s) (label s) (nZ 1) true noaction
    (updateFunction s) (interpolationWeights s) (argc s) (argv s) (flagReady s).

(** the weights of an engine go back to the default where the sum of the last
    check is not zero; no sums were computed before the first reset *)
Definition default_weights (sums : option (list F)) (iw : list F) : Res (list F) :=
  for_up 0 (nOfStreams + 1) (fun i iw =>
    match sums with
    | Some sums =>
        x ← rd sums i;
        if negb (x =? nZ 0)%num then wr iw i defaultInterpolationWeight else Ok iw
    | None => Undef Uninitialised
    end) iw.

Definition reset (s : t F) : Res (t F) :=
  m ← map_each (fun '(iw, e) =>
    iw ← default_weights (interpolationWeights s) iw; Ok (iw, e)) (engine s);
  checkInterpolationFunctions ((reset_controls s) <| engine := m |>).

Definition checkReady (s : t F) : t F :=
  s <| flagReady := match engine s with
                    | [] => false
                    | _ => negb (String.eqb (defaultEngine s) "")
                    end |>.

(** [addEngine( name )]: load the arguments of [argc] and [argv] *)
Definition addEngine (s : t F) (name : string) : Res (t F) :=
  match map_find name (engine s) with
  | Some _ => Ok s (* a warning is printed *)
  | None =>
      e ← Engine.load strtod_special (argc s) (argv s);
      let iw := replicate (Z.to_nat (nOfStreams + 1)) defaultInterpolationWeight in
      let s := s <| engine := map_insert name (iw, e) (engine s) |> in
      Ok (if String.eqb (defaultEngine s) ""
          then s <| defaultEngine := name |> <| flagReady := true |> else s)
  end.

Definition addEngine_args (s : t F) (name : string) (argc' : Z) (argv' : list string) : Res (t F) :=
  addEngine (s <| argc := argc' |> <| argv := argv' |>) name.

(** the pieces of a text between delimiters *)
Fixpoint split_all (delim : ascii) (s : string) : list string :=
  match s with
  | EmptyString => [EmptyString]
  | String a s =>
      if Ascii.eqb a delim then EmptyString :: split_all delim s
      else match split_all delim s with
           | piece :: l => String a piece :: l
           | [] => [String a EmptyString]
           end
  end.

(** a word is kept unless [s.c_str()[0] == '\0'] *)
Definition kept (w : string) : bool :=
  match w with EmptyString => false | String a _ => negb (Ascii.eqb a NUL) end.

Definition words (text : string) : list string :=
  List.filter kept (concat (split_all space <$> split_all newline text)).

(** [None] for a file that cannot be opened; an argument is a copy in an array
    of [maxStrLen] bytes, and there are [maxNumOfArguments] of them *)
Definition parseConfigFile (s : t F) (confFile : option string) : Res (t F) :=
  let s := s <| argc := 0 |> <| argv := [] |> in
  match confFile with
  | None => Ok s
  | Some text =>
      l ← foldl (fun r w =>
        l ← r;
        check (zlen l <? maxNumOfArguments) OutOfBounds ;;
        w ← strcpy maxStrLen w; Ok (l ++ [w])) (Ok []) (words text);
      Ok (s <| argv := l |> <| argc := zlen l |>)
  end.

(** the arguments are freed: no entry can be read any more *)
Definition freeArgv (s : t F) : t F := s <| argv := [] |>.

Definition addEngine_conf (s : t F) (name : string) (confFile : option string) : Res (t F) :=
  s ← parseConfigFile s confFile;
  s ← (if 0 <? argc s then addEngine s name else Ok s);
  Ok (freeArgv s).

Definition removeEngine (s : t F) (name : string) : t F :=
  match map_find name (engine s) with
  | None => s
  | Some _ =>
      let s := s <| engine := map_erase name (engine s) |> in
      match engine s with
      | [] => s <| defaultEngine := "" |> <| flagReady := false |>
      | (first, _) :: _ =>
          if String.eqb (defaultEngine s) name
          then s <| defaultEngine := first |> <| flagReady := true |>
          else s
      end
  end.
(** ** Operations keep the invariant *)

Implicit Types s : t F.

Lemma setSpeed_inv s x a s' :
  setSpeed s x a = Ok s' -> exists h, 1 <= h <= defaultFrameRate * 20 /\ s' = s <| hopLen := h |>.
Proof.
  unfold setSpeed. intros E. apply bind_inv_Ok in E as (h & _ & E). injection E as <-.
  eexists. split; [|done]. change (defaultFrameRate * 20) with 4800.
  repeat case Z.ltb_spec; lia.
Qed.

Lemma setDuration_inv s uf a s' :
  setDuration s uf a = Ok s' -> exists l, zlen l = zlen (updateFunction s) /\
    s' = s <| action := a |> <| updateFunction := l |>.
Proof.
  unfold setDuration. intros E. apply bind_inv_Ok in E as (l & E & E'). injection E' as <-.
  exists l. split; [|done].
  apply (for_up_inv (fun _ l => zlen l = zlen (updateFunction s))) in E; [done|done|done|].
  intros i a1 b1 _ L B. apply bind_inv_Ok in B as (x & _ & B). apply wr_inv in B as [_ ->].
  by rewrite zlen_insert.
Qed.

Lemma updateSamples_ok {w} s s' : updateSamples s = Ok s' -> mage_at w s -> mage_at w s'.
Proof.
  unfold updateSamples. intros E W. apply bind_inv_Ok in E as (limit & El & E).
  apply i32_inv in El as [-> _]. destruct (Z.leb_spec (hopLen s - 1) (sampleCount s)).
  - apply bind_inv_Ok in E as (s1 & E1 & E). injection E as <-.
    destruct (MemQueue.isEmpty (frameQueue s)); cbn [negb] in E1.
    + injection E1 as <-. keep_inv W.
    + apply bind_inv_Ok in E1 as (fr & _ & E1). apply bind_inv_Ok in E1 as (v & _ & E1).
      apply bind_inv_Ok in E1 as (q & Eq & E1). injection E1 as <-.
      destruct (MemQueue.pop_spec (frameQueue s) 1) as (q' & Eq' & W' & L & _);
        [apply W|done|]. rewrite Eq in Eq'. injection Eq' as <-.
      keep_inv W; cbn; congruence.
  - apply bind_inv_Ok in E as (n & En & E). apply i32_inv in En as [-> _]. injection E as <-.
    keep_inv W.
Qed.

Lemma popSamples_ok {w} noise s x s' : popSamples noise s = Ok (x, s') -> mage_at w s -> mage_at w s'.
Proof.
  unfold popSamples. intros E W. destruct (Vocoder.ready _); [|by injection E as _ <-].
  apply bind_inv_Ok in E as ([y v] & _ & E). injection E as _ <-. keep_inv W.
Qed.

Lemma pushLabel_ok {w} s l s' : pushLabel s l = Ok s' -> mage_at w s -> mage_at w s'.
Proof.
  unfold pushLabel. intros E W. destruct (LabelQueue.isFull (labelQueue s)) eqn:Ef; cbn [negb] in E.
  { by injection E as <-. }
  apply bind_inv_Ok in E as (q & Eq & E). injection E as <-.
  pose proof (push_inv (Q:=LabelQueue.t (Label.t F)) (labelQueue s) l q) as P.
  destruct (P (ok_labels _ W) Ef Eq) as (W' & L & _).
  cbn in W', L.
  keep_inv W; cbn; congruence.
Qed.

Lemma clearLabels_ok {w} s q s' : clearLabels s = Ok (q, s') -> mage_at w s -> mage_at w s'.
Proof.
  unfold clearLabels, LabelQueue.clear. intros E W. rewrite bind_assoc in E.
  apply bind_inv_Ok in E as (l & _ & E). injection E as _ <-.
  destruct W. split; try assumption. destruct ok_labels0 as [Hl Hr Hrd Hc _].
  split; cbn in *; try done; try lia.
Qed.

(** *** Engines *)

Lemma find_nonempty {V} k (m : list (string * V)) : is_Some (map_find k m) -> m <> [].
Proof. intros [v E] ->. done. Qed.

Lemma engines_insert s k v :
  engines_ok s -> is_Some (map_find k (engine s)) ->
  engines_ok (s <| engine := map_insert k v (engine s) |>).
Proof.
  intros [(E & _)|Hd] Hk; [by rewrite E in Hk; destruct Hk|]. right. cbn.
  rewrite map_find_insert. destruct (String.eqb _ _); [by eexists|done].
Qed.

Lemma engines_each s f m :
  map_each f (engine s) = Ok m -> engines_ok s -> engines_ok (s <| engine := m |>).
Proof.
  intros E [(E0 & R & D)|Hd].
  - left. rewrite E0 in E. by injection E as <-.
  - right. exact (proj1 (map_each_find f (engine s) m (defaultEngine s) E) Hd).
Qed.

Lemma addEngine_ok {w} s name s' : addEngine s name = Ok s' -> mage_at w s -> mage_at w s'.
Proof.
  unfold addEngine. intros E W. destruct (map_find name (engine s)) eqn:Ef; [by injection E as <-|].
  apply bind_inv_Ok in E as (e & _ & E). injection E as <-.
  pose proof (ok_engines _ W) as En. cbn [defaultEngine set_field eta_mage].
  destruct (String.eqb_spec (defaultEngine s) "") as [Hd|Hd]; keep_inv W; right; cbn.
  - by rewrite map_find_insert, String.eqb_refl; eexists.
  - rewrite map_find_insert. destruct En as [(_ & _ & ?)|En]; [done|].
    destruct (String.eqb _ _); [by eexists|done].
Qed.

Lemma parseConfigFile_ok {w} s c s' : parseConfigFile s c = Ok s' -> mage_at w s -> mage_at w s'.
Proof.
  unfold parseConfigFile. intros E W. destruct c as [text|]; [|injection E as <-; keep_inv W].
  apply bind_inv_Ok in E as (l & _ & E). injection E as <-. keep_inv W.
Qed.

Lemma addEngine_conf_ok {w} s name c s' : addEngine_conf s name c = Ok s' -> mage_at w s -> mage_at w s'.
Proof.
  unfold addEngine_conf. intros E W. apply bind_inv_Ok in E as (s1 & E1 & E).
  eapply parseConfigFile_ok in E1; [|done]. apply bind_inv_Ok in E as (s2 & E2 & E).
  assert (W2 : mage_at w s2).
  { destruct (0 <? argc s1); [by eapply addEngine_ok|by injection E2 as <-]. }
  injection E as <-. keep_inv W2.
Qed.

Lemma removeEngine_ok {w} s name : mage_at w s -> mage_at w (removeEngine s name).
Proof.
  intros W. unfold removeEngine. destruct (map_find name (engine s)) eqn:Ef; [|done].
  pose proof (ok_engines _ W) as En. cbn [engine set_field eta_mage defaultEngine].
  destruct (map_erase name (engine s)) as [|[k v] m] eqn:Em.
  { keep_inv W. by left. }
  destruct (String.eqb_spec (defaultEngine s) name) as [Hd|Hd]; keep_inv W; right; cbn.
  - rewrite String.eqb_refl. by eexists.
  - destruct En as [(E & _)|En]; [by rewrite E in Ef|].
    rewrite <-(map_find_erase name) in En by done. rewrite Em in En. exact En.
Qed.

Lemma checkInterpolationFunctions_ok {w} s s' :
  checkInterpolationFunctions s = Ok s' -> mage_at w s -> mage_at w s'.
Proof.
  unfold checkInterpolationFunctions. intros E W. apply bind_inv_Ok in E as (sums & _ & E).
  apply bind_inv_Ok in E as (m & Em & E). injection E as <-.
  pose proof (engines_each _ _ _ Em (ok_engines _ W)). keep_inv W.
Qed.

Lemma reset_ok {w} s s' : reset s = Ok s' -> mage_at w s -> mage_at w s'.
Proof.
  unfold reset. intros E W. apply bind_inv_Ok in E as (m & Em & E).
  eapply checkInterpolationFunctions_ok; [exact E|].
  pose proof (engines_each _ _ _ Em (ok_engines _ W)). unfold reset_controls. keep_inv W; by left.
Qed.

Lemma setInterpolationFunctions_ok {w} set s s' :
  setInterpolationFunctions s set = Ok s' -> mage_at w s -> mage_at w s'.
Proof.
  revert s. induction set as [|[name iwn] set IH]; intros s E W; cbn [setInterpolationFunctions] in E.
  { by injection E as <-. }
  apply bind_inv_Ok in E as (s1 & E1 & E). apply (IH _ E).
  destruct (map_find name (engine s)) as [[iw e]|] eqn:Ef; [|by injection E1 as <-].
  apply bind_inv_Ok in E1 as (iw' & _ & E1). injection E1 as <-.
  pose proof (engines_insert s name (iw', e) (ok_engines _ W) ltac:(by rewrite Ef; eexists)).
  keep_inv W.
Qed.

Lemma setDefaultEngine_ok {w} s name : mage_at w s -> mage_at w (setDefaultEngine s name).
Proof.
  intros W. unfold setDefaultEngine. destruct (map_find name (engine s)) eqn:E; [|done].
  keep_inv W. right. cbn. by rewrite E; eexists.
Qed.

Lemma checkReady_ok {w} s : mage_at w s -> mage_at w (checkReady s).
Proof.
  intros W. pose proof (ok_engines _ W) as En. unfold checkReady. keep_inv W.
  destruct En as [(E & R & D)|En]; [left; cbn; by rewrite E|by right].
Qed.
(** *** Labels to frames *)

Lemma popLabel_inv {w} s b s' :
  popLabel s = Ok (b, s') -> mage_at w s ->
  if b : bool then exists l, LabelQueue.contents (labelQueue s) = l :: LabelQueue.contents (labelQueue s') /\
    exists lq, s' = s <| labelQueue := lq |> <| label := Label.setSpeed l (labelSpeed s) |> /\
      LabelQueue.wf lq /\ zlen (LabelQueue.queue lq) = maxLabelQueueLen
  else LabelQueue.contents (labelQueue s) = [] /\ s' = s.
Proof.
  unfold popLabel. intros E W.
  destruct (LabelQueue.isEmpty (labelQueue s)) eqn:Ee; cbn [negb] in E.
  { injection E as <- <-. split; [|done].
    pose proof (f_empty_law (Q:=LabelQueue.t (Label.t F)) (labelQueue s)) as P.
    by apply (P (ok_labels _ W)). }
  apply bind_inv_Ok in E as ([l q] & Eq & E). injection E as <- <-. cbn.
  pose proof (pop_inv (Q:=LabelQueue.t (Label.t F)) (labelQueue s) l q) as P.
  destruct (P (ok_labels _ W) Ee Eq) as (W' & L & C). cbn in W', L, C.
  exists l. split; [done|]. exists q. split; [done|]. split; [done|].
  rewrite L. apply W.
Qed.

(** the state while a model is built: it is the next slot of the model queue *)
Definition building (s : t F) (m : Model.t F) : Prop :=
  mage_ok s /\ model s = Some (MemQueue.next (mqueue s)) /\ get_model s = Ok m.

(** what building does not touch *)
Definition same_queues (s s' : t F) : Prop :=
  labelQueue s' = labelQueue s /\ frameQueue s' = frameQueue s /\ label s' = label s /\
  flag s' = flag s /\ MemQueue.nOfItems (mqueue s') = MemQueue.nOfItems (mqueue s) /\
  MemQueue.contents (mqueue s') = MemQueue.contents (mqueue s).

Lemma same_queues_trans s1 s2 s3 : same_queues s1 s2 -> same_queues s2 s3 -> same_queues s1 s3.
Proof.
  intros (A1 & A2 & A3 & A4 & A5 & A6) (B1 & B2 & B3 & B4 & B5 & B6).
  unfold same_queues. by rewrite B1, B2, B3, B4, B5, B6.
Qed.

Lemma on_model_inv f s s' :
  on_model f s = Ok s' -> mage_ok s -> model s = Some (MemQueue.next (mqueue s)) ->
  exists m m', get_model s = Ok m /\ f m = Ok m' /\ zlen (Model.states m) = nOfStates /\
    same_queues s s' /\ get_model s' = Ok m' /\ model s' = Some (MemQueue.next (mqueue s')) /\
    action s' = action s /\ engine s' = engine s /\
    (zlen (Model.states m') = nOfStates -> building s' m').
Proof.
  unfold on_model, get_model. intros E W Em. rewrite Em in E |- *.
  apply bind_inv_Ok in E as (raw & Er & E). injection E as <-.
  unfold mqueue in *. set (q := ModelQueue.queue (modelQueue s)) in *.
  apply upd_inv in Er as (m & m' & Hi & Ex & Ef & ->).
  assert (Hroom : MemQueue.nOfItems q < MemQueue.qlength q).
  { pose proof (ok_models_cap _ W) as Hc. pose proof (ok_window _ W) as Hw.
    change (MemQueue.nOfItems q <= 2) in Hw. change (MemQueue.qlength q = 4) in Hc. lia. }
  destruct (MemQueue.set_next_spec q m' (ok_models _ W) Hroom) as (q' & E' & Eq & W' & C & Hs).
  exists m, m'. split; [by apply rd_ok; [apply Hi|]|]. split; [done|].
  assert (Lm : zlen (Model.states m) = nOfStates).
  { pose proof (ok_states _ W) as A. rewrite Forall_lookup in A. by eapply A. }
  split; [done|]. split.
  { split; [done|]. split; [done|]. split; [done|]. split; [done|].
    split; [done|]. unfold mqueue. cbn. fold q. rewrite <-C, Eq. done. }
  assert (G : rd (MemQueue.rawData (q <| MemQueue.rawData :=
    <[Z.to_nat (MemQueue.next q) := m']> (MemQueue.rawData q) |>)) (MemQueue.next q) = Ok m').
  { apply rd_ok; [apply Hi|]. cbn. apply list_lookup_insert_eq. unfold zlen in Hi. lia. }
  cbn. rewrite Em. split; [exact G|]. split; [done|]. split; [done|]. split; [done|].
  intros L'. split; [|split; [done|unfold get_model; cbn; rewrite Em; exact G]].
  subst q'. destruct W. split; try assumption; cbn; try done.
  apply Forall_insert; [exact ok_states0|done].
Qed.

Lemma prepareModel_inv s s' :
  prepareModel s = Ok s' -> mage_ok s -> exists m, building s' m /\ same_queues s s'.
Proof.
  unfold prepareModel. intros E W.
  set (s1 := s <| model := Some (MemQueue.next (ModelQueue.queue (modelQueue s))) |>) in *.
  assert (W1 : mage_ok s1) by keep_inv W.
  destruct (map_find (defaultEngine s1) (engine s1)) as [[iw e]|] eqn:Ef; [|done].
  apply bind_inv_Ok in E as (m & Em & E). apply bind_inv_Ok in E as ([m1 e1] & Ec & E).
  set (s2 := s1 <| engine := map_insert (defaultEngine s1) (iw, e1) (engine s1) |>) in *.
  assert (W2 : mage_ok s2).
  { pose proof (engines_insert s1 (defaultEngine s1) (iw, e1) (ok_engines _ W1)
      ltac:(by rewrite Ef; eexists)). keep_inv W1. }
  apply on_model_inv in E as (m2 & m3 & E2 & E3 & L & Sq & G & _ & _ & _ & B); [|done|done].
  injection E3 as <-. exists m1. split; [|exact Sq]. apply B.
  assert (m2 = m) as ->. { change (get_model s2) with (get_model s1) in E2. congruence. }
  assert (Hst : Model.states m1 = Model.states m).
  { unfold Model.checkInterpolationWeights in Ec. destruct (_ || _); [|by injection Ec as <- _].
    apply bind_inv_Ok in Ec as (d & _ & Ec). apply bind_inv_Ok in Ec as (g & _ & Ec).
    by injection Ec as <- _. }
  by rewrite Hst.
Qed.

Lemma each_voice_inv (R : Model.t F -> Model.t F -> Prop) f l m m' :
  (forall m, R m m) -> (forall a b c, R a b -> R b c -> R a c) ->
  (forall e iw a b, f e iw a = Ok b -> R a b) -> each_voice f l m = Ok m' -> R m m'.
Proof.
  intros Hr Ht Hf. revert m. induction l as [|[e iw] l IH]; intros m E; cbn [each_voice] in E.
  { by injection E as <-. }
  apply bind_inv_Ok in E as (m1 & E1 & E). eapply Ht; [by eapply Hf|by apply IH].
Qed.

Lemma computeDuration_inv s s' m :
  computeDuration s = Ok s' -> building s m ->
  exists m', building s' m' /\ Model.fits m' /\ same_queues s s'.
Proof.
  unfold computeDuration. intros E (W & Em & Eg). apply bind_inv_Ok in E as (vs & _ & E).
  apply bind_inv_Ok in E as (s1 & E1 & E). injection E as <-.
  apply on_model_inv in E1 as (m0 & m' & E0 & Ef & L & Sq & G & _ & _ & _ & B); [|done|done].
  apply bind_inv_Ok in Ef as (m1 & Ei & Ef). apply bind_inv_Ok in Ef as (m2 & Ev & Ef).
  assert (L2 : zlen (Model.states m2) = nOfStates).
  { apply Model.each_state_len in Ei.
    apply (each_voice_inv (fun a b => zlen (Model.states b) = zlen (Model.states a))) in Ev;
      [congruence|done|congruence|]. intros e iw a b. apply Model.computeDuration_len. }
  pose proof (Model.updateDuration_spec m2 (updateFunction s) (action s) L2 (ok_update _ W)) as P.
  rewrite Ef in P. destruct P as [Hfit _]. exists m'.
  split; [|by split]. destruct (B (proj1 Hfit)) as (W1 & Em1 & Eg1).
  split; [keep_inv W1|done].
Qed.

Lemma computeParameters_inv s s' m :
  computeParameters s = Ok s' -> building s m -> Model.fits m ->
  exists m', Model.fits m' /\ get_model s' = Ok m' /\
    labelQueue s' = labelQueue s /\ frameQueue s' = frameQueue s /\ label s' = label s /\
    flag s' = flag s /\ MemQueue.wf (mqueue s') /\
    MemQueue.contents (mqueue s') = MemQueue.contents (mqueue s) ++ [m'] /\
    forall q, MemQueue.wf q -> MemQueue.qlength q = MemQueue.qlength (mqueue s') ->
      MemQueue.rawData q = MemQueue.rawData (mqueue s') ->
      MemQueue.nOfItems q <= 2 -> forall mq fq fl, ModelQueue.queue mq = q ->
      MemQueue.wf fq -> MemQueue.qlength fq = maxFrameQueueLen ->
      fl = true \/ MemQueue.nOfItems q = 2 ->
      mage_ok (s' <| modelQueue := mq |> <| frameQueue := fq |> <| flag := fl |>).
Proof.
  unfold computeParameters. intros E (W & Em & Eg) Hfit. apply bind_inv_Ok in E as (vs & _ & E).
  apply bind_inv_Ok in E as (s1 & E1 & E). apply bind_inv_Ok in E as (q & Eq & E). injection E as <-.
  apply on_model_inv in E1 as (m0 & m' & E0 & Ef & L & Sq & G & Em1 & _ & _ & B); [|done|done].
  rewrite Eg in E0. injection E0 as <-.
  apply bind_inv_Ok in Ef as (m1 & Ei & Ev).
  assert (K : Model.keeps_durations m m').
  { apply Model.initParameters_keeps in Ei as [I1 I2].
    apply (each_voice_inv Model.keeps_durations) in Ev as [V1 V2]; [split; congruence|done| |].
    - intros a b c [A1 A2] [B1 B2]. split; congruence.
    - intros e iw a b F1. apply bind_inv_Ok in F1 as (c & F1 & F2).
      apply Model.computeParameters_keeps in F1 as [? ?].
      apply Model.computeGlobalVariances_keeps in F2 as [? ?]. split; congruence. }
  assert (Hfit' : Model.fits m') by by eapply Model.keeps_fits.
  destruct (B (proj1 Hfit')) as (W1 & _ & _).
  destruct Sq as (Q1 & Q2 & Q3 & Q4 & Q5 & Q6).
  assert (Hroom : MemQueue.nOfItems (mqueue s1) < MemQueue.qlength (mqueue s1)).
  { rewrite (ok_models_cap _ W1). pose proof (ok_window _ W1) as Hw.
    change (MemQueue.nOfItems (mqueue s1) <= 2) in Hw. change maxModelQueueLen with 4. lia. }
  unfold get_model in G. rewrite Em1 in G. apply rd_inv in G as [_ G].
  destruct (MemQueue.push_filled (mqueue s1) m' (ok_models _ W1) Hroom G)
    as (q' & Eq' & Wq & Lq & Nq & _ & Rq & Cq).
  unfold mqueue in Eq'. rewrite Eq in Eq'. injection Eq' as <-.
  exists m'. split; [done|]. split.
  { unfold get_model. cbn. rewrite Em1. apply rd_ok.
    - unfold MemQueue.next. apply MemQueue.wf_write_lt, W1.
    - by rewrite Rq. }
  split; [done|]. split; [done|]. split; [done|]. split; [done|]. split; [done|].
  split; [unfold mqueue at 1; cbn; by rewrite Cq, Q6|].
  intros q2 Wq2 Lq2 Rq2 Nq2 mq fq fl <- Wf Lf Hfl. unfold mqueue in Lq2, Rq2. cbn in Lq2, Rq2.
  destruct W1. unfold mqueue in *. split; try assumption; unfold mqueue; cbn; try done; try congruence.
Qed.
Lemma synthesise_inv e backup s s' m :
  synthesise e backup s = Ok s' -> MemQueue.wf (mqueue s) -> MemQueue.wf (frameQueue s) ->
  0 <= backup -> MemQueue.contents (mqueue s) !! Z.to_nat backup = Some m -> Model.fits m ->
  exists mq fq, s' = s <| modelQueue := mq |> <| frameQueue := fq |> /\
    ModelQueue.queue mq = mqueue s /\ ModelQueue.grew (frameQueue s) (Model.duration m) fq.
Proof.
  unfold synthesise. intros E Wm Wf Hb Em Hfit. apply bind_inv_Ok in E as (mq & Eq & E).
  apply bind_inv_Ok in E as (fq & Eg & E). injection E as <-.
  assert (Hq : ModelQueue.queue mq = mqueue s).
  { unfold ModelQueue.optimizeParameters in Eq. apply bind_inv_Ok in Eq as (vu & _ & Eq).
    apply bind_inv_Ok in Eq as (tot & _ & Eq). apply bind_inv_Ok in Eq as (mem & _ & Eq).
    by injection Eq as <-. }
  exists mq, fq. split; [done|]. split; [done|].
  eapply ModelQueue.generate_inv; [exact Eg| |done|done].
  apply ModelQueue.model_at_contents; rewrite ?Hq; done.
Qed.

(** one run: a label becomes a model, and the model's frames are queued *)
Lemma run_inv s s' :
  run s = Ok s' -> mage_ok s -> mage_ok s' /\
  match LabelQueue.contents (labelQueue s) with
  | [] => s' = s
  | l :: rest =>
      LabelQueue.contents (labelQueue s') = rest /\
      label s' = Label.setSpeed l (labelSpeed s) /\
      exists m, get_model s' = Ok m /\ Model.fits m /\
        ModelQueue.grew (frameQueue s) (Model.duration m) (frameQueue s')
  end.
Proof.
  unfold run. intros E W. apply bind_inv_Ok in E as ([b s1] & E1 & E).
  eapply popLabel_inv in E1; [|done]. destruct b; [|by destruct E1 as [-> ->]; injection E as <-].
  destruct E1 as (l & Cl & lq & -> & Wl & Ll). rewrite Cl. cbn [labelQueue set_field eta_mage] in Cl |- *.
  set (s1 := s <| labelQueue := lq |> <| label := Label.setSpeed l (labelSpeed s) |>) in *.
  assert (W1 : mage_ok s1) by keep_inv W.
  apply bind_inv_Ok in E as (s2 & E2 & E). apply prepareModel_inv in E2 as (m2 & B2 & Q2); [|done].
  apply bind_inv_Ok in E as (s3 & E3 & E). eapply computeDuration_inv in E3 as (m3 & B3 & F3 & Q3); [|done].
  pose proof (same_queues_trans _ _ _ Q2 Q3) as Q. clear B2 Q2 Q3.
  pose proof (proj1 B3) as W3.
  apply bind_inv_Ok in E as (s4 & E4 & E).
  eapply computeParameters_inv in E4 as (m & Fm & Gm & A1 & A2 & A3 & A4 & Wq & Cq & Mk); [|done|done].
  destruct Q as (P1 & P2 & P3 & P4 & P5 & P6). rewrite P6 in Cq.
  pose proof (ok_window _ W1) as Hw. pose proof (ok_flag _ W1) as Hfl.
  change (MemQueue.nOfItems (mqueue s1) <= 2) in Hw.
  change (flag s1 = true \/ MemQueue.nOfItems (mqueue s1) = 2) in Hfl.
  assert (N : MemQueue.nOfItems (mqueue s4) = MemQueue.nOfItems (mqueue s1) + 1).
  { rewrite <-!MemQueue.zlen_contents, Cq, zlen_app by (done || apply W1). done. }
  pose proof (wf_count := MemQueue.wf_count _ (ok_models _ W1)).
  assert (Last : MemQueue.contents (mqueue s4) !! Z.to_nat (MemQueue.nOfItems (mqueue s1)) = Some m).
  { rewrite Cq, lookup_app_r.
    - rewrite <-(MemQueue.zlen_contents (mqueue s1)) by apply W1. unfold zlen.
      by rewrite Nat2Z.id, Nat.sub_diag.
    - rewrite <-(MemQueue.zlen_contents (mqueue s1)) by apply W1. unfold zlen. lia. }
  assert (Wf4 : MemQueue.wf (frameQueue s4)) by (rewrite A2, P2; apply W).
  assert (Lf4 : MemQueue.qlength (frameQueue s4) = maxFrameQueueLen) by (rewrite A2, P2; apply W).
  unfold optimizeParameters in E. fold (mqueue s4) in E.
  rewrite MemQueue.getNumOfItems_wf, N in E by done.
  change (nOfLookup + nOfBackup) with 2 in E. change nOfLookup with 0 in E.
  destruct (Z.ltb_spec 2 (MemQueue.nOfItems (mqueue s1) + 1)) as [H3|H3].
  - apply bind_inv_Ok in E as (e & _ & E). apply bind_inv_Ok in E as (s5 & E5 & E).
    apply bind_inv_Ok in E as (q & Eq & E). injection E as <-.
    replace (MemQueue.nOfItems (mqueue s1)) with 2 in * by lia.
    apply (synthesise_inv _ _ _ _ m) in E5 as (mq & fq & -> & Hq & G); try done.
    cbn [modelQueue set_field eta_mage] in Eq. rewrite Hq in Eq.
    change (MemQueue.pop (mqueue s4) 1 = Ok q) in Eq.
    destruct (MemQueue.pop_spec (mqueue s4) 1 Wq ltac:(done)) as (q' & Eq' & Wp & Lp & Cp & Rp).
    rewrite Eq in Eq'. injection Eq' as <-.
    assert (Np : MemQueue.nOfItems q = 2).
    { rewrite <-MemQueue.zlen_contents, Cp, zlen_drop, MemQueue.zlen_contents by done. lia. }
    destruct G as (Gw & Gl & Gf).
    assert (Hmq : ModelQueue.queue (mq <| ModelQueue.queue := q |>) = q) by done.
    split; [apply (Mk q Wp Lp Rp ltac:(lia) _ fq false Hmq Gw); auto; cbn in Gl; congruence|].
    split; [cbn; by rewrite A1, P1|]. split; [cbn; by rewrite A3, P3|].
    exists m. split; [unfold get_model in *; cbn; rewrite Rp; exact Gm|]. split; [done|].
    cbn. cbn in Gl, Gf. rewrite A2, P2 in Gl, Gf. by split.
  - assert (flag s1 = true) as Hf1 by (destruct Hfl; [done|lia]).
    assert (flag s4 = true) as Hf4 by (rewrite A4, P4; exact Hf1).
    rewrite Hf4, (proj2 (Z.ltb_lt _ _)) in E by lia. cbn [andb] in E.
    apply bind_inv_Ok in E as (e & _ & E).
    replace (MemQueue.nOfItems (mqueue s1) + 1 - 0 - 1) with (MemQueue.nOfItems (mqueue s1)) in E by lia.
    apply (synthesise_inv _ _ _ _ m) in E as (mq & fq & -> & Hq & G); try done; [|lia].
    destruct G as (Gw & Gl & Gf).
    assert (Wn : mage_ok (s4 <| modelQueue := mq |> <| frameQueue := fq |> <| flag := true |>)).
    { apply (Mk (mqueue s4) Wq eq_refl eq_refl ltac:(lia) mq fq true Hq Gw); auto. congruence. }
    split; [rewrite <-Hf4 in Wn; by destruct s4|].
    split; [cbn; by rewrite A1, P1|]. split; [cbn; by rewrite A3, P3|].
    exists m. split; [unfold get_model in *; cbn; rewrite Hq; exact Gm|]. split; [done|].
    cbn. rewrite A2, P2 in Gl, Gf. by split.
Qed.
(** *** The stages, one by one *)

Lemma popLabel_ok {w} s b s' : popLabel s = Ok (b, s') -> mage_at w s -> mage_at w s'.
Proof.
  intros E W. eapply popLabel_inv in E; [|exact W]. destruct b; [|by destruct E as [_ ->]].
  destruct E as (l & _ & lq & -> & Wl & Ll). keep_inv W.
Qed.

(** a change through the pointer [model], whichever slot it designates *)
Lemma on_model_ok {w} f s s' :
  on_model f s = Ok s' -> mage_at w s ->
  (forall m m', f m = Ok m' -> zlen (Model.states m) = nOfStates -> zlen (Model.states m') = nOfStates) ->
  mage_at w s'.
Proof.
  unfold on_model. intros E W Hf. destruct (model s) as [i|]; [|done].
  apply bind_inv_Ok in E as (raw & Er & E). injection E as <-.
  apply upd_inv in Er as (m & m' & Hi & Ex & Ef & ->).
  pose proof (MemQueue.wf_store _ (<[Z.to_nat i := m']> (MemQueue.rawData (mqueue s)))
    (ok_models _ W) ltac:(by rewrite zlen_insert)) as Wq.
  destruct W. split; try assumption; unfold mqueue in *; cbn; try done.
  apply Forall_insert; [done|]. apply (Hf m); [done|]. rewrite Forall_lookup in ok_states0.
  by eapply ok_states0.
Qed.

Lemma prepareModel_ok {w} s s' : prepareModel s = Ok s' -> mage_at w s -> mage_at w s'.
Proof.
  unfold prepareModel. intros E W.
  set (s1 := s <| model := Some (MemQueue.next (ModelQueue.queue (modelQueue s))) |>) in *.
  destruct (map_find (defaultEngine s1) (engine s1)) as [[iw e]|] eqn:Ef; [|done].
  apply bind_inv_Ok in E as (m & Em & E). apply bind_inv_Ok in E as ([m1 e1] & Ec & E).
  assert (Lm : zlen (Model.states m) = nOfStates).
  { unfold get_model in Em. cbn [model s1 set_field eta_mage] in Em. apply rd_inv in Em as [_ Em].
    pose proof (ok_states _ W) as A. rewrite Forall_lookup in A. by eapply A. }
  eapply on_model_ok; [exact E| |].
  - pose proof (engines_insert s1 (defaultEngine s1) (iw, e1) (ok_engines _ W)
      ltac:(by rewrite Ef; eexists)). keep_inv W.
  - intros m2 m3 [= <-] _. unfold Model.checkInterpolationWeights in Ec.
    destruct (_ || _); [|by injection Ec as <- _].
    apply bind_inv_Ok in Ec as (d & _ & Ec). apply bind_inv_Ok in Ec as (g & _ & Ec).
    by injection Ec as <- _.
Qed.

Lemma computeDuration_ok {w} s s' : computeDuration s = Ok s' -> mage_at w s -> mage_at w s'.
Proof.
  unfold computeDuration. intros E W. apply bind_inv_Ok in E as (vs & _ & E).
  apply bind_inv_Ok in E as (s1 & E1 & E). injection E as <-.
  eapply on_model_ok in E1 as W1; [keep_inv W1|done|].
  intros m m' Ef L. apply bind_inv_Ok in Ef as (m1 & Ei & Ef). apply bind_inv_Ok in Ef as (m2 & Ev & Ef).
  assert (L2 : zlen (Model.states m2) = nOfStates).
  { apply Model.each_state_len in Ei.
    apply (each_voice_inv (fun a b => zlen (Model.states b) = zlen (Model.states a))) in Ev;
      [congruence|done|congruence|]. intros e iw a b. apply Model.computeDuration_len. }
  pose proof (Model.updateDuration_spec m2 (updateFunction s) (action s) L2 (ok_update _ W)) as P.
  rewrite Ef in P. by destruct P as [[? _] _].
Qed.

Lemma keeps_len (m m' : Model.t F) :
  Model.keeps_durations m m' -> zlen (Model.states m') = zlen (Model.states m).
Proof. intros [D _]. apply (f_equal zlen) in D. unfold Model.durations, zlen in *. by rewrite !length_fmap in D. Qed.

(** the new model is one more *)
Lemma computeParameters_ok s s' : computeParameters s = Ok s' -> mage_ok s -> mage_full s'.
Proof.
  unfold computeParameters. intros E W. apply bind_inv_Ok in E as (vs & _ & E).
  apply bind_inv_Ok in E as (s1 & E1 & E). apply bind_inv_Ok in E as (q & Eq & E). injection E as <-.
  eapply on_model_ok in E1 as W1; [|done|].
  - pose proof (ok_window _ W1) as Hw. pose proof (ok_flag _ W1) as Hf.
    pose proof (ok_models_cap _ W1) as Hc.
    change (nOfLookup + nOfBackup) with 2 in *. change maxModelQueueLen with 4 in Hc.
    destruct (MemQueue.push_spec (mqueue s1) 1 (ok_models _ W1) ltac:(done) ltac:(lia))
      as (q' & Eq' & Wq & Lq & Nq & _ & Rq & _).
    unfold mqueue in Eq' at 1. rewrite Eq in Eq'. injection Eq' as <-.
    destruct W1. split; try assumption; unfold mqueue in *; cbn; try done; try congruence; try lia.
    destruct Hf; [by left|right; lia].
  - intros m m' Ef L. apply bind_inv_Ok in Ef as (m1 & Ei & Ev).
    apply Model.initParameters_keeps, keeps_len in Ei.
    apply (each_voice_inv (fun a b => zlen (Model.states b) = zlen (Model.states a))) in Ev;
      [congruence|done|congruence|].
    intros e iw a b F1. apply bind_inv_Ok in F1 as (c & F1 & F2).
    apply Model.computeParameters_keeps, keeps_len in F1.
    apply Model.computeGlobalVariances_keeps, keeps_len in F2. congruence.
Qed.

Lemma synthesise_ok {w} e backup s s' :
  synthesise e backup s = Ok s' -> mage_at w s ->
  mage_at w s' /\ mqueue s' = mqueue s /\ flag s' = flag s.
Proof.
  unfold synthesise. intros E W. apply bind_inv_Ok in E as (mq & Eq & E).
  apply bind_inv_Ok in E as (fq & Eg & E). injection E as <-.
  assert (Hq : ModelQueue.queue mq = mqueue s).
  { unfold ModelQueue.optimizeParameters in Eq. apply bind_inv_Ok in Eq as (vu & _ & Eq).
    apply bind_inv_Ok in Eq as (tot & _ & Eq). apply bind_inv_Ok in Eq as (mem & _ & Eq).
    by injection Eq as <-. }
  apply ModelQueue.generate_wf in Eg as [Wf Lf]; [|apply W].
  split; [|by split]. destruct W. split; try assumption; unfold mqueue in *; cbn; rewrite ?Hq; try done.
  congruence.
Qed.

(** the window is synthesised, and the oldest model of a full window leaves *)
Lemma optimizeParameters_ok {w} s s' :
  optimizeParameters s = Ok s' -> mage_at w s ->
  w = nOfLookup + nOfBackup \/ w = nOfLookup + nOfBackup + 1 -> mage_ok s'.
Proof.
  unfold optimizeParameters. intros E W Hw. fold (mqueue s) in E.
  pose proof (ok_window _ W) as Hn. pose proof (ok_flag _ W) as Hf.
  rewrite MemQueue.getNumOfItems_wf in E by apply W. cbn zeta in E.
  assert (Low : forall v s, mage_at v s -> MemQueue.nOfItems (mqueue s) <= nOfLookup + nOfBackup ->
    flag s = true \/ MemQueue.nOfItems (mqueue s) = nOfLookup + nOfBackup -> mage_ok s).
  { clear. intros v s W N Fl. by destruct W. }
  change (nOfLookup + nOfBackup) with 2 in *. change nOfLookup with 0 in *.
  destruct (Z.ltb_spec 2 (MemQueue.nOfItems (mqueue s))) as [H3|H3].
  - apply bind_inv_Ok in E as (e & _ & E). apply bind_inv_Ok in E as (s5 & E5 & E).
    apply bind_inv_Ok in E as (q & Eq & E). injection E as <-.
    eapply (synthesise_ok (w := w)) in E5 as (W5 & Q5 & _); [|destruct W; split; try assumption; right; change (MemQueue.nOfItems (mqueue s) = w); lia].
    fold (mqueue s5) in Eq. change (mqueue (s <| flag := false |>)) with (mqueue s) in Q5.
    destruct (MemQueue.pop_spec (mqueue s5) 1 (ok_models _ W5) ltac:(done)) as (q' & Eq' & Wp & Lp & Cp & Rp).
    rewrite Eq in Eq'. injection Eq' as <-.
    assert (Np : MemQueue.nOfItems q = 2).
    { rewrite <-MemQueue.zlen_contents, Cp, zlen_drop, MemQueue.zlen_contents by (done || apply W5).
      rewrite Q5. lia. }
    destruct W5. split; try assumption; unfold mqueue in *; cbn; try done; try congruence; try lia.
  - destruct (_ && _).
    + apply bind_inv_Ok in E as (e & _ & E). eapply synthesise_ok in E as (W5 & Q5 & Fl5); [|exact W].
      apply (Low w); [done|rewrite Q5; lia|]. rewrite Q5.
      rewrite Fl5. destruct Hf; [by left|right; lia].
    + injection E as <-. apply (Low w); [done|lia|]. destruct Hf; [by left|right; lia].
Qed.

(** ** Sessions *)

(** the calls of a client: the whole public interface, but for the getters that
    change nothing and the accessors of the parts of the object *)
Inductive call :=
  | SetAlpha (x : F) | SetGamma (x : F) | SetPOrder (x : F) | SetVolume (x : F)
  | SetPitch (x : F) (act : Z) | SetSpeed (x : F) (act : Z)
  | SetDuration (uf : list F) (act : Z) | SetLabelSpeed (x : F)
  | SetDefaultEngine (name : string) | SetInterpolation (set : list (string * list F))
  | EnableInterpolation (b : bool) | ResetInterpolationWeights | CheckReady
  | AddEngineArgs (name : string) (argc : Z) (argv : list string)
  | AddEngineConf (name : string) (conf : option string) | RemoveEngine (name : string)
  | PushLabel (l : Label.t F) | ClearLabels | Run | UpdateSamples | PopSamples (noise : F)
  | Reset | ResetVocoder | GetGamma | SetFrame (f : Vocoder.frame F) | SetLabel (l : Label.t F)
  | PopLabel | PrepareModel | ComputeDuration | ComputeParameters | OptimizeParameters.

Definition run_call (c : call) (s : t F) : Res (t F) :=
  match c with
  | SetAlpha x => Ok (setAlpha s x)
  | SetGamma x => setGamma s x
  | SetPOrder x => setPOrder s x
  | SetVolume x => Ok (setVolume s x)
  | SetPitch x a => Ok (setPitch s x a)
  | SetSpeed x a => setSpeed s x a
  | SetDuration uf a => setDuration s uf a
  | SetLabelSpeed x => Ok (setLabelSpeed s x)
  | SetDefaultEngine n => Ok (setDefaultEngine s n)
  | SetInterpolation set => setInterpolationFunctions s set
  | EnableInterpolation b => Ok (enableInterpolation s b)
  | ResetInterpolationWeights => resetInterpolationWeights s
  | CheckReady => Ok (checkReady s)
  | AddEngineArgs n argc argv => addEngine_args s n argc argv
  | AddEngineConf n c => addEngine_conf s n c
  | RemoveEngine n => Ok (removeEngine s n)
  | PushLabel l => pushLabel s l
  | ClearLabels => '(_, s) ← clearLabels s; Ok s
  | Run => run s
  | UpdateSamples => updateSamples s
  | PopSamples noise => '(_, s) ← popSamples noise s; Ok s
  | Reset => reset s
  | ResetVocoder => Ok (resetVocoder s)
  | GetGamma => Ok (getGamma s).2
  | SetFrame f => Ok (setFrame s f)
  | SetLabel l => Ok (setLabel s l)
  | PopLabel => '(_, s) ← popLabel s; Ok s
  | PrepareModel => prepareModel s
  | ComputeDuration => computeDuration s
  | ComputeParameters => computeParameters s
  | OptimizeParameters => optimizeParameters s
  end.

Fixpoint run_calls (cs : list call) (s : t F) : Res (t F) :=
  match cs with
  | [] => Ok s
  | c :: cs => s ← run_call c s; run_calls cs s
  end.

(** the order of the stages: [pending] tells whether a model was computed whose
    window is not synthesised; another one is only computed, by its stage or by
    [run], when there is none *)
Definition next_pending (c : call) (pending : bool) : option bool :=
  match c with
  | ComputeParameters => if pending then None else Some true
  | Run => if pending then None else Some false
  | OptimizeParameters => Some false
  | _ => Some pending
  end.

Fixpoint in_order (cs : list call) (pending : bool) : option bool :=
  match cs with
  | [] => Some pending
  | c :: cs => pending ← next_pending c pending; in_order cs pending
  end.

(** the models the queue may hold then *)
Definition held (pending : bool) : Z := nOfLookup + nOfBackup + (if pending then 1 else 0).

Lemma vocoder_ok {w} s (f : Vocoder.t F -> Res (Vocoder.t F)) s' :
  (v ← f (vocoder s); Ok (s <| vocoder := v |>)) = Ok s' -> mage_at w s -> mage_at w s'.
Proof. intros E W. apply bind_inv_Ok in E as (v & _ & E). injection E as <-. keep_inv W. Qed.

Lemma pending_cases (p : bool) : held p = nOfLookup + nOfBackup \/ held p = nOfLookup + nOfBackup + 1.
Proof. destruct p; [by right|left; unfold held; lia]. Qed.

Lemma run_call_ok c p p' s s' :
  run_call c s = Ok s' -> next_pending c p = Some p' -> mage_at (held p) s -> mage_at (held p') s'.
Proof.
  intros E N W. destruct c; cbn [run_call next_pending] in E, N;
    try (injection N as <-; injection E as <-; keep_inv W; fail);
    try (injection N as <-).
  - by eapply (vocoder_ok s (fun v => Vocoder.setGamma v x)).
  - by eapply (vocoder_ok s (fun v => Vocoder.setPadeOrder v x)).
  - apply setSpeed_inv in E as (h & Hh & ->). keep_inv W.
  - apply setDuration_inv in E as (l & L & ->). keep_inv W; cbn; congruence.
  - injection E as <-. by apply setDefaultEngine_ok.
  - by eapply setInterpolationFunctions_ok.
  - apply bind_inv_Ok in E as (m & Em & E). injection E as <-.
    pose proof (engines_each _ _ _ Em (ok_engines _ W)). keep_inv W.
  - injection E as <-. by apply checkReady_ok.
  - eapply addEngine_ok; [exact E|]. keep_inv W.
  - by eapply addEngine_conf_ok.
  - injection E as <-. by apply removeEngine_ok.
  - by eapply pushLabel_ok.
  - apply bind_inv_Ok in E as ([q s1] & E1 & E). injection E as <-. by eapply clearLabels_ok.
  - destruct p; [done|]. injection N as <-. by apply run_inv in E as [? _].
  - by eapply updateSamples_ok.
  - apply bind_inv_Ok in E as ([q s1] & E1 & E). injection E as <-. by eapply popSamples_ok.
  - by eapply reset_ok.
  - apply bind_inv_Ok in E as ([b s1] & E1 & E). injection E as <-. by eapply popLabel_ok.
  - by eapply prepareModel_ok.
  - by eapply computeDuration_ok.
  - destruct p; [done|]. injection N as <-. by eapply computeParameters_ok.
  - eapply optimizeParameters_ok; [done|done|]. apply pending_cases.
Qed.

Lemma one_engine_ok {w} s name iw e :
  mage_at w s -> mage_at w (s <| engine := [(name, (iw, e))] |> <| defaultEngine := name |>).
Proof. intros W. keep_inv W. right. cbn. rewrite String.eqb_refl. by eexists. Qed.

Lemma init_ok fr m frame uf argc argv s :
  init fr m frame uf argc argv = Ok s ->
  zlen (Model.states m) = nOfStates -> zlen uf = nOfStates -> mage_ok s.
Proof.
  unfold init. intros E Hm Hu. apply bind_inv_Ok in E as (v & _ & E).
  apply bind_inv_Ok in E as (l & _ & E). injection E as <-.
  split; unfold mqueue; cbn; try done; try by left.
  by apply Forall_replicate.
Qed.

(** C17: every state a client can reach through the public operations is
    consistent: labels, engines, settings and samples in any order, and the
    stages one by one or in a run, provided that a model is only computed when
    the window of the last one was synthesised (computeParameters pushes without
    looking at the capacity: [parameters_unguarded]; [run] and the example
    clients keep that order).  The members that hand out or exchange pointers to
    whole queues, models and vocoders are not among these operations.
    The three queues are well formed, at their capacity, and the model queue
    holds at most the backup models, and the pending one (so that a model never
    overwrites another); the frame length is within 1 and 4800 samples, and the
    sample count below; the synthesiser is only ready with a default engine that
    exists. *)
Theorem reachable_ok (cs : list call) pending fr m frame uf argc argv s0 s :
  init fr m frame uf argc argv = Ok s0 ->
  zlen (Model.states m) = nOfStates -> zlen uf = nOfStates ->
  in_order cs false = Some pending -> run_calls cs s0 = Ok s -> mage_at (held pending) s.
Proof.
  intros E0 Hm Hu. pose proof (init_ok _ _ _ _ _ _ _ E0 Hm Hu : mage_at (held false) s0) as W. clear E0.
  generalize dependent false. revert s0. induction cs as [|c cs IH]; intros s0 p W N E; cbn in N, E.
  { injection N as <-. by injection E as <-. }
  apply bind_inv_Ok in E as (s1 & E1 & E). destruct (next_pending c p) as [p1|] eqn:Np; [|done].
  eapply IH; [by eapply run_call_ok|done|done].
Qed.

(** A stage that is repeated out of order is not held back: with a full model
    queue, computeParameters still counts one model more than there are slots. *)
Theorem parameters_unguarded s s' :
  MemQueue.nOfItems (mqueue s) = MemQueue.qlength (mqueue s) ->
  0 < MemQueue.qlength (mqueue s) < 2 ^ 31 - 1 -> computeParameters s = Ok s' ->
  MemQueue.nOfItems (mqueue s') = MemQueue.qlength (mqueue s') + 1.
Proof.
  intros En Hl E. unfold computeParameters, on_model in E. apply bind_inv_Ok in E as (vs & _ & E).
  apply bind_inv_Ok in E as (s1 & E1 & E). destruct (model s); [|done].
  apply bind_inv_Ok in E1 as (raw & _ & E1). injection E1 as <-.
  apply bind_inv_Ok in E as (q & Eq & E). injection E as <-. unfold MemQueue.push in Eq.
  apply bind_inv_Ok in Eq as (i & _ & Eq). injection Eq as <-. unfold mqueue in *. cbn.
  unfold MemQueue.count_add. cbn. rewrite to_i32_small by lia. lia.
Qed.

(** A run takes the oldest label and nothing else: the label becomes one
    model, whose durations add up and fit the frame memory, and exactly as many
    frames as the model lasts are appended to the frame queue (there is room for
    them once the queue is empty).  Without a label nothing happens. *)
Theorem run_speaks_label s s' :
  mage_ok s -> run s = Ok s' ->
  match LabelQueue.contents (labelQueue s) with
  | [] => s' = s
  | l :: rest =>
      LabelQueue.contents (labelQueue s') = rest /\
      label s' = Label.setSpeed l (labelSpeed s) /\
      exists m frs, get_model s' = Ok m /\ zlen frs = Model.duration m /\
        Duration.zsum (Model.durations m) = Model.duration m /\
        Model.duration m <= maxDuration <= maxFrameQueueLen /\
        MemQueue.contents (frameQueue s') = MemQueue.contents (frameQueue s) ++ frs
  end.
Proof.
  intros W E. apply run_inv in E as [_ R]; [|done].
  destruct (LabelQueue.contents (labelQueue s)) as [|l rest]; [done|].
  destruct R as (Cl & El & m & Gm & (L & P & S & D) & (_ & _ & frs & C & N)).
  split; [done|]. split; [done|]. by exists m, frs.
Qed.

(** ** Pacing *)

Fixpoint update_times (n : nat) (s : t F) : Res (t F) :=
  match n with
  | O => Ok s
  | S n => s ← updateSamples s; update_times n s
  end.

Lemma updateSamples_inv {w} s s' :
  updateSamples s = Ok s' -> mage_at w s -> 0 <= sampleCount s < hopLen s ->
  hopLen s' = hopLen s /\
  if sampleCount s =? hopLen s - 1
  then sampleCount s' = 0 /\
    MemQueue.contents (frameQueue s') = drop 1 (MemQueue.contents (frameQueue s))
  else sampleCount s' = sampleCount s + 1 /\ frameQueue s' = frameQueue s.
Proof.
  unfold updateSamples. intros E W Hc. apply bind_inv_Ok in E as (limit & El & E).
  apply i32_inv in El as [-> _].
  destruct (Z.leb_spec (hopLen s - 1) (sampleCount s)), (Z.eqb_spec (sampleCount s) (hopLen s - 1));
    try lia.
  - apply bind_inv_Ok in E as (s1 & E1 & E). injection E as <-.
    destruct (MemQueue.isEmpty (frameQueue s)) eqn:Ee; cbn [negb] in E1.
    + injection E1 as <-. split; [done|]. split; [done|]. cbn.
      apply (MemQueue.isEmpty_spec _ (ok_frames _ W)) in Ee. by rewrite Ee.
    + apply bind_inv_Ok in E1 as (fr & _ & E1). apply bind_inv_Ok in E1 as (v & _ & E1).
      apply bind_inv_Ok in E1 as (q & Eq & E1). injection E1 as <-.
      destruct (MemQueue.pop_spec (frameQueue s) 1) as (q' & Eq' & _ & _ & C & _);
        [apply W|done|]. rewrite Eq in Eq'. by injection Eq' as <-.
  - apply bind_inv_Ok in E as (n' & En & E). apply i32_inv in En as [-> _]. by injection E as <-.
Qed.

Lemma update_times_pacing (n : nat) s s' :
  mage_ok s -> 0 <= sampleCount s < hopLen s -> update_times n s = Ok s' ->
  hopLen s' = hopLen s /\ sampleCount s' = (sampleCount s + Z.of_nat n) `mod` hopLen s /\
  MemQueue.contents (frameQueue s') =
    drop (Z.to_nat ((sampleCount s + Z.of_nat n) / hopLen s)) (MemQueue.contents (frameQueue s)).
Proof.
  revert s. induction n as [|n IH]; intros s W Hc E; cbn [update_times] in E.
  { injection E as <-. rewrite Z.add_0_r, Z.mod_small, Z.div_small by lia. done. }
  apply bind_inv_Ok in E as (s1 & E1 & E).
  pose proof (updateSamples_ok _ _ E1 W) as W1.
  eapply updateSamples_inv in E1 as [Eh E1]; [|done|done].
  destruct (Z.eqb_spec (sampleCount s) (hopLen s - 1)) as [Hl|Hl]; destruct E1 as [Ec Eq].
  - apply IH in E as (A1 & A2 & A3); [|done|lia]. rewrite Ec, Eh in A2, A3. rewrite A1, A2, A3, Eq, drop_drop.
    split; [done|].
    replace (sampleCount s + Z.of_nat (S n)) with (0 + Z.of_nat n + 1 * hopLen s) by lia.
    rewrite Z.mod_add, Z.div_add by lia. split; [done|]. f_equal.
    assert (0 <= (0 + Z.of_nat n) / hopLen s) by (apply Z.div_pos; lia). lia.
  - apply IH in E as (A1 & A2 & A3); [|done|lia]. rewrite Ec, Eh in A2, A3. rewrite A1, A2, A3, Eq.
    by replace (sampleCount s + Z.of_nat (S n)) with (sampleCount s + 1 + Z.of_nat n) by lia.
Qed.

(** C31: one frame per [hopLen] samples: [n] calls of updateSamples take
    [( sampleCount + n ) / hopLen] frames off the queue (all that there are,
    when there are fewer), and leave the remainder as the count. *)
Theorem frame_pacing (n : nat) s s' :
  mage_ok s -> 0 <= sampleCount s < hopLen s -> update_times n s = Ok s' ->
  hopLen s' = hopLen s /\ sampleCount s' = (sampleCount s + Z.of_nat n) `mod` hopLen s /\
  MemQueue.contents (frameQueue s') =
    drop (Z.to_nat ((sampleCount s + Z.of_nat n) / hopLen s)) (MemQueue.contents (frameQueue s)).
Proof. apply update_times_pacing. Qed.

(** ** Engines of two streams *)

Lemma prepareModel_engine s s' iw e :
  prepareModel s = Ok s' -> map_find (defaultEngine s) (engine s) = Some (iw, e) ->
  interpolationFlag s' = interpolationFlag s /\ defaultEngine s' = defaultEngine s /\
  exists e', map_find (defaultEngine s) (engine s') = Some (iw, e') /\
    zlen (parameter_iw (global e')) = zlen (parameter_iw (global e)).
Proof.
  unfold prepareModel. intros E Ef. cbn [defaultEngine engine set_field eta_mage] in E.
  rewrite Ef in E. apply bind_inv_Ok in E as (m & _ & E).
  apply bind_inv_Ok in E as ([m1 e1] & Ec & E). apply Model.checkInterpolationWeights_len in Ec.
  unfold on_model in E. cbn [model set_field eta_mage] in E.
  apply bind_inv_Ok in E as (raw & _ & E). injection E as <-. cbn. split; [done|]. split; [done|].
  exists e1. split; [|done]. by rewrite map_find_insert, String.eqb_refl.
Qed.

Lemma computeDuration_engine s s' :
  computeDuration s = Ok s' ->
  interpolationFlag s' = interpolationFlag s /\ defaultEngine s' = defaultEngine s /\
  engine s' = engine s.
Proof.
  unfold computeDuration, on_model. intros E. apply bind_inv_Ok in E as (vs & _ & E).
  apply bind_inv_Ok in E as (s1 & E1 & E). injection E as <-.
  destruct (model s); [|done]. apply bind_inv_Ok in E1 as (raw & _ & E1). by injection E1 as <-.
Qed.

(** C38: an engine without low-pass filter models loads, but cannot speak: no
    run that has a label to take returns (the weights of the third stream are
    read past their array). *)
Theorem two_streams_unusable argc argv n o e iw s :
  Engine.load strtod_special argc argv = Ok e ->
  Engine.GetNumInterp argc argv = Ok n -> Engine.parse strtod_special n argc argv = Ok o ->
  Engine.has_lpf o = false ->
  map_find (defaultEngine s) (engine s) = Some (iw, e) -> interpolationFlag s = false ->
  LabelQueue.isEmpty (labelQueue s) = false -> is_ok (run s) = false.
Proof.
  intros El En Eo Hl Ef Hi Hq. destruct (run s) as [s'| | |] eqn:E; try done. exfalso.
  pose proof (Engine.load_two_streams _ _ _ _ _ _ El En Eo Hl) as L. clear El En Eo Hl.
  unfold run in E. apply bind_inv_Ok in E as ([b s1] & E1 & E). unfold popLabel in E1.
  rewrite Hq in E1. cbn [negb] in E1. apply bind_inv_Ok in E1 as ([l lq] & _ & E1).
  injection E1 as <- <-.
  apply bind_inv_Ok in E as (s2 & E2 & E). eapply prepareModel_engine in E2; [|exact Ef].
  destruct E2 as (I2 & D2 & e' & F2 & L2).
  apply bind_inv_Ok in E as (s3 & E3 & E). apply computeDuration_engine in E3 as (I3 & D3 & F3).
  apply bind_inv_Ok in E as (s4 & E4 & _). unfold computeParameters, voices, default_engine in E4.
  rewrite I3, I2, D3, D2, F3 in E4. cbn [interpolationFlag defaultEngine set_field eta_mage] in E4, F2.
  rewrite Hi, F2 in E4. cbn [negb] in E4. rewrite !bind_Ok in E4.
  apply bind_inv_Ok in E4 as (s5 & E5 & _). unfold on_model in E5.
  destruct (model s3) as [k|]; [|done]. apply bind_inv_Ok in E5 as (raw & Er & _).
  apply upd_inv in Er as (m & m' & _ & _ & Em & _).
  apply bind_inv_Ok in Em as (m1 & _ & Em). cbn [each_voice] in Em.
  apply bind_inv_Ok in Em as (m2 & Em & _). apply bind_inv_Ok in Em as (m3 & Em & _).
  apply Model.computeParameters_streams in Em. change nOfStreams with 3 in Em. lia.
Qed.
End Mage.

(** ** Samples *)

Section Samples.
Context `{Libm double}.

(** A sample is between -1 and 1, unless the vocoder diverged to a NaN,
    which the two comparisons let through. *)
Theorem samples_clamped noise (s s' : t double) x :
  popSamples noise s = Ok (x, s') ->
  is_nan x = true \/ (nleb (nZ (-1)) x = true /\ nleb x (nZ 1) = true).
Proof.
  unfold popSamples. destruct (Vocoder.ready _); [|intros [= <- _]; right; split; reflexivity].
  intros E. apply bind_inv_Ok in E as ([y v] & _ & E). cbn zeta in E. apply Ok_inj, pair_equal_spec in E as [E _].
  set (z := (ndec 5 (-1) * y / nZ 32768)%num) in *.
  destruct (is_nan z) eqn:Ez.
  { left. rewrite (nltb_nan (nZ 1) z), (nltb_nan z (nZ (-1))) in E by (by rewrite Ez, ?orb_true_r).
    by rewrite <-E. }
  right. destruct (nltb (nZ 1) z) eqn:E1; [subst x; split; reflexivity|].
  destruct (nltb z (nZ (-1))) eqn:E2; [subst x; split; reflexivity|]. subst x.
  split; apply nleb_of_not_nltb; done.
Qed.
End Samples.

(** ** Concrete sessions *)

Section Runs.
#[local] Existing Instance no_libm.
#[local] Existing Instance Engine.any_files.
Definition zero : double := nZ 0.

Definition ex_frame : Vocoder.frame double :=
  Vocoder.mkFrame (replicate 3 (replicate 105 zero)) false.
Definition ex_init : Res (t double) :=
  init ex_frame (Model.blank [0; 0; 0; 0; 0]) ex_frame (replicate 5 zero) 0 [].

(** an engine is added and removed, a label is queued and becomes a model, stage
    by stage *)
Definition ex_calls : list call :=
  [SetSpeed (nZ 9999) overwrite; UpdateSamples; PushLabel Label.create;
   AddEngineConf "slt" (Some (String.concat (String newline "")
     ["-td a -tm a -tf a -tl a"; "-md a  -mm a -mf a -ml a x.lab"; ""]));
   SetDefaultEngine "bdl"; CheckReady; PopLabel; PrepareModel;
   ComputeDuration; ComputeParameters; OptimizeParameters; ComputeParameters; SetSpeed (nZ (-3)) shift; RemoveEngine "slt"].

Lemma reachable_ok_witness :
  exists s : t double,
    (s0 ← ex_init; run_calls Engine.no_special (fun x => x) ex_calls s0) = Ok s /\ mage_full s.
Proof.
  destruct (is_ok_inv (s0 ← ex_init; run_calls Engine.no_special (fun x => x) ex_calls s0))
    as [s E]; [vm_compute; reflexivity|].
  exists s. split; [exact E|]. apply bind_inv_Ok in E as (s0 & E0 & E).
  exact (reachable_ok Engine.no_special (fun x => x) ex_calls true ex_frame
    (Model.blank [0; 0; 0; 0; 0]) ex_frame (replicate 5 zero) 0 [] s0 s E0 eq_refl eq_refl eq_refl E).
Defined.
(** a synthesiser with a flat voice and a label of five frames *)
Definition ex_speaker : Res (t double) :=
  s ← ex_init;
  pushLabel (s <| engine := [("a", (replicate 4 (nZ 1), ModelQueue.ex_voice))] |>
               <| defaultEngine := "a" |>) Label.create.

Lemma ex_speaker_ok (s : t double) : ex_speaker = Ok s -> mage_ok s.
Proof.
  intros E. apply bind_inv_Ok in E as (s0 & E0 & E). eapply pushLabel_ok; [exact E|].
  apply one_engine_ok. by eapply init_ok; [exact E0| |].
Qed.

Lemma run_speaks_label_witness :
  exists s s' : t double, ex_speaker = Ok s /\ run (fun x => x) s = Ok s' /\
  match LabelQueue.contents (labelQueue s) with
  | [] => s' = s
  | l :: rest =>
      LabelQueue.contents (labelQueue s') = rest /\
      label s' = Label.setSpeed l (labelSpeed s) /\
      exists m frs, get_model s' = Ok m /\ zlen frs = Model.duration m /\
        Duration.zsum (Model.durations m) = Model.duration m /\
        Model.duration m <= maxDuration <= maxFrameQueueLen /\
        MemQueue.contents (frameQueue s') = MemQueue.contents (frameQueue s) ++ frs
  end.
Proof.
  destruct (is_ok_inv (s ← ex_speaker; run (fun x => x) s)) as [s' E]; [vm_compute; reflexivity|].
  apply bind_inv_Ok in E as (s & Es & E). exists s, s'. split; [exact Es|]. split; [exact E|].
  exact (run_speaks_label (fun x => x) s s' (ex_speaker_ok s Es) E).
Defined.
(** 500 samples at 240 per frame: two frames, 20 samples into the third *)
Lemma frame_pacing_witness :
  exists s s' : t double, ex_speaker = Ok s /\ update_times 500 s = Ok s' /\
    hopLen s' = hopLen s /\ sampleCount s' = (sampleCount s + 500) `mod` hopLen s /\
    MemQueue.contents (frameQueue s') =
      drop (Z.to_nat ((sampleCount s + 500) / hopLen s)) (MemQueue.contents (frameQueue s)).
Proof.
  destruct (is_ok_inv (s ← ex_speaker; update_times 500 s)) as [s' E]; [vm_compute; reflexivity|].
  apply bind_inv_Ok in E as (s & Es & E). exists s, s'. split; [exact Es|]. split; [exact E|].
  assert (C : (fun s => (sampleCount s, hopLen s)) <$> ex_speaker = Ok (0, 240))
    by (vm_compute; reflexivity).
  rewrite Es in C. apply Ok_inj, pair_equal_spec in C as [C1 C2].
  exact (frame_pacing 500 s s' (ex_speaker_ok s Es) ltac:(rewrite C1, C2; lia) E).
Defined.

(** the shipped options without those of the low-pass filter *)
Definition two_stream_conf : list string :=
  ["-td"; "a"; "-tm"; "a"; "-tf"; "a"; "-md"; "a"; "-mm"; "a"; "-mf"; "a"; "x.lab"].

Lemma two_streams_unusable_witness :
  exists (s : t double) e, Engine.load Engine.no_special 13 two_stream_conf = Ok e /\
    is_ok (run (fun x => x) (s <| engine := [("a", ([], e))] |>)) = false.
Proof.
  destruct (is_ok_inv (Engine.load Engine.no_special 13 two_stream_conf)) as [e El];
    [vm_compute; reflexivity|].
  destruct (is_ok_inv (Engine.parse (F:=double) Engine.no_special 1 13 two_stream_conf)) as [o Eo];
    [vm_compute; reflexivity|].
  assert (Hl : (fun o => Engine.has_lpf o) <$>
    Engine.parse (F:=double) Engine.no_special 1 13 two_stream_conf = Ok false)
    by (vm_compute; reflexivity).
  rewrite Eo in Hl. apply Ok_inj in Hl.
  destruct (is_ok_inv ex_speaker) as [s Es]; [vm_compute; reflexivity|].
  assert (C : (fun s => (defaultEngine s, interpolationFlag s, LabelQueue.isEmpty (labelQueue s)))
    <$> ex_speaker = Ok ("a", false, false)) by (vm_compute; reflexivity).
  rewrite Es in C. apply Ok_inj, pair_equal_spec in C as [C C3].
  apply pair_equal_spec in C as [C1 C2].
  exists s, e. split; [exact El|].
  apply (two_streams_unusable Engine.no_special (fun x => x) 13 two_stream_conf 1 o e []
    (s <| engine := [("a", ([], e))] |>) El eq_refl Eo Hl); [|exact C2|exact C3].
  cbn [defaultEngine engine set_field eta_mage]. rewrite C1. reflexivity.
Defined.
End Runs.

Section Sound.
(** a libm whose functions answer 1 *)
Definition unit_libm : Libm double :=
  let one := SpecFloat.S754_finite false 4503599627370496 (-52) in
  {| libm_exp _ := one; libm_log _ := one; libm_pow _ _ := one |}.
#[local] Existing Instance unit_libm.
#[local] Existing Instance Engine.any_files.

(** the first sample of the label *)
Definition ex_sounding : Res (t double) :=
  s ← ex_speaker; s ← run (fun x => x) s; update_times 240 s.

Example ex_sample_voiced :
  (fun r => nltb zero r.1 && Vocoder.ready (vocoder r.2)) <$>
    (s ← ex_sounding; popSamples zero s) = Ok true.
Proof. vm_compute. reflexivity. Qed.

Lemma samples_clamped_witness :
  exists x (s' : t double), (s ← ex_sounding; popSamples zero s) = Ok (x, s') /\
    (is_nan x = true \/ (nleb (nZ (-1)) x = true /\ nleb x (nZ 1) = true)).
Proof.
  destruct (is_ok_inv (s ← ex_sounding; popSamples zero s)) as [[x s'] E]; [vm_compute; reflexivity|].
  exists x, s'. split; [exact E|]. apply bind_inv_Ok in E as (s1 & _ & E).
  exact (samples_clamped zero s1 s' x E).
Defined.
End Sound.
End Mage.
