(* ===== verification/Run.v ===== *)
(** * A run of the synthesiser returns

    [Mage.run_inv] says what a run leaves when it returns; this file shows that
    it returns: a synthesiser with a loaded voice ([speaker]) that takes a label
    whose durations come from the voice, with room in the frame queue for one
    model, speaks that label without leaving any array or waiting, and can speak
    again. *)

From Stdlib Require Import Ascii String.
From S2P Require Import Prelude Num Constants CString Matrix Fifo MemQueue LabelQueue Duration Vocoder Fft MlsaCheck.
From S2P Require Import Label Voice Model ModelQueue Layout Building Engine Mage.
#[local] Open Scope Z_scope.

Module Run.
Import Mage Building.

Section Run.
Context `{Libm double}.
Variable mlsacheck : list double -> list double.
Hypothesis mlsacheck_len : forall row, zlen (mlsacheck row) = zlen row.

Implicit Types s : t double.

(** ** A synthesiser that can speak *)

(** the engine that speaks, and what it needs *)
Definition speaks_with (s : t double) (e : Engine double) : Prop :=
  engine_ok e /\ exists iw, map_find (defaultEngine s) (engine s) = Some (iw, e).

Record speaker (s : t double) : Prop := {
  sp_mage : mage_ok s;
  sp_memory : Layout.memory_ok (ModelQueue.modelQueueMemory (modelQueue s));
  sp_slots : Forall slot_ok (MemQueue.rawData (mqueue s));
  sp_models : Forall Layout.built (MemQueue.contents (mqueue s));
  sp_frames : Forall (fun fr => Vocoder.frame_dims (Vocoder.streams fr))
    (MemQueue.rawData (frameQueue s));
  sp_engine : exists e, speaks_with s e;
  sp_alone : interpolationFlag s = false;
  sp_action : action s = noaction
}.

(** ** Changes of the model that is built *)

Definition put_model (s : t double) (m : Model.t double) : t double :=
  s <| modelQueue := (modelQueue s) <| ModelQueue.queue :=
    (mqueue s) <| MemQueue.rawData :=
      <[Z.to_nat (MemQueue.next (mqueue s)) := m]> (MemQueue.rawData (mqueue s)) |> |> |>.

Lemma on_model_put f s m (P : Model.t double -> Prop) :
  model s = Some (MemQueue.next (mqueue s)) -> get_model s = Ok m -> yields (f m) P ->
  yields (on_model f s) (fun s' => exists m', P m' /\ s' = put_model s m').
Proof.
  intros Em Eg (m' & Ef & Pm). unfold on_model, get_model in *. rewrite Em in Eg |- *.
  apply rd_inv in Eg as [Hr Eg]. unfold upd. fold (mqueue s) in Hr, Eg |- *.
  rewrite (rd_ok _ _ m), bind_Ok, Ef, bind_Ok, wr_ok, bind_Ok by (done || lia).
  apply yields_ok. exists m'. split; [done|]. unfold put_model. reflexivity.
Qed.

(** a state in which the next slot of the model queue is being filled: it
    differs from [s0] in the slot, the engines' weights and the action *)
Record filling (s0 s : t double) (m : Model.t double) : Prop := {
  fl_building : building s m;
  fl_queues : same_queues s0 s;
  fl_memory : ModelQueue.modelQueueMemory (modelQueue s) =
    ModelQueue.modelQueueMemory (modelQueue s0);
  fl_slots : Forall slot_ok (MemQueue.rawData (mqueue s));
  fl_default : interpolationFlag s = interpolationFlag s0 /\ defaultEngine s = defaultEngine s0 /\
    updateFunction s = updateFunction s0 /\ labelSpeed s = labelSpeed s0
}.

Lemma filling_slot s0 s m : filling s0 s m -> slot_ok m.
Proof.
  intros [(_ & Em & Eg) _ _ A _]. unfold get_model in Eg. rewrite Em in Eg.
  apply rd_inv in Eg as [_ Eg]. rewrite Forall_lookup in A. by eapply A.
Qed.

Lemma filling_put s0 s m m' :
  filling s0 s m -> slot_ok m' -> filling s0 (put_model s m') m' /\
    action (put_model s m') = action s /\ engine (put_model s m') = engine s.
Proof.
  intros [(W & Em & Eg) Q M A D] Hm. pose proof Hm as (L & _).
  assert (E : on_model (fun _ => Ok m') s = Ok (put_model s m')).
  { destruct (on_model_put (fun _ => Ok m') s m (eq m') Em Eg) as (s' & E & m2 & <- & ->);
      [by apply yields_ok|exact E]. }
  apply on_model_inv in E as (m1 & m2 & E1 & E2 & _ & Sq & _ & _ & Ea & Ee & B); [|done|done].
  injection E2 as <-. split; [|done]. split.
  - by apply B.
  - by eapply same_queues_trans.
  - exact M.
  - change (Forall slot_ok (<[Z.to_nat (MemQueue.next (mqueue s)) := m']>
      (MemQueue.rawData (mqueue s)))). by apply Forall_insert.
  - exact D.
Qed.

(** ** The stages of a run *)

Lemma popLabel_yields s l rest :
  mage_ok s -> LabelQueue.contents (labelQueue s) = l :: rest ->
  yields (popLabel s) (fun r => r.1 = true /\ exists lq, r.2 =
    s <| labelQueue := lq |> <| label := Label.setSpeed l (labelSpeed s) |>).
Proof.
  intros W E. unfold popLabel.
  assert (LabelQueue.isEmpty (labelQueue s) = false) as ->.
  { pose proof (f_empty_law (Q:=LabelQueue.t (Label.t double)) (labelQueue s)) as P.
    specialize (P (ok_labels _ W)). cbn in P.
    destruct (LabelQueue.isEmpty (labelQueue s)); [|done].
    rewrite E in P. by specialize (proj1 P eq_refl). }
  cbn [negb]. pose proof (f_pop_law (Q:=LabelQueue.t (Label.t double)) (labelQueue s) l rest) as P.
  destruct (P (ok_labels _ W) E) as ([x lq] & Ep & Ex & _). cbn in Ep, Ex. subst x.
  rewrite Ep, bind_Ok. apply yields_ok. split; [done|]. by exists lq.
Qed.

Lemma slot_next s :
  mage_ok s -> Forall slot_ok (MemQueue.rawData (mqueue s)) ->
  exists m, rd (MemQueue.rawData (mqueue s)) (MemQueue.next (mqueue s)) = Ok m /\ slot_ok m.
Proof.
  intros W A. pose proof (MemQueue.wf_write_lt _ (ok_models _ W)) as Hw.
  destruct (yields_rd (MemQueue.rawData (mqueue s)) (MemQueue.next (mqueue s))) as (m & E & Em).
  { unfold MemQueue.next. pose proof (ok_models _ W) as []. lia. }
  exists m. split; [done|]. rewrite Forall_lookup in A. by eapply A.
Qed.

Lemma prepareModel_yields s e :
  mage_ok s -> Forall slot_ok (MemQueue.rawData (mqueue s)) -> speaks_with s e ->
  yields (prepareModel s) (fun s' => exists m e', filling s s' m /\ action s' = action s /\
    speaks_with s' e' /\ ms e' = ms e /\ used e (duration_iw (global e'))).
Proof.
  intros W A (He & iw & Ef). destruct (slot_next s W A) as (m & Er & Hm).
  unfold prepareModel.
  set (s1 := s <| model := Some (MemQueue.next (ModelQueue.queue (modelQueue s))) |>).
  change (map_find (defaultEngine s1) (engine s1)) with (map_find (defaultEngine s) (engine s)).
  rewrite Ef. assert (G1 : get_model s1 = Ok m) by exact Er. rewrite G1, bind_Ok.
  destruct (checkInterpolationWeights_yields m e false He Hm) as
    ([m1 e1] & Ec & Hm1 & K1 & He1 & Ems & Hu). cbn [fst snd] in *. rewrite Ec, bind_Ok.
  set (s2 := s1 <| engine := map_insert (defaultEngine s1) (iw, e1) (engine s1) |>).
  assert (W2 : mage_ok s2).
  { pose proof (engines_insert s (defaultEngine s) (iw, e1) (ok_engines _ W)
      ltac:(by rewrite Ef; eexists)). keep_inv W. }
  assert (F2 : filling s s2 m) by (split; [by split|by repeat split|done|done|done]).
  eapply yields_mono; [apply (on_model_put _ s2 m (eq m1)); [done|done|by apply yields_ok]|].
  intros s' (m2 & <- & ->). destruct (filling_put _ _ _ _ F2 Hm1) as (F3 & Ea & Ee).
  exists m1, e1. split; [done|]. split; [by rewrite Ea|]. split; [|done].
  split; [done|]. exists iw. rewrite Ee. change (defaultEngine (put_model s2 m1)) with (defaultEngine s).
  cbn [engine s2 set_field eta_mage]. by rewrite map_find_insert, String.eqb_refl.
Qed.

Lemma voices_default s e :
  interpolationFlag s = false -> speaks_with s e -> voices s = Ok [(e, None)].
Proof.
  intros Hi (_ & iw & Ef). unfold voices, default_engine. rewrite Hi. cbn [negb]. by rewrite Ef.
Qed.

Lemma computeDuration_yields s0 s m e ds :
  filling s0 s m -> speaks_with s e -> interpolationFlag s0 = false -> action s = noaction ->
  plain (label s) ->
  frames_for (ms e) (cstr (Label.getQuery (label s))) (duration_iw (global e)) ds ->
  yields (computeDuration s) (fun s' => exists m', filling s0 s' m' /\ action s' = noaction /\
    speaks_with s' e /\ label s' = label s /\ Model.fits m' /\
    Model.durations m' = fitted ds).
Proof.
  intros Fl He Hi Ha Hp Hd. pose proof (filling_slot _ _ _ Fl) as Hm.
  pose proof Fl as [(W & Em & Eg) _ _ _ (E1 & E2 & E3 & E4)].
  destruct (frames_for_sum _ _ _ _ Hd) as (Ld & P & Hsum).
  unfold computeDuration. rewrite (voices_default s e), bind_Ok by (congruence || done).
  eapply yields_bind.
  { apply (on_model_put _ s m (fun m' => slot_ok m' /\ Model.fits m' /\
      Model.durations m' = fitted ds)); [done|done|].
    eapply yields_bind; [by apply initDuration_yields; apply Hm|]. intros m1 [Sm1 D1].
    pose proof (same_memory_slot _ _ Sm1 Hm) as Hm1. cbn [each_voice].
    rewrite bind_assoc. eapply yields_bind; [by apply Building.durations_yields|].
    intros m2 [Hm2 D2]. rewrite bind_Ok, Ha.
    eapply yields_mono.
    - apply (updateDuration_noaction m2); [apply Hm2|apply (ok_update _ W)|by rewrite D2|].
      rewrite D2. change maxDuration with 170. lia.
    - intros m3 (F3 & Sm3 & D3). rewrite D2 in D3. split; [by eapply same_memory_slot|done]. }
  intros s1 (m1 & (Hm1 & F1 & D1) & ->). apply yields_ok.
  destruct (filling_put _ _ _ _ Fl Hm1) as (Fl1 & Ea & Ee).
  exists m1. split; [|split; [done|split; [exact He|split; [done|done]]]].
  destruct Fl1 as [(W1 & Em1 & Eg1) Q1 M1 A1 D']. split; [|done..].
  split; [keep_inv W1|done].
Qed.

Lemma computeParameters_yields s0 s m e :
  filling s0 s m -> speaks_with s e -> interpolationFlag s0 = false -> Model.fits m ->
  query_fits (label s) ->
  yields (computeParameters s) (fun s' => exists m', Layout.built m' /\
    Model.durations m' = Model.durations m /\ speaks_with s' e /\
    ModelQueue.modelQueueMemory (modelQueue s') = ModelQueue.modelQueueMemory (modelQueue s0) /\
    Forall slot_ok (MemQueue.rawData (mqueue s')) /\ frameQueue s' = frameQueue s0 /\
    interpolationFlag s' = false /\ labelSpeed s' = labelSpeed s0 /\ action s' = action s /\
    flag s' = flag s0 /\ MemQueue.wf (mqueue s') /\ get_model s' = Ok m' /\
    MemQueue.contents (mqueue s') = MemQueue.contents (mqueue s0) ++ [m']).
Proof.
  intros Fl He Hi Hf Hq. pose proof (filling_slot _ _ _ Fl) as Hm.
  pose proof Fl as [(W & Em & Eg) Sq _ _ (E1 & E2 & E3 & E4)].
  unfold computeParameters. rewrite (voices_default s e), bind_Ok by (congruence || done).
  destruct (on_model_put (fun m => m ← Model.initParameters m;
      each_voice (fun e iw m => m ← Model.computeParameters m e (label s) iw;
        Model.computeGlobalVariances m e (label s)) [(e, None)] m) s m
    (fun m' => slot_ok m' /\ Model.keeps_durations m m') Em Eg) as (s1 & Es1 & m1 & (Hm1 & K1) & ->).
  { eapply yields_bind; [by apply initParameters_yields|]. intros ma [Ha Ka]. cbn [each_voice].
    rewrite bind_assoc. destruct He as [He _].
    eapply yields_bind; [by apply Building.parameters_yields|]. intros mb [Hb Kb].
    eapply yields_bind; [by apply computeGlobalVariances_yields|]. intros mc [Hc Kc].
    apply yields_ok. split; [done|]. eapply keeps_trans; [exact Ka|]. by eapply keeps_trans. }
  destruct (filling_put _ _ _ _ Fl Hm1) as (Fl1 & Ea & Ee).
  rewrite Es1, bind_Ok. fold (mqueue (put_model s m1)).
  destruct Fl1 as [(W1 & Em1 & Eg1) Sq1 M1 A1 D1].
  assert (Hroom : MemQueue.nOfItems (mqueue (put_model s m1)) < MemQueue.qlength (mqueue (put_model s m1))).
  { rewrite (ok_models_cap _ W1). pose proof (ok_window _ W1) as Hw.
    change (MemQueue.nOfItems (mqueue (put_model s m1)) <= 2) in Hw. change maxModelQueueLen with 4. lia. }
  unfold get_model in Eg1. rewrite Em1 in Eg1. apply rd_inv in Eg1 as [Hr1 Eg1].
  destruct (MemQueue.push_filled (mqueue (put_model s m1)) m1 (ok_models _ W1) Hroom Eg1)
    as (q & Eq & Wq & Lq & Nq & _ & Rq & Cq). rewrite Eq, bind_Ok. apply yields_ok.
  exists m1. split; [split; [by eapply Model.keeps_fits|apply Hm1]|]. split; [apply K1|].
  split; [exact He|]. split; [exact M1|].
  split; [unfold mqueue; cbn [modelQueue set_field eta_mage ModelQueue.queue ModelQueue.eta_modelqueue];
          rewrite Rq; exact A1|].
  destruct Sq1 as (S1 & S2 & S3 & S4 & S5 & S6).
  split; [exact S2|]. split; [exact (eq_trans (proj1 D1) Hi)|].
  split; [apply D1|]. split; [exact Ea|].
  split; [exact S4|]. split; [exact Wq|]. split.
  - unfold get_model. cbn [model set_field eta_mage]. rewrite Em1. cbn. rewrite Rq.
    apply rd_ok; [apply Hr1|exact Eg1].
  - change (MemQueue.contents q = MemQueue.contents (mqueue s0) ++ [m1]). by rewrite Cq, S6.
Qed.
Lemma synthesise_yields s e backup m :
  engine_ok e -> Layout.memory_ok (ModelQueue.modelQueueMemory (modelQueue s)) ->
  MemQueue.wf (mqueue s) -> Forall Layout.built (MemQueue.contents (mqueue s)) ->
  0 <= backup <= nOfBackup -> MemQueue.contents (mqueue s) !! Z.to_nat backup = Some m ->
  ModelQueue.fq_ok (frameQueue s) ->
  zlen (MemQueue.contents (frameQueue s)) + Model.duration m <= MemQueue.qlength (frameQueue s) ->
  yields (synthesise mlsacheck e backup s) (fun s' => exists mq fq frs,
    s' = s <| modelQueue := mq |> <| frameQueue := fq |> /\ ModelQueue.queue mq = mqueue s /\
    Layout.memory_ok (ModelQueue.modelQueueMemory mq) /\ ModelQueue.fq_ok fq /\
    MemQueue.contents fq = MemQueue.contents (frameQueue s) ++ frs /\
    zlen frs = Model.duration m /\
    Vocoder.fvoiced <$> frs = ModelQueue.voicings e (Model.states m)).
Proof.
  intros [V T _] M W B Hb Em Hfq Hroom. unfold synthesise.
  assert (Hn : backup < MemQueue.nOfItems (mqueue s)).
  { rewrite <-(MemQueue.zlen_contents _ W). apply lookup_lt_Some in Em. unfold zlen. lia. }
  eapply yields_bind.
  { apply (Layout.window_yields e V T (modelQueue s) backup nOfLookup); [|lia|done].
    split; [done|]. change nOfLookup with 0. change nOfBackup with 2 in Hb. split; [|done].
    fold (mqueue s). lia. }
  intros mq (Hq & Mq & _). eapply yields_bind.
  { apply (ModelQueue.generate_yields mlsacheck e V T mlsacheck_len mq (frameQueue s) backup m);
      try done; rewrite ?Hq; try done.
    - apply (Layout.mem_par _ Mq).
    - eapply Forall_impl; [exact B|]. intros x. apply Layout.built_model_ok. }
  intros fq (Hfq' & _ & frs & C & N & Vs). apply yields_ok.
  by exists mq, fq, frs.
Qed.

(** the last stage: the window of the new model is synthesised *)
Lemma optimizeParameters_yields s e m old :
  speaks_with s e -> Layout.memory_ok (ModelQueue.modelQueueMemory (modelQueue s)) ->
  MemQueue.wf (mqueue s) -> MemQueue.contents (mqueue s) = old ++ [m] ->
  Forall Layout.built (old ++ [m]) -> zlen old <= nOfBackup ->
  flag s = true \/ zlen old = nOfBackup ->
  ModelQueue.fq_ok (frameQueue s) ->
  zlen (MemQueue.contents (frameQueue s)) + Model.duration m <= MemQueue.qlength (frameQueue s) ->
  yields (optimizeParameters mlsacheck s) (fun s' => exists frs,
    model s' = model s /\ engine s' = engine s /\ defaultEngine s' = defaultEngine s /\
    interpolationFlag s' = interpolationFlag s /\ labelSpeed s' = labelSpeed s /\
    action s' = action s /\ MemQueue.rawData (mqueue s') = MemQueue.rawData (mqueue s) /\
    Forall Layout.built (MemQueue.contents (mqueue s')) /\
    Layout.memory_ok (ModelQueue.modelQueueMemory (modelQueue s')) /\
    ModelQueue.fq_ok (frameQueue s') /\
    MemQueue.contents (frameQueue s') = MemQueue.contents (frameQueue s) ++ frs /\
    zlen frs = Model.duration m /\
    Vocoder.fvoiced <$> frs = ModelQueue.voicings e (Model.states m)).
Proof.
  intros (He & iw & Ef) M W C B Ho Hfl Hfq Hroom. pose proof (zlen_nonneg old).
  assert (N : MemQueue.nOfItems (mqueue s) = zlen old + 1)
    by (rewrite <-(MemQueue.zlen_contents _ W), C, zlen_app; done).
  assert (Em : MemQueue.contents (mqueue s) !! Z.to_nat (zlen old) = Some m).
  { rewrite C. unfold zlen. rewrite Nat2Z.id. by apply list_lookup_middle. }
  unfold optimizeParameters. fold (mqueue s). rewrite MemQueue.getNumOfItems_wf, N by done.
  change nOfBackup with 2 in *. change nOfLookup with 0. cbn zeta.
  assert (D : default_engine s = Ok e) by (unfold default_engine; by rewrite Ef).
  destruct (Z.ltb_spec (0 + 2) (zlen old + 1)) as [H3|H3].
  - rewrite D, bind_Ok. replace (zlen old) with 2 in * by lia.
    destruct (synthesise_yields (s <| flag := false |>) e 2 m) as
      (s5 & E5 & mq & fq & frs & -> & Hq & Mq & Hfq' & Cf & Nf & Vf); try done.
    { change (Forall Layout.built (MemQueue.contents (mqueue s))). by rewrite C. }
    rewrite E5, bind_Ok. cbn [modelQueue set_field eta_mage]. rewrite Hq.
    change (mqueue (s <| flag := false |>)) with (mqueue s).
    destruct (MemQueue.pop_spec (mqueue s) 1 W ltac:(done)) as (q & Eq & _ & _ & Cp & Rp).
    rewrite Eq, bind_Ok. apply yields_ok. exists frs. repeat (split; [done|]).
    split; [|repeat (split; [done|]); done].
    change (Forall Layout.built (MemQueue.contents q)). rewrite Cp, C. by apply Forall_drop.
  - assert (flag s = true) as -> by (destruct Hfl; [done|lia]).
    rewrite (proj2 (Z.ltb_lt 0 (zlen old + 1))) by lia. cbn [andb]. rewrite D, bind_Ok.
    replace (zlen old + 1 - 0 - 1) with (zlen old) by lia.
    destruct (synthesise_yields s e (zlen old) m) as
      (s5 & E5 & mq & fq & frs & -> & Hq & Mq & Hfq' & Cf & Nf & Vf); try done.
    { by rewrite C. }
    rewrite E5. apply yields_ok. exists frs. repeat (split; [done|]).
    split; [unfold mqueue at 1; cbn; by rewrite Hq|]. split; [|repeat (split; [done|]); done].
    unfold mqueue at 1. cbn. by rewrite Hq, C.
Qed.
(** ** A run *)

(** the voice has a frame count for the label, with the weights it will use *)
Definition has_frames (e : Engine double) (l : Label.t double) : Prop :=
  forall iw, used e iw -> exists ds, frames_for (ms e) (cstr (Label.getQuery l)) iw ds.

(** the label [l] is spoken with the frames [frs] *)
Definition spoken (e : Engine double) (l : Label.t double) (s' : t double)
    (frs : list (Vocoder.frame double)) : Prop :=
  exists e' ds m, speaks_with s' e' /\ ms e' = ms e /\ used e (duration_iw (global e')) /\
    frames_for (ms e) (cstr (Label.getQuery l)) (duration_iw (global e')) ds /\
    get_model s' = Ok m /\ Model.durations m = fitted ds /\
    zlen frs = Duration.zsum (fitted ds) /\
    Vocoder.fvoiced <$> frs = ModelQueue.voicings e' (Model.states m).

(** the state [s4] after the label [l] became the model [m]: what the window of [m]
    is synthesised from *)
Record computed (s : t double) (e : Engine double) (l : Label.t double)
    (rest : list (Label.t double)) (s4 : t double) (e' : Engine double) (ds : list Z)
    (m : Model.t double) : Prop := {
  cp_engine : speaks_with s4 e' /\ ms e' = ms e /\ used e (duration_iw (global e'));
  cp_durations : frames_for (ms e) (cstr (Label.getQuery l)) (duration_iw (global e')) ds;
  cp_model : Layout.built m /\ Model.durations m = fitted ds /\ get_model s4 = Ok m;
  cp_labels : LabelQueue.contents (labelQueue s4) = rest /\ labelSpeed s4 = labelSpeed s;
  cp_memory : ModelQueue.modelQueueMemory (modelQueue s4) = ModelQueue.modelQueueMemory (modelQueue s);
  cp_slots : Forall slot_ok (MemQueue.rawData (mqueue s4));
  cp_queue : MemQueue.contents (mqueue s4) = MemQueue.contents (mqueue s) ++ [m];
  cp_frames : frameQueue s4 = frameQueue s;
  cp_same : interpolationFlag s4 = false /\ action s4 = noaction /\ flag s4 = flag s;
  cp_mage : mage_full s4
}.

(** the stages before the synthesis, one after the other *)
Lemma stages_yields s e l rest :
  mage_ok s -> Forall slot_ok (MemQueue.rawData (mqueue s)) -> interpolationFlag s = false ->
  action s = noaction -> speaks_with s e -> LabelQueue.contents (labelQueue s) = l :: rest ->
  plain (Label.setSpeed l (labelSpeed s)) -> has_frames e l ->
  exists s1 s2 s3 s4 e' ds m, popLabel s = Ok (true, s1) /\ prepareModel s1 = Ok s2 /\
    computeDuration s2 = Ok s3 /\ computeParameters s3 = Ok s4 /\ computed s e l rest s4 e' ds m.
Proof.
  intros W A Hi Ha He Cl Hp Hd.
  destruct (popLabel_yields s l rest W Cl) as ([b s1] & E1 & Eb & lq & Es1).
  cbn [fst snd] in Eb, Es1. subst b.
  pose proof (popLabel_inv _ _ _ E1 W) as (l0 & Cl0 & lq' & Es1' & Wl & Ll).
  rewrite Cl in Cl0. injection Cl0 as _ Cl0. subst s1.
  apply (f_equal labelQueue) in Es1'. cbn in Es1'. subst lq'.
  set (s1 := s <| labelQueue := lq |> <| label := Label.setSpeed l (labelSpeed s) |>) in *.
  assert (W1 : mage_ok s1) by keep_inv W.
  destruct (prepareModel_yields s1 e W1 A He) as (s2 & E2 & m2 & e2 & F2 & Ha2 & He2 & Ems & Hu).
  destruct (Hd _ Hu) as (ds & Hds).
  pose proof (fl_queues _ _ _ F2) as (_ & _ & El & _ & _ & _).
  destruct (computeDuration_yields s1 s2 m2 e2 ds) as (s3 & E3 & m3 & F3 & Ha3 & He3 & El3 & Hf3 & D3);
    try done; [by rewrite Ha2|by rewrite El|by rewrite El, Ems|].
  destruct (computeParameters_yields s1 s3 m3 e2) as (s4 & E4 & m & Bm & Dm & He4 & M4 & A4 & Q4 &
    I4 & Sp4 & Ha4 & Fl4 & W4 & G4 & C4); try done.
  { rewrite El3, El. apply Hp. }
  destruct (computeParameters_inv _ _ _ E4 (fl_building _ _ _ F3) Hf3) as (_ & _ & _ & Lq4 & _).
  exists s1, s2, s3, s4, e2, ds, m. split_and!; try done. split; try done.
  - by rewrite Dm, D3.
  - rewrite Lq4. destruct (fl_queues _ _ _ F3) as (-> & _). by rewrite <-Cl0.
  - rewrite Ha4. by split_and!.
  - eapply computeParameters_ok; [exact E4|]. apply (fl_building _ _ _ F3).
Qed.

(** the stages one after the other *)
Lemma run_stages s e l rest :
  speaker s -> speaks_with s e -> LabelQueue.contents (labelQueue s) = l :: rest ->
  plain (Label.setSpeed l (labelSpeed s)) -> has_frames e l ->
  zlen (MemQueue.contents (frameQueue s)) + maxDuration <= maxFrameQueueLen ->
  yields (run mlsacheck s) (fun s' => exists frs, spoken e l s' frs /\
    interpolationFlag s' = false /\ labelSpeed s' = labelSpeed s /\ action s' = noaction /\
    Forall slot_ok (MemQueue.rawData (mqueue s')) /\
    Forall Layout.built (MemQueue.contents (mqueue s')) /\
    Layout.memory_ok (ModelQueue.modelQueueMemory (modelQueue s')) /\
    ModelQueue.fq_ok (frameQueue s') /\
    MemQueue.contents (frameQueue s') = MemQueue.contents (frameQueue s) ++ frs).
Proof.
  intros [W M A B Fr _ Hi Ha] He Cl Hp Hd Hroom.
  destruct (stages_yields s e l rest W A Hi Ha He Cl Hp Hd) as
    (s1 & s2 & s3 & s4 & e2 & ds & m & E1 & E2 & E3 & E4 & [(He4 & Ems & Hu) Hds (Bm & Dm & G4)
      (_ & Sp4) M4 A4 C4 Q4 (I4 & Ha4 & Fl4) W4]).
  unfold run. rewrite E1, bind_Ok, E2, bind_Ok, E3, bind_Ok, E4, bind_Ok.
  assert (Hdur : Model.duration m = Duration.zsum (fitted ds) /\ Model.duration m <= maxDuration).
  { destruct Bm as [(_ & _ & Es & ?) _]. by rewrite Dm in Es. }
  pose proof (ok_window _ W) as Hw. pose proof (ok_flag _ W) as Hfl.
  pose proof (MemQueue.zlen_contents _ (ok_models _ W)) as No.
  change (nOfLookup + nOfBackup) with nOfBackup in Hw, Hfl.
  destruct (optimizeParameters_yields s4 e2 m (MemQueue.contents (mqueue s))) as
    (s5 & E5 & frs & Z0 & Z1 & Z2 & Z3 & Zs & Z4 & Z5 & Z6 & Z7 & Z8 & Z9 & Z10 & Z11); try done.
  - by rewrite M4.
  - apply W4.
  - apply Forall_app. split; [exact B|by constructor].
  - by rewrite No.
  - rewrite Fl4, No. exact Hfl.
  - rewrite Q4. split; [apply W|exact Fr].
  - rewrite Q4, (ok_frames_cap _ W). lia.
  - exists s5. split; [done|]. exists frs. split.
    { exists e2, ds, m. split; [destruct He4 as (Ho & iw & Ef); split; [done|exists iw; by rewrite Z1, Z2]|].
      repeat (split; [done|]).
      split; [unfold get_model in G4 |- *; rewrite Z0; unfold mqueue in Z5; by rewrite Z5|].
      split; [done|]. split; [|done]. rewrite Z10. apply Hdur. }
    split; [congruence|]. split; [exact (eq_trans Zs Sp4)|]. split; [congruence|]. split; [by rewrite Z5|].
    split; [done|]. split; [done|]. split; [done|]. by rewrite Z9, Q4.
Qed.

Lemma run_yields s e l rest :
  speaker s -> speaks_with s e -> LabelQueue.contents (labelQueue s) = l :: rest ->
  plain (Label.setSpeed l (labelSpeed s)) -> has_frames e l ->
  zlen (MemQueue.contents (frameQueue s)) + maxDuration <= maxFrameQueueLen ->
  yields (run mlsacheck s) (fun s' => speaker s' /\
    LabelQueue.contents (labelQueue s') = rest /\ labelSpeed s' = labelSpeed s /\
    exists frs, spoken e l s' frs /\
      MemQueue.contents (frameQueue s') = MemQueue.contents (frameQueue s) ++ frs).
Proof.
  intros Sp He Cl Hp Hd Hroom. pose proof (sp_mage _ Sp) as W.
  destruct (run_stages s e l rest Sp He Cl Hp Hd Hroom) as
    (s' & E & frs & Sk & I' & L' & A' & R' & B' & M' & Q' & C').
  pose proof (run_inv _ _ _ E W) as [W' R]. rewrite Cl in R. destruct R as (Cl' & _).
  exists s'. split; [done|]. split; [|split; [done|split; [done|by exists frs]]].
  split; try done; [apply Q'|]. destruct Sk as (e' & _ & _ & He' & _). by exists e'.
Qed.

(** ** The clock between two runs *)

(** what only the clock changes *)
Definition clock (s : t double) : Z * Z * Vocoder.t double := (hopLen s, sampleCount s, vocoder s).

Lemma on_model_clock f s s' : on_model f s = Ok s' -> clock s' = clock s.
Proof.
  unfold on_model. destruct (model s); [|done]. intros E.
  apply bind_inv_Ok in E as (raw & _ & E). by injection E as <-.
Qed.

Lemma synthesise_clock e b s s' : synthesise mlsacheck e b s = Ok s' -> clock s' = clock s.
Proof.
  intros E. apply bind_inv_Ok in E as (mq & _ & E). apply bind_inv_Ok in E as (fq & _ & E).
  by injection E as <-.
Qed.

Lemma popLabel_clock s b s' : popLabel s = Ok (b, s') -> clock s' = clock s.
Proof.
  unfold popLabel. intros E. destruct (negb _); [|by injection E as _ <-].
  apply bind_inv_Ok in E as ([l q] & _ & E). by injection E as _ <-.
Qed.

Lemma stages_clock s b s1 s2 s3 s4 :
  popLabel s = Ok (b, s1) -> prepareModel s1 = Ok s2 -> computeDuration s2 = Ok s3 ->
  computeParameters s3 = Ok s4 -> clock s4 = clock s.
Proof.
  intros E1 E2 E3 E4. apply popLabel_clock in E1 as C1.
  assert (clock s2 = clock s1) as C2.
  { unfold prepareModel in E2. cbn zeta in E2. destruct (map_find _ _) as [[iw e]|]; [|done].
    apply bind_inv_Ok in E2 as (m & _ & E2). apply bind_inv_Ok in E2 as ([m1 e1] & _ & E2).
    by apply on_model_clock in E2. }
  assert (clock s3 = clock s2) as C3.
  { apply bind_inv_Ok in E3 as (vs & _ & E3). apply bind_inv_Ok in E3 as (s2' & E3' & E3).
    injection E3 as <-. by apply on_model_clock in E3'. }
  assert (clock s4 = clock s3) as C4.
  { apply bind_inv_Ok in E4 as (vs & _ & E4). apply bind_inv_Ok in E4 as (s3' & E4' & E4).
    apply bind_inv_Ok in E4 as (q & _ & E4). injection E4 as <-. by apply on_model_clock in E4'. }
  congruence.
Qed.

Lemma run_clock s s' : run mlsacheck s = Ok s' -> clock s' = clock s.
Proof.
  unfold run. intros E. apply bind_inv_Ok in E as ([b s1] & E1 & E).
  destruct b; [|injection E as <-; by eapply popLabel_clock].
  apply bind_inv_Ok in E as (s2 & E2 & E). apply bind_inv_Ok in E as (s3 & E3 & E).
  apply bind_inv_Ok in E as (s4 & E4 & E). pose proof (stages_clock _ _ _ _ _ _ E1 E2 E3 E4) as C4.
  assert (clock s' = clock s4) as C5; [|congruence].
  unfold optimizeParameters in E. cbn zeta in E. destruct (_ <? _).
  - apply bind_inv_Ok in E as (e & _ & E). apply bind_inv_Ok in E as (s5 & E5 & E).
    apply bind_inv_Ok in E as (q & _ & E). injection E as <-. by apply synthesise_clock in E5.
  - destruct (_ && _); [|by injection E as <-].
    apply bind_inv_Ok in E as (e & _ & E). by apply synthesise_clock in E.
Qed.

(** a synthesiser between two samples *)
Definition ticking (s : t double) : Prop := Vocoder.wf (vocoder s) /\ 0 <= sampleCount s < hopLen s.

(** what a sample leaves alone: the engines, the labels and their speed *)
Definition same_voice (s s' : t double) : Prop :=
  engine s' = engine s /\ defaultEngine s' = defaultEngine s /\
  labelQueue s' = labelQueue s /\ labelSpeed s' = labelSpeed s.

Lemma same_voice_trans s1 s2 s3 : same_voice s1 s2 -> same_voice s2 s3 -> same_voice s1 s3.
Proof. unfold same_voice. intros (-> & -> & -> & ->). done. Qed.

Lemma same_voice_speaks s s' e : same_voice s s' -> speaks_with s e -> speaks_with s' e.
Proof. intros (Ee & Ed & _) (Ho & iw & Ef). split; [done|]. exists iw. by rewrite Ee, Ed. Qed.

(** the pops since the last frame *)
Definition pops_since (s : t double) : Z := Vocoder.nOfPopSinceLastPush (vocoder s).

(** *** The part of the state the samples come from *)

(** the frame queue, the clock and the vocoder *)
Record audio (s : t double) : Prop := {
  au_frames : MemQueue.wf (frameQueue s);
  au_cap : MemQueue.qlength (frameQueue s) = maxFrameQueueLen;
  au_dims : Forall (fun fr => Vocoder.frame_dims (Vocoder.streams fr)) (MemQueue.rawData (frameQueue s));
  au_hop : 1 <= hopLen s <= defaultFrameRate * 20;
  au_count : 0 <= sampleCount s < defaultFrameRate * 20;
  au_vocoder : Vocoder.wf (vocoder s)
}.

Definition with_audio (s : t double) (q : MemQueue.t (Vocoder.frame double)) (v : Vocoder.t double)
    (h c : Z) : t double :=
  s <| frameQueue := q |> <| vocoder := v |> <| hopLen := h |> <| sampleCount := c |>.
(** [s'] differs from [s] in that part only *)
Definition audio_step (s s' : t double) : Prop := exists q v h c, s' = with_audio s q v h c.

Lemma audio_refl s : audio_step s s.
Proof. exists (frameQueue s), (vocoder s), (hopLen s), (sampleCount s). by destruct s. Qed.
Lemma audio_trans s1 s2 s3 : audio_step s1 s2 -> audio_step s2 s3 -> audio_step s1 s3.
Proof. intros (? & ? & ? & ? & ->) (q & v & h & c & ->). by exists q, v, h, c. Qed.

Lemma audio_mage {w} s s' : mage_at w s -> audio_step s s' -> audio s' -> mage_at w s'.
Proof. intros [] (q & v & h & c & ->) []. by split. Qed.

Lemma mage_audio {w} s :
  mage_at w s -> Forall (fun fr => Vocoder.frame_dims (Vocoder.streams fr)) (MemQueue.rawData (frameQueue s)) ->
  Vocoder.wf (vocoder s) -> audio s.
Proof. intros [] Fr V. by split. Qed.

Lemma speaker_audio s s' : speaker s -> audio_step s s' -> audio s' -> speaker s'.
Proof.
  intros [W M A B _ E Hi Ha] St Au. pose proof (audio_mage _ _ W St Au) as W'.
  destruct St as (q & v & h & c & ->). destruct Au. by split.
Qed.

Lemma audio_same_voice s s' : audio_step s s' -> same_voice s s'.
Proof. by intros (q & v & h & c & ->). Qed.

Lemma push_frame_yields s :
  audio s ->
  yields (if negb (MemQueue.isEmpty (frameQueue s)) then
        fr ← MemQueue.get (frameQueue s); v ← Vocoder.push (vocoder s) fr false;
        q ← MemQueue.pop (frameQueue s) 1; Ok (s <| vocoder := v |> <| frameQueue := q |>)
      else Ok s) (fun s1 => exists v q, s1 = s <| vocoder := v |> <| frameQueue := q |> /\
        Vocoder.wf v /\ Vocoder.nOfPopSinceLastPush v <= pops_since s /\
        MemQueue.wf q /\ MemQueue.qlength q = MemQueue.qlength (frameQueue s) /\
        MemQueue.rawData q = MemQueue.rawData (frameQueue s)).
Proof.
  intros [W _ Fr _ _ V]. destruct (negb _).
  - destruct (yields_rd (MemQueue.rawData (frameQueue s)) (MemQueue.qread (frameQueue s)))
      as (fr & Er & Xr); [destruct W; lia|].
    unfold MemQueue.get. rewrite Er, bind_Ok.
    rewrite Forall_lookup in Fr. specialize (Fr _ _ Xr).
    destruct (Vocoder.prepare_yields (vocoder s) (Vocoder.streams fr) (Vocoder.fvoiced fr) false V)
      as (v & Ev & Wv & Nv & _); [by apply Vocoder.frame_dims_ok|].
    unfold Vocoder.push. rewrite Ev, bind_Ok.
    destruct (MemQueue.pop_spec (frameQueue s) 1 W ltac:(done)) as (q & Eq & Wq & Lq & _ & Rq).
    rewrite Eq, bind_Ok. apply yields_ok. exists v, q. pose proof (Vocoder.wf_pops _ V).
    unfold pops_since. rewrite Nv. by split_and!; try lia.
  - apply yields_ok. exists (vocoder s), (frameQueue s). split; [by destruct s|].
    split; [exact V|]. split; [unfold pops_since; lia|]. by split.
Qed.

Lemma updateSamples_audio s :
  audio s -> yields (updateSamples s) (fun s' => audio s' /\ audio_step s s' /\
    sampleCount s' < hopLen s' /\ pops_since s' <= pops_since s).
Proof.
  intros Au. pose proof Au as [W L Fr Hh Hc V].
  change (defaultFrameRate * 20) with 4800 in Hh, Hc. unfold updateSamples.
  rewrite (i32_ok (hopLen s - 1)), bind_Ok by lia. destruct (Z.leb_spec (hopLen s - 1) (sampleCount s)) as [Hl|Hl].
  - eapply yields_bind; [by apply push_frame_yields|].
    intros s1 (v & q & -> & Wv & Nv & Wq & Lq & Rq). apply yields_ok. split_and!.
    + split; try done; cbn; [congruence|by rewrite Rq].
    + by exists q, v, (hopLen s), 0.
    + cbn. lia.
    + exact Nv.
  - rewrite i32_ok, bind_Ok by lia. apply yields_ok. split_and!; [|..|cbn; lia|done].
    + split; try done. cbn. change (defaultFrameRate * 20) with 4800. lia.
    + by exists (frameQueue s), (vocoder s), (hopLen s), (sampleCount s + 1).
Qed.

Lemma updateSamples_yields s :
  speaker s -> Vocoder.wf (vocoder s) ->
  yields (updateSamples s) (fun s' => speaker s' /\ ticking s' /\ same_voice s s' /\
    pops_since s' <= pops_since s).
Proof.
  intros Sp V. pose proof (mage_audio _ (sp_mage _ Sp) (sp_frames _ Sp) V) as Au.
  eapply yields_mono; [by apply updateSamples_audio|]. intros s' (Au' & St & Hc & N).
  split; [by eapply speaker_audio|]. split; [|split; [by apply audio_same_voice|done]].
  split; [apply Au'|]. pose proof (au_count _ Au'). lia.
Qed.

Lemma update_times_yields n s :
  speaker s -> ticking s ->
  yields (update_times n s) (fun s' => speaker s' /\ ticking s' /\ same_voice s s').
Proof.
  revert s. induction n as [|n IH]; intros s Sp T; cbn [update_times]; [by apply yields_ok|].
  eapply yields_bind; [by apply updateSamples_yields; [|apply T]|].
  intros s1 (Sp1 & T1 & V1 & _). eapply yields_mono; [by apply IH|].
  intros s2 (Sp2 & T2 & V2). split_and!; try done. by eapply same_voice_trans.
Qed.

(** ** Labels one after the other *)

(** [n] rounds of the two threads: a run, and the samples of the longest model;
    the frames of each round *)
Fixpoint speak (n : nat) (s : t double) : Res (list (list (Vocoder.frame double)) * t double) :=
  match n with
  | O => Ok ([], s)
  | S n =>
      s ← run mlsacheck s;
      let frs := MemQueue.contents (frameQueue s) in
      s ← update_times (Z.to_nat (hopLen s * maxDuration)) s;
      '(rest, s) ← speak n s; Ok (frs :: rest, s)
  end.

(** the weights in [P] stay in [P] when they are normalised *)
Definition settled (v : Voice double) (P : list double -> Prop) : Prop :=
  forall iw iw', P iw -> Model.normalise iw (duration_interpolation_size v) = Ok iw' -> P iw'.

(** the voice has a frame count for the label, whatever the weights in [P] *)
Definition covered (v : Voice double) (P : list double -> Prop) (l : Label.t double) : Prop :=
  forall iw, P iw -> exists ds, frames_for v (cstr (Label.getQuery l)) iw ds.

(** the frames of a label: as many as the voice says, unless they do not fit *)
Definition voiced_as (v : Voice double) (P : list double -> Prop) (l : Label.t double)
    (frs : list (Vocoder.frame double)) : Prop :=
  exists iw ds, P iw /\ frames_for v (cstr (Label.getQuery l)) iw ds /\
    zlen frs = Duration.zsum (fitted ds) /\ 0 < zlen frs <= maxDuration.

Lemma share_pos x t : 1 <= x -> 0 < t -> 0 <= x * 170 / t /\ (x * 170 / t = 0 -> x * 170 < t).
Proof. intros Hx Ht. split; [apply Z.div_pos; lia|]. intros E. apply Z.div_small_iff in E; lia. Qed.

Lemma fitted_sum v q iw ds :
  frames_for v q iw ds -> 0 < Duration.zsum (fitted ds) <= maxDuration.
Proof.
  intros Hd. destruct (frames_for_sum _ _ _ _ Hd) as (L & P & Hs). destruct Hd as [R _].
  pose proof (Duration.rounded_pos _ _ _ R) as P1. change nOfStates with 5 in L. unfold zlen in L.
  pose proof (Model.zsum_scaled ds (Duration.zsum ds)) as Sc. unfold fitted.
  rewrite Model.maxDuration_eq in *. case Z.leb_spec; intros Hle.
  - split; [|done]. destruct ds as [|a l]; [done|]. apply Forall_cons in P1 as [P1 _].
    apply Forall_cons in P as [_ P]. pose proof (Duration.zsum_nonneg _ P). cbn in *.
    unfold Duration.zsum in *. lia.
  - specialize (Sc ltac:(lia) P). split; [|by apply Z.mul_le_mono_pos_l with (Duration.zsum ds); lia].
    clear Sc P R. set (t := Duration.zsum ds) in *. assert (Ht : t = Duration.zsum ds) by done.
    clearbody t. destruct ds as [|a [|b [|c [|d [|f [|]]]]]]; cbn in L; try lia.
    rewrite !Forall_cons in P1. cbn in Ht |- *. destruct P1 as (A1 & B1 & C1 & D1 & F1 & _).
    apply (share_pos _ t) in A1, B1, C1, D1, F1; lia.
Qed.

Lemma speak_yields v P labels s e :
  speaker s -> ticking s -> speaks_with s e -> ms e = v -> P (duration_iw (global e)) ->
  settled v P -> LabelQueue.contents (labelQueue s) = labels ->
  MemQueue.contents (frameQueue s) = [] ->
  Forall (fun l => plain (Label.setSpeed l (labelSpeed s)) /\ covered v P l) labels ->
  yields (speak (length labels) s) (fun r => Forall2 (voiced_as v P) labels r.1 /\
    speaker r.2 /\ LabelQueue.contents (labelQueue r.2) = [] /\
    MemQueue.contents (frameQueue r.2) = []).
Proof.
  intros Sp T He Ev Pe Hst Cl Cf Hl. subst v.
  revert s e Sp T He Pe Hst Cl Cf Hl. induction labels as [|l rest IH]; intros; cbn [speak length].
  { by apply yields_ok. }
  apply Forall_cons in Hl as [[Hp Hc] Hl].
  assert (Hpu : forall iw, used e iw -> P iw) by (intros iw [->|En]; [done|by eapply Hst]).
  assert (Hd : has_frames e l) by (intros iw Hu; by apply Hc, Hpu).
  destruct (run_yields s e l rest Sp He Cl Hp Hd) as
    (s1 & E1 & Sp1 & Cl1 & Ls1 & frs & (e1 & ds & m & He1 & Em1 & Hu & Hds & _ & Dm & N & _) & Cf1).
  { by rewrite Cf. }
  rewrite E1, bind_Ok. cbn zeta. pose proof (run_clock _ _ E1) as [= Ch Cs Cv].
  assert (T1 : ticking s1) by (unfold ticking; by rewrite Ch, Cs, Cv).
  destruct (update_times_yields (Z.to_nat (hopLen s1 * maxDuration)) s1 Sp1 T1) as
    (s2 & E2 & Sp2 & T2 & Vs).
  rewrite E2, bind_Ok.
  apply update_times_pacing in E2 as (_ & _ & Cf2); [|apply Sp1|apply T1].
  destruct T1 as [_ Hc1]. rewrite Z2Nat.id in Cf2 by (rewrite Model.maxDuration_eq; lia).
  rewrite Z.add_comm, (Z.mul_comm (hopLen s1)), Z.div_add_l, (Z.div_small (sampleCount s1)) in Cf2 by lia.
  rewrite Cf in Cf1. cbn [app] in Cf1. pose proof (fitted_sum _ _ _ _ Hds) as Hfs.
  rewrite drop_ge in Cf2 by (rewrite Cf1; unfold zlen in N; lia).
  pose proof (same_voice_speaks _ _ _ Vs He1) as He2. destruct Vs as (_ & _ & El & Es).
  pose proof (Hpu _ Hu) as Pe1.
  destruct (IH s2 e1 Sp2 T2 He2) as ([frss s3] & E3 & F3 & Q3); try done.
  - by rewrite Em1.
  - by rewrite El.
  - rewrite Em1, Es, Ls1. exact Hl.
  - rewrite E3, bind_Ok. apply yields_ok. cbn [fst snd] in *. rewrite Em1 in F3. split; [|done].
    constructor; [|done]. exists (duration_iw (global e1)), ds. rewrite Cf1.
    split; [done|]. split; [done|]. split; [done|]. lia.
Qed.

(** ** The synthesiser after its construction *)

Lemma init_speaks fr m frame uf argc argv name iw e s :
  init fr m frame uf argc argv = Ok s -> slot_ok m -> Vocoder.frame_dims (Vocoder.streams fr) ->
  zlen uf = nOfStates -> engine_ok e ->
  let s' := s <| engine := [(name, (iw, e))] |> <| defaultEngine := name |> in
  speaker s' /\ ticking s' /\ speaks_with s' e.
Proof.
  intros E Hm Hf Hu He s'. pose proof (init_ok _ _ _ _ _ _ _ E (proj1 Hm) Hu) as W.
  assert (Sw : speaks_with s' e).
  { split; [done|]. exists iw. cbn. by rewrite String.eqb_refl. }
  split; [|split; [|done]].
  - unfold init in E. apply bind_inv_Ok in E as (v & _ & E). apply bind_inv_Ok in E as (l & _ & E).
    injection E as <-. split; try done.
    + by apply one_engine_ok.
    + apply Layout.create_memory_ok.
    + by apply Forall_replicate.
    + by apply Forall_replicate.
    + by exists e.
  - unfold init in E. apply bind_inv_Ok in E as (v & Ev & E). apply bind_inv_Ok in E as (l & _ & E).
    injection E as <-. split; [|done]. by eapply Vocoder.vocoder_create_wf in Ev.
Qed.

Lemma pushLabel_speaks s l s' e :
  pushLabel s l = Ok s' -> speaker s -> ticking s -> speaks_with s e ->
  speaker s' /\ ticking s' /\ speaks_with s' e /\ labelSpeed s' = labelSpeed s /\
  frameQueue s' = frameQueue s.
Proof.
  intros E Sp T He. pose proof (pushLabel_ok _ _ _ E (sp_mage _ Sp)) as W'.
  unfold pushLabel in E. destruct (negb _); [|by injection E as <-].
  apply bind_inv_Ok in E as (q & _ & E). injection E as <-.
  destruct Sp. by split.
Qed.

(** C3: a run speaks a label.  A synthesiser with a loaded voice, whose trees take
    every label (that of the switch of the global variance too), that takes a
    label whose durations come from the voice, with room for the longest model in
    the frame queue, returns from the run without leaving any array: the label is
    off the queue, its model lasts the rounded mean durations of the voice
    (scaled down when they exceed the frame memory), and that many frames follow
    those in the frame queue, each voiced as its state is.  The synthesiser can
    speak the next label. *)
Theorem run_speaks s e l rest :
  speaker s -> speaks_with s e -> LabelQueue.contents (labelQueue s) = l :: rest ->
  plain (Label.setSpeed l (labelSpeed s)) -> has_frames e l ->
  zlen (MemQueue.contents (frameQueue s)) + maxDuration <= maxFrameQueueLen ->
  yields (run mlsacheck s) (fun s' => speaker s' /\
    LabelQueue.contents (labelQueue s') = rest /\ labelSpeed s' = labelSpeed s /\
    exists frs, spoken e l s' frs /\
      MemQueue.contents (frameQueue s') = MemQueue.contents (frameQueue s) ++ frs).
Proof. apply run_yields. Qed.

End Run.

(** ** Concrete runs *)

Section Runs.
#[local] Existing Instance no_libm.
#[local] Existing Instance Engine.any_files.

Lemma ex_voice_ok : engine_ok ModelQueue.ex_voice.
Proof.
  split; [apply ModelQueue.ex_voice_laws|done|]. split; [done|..]; cbn.
  - intros k Hk. exists [nZ 1]. assert (k = 0 \/ k = 1 \/ k = 2) as [->|[->| ->]] by (change nOfStreams with 3 in Hk; lia); done.
  - done.
Qed.

Lemma ex_voice_frames q iw : frames_for (ms ModelQueue.ex_voice) q iw [1; 1; 1; 1; 1].
Proof.
  split; [|by repeat constructor]. split; [done|]. intros i Hi. change nOfStates with 5 in Hi.
  exists (nZ 1), 1. destruct i as [|[|[|[|[|]]]]]; [..|lia]; (split; [done|]);
    (split; [vm_compute; reflexivity|done]).
Qed.

Lemma ex_slot_ok : slot_ok (Model.blank (F:=double) [0; 0; 0; 0; 0]).
Proof.
  split; [done|]. split; [apply Model.blank_shaped|]. split; [done|].
  split; apply Model.stream_memory_dims.
Qed.

(** the stability check of SPTK, before its tables are made *)
Definition ex_check : list double -> list double :=
  MlsaCheck.checked (fun _ => SpecFloat.S754_nan) (Fft.mkTables None 0).

Lemma ex_check_len row : zlen (ex_check row) = zlen row.
Proof. apply MlsaCheck.checked_len. Qed.

(** a synthesiser with a flat voice and two labels *)
Definition ex_talker : Res (t double) := s ← ex_speaker; pushLabel s Label.create.

Lemma ex_talker_ok (s : t double) :
  ex_talker = Ok s -> speaker s /\ ticking s /\ speaks_with s ModelQueue.ex_voice.
Proof.
  unfold ex_talker. intros E. apply bind_inv_Ok in E as (s2 & E2 & E). unfold ex_speaker in E2.
  apply bind_inv_Ok in E2 as (s0 & E0 & E2). apply (init_speaks _ _ _ _ _ _ "a" (replicate 4 (nZ 1)) ModelQueue.ex_voice) in E0 as (S1 & T1 & K1);
    [|by apply ex_slot_ok|by repeat constructor|done|apply ex_voice_ok].
  apply (pushLabel_speaks _ _ _ _ E2) in K1 as (S2 & T2 & K2 & _); [|done|done].
  by apply (pushLabel_speaks _ _ _ _ E) in K2 as (S3 & T3 & K3 & _).
Qed.

Lemma ex_talker_view (s : t double) : ex_talker = Ok s ->
  LabelQueue.contents (labelQueue s) = [Label.create; Label.create] /\
  MemQueue.contents (frameQueue s) = [] /\ labelSpeed s = nZ 1.
Proof.
  intros E. assert (C : (fun s => (LabelQueue.contents (labelQueue s),
    MemQueue.contents (frameQueue s), labelSpeed s)) <$> ex_talker =
    Ok ([Label.create; Label.create], [], nZ 1)) by (vm_compute; reflexivity).
  rewrite E in C. apply Ok_inj in C. apply pair_equal_spec in C as [C C3].
  by apply pair_equal_spec in C as [C1 C2].
Qed.

Lemma run_speaks_witness :
  exists s : t double, ex_talker = Ok s /\ yields (run ex_check s) (fun s' => speaker s' /\
    LabelQueue.contents (labelQueue s') = [Label.create] /\ labelSpeed s' = labelSpeed s /\
    exists frs, spoken ModelQueue.ex_voice Label.create s' frs /\
      MemQueue.contents (frameQueue s') = MemQueue.contents (frameQueue s) ++ frs).
Proof.
  destruct (is_ok_inv ex_talker) as [s E]; [vm_compute; reflexivity|]. exists s. split; [exact E|].
  destruct (ex_talker_ok s E) as (Sp & T & K). destruct (ex_talker_view s E) as (Cl & Cf & Ls).
  apply (run_speaks ex_check ex_check_len s ModelQueue.ex_voice Label.create [Label.create]
    Sp K Cl).
  - rewrite Ls. split; [reflexivity|]. split; [reflexivity|]. reflexivity.
  - intros iw _. exists [1; 1; 1; 1; 1]. apply ex_voice_frames.
  - rewrite Cf. vm_compute. congruence.
Defined.

End Runs.
End Run.
