(* ===== verification/Thread.v ===== *)
(** * The generation thread, turn by turn

    [Mage.run] in one piece waits for ever when the frame queue is full: in the
    program the audio callback empties the queue meanwhile.  Here a run is cut
    where it waits.  Up to the first frame it touches nothing the callback does
    ([begin_run]); then every turn makes one frame, or sleeps while the queue is
    full ([frame_turn]).  Without a full queue the turns are the run
    ([run_in_turns]); for a voice they return, whatever the callback does to the
    frame queue, the clock and the vocoder in between. *)

From Stdlib Require Import Ascii String.
From S2P Require Import Prelude Num Constants CString Fifo MemQueue LabelQueue Duration Vocoder Label Voice.
From S2P Require Import Model ModelQueue Layout Building Engine Mage Run.
#[local] Open Scope Z_scope.

Module Thread.
Import Mage Building Run.

(** ** A run in turns *)

(** the variables of the loops of [ModelQueue::generate]: the engine, the states
    of the frames to come, one for each, and the frames every stream has used;
    and whether the oldest model leaves the model queue afterwards *)
Record gen (F : Type) := mkGen {
  gengine : Engine F;
  todo : list (Model.state F);
  qStream : list Z;
  leaves : bool
}.
Arguments mkGen {F}. Arguments gengine {F}. Arguments todo {F}. Arguments qStream {F}.
Arguments leaves {F}.
#[global] Instance eta_gen F : Settable (gen F) := fun g =>
  mkGen (gengine g) (todo g) (qStream g) (leaves g).

Section Turns.
Context {F : Type} `{NumOps F}.
Variable mlsacheck : list F -> list F.
Implicit Types s : t F.

(** every state of the head model as often as it lasts *)
Definition frames_todo (m : Model.t F) : list (Model.state F) :=
  concat ((fun st => replicate (Z.to_nat (wrap_u32 (Model.sduration st))) st) <$> Model.states m).

Definition begin_synthesise (e : Engine F) (backup : Z) (last : bool) s : Res (t F * option (gen F)) :=
  mq ← ModelQueue.optimizeParameters e (modelQueue s) backup nOfLookup;
  m ← ModelQueue.model_at mq backup;
  qs ← ModelQueue.skip_models e mq backup;
  Ok (s <| modelQueue := mq |>, Some (mkGen e (frames_todo m) qs last)).

Definition begin_optimize s : Res (t F * option (gen F)) :=
  let n := MemQueue.getNumOfItems (ModelQueue.queue (modelQueue s)) in
  if nOfLookup + nOfBackup <? n then
    e ← default_engine s; begin_synthesise e nOfBackup true (s <| flag := false |>)
  else if (nOfLookup <? n) && flag s then
    e ← default_engine s; begin_synthesise e (n - nOfLookup - 1) false s
  else Ok (s, None).

(** a run, up to its first frame; [None] when there is none to make *)
Definition begin_run s : Res (t F * option (gen F)) :=
  '(popped, s) ← popLabel s;
  if popped : bool then
    s ← prepareModel s;
    s ← computeDuration s;
    s ← computeParameters s;
    begin_optimize s
  else Ok (s, None).

(** what follows the last frame *)
Definition end_run (last : bool) s : Res (t F) :=
  if last then
    q ← MemQueue.pop (ModelQueue.queue (modelQueue s)) 1;
    Ok (s <| modelQueue := (modelQueue s) <| ModelQueue.queue := q |> |>)
  else Ok s.

(** one frame, or a sleep while the queue is full, or the end of the run *)
Definition frame_turn (g : gen F) s : Res (t F * option (gen F)) :=
  match todo g with
  | [] => s ← end_run (leaves g) s; Ok (s, None)
  | st :: rest =>
      if MemQueue.isFull (frameQueue s) then Ok (s, Some g)
      else
        '(fq, qs) ← ModelQueue.generate_frame mlsacheck (gengine g)
                      (ModelQueue.modelQueueMemory (modelQueue s)) st (frameQueue s, qStream g);
        Ok (s <| frameQueue := fq |>, Some (g <| todo := rest |> <| qStream := qs |>))
  end.

(** turns until the run ends: a sleep that nothing ends is [Timeout] *)
Fixpoint frames (e : Engine F) (mem : ModelQueue.memory F) (sts : list (Model.state F))
    (r : ModelQueue.fqueue (F := F) * list Z) : Res (ModelQueue.fqueue (F := F) * list Z) :=
  match sts with
  | [] => Ok r
  | st :: sts => r ← ModelQueue.generate_frame mlsacheck e mem st r; frames e mem sts r
  end.

Definition finish (r : t F * option (gen F)) : Res (t F) :=
  match r with
  | (s, None) => Ok s
  | (s, Some g) =>
      '(fq, _) ← frames (gengine g) (ModelQueue.modelQueueMemory (modelQueue s)) (todo g)
                   (frameQueue s, qStream g);
      end_run (leaves g) (s <| frameQueue := fq |>)
  end.

Fixpoint turns (n : nat) (r : t F * option (gen F)) : Res (t F * option (gen F)) :=
  match n, r with
  | S n, (s, Some g) => r ← frame_turn g s; turns n r
  | _, _ => Ok r
  end.

(** ** The turns are the run *)

Lemma finish_turns r s' :
  finish r = Ok s' -> exists n, turns n r = Ok (s', None).
Proof.
  destruct r as [s [g|]]; [|intros [= <-]; by exists O]. destruct g as [e sts qs last].
  unfold finish. cbn [gengine todo qStream leaves]. intros E. exists (S (length sts)).
  revert s qs E. induction sts as [|st sts IH]; intros s qs E; cbn [frames] in E.
  - rewrite bind_Ok in E. cbn [length turns frame_turn todo leaves].
    replace (s <| frameQueue := frameQueue s |>) with s in E by (by destruct s).
    by rewrite E, !bind_Ok.
  - rewrite bind_assoc in E. apply bind_inv_Ok in E as ([fq qs'] & E1 & E).
    remember (S (length sts)) as k eqn:Ek. cbn [length]. rewrite <-Ek. cbn [turns].
    unfold frame_turn at 1. cbn [todo gengine leaves qStream].
    destruct (MemQueue.isFull (frameQueue s)) eqn:Ef; [cbn in E1; by rewrite Ef in E1|].
    rewrite E1, !bind_Ok. apply (IH (s <| frameQueue := fq |>) qs'). exact E.
Qed.

Lemma frames_app e mem l k r :
  frames e mem (l ++ k) r = (r ← frames e mem l r; frames e mem k r).
Proof.
  revert r. induction l as [|st l IH]; intros r; [done|]. cbn [app frames]. rewrite bind_assoc.
  destruct (ModelQueue.generate_frame _ _ _ _ _); try done. apply IH.
Qed.

Lemma frames_state e mem st (n : nat) lo r :
  for_up lo (lo + Z.of_nat n) (fun _ => ModelQueue.generate_frame mlsacheck e mem st) r
  = frames e mem (replicate n st) r.
Proof.
  revert lo r. induction n as [|n IH]; intros lo r; [by rewrite for_up_nil by lia|].
  rewrite for_up_cons by lia. cbn [replicate frames].
  destruct (ModelQueue.generate_frame _ _ _ _ _) as [r'| | |]; try done. rewrite !bind_Ok, <-(IH (lo + 1)).
  by replace (lo + Z.of_nat (S n)) with (lo + 1 + Z.of_nat n) by lia.
Qed.

Lemma frames_states e mem m (k : nat) i r :
  zlen (Model.states m) = nOfStates -> 0 <= i -> i + Z.of_nat k = nOfStates ->
  for_up i nOfStates (fun j r =>
    st ← Model.getState m j;
    for_up 0 (wrap_u32 (Model.sduration st))
      (fun _ => ModelQueue.generate_frame mlsacheck e mem st) r) r
  = frames e mem (concat ((fun st =>
      replicate (Z.to_nat (wrap_u32 (Model.sduration st))) st) <$> drop (Z.to_nat i) (Model.states m))) r.
Proof.
  intros L. revert i r. induction k as [|k IH]; intros i r Hi Hk.
  { rewrite for_up_nil, drop_ge by (unfold zlen in L; lia). done. }
  rewrite for_up_cons by lia. destruct (yields_rd (Model.states m) i) as (st & E & Est); [lia|].
  change (Model.getState m i) with (rd (Model.states m) i). rewrite E, bind_Ok.
  rewrite (drop_S _ st) by done.
  rewrite fmap_cons. cbn [concat]. rewrite frames_app, <-(frames_state e mem st _ 0).
  assert (0 <= wrap_u32 (Model.sduration st)) by (apply Z.mod_pos_bound; lia).
  rewrite Z.add_0_l, Z2Nat.id by done.
  destruct (for_up 0 _ _ r) as [r'| | |]; try done. rewrite !bind_Ok.
  rewrite IH by lia. by replace (Z.to_nat (i + 1)) with (S (Z.to_nat i)) by lia.
Qed.

(** the models of the pool have their states *)
Definition sized (q : MemQueue.t (Model.t F)) : Prop :=
  Forall (fun m => zlen (Model.states m) = nOfStates) (MemQueue.rawData q).

Lemma generate_frames_todo e q fq backup :
  sized (ModelQueue.queue q) ->
  ModelQueue.generate mlsacheck e q fq backup =
    (m ← ModelQueue.model_at q backup; qs ← ModelQueue.skip_models e q backup;
     '(fq, _) ← frames e (ModelQueue.modelQueueMemory q) (frames_todo m) (fq, qs); Ok fq).
Proof.
  intros A. unfold ModelQueue.generate. destruct (ModelQueue.model_at q backup) as [m| | |] eqn:Em; try done.
  rewrite !bind_Ok. destruct (ModelQueue.skip_models e q backup) as [qs| | |]; try done. rewrite !bind_Ok.
  assert (L : zlen (Model.states m) = nOfStates).
  { unfold ModelQueue.model_at in Em. apply bind_inv_Ok in Em as (i & _ & Em). apply rd_inv in Em as [_ Em].
    unfold sized in A. rewrite Forall_lookup in A. by eapply A. }
  by rewrite (frames_states _ _ m (Z.to_nat nOfStates) 0) by done.
Qed.

Lemma synthesise_turns e backup last s :
  sized (mqueue s) ->
  (s ← synthesise mlsacheck e backup s; end_run last s) = (r ← begin_synthesise e backup last s; finish r).
Proof.
  intros A. unfold synthesise, begin_synthesise.
  destruct (ModelQueue.optimizeParameters e (modelQueue s) backup nOfLookup) as [mq| | |] eqn:Eq; try done.
  rewrite !bind_Ok. rewrite generate_frames_todo.
  2: { unfold ModelQueue.optimizeParameters in Eq. apply bind_inv_Ok in Eq as (vu & _ & Eq).
       apply bind_inv_Ok in Eq as (tot & _ & Eq). apply bind_inv_Ok in Eq as (mem & _ & Eq).
       injection Eq as <-. exact A. }
  destruct (ModelQueue.model_at mq backup) as [m| | |]; try done. rewrite !bind_Ok.
  destruct (ModelQueue.skip_models e mq backup) as [qs| | |]; try done. rewrite !bind_Ok.
  cbn [finish gengine todo qStream leaves]. cbn [modelQueue frameQueue set_field eta_mage].
  destruct (frames _ _ _ _) as [[fq qs']| | |]; try done.
Qed.

Lemma optimize_turns s :
  sized (mqueue s) -> optimizeParameters mlsacheck s = (r ← begin_optimize s; finish r).
Proof.
  intros A. unfold optimizeParameters, begin_optimize. cbn zeta. destruct (_ <? _).
  - destruct (default_engine s) as [e| | |]; try done. rewrite !bind_Ok.
    rewrite <-(synthesise_turns e nOfBackup true (s <| flag := false |>)) by exact A. done.
  - destruct (_ && _); [|done]. destruct (default_engine s) as [e| | |]; try done. rewrite !bind_Ok.
    rewrite <-synthesise_turns by exact A. by destruct (synthesise _ _ _ _).
Qed.
End Turns.

Section Begin.
Context {F : Type} `{NumOps F} `{ModelFiles F}.
Variable strtod_special : string -> F.
Variable mlsacheck : list F -> list F.
Implicit Types s : t F.

Lemma begin_sized s s1 s2 s3 s4 b :
  mage_ok s -> popLabel s = Ok (b, s1) -> prepareModel s1 = Ok s2 -> computeDuration s2 = Ok s3 ->
  computeParameters s3 = Ok s4 -> mage_full s4.
Proof.
  intros W E1 E2 E3 E4. eapply computeParameters_ok; [exact E4|]. eapply computeDuration_ok; [exact E3|].
  eapply prepareModel_ok; [exact E2|]. by eapply popLabel_ok.
Qed.

(** A run is its beginning, and its frames one after the other: whatever it
    returns, the turns of a thread that no full queue stops return. *)
Theorem run_in_turns s :
  mage_ok s -> run mlsacheck s = (r ← begin_run s; finish mlsacheck r).
Proof.
  intros W. unfold run, begin_run. destruct (popLabel s) as [[b s1]| | |] eqn:E1; try done.
  rewrite !bind_Ok. destruct b; [|done].
  destruct (prepareModel s1) as [s2| | |] eqn:E2; try done. rewrite !bind_Ok.
  destruct (computeDuration s2) as [s3| | |] eqn:E3; try done. rewrite !bind_Ok.
  destruct (computeParameters s3) as [s4| | |] eqn:E4; try done. rewrite !bind_Ok.
  apply optimize_turns. exact (ok_states _ (begin_sized _ _ _ _ _ _ W E1 E2 E3 E4)).
Qed.
End Begin.

(** ** The turns of a thread that speaks *)

Section Speaking.
Context `{Libm double}.
Variable mlsacheck : list double -> list double.
Hypothesis mlsacheck_len : forall row, zlen (mlsacheck row) = zlen row.
Implicit Types s : t double.

(** the invariant, whatever the callback leaves of its part *)
Definition mage_rest (w : Z) s : Prop :=
  forall q v h c, MemQueue.wf q -> MemQueue.qlength q = maxFrameQueueLen ->
    1 <= h <= defaultFrameRate * 20 -> 0 <= c < defaultFrameRate * 20 ->
    mage_at w (with_audio s q v h c).

Lemma mage_rest_of w s : mage_at w s -> mage_rest w s.
Proof. intros [] q v h c Wq Lq Hh Hc. by split. Qed.

Lemma rest_mage w s : mage_rest w s -> audio s -> mage_at w s.
Proof.
  intros R []. replace s with (with_audio s (frameQueue s) (vocoder s) (hopLen s) (sampleCount s))
    by (by destruct s). by apply R.
Qed.

(** the beginning of a run neither reads nor writes the part of the callback: it
    commutes with whatever a block does *)
Definition framed {A} (f : t double -> Res (t double * A)) : Prop := forall s q v h c,
  f (with_audio s q v h c) = ('(s', a) ← f s; Ok (with_audio s' q v h c, a)).
Definition framed_step (f : t double -> Res (t double)) : Prop := forall s q v h c,
  f (with_audio s q v h c) = (s' ← f s; Ok (with_audio s' q v h c)).

Lemma on_model_framed f : framed_step (on_model f).
Proof.
  intros s q v h c. unfold on_model. cbn. destruct (model s) as [i|]; [|done].
  by destruct (upd _ _ _).
Qed.

Lemma get_model_audio s q v h c : get_model (with_audio s q v h c) = get_model s.
Proof. done. Qed.

Lemma voices_audio s q v h c : voices (with_audio s q v h c) = voices s.
Proof. done. Qed.

Lemma prepareModel_framed : framed_step prepareModel.
Proof.
  intros s q v h c. unfold prepareModel. cbn [defaultEngine engine with_audio set_field eta_mage].
  destruct (map_find _ _) as [[iw e]|]; [|done].
  set (s1 := s <| model := _ |>).
  match goal with |- context [get_model ?x] => change (get_model x) with (get_model s1) end.
  destruct (get_model s1) as [m| | |]; try done. rewrite !bind_Ok.
  destruct (Model.checkInterpolationWeights m e false) as [[m1 e1]| | |]; try done. rewrite !bind_Ok.
  exact (on_model_framed (fun _ => Ok m1)
    (s1 <| engine := map_insert (defaultEngine s) (iw, e1) (engine s) |>) q v h c).
Qed.

Lemma computeDuration_framed : framed_step computeDuration.
Proof.
  intros s q v h c. unfold computeDuration. rewrite voices_audio.
  destruct (voices s) as [vs| | |]; try done. rewrite !bind_Ok. rewrite on_model_framed.
  cbn [label updateFunction action with_audio set_field eta_mage].
  by destruct (on_model _ s).
Qed.

Lemma computeParameters_framed : framed_step computeParameters.
Proof.
  intros s q v h c. unfold computeParameters. rewrite voices_audio.
  destruct (voices s) as [vs| | |]; try done. rewrite !bind_Ok. rewrite on_model_framed.
  cbn [label with_audio set_field eta_mage].
  destruct (on_model _ s) as [s1| | |]; try done. rewrite !bind_Ok. cbn [modelQueue with_audio set_field eta_mage].
  by destruct (MemQueue.push _ 1).
Qed.

Lemma begin_synthesise_framed e backup last : framed (begin_synthesise e backup last).
Proof.
  intros s q v h c. unfold begin_synthesise. cbn [modelQueue with_audio set_field eta_mage].
  destruct (ModelQueue.optimizeParameters _ _ _ _) as [mq| | |]; try done. rewrite !bind_Ok.
  destruct (ModelQueue.model_at mq backup) as [m| | |]; try done. rewrite !bind_Ok.
  by destruct (ModelQueue.skip_models e mq backup).
Qed.

Lemma begin_optimize_framed : framed begin_optimize.
Proof.
  intros s q v h c. unfold begin_optimize. cbn [modelQueue flag with_audio set_field eta_mage].
  change (default_engine (with_audio s q v h c)) with (default_engine s). cbn zeta.
  destruct (_ <? _).
  - destruct (default_engine s) as [e| | |]; try done. rewrite !bind_Ok.
    match goal with |- begin_synthesise _ _ _ ?x = _ =>
      change x with (with_audio (s <| flag := false |>) q v h c) end.
    apply begin_synthesise_framed.
  - destruct (_ && _); [|done]. destruct (default_engine s) as [e| | |]; try done. rewrite !bind_Ok.
    apply begin_synthesise_framed.
Qed.

Lemma begin_run_framed : framed begin_run.
Proof.
  intros s q v h c. unfold begin_run, popLabel. cbn [labelQueue labelSpeed with_audio set_field eta_mage].
  destruct (negb _); [|done]. destruct (LabelQueue.pop_label _) as [[l lq]| | |]; try done.
  rewrite !bind_Ok. set (s1 := s <| labelQueue := lq |> <| label := Label.setSpeed l (labelSpeed s) |>).
  match goal with |- context [prepareModel ?x] => change x with (with_audio s1 q v h c) end.
  rewrite prepareModel_framed.
  destruct (prepareModel s1) as [s2| | |]; try done. rewrite !bind_Ok, computeDuration_framed.
  destruct (computeDuration s2) as [s3| | |]; try done. rewrite !bind_Ok, computeParameters_framed.
  destruct (computeParameters s3) as [s4| | |]; try done. rewrite !bind_Ok. apply begin_optimize_framed.
Qed.

(** a synthesiser that can speak, without the part the callback changes *)
Record talker (w : Z) s : Prop := {
  tk_mage : mage_rest w s;
  tk_memory : Layout.memory_ok (ModelQueue.modelQueueMemory (modelQueue s));
  tk_slots : Forall slot_ok (MemQueue.rawData (mqueue s));
  tk_models : Forall Layout.built (MemQueue.contents (mqueue s));
  tk_alone : interpolationFlag s = false;
  tk_action : action s = noaction
}.

Lemma talker_audio w s s' : talker w s -> audio_step s s' -> talker w s'.
Proof. intros [R M A B Hi Ha] (q & v & h & c & ->). by split. Qed.

(** a thread inside [ModelQueue::generate] *)
Record generating (g : gen double) s : Prop := {
  gn_talker : talker (held (leaves g)) s;
  gn_full : leaves g = true -> MemQueue.nOfItems (mqueue s) = held true;
  gn_voice : VoiceLaws (ms (gengine g));
  gn_threshold : zlen (msd_threshold (global (gengine g))) = nOfStreams;
  gn_states : Forall ModelQueue.state_ok (todo g);
  gn_counts : exists n, 0 <= n /\ ModelQueue.counters n (qStream g) /\
    n + zlen (todo g) < maxNumOfFrames
}.

Lemma generating_audio g s s' : generating g s -> audio_step s s' -> generating g s'.
Proof.
  intros [T N V Th S C] St. pose proof (talker_audio _ _ _ T St). destruct St as (q & v & h & c & ->).
  by split.
Qed.

(** the frames to come of a model fit its duration *)
Lemma todo_states (m : Model.t double) :
  ModelQueue.model_ok m ->
  Forall ModelQueue.state_ok (frames_todo m) /\ zlen (frames_todo m) <= maxDuration.
Proof.
  intros Hm. pose proof Hm as [(L & P & S & D) A]. split.
  - unfold frames_todo. apply Forall_concat, Forall_fmap. eapply Forall_impl; [exact A|].
    intros st Hst. by apply Forall_replicate.
  - rewrite <-S in D. etransitivity; [|exact D]. unfold frames_todo, Model.durations in *.
    clear -P D. rewrite Model.maxDuration_eq in D.
    assert (B : forall l : list (Model.state double), Forall (fun st => 0 <= Model.sduration st) l -> Duration.zsum (Model.sduration <$> l) < 2 ^ 32 ->
      zlen (concat ((fun st => replicate (Z.to_nat (wrap_u32 (Model.sduration st))) st) <$> l))
        = Duration.zsum (Model.sduration <$> l :> list Z)).
    { clear. induction 1 as [|st l Hst Hl IH]; intros Hb; [done|]. rewrite !fmap_cons in *. cbn [concat].
      change (Duration.zsum (Model.sduration st :: (Model.sduration <$> l)))
        with (Model.sduration st + Duration.zsum (Model.sduration <$> l)) in *.
      assert (0 <= Duration.zsum (Model.sduration <$> l))
        by (by apply Duration.zsum_nonneg, Forall_fmap).
      rewrite zlen_app, zlen_replicate, wrap_u32_small, IH by lia. lia. }
    rewrite Forall_fmap in P. by rewrite B; [| |lia].
Qed.

(** what the beginning of a run leaves alone *)
Definition begun s s' (rest : list (Label.t double)) : Prop :=
  frameQueue s' = frameQueue s /\ clock s' = clock s /\
  LabelQueue.contents (labelQueue s') = rest /\ labelSpeed s' = labelSpeed s.

Lemma begin_synthesise_yields s e backup last m :
  engine_ok e -> talker (held last) s -> audio s ->
  (last = true -> MemQueue.nOfItems (mqueue s) = held true) ->
  0 <= backup <= nOfBackup -> MemQueue.contents (mqueue s) !! Z.to_nat backup = Some m ->
  yields (begin_synthesise e backup last s) (fun r => exists mq g,
    r = (s <| modelQueue := mq |>, Some g) /\ generating g (s <| modelQueue := mq |>) /\
    leaves g = last).
Proof.
  intros [V Th _] T Au Hlast Hb Em. pose proof T as [R M A B Hi Ha].
  pose proof (ok_models _ (rest_mage _ _ R Au)) as W. unfold begin_synthesise.
  assert (Hn : backup < MemQueue.nOfItems (mqueue s)).
  { rewrite <-(MemQueue.zlen_contents _ W). apply lookup_lt_Some in Em. unfold zlen. lia. }
  eapply yields_bind.
  { apply (Layout.window_yields e V Th (modelQueue s) backup nOfLookup); [|lia|done].
    split; [done|]. change nOfLookup with 0. change nOfBackup with 2 in Hb. split; [|done].
    fold (mqueue s). lia. }
  intros mq (Hq & Mq & _). assert (Bm : Forall ModelQueue.model_ok (MemQueue.contents (mqueue s))).
  { eapply Forall_impl; [exact B|]. intros x. apply Layout.built_model_ok. }
  rewrite (ModelQueue.model_at_contents mq backup m), bind_Ok by (rewrite ?Hq; (done || lia)).
  eapply yields_bind.
  { apply (ModelQueue.skip_models_counters e Th mq backup); rewrite ?Hq; done. }
  intros qs Hqs. apply yields_ok. eexists _, _. split; [done|]. split; [|done].
  assert (Hm : ModelQueue.model_ok m) by (rewrite Forall_lookup in Bm; by eapply Bm).
  destruct (todo_states m Hm) as [Ts Tl]. split; cbn [leaves gengine todo qStream]; try done.
  - split; try done; [|unfold mqueue; cbn; by rewrite Hq..].
    intros q v h c Wq Lq Hh Hc. pose proof (R q v h c Wq Lq Hh Hc) as [].
    split; try assumption; unfold mqueue in *; cbn in *; rewrite ?Hq; assumption.
  - intros E. unfold mqueue. cbn. rewrite Hq. by apply Hlast.
  - exists (backup * maxDuration). rewrite Model.maxDuration_eq in *. change nOfBackup with 2 in Hb.
    split; [lia|]. split; [done|]. change maxNumOfFrames with 512. lia.
Qed.

(** the window of a computed model: the beginning of its synthesis *)
Lemma begin_optimize_yields s e m old :
  speaks_with s e -> talker (held true) s -> audio s ->
  MemQueue.contents (mqueue s) = old ++ [m] -> zlen old <= nOfBackup ->
  flag s = true \/ zlen old = nOfBackup ->
  yields (begin_optimize s) (fun r => exists mq g fl,
    r = (s <| modelQueue := mq |> <| flag := fl |>, Some g) /\ generating g r.1).
Proof.
  intros (He & iw & Ef) T Au C Ho Hfl. pose proof T as [R M A B Hi Ha]. pose proof (zlen_nonneg old).
  pose proof (rest_mage _ _ R Au) as W. pose proof (ok_models _ W) as Wq.
  assert (N : MemQueue.nOfItems (mqueue s) = zlen old + 1)
    by (rewrite <-(MemQueue.zlen_contents _ Wq), C, zlen_app; done).
  assert (Em : MemQueue.contents (mqueue s) !! Z.to_nat (zlen old) = Some m).
  { rewrite C. unfold zlen. rewrite Nat2Z.id. by apply list_lookup_middle. }
  unfold begin_optimize. fold (mqueue s). rewrite MemQueue.getNumOfItems_wf, N by done.
  change nOfBackup with 2 in *. change nOfLookup with 0. cbn zeta.
  assert (D : default_engine s = Ok e) by (unfold default_engine; by rewrite Ef).
  destruct (Z.ltb_spec (0 + 2) (zlen old + 1)) as [H3|H3].
  - rewrite D, bind_Ok. replace (zlen old) with 2 in * by lia.
    set (s1 := s <| flag := false |>).
    assert (T1 : talker (held true) s1).
    { split; try done. intros q v h c Q1 Q2 Q3 Q4. pose proof (R q v h c Q1 Q2 Q3 Q4) as [].
      split; try assumption. right. change (MemQueue.nOfItems (mqueue s) = 3). lia. }
    assert (Au1 : audio s1) by (destruct Au; by split).
    eapply yields_mono; [by apply (begin_synthesise_yields s1 e 2 true m)|].
    intros r (mq & g & -> & G & _). by exists mq, g, false.
  - assert (flag s = true) as Hf by (destruct Hfl; [done|lia]). rewrite Hf.
    rewrite (proj2 (Z.ltb_lt 0 (zlen old + 1))) by lia. cbn [andb]. rewrite D, bind_Ok.
    replace (zlen old + 1 - 0 - 1) with (zlen old) by lia.
    assert (T1 : talker (held false) s).
    { split; try done. intros q v h c Q1 Q2 Q3 Q4. pose proof (R q v h c Q1 Q2 Q3 Q4) as [].
      split; try assumption; [|by left]. change (MemQueue.nOfItems (mqueue s) <= 2). lia. }
    eapply yields_mono; [by apply (begin_synthesise_yields s e (zlen old) false m)|].
    intros r (mq & g & -> & G & _). exists mq, g, true. rewrite <-Hf. cbn [fst].
    replace (s <| modelQueue := mq |> <| flag := flag s |>) with (s <| modelQueue := mq |>)
      by (by destruct s). done.
Qed.

Lemma begin_run_yields s e l rest :
  talker (held false) s -> audio s -> speaks_with s e ->
  LabelQueue.contents (labelQueue s) = l :: rest ->
  plain (Label.setSpeed l (labelSpeed s)) -> has_frames e l ->
  yields (begin_run s) (fun r => exists g e', r.2 = Some g /\ generating g r.1 /\
    begun s r.1 rest /\ speaks_with r.1 e' /\ ms e' = ms e /\ used e (duration_iw (global e'))).
Proof.
  intros T Au He Cl Hp Hd. pose proof T as [R M A B Hi Ha]. pose proof (rest_mage _ _ R Au) as W.
  destruct (stages_yields s e l rest W A Hi Ha He Cl Hp Hd) as
    (s1 & s2 & s3 & s4 & e2 & ds & m & E1 & E2 & E3 & E4 & [(He4 & Ems & Hu) Hds (Bm & Dm & G4)
      (L4 & Sp4) M4 A4 C4 Q4 (I4 & Ha4 & Fl4) W4]).
  unfold begin_run. rewrite E1, bind_Ok, E2, bind_Ok, E3, bind_Ok, E4, bind_Ok.
  pose proof (ok_window _ W) as Hw. pose proof (ok_flag _ W) as Hfl.
  pose proof (MemQueue.zlen_contents _ (ok_models _ W)) as No.
  change (held false) with nOfBackup in Hw, Hfl.
  assert (Ck : clock s4 = clock s) by (by eapply stages_clock).
  assert (T4 : talker (held true) s4).
  { split; try done; [by apply mage_rest_of|by rewrite M4|].
    rewrite C4. apply Forall_app. split; [exact B|by constructor]. }
  assert (Au4 : audio s4).
  { injection Ck as Ch Cc Cv. destruct Au. split; by rewrite ?Q4, ?Ch, ?Cc, ?Cv. }
  eapply yields_mono; [apply (begin_optimize_yields s4 e2 m (MemQueue.contents (mqueue s))); try done|].
  - by rewrite No.
  - rewrite Fl4, No. exact Hfl.
  - intros r (mq & g & fl & -> & G). exists g, e2. cbn [fst snd] in *. split_and!; try done.
Qed.

(** what a turn inside [generate] does to the state *)
Definition same_labels s s' : Prop :=
  engine s' = engine s /\ defaultEngine s' = defaultEngine s /\
  labelQueue s' = labelQueue s /\ labelSpeed s' = labelSpeed s /\ clock s' = clock s.

Lemma end_run_yields g s :
  generating g s -> audio s ->
  yields (end_run (leaves g) s) (fun s' => talker (held false) s' /\ audio s' /\ same_labels s s').
Proof.
  intros [T N V Th S C] Au. pose proof T as [R M A B Hi Ha]. unfold end_run.
  destruct (leaves g); [|by apply yields_ok].
  pose proof (rest_mage _ _ R Au) as W. pose proof (ok_models _ W) as Wq. fold (mqueue s).
  destruct (MemQueue.pop_spec (mqueue s) 1 Wq ltac:(done)) as (q & Eq & Wp & Lp & Cp & Rp).
  rewrite Eq, bind_Ok. apply yields_ok. specialize (N eq_refl).
  assert (Np : MemQueue.nOfItems q = held false).
  { rewrite <-MemQueue.zlen_contents, Cp, zlen_drop, MemQueue.zlen_contents, N by done. done. }
  split; [|split; [destruct Au; by split|done]]. split; try done.
  - intros fq v h c Q1 Q2 Q3 Q4. pose proof (R fq v h c Q1 Q2 Q3 Q4) as [].
    split; try assumption; unfold mqueue in *; cbn in *; rewrite ?Np, ?Lp, ?Rp; try done. by right.
  - change (Forall slot_ok (MemQueue.rawData q)). by rewrite Rp.
  - change (Forall Layout.built (MemQueue.contents q)). rewrite Cp. by apply Forall_drop.
Qed.

Lemma frame_turn_yields g s :
  generating g s -> audio s ->
  yields (frame_turn mlsacheck g s) (fun r => audio r.1 /\ same_labels s r.1 /\
    match r.2 with Some g' => generating g' r.1 | None => talker (held false) r.1 end).
Proof.
  intros G Au. pose proof G as [T N V Th S (n & Hn & Cq & Hb)]. pose proof Au as [Wq Lq Fr Hh Hc Vo].
  unfold frame_turn. destruct (todo g) as [|st rest] eqn:Et.
  { eapply yields_bind; [by apply end_run_yields|]. intros s' (T' & Au' & Sl). by apply yields_ok. }
  destruct (MemQueue.isFull (frameQueue s)) eqn:Ef; [by apply yields_ok|].
  apply Forall_cons in S as [Hst S]. rewrite zlen_cons in Hb. pose proof (zlen_nonneg rest).
  eapply yields_bind.
  { apply (ModelQueue.generate_frame_spec mlsacheck (gengine g) V Th mlsacheck_len _ st (frameQueue s) n []).
    - apply (Layout.mem_par _ (tk_memory _ _ T)).
    - done.
    - done.
    - change (n + 0 < maxNumOfFrames). lia.
    - split; [by split|]. split; [done|]. split; [by rewrite Z.add_0_r|]. exists []. by rewrite app_nil_r.
    - rewrite MemQueue.zlen_contents by done. unfold MemQueue.isFull in Ef.
      rewrite MemQueue.getNumOfItems_wf in Ef by done. apply Z.leb_gt in Ef. change (zlen []) with 0. lia. }
  intros [fq qs] ([Wf Ff] & Lf & Cf & _). apply yields_ok. cbn [fst snd] in *.
  split; [split; try done; cbn; congruence|]. split; [done|].
  assert (St : audio_step s (s <| frameQueue := fq |>)) by (by exists fq, (vocoder s), (hopLen s), (sampleCount s)).
  split; try done.
  - by eapply talker_audio.
  - exists (n + 1). split; [lia|]. split; [exact Cf|]. change (n + 1 + zlen rest < maxNumOfFrames). lia.
Qed.
End Speaking.
End Thread.
