(* ===== verification/Speech.v ===== *)
(** * From the files of a voice to speech

    The composition of the components: a synthesiser is constructed, an engine
    is loaded from files that hold a voice ([HtsLoad]), labels are pushed, and
    the two threads speak them all ([Run]). *)

From Stdlib Require Import Ascii String.
From S2P Require Import Prelude Num Constants CString Fifo MemQueue LabelQueue Vocoder Label Voice.
From S2P Require Import HtsTree HtsModel HtsVoice Model ModelQueue Building Engine HtsLoad Mage Run.
#[local] Open Scope Z_scope.

Module Speech.
Import HtsTree HtsModel HtsVoice HtsLoad Building Mage Run.

(** ** The weights of a loaded engine *)

Section Weights.
Context {F : Type} `{NumOps F}.

Lemma fits_weights_for n (ws : list (list F)) k :
  0 <= n -> fits n (ws !! Z.to_nat k) -> weights_for ws k n.
Proof. intros Hn (w & E & Hw). by exists w. Qed.

Lemma sound_size (st : Stream F) : sound_stream st -> 0 <= interpolation_size st.
Proof. intros [-> _ _ _]. apply zlen_nonneg. Qed.

(** an engine whose weights fit its models can be mixed *)
Lemma voiced_weights g (ms : ModelSet F) : voiced g ms -> complete_set ms -> weights_ok g (voice_of ms).
Proof.
  intros [S W] C. constructor.
  - split; [apply sound_size, S|apply W].
  - intros k Hk. destruct (stream_at ms k C Hk) as (st & X & _ & _ & Es). cbn.
    rewrite Es. apply fits_weights_for; [|by eapply wd_parameter].
    pose proof (st_streams _ S) as A. rewrite Forall_lookup in A. by eapply sound_size, A.
  - intros k Hk _. cbn. unfold gv_stream. destruct (gv ms) as [l|] eqn:Eg.
    + destruct (m_gv _ C l Eg) as [L _]. destruct (yields_rd l k) as (st & -> & X); [by rewrite L|].
      cbn. apply fits_weights_for; [|by eapply wd_gv].
      pose proof (st_gv _ S l Eg) as A. rewrite Forall_lookup in A. by eapply sound_size, A.
    + cbn. pose proof (wd_sizes _ _ W) as [_ L]. pose proof (wd_nstream _ _ W) as N.
      pose proof (m_streams _ C) as M. unfold fits.
      destruct (stream_at ms 2 C) as (st & X & _); [done|]. apply (wd_parameter _ _ W) in X as (w & Ew & _).
      apply lookup_lt_Some in Ew. change (Z.to_nat 2) with 2%nat in Ew. unfold zlen in L.
      destruct (lookup_lt_is_Some_2 (gv_iw g) (Z.to_nat k)) as [w' Ew']; [change nOfStreams with 3 in Hk; lia|].
      exists w'. split; [done|]. split; [done|]. apply zlen_nonneg.
Qed.

Lemma voiced_engine_ok g (ms : ModelSet F) :
  voiced g ms -> mage_set ms -> engine_ok (mkEngine g (voice_of ms)).
Proof.
  intros V M. pose proof (sound_set_complete _ (proj1 V) M) as C. constructor.
  - by apply voice_of_laws.
  - destruct V as [_ W]. cbn. pose proof (wd_sizes _ _ W) as [-> _]. pose proof (wd_nstream _ _ W) as N.
    destruct (stream_at ms 2 C) as (st & X & _); [done|]. apply (wd_parameter _ _ W) in X as (w & Ew & _).
    apply lookup_lt_Some in Ew. change (Z.to_nat 2) with 2%nat in Ew. unfold zlen in *.
    change nOfStreams with 3. lia.
  - by apply voiced_weights.
Qed.

End Weights.

(** ** From construction to speech *)

Section Speech.
Context `{Libm double}.
Variable mlsacheck : list double -> list double.
Hypothesis mlsacheck_len : forall row, zlen (mlsacheck row) = zlen row.
Variable strtod_special : string -> double.
Variable disk : string -> option (list ascii).
Variable buff : string.
Hypothesis buff_ok : token_ok buff.
#[local] Instance files : ModelFiles double := disk_files strtod_special disk buff.

(** the labels are pushed one by one, as the UGen pushes the lines of its buffer *)
Fixpoint push_labels (ls : list (Label.t double)) (s : t double) : Res (t double) :=
  match ls with [] => Ok s | l :: ls => s ← pushLabel s l; push_labels ls s end.

(** the whole: a synthesiser, its engine, its labels, and as many rounds of the
    two threads *)
Definition speech (fr : Vocoder.frame double) (m : Model.t double) (frame : Vocoder.frame double)
    (uf : list double) (argc : Z) (argv : list string) (name : string) (ls : list (Label.t double)) :=
  s ← init fr m frame uf argc argv;
  s ← addEngine strtod_special s name;
  s ← push_labels ls s;
  speak mlsacheck (length ls) s.

Lemma init_yields fr m frame uf argc' argv' :
  yields (init (F:=double) fr m frame uf argc' argv') (fun s => argc s = argc' /\ argv s = argv' /\
    engine s = [] /\ defaultEngine s = "" /\ labelSpeed s = nZ 1 /\
    LabelQueue.contents (labelQueue s) = [] /\ MemQueue.contents (frameQueue s) = []).
Proof.
  unfold init. destruct (is_ok_inv (Vocoder.create_default (F:=double))) as [v Ev]; [by vm_compute|].
  rewrite Ev, bind_Ok.
  destruct (is_ok_inv (LabelQueue.get (LabelQueue.create (Label.create (F:=double)) maxLabelQueueLen)))
    as [l El]; [by vm_compute|].
  rewrite El, bind_Ok. by apply yields_ok.
Qed.

Lemma flagReady_speaks s e :
  speaker s -> ticking s -> speaks_with s e ->
  let s' := s <| flagReady := true |> in speaker s' /\ ticking s' /\ speaks_with s' e.
Proof.
  intros [W M A B Fr E Hi Ha] T K s'. split; [|split; [exact T|exact K]].
  assert (W' : mage_ok s').
  { destruct W. constructor; try assumption. right. destruct K as (_ & iw & X). cbn. by rewrite X. }
  constructor; assumption.
Qed.

(** the engine of the files is in use *)
Lemma addEngine_speaks fr m frame uf argc' argv' name s e :
  init fr m frame uf argc' argv' = Ok s -> slot_ok m -> Vocoder.frame_dims (Vocoder.streams fr) ->
  zlen uf = nOfStates -> argc s = argc' -> argv s = argv' -> engine s = [] -> defaultEngine s = "" ->
  Engine.load_engine strtod_special argc' argv' = Ok e ->
  engine_ok (Engine.handed e) ->
  yields (addEngine strtod_special s name) (fun s' => speaker s' /\ ticking s' /\
    speaks_with s' (Engine.handed e) /\ labelSpeed s' = labelSpeed s /\
    labelQueue s' = labelQueue s /\ frameQueue s' = frameQueue s).
Proof.
  intros Ei Hm Hf Hu Ec Ev Ee Ed El K. unfold addEngine. rewrite Ee. cbn [map_find].
  unfold Engine.load. rewrite Ec, Ev, El, !bind_Ok. cbv zeta. cbn [defaultEngine set_field]. rewrite Ed. cbn [String.eqb].
  apply yields_ok. cbn [map_insert].
  destruct (init_speaks _ _ _ _ _ _ name (replicate (Z.to_nat (nOfStreams + 1)) defaultInterpolationWeight)
    _ _ Ei Hm Hf Hu K) as (Sp & T & Sw).
  destruct (flagReady_speaks _ _ Sp T Sw) as (Sp' & T' & Sw'). by split_and!.
Qed.

(** a label queue that takes labels only changes its contents *)
Record queue_with (q : LabelQueue.t (Label.t double)) (ls : list (Label.t double)) : Prop := {
  qw_wf : LabelQueue.wf q;
  qw_cap : zlen (LabelQueue.queue q) = maxLabelQueueLen;
  qw_labels : LabelQueue.contents q = ls
}.

Lemma queue_of s : mage_ok s -> queue_with (labelQueue s) (LabelQueue.contents (labelQueue s)).
Proof. intros W. split; [apply W|apply W|done]. Qed.

Lemma pushLabel_yields s l ls :
  queue_with (labelQueue s) ls -> zlen ls < maxLabelQueueLen ->
  yields (pushLabel s l) (fun s' => exists q, s' = s <| labelQueue := q |> /\ queue_with q (ls ++ [l])).
Proof.
  intros [W L C] Hn. pose proof (f_full_law (labelQueue s) W) as Hfull.
  pose proof (f_push_law (labelQueue s) l W) as Hpush.
  change (f_cap (labelQueue s)) with (zlen (LabelQueue.queue (labelQueue s))) in *.
  change (f_contents (labelQueue s)) with (LabelQueue.contents (labelQueue s)) in *.
  rewrite L, C in Hfull, Hpush.
  change (f_full (labelQueue s)) with (LabelQueue.isFull (labelQueue s)) in Hfull.
  destruct Hpush as (q & Eq & Wq & Lq & Cq); [lia|]. unfold pushLabel.
  destruct (LabelQueue.isFull (labelQueue s)); [destruct Hfull as [Hfull _]; specialize (Hfull eq_refl); lia|].
  cbn [negb]. change (LabelQueue.push_label (labelQueue s) l) with (f_push (labelQueue s) l).
  rewrite Eq, bind_Ok. apply yields_ok. exists q. split; [done|]. split; [done| |exact Cq].
  change (f_cap q = maxLabelQueueLen). by rewrite Lq.
Qed.

Lemma push_labels_queue ls s ls0 :
  queue_with (labelQueue s) ls0 -> zlen ls0 + zlen ls <= maxLabelQueueLen ->
  yields (push_labels ls s) (fun s' => exists q,
    s' = s <| labelQueue := q |> /\ queue_with q (ls0 ++ ls)).
Proof.
  revert s ls0. induction ls as [|l ls IH]; intros s ls0 Q Hl; cbn [push_labels].
  { apply yields_ok. exists (labelQueue s). rewrite app_nil_r. split; [by destruct s|done]. }
  rewrite zlen_cons in Hl. pose proof (zlen_nonneg ls).
  eapply yields_bind; [apply (pushLabel_yields s l ls0 Q); lia|]. intros s1 (q & -> & Q1).
  eapply yields_mono; [apply (IH _ (ls0 ++ [l])); [exact Q1|rewrite zlen_snoc; lia]|].
  intros s2 (q2 & -> & Q2). exists q2. split; [done|]. by rewrite <-app_assoc in Q2.
Qed.

Lemma queued_speaks s q ls e :
  queue_with q ls -> speaker s -> ticking s -> speaks_with s e ->
  let s' := s <| labelQueue := q |> in speaker s' /\ ticking s' /\ speaks_with s' e.
Proof.
  intros [Wq Lq _] [W M A B Fr E Hi Ha] T K s'. split; [|split; [exact T|exact K]].
  assert (W' : mage_ok s') by (destruct W; constructor; assumption). constructor; assumption.
Qed.

Lemma push_labels_yields ls s e :
  speaker s -> ticking s -> speaks_with s e ->
  zlen (LabelQueue.contents (labelQueue s)) + zlen ls <= maxLabelQueueLen ->
  yields (push_labels ls s) (fun s' => speaker s' /\ ticking s' /\ speaks_with s' e /\
    labelSpeed s' = labelSpeed s /\ frameQueue s' = frameQueue s /\
    LabelQueue.contents (labelQueue s') = LabelQueue.contents (labelQueue s) ++ ls).
Proof.
  intros Sp T K Hl. eapply yields_mono.
  { eapply push_labels_queue; [apply queue_of, Sp|exact Hl]. }
  intros s' (q & -> & Q). destruct (queued_speaks s q _ e Q Sp T K) as (Sp1 & T1 & K1).
  split_and!; try done. apply Q.
Qed.


End Speech.

(** ** The voice of small files speaks *)

#[local] Existing Instance no_libm.

Definition ex_weights (iw : list double) : Prop := iw = duration_iw ex_settings.

Lemma ex_covered : covered (voice_of ex_models) ex_weights Label.create.
Proof.
  intros iw ->. exists [3; 3; 3; 3; 3]. split; [|by repeat constructor]. split; [done|].
  intros i Hi. change nOfStates with 5 in Hi. exists (nZ 3), 3.
  destruct i as [|[|[|[|[|]]]]]; [..|lia]; (split; [done|]);
    (split; [vm_compute; reflexivity|done]).
Qed.

Lemma ex_settled : settled (voice_of ex_models) ex_weights.
Proof.
  intros iw iw' -> E. assert (X : Model.normalise (duration_iw ex_settings)
    (duration_interpolation_size (voice_of ex_models)) = Ok (duration_iw ex_settings))
    by (vm_compute; reflexivity).
  rewrite X in E. apply Ok_inj in E. by symmetry.
Qed.

End Speech.
