(* ===== verification/SCMage.v ===== *)
(** * The UGen (SCMage/SCMage.cpp)

    The SuperCollider unit that runs a [Mage]: labels come from a sound buffer
    whose samples are characters, a thread turns labels into frames, and the
    audio callback turns frames into samples. *)

From Stdlib Require Import Ascii String.
From S2P Require Import Prelude Num Constants CString Fifo MemQueue LabelQueue Vocoder Label.
From S2P Require Import Voice Model ModelQueue Engine Mage.
#[local] Open Scope Z_scope.

Module SCMage.
Section SCMage.
Context {F : Type} `{NumOps F} `{ModelFiles F}.
#[local] Open Scope num_scope.
#[local] Open Scope Z_scope.
Variable strtod_special : string -> F.
Variable mlsacheck : list F -> list F.
(** the product of two [float]s *)
Variable fmul : F -> F -> F.

(** ** Labels of a sound buffer *)

(** SndBuf: the data, interleaved *)
Record sndbuf := mkBuf { data : list F; samples : Z; channels : Z }.

(** [char character = bufData[bufIndex]] *)
Definition to_char (x : F) : Res ascii :=
  match ntrunc x with
  | Some z => check ((-128 <=? z) && (z <=? 127)) BadConversion ;;
              Ok (ascii_of_nat (Z.to_nat (z `mod` 256)))
  | None => Undef BadConversion
  end.

(** the state of the loop: the intermediate buffer, [charIndex], the static
    strings of Label.cpp and the synthesiser *)
Record reader := mkReader {
  stringBuf : list ascii;
  charIndex : Z;
  rst : Label.statics;
  rmage : Mage.t F
}.
#[local] Instance eta_reader : Settable reader := fun r =>
  mkReader (stringBuf r) (charIndex r) (rst r) (rmage r).

(** [std::string( stringBuf, charIndex )] *)
Definition labelString (r : reader) : string :=
  string_of_list_ascii (take (Z.to_nat (charIndex r)) (stringBuf r)).

(** one character that is not NUL *)
Definition read_char (character : ascii) (r : reader) : Res reader :=
  buf ← (if charIndex r <? maxStrLen then wr (stringBuf r) (charIndex r) character
         else Ok (stringBuf r));
  let r := r <| stringBuf := buf |> in
  if Ascii.eqb character newline then
    '(label, st) ← Label.of_string strtod_special (rst r) (labelString r);
    m ← Mage.pushLabel (rmage r) label;
    Ok (r <| rst := st |> <| rmage := m |> <| charIndex := 0 |>)
  else
    Ok (if charIndex r <? maxStrLen then r <| charIndex := charIndex r + 1 |> else r).

Fixpoint read_buffer (fuel : nat) (b : sndbuf) (bufIndex : Z) (r : reader) : Res reader :=
  match fuel with
  | O => Timeout
  | S fuel =>
      if bufIndex <? samples b then
        x ← rd (data b) bufIndex;
        c ← to_char x;
        if Ascii.eqb c NUL then Ok r
        else r ← read_char c r; i ← i32 (bufIndex + channels b); read_buffer fuel b i r
      else Ok r
  end.

(** [stringBuf0]: what the allocated block holds *)
Definition pushLabelsFromSndBuf (b : sndbuf) (stringBuf0 : list ascii) (st : Label.statics)
    (m : Mage.t F) : Res (Label.statics * Mage.t F) :=
  r ← read_buffer (S (Z.to_nat (samples b))) b 0 (mkReader stringBuf0 0 st m);
  Ok (rst r, rmage r).

(** ** The unit *)

(** where the constructor takes the labels from *)
Inductive source := NoBuffer | WorldBuffer (i : Z) | LocalBuffer (i : Z).

Definition select_buffer (bufnum mNumSndBufs localBufNum' : Z) : source :=
  if 0 <=? bufnum then
    if mNumSndBufs <=? bufnum then
      let localBufNum := bufnum - mNumSndBufs in
      if localBufNum <=? localBufNum' then LocalBuffer localBufNum else WorldBuffer 0
    else WorldBuffer bufnum
  else NoBuffer.

(** struct SCMage *)
Record t := mk {
  mage : Mage.t F;
  freqValue : F;
  freqAction : F
}.
#[local] Instance eta_scmage : Settable t := fun u => mk (mage u) (freqValue u) (freqAction u).

(** the world a unit is built in: its buffers, those of its graph and their
    number *)
Record world := mkWorld {
  mSndBufs : list sndbuf;
  mNumSndBufs : Z;
  mLocalSndBufs : list sndbuf;
  localBufNum : Z
}.

Definition Ctor (w : world) (in0 : F) (stringBuf0 : list ascii) (st : Label.statics)
    (m : Mage.t F) : Res (Label.statics * t) :=
  bufnum ← to_int in0;
  '(st, m) ← match select_buffer bufnum (mNumSndBufs w) (localBufNum w) with
             | NoBuffer => Ok (st, m)
             | WorldBuffer i => b ← rd (mSndBufs w) i; pushLabelsFromSndBuf b stringBuf0 st m
             | LocalBuffer i => b ← rd (mLocalSndBufs w) i; pushLabelsFromSndBuf b stringBuf0 st m
             end;
  Ok (st, mk m (nZ 0) (nZ noaction)).

(** one sample; [noise] is the random number of the vocoder *)
Definition sample (noise : F) (m : Mage.t F) : Res (F * Mage.t F) :=
  m ← Mage.updateSamples m; Mage.popSamples noise m.

Fixpoint fill (noises : list F) (m : Mage.t F) : Res (list F * Mage.t F) :=
  match noises with
  | [] => Ok ([], m)
  | noise :: noises =>
      '(x, m) ← sample noise m; '(out, m) ← fill noises m; Ok (x :: out, m)
  end.

(** the audio callback: [noises] has one entry per sample of the block *)
Definition next (in1 in2 in3 in4 : F) (noises : list F) (u : t) : Res (list F * t) :=
  let u := u <| freqValue := in1 |> <| freqAction := in2 |> in
  m ← (if Mage.ready (mage u) then
         m ← Mage.setSpeed (mage u) (fmul in3 (nZ defaultFrameRate)) overwrite;
         Ok (Mage.setAlpha m in4)
       else Ok (mage u));
  '(out, m) ← fill noises m;
  Ok (out, u <| mage := m |>).

(** *** The thread *)

Definition prefix : string := "/home/we/vox/mage/data/cmu-arctic/voices/".

Definition mage_argv_strings (voiceName : string) : list string :=
  let file s := (prefix ++ voiceName ++ s)%string in
  ["-s"; "48000"; "-p"; "240"; "-a"; "0.55";
   "-td"; file "/tree-dur.inf"; "-tm"; file "/tree-mgc.inf";
   "-tf"; file "/tree-lf0.inf"; "-tl"; file "/tree-lpf.inf";
   "-md"; file "/dur.pdf"; "-mm"; file "/mgc.pdf"; "-mf"; file "/lf0.pdf"; "-ml"; file "/lpf.pdf";
   "-dm"; file "/mgc.win1"; "-dm"; file "/mgc.win2"; "-dm"; file "/mgc.win3";
   "-df"; file "/lf0.win1"; "-df"; file "/lf0.win2"; "-df"; file "/lf0.win3";
   "-dl"; file "/lpf.win1";
   "-em"; file "/tree-gv-mgc.inf"; "-ef"; file "/tree-gv-lf0.inf";
   "-cm"; file "/gv-mgc.pdf"; "-cf"; file "/gv-lf0.pdf"; "-k"; file "/gv-switch.inf"; ""]%string.

(** every argument is copied into an array of [maxStrLen] bytes *)
Fixpoint copy_all (l : list string) : Res (list string) :=
  match l with
  | [] => Ok []
  | s :: l => s ← strcpy maxStrLen s; l ← copy_all l; Ok (s :: l)
  end.

Definition addVoice (voiceName : string) (u : t) : Res t :=
  argv ← copy_all (mage_argv_strings voiceName);
  m ← Mage.addEngine_args strtod_special (mage u) voiceName 47 argv;
  Ok (u <| mage := m |>).

Definition voice_name (voiceNum : Z) : string :=
  if voiceNum =? 0 then "awb" else if voiceNum =? 1 then "bdl" else if voiceNum =? 2 then "clb"
  else if voiceNum =? 3 then "jmk" else if voiceNum =? 4 then "rms" else "slt".

(** what the thread does before its loop *)
Definition gen_start (in5 : F) (u : t) : Res t :=
  voiceNum ← to_int in5; addVoice (voice_name voiceNum) u.

(** one iteration of its loop *)
Definition gen_step (u : t) : Res t :=
  if Mage.ready (mage u) then
    m ← Mage.run mlsacheck (mage u);
    a ← to_int (freqAction u);
    Ok (u <| mage := Mage.setPitch m (freqValue u) a |>)
  else Ok u.

(** the unit while it runs: the callback and the thread take turns *)
Inductive step : t -> t -> Prop :=
  | step_next in1 in2 in3 in4 noises u out u' :
      next in1 in2 in3 in4 noises u = Ok (out, u') -> step u u'
  | step_start in5 u u' : gen_start in5 u = Ok u' -> step u u'
  | step_gen u u' : gen_step u = Ok u' -> step u u'.
(** ** Lines *)

(** one label line, as the reader treats it *)
Definition push_line (r : Label.statics * Mage.t F) (line : string)
    : Res (Label.statics * Mage.t F) :=
  '(label, st) ← Label.of_string strtod_special r.1 line;
  m ← Mage.pushLabel r.2 label;
  Ok (st, m).

Fixpoint push_lines (lines : list string) (r : Label.statics * Mage.t F)
    : Res (Label.statics * Mage.t F) :=
  match lines with
  | [] => Ok r
  | line :: lines => r ← push_line r line; push_lines lines r
  end.

(** the characters of the first channel *)
Definition holds (b : sndbuf) (text : list ascii) : Prop :=
  0 < channels b /\ samples b = channels b * zlen text /\ samples b < 2 ^ 31 /\
  forall (k : nat) c, text !! k = Some c ->
    exists x, data b !! Z.to_nat (channels b * Z.of_nat k) = Some x /\ to_char x = Ok c.

Fixpoint read_chars (cs : list ascii) (r : reader) : Res reader :=
  match cs with
  | [] => Ok r
  | c :: cs => r ← read_char c r; read_chars cs r
  end.

Lemma read_chars_app l k r :
  read_chars (l ++ k) r = (r ← read_chars l r; read_chars k r).
Proof.
  revert r. induction l as [|c l IH]; intros r; [done|]. cbn [app read_chars].
  rewrite bind_assoc. destruct (read_char c r); try done. apply IH.
Qed.

Lemma read_buffer_chars b text cs (k : nat) r fuel :
  holds b text -> Forall (fun c => c <> NUL) text -> drop k text = cs ->
  (length cs < fuel)%nat -> (k <= length text)%nat ->
  read_buffer fuel b (channels b * Z.of_nat k) r = read_chars cs r.
Proof.
  intros (Hc & Hs & Hm & Hd) Hn. revert k r fuel. induction cs as [|c cs IH];
    intros k r [|fuel] Ek Hf Hk; try (cbn in Hf; lia); cbn [read_buffer read_chars].
  - apply (f_equal length) in Ek. rewrite length_drop in Ek. cbn in Ek.
    rewrite (proj2 (Z.ltb_ge _ _)); [done|]. unfold zlen in Hs. nia.
  - assert (Et : text !! k = Some c) by (rewrite <-(Nat.add_0_r k), <-lookup_drop, Ek; done).
    pose proof (lookup_lt_Some _ _ _ Et) as Hlt.
    destruct (Hd k c Et) as (x & Ex & Ec).
    rewrite (proj2 (Z.ltb_lt _ _)) by (unfold zlen in Hs; nia).
    rewrite (rd_ok _ _ x), bind_Ok by (done || nia). rewrite Ec, bind_Ok.
    rewrite Forall_lookup in Hn. pose proof (Hn _ _ Et) as Hc0. cbn beta in Hc0.
    apply Ascii.eqb_neq in Hc0. rewrite Hc0.
    destruct (read_char c r) as [r'| | |]; try done. rewrite !bind_Ok.
    rewrite i32_ok, bind_Ok by (unfold zlen in Hs; nia).
    replace (channels b * Z.of_nat k + channels b) with (channels b * Z.of_nat (S k)) by lia.
    apply IH; [|cbn in Hf; lia|lia].
    rewrite <-(Nat.add_1_r k), <-drop_drop, Ek. done.
Qed.

(** characters of a line: they are stored while there is room *)
Lemma read_plain cs r :
  Forall (fun c => c <> newline) cs -> zlen (stringBuf r) = maxStrLen ->
  0 <= charIndex r <= maxStrLen ->
  exists r', read_chars cs r = Ok r' /\ rst r' = rst r /\ rmage r' = rmage r /\
    zlen (stringBuf r') = maxStrLen /\ 0 <= charIndex r' <= maxStrLen /\
    (charIndex r + zlen cs <= maxStrLen ->
       charIndex r' = charIndex r + zlen cs /\
       take (Z.to_nat (charIndex r')) (stringBuf r') =
         take (Z.to_nat (charIndex r)) (stringBuf r) ++ cs).
Proof.
  intros Hn. revert r. induction Hn as [|c cs Hc Hcs IH]; intros r Hb Hi.
  { exists r. do 4 (split; [done|]). split; [done|]. intros _. cbn [zlen length].
    rewrite app_nil_r. split; [unfold zlen; cbn; lia|done]. }
  cbn [read_chars]. unfold read_char. apply Ascii.eqb_neq in Hc.
  destruct (Z.ltb_spec (charIndex r) maxStrLen) as [Hlt|Hge].
  - rewrite wr_ok, bind_Ok by lia. cbn zeta. rewrite Hc. cbn [charIndex set_field eta_reader].
    rewrite (proj2 (Z.ltb_lt _ _) Hlt), bind_Ok.
    edestruct IH as (r' & E & E1 & E2 & L & B & G); [| |exists r'; split; [exact E|]].
    + cbn. by rewrite zlen_insert.
    + cbn. lia.
    + do 4 (split; [done|]). cbn [charIndex stringBuf set_field eta_reader] in G.
      intros Hr. unfold zlen in Hr, G, Hb, L |- *. cbn [length] in Hr |- *. destruct G as [G1 G2]; [lia|].
      split; [lia|]. rewrite G2.
      replace (Z.to_nat (charIndex r + 1)) with (S (Z.to_nat (charIndex r))) by lia.
      rewrite (take_S_r _ _ c) by (apply list_lookup_insert_eq; lia).
      by rewrite take_insert_ge, <-app_assoc by lia.
  - rewrite bind_Ok. cbn zeta. rewrite Hc. cbn [charIndex set_field eta_reader].
    rewrite (proj2 (Z.ltb_ge _ _) Hge), bind_Ok.
    edestruct IH as (r' & E & E1 & E2 & L & B & G); [| |exists r'; split; [exact E|]]; [done|done|].
    do 4 (split; [done|]). intros Hr. unfold zlen in Hr. cbn [length] in Hr. lia.
Qed.

(** a line that fits the buffer is pushed as it is *)
Lemma read_line line r :
  Forall (fun c => c <> newline) (list_ascii_of_string line) ->
  str_len line < maxStrLen -> zlen (stringBuf r) = maxStrLen -> charIndex r = 0 ->
  read_chars (list_ascii_of_string line ++ [newline]) r =
    ('(st, m) ← push_line (rst r, rmage r) line;
     r' ← read_chars (list_ascii_of_string line) r;
     Ok (mkReader (<[String.length line := newline]> (stringBuf r')) 0 st m)).
Proof.
  intros Hn Hl Hb Hi. rewrite read_chars_app.
  destruct (read_plain _ r Hn Hb ltac:(rewrite Hi; done)) as (r' & -> & E1 & E2 & L & B & G).
  rewrite bind_Ok. cbn [read_chars].
  assert (Ln : zlen (list_ascii_of_string line) = str_len line).
  { unfold zlen, str_len. clear. induction line; cbn in *; lia. }
  destruct G as [G1 G2]; [lia|]. rewrite Hi, Ln, Z.add_0_l in G1. rewrite Hi, G1 in G2. cbn [take Z.to_nat app] in G2.
  unfold read_char. rewrite G1. rewrite (proj2 (Z.ltb_lt _ _) Hl).
  assert (0 <= str_len line) by (unfold str_len; lia).
  rewrite wr_ok, bind_Ok by lia. cbn zeta. rewrite Ascii.eqb_refl.
  assert (Els : labelString (r' <| stringBuf :=
      <[Z.to_nat (str_len line):=newline]> (stringBuf r') |>) = line).
  { unfold labelString. cbn [charIndex stringBuf set_field eta_reader]. rewrite G1.
    rewrite take_insert_ge by lia. rewrite G2.
    apply string_of_list_ascii_of_string. }
  rewrite Els. cbn [rst rmage set_field eta_reader]. rewrite E1, E2. unfold push_line. cbn [fst snd].
  destruct (Label.of_string _ _ _) as [[label st']| | |]; try done. rewrite !bind_Ok.
  destruct (Mage.pushLabel _ _) as [m| | |]; try done. rewrite !bind_Ok. unfold str_len.
  rewrite Nat2Z.id. done.
Qed.

(** a buffer whose first channel holds the lines, each of less than 1024
    characters and with its newline, and a last piece without one *)
Record holds_lines (b : sndbuf) (lines : list string) (tail : list ascii) : Prop := {
  hl_text : holds b (concat ((fun l => list_ascii_of_string l ++ [newline]) <$> lines) ++ tail);
  hl_nul : Forall (fun c => c <> NUL)
    (concat ((fun l => list_ascii_of_string l ++ [newline]) <$> lines) ++ tail);
  hl_lines : Forall (fun l => Forall (fun c => c <> newline) (list_ascii_of_string l) /\
    str_len l < maxStrLen) lines;
  hl_tail : Forall (fun c => c <> newline) tail
}.

Lemma lines_pushed b lines tail buf0 st m :
  holds_lines b lines tail -> zlen buf0 = maxStrLen ->
  pushLabelsFromSndBuf b buf0 st m = push_lines lines (st, m).
Proof.
  intros [Hh Hn Hl Ht] Hb. unfold pushLabelsFromSndBuf.
  set (text := concat _ ++ tail) in *.
  pose proof (read_buffer_chars b text text 0 (mkReader buf0 0 st m)
    (S (Z.to_nat (samples b))) Hh Hn eq_refl) as E. rewrite Z.mul_0_r in E. rewrite E; [|destruct Hh as (?&?&?&?); unfold zlen in *; nia|lia].
  clear E Hh Hn. unfold text. clear text.
  set (r := mkReader buf0 0 st m). change (st, m) with (rst r, rmage r).
  assert (L : zlen (stringBuf r) = maxStrLen) by done. assert (I : charIndex r = 0) by done.
  clearbody r. clear buf0 Hb st m. revert r L I.
  induction Hl as [|line lines [H1 H2] Hl IH]; intros r L I.
  - cbn [concat fmap list_fmap app push_lines].
    destruct (read_plain tail r Ht L ltac:(rewrite I; done)) as (r' & -> & E1 & E2 & _).
    rewrite bind_Ok, E1, E2. done.
  - rewrite fmap_cons. cbn [concat push_lines]. rewrite <-app_assoc, read_chars_app, read_line by done.
    destruct (push_line _ _) as [[st m]| | |]; try done. rewrite !bind_Ok.
    destruct (read_plain _ r H1 L ltac:(rewrite I; done)) as (r' & -> & _ & _ & L' & _ & _).
    rewrite !bind_Ok.
    apply (IH (mkReader (<[String.length line := newline]> (stringBuf r')) 0 st m)); [|done].
    cbn. by rewrite zlen_insert.
Qed.

(** C33: the labels of a buffer: when the first channel of a sound buffer holds
    lines of less than 1024 characters, each with its newline, and a last piece
    without one, the labels of the lines are parsed and pushed in order; the
    last piece is dropped. *)
Theorem buffer_lines b lines tail buf0 st m :
  holds_lines b lines tail -> zlen buf0 = maxStrLen ->
  pushLabelsFromSndBuf b buf0 st m = push_lines lines (st, m).
Proof. apply lines_pushed. Qed.

(** ** The arguments of a voice *)

(** The argument list of every voice is parsed: one model per parameter,
    low-pass filter models included, 48000 samples a second and 240 a frame.
    Without the empty last argument, which the source notes it cannot leave
    out, the parser reads past the list. *)
Theorem voice_arguments (voiceName : string) :
  let argv := mage_argv_strings voiceName in
  Engine.GetNumInterp 47 argv = Ok 1 /\
  (exists o, Engine.parse strtod_special 1 47 argv = Ok o /\ Engine.counts_ok 1 o = true /\
     Engine.has_lpf o = true /\ Engine.sampling_rate_ o = 48000 /\ Engine.fperiod_ o = 240) /\
  Engine.parse strtod_special 1 46 (take 46 argv) = Undef OutOfBounds.
Proof.
  cbn zeta. split; [vm_compute; reflexivity|]. split; [|vm_compute; reflexivity].
  assert (E : (fun o => (Engine.counts_ok 1 o, Engine.has_lpf o, Engine.sampling_rate_ o,
      Engine.fperiod_ o)) <$> Engine.parse strtod_special 1 47 (mage_argv_strings voiceName)
    = Ok (true, true, 48000, 240)) by (vm_compute; reflexivity).
  destruct (Engine.parse strtod_special 1 47 (mage_argv_strings voiceName)) as [o| | |]; try done.
  apply Ok_inj in E. injection E as E1 E2 E3 E4. by exists o.
Qed.

(** ** Interleavings *)

Lemma fill_ok {w} noises m out m' :
  fill noises m = Ok (out, m') -> Mage.mage_at w m ->
  Mage.mage_at w m' /\ length out = length noises.
Proof.
  revert m out m'. induction noises as [|n noises IH]; intros m out m' E W; cbn [fill] in E.
  { by injection E as <- <-. }
  apply bind_inv_Ok in E as ([x m1] & E1 & E). apply bind_inv_Ok in E as ([xs m2] & E2 & E).
  injection E as <- <-. unfold sample in E1. apply bind_inv_Ok in E1 as (m0 & E0 & E1).
  eapply Mage.updateSamples_ok in E0; [|done]. eapply Mage.popSamples_ok in E1; [|done].
  destruct (IH _ _ _ E2 E1) as [? L]. split; [done|]. cbn. by rewrite L.
Qed.

Lemma setters_ok (m : Mage.t F) (s : Mage.t F -> Mage.t F) c :
  Mage.mage_ok m -> Mage.run_call strtod_special mlsacheck c m = Ok (s m) ->
  Mage.next_pending c false = Some false -> Mage.mage_ok (s m).
Proof. intros W E N. exact (Mage.run_call_ok _ _ c _ _ _ _ E N W). Qed.

(** However the audio callback and the thread take turns, the synthesiser
    stays consistent: its queues are well formed, no model is overwritten, the
    frame length and the sample count stay within their bounds, and it is ready
    only with an engine; and the callback fills its block with as many samples
    as it was asked for. *)
Theorem interleavings_ok (u u' : t) :
  Mage.mage_ok (mage u) -> rtc step u u' ->
  Mage.mage_ok (mage u') /\
  forall in1 in2 in3 in4 noises out u2,
    next in1 in2 in3 in4 noises u' = Ok (out, u2) -> length out = length noises.
Proof.
  intros W R.
  assert (N : forall in1 in2 in3 in4 noises v out v2, Mage.mage_ok (mage v) ->
    next in1 in2 in3 in4 noises v = Ok (out, v2) ->
    Mage.mage_ok (mage v2) /\ length out = length noises).
  { intros in1 in2 in3 in4 noises v out v2 Wv E. unfold next in E.
    apply bind_inv_Ok in E as (m & Em & E). apply bind_inv_Ok in E as ([xs m'] & Ef & E).
    injection E as <- <-. apply (fill_ok _ _ _ _ Ef).
    cbn [mage set_field eta_scmage] in Em. destruct (Mage.ready (mage v)); [|by injection Em as <-].
    apply bind_inv_Ok in Em as (m1 & E1 & Em). injection Em as <-.
    apply (setters_ok m1 (fun m => Mage.setAlpha m in4) (Mage.SetAlpha in4)); [|done|done].
    exact (Mage.run_call_ok strtod_special mlsacheck (Mage.SetSpeed _ _) false false _ _ E1 eq_refl Wv). }
  assert (W' : Mage.mage_ok (mage u')).
  { induction R as [u|u u1 u' S R IH]; [done|]. apply IH. clear IH R.
    destruct S as [in1 in2 in3 in4 noises u out u1 E|in5 u u1 E|u u1 E].
    - by eapply N.
    - unfold gen_start, addVoice in E. apply bind_inv_Ok in E as (v & _ & E).
      apply bind_inv_Ok in E as (argv & _ & E). apply bind_inv_Ok in E as (m & Em & E).
      injection E as <-.
      exact (Mage.run_call_ok strtod_special mlsacheck (Mage.AddEngineArgs _ _ _) false false _ _ Em eq_refl W).
    - unfold gen_step in E. destruct (Mage.ready (mage u)); [|by injection E as <-].
      apply bind_inv_Ok in E as (m & Em & E). apply bind_inv_Ok in E as (a & _ & E).
      injection E as <-. apply Mage.run_inv in Em as [Wm _]; [|done].
      by apply (setters_ok m (fun m => Mage.setPitch m (freqValue u) a)
        (Mage.SetPitch (freqValue u) a)). }
  split; [done|]. intros. by eapply N.
Qed.
End SCMage.

(** ** Concrete runs *)

Section Runs.
#[local] Existing Instance no_libm.
#[local] Existing Instance Engine.any_files.

(** "ab", "c" and an unfinished "d", in the first of two channels *)
Definition ex_text : list ascii := list_ascii_of_string (String.concat (String newline "") ["ab"; "c"; "d"]).
Definition ex_buf : sndbuf (F:=double) :=
  mkBuf (concat ((fun c => [nZ (Z.of_nat (nat_of_ascii c)); nZ 7]) <$> ex_text)) 12 2.

Lemma ex_buf_holds : holds ex_buf ex_text.
Proof.
  split; [done|]. split; [done|]. split; [done|]. intros k c E.
  do 6 (destruct k as [|k]; [injection E as <-; eexists; split; vm_compute; reflexivity|]).
  done.
Qed.

Lemma buffer_lines_witness :
  exists m, Mage.ex_speaker = Ok m /\
  pushLabelsFromSndBuf Engine.no_special ex_buf (replicate 1024 NUL)
      (Label.mkStatics "" "" "") m =
    push_lines Engine.no_special ["ab"; "c"]%string (Label.mkStatics "" "" "", m) /\
  is_ok (push_lines Engine.no_special ["ab"; "c"]%string (Label.mkStatics "" "" "", m)) = true.
Proof.
  destruct (is_ok_inv (m ← Mage.ex_speaker;
    push_lines Engine.no_special ["ab"; "c"]%string (Label.mkStatics "" "" "", m))) as [r E];
    [vm_compute; reflexivity|].
  apply bind_inv_Ok in E as (m & Em & E). exists m. split; [exact Em|].
  split; [|by rewrite E].
  apply (buffer_lines Engine.no_special ex_buf ["ab"; "c"]%string ["d"%char]
    (replicate 1024 NUL) (Label.mkStatics "" "" "") m).
  - split; [exact ex_buf_holds|by repeat constructor..].
  - reflexivity.
Defined.

(** a ready unit: the thread speaks the label, the callback plays three samples *)
Definition ex_unit (m : Mage.t double) : t (F:=double) :=
  mk (Mage.checkReady m) (nZ 0) (nZ noaction).
Definition ex_noises : list double := [nZ 0; nZ 0; nZ 0].
Definition fmul (x y : double) : double := (x * y)%num.

Lemma interleavings_ok_witness :
  exists m u', Mage.ex_speaker = Ok m /\
    rtc (step Engine.no_special (fun x => x) fmul) (ex_unit m) u' /\ Mage.mage_ok (mage u') /\
    forall in1 in2 in3 in4 noises out u2,
      next fmul in1 in2 in3 in4 noises u' = Ok (out, u2) -> length out = length noises.
Proof.
  destruct (is_ok_inv (m ← Mage.ex_speaker; u1 ← gen_step (fun x => x) (ex_unit m);
    next fmul (nZ 0) (nZ noaction) (nZ 1) (nZ 0) ex_noises u1)) as [[out u2] E];
    [vm_compute; reflexivity|].
  apply bind_inv_Ok in E as (m & Em & E). apply bind_inv_Ok in E as (u1 & E1 & E).
  assert (R : rtc (step Engine.no_special (fun x => x) fmul) (ex_unit m) u2).
  { eapply rtc_l; [eapply step_gen; exact E1|].
    eapply rtc_l; [eapply step_next; exact E|]. reflexivity. }
  exists m, u2. split; [exact Em|]. split; [exact R|].
  exact (interleavings_ok Engine.no_special (fun x => x) fmul (ex_unit m) u2
    (Mage.checkReady_ok m (Mage.ex_speaker_ok m Em)) R).
Defined.
End Runs.
End SCMage.
