(* ===== verification/Playing.v ===== *)
(** * The UGen while it plays

    The composition on the side of the UGen: the constructor reads labels from a
    sound buffer, the thread loads a voice and turns labels into frames, one per
    turn, and the audio callback asks for blocks of samples at any time in
    between.  Any schedule of their turns is safe: no array is left, every block
    is filled with samples in the range of the output, and the labels are taken
    in their order; a turn of the thread that finds the frame queue full sleeps.
    What is left to chance is the conversion of a number to [int]: of a control
    input, or of the period of the pitch. *)

From Stdlib Require Import Ascii String.
From S2P Require Import Prelude Num Constants CString Fifo MemQueue LabelQueue Duration Vocoder Label Voice.
From S2P Require Import HtsTree HtsModel HtsVoice HtsPdf Model ModelQueue Layout Building Engine HtsLoad.
From S2P Require Import Mage Run Thread Speech SCMage.
#[local] Open Scope Z_scope.

Module Playing.
Import HtsTree HtsModel HtsVoice HtsPdf HtsLoad Building Mage Run Thread Speech.

Section Playing.
Context `{Libm double}.
Variable mlsacheck : list double -> list double.
Hypothesis mlsacheck_len : forall row, zlen (mlsacheck row) = zlen row.
Variable strtod_special : string -> double.
Variable disk : string -> option (list ascii).
Variable buff : string.
Hypothesis buff_ok : token_ok buff.
#[local] Instance files : ModelFiles double := disk_files strtod_special disk buff.
(** the product of two [float]s *)
Variable fmul : double -> double -> double.

Implicit Types s : t double.
Implicit Types u : SCMage.t (F := double).

(** ** Turns *)

(** whose turn it is: the callback's, with its inputs and the random numbers of
    the vocoder, one per sample of the block, or the thread's *)
Inductive turn := Block (in1 in2 in3 in4 : double) (noises : list double) | Thread.

(** where the thread is: before it has its voice; at the head of its loop; in
    [run], at a frame; after [run] *)
Inductive place := Loading | Looping | Generating (g : gen double) | Pitching.

(** after a turn of [run] *)
Definition arrive (r : t double * option (gen double)) u : place * SCMage.t (F := double) :=
  (match r.2 with Some g => Generating g | None => Pitching end,
   SCMage.mk r.1 (SCMage.freqValue u) (SCMage.freqAction u)).

(** one turn of [SCMage_genThread]: the voice; [if (unit->mage->ready())] and the
    beginning of a run; a frame; the pitch *)
Definition thread_turn (in5 : double) (p : place) u : Res (place * SCMage.t (F := double)) :=
  match p with
  | Loading => u ← SCMage.gen_start strtod_special in5 u; Ok (Looping, u)
  | Looping =>
      if ready (SCMage.mage u) then r ← begin_run (SCMage.mage u); Ok (arrive r u)
      else Ok (Looping, u)
  | Generating g => r ← frame_turn mlsacheck g (SCMage.mage u); Ok (arrive r u)
  | Pitching =>
      a ← to_int (SCMage.freqAction u);
      Ok (Looping, SCMage.mk (setPitch (SCMage.mage u) (SCMage.freqValue u) a)
                     (SCMage.freqValue u) (SCMage.freqAction u))
  end.

Fixpoint play (in5 : double) (ts : list turn) (p : place) u
    : Res (list double * (place * SCMage.t (F := double))) :=
  match ts with
  | [] => Ok ([], (p, u))
  | Block in1 in2 in3 in4 noises :: ts =>
      '(out, u) ← SCMage.next fmul in1 in2 in3 in4 noises u;
      '(rest, r) ← play in5 ts p u; Ok (out ++ rest, r)
  | Thread :: ts => '(p, u) ← thread_turn in5 p u; play in5 ts p u
  end.

(** the samples the callback is asked for *)
Fixpoint asked (ts : list turn) : Z :=
  match ts with
  | [] => 0
  | Block _ _ _ _ noises :: ts => zlen noises + asked ts
  | Thread :: ts => asked ts
  end.

(** the life of a unit: the construction of its synthesiser, its own, its turns *)
Definition unit_life (fr : Vocoder.frame double) (m : Model.t double) (frame : Vocoder.frame double)
    (uf : list double) (argc : Z) (argv : list string)
    (w : SCMage.world (F := double)) (in0 : double) (buf0 : list ascii) (st : Label.statics)
    (in5 : double) (ts : list turn) : Res (list double * (place * SCMage.t (F := double))) :=
  s ← init fr m frame uf argc argv;
  '(_, u) ← SCMage.Ctor strtod_special w in0 buf0 st s;
  play in5 ts Loading u.

(** *** An iteration of the thread's loop is its turns *)

Lemma play_threads in5 (a b : nat) p u p1 u1 r :
  play in5 (replicate a Thread) p u = Ok ([], (p1, u1)) -> play in5 (replicate b Thread) p1 u1 = Ok r ->
  play in5 (replicate (a + b) Thread) p u = Ok r.
Proof.
  revert p u. induction a as [|a IH]; intros p u E1 E2; cbn [Nat.add replicate play] in *.
  { by injection E1 as -> ->. }
  apply bind_inv_Ok in E1 as ([p2 u2] & E & E1). rewrite E, bind_Ok. by apply IH.
Qed.

Lemma turns_play in5 (n : nat) g s s' u :
  turns mlsacheck n (s, Some g) = Ok (s', None) ->
  exists k, play in5 (replicate k Thread) (Generating g)
      (SCMage.mk s (SCMage.freqValue u) (SCMage.freqAction u))
    = Ok ([], (Pitching, SCMage.mk s' (SCMage.freqValue u) (SCMage.freqAction u))).
Proof.
  revert g s. induction n as [|n IH]; intros g s E; [done|]. cbn [turns] in E.
  apply bind_inv_Ok in E as ([s1 [g1|]] & E1 & E).
  - destruct (IH g1 s1 E) as [k Ek]. exists (S k). cbn [replicate play thread_turn SCMage.mage].
    by rewrite E1, !bind_Ok.
  - assert (s1 = s') as -> by (destruct n; cbn in E; by injection E). exists 1%nat.
    cbn [replicate play thread_turn SCMage.mage]. by rewrite E1, !bind_Ok.
Qed.

(** whatever an iteration of the loop returns, the turns return *)
Theorem iteration_in_turns in5 u u' :
  mage_ok (SCMage.mage u) -> SCMage.gen_step mlsacheck u = Ok u' ->
  exists n, play in5 (replicate n Thread) Looping u = Ok ([], (Looping, u')).
Proof.
  intros W E. unfold SCMage.gen_step in E. destruct (ready (SCMage.mage u)) eqn:Er.
  2: { exists 0%nat. by injection E as <-. }
  apply bind_inv_Ok in E as (m & Em & E). rewrite run_in_turns in Em by done.
  apply bind_inv_Ok in Em as ([s o] & Eb & Em). apply bind_inv_Ok in E as (a & Ea & E). injection E as <-.
  assert (P1 : play in5 (replicate 1 Thread) Looping u = Ok ([], arrive (s, o) u))
    by (cbn [replicate play thread_turn]; by rewrite Er, Eb, !bind_Ok).
  assert (P2 : play in5 (replicate 1 Thread) Pitching (SCMage.mk m (SCMage.freqValue u) (SCMage.freqAction u))
    = Ok ([], (Looping, SCMage.mk (setPitch m (SCMage.freqValue u) a) (SCMage.freqValue u) (SCMage.freqAction u))))
    by (cbn [replicate play thread_turn SCMage.freqAction SCMage.freqValue]; by rewrite Ea, !bind_Ok).
  assert (exists k, play in5 (replicate k Thread) (arrive (s, o) u).1 (arrive (s, o) u).2
    = Ok ([], (Pitching, SCMage.mk m (SCMage.freqValue u) (SCMage.freqAction u)))) as [k P3].
  { destruct o as [g|]; cbn [arrive fst snd].
    - destruct (finish_turns _ _ _ Em) as [n En]. by eapply turns_play.
    - injection Em as ->. by exists 0%nat. }
  exists (1 + (k + 1))%nat. eapply play_threads; [exact P1|]. by eapply play_threads.
Qed.

(** ** Samples *)

Definition conversion (f : fault) : Prop := f = BadConversion.

(** in the range of the output, or not a number *)
Definition clamped (x : double) : Prop :=
  is_nan x = true \/ (nleb (nZ (-1)) x = true /\ nleb x (nZ 1) = true).

(** the part of the callback in order, with [n] samples popped at most since the
    last frame *)
Definition sounding (n : Z) s : Prop := audio s /\ pops_since s <= n.
(** the callback has been there: only its part has changed *)
Definition sounded (n : Z) s s' : Prop := sounding n s' /\ audio_step s s'.

Lemma vocoder_sounding s v n :
  audio s -> Vocoder.wf v -> Vocoder.nOfPopSinceLastPush v <= n -> sounded n s (s <| vocoder := v |>).
Proof.
  intros [] V N. split; [split; [by split|exact N]|].
  by exists (frameQueue s), v, (hopLen s), (sampleCount s).
Qed.

Lemma sounded_after n s s1 s2 : audio_step s s1 -> sounded n s1 s2 -> sounded n s s2.
Proof. intros St [S St']. split; [done|]. by eapply audio_trans. Qed.

Lemma popSamples_may noise s n :
  sounding n s -> n < 2 ^ 31 - 1 ->
  may conversion (popSamples noise s) (fun r => sounded (n + 1) s r.2).
Proof.
  intros (Au & N) Hn. pose proof (au_vocoder _ Au) as V. unfold popSamples. destruct (Vocoder.ready _).
  - eapply may_bind.
    { eapply (may_after _ _ _ (fun r => Vocoder.after_pop (vocoder s) r.2)).
      - apply (Vocoder.pop_may conversion noise (vocoder s) V); [by right|].
        left. unfold pops_since in N. lia.
      - intros [x v] E. exact (Vocoder.pop_coefs noise _ _ _ V E). }
    intros [x v] [Wv (_ & Nv & _)]. cbn [may snd] in *.
    apply vocoder_sounding; try done. unfold pops_since in N. lia.
  - cbn. split; [|apply audio_refl]. split; [done|lia].
Qed.

Lemma sample_may noise s n :
  sounding n s -> n < 2 ^ 31 - 1 ->
  may conversion (SCMage.sample noise s) (fun r => clamped r.1 /\ sounded (n + 1) s r.2).
Proof.
  intros (Au & N) Hn. unfold SCMage.sample.
  eapply may_bind; [by apply may_yields, updateSamples_audio|].
  intros s1 (Au1 & St & _ & N1). eapply may_mono.
  - eapply (may_after _ _ _ (fun r => clamped r.1)).
    + apply (popSamples_may noise s1 n); [|done]. split; [done|lia].
    + intros [x s2] E. by eapply samples_clamped.
  - intros [x s2] [S2 C]. split; [done|]. by eapply sounded_after.
Qed.

(** a block: what the callback writes, and the synthesiser after it *)
Definition block_done (n k : Z) s (r : list double * t double) : Prop :=
  Forall clamped r.1 /\ zlen r.1 = k /\ sounded (n + k) s r.2.

Lemma fill_may noises s n :
  sounding n s -> n + zlen noises < 2 ^ 31 ->
  may conversion (SCMage.fill noises s) (block_done n (zlen noises) s).
Proof.
  revert s n. induction noises as [|noise noises IH]; intros s n S Hn; cbn [SCMage.fill].
  { cbn. split_and!; try done. rewrite Z.add_0_r. split; [done|apply audio_refl]. }
  rewrite zlen_cons in *. pose proof (zlen_nonneg noises).
  eapply may_bind; [apply (sample_may noise s n S); lia|]. intros [x s1] (C & S1 & V1).
  eapply may_bind; [apply (IH s1 (n + 1) S1); lia|]. intros [xs s2] (Cs & L & S2).
  cbn [may fst snd] in *. unfold block_done. cbn [fst snd]. rewrite zlen_cons, L. split_and!; try done.
  - by constructor.
  - replace (n + (zlen noises + 1)) with (n + 1 + zlen noises) by lia. by eapply sounded_after.
Qed.

Lemma setSpeed_may s x n :
  sounding n s -> may conversion (setSpeed s x overwrite) (sounded n s).
Proof.
  intros (Au & N). eapply may_mono.
  - apply (may_after _ _ (fun _ => True) (fun s' => exists h, 1 <= h <= defaultFrameRate * 20 /\
      s' = s <| hopLen := h |>)); [|intros s' E; by apply setSpeed_inv in E].
    unfold setSpeed. change (overwrite =? overwrite) with true. cbn iota.
    eapply may_bind; [by apply Model.to_int_may|]. done.
  - intros s' (_ & h & Hh & ->). split; [|by exists (frameQueue s), (vocoder s), h, (sampleCount s)].
    split; [|done]. destruct Au. by split.
Qed.

Lemma next_may in1 in2 in3 in4 noises u n :
  sounding n (SCMage.mage u) -> n + zlen noises < 2 ^ 31 ->
  may conversion (SCMage.next fmul in1 in2 in3 in4 noises u) (fun r =>
    block_done n (zlen noises) (SCMage.mage u) (r.1, SCMage.mage r.2)).
Proof.
  intros S Hn. unfold SCMage.next. cbn [SCMage.mage set_field SCMage.eta_scmage].
  eapply (may_bind _ _ _ (sounded n (SCMage.mage u))).
  - destruct (ready _); [|split; [done|apply audio_refl]].
    eapply may_bind; [by apply (setSpeed_may _ _ n)|].
    intros m [(Au & N) St]. cbn [may]. eapply sounded_after; [exact St|]. apply vocoder_sounding; try done.
    destruct (au_vocoder _ Au). by constructor.
  - intros m [S1 St]. eapply may_bind; [by apply (fill_may noises m n)|].
    intros [out m'] (C & L & S2). cbn. split_and!; try done. by eapply sounded_after.
Qed.
(** ** The thread *)

Section Thread.
Variable v : Voice double.
Variable P : list double -> Prop.
Hypothesis P_settled : settled v P.

(** the engine in use is the voice [v] *)
Definition voice_in_use s : Prop :=
  exists e, speaks_with s e /\ ms e = v /\ P (duration_iw (global e)).
(** the labels that wait are [ls], which the voice knows *)
Definition known s (ls : list (Label.t double)) : Prop :=
  Forall (fun l => plain (Label.setSpeed l (labelSpeed s)) /\ covered v P l) ls.
Definition labelled s (ls : list (Label.t double)) : Prop :=
  LabelQueue.contents (labelQueue s) = ls /\ known s ls.

(** a synthesiser without an engine, which can speak once it has one *)
Record waiting (ls : list (Label.t double)) s : Prop := {
  wt_engine : engine s = [];
  wt_default : defaultEngine s = "";
  wt_rest : mage_rest (held false) s;
  wt_talker : forall name iw e, engine_ok e ->
    let s' := s <| engine := [(name, (iw, e))] |> <| defaultEngine := name |> <| flagReady := true |> in
    talker (held false) s' /\ speaks_with s' e;
  wt_labels : labelled s ls
}.

(** the state of the thread at its place, with the labels [ls] to come *)
Definition thread_at (p : place) (ls : list (Label.t double)) s : Prop :=
  match p with
  | Loading => waiting ls s
  | Looping | Pitching => talker (held false) s /\ voice_in_use s /\ labelled s ls
  | Generating g => generating g s /\ voice_in_use s /\ labelled s ls
  end.

(** what the callback changes, and what a turn inside [generate] does, is not in
    the way *)
Lemma same_voice_labelled s s' ls : same_voice s s' -> labelled s ls -> labelled s' ls.
Proof. intros (_ & _ & El & Es) [C K]. unfold labelled, known. by rewrite El, Es. Qed.

Lemma same_voice_in_use s s' : same_voice s s' -> voice_in_use s -> voice_in_use s'.
Proof. intros Sv (e & He & Ev & Pe). exists e. split; [by eapply same_voice_speaks|done]. Qed.

Lemma rest_audio w s s' : mage_rest w s -> audio_step s s' -> mage_rest w s'.
Proof. intros R (q & v' & h & c & ->). exact R. Qed.

Lemma thread_audio p ls s s' : thread_at p ls s -> audio_step s s' -> thread_at p ls s'.
Proof.
  intros T St. pose proof (audio_same_voice _ _ St) as Sv.
  destruct p as [| |g|]; cbn [thread_at] in *.
  - destruct T as [E D R S L]. pose proof (same_voice_labelled _ _ _ Sv L). pose proof (rest_audio _ _ _ R St).
    destruct St as (q & v' & h & c & ->). split; try done.
    intros name iw e He s'. destruct (S name iw e He) as [T Sw]. split; [|exact Sw].
    apply (talker_audio _ _ _ T). by exists q, v', h, c.
  - destruct T as (T & V & L). split; [by eapply talker_audio|].
    split; [by eapply same_voice_in_use|by eapply same_voice_labelled].
  - destruct T as (T & V & L). split; [by eapply generating_audio|].
    split; [by eapply same_voice_in_use|by eapply same_voice_labelled].
  - destruct T as (T & V & L). split; [by eapply talker_audio|].
    split; [by eapply same_voice_in_use|by eapply same_voice_labelled].
Qed.

(** the invariant of the synthesiser at every place *)
Definition pending (p : place) : bool := match p with Generating g => leaves g | _ => false end.

Lemma thread_mage p ls s : thread_at p ls s -> audio s -> mage_at (held (pending p)) s.
Proof.
  intros T Au. apply rest_mage; [|done]. destruct p; cbn [thread_at pending] in *.
  - apply T.
  - apply T.
  - apply (gn_talker _ _ (proj1 T)).
  - apply T.
Qed.

Lemma thread_labels p ls s : thread_at p ls s -> LabelQueue.contents (labelQueue s) = ls.
Proof. by destruct p; intros T; cbn [thread_at] in T; [destruct T as [? ? ? ? []]|destruct T as (_ & _ & [])..]. Qed.

(** *** The beginning of a run *)

Lemma begin_idle s : mage_ok s -> LabelQueue.contents (labelQueue s) = [] -> begin_run s = Ok (s, None).
Proof.
  intros W C. unfold begin_run, popLabel.
  pose proof (f_empty_law (Q:=LabelQueue.t (Label.t double)) (labelQueue s)) as E.
  specialize (E (ok_labels _ W)). cbn in E. by rewrite (proj2 E C).
Qed.

(** what a turn of the thread leaves: its state at its new place, and the part of
    the callback *)
Definition turned (n : Z) (ls : list (Label.t double)) (r : place * SCMage.t (F := double)) : Prop :=
  exists k, thread_at r.1 (drop k ls) (SCMage.mage r.2) /\ sounding n (SCMage.mage r.2).

Lemma looping_turn n ls u :
  thread_at Looping ls (SCMage.mage u) -> sounding n (SCMage.mage u) ->
  yields (r ← begin_run (SCMage.mage u); Ok (arrive r u)) (turned n ls).
Proof.
  intros (T & V & C & K) [Au N]. pose proof (rest_mage _ _ (tk_mage _ _ T) Au) as W.
  destruct ls as [|l rest].
  { rewrite begin_idle, bind_Ok by done. apply yields_ok. exists 0%nat. by split. }
  pose proof V as (e & He & Ev & Pe). apply Forall_cons in K as [[Hp Hc] K].
  assert (Hpu : forall iw, used e iw -> P iw) by (rewrite <-Ev in P_settled; intros iw [->|En]; [done|by eapply P_settled]).
  assert (Hd : has_frames e l) by (intros iw Hu; rewrite Ev; by apply Hc, Hpu).
  eapply yields_bind; [by apply (begin_run_yields (SCMage.mage u) e l rest)|].
  intros [s' o] (g & e' & Eo & G & (Fq & Ck & C' & L') & He' & Em & Hu). cbn [fst snd] in *. subst o.
  apply yields_ok. injection Ck as Ch Cc Cv. exists 1%nat. cbn. split.
  - split; [done|]. split; [exists e'; split; [done|split; [congruence|by apply Hpu]]|].
    split; [exact C'|]. unfold known. by rewrite L'.
  - split; [destruct Au; split; by rewrite ?Fq, ?Ch, ?Cc, ?Cv|]. unfold pops_since. by rewrite Cv.
Qed.

Lemma generating_turn n ls g u :
  thread_at (Generating g) ls (SCMage.mage u) -> sounding n (SCMage.mage u) ->
  yields (r ← frame_turn mlsacheck g (SCMage.mage u); Ok (arrive r u)) (turned n ls).
Proof.
  intros (G & V & L) [Au N].
  eapply yields_bind; [by apply (frame_turn_yields mlsacheck mlsacheck_len)|].
  intros [s' o] (Au' & (E1 & E2 & E3 & E4 & Ck) & Hg). cbn [fst snd] in *. apply yields_ok.
  assert (Sv : same_voice (SCMage.mage u) s') by done. exists 0%nat. split.
  - assert (X : voice_in_use s' /\ labelled s' ls)
      by (split; [by eapply same_voice_in_use|by eapply same_voice_labelled]).
    by destruct o as [g'|].
  - split; [done|]. injection Ck as _ _ Cv. cbn. unfold pops_since. by rewrite Cv.
Qed.

Lemma setPitch_pops (w : Vocoder.t double) x a b :
  Vocoder.nOfPopSinceLastPush (Vocoder.setPitch w x a b) = Vocoder.nOfPopSinceLastPush w.
Proof.
  unfold Vocoder.setPitch, Vocoder.update_period. cbn zeta.
  repeat match goal with |- context [if ?c then _ else _] => destruct c end; done.
Qed.

Lemma pitching_turn in5 n ls u :
  thread_at Pitching ls (SCMage.mage u) -> sounding n (SCMage.mage u) ->
  may conversion (thread_turn in5 Pitching u) (turned n ls).
Proof.
  intros T [Au N]. cbn [thread_turn]. eapply may_bind; [by apply Model.to_int_may|]. intros a _. cbn [may].
  destruct (vocoder_sounding (SCMage.mage u)
    (Vocoder.setPitch (vocoder (SCMage.mage u)) (SCMage.freqValue u) a false) n Au) as [S St].
  - apply Vocoder.setPitch_wf, Au.
  - by rewrite setPitch_pops.
  - exists 0%nat. split; [|exact S]. by eapply (thread_audio Looping).
Qed.

(** ** What is played *)

(** what has been played of [ls] when [k] samples were asked for *)
Definition played (ls : list (Label.t double)) (k : Z)
    (r : list double * (place * SCMage.t (F := double))) : Prop :=
  let '(p, u) := r.2 in
  Forall clamped r.1 /\ zlen r.1 = k /\ mage_at (held (pending p)) (SCMage.mage u) /\
  LabelQueue.contents (labelQueue (SCMage.mage u)) `suffix_of` ls.

Lemma asked_nonneg ts : 0 <= asked ts.
Proof.
  induction ts as [|[in1 in2 in3 in4 noises|] ts IH]; cbn; [lia| |done].
  pose proof (zlen_nonneg noises). lia.
Qed.

(** a block before the rest *)
Lemma played_after ls out k j r :
  Forall clamped out -> zlen out = k -> played ls j r -> played ls (k + j) (out ++ r.1, r.2).
Proof.
  destruct r as [xs [p u]]. intros C L (C' & L' & W & S). split_and!; cbn [fst snd] in *; try done.
  - by apply Forall_app.
  - by rewrite zlen_app, L, L'.
Qed.

Section Start.
Variable in5 : double.
Variable voiceNum : Z.
Variable e : Engine.engine (F := double).
Hypothesis Hvoice : to_int in5 = Ok voiceNum.
Hypothesis Hload : Engine.load_engine strtod_special 47
  (SCMage.mage_argv_strings (SCMage.voice_name voiceNum)) = Ok e.
Hypothesis Hengine : engine_ok (Engine.handed e).
Hypothesis Hv : ms (Engine.handed e) = v.
Hypothesis HP : P (duration_iw (Engine.settings e)).

(** every argument fits the array it is copied into *)
Lemma arguments_copied n :
  SCMage.copy_all (SCMage.mage_argv_strings (SCMage.voice_name n)) =
  Ok (SCMage.mage_argv_strings (SCMage.voice_name n)).
Proof.
  unfold SCMage.voice_name.
  repeat (destruct (n =? _); [vm_compute; reflexivity|]). vm_compute. reflexivity.
Qed.

Lemma loading_turn n ls u :
  thread_at Loading ls (SCMage.mage u) -> sounding n (SCMage.mage u) ->
  yields (thread_turn in5 Loading u) (turned n ls).
Proof.
  intros [E D R S L] [Au N]. cbn [thread_turn]. unfold SCMage.gen_start, SCMage.addVoice.
  rewrite Hvoice, bind_Ok, arguments_copied, bind_Ok.
  unfold addEngine_args, addEngine. cbn [engine set_field eta_mage]. rewrite E. cbn [map_find].
  unfold Engine.load. cbn [argc argv set_field eta_mage]. rewrite Hload, !bind_Ok. cbn zeta.
  cbn [defaultEngine set_field eta_mage]. rewrite D. cbn [String.eqb].
  generalize (SCMage.voice_name voiceNum) as name. intros name.
  generalize (SCMage.mage_argv_strings name) as args. intros args. apply yields_ok.
  cbn [SCMage.mage set_field SCMage.eta_scmage map_insert].
  destruct (S name
    (replicate (Z.to_nat (nOfStreams + 1)) defaultInterpolationWeight) _ Hengine) as [[R' M A B Hi Ha] Sw].
  exists 0%nat. cbn [fst snd thread_at]. split; [split; [|split; [|exact L]]|].
  - constructor; [|exact M|exact A|exact B|exact Hi|exact Ha].
    intros q v' h c Q1 Q2 Q3 Q4. destruct (R' q v' h c Q1 Q2 Q3 Q4). constructor; assumption.
  - exists (Engine.handed e). split; [exact Sw|]. by split.
  - split; [|exact N]. destruct Au. constructor; assumption.
Qed.

End Start.

(** *** Every turn *)

Section Schedule.
Variable in5 : double.
Hypothesis voice_loads : forall n ls u,
  thread_at Loading ls (SCMage.mage u) -> sounding n (SCMage.mage u) ->
  yields (thread_turn in5 Loading u) (turned n ls).

Lemma thread_turn_may n p ls u :
  thread_at p ls (SCMage.mage u) -> sounding n (SCMage.mage u) ->
  may conversion (thread_turn in5 p u) (turned n ls).
Proof.
  intros T S. destruct p as [| |g|].
  - by apply may_yields, voice_loads.
  - cbn [thread_turn]. destruct (ready (SCMage.mage u)); [by apply may_yields, looping_turn|].
    cbn. by exists 0%nat.
  - by apply may_yields, generating_turn.
  - by apply pitching_turn.
Qed.

Lemma play_may ts n p ls u :
  thread_at p ls (SCMage.mage u) -> sounding n (SCMage.mage u) -> n + asked ts < 2 ^ 31 ->
  may conversion (play in5 ts p u) (played ls (asked ts)).
Proof.
  revert n p ls u. induction ts as [|[in1 in2 in3 in4 noises|] ts IH]; intros n p ls u T S Hn; cbn [play asked] in *.
  - cbn [may]. split_and!; cbn [fst snd]; [done|done|eapply thread_mage; [exact T|apply S]|].
    by rewrite (thread_labels _ _ _ T).
  - pose proof (asked_nonneg ts). eapply may_bind; [by apply (next_may _ _ _ _ _ _ n); [|lia]|].
    intros [out u1] (C & L & S1 & St). cbn [fst snd] in *.
    eapply may_bind; [apply (IH (n + zlen noises) p ls u1); [by eapply thread_audio|done|lia]|].
    intros [rest r] R. cbn [may]. by apply (played_after ls out _ _ (rest, r)).
  - eapply may_bind; [by apply (thread_turn_may n p ls)|]. intros [p1 u1] (k & T1 & S1). cbn [fst snd] in *.
    eapply may_mono; [by apply (IH n p1 (drop k ls) u1)|]. intros [xs [p2 u2]] (C & L & W & Sf).
    split_and!; try done. etrans; [exact Sf|]. exists (take k ls). by rewrite take_drop.
Qed.
End Schedule.

(** ** The construction *)

Lemma init_waiting fr m frame uf argc' argv' :
  slot_ok m -> Vocoder.frame_dims (Vocoder.streams fr) -> zlen uf = nOfStates ->
  yields (init fr m frame uf argc' argv') (fun s => waiting [] s /\ sounding 0 s /\ labelSpeed s = nZ 1).
Proof.
  intros Hm Hf Hu. destruct (init_yields fr m frame uf argc' argv') as (s & E & _ & _ & Ee & Ed & Es & Cl & Cf).
  rewrite E. apply yields_ok.
  pose proof (init_ok _ _ _ _ _ _ _ E (proj1 Hm) Hu) as W.
  assert (Sp : forall name iw e, engine_ok e ->
    let s' := s <| engine := [(name, (iw, e))] |> <| defaultEngine := name |> <| flagReady := true |> in
    speaker s' /\ speaks_with s' e).
  { intros name iw e He. destruct (init_speaks _ _ _ _ _ _ name iw e s E Hm Hf Hu He) as (S1 & T1 & K1).
    by destruct (flagReady_speaks _ _ S1 T1 K1) as (S2 & _ & K2). }
  split; [|split; [|exact Es]].
  - constructor; [exact Ee|exact Ed|by apply (mage_rest_of (held false))| |split; [exact Cl|by constructor]].
    intros name iw e He s'. destruct (Sp name iw e He) as ([W' M A B Fq X Hi Ha] & Sw).
    split; [|exact Sw]. constructor; [by apply (mage_rest_of (held false))|done..].
  - unfold init in E. apply bind_inv_Ok in E as (voc & Ev & E). apply bind_inv_Ok in E as (l & _ & E).
    assert (V : Vocoder.wf voc) by (by eapply Vocoder.vocoder_create_wf in Ev).
    apply Ok_inj in E. unfold Vocoder.create_default, Vocoder.create in Ev.
    apply bind_inv_Ok in Ev as (z & _ & Ev). destruct (z <? 0); [done|]. apply Ok_inj in Ev.
    split; [|by subst s voc]. apply (mage_audio _ W); [|by subst s]. subst s. cbn. by apply Forall_replicate.
Qed.

Lemma labels_waiting s q ls :
  waiting [] s -> queue_with q ls -> known s ls -> waiting ls (s <| labelQueue := q |>).
Proof.
  intros [E D R S _] [Wq Lq Cq] K.
  constructor; [exact E|exact D| | |split; [exact Cq|exact K]].
  - intros fq v' h c Q1 Q2 Q3 Q4. destruct (R fq v' h c Q1 Q2 Q3 Q4). constructor; assumption.
  - intros name iw e He s'. destruct (S name iw e He) as ([R' M A B Hi Ha] & Sw).
    split; [|exact Sw]. constructor; [|exact M|exact A|exact B|exact Hi|exact Ha].
    intros fq v' h c Q1 Q2 Q3 Q4. destruct (R' fq v' h c Q1 Q2 Q3 Q4). constructor; assumption.
Qed.

(** the labels of lines, which go through the static strings of the parser *)
Fixpoint parse_lines (lines : list string) (st : Label.statics)
    : Res (list (Label.t double) * Label.statics) :=
  match lines with
  | [] => Ok ([], st)
  | line :: lines =>
      '(l, st) ← Label.of_string strtod_special st line;
      '(ls, st) ← parse_lines lines st; Ok (l :: ls, st)
  end.

Lemma push_parsed lines st st' ls s :
  parse_lines lines st = Ok (ls, st') ->
  SCMage.push_lines strtod_special lines (st, s) = (s ← push_labels ls s; Ok (st', s)).
Proof.
  revert st ls s. induction lines as [|line lines IH]; intros st ls s E; cbn [parse_lines SCMage.push_lines] in *.
  { apply Ok_inj in E. by injection E as <- <-. }
  apply bind_inv_Ok in E as ([l st1] & El & E). apply bind_inv_Ok in E as ([ls1 st2] & Es & E).
  injection E as <- <-. unfold SCMage.push_line. cbn [fst snd push_labels]. rewrite El, !bind_Ok.
  destruct (pushLabel s l) as [s1| | |]; try done. rewrite !bind_Ok. by apply IH.
Qed.

(** the buffer the constructor reads *)
Definition chosen (w : SCMage.world (F := double)) (in0 : double) (b : SCMage.sndbuf (F := double)) : Prop :=
  exists n, to_int in0 = Ok n /\
    match SCMage.select_buffer n (SCMage.mNumSndBufs w) (SCMage.localBufNum w) with
    | SCMage.NoBuffer => False
    | SCMage.WorldBuffer i => rd (SCMage.mSndBufs w) i = Ok b
    | SCMage.LocalBuffer i => rd (SCMage.mLocalSndBufs w) i = Ok b
    end.

Lemma Ctor_yields w in0 b lines tail buf0 st ls st' s :
  chosen w in0 b -> SCMage.holds_lines b lines tail -> zlen buf0 = maxStrLen ->
  parse_lines lines st = Ok (ls, st') -> zlen ls <= maxLabelQueueLen ->
  waiting [] s -> sounding 0 s -> known s ls ->
  yields (SCMage.Ctor strtod_special w in0 buf0 st s) (fun r =>
    waiting ls (SCMage.mage r.2) /\ sounding 0 (SCMage.mage r.2)).
Proof.
  intros (n & En & Hb) Hl Hz Hp Hn Wt [Au N] K. unfold SCMage.Ctor. rewrite En, bind_Ok.
  assert (Y : yields (SCMage.pushLabelsFromSndBuf strtod_special b buf0 st s) (fun r =>
    waiting ls r.2 /\ sounding 0 r.2)).
  { rewrite (SCMage.lines_pushed _ b lines tail) by done. rewrite (push_parsed _ _ _ _ _ Hp).
    eapply yields_bind.
    - eapply (push_labels_queue ls s []); [|exact Hn].
      pose proof (queue_of s (rest_mage _ _ (wt_rest _ _ Wt) Au)) as Q.
      by rewrite (proj1 (wt_labels _ _ Wt)) in Q.
    - intros s1 (q & -> & Q). apply yields_ok. split; [by apply labels_waiting|].
      split; [destruct Au; by constructor|exact N]. }
  destruct (SCMage.select_buffer _ _ _); [done|rewrite Hb, bind_Ok..];
    (eapply yields_bind; [exact Y|]; intros [st1 s1] W1; by apply yields_ok).
Qed.
End Thread.

(** ** A unit that plays *)

End Playing.

(** ** A unit with small files *)

#[local] Existing Instance no_libm.

(** the windows, the low-pass filter tree and the switch of the global variance
    are the repository's; the other trees have one leaf, and the distributions
    one row *)
Definition win1 : list ascii := list_ascii_of_string "1 1.0
".
Definition win2 : list ascii := list_ascii_of_string "3 -0.5 0.0 0.5
".
Definition win3 : list ascii := list_ascii_of_string "3 1.0 -2.0 1.0
".
Definition gv_switch_inf : list ascii := quoted
"QS gv-switch { `*-pau+*`,`*-h#+*`,`*-brth+*` }
{*}[2]
{
   0 gv-switch `gv-switch_2` `gv-switch_1`
}
".
Definition dur_pdf : content := Plain 5 5 [[replicate 5 (one, one)]].
Definition mgc_pdf : content := Plain 3 3 (replicate 5 [replicate 3 (three, one)]).
Definition lf0_pdf : content := Multi 3 1 (replicate 5 [replicate 3 ([(three, one)], (one, 0))]).
Definition gv_pdf : content := Plain 1 1 [[[(three, one)]]].

Definition voice_files : list (string * list ascii) :=
  [("/tree-dur.inf", ex_dur_tree); ("/tree-mgc.inf", ex_trees); ("/tree-lf0.inf", ex_trees);
   ("/tree-lpf.inf", ex_trees); ("/dur.pdf", write_pdf dur_pdf); ("/mgc.pdf", write_pdf mgc_pdf);
   ("/lf0.pdf", write_pdf lf0_pdf); ("/lpf.pdf", write_pdf ex_plain);
   ("/mgc.win1", win1); ("/mgc.win2", win2); ("/mgc.win3", win3);
   ("/lf0.win1", win1); ("/lf0.win2", win2); ("/lf0.win3", win3); ("/lpf.win1", win1);
   ("/tree-gv-mgc.inf", ex_dur_tree); ("/tree-gv-lf0.inf", ex_dur_tree);
   ("/gv-mgc.pdf", write_pdf gv_pdf); ("/gv-lf0.pdf", write_pdf gv_pdf);
   ("/gv-switch.inf", gv_switch_inf)]%string.

Definition voice_disk (name : string) : option (list ascii) :=
  snd <$> List.find (fun f => String.eqb name (SCMage.prefix ++ "slt" ++ f.1)) voice_files.

#[local] Instance voice_on_disk : ModelFiles double := disk_files no_special voice_disk "".

Definition slt_conf : list string := SCMage.mage_argv_strings (SCMage.voice_name 5).

(** the engine that is loaded *)
Definition slt_loaded : Engine.engine (F := double) := Eval vm_compute in
  match Engine.load_engine no_special 47 slt_conf with
  | Ok e => e | _ => Engine.HTS_Engine_initialize 3 end.
Definition slt_voice : Voice double := voice_of (Engine.models slt_loaded).

Lemma slt_loads : Engine.load_engine no_special 47 slt_conf = Ok slt_loaded.
Proof. exact_no_check (eq_refl (Ok slt_loaded)). Qed.

Lemma slt_mage_set : mage_set (Engine.models slt_loaded).
Proof.
  assert (L : forall j, 2 <= j < nOfStates + 2 -> j = 2 \/ j = 3 \/ j = 4 \/ j = 5 \/ j = 6)
    by (unfold nOfStates; lia).
  constructor; [done| |done| | |].
  - apply Forall_singleton, leaf_trees_usable; [by repeat constructor| |by repeat constructor].
    by left.
  - repeat apply Forall_cons_2; [| | |constructor];
      (split; [done|]; split; [constructor; cbn; [lia| |done]; intros [|[|[|i]]] l r; try done; by intros [= <-] [= <-]
       |intros j Hj; apply Forall_singleton;
       apply leaf_trees_usable; [by repeat constructor| |by repeat constructor];
       apply L in Hj; unfold slt_loaded; cbn; rewrite !Exists_cons; cbn;
       destruct Hj as [->|[->|[->|[->| ->]]]]; cbn; tauto]).
  - intros l [= <-]. split; [done|]. repeat apply Forall_cons_2; [| | |constructor]; (split; [done|]); cbn.
    1,2: apply Forall_singleton, leaf_trees_usable; [by repeat constructor| |by repeat constructor]; by left.
    constructor.
  - intros _ s _. apply Exists_exists. eexists. split; [by left|]. right. left. apply glob_star_all.
Qed.

Definition slt_weights (iw : list double) : Prop := iw = duration_iw (Engine.settings slt_loaded).

Lemma slt_settled : settled slt_voice slt_weights.
Proof.
  intros iw iw' -> E. assert (X : Model.normalise (duration_iw (Engine.settings slt_loaded))
    (duration_interpolation_size slt_voice) = Ok (duration_iw (Engine.settings slt_loaded)))
    by (vm_compute; reflexivity).
  rewrite X in E. apply Ok_inj in E. by symmetry.
Qed.

(** the labels of the buffer: its lines but the last, which has no newline *)
Definition slt_statics : Label.statics := Label.mkStatics "" "" "".
Definition slt_label (q : string) : Label.t double := Label.mk q false (nZ 1) (-1) (-1).
Definition slt_labels : list (Label.t double) := slt_label <$> ["ab"; "c"]%string.

Lemma slt_parsed : exists st,
  parse_lines no_special ["ab"; "c"]%string slt_statics = Ok (slt_labels, st).
Proof. eexists. vm_compute. reflexivity. Qed.

Lemma slt_covered q : q ∈ ["ab"; "c"]%string -> covered slt_voice slt_weights (slt_label q).
Proof.
  intros Hq iw ->. exists [1; 1; 1; 1; 1].
  assert (E : q = "ab"%string \/ q = "c"%string) by (by rewrite !elem_of_cons, elem_of_nil in Hq; tauto).
  split; [|by repeat constructor]. split; [done|]. intros i Hi. change nOfStates with 5 in Hi.
  exists (nZ 1), 1. destruct E as [->| ->]; destruct i as [|[|[|[|[|]]]]]; try lia; (split; [done|]);
    (split; [vm_compute; reflexivity|done]).
Qed.

(** a block before the voice is there; the voice, the beginning of a label, its
    five frames, the end of its run and the pitch; a block at the shortest frame
    length, which takes frames; the beginning of the next label; and a block
    while its frames are made *)
Definition slt_block : turn := Block (nZ 100) (nZ overwrite) (nZ 0) (nZ 0) [nZ 0; nZ 0].
Definition slt_turns : list turn := slt_block :: replicate 9 Thread ++ [slt_block; Thread; slt_block].
Definition slt_world : SCMage.world (F := double) := SCMage.mkWorld [SCMage.ex_buf] 1 [] 0.
Definition slt_life := unit_life ex_check no_special voice_disk "" SCMage.fmul ModelQueue.ex_frame
  (Model.blank [0; 0; 0; 0; 0]) ModelQueue.ex_frame (replicate 5 (nZ 0)) 0 [] slt_world (nZ 0)
  (replicate 1024 NUL) slt_statics (nZ 5) slt_turns.

Lemma slt_life_returns : is_ok slt_life = true.
Proof. vm_compute. reflexivity. Qed.

End Playing.
